(* ===== verification/_CoqProject ===== *)
-Q . S2P
Prelude.v
AicToken.v
Arith256.v
Amm.v
Verifiers.v
JobEscrow.v
Staking.v
StakingRewards.v
Governance.v
Consensus.v
Bls.v
Vrf.v
Hybrid.v
HybridSafety.v
Merkle.v
Transaction.v
Storage.v
Ledger.v
LedgerSpec.v
Toy.v
LedgerBlocks.v
FeeMarket.v
Slashing.v
Mempool.v
ForkChoice.v
Block.v
ToyBlock.v
Sync.v
Engine.v
Node.v
NodeSafety.v
NodeBlocks.v
NodeDemo.v
HotStuff.v
Scheduler.v
LightClient.v
Runtime.v
Kes.v
AccountAbstraction.v
Mev.v
Rollup.v
DataAvailability.v
Snapshots.v
P2pNetwork.v
P2p.v
Gossip.v
Doubles.v
EcVrf.v
Genesis.v
VrfPos.v
KzgScheme.v
JsonRpc.v
NodeMain.v
AiMesh.v
Clients.v
