(* ===== verification/Prelude.v ===== *)
(** * Aether: a verification of the chain

    A shallow embedding of the Rust sources of Aether, a proof-of-stake
    blockchain with an AI-compute market, and the theorems that make its parts
    correct. Paths are relative to [src/].

    ** The program and its parts

    A node ([crates/node]) holds a ledger of accounts and unspent outputs in a
    key-value storage, committed by a sparse Merkle tree; a pool of pending
    transactions; a fork choice; and a consensus engine. Per slot a leader drawn
    by a verifiable random function proposes a block, validators vote with BLS
    signatures, votes of two thirds of the stake make a certificate, and a block
    is final by the two-chain rule. The running program shares the node between
    a slot loop, a network loop and a JSON-RPC server. Programs on the chain
    (token, market maker, staking, governance, job escrow, account abstraction,
    reputation) are state machines of their own. Around them are the crypto
    wrappers, the contract runtime, data availability, snapshots, light clients,
    the rollup, the peer-to-peer layer, the AI mesh and the clients.

    ** How the code is translated

    - A Rust struct is a [Record], an enum an [Inductive], a method a
      [Definition] of the same name in the [Module] of its component. A method
      [fn f(&mut self) -> Result] is a computation of the monad [M] below, which
      returns the state on both branches: what a call wrote before it failed is
      in the model.
    - Integers are [Z] kept at their width: checked, saturating and wrapping
      operations are [checked_add], [saturating_add], [wrapping_add] and so on;
      plain arithmetic wraps, as in a release build. Doubles are Stdlib's
      executable IEEE model ([Doubles]).
    - A [HashMap] is a [gmap]; where the code iterates over one, the order is a
      parameter ([HashOrder] or an argument [iter]). Clocks and random numbers
      are arguments.
    - Code outside the repository is a class whose fields are what the sources
      call and whose laws are what its documentation promises: [Digest]
      (SHA-256), [Codec], [BlockCodec], [SnapshotCodec], [RpcEnv] (bincode, JSON,
      hex), [Dalek], [DalekSigner] (ed25519), [Blst], [BlstLaws] (BLS),
      [Edwards], [EdwardsLaws] (VRF curve), [KzgCurve], [KzgLaws], [RocksDb],
      [ReedSolomon], [Zstd]. No hash is assumed free of collisions: theorems
      that depend on it conclude "or these two inputs collide". [Toy],
      [ToyBlock] and the modules named [...Demo] give executable instances; the
      hypotheses of the main theorems are shown to hold at concrete runs there.

    ** Files

    Programs on the chain ([crates/programs]):
    - [AicToken] (aic-token), [Amm] (amm/src/pool.rs), [JobEscrow] (job-escrow),
      [Governance] (governance), [AccountAbstraction] (account-abstraction).
    - [Arith256], [Staking], [StakingRewards] (staking/src/state.rs): the
      256-bit arithmetic, the operations, and the rewards and unbonding queue.
    - [Verifiers] ([crates/verifiers]): modules [Tee], [Vcr], [Kzg].

    Consensus ([crates/consensus/src], [crates/crypto]):
    - [Consensus]: modules [Quorum], [Instant] (lib.rs), [Simple] (simple.rs),
      [Pacemaker] (pacemaker.rs). [Engine]: the trait [ConsensusEngine] as a class.
    - [Hybrid] (hybrid.rs) with its theorems in [HybridSafety]; [HotStuff]
      (hotstuff.rs); [VrfPos] (vrf_pos.rs); [Slashing] (slashing.rs).
    - [Bls] (crypto/bls), [Vrf] and [EcVrf] (crypto/vrf), [Kes] (crypto/kes),
      [KzgScheme] (crypto/kzg), [Doubles] (the [f64] operations).

    State and ledger:
    - [Merkle] ([crates/state/merkle]), [Storage] ([crates/state/storage]),
      [Snapshots] ([crates/state/snapshots]), [Transaction] and [Block]
      ([crates/types]).
    - [Ledger] ([crates/ledger/src/state.rs]); [LedgerSpec] has the abstract
      state of two maps and the refinement of a transaction, [LedgerBlocks] that
      of a block; [FeeMarket] (fee_market.rs, emission.rs).
    - [Mempool] ([crates/mempool]), [Scheduler] and [Runtime]
      ([crates/runtime]: scheduler.rs, host_functions.rs, vm.rs).

    Node:
    - [ForkChoice], [Sync], [Node] ([crates/node/src]: fork_choice.rs and
      feature_gates.rs, sync.rs, node.rs and network_handler.rs), over any
      instance of [ConsensusEngine]; [NodeSafety] has the invariants that every
      handler keeps, [NodeBlocks] the refinement of a received block,
      [NodeDemo] concrete nodes.
    - [Genesis] (chain_config.rs, genesis.rs, hybrid_node.rs), [JsonRpc]
      ([crates/rpc/json-rpc] and the backend of main.rs), [NodeMain] (main.rs:
      the tasks as turns on the shared state).

    Network and services: [P2pNetwork], [P2p] and [Gossip] ([crates/p2p],
    [crates/networking/gossipsub]), [DataAvailability] ([crates/da]),
    [LightClient], [Mev], [Rollup] (the crates of these names), [AiMesh]
    ([ai-mesh], [crates/programs/reputation]), [Clients] ([crates/sdk/rust],
    [crates/tools/faucet], [crates/tools/indexer]).

    ** What the theorems show

    - Consensus. At most one block of a slot has a certificate, in every state
      the engine reaches; the finalized slot moves only by the two-chain rule
      (or the rule for a single validator); two certificates of one phase have
      common signers with a third of the stake, whose two votes were delivered
      with valid signatures; the genesis starts an engine that satisfies the
      invariant; the block of an elected leader is accepted.
    - Node. In every interleaving of its tasks a node votes once per slot; a
      received block is applied as its specification says, or fails without a
      trace in the storage; the recursion through waiting blocks ends; sync
      hands over chains.
    - Ledger. Speculative and direct execution of a block agree and refine the
      abstract execution, which conserves the supply; a Merkle proof that
      verifies shows the value in the tree, or a collision; an imported snapshot
      leaves the accounts of its root, or a collision.
    - Programs. Invariants over every call, on [Ok] and on [Err], within stated
      bounds, with counterexamples outside them: escrow equals open payments,
      stakes equal their totals, tallies match voting power, the value of a pool
      share does not fall, balances sum to the supply, a batch of user
      operations is executed once.
    - Runtime, network and services: bounds of execution, gas accounting,
      serializability of the parallel schedule, delivery of erasure-coded
      blocks, bans and rate limits, gossip and propagation phases, light-client
      overlap, ordering of revealed transactions, limits of the faucet, and the
      choices of the AI router.
    - Lemmas of the [...Demo] modules, and some theorems (transfers through the
      server of a development chain, the transfer builder of the SDK), show
      behaviour that differs from what the code or its comments intend.

    ** Bounds and fuel

    Loops that are not structural take fuel, computed from their input, with a
    lemma that it is enough: [Amm.integer_sqrt] (the logarithm of its argument
    plus two), [Kes.compute_merkle_root] (the number of keys), [LightClient] eviction
    (the size of the store), [Scheduler.schedule] (the number of transactions),
    [Engine.skip_to_slot] (the distance of the slots); decimal and hexadecimal
    digits use the largest number of digits of their width; the eviction of the
    node's block cache takes one more than the number of slots it holds, each
    round removing one. The recursion of [on_block_received] through orphans is
    bounded by the number of parents that are waited for (a theorem of
    [NodeSafety]). A guest of the contract machine is a finite
    tree of steps, because each loop consumes fuel of the machine.

    ** Not modelled

    Input and output and what only observes: HTTP, the libp2p swarm, QUIC, the
    file system below snapshots, logging, metrics, tracing, the
    proof-of-history recorder (used for metrics only), the firehose stream.
    Programs that only drive modelled operations: the command-line tool, key,
    load and score tools, the SDK's HTTP client, the contract SDK (guest side of
    the host functions), the TypeScript and Python SDKs, explorer and wallet.
    The AI worker, whose inference is a placeholder in the source. Parsing of
    TOML and JSON. Compilation and instruction semantics of WebAssembly belong
    to the engine. I/O errors of the storage and poisoned locks are left out.

    This file: identifiers, the result type and the monad, machine integers,
    bytes, sorting, sums over maps, and the tactics and hints they share. *)

From stdpp Require Export base gmap list strings fin_maps sorting.
From Stdlib Require Export ZArith Lia.

#[global] Set Default Goal Selector "!".

Open Scope Z_scope.

(** ** Identifiers

    A 20-byte [Address], a 32-byte [H256], a public key or a signature is only
    compared, hashed and used as a map key by the code that is modelled; each
    is a natural number (the integer the byte array encodes). *)

Abbreviation Address := N (only parsing).
Abbreviation H256 := N (only parsing).
Abbreviation PublicKey := N (only parsing).

(** ** Results and the state-and-error monad

    A Rust method [fn f(&mut self, ..) -> Result<A, E>] that returns [Err]
    keeps the mutations it made before the error: the monad returns the state
    on both branches, so partial updates are visible in the model. *)

Inductive result (E A : Type) : Type :=
| Ok (a : A)
| Err (e : E).
Arguments Ok {E A} a.
Arguments Err {E A} e.

Definition is_ok {E A} (r : result E A) : bool :=
  match r with Ok _ => true | Err _ => false end.

#[global] Instance result_ret {E} : MRet (result E) := λ A a, Ok a.
#[global] Instance result_bind {E} : MBind (result E) := λ A B f r,
  match r with Ok a => f a | Err e => Err e end.
#[global] Instance result_throw {E} : MThrow E (result E) := λ A e, Err e.

Definition M (S E A : Type) : Type := S → S * result E A.

#[global] Instance M_ret {S E} : MRet (M S E) := λ A a s, (s, Ok a).
#[global] Instance M_bind {S E} : MBind (M S E) := λ A B f m s,
  match m s with
  | (s', Ok a) => f a s'
  | (s', Err e) => (s', Err e)
  end.
#[global] Instance M_throw {S E} : MThrow E (M S E) := λ A e s, (s, Err e).

(** [if b { return Err(e) }]. *)
Definition bail_if {E} {F : Type → Type} `{MThrow E F, MRet F} (b : bool) (e : E) : F unit :=
  if b then mthrow e else mret tt.

(** [o.ok_or(e)?]. *)
Definition ok_or {E} {F : Type → Type} `{MThrow E F, MRet F} {A} (o : option A) (e : E) : F A :=
  match o with Some a => mret a | None => mthrow e end.

Definition get_state {S E} : M S E S := λ s, (s, Ok s).
Definition put_state {S E} (s : S) : M S E unit := λ _, (s, Ok tt).
Definition modify {S E} (f : S → S) : M S E unit := λ s, (f s, Ok tt).
(** A [&self] method called from a [&mut self] one. *)
Definition reads {S E A} (f : S → result E A) : M S E A := λ s, (s, f s).

(** Error values of the functions that return [Result<_, String>] or
    [anyhow::Result]: the message, with the integers a formatted message shows. *)
Inductive error : Type :=
| Msg (text : string)
| Fmt (text : string) (args : list Z).

(** [r.map_err(|e| format!("{prefix}{e}"))]. *)
Definition prefix_error (prefix : string) (e : error) : error :=
  match e with
  | Msg t => Msg (prefix +:+ t)
  | Fmt t a => Fmt (prefix +:+ t) a
  end.

Definition map_err {E E' A} (f : E → E') (r : result E A) : result E' A :=
  match r with Ok a => Ok a | Err e => Err (f e) end.

(** ** Unsigned machine integers

    A [u32], [u64] or [u128] is a [Z]; the operations below are those of the
    Rust core library the code calls, with the width's maximum as argument. *)

Definition U8_MAX : Z := 255.
Definition U16_MAX : Z := 65535.
Definition U32_MAX : Z := 4294967295.
Definition U64_MAX : Z := 18446744073709551615.
Definition U128_MAX : Z := 340282366920938463463374607431768211455.

Definition in_range (max x : Z) : Prop := 0 ≤ x ≤ max.
Abbreviation is_u16 := (in_range U16_MAX).
Abbreviation is_u32 := (in_range U32_MAX).
Abbreviation is_u64 := (in_range U64_MAX).
Abbreviation is_u128 := (in_range U128_MAX).

Definition checked_add (max a b : Z) : option Z :=
  if a + b <=? max then Some (a + b) else None.
Definition checked_sub (a b : Z) : option Z :=
  if b <=? a then Some (a - b) else None.
Definition checked_mul (max a b : Z) : option Z :=
  if a * b <=? max then Some (a * b) else None.
Definition saturating_add (max a b : Z) : Z := Z.min max (a + b).
Definition saturating_sub (a b : Z) : Z := Z.max 0 (a - b).
Definition saturating_mul (max a b : Z) : Z := Z.min max (a * b).
(** [a + b] and [a * b] of the release profile (Cargo.toml sets no
    [overflow-checks]): reduced modulo the width. *)
Definition wrapping_add (max a b : Z) : Z := (a + b) mod (max + 1).
Definition wrapping_sub (max a b : Z) : Z := (a - b) mod (max + 1).
Definition wrapping_mul (max a b : Z) : Z := (a * b) mod (max + 1).
Definition wrapping_shl (max a n : Z) : Z := (Z.shiftl a n) mod (max + 1).

(** A sum of two [i32]. *)
Definition wrap_i32 (x : Z) : Z := (x + 2 ^ 31) mod 2 ^ 32 - 2 ^ 31.

Arguments checked_add : simpl never.
Arguments checked_sub : simpl never.
Arguments checked_mul : simpl never.
Arguments saturating_add : simpl never.
Arguments saturating_sub : simpl never.
Arguments saturating_mul : simpl never.
Arguments wrapping_add : simpl never.
Arguments wrapping_sub : simpl never.
Arguments wrapping_mul : simpl never.
Arguments wrapping_shl : simpl never.
Arguments U64_MAX : simpl never.
Arguments U128_MAX : simpl never.

(** ** Automation *)

Ltac unfold_ints :=
  unfold in_range, saturating_add, saturating_sub, saturating_mul,
    U8_MAX, U16_MAX, U32_MAX, U64_MAX, U128_MAX in *.

(** Linear arithmetic after the widths and the saturating operations are
    unfolded. *)
Ltac ulia := unfold_ints; lia.

Lemma checked_add_Some max a b c : checked_add max a b = Some c ↔ c = a + b ∧ a + b ≤ max.
Proof. unfold checked_add. case_match; naive_solver lia. Qed.
Lemma checked_add_None max a b : checked_add max a b = None ↔ max < a + b.
Proof. unfold checked_add. case_match; naive_solver lia. Qed.
Lemma checked_sub_Some a b c : checked_sub a b = Some c ↔ c = a - b ∧ b ≤ a.
Proof. unfold checked_sub. case_match; naive_solver lia. Qed.
Lemma checked_sub_None a b : checked_sub a b = None ↔ a < b.
Proof. unfold checked_sub. case_match; naive_solver lia. Qed.
Lemma checked_mul_Some max a b c : checked_mul max a b = Some c ↔ c = a * b ∧ a * b ≤ max.
Proof. unfold checked_mul. case_match; naive_solver lia. Qed.
Lemma checked_mul_None max a b : checked_mul max a b = None ↔ max < a * b.
Proof. unfold checked_mul. case_match; naive_solver lia. Qed.

Lemma mul_nonneg a b : 0 ≤ a → 0 ≤ b → 0 ≤ a * b.
Proof. nia. Qed.

Ltac clean_ints :=
  repeat match goal with
  | H : checked_add _ _ _ = Some _ |- _ => apply checked_add_Some in H as [? ?]
  | H : checked_add _ _ _ = None |- _ => apply checked_add_None in H
  | H : checked_sub _ _ = Some _ |- _ => apply checked_sub_Some in H as [? ?]
  | H : checked_sub _ _ = None |- _ => apply checked_sub_None in H
  | H : checked_mul _ _ _ = Some _ |- _ => apply checked_mul_Some in H as [? ?]
  | H : checked_mul _ _ _ = None |- _ => apply checked_mul_None in H
  | H : (_ <? _) = true |- _ => apply Z.ltb_lt in H
  | H : (_ <? _) = false |- _ => apply Z.ltb_ge in H
  | H : (_ <=? _) = true |- _ => apply Z.leb_le in H
  | H : (_ <=? _) = false |- _ => apply Z.leb_gt in H
  | H : (_ =? _) = true |- _ => apply Z.eqb_eq in H
  | H : (_ =? _) = false |- _ => apply Z.eqb_neq in H
  | H : (_ =? _)%N = true |- _ => apply N.eqb_eq in H
  | H : (_ =? _)%N = false |- _ => apply N.eqb_neq in H
  | H : negb _ = true |- _ => apply negb_true_iff in H
  | H : negb _ = false |- _ => apply negb_false_iff in H
  | H : (_ || _) = false |- _ => apply orb_false_iff in H as [? ?]
  | H : (_ && _) = true |- _ => apply andb_true_iff in H as [? ?]
  | H : bool_decide (?x ≠ ?y) = false |- _ => apply bool_decide_eq_false, dec_stable in H
  | H : bool_decide _ = true |- _ => apply bool_decide_eq_true in H
  | H : bool_decide _ = false |- _ => apply bool_decide_eq_false in H
  end.

(** Expose the monadic operations of a computation. *)
Ltac unfold_M :=
  unfold bail_if, ok_or, get_state, put_state, modify, reads,
    mbind, mret, mthrow, M_bind, M_ret, M_throw,
    result_bind, result_ret, result_throw in *; cbn beta iota zeta in *.

(** Run a computation in the hypotheses: split every guard, drop the branches
    that contradict the result. *)
Ltac run := unfold_M; simplify_eq/=; repeat (case_match; simplify_eq/=); clean_ints.

(** The same on the hypothesis [H : op .. s = (s', r)], keeping names: the
    innermost guard is split first, and [s'] and [r] are replaced last. *)
Ltac run_in H :=
  unfold_M;
  repeat (cbn beta iota zeta in H;
          match type of H with
          | context [match ?x with _ => _ end] =>
              lazymatch x with
              | context [match _ with _ => _ end] => fail
              | _ => destruct x eqn:?
              end
          end);
  cbn beta iota zeta in H;
  first [injection H as <- <- | injection H as <- [= <-] | injection H as <-; idtac
        | discriminate H | idtac];
  clean_ints.

(** Split the innermost guard of the goal. *)
Ltac split_guard :=
  match goal with
  | |- context [match ?x with _ => _ end] =>
      lazymatch x with
      | context [match _ with _ => _ end] => fail
      | _ => destruct x eqn:?
      end
  end; cbn beta iota zeta.

(** Facts about the operations that hold for the whole library. *)
Lemma bind_Ok {S E A B} (m : M S E A) (f : A → M S E B) s s' b :
  (m ≫= f) s = (s', Ok b) ↔ ∃ s1 a, m s = (s1, Ok a) ∧ f a s1 = (s', Ok b).
Proof. unfold_M. destruct (m s) as [s1 [a|e]]; naive_solver. Qed.

(** The [Ok] results of the pure error monad. *)
Lemma res_bind_Ok {E A B} (m : result E A) (f : A → result E B) b :
  m ≫= f = Ok b ↔ ∃ a, m = Ok a ∧ f a = Ok b.
Proof. unfold_M. destruct m; naive_solver. Qed.
Lemma res_bail_Ok {E B} (c : bool) (e : E) (m : result E B) b :
  (bail_if c e;; m) = Ok b ↔ c = false ∧ m = Ok b.
Proof. unfold_M. destruct c; naive_solver. Qed.
Lemma res_bail_last {E} (c : bool) (e : E) u : bail_if (F := result E) c e = Ok u ↔ c = false.
Proof. unfold_M. destruct c, u; naive_solver. Qed.
Lemma res_ok_or_Ok {E A} (o : option A) (e : E) a : ok_or (F := result E) o e = Ok a ↔ o = Some a.
Proof. unfold_M. destruct o; naive_solver. Qed.
Lemma res_seq_Ok {E B} (m : result E unit) (k : result E B) b :
  (m;; k) = Ok b ↔ m = Ok tt ∧ k = Ok b.
Proof. rewrite res_bind_Ok. split; [intros ([] & ?); auto|intros; exists tt; auto]. Qed.

Lemma res_seq_intro {E A B} (m : result E A) (f : A → result E B) a b :
  m = Ok a → f a = Ok b → m ≫= f = Ok b.
Proof. by intros -> ?. Qed.

(** Invert a successful run of the pure error monad into the conditions it
    passed. *)
Ltac res_inv :=
  repeat match goal with
  | H : (_ ≫= _) = Ok _ |- _ => apply res_bind_Ok in H as (? & ? & ?)
  | H : bail_if _ _ = Ok _ |- _ => apply res_bail_last in H
  | H : ok_or _ _ = Ok _ |- _ => apply res_ok_or_Ok in H
  | H : mret _ = Ok _ |- _ => injection H as <-
  | H : mthrow _ = Ok _ |- _ => discriminate H
  | u : unit |- _ => destruct u
  end; clean_ints.

(** ** Sums over finite maps and lists *)

Definition map_sum {K V} `{Countable K} (f : V → Z) (m : gmap K V) : Z :=
  map_fold (λ _ v acc, f v + acc) 0 m.

#[global] Arguments map_sum : simpl never.

Definition sum_list (l : list Z) : Z := foldr Z.add 0 l.

Section map_sum.
Context {K V : Type} `{Countable K} (f : V → Z).
Implicit Types m : gmap K V.

Lemma map_sum_empty : map_sum f (∅ : gmap K V) = 0.
Proof. apply map_fold_empty. Qed.

Lemma map_sum_insert_new m k v :
  m !! k = None → map_sum f (<[k:=v]> m) = f v + map_sum f m.
Proof.
  intros Hk. unfold map_sum.
  rewrite (map_fold_insert_L (λ (_ : K) (v : V) acc, f v + acc)); [done| |done].
  intros; lia.
Qed.

Lemma map_sum_delete m k v :
  m !! k = Some v → map_sum f m = f v + map_sum f (delete k m).
Proof.
  intros Hk. rewrite <- (map_sum_insert_new (delete k m) k v) by apply lookup_delete_eq.
  by rewrite insert_delete_eq, insert_id.
Qed.

Lemma map_sum_insert m k v :
  map_sum f (<[k:=v]> m) = f v - from_option f 0 (m !! k) + map_sum f m.
Proof.
  destruct (m !! k) as [w|] eqn:Hk; cbn.
  - rewrite (map_sum_delete m k w Hk), <- (insert_delete_eq m k v).
    rewrite map_sum_insert_new by apply lookup_delete_eq. lia.
  - rewrite map_sum_insert_new by done. lia.
Qed.

Lemma map_sum_delete_opt m k :
  map_sum f (delete k m) = map_sum f m - from_option f 0 (m !! k).
Proof.
  destruct (m !! k) as [w|] eqn:Hk; cbn.
  - rewrite (map_sum_delete m k w Hk). lia.
  - rewrite delete_id by done. lia.
Qed.

Lemma map_sum_nonneg m :
  (∀ k v, m !! k = Some v → 0 ≤ f v) → 0 ≤ map_sum f m.
Proof.
  induction m as [|k v m Hk IH] using map_ind; intros Hf.
  - by rewrite map_sum_empty.
  - rewrite map_sum_insert_new by done.
    pose proof (Hf k v (lookup_insert_eq _ _ _)).
    assert (0 ≤ map_sum f m); [|lia].
    apply IH. intros i w Hi. apply (Hf i).
    rewrite lookup_insert_ne; [done|congruence].
Qed.

Lemma map_sum_lookup_le m k v :
  (∀ k v, m !! k = Some v → 0 ≤ f v) → m !! k = Some v → f v ≤ map_sum f m.
Proof.
  intros Hf Hk. rewrite (map_sum_delete m k v Hk).
  assert (0 ≤ map_sum f (delete k m)); [|lia].
  apply map_sum_nonneg. intros i w [_ Hi]%lookup_delete_Some. eauto.
Qed.
End map_sum.

Lemma map_sum_ext {K V} `{Countable K} (f g : V → Z) (m : gmap K V) :
  (∀ k v, m !! k = Some v → f v = g v) → map_sum f m = map_sum g m.
Proof.
  induction m as [|k v m Hk IH] using map_ind; intros Hfg.
  - by rewrite !map_sum_empty.
  - rewrite !map_sum_insert_new by done. f_equal.
  + apply (Hfg k). apply lookup_insert_eq.
  + apply IH. intros i w Hi. apply (Hfg i). rewrite lookup_insert_ne; congruence.
Qed.

Lemma map_sum_union {K V} `{Countable K} (f : V → Z) (m1 m2 : gmap K V) :
  m1 ##ₘ m2 → map_sum f (m1 ∪ m2) = map_sum f m1 + map_sum f m2.
Proof.
  revert m2. induction m1 as [|k v m1 Hk IH] using map_ind; intros m2 Hd.
  - by rewrite map_sum_empty, (left_id_L ∅ (∪)).
  - apply map_disjoint_insert_l in Hd as [Hk2 Hd].
    rewrite <- insert_union_l, !map_sum_insert_new by (try apply lookup_union_None; done).
    rewrite IH by done. lia.
Qed.

Lemma map_sum_subseteq {K V} `{Countable K} (f : V → Z) (m1 m2 : gmap K V) :
  m1 ⊆ m2 → (∀ k v, m2 !! k = Some v → 0 ≤ f v) → map_sum f m1 ≤ map_sum f m2.
Proof.
  intros Hsub Hf. rewrite <- (map_difference_union m1 m2 Hsub).
  rewrite map_sum_union by (by apply map_disjoint_difference_r1).
  assert (0 ≤ map_sum f (m2 ∖ m1)); [|lia].
  apply map_sum_nonneg. intros k v [Hk _]%lookup_difference_Some. eauto.
Qed.

Lemma map_sum_fmap {K V W} `{Countable K} (f : W → Z) (g : V → W) (m : gmap K V) :
  map_sum f (g <$> m) = map_sum (f ∘ g) m.
Proof.
  induction m as [|k v m Hk IH] using map_ind; [by rewrite fmap_empty, !map_sum_empty|].
  rewrite fmap_insert, !map_sum_insert_new by (rewrite ?lookup_fmap, ?Hk; done). by rewrite IH.
Qed.

(** [m.entry(k).or_insert(d)]: the entry exists afterwards. *)
Definition or_insert {K V} `{Countable K} (k : K) (d : V) (m : gmap K V) : gmap K V :=
  match m !! k with Some _ => m | None => <[k:=d]> m end.

#[global] Arguments or_insert : simpl never.

Lemma lookup_or_insert {K V} `{Countable K} (k i : K) (d : V) (m : gmap K V) :
  or_insert k d m !! i = if decide (i = k) then Some (default d (m !! k)) else m !! i.
Proof.
  unfold or_insert. destruct (m !! k) eqn:?; case_decide; subst; cbn; try done.
  - by rewrite lookup_insert_eq.
  - by rewrite lookup_insert_ne.
Qed.

Lemma insert_or_insert {K V} `{Countable K} (k : K) (d v : V) (m : gmap K V) :
  <[k:=v]> (or_insert k d m) = <[k:=v]> m.
Proof. unfold or_insert. destruct (m !! k); [done|]. apply insert_insert_eq. Qed.

Lemma map_sum_or_insert {K V} `{Countable K} (f : V → Z) k d (m : gmap K V) :
  f d = 0 → map_sum f (or_insert k d m) = map_sum f m.
Proof.
  intros Hd. unfold or_insert. destruct (m !! k) eqn:Hk; [done|].
  rewrite map_sum_insert_new by done. lia.
Qed.

(** A write through [get_mut] to an entry that exists. *)
Lemma alter_lookup {K V} `{Countable K} (f : V → V) (k : K) (v : V) (m : gmap K V) :
  m !! k = Some v → alter f k m = <[k := f v]> m.
Proof.
  intros Hk. apply map_eq. intros i. destruct (decide (i = k)) as [->|Hi].
  - by rewrite lookup_alter_eq, lookup_insert_eq, Hk.
  - by rewrite lookup_alter_ne, lookup_insert_ne.
Qed.

(** The total of a map from keys to amounts. *)
Definition map_total {K} `{Countable K} (m : gmap K Z) : Z := map_sum (λ v, v) m.

#[global] Arguments map_total : simpl never.

Section map_total.
Context {K : Type} `{Countable K}.
Implicit Types m : gmap K Z.

Lemma map_total_empty : map_total (∅ : gmap K Z) = 0.
Proof. apply map_sum_empty. Qed.

Lemma map_total_insert m k v :
  map_total (<[k:=v]> m) = v - default 0 (m !! k) + map_total m.
Proof. unfold map_total. rewrite map_sum_insert. by destruct (m !! k). Qed.

Lemma map_total_delete m k :
  map_total (delete k m) = map_total m - default 0 (m !! k).
Proof. unfold map_total. rewrite map_sum_delete_opt. by destruct (m !! k). Qed.

Lemma map_total_nonneg m : map_Forall (λ _ v, 0 ≤ v) m → 0 ≤ map_total m.
Proof. apply map_sum_nonneg. Qed.

Lemma map_total_lookup m k :
  map_Forall (λ _ v, 0 ≤ v) m → 0 ≤ default 0 (m !! k) ≤ map_total m.
Proof.
  intros Hm. pose proof (map_total_nonneg (delete k m)) as Hd.
  rewrite map_total_delete in Hd. split.
  - destruct (m !! k) eqn:E; [by apply (Hm k)|done].
  - specialize (Hd (map_Forall_delete _ _ _ Hm)). lia.
Qed.

(** Two entries together are at most the total. *)
Lemma map_total_lookup2 m i j :
  map_Forall (λ _ v, 0 ≤ v) m → i ≠ j →
  default 0 (m !! i) + default 0 (m !! j) ≤ map_total m.
Proof.
  intros Hm Hij. pose proof (map_total_lookup (delete i m) j) as Hd.
  rewrite lookup_delete_ne, map_total_delete in Hd by done.
  specialize (Hd (map_Forall_delete _ _ _ Hm)). lia.
Qed.

Lemma map_total_or_insert m k : map_total (or_insert k 0 m) = map_total m.
Proof.
  unfold or_insert. destruct (m !! k) eqn:E; [done|].
  rewrite map_total_insert, E. cbn. lia.
Qed.
End map_total.

Lemma sum_list_app l1 l2 : sum_list (l1 ++ l2) = sum_list l1 + sum_list l2.
Proof. unfold sum_list. induction l1; cbn; lia. Qed.

#[global] Instance sum_list_perm : Proper ((≡ₚ) ==> (=)) sum_list.
Proof. induction 1; cbn; unfold sum_list in *; cbn in *; lia. Qed.

Lemma map_sum_to_list {K V} `{Countable K} (f : V → Z) (m : gmap K V) :
  map_sum f m = sum_list (f ∘ snd <$> map_to_list m).
Proof.
  induction m as [|k v m Hk IH] using map_ind.
  - by rewrite map_sum_empty, map_to_list_empty.
  - rewrite map_sum_insert_new, map_to_list_insert by done. cbn. by rewrite IH.
Qed.

(** [l.iter().fold(0, u128::saturating_add)]. *)
Lemma foldl_saturating max l acc :
  Forall (λ x, 0 ≤ x) l → 0 ≤ acc ≤ max →
  foldl (saturating_add max) acc l = Z.min max (acc + sum_list l).
Proof.
  intros Hl. revert acc. induction Hl as [|x l Hx Hl IH]; intros acc Ha; cbn.
  - unfold sum_list. cbn. lia.
  - assert (0 ≤ sum_list l) by (clear -Hl; induction Hl; unfold sum_list in *; cbn; lia).
    rewrite IH by (unfold saturating_add; lia). unfold saturating_add, sum_list in *. cbn. lia.
Qed.

(** ** Vectors searched by a predicate *)

(** [v.iter().find(p)]. *)
Fixpoint find_first {A} (p : A → bool) (l : list A) : option A :=
  match l with
  | [] => None
  | x :: l => if p x then Some x else find_first p l
  end.

(** A write through [v.iter_mut().find(p)] (or through [v[i]] with
    [i = v.iter().position(p)]): the first match only. *)
Fixpoint alter_first {A} (p : A → bool) (f : A → A) (l : list A) : list A :=
  match l with
  | [] => []
  | x :: l => if p x then f x :: l else x :: alter_first p f l
  end.

(** [v.retain(p)]. *)
Definition retain {A} (p : A → bool) (l : list A) : list A := filter (λ x, p x = true) l.

Definition sum_of {A} (f : A → Z) (l : list A) : Z := sum_list (f <$> l).
#[global] Arguments sum_of : simpl never.

Section sum_of.
Context {A : Type}.
Implicit Types (f g : A → Z) (p : A → bool) (l : list A).

Lemma sum_of_cons f x l : sum_of f (x :: l) = f x + sum_of f l.
Proof. done. Qed.
Lemma sum_of_app f l1 l2 : sum_of f (l1 ++ l2) = sum_of f l1 + sum_of f l2.
Proof. unfold sum_of. by rewrite fmap_app, sum_list_app. Qed.
Lemma sum_of_nonneg f l : Forall (λ x, 0 ≤ f x) l → 0 ≤ sum_of f l.
Proof. induction 1; [done|]. rewrite sum_of_cons. lia. Qed.
Lemma sum_of_le f g l : Forall (λ x, f x ≤ g x) l → sum_of f l ≤ sum_of g l.
Proof. induction 1; [done|]. rewrite !sum_of_cons. lia. Qed.
Lemma sum_of_ext f g l : Forall (λ x, f x = g x) l → sum_of f l = sum_of g l.
Proof. induction 1; [done|]. rewrite !sum_of_cons. lia. Qed.
Lemma sum_of_add f g l : sum_of (λ x, f x + g x) l = sum_of f l + sum_of g l.
Proof. induction l; [done|]. rewrite !sum_of_cons. lia. Qed.
Lemma sum_of_elem f l x : Forall (λ x, 0 ≤ f x) l → x ∈ l → f x ≤ sum_of f l.
Proof.
  induction 1 as [|y l Hy Hl IH]; [by intros ?%not_elem_of_nil|].
  intros [->|Hx]%elem_of_cons; rewrite sum_of_cons.
  - pose proof (sum_of_nonneg f l Hl). lia.
  - specialize (IH Hx). lia.
Qed.

#[global] Instance sum_of_perm f : Proper ((≡ₚ) ==> (=)) (sum_of f).
Proof. intros l1 l2 H. unfold sum_of. by rewrite H. Qed.

Lemma find_first_Some p l x : find_first p l = Some x → x ∈ l ∧ p x = true.
Proof.
  induction l as [|y l IH]; cbn; [done|]. destruct (p y) eqn:E; [intros [= ->]; split; [left|done]|].
  intros [? ?]%IH. split; [by right|done].
Qed.
Lemma find_first_None p l : find_first p l = None ↔ Forall (λ x, p x = false) l.
Proof.
  induction l as [|y l IH]; cbn; [done|]. rewrite Forall_cons, <- IH.
  destruct (p y); naive_solver.
Qed.

Lemma sum_of_alter_first f p u l x :
  find_first p l = Some x → sum_of f (alter_first p u l) = sum_of f l - f x + f (u x).
Proof.
  induction l as [|y l IH]; cbn [find_first alter_first]; [done|].
  destruct (p y); [intros [= ->]; rewrite !sum_of_cons; lia|].
  intros ?%IH. rewrite !sum_of_cons. lia.
Qed.
Lemma alter_first_None p u l : find_first p l = None → alter_first p u l = l.
Proof.
  induction l as [|y l IH]; cbn; [done|]. destruct (p y); [done|]. intros ?%IH. by f_equal.
Qed.
Lemma alter_first_Forall (P : A → Prop) p u l :
  Forall P l → (∀ x, x ∈ l → p x = true → P x → P (u x)) → Forall P (alter_first p u l).
Proof.
  induction 1 as [|y l Hy Hl IH]; intros Hu; cbn; [constructor|].
  destruct (p y) eqn:E; constructor; try done.
  - apply Hu; [left|done..].
  - apply IH. intros. apply Hu; [by right|done..].
Qed.
Lemma fmap_alter_first {B} (h : A → B) p u l :
  (∀ x, h (u x) = h x) → h <$> alter_first p u l = h <$> l.
Proof.
  intros Hh. induction l as [|y l IH]; cbn; [done|].
  destruct (p y); cbn; [by rewrite Hh|by rewrite IH].
Qed.

Lemma sum_of_retain f p l :
  Forall (λ x, p x = false → f x = 0) l → sum_of f (retain p l) = sum_of f l.
Proof.
  unfold retain. induction 1 as [|x l Hx Hl IH]; [done|].
  rewrite filter_cons, sum_of_cons. case_decide as Hp; [rewrite sum_of_cons; lia|].
  apply not_true_is_false in Hp. rewrite IH, (Hx Hp). done.
Qed.
Lemma Forall_retain (P : A → Prop) p l : Forall P l → Forall P (retain p l).
Proof. rewrite !Forall_forall. intros Hl x [_ Hx]%list_elem_of_filter. auto. Qed.
Lemma NoDup_fmap_retain {B} (h : A → B) p l : NoDup (h <$> l) → NoDup (h <$> retain p l).
Proof.
  unfold retain. induction l as [|x l IH]; [done|].
  rewrite fmap_cons, filter_cons. intros [Hx Hn]%NoDup_cons.
  case_decide; [|auto]. rewrite fmap_cons. apply NoDup_cons. split; [|auto].
  intros (y & E & [_ Hy]%list_elem_of_filter)%list_elem_of_fmap.
  apply Hx. rewrite E. by apply list_elem_of_fmap_2.
Qed.
Lemma elem_of_retain p l x : x ∈ retain p l ↔ p x = true ∧ x ∈ l.
Proof. unfold retain. by rewrite list_elem_of_filter. Qed.

Lemma sum_of_alter_index f (u : A → A) l i x :
  l !! i = Some x → sum_of f (alter u i l) = sum_of f l - f x + f (u x).
Proof.
  revert i. induction l as [|y l IH]; intros [|i]; cbn; try done.
  - intros [= ->]. unfold sum_of, sum_list. cbn. lia.
  - intros Hi. specialize (IH _ Hi). unfold sum_of, sum_list in *. cbn. lia.
Qed.

(** Lists with a key: at most one element matches. *)
Section keyed.
Context {B : Type} (h : A → B) (k : B) (p : A → bool).
Hypothesis p_key : ∀ x, p x = true ↔ h x = k.

Lemma find_first_unique l x y :
  NoDup (h <$> l) → find_first p l = Some y → x ∈ l → p x = true → x = y.
Proof.
  induction l as [|z l IH]; cbn; [done|]. intros [Hz Hn]%NoDup_cons.
  destruct (p z) eqn:E.
  - intros [= ->] [->|Hx]%elem_of_cons Hp; [done|]. destruct Hz.
    rewrite (proj1 (p_key _) E), <- (proj1 (p_key _) Hp). by apply list_elem_of_fmap_2.
  - intros Hf [->|Hx]%elem_of_cons Hp; [congruence|]. by apply IH.
Qed.

Lemma alter_first_Forall_unique (Q : A → Prop) (u : A → A) l :
  NoDup (h <$> l) → (∀ x, x ∈ l → p x = true → Q (u x)) → (∀ x, x ∈ l → p x = false → Q x) →
  Forall Q (alter_first p u l).
Proof.
  induction l as [|z l IH]; cbn; [constructor|]. intros [Hz Hn]%NoDup_cons Hu Ho.
  destruct (p z) eqn:E; constructor; try (by apply Hu || by apply Ho; left).
  - apply Hu; [left|done].
  - apply Forall_forall. intros x Hx. apply Ho; [by right|]. apply not_true_is_false. intros Hp.
    apply Hz. rewrite (proj1 (p_key _) E), <- (proj1 (p_key _) Hp). by apply list_elem_of_fmap_2.
  - apply Ho; [left|done].
  - apply IH; [done|..]; intros; [apply Hu|apply Ho]; try (by right); done.
Qed.

Lemma find_first_alter_first (u : A → A) l y :
  (∀ x, h (u x) = h x) → find_first p l = Some y → find_first p (alter_first p u l) = Some (u y).
Proof.
  intros Hu. induction l as [|z l IH]; cbn; [done|]. destruct (p z) eqn:E; cbn.
  - intros [= ->]. assert (p (u y) = true) as ->; [|done]. apply p_key. rewrite Hu. by apply p_key.
  - rewrite E. apply IH.
Qed.
End keyed.
End sum_of.

Lemma existsb_find {A} (p : A → bool) l : existsb p l = bool_decide (is_Some (find_first p l)).
Proof.
  induction l as [|x l IH]; cbn; [done|]. by destruct (p x).
Qed.

(** ** Bytes

    A byte is a [Z] in [0, 255]; [to_le_bytes n] and [to_be_bytes n] are the
    encodings of an [n]-byte integer. [as_bytes n] is the byte array of an
    identifier of [n] bytes. *)

Fixpoint to_le_bytes (n : nat) (z : Z) : list Z :=
  match n with O => [] | S n => z mod 256 :: to_le_bytes n (z / 256) end.
Definition to_be_bytes (n : nat) (z : Z) : list Z := reverse (to_le_bytes n z).
Definition as_bytes (n : nat) (id : N) : list Z := to_be_bytes n (Z.of_N id).

Lemma length_to_le_bytes n z : length (to_le_bytes n z) = n.
Proof. revert z. induction n; intros; cbn; [done|]. by f_equal. Qed.
Lemma length_as_bytes n id : length (as_bytes n id) = n.
Proof. unfold as_bytes, to_be_bytes. by rewrite length_reverse, length_to_le_bytes. Qed.

Lemma to_le_bytes_inj n x y :
  0 ≤ x < 256 ^ Z.of_nat n → 0 ≤ y < 256 ^ Z.of_nat n →
  to_le_bytes n x = to_le_bytes n y → x = y.
Proof.
  revert x y. induction n as [|n IH]; intros x y Hx Hy; [cbn in *; lia|].
  rewrite Nat2Z.inj_succ, Z.pow_succ_r in Hx, Hy by lia. cbn. intros [= Hm Ht].
  assert (x / 256 = y / 256) by (apply IH; [| |done]; split;
    try (apply Z.div_pos; lia); apply Z.div_lt_upper_bound; lia).
  pose proof (Z.div_mod x 256). pose proof (Z.div_mod y 256). lia.
Qed.

Lemma as_bytes_inj n (x y : N) :
  Z.of_N x < 256 ^ Z.of_nat n → Z.of_N y < 256 ^ Z.of_nat n →
  as_bytes n x = as_bytes n y → x = y.
Proof.
  unfold as_bytes, to_be_bytes. intros ?? H%(inj reverse).
  apply to_le_bytes_inj in H; lia.
Qed.

(** [u64::from_le_bytes] and the like. *)
Fixpoint from_le_bytes (bs : list Z) : Z :=
  match bs with [] => 0 | b :: bs => b + 256 * from_le_bytes bs end.

Definition is_bytes (bs : list Z) : Prop := Forall (λ b, 0 ≤ b < 256) bs.

Lemma from_le_bytes_range bs : is_bytes bs → 0 ≤ from_le_bytes bs < 256 ^ Z.of_nat (length bs).
Proof.
  induction 1 as [|b bs Hb _ IH]; [cbn; lia|]. cbn [from_le_bytes length].
  rewrite Nat2Z.inj_succ, Z.pow_succ_r by lia. lia.
Qed.

Lemma from_to_le_bytes n z : 0 ≤ z < 256 ^ Z.of_nat n → from_le_bytes (to_le_bytes n z) = z.
Proof.
  revert z. induction n as [|n IH]; intros z Hz; [cbn in *; lia|].
  rewrite Nat2Z.inj_succ, Z.pow_succ_r in Hz by lia. cbn [to_le_bytes from_le_bytes].
  pose proof (Z.div_mod z 256). rewrite IH; [lia|].
  split; [apply Z.div_pos; lia|apply Z.div_lt_upper_bound; lia].
Qed.

Lemma from_le_bytes_app x y : from_le_bytes (x ++ y) = from_le_bytes x + 256 ^ Z.of_nat (length x) * from_le_bytes y.
Proof.
  induction x as [|b x IH]; [cbn; lia|]. change ((b :: x) ++ y) with (b :: (x ++ y)). cbn [from_le_bytes length].
  rewrite IH, Nat2Z.inj_succ, Z.pow_succ_r by lia. ring.
Qed.

Lemma to_le_bytes_bytes n z : is_bytes (to_le_bytes n z).
Proof.
  revert z. induction n as [|n IH]; intros z; [constructor|]. cbn [to_le_bytes].
  constructor; [apply Z.mod_pos_bound; lia|apply IH].
Qed.
Lemma as_bytes_bytes n id : is_bytes (as_bytes n id).
Proof. unfold as_bytes, to_be_bytes, is_bytes. apply Forall_reverse, to_le_bytes_bytes. Qed.

#[global] Arguments to_le_bytes : simpl never.
#[global] Arguments as_bytes : simpl never.

Lemma foldl_insert_graph {K V} `{Countable K} (kvs : list (K * V)) (m : gmap K V) :
  (∀ k v, (k, v) ∈ kvs ↔ m !! k = Some v) → foldl (λ m kv, <[kv.1 := kv.2]> m) ∅ kvs = m.
Proof.
  intros Hm. assert (Hgen : ∀ l (acc : gmap K V) i, (∀ k v, (k, v) ∈ l → m !! k = Some v) →
    foldl (λ m kv, <[kv.1 := kv.2]> m) acc l !! i = if decide (i ∈ l.*1) then m !! i else acc !! i).
  { induction l as [|[k v] l IH]; intros acc i Hl; [done|]. cbn [foldl fst snd]. rewrite IH by (intros; apply Hl; by right).
    destruct (decide (k = i)) as [->|Hne].
    - rewrite lookup_insert_eq, (Hl i v) by left. repeat case_decide; set_solver.
    - rewrite lookup_insert_ne by done. repeat case_decide; set_solver. }
  apply map_eq. intros i. rewrite Hgen by (intros k v; apply Hm). case_decide as Hi; [done|].
  rewrite lookup_empty. destruct (m !! i) as [v|] eqn:Hv; [|done]. destruct Hi. apply list_elem_of_fmap.
  exists (i, v). split; [done|]. by apply Hm.
Qed.

(** Peel a prefix of the same length off both sides of an equation. *)
Lemma app_inj_len {A} (l1 l2 k1 k2 : list A) :
  length l1 = length l2 → l1 ++ k1 = l2 ++ k2 → l1 = l2 ∧ k1 = k2.
Proof. intros. by apply app_inj_1. Qed.
Lemma app_inj_len_r {A} (l1 l2 k1 k2 : list A) :
  length k1 = length k2 → l1 ++ k1 = l2 ++ k2 → l1 = l2 ∧ k1 = k2.
Proof. intros. by apply app_inj_2. Qed.

(** ** Stable sorting

    [slice::sort_by] by a total order, where [le a b] is "[a] does not come
    after [b]". *)
Fixpoint insert_by {A} (le : A → A → bool) (x : A) (l : list A) : list A :=
  match l with
  | [] => [x]
  | y :: l => if le x y then x :: y :: l else y :: insert_by le x l
  end.
Definition stable_sort {A} (le : A → A → bool) (l : list A) : list A := foldr (insert_by le) [] l.

Lemma insert_by_perm {A} (le : A → A → bool) x l : insert_by le x l ≡ₚ x :: l.
Proof. induction l as [|y l IH]; cbn; [done|]. destruct (le x y); [done|]. rewrite IH. apply Permutation_swap. Qed.
Lemma stable_sort_perm {A} (le : A → A → bool) l : stable_sort le l ≡ₚ l.
Proof. induction l as [|x l IH]; cbn; [done|]. by rewrite insert_by_perm, IH. Qed.

(** On elements that [le] orders totally the result is sorted. *)
Definition total_preorder {A} (le : A → A → bool) (P : A → Prop) : Prop :=
  (∀ a b, P a → P b → le a b = true ∨ le b a = true) ∧
  (∀ a b c, P a → P b → P c → le a b = true → le b c = true → le a c = true).

Lemma insert_by_sorted {A} (le : A → A → bool) (P : A → Prop) x l :
  total_preorder le P → P x → Forall P l → StronglySorted le l → StronglySorted le (insert_by le x l).
Proof.
  intros [Htot Htr] Hx. induction l as [|y l IH]; intros Hl Hs; cbn; [by repeat constructor|].
  apply Forall_cons in Hl as [Hy Hl]. apply StronglySorted_inv in Hs as [Hs Hall]. destruct (le x y) eqn:E.
  - constructor; [by constructor|]. constructor; [by rewrite E|]. rewrite Forall_forall in *.
    intros z Hz. apply Is_true_true. apply (Htr x y z); auto. by apply Is_true_true, Hall.
  - constructor; [by apply IH|]. rewrite insert_by_perm. constructor; [|done].
    apply Is_true_true. destruct (Htot x y) as [?|?]; congruence.
Qed.

Lemma stable_sort_sorted {A} (le : A → A → bool) (P : A → Prop) l :
  total_preorder le P → Forall P l → StronglySorted le (stable_sort le l).
Proof.
  intros Hle. induction l as [|x l IH]; intros Hl; cbn; [constructor|]. apply Forall_cons in Hl as [Hx Hl].
  apply insert_by_sorted with P; auto. fold (stable_sort le l). by rewrite stable_sort_perm.
Qed.

(** The first element of the result comes first. *)
Lemma stable_sort_head {A} (le : A → A → bool) (P : A → Prop) l x r :
  total_preorder le P → Forall P l → stable_sort le l = x :: r → x ∈ l ∧ ∀ y, y ∈ l → le x y = true.
Proof.
  intros Hle HP E. pose proof (stable_sort_sorted le P l Hle HP) as Hs. rewrite E in Hs.
  assert (Hx : x ∈ l) by (rewrite <- (stable_sort_perm le l), E; left). split; [done|].
  intros y Hy. rewrite <- (stable_sort_perm le l), E in Hy. apply elem_of_cons in Hy as [->|Hy].
  - rewrite Forall_forall in HP. destruct Hle as [Htot _]. by destruct (Htot x x (HP x Hx) (HP x Hx)).
  - apply StronglySorted_inv in Hs as [_ Hs]. rewrite Forall_forall in Hs. by apply Is_true_true, Hs.
Qed.

(** ** Hashes *)

(** SHA-256, as the big-endian integer of its 32 bytes. *)
Class Digest := {
  sha256_digest : list Z → H256;
  digest_range : ∀ b, (sha256_digest b < 2 ^ 256)%N
}.

(** The first 20 bytes of the hash of a (32-byte) public key. *)
Definition to_address `{Digest} (pk : PublicKey) : Address :=
  N.shiftr (sha256_digest (as_bytes 32 pk)) 96.

(** The order in which a hash map is iterated is unspecified. *)
Class HashOrder := {
  hash_iter : ∀ {K V : Type} `{Countable K}, gmap K V → list (K * V);
  hash_iter_perm : ∀ K V `{Countable K} (m : gmap K V), hash_iter m ≡ₚ map_to_list m
}.

(** A set is iterated as the map of its elements to units. *)
Definition hash_elements `{HashOrder} {K} `{Countable K} (s : gset K) : list K :=
  fst <$> hash_iter (gset_to_gmap tt s).

Lemma elem_of_hash_iter `{HashOrder} {K V} `{Countable K} (m : gmap K V) k v :
  (k, v) ∈ hash_iter m ↔ m !! k = Some v.
Proof. by rewrite hash_iter_perm, elem_of_map_to_list. Qed.
Lemma elem_of_hash_elements `{HashOrder} {K} `{Countable K} (s : gset K) k :
  k ∈ hash_elements s ↔ k ∈ s.
Proof.
  unfold hash_elements. rewrite list_elem_of_fmap. split.
  - intros ([k' []] & -> & Hk%elem_of_hash_iter). by apply lookup_gset_to_gmap_Some in Hk as [? _].
  - intros Hk. exists (k, tt). split; [done|]. apply elem_of_hash_iter, lookup_gset_to_gmap_Some. done.
Qed.

Create HintDb aether.
#[export] Hint Rewrite @map_sum_empty @map_total_empty @map_total_insert @map_total_delete
  @map_total_or_insert : aether.
#[export] Hint Resolve mul_nonneg : aether.
