(* ===== verification/AicToken.v ===== *)
(** * AIC token program

    [crates/programs/aic-token/src/lib.rs]: the state [AicTokenState] and its
    operations [mint], [burn], [transfer], [approve] and [transfer_from].
    The theorems: the total supply is the sum of the balances in every state
    reached without an overflowing mint, [transfer_from] is atomic and moves
    exactly the amount, and the two operations that are not atomic. *)

From S2P Require Import Prelude.

Module AicToken.

Record AicTokenState := mkAicTokenState {
  total_supply : Z;
  total_burned : Z;
  balances : gmap Address Z;
  allowances : gmap Address (gmap Address Z);
  mint_authority : Address
}.

Definition set_total_supply v s := mkAicTokenState v s.(total_burned) s.(balances) s.(allowances) s.(mint_authority).
Definition set_total_burned v s := mkAicTokenState s.(total_supply) v s.(balances) s.(allowances) s.(mint_authority).
Definition set_balances v s := mkAicTokenState s.(total_supply) s.(total_burned) v s.(allowances) s.(mint_authority).
Definition set_allowances v s := mkAicTokenState s.(total_supply) s.(total_burned) s.(balances) v s.(mint_authority).

Definition new (mint_authority : Address) : AicTokenState :=
  mkAicTokenState 0 0 ∅ ∅ mint_authority.

Definition balance_of (account : Address) (s : AicTokenState) : Z :=
  default 0 (s.(balances) !! account).

(** [allowances.get(owner).and_then(|m| m.get(spender))]. *)
Definition lookup_allowance (owner spender : Address) (s : AicTokenState) : option Z :=
  m ← s.(allowances) !! owner; m !! spender.

Definition allowance_of (owner spender : Address) (s : AicTokenState) : Z :=
  default 0 (lookup_allowance owner spender s).

(** The write through [allowances.get_mut(owner).and_then(|m| m.get_mut(spender))]. *)
Definition write_allowance (owner spender : Address) (v : Z) (s : AicTokenState) : AicTokenState :=
  match lookup_allowance owner spender s with
  | Some _ => set_allowances (alter (λ m, <[spender := v]> m) owner s.(allowances)) s
  | None => s
  end.

Definition mint (caller to : Address) (amount : Z) : M AicTokenState error unit :=
  s ← get_state;
  bail_if (bool_decide (caller ≠ s.(mint_authority))) (Msg "unauthorized");;
  modify (λ s, set_balances (or_insert to 0 s.(balances)) s);;
  balance ← ok_or (checked_add U128_MAX (balance_of to s) amount) (Msg "overflow");
  modify (λ s, set_balances (<[to := balance]> s.(balances)) s);;
  supply ← ok_or (checked_add U128_MAX s.(total_supply) amount) (Msg "overflow");
  modify (set_total_supply supply).

Definition burn (caller from : Address) (amount : Z) : M AicTokenState error unit :=
  (if bool_decide (caller ≠ from) then
     s ← get_state;
     allowance ← ok_or (lookup_allowance from caller s)
       (Msg "unauthorized: caller is not owner and has no allowance");
     bail_if (allowance <? amount) (Msg "insufficient allowance for burn");;
     remaining ← ok_or (checked_sub allowance amount) (Msg "allowance underflow");
     modify (write_allowance from caller remaining)
   else mret tt);;
  s ← get_state;
  balance ← ok_or (s.(balances) !! from) (Msg "insufficient balance");
  bail_if (balance <? amount) (Msg "insufficient balance");;
  balance' ← ok_or (checked_sub balance amount) (Msg "burn underflow");
  modify (λ s, set_balances (<[from := balance']> s.(balances)) s);;
  supply ← ok_or (checked_sub s.(total_supply) amount) (Msg "underflow");
  modify (set_total_supply supply);;
  burned ← ok_or (checked_add U128_MAX s.(total_burned) amount) (Msg "overflow");
  modify (set_total_burned burned).

Definition transfer (from to : Address) (amount : Z) : M AicTokenState error unit :=
  bail_if (bool_decide (from = to)) (Msg "cannot transfer to self");;
  s ← get_state;
  from_balance ← ok_or (s.(balances) !! from) (Msg "insufficient balance");
  bail_if (from_balance <? amount) (Msg "insufficient balance");;
  from_balance' ← ok_or (checked_sub from_balance amount) (Msg "balance underflow");
  modify (λ s, set_balances (<[from := from_balance']> s.(balances)) s);;
  modify (λ s, set_balances (or_insert to 0 s.(balances)) s);;
  s ← get_state;
  to_balance ← ok_or (checked_add U128_MAX (balance_of to s) amount) (Msg "overflow");
  modify (λ s, set_balances (<[to := to_balance]> s.(balances)) s).

Definition approve (owner spender : Address) (amount : Z) : M AicTokenState error unit :=
  modify (λ s, set_allowances
    (<[owner := <[spender := amount]> (default ∅ (s.(allowances) !! owner))]> s.(allowances)) s).

Definition transfer_from (caller from to : Address) (amount : Z) : M AicTokenState error unit :=
  s ← get_state;
  allowance ← ok_or (lookup_allowance from caller s) (Msg "insufficient allowance");
  bail_if (allowance <? amount) (Msg "insufficient allowance");;
  new_allowance ← ok_or (checked_sub allowance amount) (Msg "allowance underflow");
  transfer from to amount;;
  modify (write_allowance from caller new_allowance).

(** The calls a runtime can make on the program. *)
Inductive op : Type :=
| Mint (caller to : Address) (amount : Z)
| Burn (caller from : Address) (amount : Z)
| Transfer (from to : Address) (amount : Z)
| Approve (owner spender : Address) (amount : Z)
| TransferFrom (caller from to : Address) (amount : Z).

Definition exec (o : op) : M AicTokenState error unit :=
  match o with
  | Mint c t a => mint c t a
  | Burn c f a => burn c f a
  | Transfer f t a => transfer f t a
  | Approve o s a => approve o s a
  | TransferFrom c f t a => transfer_from c f t a
  end.

Definition op_amount (o : op) : Z :=
  match o with
  | Mint _ _ a | Burn _ _ a | Transfer _ _ a | Approve _ _ a | TransferFrom _ _ _ a => a
  end.

(** ** The supply invariant *)

Record supply_inv (s : AicTokenState) : Prop := {
  inv_balances : map_Forall (λ _, is_u128) s.(balances);
  inv_sum : s.(total_supply) = map_total s.(balances);
  inv_supply : is_u128 s.(total_supply);
  inv_burned : is_u128 s.(total_burned)
}.

(** A mint of [o] would take the supply over [u128::MAX]. *)
Definition mint_overflows (o : op) (s : AicTokenState) : Prop :=
  match o with Mint _ _ a => U128_MAX < s.(total_supply) + a | _ => False end.

Lemma aic_new_inv a : supply_inv (new a).
Proof.
  split; [apply map_Forall_empty|symmetry; apply map_total_empty|cbn; ulia..].
Qed.

Lemma write_allowance_frame o sp v s :
  balances (write_allowance o sp v s) = balances s ∧
  total_supply (write_allowance o sp v s) = total_supply s ∧
  total_burned (write_allowance o sp v s) = total_burned s ∧
  mint_authority (write_allowance o sp v s) = mint_authority s.
Proof. unfold write_allowance. by destruct lookup_allowance. Qed.

Lemma inv_write_allowance o sp v s :
  supply_inv s → supply_inv (write_allowance o sp v s).
Proof.
  intros []. destruct (write_allowance_frame o sp v s) as (E1 & E2 & E3 & _).
  by split; rewrite ?E1, ?E2, ?E3.
Qed.

Lemma aic_inv_nonneg s : supply_inv s → map_Forall (λ _ v, 0 ≤ v) s.(balances).
Proof. intros [HF _ _ _]. eapply map_Forall_impl; [done|]. cbn. ulia. Qed.

Lemma balance_le_supply s a : supply_inv s → 0 ≤ balance_of a s ≤ s.(total_supply).
Proof. intros Hs. rewrite (inv_sum s Hs). by apply map_total_lookup, aic_inv_nonneg. Qed.

(** Two entries together never exceed the supply, so crediting one with what
    was taken from the other cannot overflow. *)
Lemma two_balances_le_supply s a b :
  supply_inv s → a ≠ b → balance_of a s + balance_of b s ≤ s.(total_supply).
Proof. intros Hs Hab. rewrite (inv_sum s Hs). by apply map_total_lookup2; [apply aic_inv_nonneg|]. Qed.

(** [transfer] is determined: it fails without a change, or moves [amount]. *)
Lemma transfer_cases from to amount s :
  supply_inv s → is_u128 amount →
  (∃ e, transfer from to amount s = (s, Err e)) ∨
  (from ≠ to ∧ amount ≤ balance_of from s ∧
     transfer from to amount s =
       (set_balances (<[to := balance_of to s + amount]>
          (<[from := balance_of from s - amount]> s.(balances))) s, Ok tt)).
Proof.
  intros Hs Ha. unfold transfer. unfold_M.
  case_bool_decide as Hne; [by left; eexists|].
  destruct (balances s !! from) as [x|] eqn:Hx; [|by left; eexists].
  destruct (x <? amount) eqn:Hlt; [by left; eexists|]. clean_ints.
  pose proof (two_balances_le_supply s from to Hs Hne) as Hle.
  pose proof (inv_supply s Hs).
  rewrite (proj2 (checked_sub_Some x amount (x - amount))) by lia.
  unfold balance_of in *. cbn.
  rewrite lookup_or_insert, decide_True, lookup_insert_ne by done. cbn.
  rewrite Hx in Hle |- *. cbn in *.
  rewrite (proj2 (checked_add_Some _ _ _ (default 0 (balances s !! to) + amount))) by ulia.
  right. unfold set_balances. cbn. by rewrite insert_or_insert.
Qed.

Lemma transfer_inv from to amount s :
  supply_inv s → is_u128 amount → from ≠ to → amount ≤ balance_of from s →
  supply_inv (set_balances (<[to := balance_of to s + amount]>
    (<[from := balance_of from s - amount]> s.(balances))) s).
Proof.
  intros Hs Ha Hne Hle.
  pose proof (two_balances_le_supply s from to Hs Hne).
  pose proof (balance_le_supply s from Hs). pose proof (balance_le_supply s to Hs).
  destruct Hs as [HF Hsum Hsup Hb].
  split; cbn; [| |done|done].
  - apply map_Forall_insert_2; [ulia|]. apply map_Forall_insert_2; [ulia|done].
  - rewrite Hsum, !map_total_insert, lookup_insert_ne by done. unfold balance_of. lia.
Qed.

Lemma mint_inv caller to amount s s' r :
  supply_inv s → is_u128 amount → s.(total_supply) + amount ≤ U128_MAX →
  mint caller to amount s = (s', r) → supply_inv s'.
Proof.
  intros Hs Ha Hov. pose proof (balance_le_supply s to Hs) as Hb.
  destruct Hs as [HF Hsum Hsup Hbn]. unfold mint. unfold_M.
  case_bool_decide; [by intros; simplify_eq|].
  rewrite (proj2 (checked_add_Some _ _ _ (balance_of to s + amount))) by ulia. cbn.
  rewrite (proj2 (checked_add_Some _ _ _ (total_supply s + amount))) by ulia. cbn.
  intros; simplify_eq. split; cbn; [| |ulia|done].
  - rewrite insert_or_insert. apply map_Forall_insert_2; [ulia|done].
  - rewrite insert_or_insert, map_total_insert. fold (balance_of to s). lia.
Qed.

(** The part of [burn] that follows the allowance check. *)
Lemma burn_body_inv from amount s s1 s2 s3 :
  supply_inv s → is_u128 amount → amount ≤ balance_of from s →
  s1 = set_balances (<[from := balance_of from s - amount]> s.(balances)) s →
  s2 = set_total_supply (s.(total_supply) - amount) s1 →
  s3 = set_total_burned (s.(total_burned) + amount) s2 →
  supply_inv s2 ∧ (s.(total_burned) + amount ≤ U128_MAX → supply_inv s3).
Proof.
  intros Hs Ha Hle -> -> ->. pose proof (balance_le_supply s from Hs).
  destruct Hs as [HF Hsum Hsup Hb].
  assert (map_Forall (λ _, is_u128) (<[from:=balance_of from s - amount]> (balances s))).
  { apply map_Forall_insert_2; [ulia|done]. }
  assert (total_supply s - amount = map_total (<[from:=balance_of from s - amount]> (balances s))).
  { rewrite map_total_insert. fold (balance_of from s). lia. }
  split; [|intros ?]; split; cbn; done || ulia.
Qed.

Lemma burn_inv caller from amount s s' r :
  supply_inv s → is_u128 amount → burn caller from amount s = (s', r) → supply_inv s'.
Proof.
  intros Hs Ha. unfold burn.
  set (pre := if bool_decide (caller ≠ from) then _ else _).
  assert (Hpre : ∀ s1 r1, pre s = (s1, r1) → supply_inv s1).
  { intros s1 r1 Hrun. subst pre. case_bool_decide; run; auto using inv_write_allowance. }
  unfold_M. destruct (pre s) as [s1 [u|e]] eqn:E; [|naive_solver].
  specialize (Hpre _ _ eq_refl). clear Hs E pre s.
  destruct (balances s1 !! from) as [x|] eqn:Hx; [|naive_solver].
  destruct (x <? amount) eqn:Hlt; [naive_solver|]. clean_ints.
  assert (Hbx : balance_of from s1 = x) by (unfold balance_of; by rewrite Hx).
  rewrite (proj2 (checked_sub_Some x amount (x - amount))) by lia. cbn.
  pose proof (balance_le_supply s1 from Hpre). rewrite <- Hbx in *.
  rewrite (proj2 (checked_sub_Some _ amount (total_supply s1 - amount))) by lia. cbn.
  destruct (burn_body_inv from amount s1 _ _ _ Hpre Ha Hlt eq_refl eq_refl eq_refl) as [H2 H3].
  destruct (checked_add _ _ _) eqn:Hadd; intros; simplify_eq/=; clean_ints; subst; auto.
Qed.

(** ** Allowances *)

Lemma lookup_write_allowance o sp v s o' sp' :
  lookup_allowance o' sp' (write_allowance o sp v s) =
  if decide (o' = o ∧ sp' = sp) then const v <$> lookup_allowance o sp s
  else lookup_allowance o' sp' s.
Proof.
  unfold write_allowance. destruct (lookup_allowance o sp s) as [w|] eqn:Hw.
  - unfold lookup_allowance in *. cbn [allowances set_allowances].
    destruct (allowances s !! o) as [m|] eqn:Ho; [|done]. simpl in Hw.
    destruct (decide (o' = o)) as [->|Hne].
    + rewrite lookup_alter_eq, Ho. simpl. rewrite lookup_insert.
      destruct (decide (sp = sp')) as [->|Hsp].
      * by rewrite decide_True.
      * rewrite decide_False; [done|naive_solver].
    + rewrite lookup_alter_ne, decide_False by naive_solver. done.
  - case_decide as Hd; [|done]. by destruct Hd as [-> ->].
Qed.

Lemma balance_of_write_allowance a o sp v s :
  balance_of a (write_allowance o sp v s) = balance_of a s.
Proof. unfold balance_of. by rewrite (proj1 (write_allowance_frame o sp v s)). Qed.

(** What [transfer_from] promises when it returns [Ok]. *)
Definition transfer_from_effect (caller from to : Address) (amount : Z)
    (s s' : AicTokenState) : Prop :=
  amount ≤ allowance_of from caller s ∧ from ≠ to ∧ amount ≤ balance_of from s ∧
  (∀ a, balance_of a s' =
     if decide (a = from) then balance_of a s - amount
     else if decide (a = to) then balance_of a s + amount else balance_of a s) ∧
  (∀ o sp, allowance_of o sp s' =
     if decide (o = from ∧ sp = caller) then allowance_of o sp s - amount
     else allowance_of o sp s) ∧
  total_supply s' = total_supply s ∧ total_burned s' = total_burned s.

(** [transfer_from] moves exactly [amount] and takes it off the caller's
    allowance, or returns an error and changes nothing. *)
Theorem transfer_from_atomic caller from to amount s s' r :
  supply_inv s → is_u128 amount →
  transfer_from caller from to amount s = (s', r) →
  match r with
  | Ok _ => transfer_from_effect caller from to amount s s'
  | Err _ => s' = s
  end.
Proof.
  intros Hs Ha. unfold transfer_from. unfold_M.
  destruct (lookup_allowance from caller s) as [al|] eqn:Hal; [|naive_solver].
  destruct (al <? amount) eqn:Hlt; [naive_solver|]. clean_ints.
  rewrite (proj2 (checked_sub_Some al amount (al - amount))) by lia.
  destruct (transfer_cases from to amount s Hs Ha) as [[e ->]|(Hne & Hle & ->)];
    intros; simplify_eq; [done|].
  destruct (write_allowance_frame from caller (al - amount)
    (set_balances (<[to:=balance_of to s + amount]>
      (<[from:=balance_of from s - amount]> (balances s))) s)) as (_ & Hts & Htb & _).
  unfold transfer_from_effect. split_and!; [|done|done| | |done|done].
  - unfold allowance_of. by rewrite Hal.
  - intros a. rewrite balance_of_write_allowance. unfold balance_of. cbn.
    rewrite !lookup_insert. repeat case_decide; naive_solver.
  - intros o sp. unfold allowance_of. rewrite lookup_write_allowance.
    case_decide as Hd; [|done]. destruct Hd; subst.
    unfold lookup_allowance in *; cbn in *. rewrite Hal. by cbn.
Qed.

(** C13: The total supply is the sum of the balances after every call, whether it
    returns [Ok] or [Err], except for a mint that overflows the supply. *)
Theorem exec_preserves_supply (o : op) (s s' : AicTokenState) (r : result error unit) :
  supply_inv s → is_u128 (op_amount o) → ¬ mint_overflows o s →
  exec o s = (s', r) → supply_inv s'.
Proof.
  intros Hs Ha Hov. destruct o as [c t a|c f a|f t a|ow sp a|c f t a]; cbn in *.
  - intros. eapply (mint_inv c t a s); [done..|lia|done].
  - by apply burn_inv.
  - destruct (transfer_cases f t a s Hs Ha) as [[e ->]|(Hne & Hle & ->)]; intros; simplify_eq; [done|].
    by apply transfer_inv.
  - unfold approve. unfold_M. intros; simplify_eq. destruct Hs. by split.
  - unfold transfer_from. unfold_M.
    destruct (lookup_allowance f c s); [|naive_solver].
    destruct (_ <? _); [naive_solver|]. destruct (checked_sub _ _); [|naive_solver].
    destruct (transfer_cases f t a s Hs Ha) as [[e ->]|(Hne & Hle & ->)]; intros; simplify_eq; [done|].
    by apply inv_write_allowance, transfer_inv.
Qed.

Lemma exec_preserves_supply_witness :
  supply_inv (fst (exec (Mint 1 2 100) (new 1))).
Proof.
  refine (exec_preserves_supply (Mint 1 2 100) (new 1) _ (Ok tt) (aic_new_inv 1) _ _ eq_refl).
  - cbn. ulia.
  - cbn. ulia.
Defined.

(** Alice (1) holds 10 credits and lets Bob (2) spend 50. *)
Definition thin_account : AicTokenState :=
  mkAicTokenState 10 0 {[1%N := 10]} {[1%N := {[2%N := 50]}]} 9.

Lemma thin_account_inv : supply_inv thin_account.
Proof.
  split; cbn; [|done|ulia..]. apply map_Forall_singleton. ulia.
Qed.

Lemma transfer_from_atomic_witness :
  transfer_from_effect 2 1 3 7 thin_account (fst (transfer_from 2 1 3 7 thin_account)).
Proof.
  refine (transfer_from_atomic 2 1 3 7 thin_account _ (Ok tt) thin_account_inv _ eq_refl).
  ulia.
Defined.

(** [burn] is not atomic: a burn that fails for lack of balance has already
    consumed the spender's allowance. *)
Theorem burn_failure_consumes_allowance :
  ∃ s', burn 2 1 50 thin_account = (s', Err (Msg "insufficient balance")) ∧
    allowance_of 1 2 thin_account = 50 ∧ allowance_of 1 2 s' = 0.
Proof. eexists. split_and!; vm_compute; reflexivity. Qed.

Definition full_supply : AicTokenState :=
  mkAicTokenState U128_MAX 0 {[1%N := U128_MAX]} ∅ 9.

(** [mint] is not atomic: a mint that overflows the supply returns an error
    and leaves the credited balance, so the balances exceed the supply. *)
Theorem mint_overflow_breaks_supply :
  supply_inv full_supply ∧
  ∃ s', mint 9 2 1 full_supply = (s', Err (Msg "overflow")) ∧
    total_supply s' < map_total (balances s').
Proof.
  split.
  - split; cbn; [|done|ulia..]. apply map_Forall_singleton. ulia.
  - eexists. split; [vm_compute; reflexivity|vm_compute; reflexivity].
Qed.

End AicToken.
