(* ===== verification/Arith256.v ===== *)
(** * 256-bit multiply-then-divide

    The helpers [mul_div] and [div_256_by_128] of
    [crates/programs/staking/src/state.rs]; [crates/consensus/src/slashing.rs]
    and [crates/consensus/src/hybrid.rs] carry textual copies of both.
    [mul_div a b c] is the saturated [a * b / c] when the middle limb does not
    carry and the divisor is at most [2^127]; the two theorems at the end show
    inputs outside these conditions where it is not. *)

From S2P Require Import Prelude.

Module Arith256.

Definition LOW64 : Z := 18446744073709551615.

(** The loop [for i in (0..128).rev()]: [n] bits of [lo] are left. *)
Fixpoint div_loop (n : nat) (lo divisor remainder quotient : Z) : Z :=
  match n with
  | O => quotient
  | S i =>
      let remainder := Z.lor (wrapping_shl U128_MAX remainder 1)
                             (Z.land (Z.shiftr lo (Z.of_nat i)) 1) in
      if divisor <=? remainder
      then div_loop i lo divisor (remainder - divisor)
             (Z.lor quotient (Z.shiftl 1 (Z.of_nat i)))
      else div_loop i lo divisor remainder quotient
  end.

Definition div_256_by_128 (hi lo divisor : Z) : Z :=
  if hi =? 0 then lo / divisor
  else if divisor <=? hi then U128_MAX
  else div_loop 128 lo divisor hi 0.

Definition mul_div (a b c : Z) : Z :=
  if c =? 0 then 0 else
  let a_hi := Z.shiftr a 64 in
  let a_lo := Z.land a LOW64 in
  let b_hi := Z.shiftr b 64 in
  let b_lo := Z.land b LOW64 in
  let lo_lo := wrapping_mul U128_MAX a_lo b_lo in
  let hi_lo := wrapping_mul U128_MAX a_hi b_lo in
  let lo_hi := wrapping_mul U128_MAX a_lo b_hi in
  let hi_hi := wrapping_mul U128_MAX a_hi b_hi in
  let mid := wrapping_add U128_MAX hi_lo (Z.shiftr lo_lo 64) in
  let mid := wrapping_add U128_MAX mid lo_hi in
  let carry := if mid <? lo_hi then 1 else 0 in
  let product_lo := Z.lor (wrapping_shl U128_MAX mid 64) (Z.land lo_lo LOW64) in
  let product_hi := wrapping_add U128_MAX
                      (wrapping_add U128_MAX hi_hi (Z.shiftr mid 64)) carry in
  div_256_by_128 product_hi product_lo c.

(** The middle limb of the schoolbook product fits in 128 bits. *)
Definition mid_fits (a b : Z) : Prop :=
  (a / 2 ^ 64) * (b mod 2 ^ 64) + (a mod 2 ^ 64) * (b mod 2 ^ 64) / 2 ^ 64
    + (a mod 2 ^ 64) * (b / 2 ^ 64) ≤ U128_MAX.

(** ** Bit-level lemmas *)

Lemma lor_disjoint_add x y n : 0 ≤ n → 0 ≤ y < 2 ^ n → Z.lor (x * 2 ^ n) y = x * 2 ^ n + y.
Proof.
  intros Hn Hy.
  assert (Hl : Z.land (x * 2 ^ n) y = 0).
  { apply Z.bits_inj'. intros m Hm. rewrite Z.land_spec, Z.bits_0.
    destruct (decide (m < n)); [by rewrite Z.mul_pow2_bits_low by lia|].
    rewrite <- (Z.mod_small y (2 ^ n)), Z.mod_pow2_bits_high, andb_false_r by lia. done. }
  by rewrite <- Z.lxor_lor, <- Z.add_nocarry_lxor.
Qed.

Lemma lor_add_bit q n :
  0 ≤ n → Z.lor (q * 2 ^ (n + 1)) (Z.shiftl 1 n) = q * 2 ^ (n + 1) + 2 ^ n.
Proof.
  intros Hn. rewrite Z.shiftl_1_l. apply lor_disjoint_add; [lia|].
  rewrite Z.pow_add_r by lia. pose proof (Z.pow_pos_nonneg 2 n). lia.
Qed.

Lemma bit_land lo n : 0 ≤ n → Z.land (Z.shiftr lo n) 1 = (lo / 2 ^ n) mod 2.
Proof. intros Hn. rewrite Z.shiftr_div_pow2 by done. by rewrite (Z.land_ones _ 1). Qed.

Lemma mod_split lo n : 0 ≤ n →
  lo mod 2 ^ (n + 1) = ((lo / 2 ^ n) mod 2) * 2 ^ n + lo mod 2 ^ n.
Proof.
  intros Hn. rewrite Z.pow_add_r, Z.pow_1_r by lia.
  rewrite Z.rem_mul_r by (try apply Z.pow_nonzero; lia). lia.
Qed.

(** ** The division loop *)

Lemma div_loop_spec n lo c r q :
  0 ≤ lo → 0 ≤ r < c → c ≤ 2 ^ 127 →
  div_loop n lo c r (q * 2 ^ Z.of_nat n)
  = q * 2 ^ Z.of_nat n + (r * 2 ^ Z.of_nat n + lo mod 2 ^ Z.of_nat n) / c.
Proof.
  intros Hlo. revert r q. induction n as [|n IH]; intros r q Hr Hc.
  { cbn [div_loop]. rewrite Z.mod_1_r, Z.div_small; lia. }
  cbn [div_loop]. replace (Z.of_nat (S n)) with (Z.of_nat n + 1) by lia.
  set (k := Z.of_nat n). assert (Hk : 0 ≤ k) by lia.
  pose proof (Z.pow_pos_nonneg 2 k ltac:(lia) Hk) as Hp.
  rewrite bit_land by done. set (b := (lo / 2 ^ k) mod 2).
  assert (Hb : 0 ≤ b < 2) by (apply Z.mod_pos_bound; lia).
  assert (Hshl : Z.lor (wrapping_shl U128_MAX r 1) b = r * 2 + b).
  { unfold wrapping_shl. rewrite Z.shiftl_mul_pow2, Z.mod_small by (unfold U128_MAX; lia).
    by apply (lor_disjoint_add r b 1). }
  rewrite Hshl, mod_split by done. fold b.
  assert (Hpow : 2 ^ (k + 1) = 2 * 2 ^ k) by (rewrite Z.pow_add_r; lia).
  destruct (Z.leb_spec c (r * 2 + b)).
  - rewrite lor_add_bit by done.
    replace (q * 2 ^ (k + 1) + 2 ^ k) with ((q * 2 + 1) * 2 ^ k) by lia.
    fold k in IH. rewrite IH by lia.
    replace (r * 2 ^ (k + 1) + (b * 2 ^ k + lo mod 2 ^ k))
      with ((r * 2 + b - c) * 2 ^ k + lo mod 2 ^ k + 2 ^ k * c) by lia.
    rewrite Z.div_add by lia. lia.
  - replace (q * 2 ^ (k + 1)) with ((q * 2) * 2 ^ k) by lia.
    fold k in IH. rewrite IH by lia. f_equal. f_equal. lia.
Qed.

Lemma div_256_by_128_spec hi lo c :
  is_u128 hi → is_u128 lo → 0 < c ≤ 2 ^ 127 →
  div_256_by_128 hi lo c = Z.min U128_MAX ((hi * 2 ^ 128 + lo) / c).
Proof.
  intros Hhi Hlo Hc. unfold div_256_by_128.
  destruct (Z.eqb_spec hi 0) as [->|Hnz].
  { rewrite Z.mul_0_l, Z.add_0_l, Z.min_r; [done|].
    apply Z.div_le_upper_bound; ulia || nia. }
  destruct (Z.leb_spec c hi).
  - rewrite Z.min_l; [done|]. apply Z.div_le_lower_bound; [lia|]. ulia.
  - pose proof (div_loop_spec 128 lo c hi 0 ltac:(ulia) ltac:(ulia) ltac:(lia)) as Hd.
    rewrite Z.mul_0_l, Z.add_0_l in Hd. change (Z.of_nat 128) with 128 in Hd.
    rewrite Hd. rewrite (Z.mod_small lo) by ulia. rewrite Z.min_r; [done|].
    apply Z.lt_succ_r, Z.div_lt_upper_bound; ulia.
Qed.

(** ** The product *)

Lemma land_low64 x : Z.land x LOW64 = x mod 2 ^ 64.
Proof. by rewrite <- (Z.land_ones x 64). Qed.

Lemma wrapping_mul_small x y :
  0 ≤ x < 2 ^ 64 → 0 ≤ y < 2 ^ 64 → wrapping_mul U128_MAX x y = x * y.
Proof. intros. unfold wrapping_mul. apply Z.mod_small. unfold U128_MAX. nia. Qed.

Lemma wrapping_add_small x y :
  0 ≤ x + y ≤ U128_MAX → wrapping_add U128_MAX x y = x + y.
Proof. intros. unfold wrapping_add. apply Z.mod_small. ulia. Qed.

(** Shifting the middle limb keeps its low half. *)
Lemma low_limb m : 0 ≤ m → wrapping_shl U128_MAX m 64 = (m mod 2 ^ 64) * 2 ^ 64.
Proof.
  intros Hm. unfold wrapping_shl. rewrite Z.shiftl_mul_pow2 by lia.
  change (U128_MAX + 1) with (2 ^ 64 * 2 ^ 64). by rewrite Z.mul_mod_distr_r by lia.
Qed.

(** The limbs recombine to the full product. *)
Lemma limbs_product ah al bh bl m :
  m = ah * bl + al * bl / 2 ^ 64 + al * bh →
  (2 ^ 64 * ah + al) * (2 ^ 64 * bh + bl)
  = (ah * bh + m / 2 ^ 64) * 2 ^ 128 + ((m mod 2 ^ 64) * 2 ^ 64 + (al * bl) mod 2 ^ 64).
Proof.
  intros Hm. pose proof (Z.div_mod (al * bl) (2 ^ 64) ltac:(lia)).
  pose proof (Z.div_mod m (2 ^ 64) ltac:(lia)).
  change (2 ^ 128) with (2 ^ 64 * 2 ^ 64). nia.
Qed.

Lemma mul_div_limbs a b c :
  is_u128 a → is_u128 b → c ≠ 0 → mid_fits a b →
  ∃ hi lo, is_u128 hi ∧ is_u128 lo ∧ a * b = hi * 2 ^ 128 + lo ∧
    mul_div a b c = div_256_by_128 hi lo c.
Proof.
  intros Ha Hb Hc Hmid. unfold mul_div. destruct (Z.eqb_spec c 0); [lia|].
  rewrite !land_low64, !Z.shiftr_div_pow2 by lia. cbv zeta. unfold mid_fits in Hmid.
  pose proof (Z.div_mod a (2 ^ 64) ltac:(lia)) as Ea.
  pose proof (Z.div_mod b (2 ^ 64) ltac:(lia)) as Eb.
  pose proof (Z.mod_pos_bound a (2 ^ 64) ltac:(lia)).
  pose proof (Z.mod_pos_bound b (2 ^ 64) ltac:(lia)).
  assert (0 ≤ a / 2 ^ 64 < 2 ^ 64) by (split; [apply Z.div_pos|apply Z.div_lt_upper_bound]; ulia).
  assert (0 ≤ b / 2 ^ 64 < 2 ^ 64) by (split; [apply Z.div_pos|apply Z.div_lt_upper_bound]; ulia).
  set (ah := a / 2 ^ 64) in *. set (al := a mod 2 ^ 64) in *.
  set (bh := b / 2 ^ 64) in *. set (bl := b mod 2 ^ 64) in *.
  rewrite !wrapping_mul_small by done.
  assert (0 ≤ al * bl / 2 ^ 64) by (apply Z.div_pos; nia).
  rewrite (wrapping_add_small (ah * bl)) by nia.
  set (m := ah * bl + al * bl / 2 ^ 64) in *.
  rewrite (wrapping_add_small m) by nia.
  pose proof (limbs_product ah al bh bl (m + al * bh) eq_refl) as Hprod.
  rewrite <- Ea, <- Eb in Hprod.
  assert (0 ≤ m + al * bh) by nia. rewrite low_limb by done.
  pose proof (Z.mod_pos_bound (m + al * bh) (2 ^ 64) ltac:(lia)).
  pose proof (Z.mod_pos_bound (al * bl) (2 ^ 64) ltac:(lia)).
  rewrite lor_disjoint_add by lia.
  assert (0 ≤ (m + al * bh) / 2 ^ 64) by (apply Z.div_pos; lia).
  assert (ah * bh + (m + al * bh) / 2 ^ 64 ≤ U128_MAX).
  { apply Z.lt_succ_r, (Z.mul_lt_mono_pos_r (2 ^ 128)); [lia|]. ulia || (unfold_ints; nia). }
  rewrite (wrapping_add_small (ah * bh)) by nia.
  destruct (Z.ltb_spec (m + al * bh) (al * bh)); [nia|].
  rewrite wrapping_add_small, Z.add_0_r by nia.
  eexists _, _. split_and!; [| |exact Hprod|reflexivity]; ulia || (unfold_ints; nia).
Qed.

(** [mul_div a b c] is [a * b / c], saturated at [u128::MAX], whenever the
    middle limb does not carry and the divisor is at most [2^127]. *)
Theorem mul_div_spec a b c :
  is_u128 a → is_u128 b → 0 < c ≤ 2 ^ 127 → mid_fits a b →
  mul_div a b c = Z.min U128_MAX (a * b / c).
Proof.
  intros Ha Hb Hc Hm.
  destruct (mul_div_limbs a b c Ha Hb ltac:(lia) Hm) as (hi & lo & Hhi & Hlo & -> & ->).
  by apply div_256_by_128_spec.
Qed.

(** One operand below [2^64] is enough for the middle limb to fit. *)
Lemma mid_fits_small a b : is_u128 a → 0 ≤ b < 2 ^ 64 → mid_fits a b.
Proof.
  intros Ha Hb. unfold mid_fits. rewrite (Z.div_small b), (Z.mod_small b) by lia.
  pose proof (Z.mod_pos_bound a (2 ^ 64) ltac:(lia)).
  assert (a / 2 ^ 64 < 2 ^ 64) by (apply Z.div_lt_upper_bound; ulia).
  assert (0 ≤ a / 2 ^ 64) by (apply Z.div_pos; ulia).
  assert (a mod 2 ^ 64 * b / 2 ^ 64 < 2 ^ 64) by (apply Z.div_lt_upper_bound; nia).
  unfold U128_MAX. nia.
Qed.

(** The use in the slash and commission paths: a rate in basis points. *)
Lemma mul_div_rate a rate d :
  is_u128 a → 0 ≤ rate ≤ d → 0 < d < 2 ^ 64 → mul_div a rate d = a * rate / d.
Proof.
  intros Ha Hr Hd. destruct (mul_div_limbs a rate d Ha) as (hi & lo & Hhi & Hlo & E & ->).
  - ulia.
  - lia.
  - apply mid_fits_small; [done|lia].
  - rewrite div_256_by_128_spec, <- E by lia || done.
    apply Z.min_r, Z.div_le_upper_bound; [lia|]. unfold_ints. nia.
Qed.

(** In general, with a quotient that fits. *)
Lemma mul_div_le a rate d :
  is_u128 a → 0 ≤ rate ≤ d → 0 < d < 2 ^ 64 → 0 ≤ mul_div a rate d ≤ a.
Proof.
  intros Ha Hr Hd. rewrite mul_div_rate by done. split.
  - apply Z.div_pos; ulia || (unfold_ints; nia).
  - apply Z.div_le_upper_bound; [lia|]. unfold_ints. nia.
Qed.

(** ** Where the helper is wrong *)

(** The carry out of the middle limb has weight [2^192]; the code adds it to
    the high limb as [1] instead of [2^64]. *)
Theorem mul_div_lost_carry :
  let a := 6 * 2 ^ 128 / 10 - (6 * 2 ^ 128 / 10) mod 2 ^ 64 + (2 ^ 64 - 1) in
  is_u128 a ∧ a * a / 2 ^ 127 ≤ U128_MAX ∧
  mul_div a a (2 ^ 127) = a * a / 2 ^ 127 - 2 ^ 65 + 2.
Proof. cbv zeta. split_and!; [split; by vm_compute|by vm_compute|by vm_compute]. Qed.

(** With a divisor above [2^127] the shifted remainder loses its top bit. *)
Theorem mul_div_lost_remainder_bit :
  let a := 2 ^ 128 - 3 in
  let c := 2 ^ 128 - 1 in
  mid_fits a 3 ∧ a * 3 / c = 2 ∧ mul_div a 3 c = 0.
Proof. cbv zeta. split_and!; by vm_compute. Qed.

Lemma mul_div_spec_witness : mul_div (2 ^ 100) (2 ^ 90) (2 ^ 70) = Z.min U128_MAX (2 ^ 100 * 2 ^ 90 / 2 ^ 70).
Proof. apply mul_div_spec; [split; by vm_compute..|by vm_compute]. Defined.

End Arith256.
