(* ===== verification/Amm.v ===== *)
(** * Constant-product automated market maker

    [crates/programs/amm/src/pool.rs]: [LiquidityPool] and its operations,
    with the integer square root and the proportional [mul_div] they use.
    [BigUint] values are unbounded integers. *)

From S2P Require Import Prelude.

Module Amm.

Record LiquidityPool := mkLiquidityPool {
  pool_id : H256;
  token_a : Address;
  token_b : Address;
  reserve_a : Z;
  reserve_b : Z;
  lp_token_supply : Z;
  fee_bps : Z
}.

Definition set_reserve_a v p := mkLiquidityPool p.(pool_id) p.(token_a) p.(token_b) v p.(reserve_b) p.(lp_token_supply) p.(fee_bps).
Definition set_reserve_b v p := mkLiquidityPool p.(pool_id) p.(token_a) p.(token_b) p.(reserve_a) v p.(lp_token_supply) p.(fee_bps).
Definition set_lp_token_supply v p := mkLiquidityPool p.(pool_id) p.(token_a) p.(token_b) p.(reserve_a) p.(reserve_b) v p.(fee_bps).

Definition new (pool_id : H256) (token_a token_b : Address) (fee_bps : Z) : result error LiquidityPool :=
  bail_if (10000 <? fee_bps) (Msg "fee_bps must be <= 10000");;
  mret (mkLiquidityPool pool_id token_a token_b 0 0 0 fee_bps).

(** [BigUint::to_u128]. *)
Definition to_u128 (x : Z) : option Z := if x <=? U128_MAX then Some x else None.

(** The loop [while y < x { x = y; y = (x + value / x) / 2 }]. *)
Fixpoint integer_sqrt_loop (fuel : nat) (value x y : Z) : Z :=
  match fuel with
  | O => x
  | S n => if y <? x then integer_sqrt_loop n value y ((y + value / y) / 2) else x
  end.

(** Each iteration halves the distance to the root, so [log2 value + 2]
    iterations are enough ([integer_sqrt_biguint_correct]). *)
Definition integer_sqrt_biguint (value : Z) : Z :=
  if value <? 2 then value
  else integer_sqrt_loop (Z.to_nat (Z.log2 value) + 2) value value ((value + 1) / 2).

Definition mul_div (a b c : Z) : result error Z :=
  bail_if (c =? 0) (Msg "division by zero in proportional calculation");;
  match checked_mul U128_MAX a b with
  | Some ab => mret (ab / c)
  | None =>
      whole ← ok_or (checked_mul U128_MAX (a / c) b) (Msg "overflow in proportional calculation");
      rem_b ← ok_or (checked_mul U128_MAX (a mod c) b) (Msg "overflow in proportional calculation");
      ok_or (checked_add U128_MAX whole (rem_b / c)) (Msg "overflow in proportional calculation")
  end.

Definition add_liquidity (amount_a amount_b min_lp_tokens : Z) : M LiquidityPool error Z :=
  bail_if ((amount_a =? 0) || (amount_b =? 0)) (Msg "amounts must be non-zero");;
  p ← get_state;
  if p.(lp_token_supply) =? 0 then
    let product := amount_a * amount_b in
    liquidity ← ok_or (to_u128 (integer_sqrt_biguint product)) (Msg "overflow in initial liquidity");
    bail_if (liquidity <? 1000) (Msg "insufficient initial liquidity");;
    bail_if (liquidity <? min_lp_tokens) (Msg "insufficient LP tokens");;
    modify (set_reserve_a amount_a);;
    modify (set_reserve_b amount_b);;
    modify (set_lp_token_supply liquidity);;
    mret liquidity
  else
    ratio_lhs ← ok_or (checked_mul U128_MAX amount_a p.(reserve_b)) (Msg "overflow in liquidity ratio check");
    ratio_rhs ← ok_or (checked_mul U128_MAX amount_b p.(reserve_a)) (Msg "overflow in liquidity ratio check");
    bail_if (negb (ratio_lhs =? ratio_rhs)) (Msg "liquidity must be added at the current pool ratio");;
    liquidity_a ← reads (λ _, mul_div amount_a p.(lp_token_supply) p.(reserve_a));
    liquidity_b ← reads (λ _, mul_div amount_b p.(lp_token_supply) p.(reserve_b));
    let liquidity := Z.min liquidity_a liquidity_b in
    bail_if ((liquidity =? 0) || (liquidity <? min_lp_tokens)) (Msg "insufficient LP tokens");;
    ra ← ok_or (checked_add U128_MAX p.(reserve_a) amount_a) (Msg "reserve_a overflow");
    modify (set_reserve_a ra);;
    rb ← ok_or (checked_add U128_MAX p.(reserve_b) amount_b) (Msg "reserve_b overflow");
    modify (set_reserve_b rb);;
    supply ← ok_or (checked_add U128_MAX p.(lp_token_supply) liquidity) (Msg "lp_token_supply overflow");
    modify (set_lp_token_supply supply);;
    mret liquidity.

Definition remove_liquidity (lp_tokens min_amount_a min_amount_b : Z) : M LiquidityPool error (Z * Z) :=
  bail_if (lp_tokens =? 0) (Msg "amount must be non-zero");;
  p ← get_state;
  bail_if (p.(lp_token_supply) <? lp_tokens) (Msg "insufficient LP tokens");;
  amount_a ← reads (λ _, map_err (prefix_error "remove_liquidity amount_a: ")
                           (mul_div lp_tokens p.(reserve_a) p.(lp_token_supply)));
  amount_b ← reads (λ _, map_err (prefix_error "remove_liquidity amount_b: ")
                           (mul_div lp_tokens p.(reserve_b) p.(lp_token_supply)));
  bail_if ((amount_a <? min_amount_a) || (amount_b <? min_amount_b)) (Msg "insufficient output amount");;
  ra ← ok_or (checked_sub p.(reserve_a) amount_a) (Msg "reserve_a underflow");
  modify (set_reserve_a ra);;
  rb ← ok_or (checked_sub p.(reserve_b) amount_b) (Msg "reserve_b underflow");
  modify (set_reserve_b rb);;
  supply ← ok_or (checked_sub p.(lp_token_supply) lp_tokens) (Msg "lp_token_supply underflow");
  modify (set_lp_token_supply supply);;
  mret (amount_a, amount_b).

Definition get_amount_out (p : LiquidityPool) (amount_in reserve_in reserve_out : Z) : result error Z :=
  bail_if ((amount_in =? 0) || (reserve_in =? 0) || (reserve_out =? 0)) (Msg "invalid reserves");;
  let fee_multiplier := wrapping_sub U128_MAX 10000 p.(fee_bps) in
  let amount_in_with_fee := amount_in * fee_multiplier in
  let numerator := amount_in_with_fee * reserve_out in
  let denominator := reserve_in * 10000 + amount_in_with_fee in
  ok_or (to_u128 (numerator / denominator)) (Msg "swap output overflow").

Definition check_invariant_big (p : LiquidityPool) (k_old : Z) : result error unit :=
  let k_new := p.(reserve_a) * p.(reserve_b) in
  bail_if (k_new =? 0) (Msg "invariant violated: k = 0");;
  bail_if (k_new <? k_old) (Msg "invariant violated: k decreased").

Definition swap_a_to_b (amount_in min_amount_out : Z) : M LiquidityPool error Z :=
  bail_if (amount_in =? 0) (Msg "amount must be non-zero");;
  p ← get_state;
  let k_old := p.(reserve_a) * p.(reserve_b) in
  amount_out ← reads (λ p, get_amount_out p amount_in p.(reserve_a) p.(reserve_b));
  bail_if (amount_out <? min_amount_out) (Msg "insufficient output amount");;
  ra ← ok_or (checked_add U128_MAX p.(reserve_a) amount_in) (Msg "reserve_a overflow");
  modify (set_reserve_a ra);;
  rb ← ok_or (checked_sub p.(reserve_b) amount_out) (Msg "reserve_b underflow");
  modify (set_reserve_b rb);;
  reads (λ p, check_invariant_big p k_old);;
  mret amount_out.

Definition swap_b_to_a (amount_in min_amount_out : Z) : M LiquidityPool error Z :=
  bail_if (amount_in =? 0) (Msg "amount must be non-zero");;
  p ← get_state;
  let k_old := p.(reserve_b) * p.(reserve_a) in
  amount_out ← reads (λ p, get_amount_out p amount_in p.(reserve_b) p.(reserve_a));
  bail_if (amount_out <? min_amount_out) (Msg "insufficient output amount");;
  rb ← ok_or (checked_add U128_MAX p.(reserve_b) amount_in) (Msg "reserve_b overflow");
  modify (set_reserve_b rb);;
  ra ← ok_or (checked_sub p.(reserve_a) amount_out) (Msg "reserve_a underflow");
  modify (set_reserve_a ra);;
  reads (λ p, check_invariant_big p k_old);;
  mret amount_out.

Definition get_price (p : LiquidityPool) : result error Z :=
  bail_if (p.(reserve_a) =? 0) (Msg "zero reserve");;
  n ← ok_or (checked_mul U128_MAX p.(reserve_b) 1000000) (Msg "overflow in price calculation");
  mret (n / p.(reserve_a)).

(** ** The square root *)

Lemma newton_lower v x : 0 < x → 0 ≤ v → Z.sqrt v ≤ (x + v / x) / 2.
Proof.
  intros Hx Hv. pose proof (Z.sqrt_spec v Hv) as [Hs _]. pose proof (Z.sqrt_nonneg v).
  set (s := Z.sqrt v) in *. apply Z.div_le_lower_bound; [lia|].
  pose proof (Z.div_mod v x ltac:(lia)). pose proof (Z.mod_pos_bound v x Hx).
  destruct (Z.le_gt_cases (2 * s) (x + v / x)); [lia|]. exfalso.
  assert (v < x * (2 * s - x)) by nia.
  assert (0 ≤ (s - x) * (s - x)) by apply Z.square_nonneg. lia.
Qed.

Lemma newton_upper v x : 0 ≤ v → Z.sqrt v < x → (x + v / x) / 2 - Z.sqrt v ≤ (x - Z.sqrt v) / 2.
Proof.
  intros Hv Hx. pose proof (Z.sqrt_spec v Hv) as [_ Hs]. pose proof (Z.sqrt_nonneg v).
  set (s := Z.sqrt v) in *.
  assert (v / x ≤ s). { apply Z.lt_succ_r, Z.div_lt_upper_bound; nia. }
  apply Z.div_le_lower_bound; [lia|].
  pose proof (Z.mul_div_le (x + v / x) 2 ltac:(lia)). lia.
Qed.

Lemma integer_sqrt_loop_correct fuel v x :
  0 < v → Z.sqrt v ≤ x → x - Z.sqrt v < 2 ^ Z.of_nat fuel →
  integer_sqrt_loop (S fuel) v x ((x + v / x) / 2) = Z.sqrt v.
Proof.
  intros Hv. pose proof (Z.sqrt_pos v) as [_ Hp]. specialize (Hp Hv).
  revert x. induction fuel as [|fuel IH]; intros x Hx Hd.
  all: set (y := (x + v / x) / 2).
  all: pose proof (newton_lower v x ltac:(lia) ltac:(lia)) as Hlow; fold y in Hlow.
  - assert (x = Z.sqrt v) as -> by (cbn in Hd; lia). cbn [integer_sqrt_loop].
    destruct (Z.ltb_spec y (Z.sqrt v)); [lia|done].
  - cbn [integer_sqrt_loop] in *. destruct (Z.ltb_spec y x) as [Hlt|Hge].
    + apply IH; [done|].
      assert (Z.sqrt v < x) by lia.
      pose proof (newton_upper v x ltac:(lia) ltac:(lia)) as Hup. fold y in Hup.
      replace (Z.of_nat (S fuel)) with (Z.of_nat fuel + 1) in Hd by lia.
      rewrite Z.pow_add_r in Hd by lia.
      pose proof (Z.div_lt_upper_bound (x - Z.sqrt v) 2 (2 ^ Z.of_nat fuel) ltac:(lia) ltac:(lia)). lia.
    + apply Z.le_antisymm; [|done]. apply Z.sqrt_le_square; [lia..|].
      assert (2 * x ≤ x + v / x).
      { pose proof (Z.mul_div_le (x + v / x) 2 ltac:(lia)). fold y in H. lia. }
      pose proof (Z.mul_div_le v x ltac:(lia)). nia.
Qed.

(** The Newton iteration terminates and returns the integer square root. *)
Theorem integer_sqrt_biguint_correct v : 0 ≤ v → integer_sqrt_biguint v = Z.sqrt v.
Proof.
  intros Hv. unfold integer_sqrt_biguint. destruct (Z.ltb_spec v 2).
  { assert (v = 0 ∨ v = 1) as [-> | ->] by lia; done. }
  replace ((v + 1) / 2) with ((v + v / v) / 2) by (rewrite Z.div_same; lia).
  rewrite Nat.add_succ_r. apply integer_sqrt_loop_correct; [lia| |].
  - apply Z.sqrt_le_lin. lia.
  - pose proof (Z.log2_spec v ltac:(lia)) as [_ Hl]. pose proof (Z.sqrt_nonneg v).
    pose proof (Z.log2_nonneg v).
    replace (Z.of_nat (Z.to_nat (Z.log2 v) + 1)) with (Z.succ (Z.log2 v)) by lia. lia.
Qed.

(** ** Proportional amounts *)

Lemma amm_mul_div_ok a b c r :
  0 ≤ a → 0 ≤ b → 0 ≤ c → mul_div a b c = Ok r → 0 < c ∧ r = a * b / c ∧ r ≤ U128_MAX.
Proof.
  intros Ha Hb Hc Hr. unfold mul_div in Hr. run; subst.
  - split_and!; [lia|done|]. apply Z.div_le_upper_bound; [lia|]. unfold U128_MAX in *. nia.
  - assert (0 < c) by lia. split_and!; [done| |lia].
    transitivity ((a mod c * b + (a / c * b) * c) / c).
    + rewrite Z.div_add by lia. lia.
    + f_equal. pose proof (Z.div_mod a c ltac:(lia)). nia.
Qed.

(** ** Pool invariant and the effect of each operation *)

(** The reserves and the supply are all zero or all positive: the first
    deposit, which overwrites the reserves, never overwrites a live pool. *)
Record pool_inv (p : LiquidityPool) : Prop := {
  pool_ra : is_u128 p.(reserve_a);
  pool_rb : is_u128 p.(reserve_b);
  pool_lp : is_u128 p.(lp_token_supply);
  pool_fee : 0 ≤ p.(fee_bps) ≤ 10000;
  pool_live : (p.(lp_token_supply) = 0 ∧ p.(reserve_a) = 0 ∧ p.(reserve_b) = 0) ∨
    (0 < p.(lp_token_supply) ∧ 0 < p.(reserve_a) ∧ 0 < p.(reserve_b))
}.

(** Output of a swap, as a formula. *)
Definition quote (fee amount_in reserve_in reserve_out : Z) : Z :=
  amount_in * (10000 - fee) * reserve_out / (reserve_in * 10000 + amount_in * (10000 - fee)).

Lemma quote_bounds fee x ri ro :
  0 ≤ fee ≤ 10000 → 0 < x → 0 < ri → 0 < ro →
  0 ≤ quote fee x ri ro < ro ∧ ri * ro ≤ (ri + x) * (ro - quote fee x ri ro).
Proof.
  intros Hf Hx Hri Hro. unfold quote. set (w := x * (10000 - fee)).
  assert (0 ≤ w ≤ x * 10000) by (subst w; nia).
  set (d := ri * 10000 + w). set (q := w * ro / d).
  assert (Hd : 0 < d) by (subst d; nia).
  assert (0 ≤ q) by (apply Z.div_pos; nia).
  assert (Hq : q * d ≤ w * ro) by (subst q; rewrite Z.mul_comm; apply Z.mul_div_le; lia).
  assert (q < ro) by (apply Z.div_lt_upper_bound; subst d; nia).
  split; [lia|]. subst d.
  assert (ri * 10000 * q ≤ w * (ro - q)) by nia.
  assert (w * (ro - q) ≤ x * 10000 * (ro - q)) by nia. nia.
Qed.

Lemma get_amount_out_eq p x ri ro :
  0 ≤ p.(fee_bps) ≤ 10000 → is_u128 x → is_u128 ri → is_u128 ro →
  0 < x → 0 < ri → 0 < ro →
  get_amount_out p x ri ro = Ok (quote p.(fee_bps) x ri ro).
Proof.
  intros Hf Hx Hri Hro ???. unfold get_amount_out.
  pose proof (quote_bounds (fee_bps p) x ri ro Hf ltac:(lia) ltac:(lia) ltac:(lia)) as [Hq _].
  unfold wrapping_sub. rewrite Z.mod_small by ulia. fold (quote (fee_bps p) x ri ro).
  unfold to_u128. unfold_M.
  destruct (Z.eqb_spec x 0); [lia|]. destruct (Z.eqb_spec ri 0); [lia|].
  destruct (Z.eqb_spec ro 0); [lia|]. cbn.
  destruct (Z.leb_spec (quote (fee_bps p) x ri ro) U128_MAX); [done|ulia].
Qed.

(** A swap in either direction, from the reserves' point of view: [Some out]
    when it succeeds. *)
Definition swap_result (fee amount_in min_out reserve_in reserve_out : Z) : option Z :=
  if (amount_in =? 0) || (reserve_in =? 0) || (reserve_out =? 0) then None
  else let out := quote fee amount_in reserve_in reserve_out in
  if (out <? min_out) || (U128_MAX <? reserve_in + amount_in) then None else Some out.

(** Both directions run the same checks on mirrored reserves. *)
Ltac solve_swap p Hp ri ro x :=
  unfold swap_result; unfold_M;
  destruct (Z.eqb_spec x 0); [by eexists|];
  destruct (pool_live p Hp) as [(_ & E1 & E2)|(_ & H1 & H2)];
  [rewrite E1, E2; cbn; eexists; unfold get_amount_out; unfold_M; by rewrite !orb_true_r|];
  destruct (Z.eqb_spec (ri p) 0); [lia|]; destruct (Z.eqb_spec (ro p) 0); [lia|];
  rewrite get_amount_out_eq by (apply Hp || done || ulia); cbn;
  set (out := quote _ _ _ _); destruct (out <? _); [by eexists|];
  destruct (quote_bounds (fee_bps p) x (ri p) (ro p) (pool_fee p Hp)) as [Hq Hk]; [ulia..|];
  fold out in Hq, Hk;
  destruct (Z.ltb_spec U128_MAX (ri p + x));
  [rewrite (proj2 (checked_add_None _ _ _)) by lia; by eexists|];
  rewrite (proj2 (checked_add_Some _ _ _ (ri p + x))) by lia;
  rewrite (proj2 (checked_sub_Some _ _ (ro p - out))) by lia;
  unfold check_invariant_big; unfold_M; cbn;
  rewrite ?(Z.mul_comm (ro p - out));
  destruct (Z.eqb_spec ((ri p + x) * (ro p - out)) 0); [nia|];
  destruct (Z.ltb_spec ((ri p + x) * (ro p - out)) (ri p * ro p)); [lia|done].

Lemma swap_a_to_b_eq p x m :
  pool_inv p → is_u128 x →
  match swap_result p.(fee_bps) x m p.(reserve_a) p.(reserve_b) with
  | Some out => swap_a_to_b x m p =
      (set_reserve_b (p.(reserve_b) - out) (set_reserve_a (p.(reserve_a) + x) p), Ok out)
  | None => ∃ e, swap_a_to_b x m p = (p, Err e)
  end.
Proof. intros Hp Hx. unfold swap_a_to_b. solve_swap p Hp reserve_a reserve_b x. Qed.

Lemma swap_b_to_a_eq p x m :
  pool_inv p → is_u128 x →
  match swap_result p.(fee_bps) x m p.(reserve_b) p.(reserve_a) with
  | Some out => swap_b_to_a x m p =
      (set_reserve_a (p.(reserve_a) - out) (set_reserve_b (p.(reserve_b) + x) p), Ok out)
  | None => ∃ e, swap_b_to_a x m p = (p, Err e)
  end.
Proof. intros Hp Hx. unfold swap_b_to_a. solve_swap p Hp reserve_b reserve_a x. Qed.

Lemma swap_result_Some fee x m ri ro out :
  0 ≤ fee ≤ 10000 → 0 ≤ x → 0 ≤ ri → 0 ≤ ro → swap_result fee x m ri ro = Some out →
  out = quote fee x ri ro ∧ 0 < x ∧ 0 < ri ∧ 0 ≤ out < ro ∧ m ≤ out ∧
  ri + x ≤ U128_MAX ∧ ri * ro ≤ (ri + x) * (ro - out).
Proof.
  intros Hf Hx Hri Hro. unfold swap_result.
  destruct (Z.eqb_spec x 0); [done|]. destruct (Z.eqb_spec ri 0); [done|].
  destruct (Z.eqb_spec ro 0); [done|]. cbn.
  destruct (Z.ltb_spec (quote fee x ri ro) m); [done|].
  destruct (Z.ltb_spec U128_MAX (ri + x)); [done|]. cbn. intros; simplify_eq.
  pose proof (quote_bounds fee x ri ro Hf ltac:(lia) ltac:(lia) ltac:(lia)) as [? ?].
  split_and!; (done || lia).
Qed.

(** [remove_liquidity] pays the floor of the proportional share of each
    reserve and burns the tokens, or fails and changes nothing. *)
Lemma remove_liquidity_cases p l ma mb :
  pool_inv p → is_u128 l →
  (∃ e, remove_liquidity l ma mb p = (p, Err e)) ∨
  (let a := l * p.(reserve_a) / p.(lp_token_supply) in
   let b := l * p.(reserve_b) / p.(lp_token_supply) in
   0 < l ≤ p.(lp_token_supply) ∧ ma ≤ a ∧ mb ≤ b ∧
   0 ≤ a ≤ p.(reserve_a) ∧ 0 ≤ b ≤ p.(reserve_b) ∧
   remove_liquidity l ma mb p =
     (set_lp_token_supply (p.(lp_token_supply) - l)
        (set_reserve_b (p.(reserve_b) - b) (set_reserve_a (p.(reserve_a) - a) p)), Ok (a, b))).
Proof.
  intros Hp Hl. destruct Hp as [Ha Hb Hs Hf Hlive]. unfold remove_liquidity. unfold_M.
  destruct (Z.eqb_spec l 0); [by left; eexists|].
  destruct (Z.ltb_spec (lp_token_supply p) l); [by left; eexists|].
  destruct (mul_div l (reserve_a p) (lp_token_supply p)) as [a|] eqn:Ea; cbn; [|by left; eexists].
  destruct (mul_div l (reserve_b p) (lp_token_supply p)) as [b|] eqn:Eb; cbn; [|by left; eexists].
  apply amm_mul_div_ok in Ea as (_ & Ea & _); [|ulia..].
  apply amm_mul_div_ok in Eb as (_ & Eb & _); [|ulia..].
  destruct (Z.ltb_spec a ma); [by left; eexists|]. destruct (Z.ltb_spec b mb); [by left; eexists|].
  assert (0 ≤ a ≤ reserve_a p).
  { subst a. split; [apply Z.div_pos; unfold_ints; nia|].
    apply Z.div_le_upper_bound; unfold_ints; nia. }
  assert (0 ≤ b ≤ reserve_b p).
  { subst b. split; [apply Z.div_pos; unfold_ints; nia|].
    apply Z.div_le_upper_bound; unfold_ints; nia. }
  right. cbn. rewrite <- Ea, <- Eb.
  rewrite (proj2 (checked_sub_Some _ _ (reserve_a p - a))) by lia.
  rewrite (proj2 (checked_sub_Some _ _ (reserve_b p - b))) by lia.
  rewrite (proj2 (checked_sub_Some _ _ (lp_token_supply p - l))) by lia.
  split_and!; done || ulia.
Qed.

(** The first deposit mints the integer square root of the product. *)
Lemma add_liquidity_first p a b m :
  pool_inv p → p.(lp_token_supply) = 0 → is_u128 a → is_u128 b →
  (∃ e, add_liquidity a b m p = (p, Err e)) ∨
  (0 < a ∧ 0 < b ∧ 1000 ≤ Z.sqrt (a * b) ≤ U128_MAX ∧ m ≤ Z.sqrt (a * b) ∧
   add_liquidity a b m p =
     (set_lp_token_supply (Z.sqrt (a * b)) (set_reserve_b b (set_reserve_a a p)), Ok (Z.sqrt (a * b)))).
Proof.
  intros Hp Hz Ha Hb. unfold add_liquidity. unfold_M.
  destruct (Z.eqb_spec a 0); [by left; eexists|]. destruct (Z.eqb_spec b 0); [by left; eexists|].
  cbn. rewrite Hz, Z.eqb_refl, integer_sqrt_biguint_correct by (unfold_ints; nia).
  unfold to_u128. destruct (Z.leb_spec (Z.sqrt (a * b)) U128_MAX); [|by left; eexists].
  destruct (Z.ltb_spec (Z.sqrt (a * b)) 1000); [by left; eexists|].
  destruct (Z.ltb_spec (Z.sqrt (a * b)) m); [by left; eexists|].
  right. split_and!; done || ulia.
Qed.

(** A later deposit: an error before any write, or the share [l] is bounded
    by both proportions and the writes happen one after the other, up to the
    first one that overflows. *)
Lemma add_liquidity_later p a b m :
  pool_inv p → 0 < p.(lp_token_supply) → is_u128 a → is_u128 b →
  (∃ e, add_liquidity a b m p = (p, Err e)) ∨
  (∃ l, 0 < a ∧ 0 < b ∧ 0 < l ∧ m ≤ l ∧
    l * p.(reserve_a) ≤ a * p.(lp_token_supply) ∧ l * p.(reserve_b) ≤ b * p.(lp_token_supply) ∧
    p.(reserve_a) + a ≤ U128_MAX ∧
    ((U128_MAX < p.(reserve_b) + b ∧
      ∃ e, add_liquidity a b m p = (set_reserve_a (p.(reserve_a) + a) p, Err e)) ∨
     (p.(reserve_b) + b ≤ U128_MAX ∧ U128_MAX < p.(lp_token_supply) + l ∧
      ∃ e, add_liquidity a b m p =
        (set_reserve_b (p.(reserve_b) + b) (set_reserve_a (p.(reserve_a) + a) p), Err e)) ∨
     (p.(reserve_b) + b ≤ U128_MAX ∧ p.(lp_token_supply) + l ≤ U128_MAX ∧
      add_liquidity a b m p =
        (set_lp_token_supply (p.(lp_token_supply) + l)
          (set_reserve_b (p.(reserve_b) + b) (set_reserve_a (p.(reserve_a) + a) p)), Ok l)))).
Proof.
  intros [Hra Hrb Hs Hf Hlive] Hpos Ha Hb. unfold add_liquidity. unfold_M.
  destruct (Z.eqb_spec a 0); [by left; eexists|]. destruct (Z.eqb_spec b 0); [by left; eexists|].
  cbn. destruct (Z.eqb_spec (lp_token_supply p) 0); [lia|].
  destruct (checked_mul U128_MAX a (reserve_b p)); [|by left; eexists].
  destruct (checked_mul U128_MAX b (reserve_a p)); [|by left; eexists].
  destruct (negb _); [by left; eexists|].
  destruct (mul_div a _ (reserve_a p)) as [la|] eqn:Ela; [|by left; eexists].
  destruct (mul_div b _ (reserve_b p)) as [lb|] eqn:Elb; [|by left; eexists].
  apply amm_mul_div_ok in Ela as (? & Ela & _); [|ulia..].
  apply amm_mul_div_ok in Elb as (? & Elb & _); [|ulia..].
  set (l := Z.min la lb). destruct (Z.eqb_spec l 0); [by left; eexists|].
  destruct (Z.ltb_spec l m); [by left; eexists|]. cbn.
  pose proof (Z.mul_div_le (a * lp_token_supply p) (reserve_a p) ltac:(lia)).
  pose proof (Z.mul_div_le (b * lp_token_supply p) (reserve_b p) ltac:(lia)).
  assert (0 ≤ la) by (subst la; apply Z.div_pos; unfold_ints; nia).
  assert (0 ≤ lb) by (subst lb; apply Z.div_pos; unfold_ints; nia).
  unfold checked_add. destruct (Z.leb_spec (reserve_a p + a) U128_MAX); [|by left; eexists].
  right. exists l. split_and!; try (ulia || nia). cbn.
  destruct (Z.leb_spec (reserve_b p + b) U128_MAX).
  - right. destruct (Z.leb_spec (lp_token_supply p + l) U128_MAX); [right|left];
      split_and!; done || by eexists.
  - left. split; [done|by eexists].
Qed.

(** ** Whole-program properties *)

Inductive op : Type :=
| AddLiquidity (amount_a amount_b min_lp_tokens : Z)
| RemoveLiquidity (lp_tokens min_amount_a min_amount_b : Z)
| SwapAToB (amount_in min_amount_out : Z)
| SwapBToA (amount_in min_amount_out : Z).

(** The pool after a call, and whether the call returned [Ok]. *)
Definition exec (o : op) (p : LiquidityPool) : LiquidityPool * bool :=
  match o with
  | AddLiquidity a b m => let '(p', r) := add_liquidity a b m p in (p', is_ok r)
  | RemoveLiquidity l ma mb => let '(p', r) := remove_liquidity l ma mb p in (p', is_ok r)
  | SwapAToB x m => let '(p', r) := swap_a_to_b x m p in (p', is_ok r)
  | SwapBToA x m => let '(p', r) := swap_b_to_a x m p in (p', is_ok r)
  end.

Definition op_wf (o : op) : Prop :=
  match o with
  | AddLiquidity a b m => is_u128 a ∧ is_u128 b ∧ is_u128 m
  | RemoveLiquidity l ma mb => is_u128 l ∧ is_u128 ma ∧ is_u128 mb
  | SwapAToB x m | SwapBToA x m => is_u128 x ∧ is_u128 m
  end.

Definition k (p : LiquidityPool) : Z := p.(reserve_a) * p.(reserve_b).

(** The pool's product per squared LP token does not decrease from [p] to [p']. *)
Definition value_le (p p' : LiquidityPool) : Prop :=
  k p * (p'.(lp_token_supply) * p'.(lp_token_supply))
  ≤ k p' * (p.(lp_token_supply) * p.(lp_token_supply)).

Lemma value_le_refl p : value_le p p.
Proof. unfold value_le. lia. Qed.

Lemma value_le_scale p p' :
  0 ≤ p.(reserve_a) → 0 ≤ p.(reserve_b) →
  0 ≤ p'.(lp_token_supply) → 0 ≤ p'.(reserve_a) → 0 ≤ p'.(reserve_b) → 0 ≤ p.(lp_token_supply) →
  p.(reserve_a) * p'.(lp_token_supply) ≤ p'.(reserve_a) * p.(lp_token_supply) →
  p.(reserve_b) * p'.(lp_token_supply) ≤ p'.(reserve_b) * p.(lp_token_supply) →
  value_le p p'.
Proof.
  intros ?????? H1 H2. unfold value_le, k.
  assert (Hm : (reserve_a p * lp_token_supply p') * (reserve_b p * lp_token_supply p')
    ≤ (reserve_a p' * lp_token_supply p) * (reserve_b p' * lp_token_supply p)).
  { apply Z.mul_le_mono_nonneg; auto using mul_nonneg. }
  lia.
Qed.

Lemma add_liquidity_step p a b m p' r :
  pool_inv p → is_u128 a → is_u128 b → add_liquidity a b m p = (p', r) →
  pool_inv p' ∧ value_le p p'.
Proof.
  intros Hp Ha Hb Hrun. destruct (pool_live p Hp) as [(Hs & Hra & Hrb)|(Hs & Hra & Hrb)].
  - destruct (add_liquidity_first p a b m Hp Hs Ha Hb) as [[e E]|(? & ? & ? & ? & E)];
      rewrite E in Hrun; simplify_eq; [by split; [|apply value_le_refl]|].
    destruct Hp. split; [split; cbn; try done; ulia|].
    unfold value_le, k. cbn. rewrite Hra, Hs. lia.
  - destruct (add_liquidity_later p a b m Hp Hs Ha Hb) as [[e E]|(l & ? & ? & ? & ? & ? & ? & ? & Hc)].
    { rewrite E in Hrun. simplify_eq. by split; [|apply value_le_refl]. }
    destruct Hp as [Ra Rb S F L].
    destruct Hc as [(? & e & E)|[(? & ? & e & E)|(? & ? & E)]]; rewrite E in Hrun; simplify_eq.
    all: split; [split; cbn; done || ulia|].
    all: apply value_le_scale; cbn; unfold_ints; nia.
Qed.

Lemma remove_liquidity_step p l ma mb p' r :
  pool_inv p → is_u128 l → remove_liquidity l ma mb p = (p', r) → pool_inv p' ∧ value_le p p'.
Proof.
  intros Hp Hl Hrun.
  destruct (remove_liquidity_cases p l ma mb Hp Hl) as [[e E]|(Hle & _ & _ & HA & HB & E)];
    rewrite E in Hrun; simplify_eq; [by split; [|apply value_le_refl]|].
  destruct Hp as [Ra Rb S F L].
  set (a := l * reserve_a p / lp_token_supply p) in *. set (b := l * reserve_b p / lp_token_supply p) in *.
  pose proof (Z.mul_div_le (l * reserve_a p) (lp_token_supply p) ltac:(lia)) as Ha. fold a in Ha.
  pose proof (Z.mul_div_le (l * reserve_b p) (lp_token_supply p) ltac:(lia)) as Hb. fold b in Hb.
  split.
  - split; cbn; try done; try ulia.
    destruct (decide (l = lp_token_supply p)) as [->|]; [left|right].
    + assert (a = reserve_a p) by (subst a; rewrite Z.mul_comm; apply Z.div_mul; lia).
      assert (b = reserve_b p) by (subst b; rewrite Z.mul_comm; apply Z.div_mul; lia). lia.
    + split_and!; [lia|nia|nia].
  - apply value_le_scale; cbn; unfold_ints; nia.
Qed.

Lemma swap_step p p' ri ro ri' ro' x out m :
  pool_inv p → is_u128 x → swap_result p.(fee_bps) x m ri ro = Some out →
  ri' = ri + x → ro' = ro - out →
  (ri = p.(reserve_a) ∧ ro = p.(reserve_b) ∧ p' = set_reserve_b ro' (set_reserve_a ri' p)) ∨
  (ri = p.(reserve_b) ∧ ro = p.(reserve_a) ∧ p' = set_reserve_a ro' (set_reserve_b ri' p)) →
  pool_inv p' ∧ value_le p p'.
Proof.
  intros [Ra Rb S F L] Hx Hsw -> -> [(-> & -> & ->)|(-> & -> & ->)].
  all: apply swap_result_Some in Hsw as (_ & ? & ? & ? & ? & ? & Hk); [|ulia..].
  all: split; [split; cbn; done || ulia|].
  all: unfold value_le, k; cbn; unfold_ints; nia.
Qed.

Lemma amm_exec_step o p p' r :
  pool_inv p → op_wf o → exec o p = (p', r) → pool_inv p' ∧ value_le p p'.
Proof.
  intros Hp Hwf Hrun. destruct o as [a b m|l ma mb|x m|x m]; cbn in *; destruct_and!.
  - destruct (add_liquidity a b m p) as [q rr] eqn:E. simplify_eq. by apply (add_liquidity_step p a b m _ rr).
  - destruct (remove_liquidity l ma mb p) as [q rr] eqn:E. simplify_eq. by apply (remove_liquidity_step p l ma mb _ rr).
  - pose proof (swap_a_to_b_eq p x m Hp ltac:(done)) as HE.
    destruct (swap_result _ _ _ _ _) as [out|] eqn:Hs.
    + rewrite HE in Hrun. simplify_eq. apply (swap_step p _ (reserve_a p) (reserve_b p) _ _ x out m Hp ltac:(done) Hs eq_refl eq_refl). by left.
    + destruct HE as [e HE]. rewrite HE in Hrun. simplify_eq. by split; [|apply value_le_refl].
  - pose proof (swap_b_to_a_eq p x m Hp ltac:(done)) as HE.
    destruct (swap_result _ _ _ _ _) as [out|] eqn:Hs.
    + rewrite HE in Hrun. simplify_eq. apply (swap_step p _ (reserve_b p) (reserve_a p) _ _ x out m Hp ltac:(done) Hs eq_refl eq_refl). by right.
    + destruct HE as [e HE]. rewrite HE in Hrun. simplify_eq. by split; [|apply value_le_refl].
Qed.

(** ** Properties *)

(** Every operation, successful or not, keeps the reserves and the supply in
    range and together zero or together positive. *)
Theorem exec_pool_inv o p p' r :
  pool_inv p → op_wf o → exec o p = (p', r) → pool_inv p'.
Proof. intros. by eapply amm_exec_step. Qed.

(** C12: No operation, successful or not, lowers the pool's value per LP token:
    [reserve_a * reserve_b / supply^2] never decreases. *)
Theorem exec_value_per_share o p p' r :
  pool_inv p → op_wf o → exec o p = (p', r) → value_le p p'.
Proof. intros. by eapply amm_exec_step. Qed.

(** A swap pays exactly the quoted output, strictly less than the reserve and
    at least the minimum asked, and the product does not decrease. A swap that
    fails changes nothing, and fails only for an empty amount or pool, the
    slippage bound or an overflowing reserve: the product check never fires. *)
Theorem swap_a_to_b_correct p x m p' r :
  pool_inv p → is_u128 x → swap_a_to_b x m p = (p', r) →
  let out := quote p.(fee_bps) x p.(reserve_a) p.(reserve_b) in
  match r with
  | Ok o => o = out ∧ m ≤ out < p.(reserve_b) ∧
      p' = set_reserve_b (p.(reserve_b) - out) (set_reserve_a (p.(reserve_a) + x) p) ∧
      k p ≤ k p'
  | Err _ => p' = p ∧
      (x = 0 ∨ p.(reserve_a) = 0 ∨ p.(reserve_b) = 0 ∨ out < m ∨ U128_MAX < p.(reserve_a) + x)
  end.
Proof.
  intros Hp Hx Hrun. pose proof (swap_a_to_b_eq p x m Hp Hx) as HE.
  destruct (swap_result _ _ _ _ _) as [o|] eqn:Hs.
  - rewrite HE in Hrun. simplify_eq. cbn.
    apply swap_result_Some in Hs; [|destruct Hp; done || ulia..]. unfold k. naive_solver lia.
  - destruct HE as [e HE]. rewrite HE in Hrun. injection Hrun as <- <-. split; [done|].
    unfold swap_result in Hs.
    destruct (Z.eqb_spec x 0); [by left|]. destruct (Z.eqb_spec (reserve_a p) 0); [by auto|].
    destruct (Z.eqb_spec (reserve_b p) 0); [by auto|]. cbn in Hs.
    destruct (Z.ltb_spec (quote (fee_bps p) x (reserve_a p) (reserve_b p)) m); [by auto|].
    destruct (Z.ltb_spec U128_MAX (reserve_a p + x)); [by auto|done].
Qed.

(** Swapping out and straight back never returns more than was paid in. *)
Theorem swap_round_trip p x m p1 out m' p2 back :
  pool_inv p → is_u128 x → swap_a_to_b x m p = (p1, Ok out) →
  swap_b_to_a out m' p1 = (p2, Ok back) → back ≤ x.
Proof.
  intros Hp Hx H1 H2. pose proof (swap_a_to_b_eq p x m Hp Hx) as E1.
  destruct (swap_result _ _ _ _ _) as [o1|] eqn:Hs1; [|destruct E1; congruence].
  rewrite E1 in H1. simplify_eq.
  apply swap_result_Some in Hs1 as Hb1; [|apply Hp|destruct Hp; ulia..].
  pose proof (swap_step p (set_reserve_b (p.(reserve_b) - out) (set_reserve_a (p.(reserve_a) + x) p))
    _ _ _ _ x out m Hp Hx Hs1 eq_refl eq_refl ltac:(by left)) as [Hp1 _].
  assert (Ho : is_u128 out) by (destruct Hp; ulia).
  pose proof (swap_b_to_a_eq _ out m' Hp1 Ho) as E2.
  match type of E2 with context [swap_result ?f ?y ?n ?ri ?ro] =>
    destruct (swap_result f y n ri ro) as [o2|] eqn:Hs2 end; [|destruct E2; congruence].
  rewrite E2 in H2. simplify_eq.
  apply swap_result_Some in Hs2 as Hb2; [|destruct Hp1; done || ulia..].
  cbn in Hb2. destruct_and!. nia.
Qed.

(** ** Witnesses *)

Definition sample_pool : LiquidityPool := mkLiquidityPool 1 2 3 1000000 2000000 1414213 30.

Lemma sample_pool_inv : pool_inv sample_pool.
Proof. split; cbn; ulia. Qed.

Lemma exec_pool_inv_witness : pool_inv (fst (exec (AddLiquidity 1000 2000 1) sample_pool)).
Proof.
  apply (exec_pool_inv (AddLiquidity 1000 2000 1) sample_pool _ true sample_pool_inv).
  - cbn. ulia.
  - vm_compute. reflexivity.
Defined.

Lemma exec_value_per_share_witness :
  value_le sample_pool (fst (exec (RemoveLiquidity 1000 1 1) sample_pool)).
Proof.
  apply (exec_value_per_share (RemoveLiquidity 1000 1 1) sample_pool _ true sample_pool_inv).
  - cbn. ulia.
  - vm_compute. reflexivity.
Defined.

Lemma swap_a_to_b_correct_witness :
  ∃ p', swap_a_to_b 1000 1 sample_pool = (p', Ok 1992) ∧ k sample_pool ≤ k p'.
Proof.
  eexists. split; [vm_compute; reflexivity|].
  apply (swap_a_to_b_correct sample_pool 1000 1 _ (Ok 1992) sample_pool_inv).
  - ulia.
  - vm_compute. reflexivity.
Defined.

Lemma swap_round_trip_witness :
  ∃ p1 p2, swap_a_to_b 1000 1 sample_pool = (p1, Ok 1992) ∧
    swap_b_to_a 1992 1 p1 = (p2, Ok 994) ∧ 994 ≤ 1000.
Proof.
  eexists _, _. split_and!; [vm_compute; reflexivity|vm_compute; reflexivity|].
  eapply (swap_round_trip sample_pool 1000 1 _ 1992 1 _ 994 sample_pool_inv).
  - ulia.
  - vm_compute. reflexivity.
  - vm_compute. reflexivity.
Defined.

Lemma integer_sqrt_biguint_correct_witness : integer_sqrt_biguint (2 ^ 200 + 12345) = Z.sqrt (2 ^ 200 + 12345).
Proof. apply integer_sqrt_biguint_correct. vm_compute. discriminate. Defined.

(** ** Where [add_liquidity] is not atomic *)

Definition lopsided_pool : LiquidityPool := mkLiquidityPool 1 2 3 1 (2 ^ 127) 13043817825332782212 30.

(** A deposit at the exact ratio whose second reserve overflows returns an
    error after the first reserve has been increased. *)
Theorem add_liquidity_partial_update :
  pool_inv lopsided_pool ∧
  ∃ p', add_liquidity 1 (2 ^ 127) 1 lopsided_pool = (p', Err (Msg "reserve_b overflow")) ∧
    reserve_a p' = 2 ∧ reserve_b p' = 2 ^ 127 ∧
    lp_token_supply p' = lp_token_supply lopsided_pool.
Proof.
  split; [split; cbn; ulia|]. eexists. split_and!; vm_compute; reflexivity.
Qed.

End Amm.
