(* ===== verification/Verifiers.v ===== *)
(** * Verifiable compute: TEE attestations, compute receipts, KZG openings

    [crates/verifiers/tee/src/attestation.rs],
    [crates/verifiers/vcr-validator/src/lib.rs] and
    [crates/verifiers/kzg-verifier/src]. The hash, the signature scheme, the
    pairing check of an opening, JSON decoding and the clock are the fields of
    [VcrCrypto]. The iteration order of a [HashMap] and the random sampling of
    the [rand] crate are arguments of the definitions that depend on them. *)

From S2P Require Import Prelude.

Abbreviation bytes := (list Z) (only parsing).

(** ** TEE attestations *)

Module Tee.

Inductive TeeType : Type := SevSnp | IntelTdx | AwsNitro | Simulation.

#[global] Instance TeeType_eq_dec : EqDecision TeeType.
Proof. solve_decision. Defined.
#[global] Instance TeeType_countable : Countable TeeType.
Proof.
  apply (inj_countable' (λ t, match t with SevSnp => 0 | IntelTdx => 1 | AwsNitro => 2 | Simulation => 3 end)%nat
    (λ n, match n with 0 => SevSnp | 1 => IntelTdx | 2 => AwsNitro | _ => Simulation end)%nat).
  by intros [].
Defined.

Record AttestationReport := mkAttestationReport {
  tee_type : TeeType;
  measurement : bytes;
  nonce : bytes;
  timestamp : Z;
  signature : bytes;
  cert_chain : list bytes
}.

Record TeeVerifier := mkTeeVerifier {
  approved_measurements : list bytes;
  max_age_secs : Z;
  root_certs : gmap TeeType bytes
}.

Definition new : TeeVerifier := mkTeeVerifier [] 60 ∅.

Definition add_approved_measurement (m : bytes) (v : TeeVerifier) : TeeVerifier :=
  if bool_decide (m ∈ v.(approved_measurements)) then v
  else mkTeeVerifier (v.(approved_measurements) ++ [m]) v.(max_age_secs) v.(root_certs).

Definition set_root_cert (t : TeeType) (cert : bytes) (v : TeeVerifier) : TeeVerifier :=
  mkTeeVerifier v.(approved_measurements) v.(max_age_secs) (<[t := cert]> v.(root_certs)).

Definition verify_signature_chain (v : TeeVerifier) (report : AttestationReport) : result error unit :=
  _root_cert ← ok_or (v.(root_certs) !! report.(tee_type)) (Msg "no root cert for TEE type");
  bail_if (bool_decide (report.(cert_chain) = [])) (Msg "empty certificate chain");;
  bail_if (bool_decide (report.(signature) = [])) (Msg "attestation report has empty signature");;
  mthrow (Msg "cryptographic certificate verification is not implemented; refusing non-simulation report").

Definition verify_sev_snp (report : AttestationReport) : result error unit :=
  bail_if (bool_decide (length report.(measurement) ≠ 48%nat))
    (Msg "invalid SEV-SNP measurement length (expected 48)").
Definition verify_intel_tdx (report : AttestationReport) : result error unit :=
  bail_if (bool_decide (length report.(measurement) ≠ 48%nat))
    (Msg "invalid TDX measurement length (expected 48)").
Definition verify_aws_nitro (report : AttestationReport) : result error unit :=
  bail_if (bool_decide (length report.(measurement) ≠ 48%nat))
    (Msg "invalid Nitro measurement length (expected 48)").

Definition verify (v : TeeVerifier) (report : AttestationReport) (current_time : Z) : result error unit :=
  bail_if (current_time <? report.(timestamp))
    (Fmt "attestation timestamp is in the future" [report.(timestamp); current_time]);;
  bail_if (v.(max_age_secs) <? current_time - report.(timestamp))
    (Fmt "attestation too old" [current_time - report.(timestamp); v.(max_age_secs)]);;
  bail_if (negb (bool_decide (report.(measurement) ∈ v.(approved_measurements))))
    (Msg "measurement not approved");;
  (if bool_decide (report.(tee_type) ≠ Simulation) then verify_signature_chain v report else mret tt);;
  match report.(tee_type) with
  | SevSnp => verify_sev_snp report
  | IntelTdx => verify_intel_tdx report
  | AwsNitro => verify_aws_nitro report
  | Simulation => mret tt
  end.

Lemma verify_signature_chain_err v r : is_ok (verify_signature_chain v r) = false.
Proof. unfold verify_signature_chain. unfold_M. by repeat case_match. Qed.

(** [Tee.verify] accepts exactly the fresh simulation reports with an
    approved measurement: a report of a real TEE is never accepted, because
    the signature chain of one is always refused. *)
Theorem tee_verify_iff (v : TeeVerifier) (r : AttestationReport) (now : Z) :
  verify v r now = Ok tt ↔
  r.(tee_type) = Simulation ∧ r.(measurement) ∈ v.(approved_measurements) ∧
  now - v.(max_age_secs) ≤ r.(timestamp) ≤ now.
Proof.
  pose proof (verify_signature_chain_err v r) as Hsig. unfold verify. split.
  - intros H. run; try (by rewrite H3 in Hsig); repeat split; done || lia.
  - intros (Ht & Hm & ? & ?). unfold_M.
    rewrite (proj2 (Z.ltb_ge _ _)), (proj2 (Z.ltb_ge _ _)), (bool_decide_true _ Hm) by lia.
    by rewrite Ht.
Qed.

End Tee.

(** ** Verifiable compute receipts *)

Module Vcr.

Record VerifiableComputeReceipt := mkReceipt {
  job_id : H256;
  worker_id : bytes;
  model_hash : H256;
  input_hash : H256;
  output_hash : H256;
  trace_commitment : bytes;
  trace_proof : bytes;
  trace_evaluation : bytes;
  trace_point : bytes;
  tee_attestation : bytes;
  timestamp : Z;
  signature : bytes
}.

(** The code the validator calls: [serde_json::from_slice],
    [KzgVerifier::verify], [ed25519::verify] and [Sha256]. *)
Class VcrCrypto := {
  report_from_slice : bytes → option Tee.AttestationReport;
  kzg_verify : bytes → bytes → bytes → bytes → option bool;
  ed25519_verify : bytes → bytes → bytes → bool;
  sha256 : bytes → bytes
}.

Record VcrValidator := mkVcrValidator {
  quorum_size : Z;
  challenge_window : Z;
  tee_verifier : Tee.TeeVerifier
}.

Definition approve_measurement (m : bytes) (v : VcrValidator) : VcrValidator :=
  mkVcrValidator v.(quorum_size) v.(challenge_window)
    (Tee.add_approved_measurement m v.(tee_verifier)).
Definition set_quorum_size (n : Z) (v : VcrValidator) : VcrValidator :=
  mkVcrValidator n v.(challenge_window) v.(tee_verifier).

(** The bytes of the literal [b"VCR-v1"]. *)
Definition domain : bytes := [86; 67; 82; 45; 118; 49].

(** The bytes fed to the hasher by [signing_message]. *)
Definition signing_preimage (r : VerifiableComputeReceipt) : bytes :=
  domain ++ as_bytes 32 r.(job_id) ++ r.(worker_id) ++ as_bytes 32 r.(model_hash) ++
  as_bytes 32 r.(input_hash) ++ as_bytes 32 r.(output_hash) ++ r.(trace_commitment) ++
  r.(trace_proof) ++ r.(trace_evaluation) ++ r.(trace_point) ++ r.(tee_attestation) ++
  to_le_bytes 8 r.(timestamp).

Section validator.
Context `{VcrCrypto}.

Definition signing_message (r : VerifiableComputeReceipt) : bytes := sha256 (signing_preimage r).

Definition verify_attestation (v : VcrValidator) (now : Z) (r : VerifiableComputeReceipt) : result error unit :=
  report ← ok_or (report_from_slice r.(tee_attestation)) (Msg "invalid tee_attestation payload");
  Tee.verify v.(tee_verifier) report now.

Definition verify_trace_opening (r : VerifiableComputeReceipt) : result error unit :=
  bail_if (bool_decide (length r.(trace_point) ≠ 32%nat)) (Msg "trace_point must be 32 bytes");;
  valid ← ok_or (kzg_verify r.(trace_commitment) r.(trace_proof) r.(trace_evaluation) r.(trace_point))
    (Msg "KZG trace proof verification failed");
  bail_if (negb valid) (Msg "KZG trace proof verification returned false").

Definition verify_signature (r : VerifiableComputeReceipt) : result error unit :=
  bail_if (bool_decide (r.(signature) = [])) (Msg "empty signature");;
  bail_if (negb (ed25519_verify r.(worker_id) (signing_message r) r.(signature)))
    (Msg "signature verification failed").

Definition verify (v : VcrValidator) (now : Z) (r : VerifiableComputeReceipt) : result error unit :=
  bail_if (bool_decide (length r.(worker_id) ≠ 32%nat))
    (Msg "worker ID must be a 32-byte ed25519 public key");;
  verify_attestation v now r;;
  verify_trace_opening r;;
  verify_signature r.

(** The first loop of [verify_quorum] over the workers. *)
Fixpoint check_workers (seen : gset bytes) (l : list VerifiableComputeReceipt) : result error unit :=
  match l with
  | [] => mret tt
  | r :: l =>
      bail_if (bool_decide (r.(worker_id) ∈ seen))
        (Msg "duplicate worker ID in quorum - possible Sybil attack");;
      check_workers ({[r.(worker_id)]} ∪ seen) l
  end.

Definition count_outputs (l : list VerifiableComputeReceipt) : gmap H256 Z :=
  foldl (λ m r, <[r.(output_hash) := default 0 (m !! r.(output_hash)) + 1]> m) ∅ l.

(** [Iterator::max_by_key] returns the last of the maximal elements. *)
Definition max_step (acc : option (H256 * Z)) (x : H256 * Z) : option (H256 * Z) :=
  match acc with
  | None => Some x
  | Some y => if y.2 <=? x.2 then Some x else Some y
  end.
Definition max_by_key (l : list (H256 * Z)) : option (H256 * Z) := foldl max_step None l.

(** The loop that verifies the receipts that agree with the majority. *)
Fixpoint verify_agreeing (v : VcrValidator) (now : Z) (majority : H256) (count : Z)
    (l : list VerifiableComputeReceipt) : result error Z :=
  match l with
  | [] => mret count
  | r :: l =>
      if bool_decide (r.(output_hash) ≠ majority) then verify_agreeing v now majority count l
      else verify v now r;; verify_agreeing v now majority (count + 1) l
  end.

Definition len (l : list VerifiableComputeReceipt) : Z := Z.of_nat (length l).

(** [iter] is the iteration order of the [counts] map. *)
Definition verify_quorum (iter : gmap H256 Z → list (H256 * Z)) (v : VcrValidator) (now : Z)
    (vcrs : list VerifiableComputeReceipt) : result error unit :=
  bail_if (len vcrs <? v.(quorum_size)) (Fmt "insufficient quorum" [len vcrs; v.(quorum_size)]);;
  first ← ok_or (head vcrs) (Msg "panic: index out of bounds");
  bail_if (negb (forallb (λ r, bool_decide (r.(job_id) = first.(job_id))) vcrs))
    (Msg "mismatched job IDs in quorum");;
  check_workers ∅ vcrs;;
  majority ← ok_or (max_by_key (iter (count_outputs vcrs)))
    (Msg "empty output set in quorum verification");
  bail_if (majority.2 * 3 <? len vcrs * 2)
    (Fmt "no consensus on majority output" [majority.2; len vcrs]);;
  verified ← verify_agreeing v now majority.1 0 vcrs;
  bail_if (verified <? v.(quorum_size))
    (Fmt "insufficient verified quorum" [verified; v.(quorum_size)]).

End validator.

(** *** Quorum *)

Definition count (o : H256) (l : list VerifiableComputeReceipt) : Z :=
  len (filter (λ r, r.(output_hash) = o) l).

Lemma count_cons o r l :
  count o (r :: l) = (if decide (r.(output_hash) = o) then 1 else 0) + count o l.
Proof. unfold count, len. rewrite filter_cons. case_decide; cbn; lia. Qed.

Lemma count_nonneg o l : 0 ≤ count o l.
Proof. unfold count, len. lia. Qed.

(** Two different outputs have at most [len l] receipts together. *)
Lemma count_disjoint o o' l : o ≠ o' → count o l + count o' l ≤ len l.
Proof.
  intros Hne. induction l as [|r l IH]; [done|].
  rewrite !count_cons. unfold len in *. cbn [length]. repeat case_decide; subst; lia || done.
Qed.

Lemma count_elem o l : 0 < count o l ↔ ∃ r, r ∈ l ∧ r.(output_hash) = o.
Proof.
  unfold count, len. split.
  - destruct (filter _ l) as [|r fl] eqn:E; [done|]. intros _. exists r.
    assert (r ∈ filter (λ r, r.(output_hash) = o) l) as Hr by (rewrite E; left).
    by apply list_elem_of_filter in Hr as [? ?].
  - intros (r & Hr & Ho).
    assert (r ∈ filter (λ r, r.(output_hash) = o) l) as Hin by by apply list_elem_of_filter.
    destruct (filter _ l); [by apply not_elem_of_nil in Hin|]. cbn. lia.
Qed.

Lemma count_outputs_fold l (m : gmap H256 Z) o :
  foldl (λ m r, <[r.(output_hash) := default 0 (m !! r.(output_hash)) + 1]> m) m l !! o =
  if decide (0 < count o l) then Some (default 0 (m !! o) + count o l) else m !! o.
Proof.
  revert m. induction l as [|r l IH]; intros m; cbn [foldl]; [done|].
  rewrite IH, count_cons. pose proof (count_nonneg o l).
  destruct (decide (r.(output_hash) = o)) as [->|Hne].
  - rewrite lookup_insert_eq. cbn [default from_option id].
    repeat case_decide; try lia; f_equal; cbn; lia.
  - rewrite lookup_insert_ne by done. repeat case_decide; try lia; done.
Qed.

Lemma count_outputs_lookup l o n :
  count_outputs l !! o = Some n ↔ n = count o l ∧ 0 < count o l.
Proof.
  unfold count_outputs. rewrite count_outputs_fold, lookup_empty. cbn.
  case_decide; naive_solver lia.
Qed.

Lemma max_step_spec acc z : ∃ x, max_step acc z = Some x ∧
  (x = z ∨ acc = Some x) ∧ z.2 ≤ x.2 ∧ ∀ y, acc = Some y → y.2 ≤ x.2.
Proof.
  unfold max_step. destruct acc as [w|]; [|naive_solver lia].
  destruct (w.2 <=? z.2) eqn:E; clean_ints; naive_solver lia.
Qed.

Lemma max_by_key_fold l acc :
  match foldl max_step acc l with
  | Some x => (x ∈ l ∨ acc = Some x) ∧ (∀ y, y ∈ l ∨ acc = Some y → y.2 ≤ x.2)
  | None => l = [] ∧ acc = None
  end.
Proof.
  revert acc. induction l as [|z l IH]; intros acc; cbn [foldl].
  - destruct acc; [|done]. split; [by right|]. intros y [?%not_elem_of_nil|[= ->]]; done.
  - destruct (max_step_spec acc z) as (m & Hm & Hor & Hz & Hacc).
    specialize (IH (max_step acc z)). rewrite Hm in *.
    destruct (foldl max_step (Some m) l) as [x|]; [|naive_solver].
    destruct IH as [Hin Hmax]. pose proof (Hmax m (or_intror eq_refl)). split.
    + set_solver.
    + intros y [[->|?]%elem_of_cons|Hy]; [lia|by apply Hmax; left|].
      specialize (Hacc y Hy). lia.
Qed.

Lemma max_by_key_Some l x :
  max_by_key l = Some x → x ∈ l ∧ ∀ y, y ∈ l → y.2 ≤ x.2.
Proof.
  unfold max_by_key. intros E. pose proof (max_by_key_fold l None) as Hf. rewrite E in Hf.
  destruct Hf as [[?|?] Hm]; [|done]. split; [done|]. intros y ?. apply Hm. by left.
Qed.

Lemma max_by_key_None l : max_by_key l = None → l = [].
Proof.
  unfold max_by_key. intros E. pose proof (max_by_key_fold l None) as Hf. rewrite E in Hf. tauto.
Qed.

Lemma check_workers_ok seen l :
  check_workers seen l = Ok tt ↔
  NoDup (worker_id <$> l) ∧ ∀ r, r ∈ l → r.(worker_id) ∉ seen.
Proof.
  revert seen. induction l as [|r l IH]; intros seen; cbn [check_workers fmap list_fmap].
  - unfold_M. split; [|done]. split; [constructor|]. intros ? ?%not_elem_of_nil. done.
  - rewrite NoDup_cons. unfold_M. case_bool_decide as Hr; [set_solver|]. rewrite IH. set_solver.
Qed.

Section quorum_facts.
Context `{VcrCrypto}.
Variable iter : gmap H256 Z → list (H256 * Z).
(** A [HashMap]'s iterator visits each entry once, in some order. *)
Hypothesis iter_perm : ∀ m, iter m ≡ₚ map_to_list m.

Lemma verify_agreeing_ok v now o c l n :
  verify_agreeing v now o c l = Ok n ↔
  (∀ r, r ∈ l → r.(output_hash) = o → verify v now r = Ok tt) ∧ n = c + count o l.
Proof.
  revert c. induction l as [|r l IH]; intros c; cbn [verify_agreeing].
  - unfold_M. unfold count, len. cbn. split; [|intros [_ ->]; f_equal; lia].
    intros [= ->]. split; [|lia]. intros ? ?%not_elem_of_nil. done.
  - rewrite count_cons. case_bool_decide as Ho.
    + rewrite decide_False, IH by done. setoid_rewrite elem_of_cons.
      split; intros [Hall ->]; (split; [|lia]); [intros ? [->|?]|]; auto; done.
    + rewrite decide_True by done. unfold_M.
      setoid_rewrite elem_of_cons.
      destruct (verify v now r) as [[]|e] eqn:Hv.
      * rewrite IH. split; intros [Hall ->]; (split; [|lia]); [intros ? [->|?]|]; auto.
      * split; [done|]. intros [Hall _]. specialize (Hall r (or_introl eq_refl) Ho). congruence.
Qed.

(** An output backed by two thirds of the receipts is the one [max_by_key]
    finds, whatever the iteration order. *)
Lemma majority_unique l o x :
  max_by_key (iter (count_outputs l)) = Some x → len l * 2 ≤ count o l * 3 → l ≠ [] →
  x = (o, count o l).
Proof.
  intros Hx Ho Hl. assert (0 < len l) by (unfold len; destruct l; [done|cbn; lia]).
  apply max_by_key_Some in Hx as [Hin Hmax]. rewrite iter_perm in Hin.
  setoid_rewrite iter_perm in Hmax. destruct x as [o' n].
  apply elem_of_map_to_list, count_outputs_lookup in Hin as [-> Hpos].
  destruct (decide (o = o')) as [->|Hne]; [done|].
  pose proof (count_disjoint o o' l Hne).
  specialize (Hmax (o, count o l)). cbn in Hmax.
  rewrite elem_of_map_to_list, count_outputs_lookup in Hmax.
  specialize (Hmax (conj eq_refl ltac:(lia))). lia.
Qed.

(** What [verify_quorum] promises: a non-empty set of receipts of one job from
    distinct workers, an output that two thirds of them and at least
    [quorum_size] of them report, and every receipt with that output valid. *)
Definition quorum_spec (v : VcrValidator) (now : Z) (l : list VerifiableComputeReceipt) : Prop :=
  l ≠ [] ∧ (∀ r r', r ∈ l → r' ∈ l → r.(job_id) = r'.(job_id)) ∧
  NoDup (worker_id <$> l) ∧
  ∃ o, len l * 2 ≤ count o l * 3 ∧ v.(quorum_size) ≤ count o l ∧
       ∀ r, r ∈ l → r.(output_hash) = o → verify v now r = Ok tt.

Lemma count_le_len o l : count o l ≤ len l.
Proof. unfold count, len. pose proof (length_filter (λ r, r.(output_hash) = o) l). lia. Qed.

Lemma same_job_forallb f l :
  forallb (λ r, bool_decide (r.(job_id) = f.(job_id))) (f :: l) = true ↔
  ∀ r r', r ∈ f :: l → r' ∈ f :: l → r.(job_id) = r'.(job_id).
Proof.
  rewrite forallb_forall. setoid_rewrite <- list_elem_of_In.
  setoid_rewrite bool_decide_eq_true. split; [|intros Hs r Hr; apply Hs; [done|left]].
  intros Hs r r' Hr Hr'. by rewrite (Hs r), (Hs r').
Qed.

(** The quorum check accepts exactly the receipts that meet its
    specification, whatever order the hash map of output counts is iterated
    in. *)
Theorem verify_quorum_iff (v : VcrValidator) (now : Z) (l : list VerifiableComputeReceipt) :
  verify_quorum iter v now l = Ok tt ↔ quorum_spec v now l.
Proof.
  destruct l as [|f l]; [split; [|by intros []]; unfold verify_quorum; unfold_M; by case_match|].
  unfold verify_quorum, quorum_spec. rewrite <- same_job_forallb. cbn [head]. split.
  - intros Hq. res_inv. simplify_eq. rename select (_ * _)%type into x. destruct x as [o n]. cbn [fst snd] in *.
    rename select (max_by_key _ = _) into Hx. rename select (check_workers _ _ = _) into Hw.
    apply check_workers_ok in Hw as [Hw _]. split_and!; [done..|]. exists o.
    rename select (verify_agreeing _ _ _ _ _ = _) into Hv. apply verify_agreeing_ok in Hv as [Hv ->].
    apply max_by_key_Some in Hx as [Hin _]. rewrite iter_perm in Hin.
    apply elem_of_map_to_list, count_outputs_lookup in Hin as [-> _]. split_and!; [lia..|done].
  - intros (Hne & Hj & Hn & o & Ho & Hs & Hv). pose proof (count_le_len o (f :: l)).
    destruct (max_by_key (iter (count_outputs (f :: l)))) as [x|] eqn:Hx.
    + pose proof (majority_unique _ _ _ Hx Ho Hne) as ->.
      apply res_bail_Ok; split; [apply Z.ltb_ge; lia|].
      eapply res_seq_intro; [done|]. cbn beta. rewrite Hj.
      apply res_bail_Ok; split; [done|].
      eapply res_seq_intro; [apply check_workers_ok; set_solver|].
      eapply res_seq_intro; [done|]. cbn [fst snd].
      apply res_bail_Ok; split; [apply Z.ltb_ge; lia|].
      eapply res_seq_intro; [by apply verify_agreeing_ok|].
      apply res_bail_last, Z.ltb_ge. lia.
    + exfalso. apply max_by_key_None in Hx.
      assert (count_outputs (f :: l) !! f.(output_hash) = None) as Hc.
      { apply eq_None_not_Some. intros [n Hn']. apply elem_of_map_to_list in Hn'.
        rewrite <- iter_perm, Hx in Hn'. by apply not_elem_of_nil in Hn'. }
      pose proof (proj2 (count_outputs_lookup (f :: l) f.(output_hash) _)
        (conj eq_refl (proj2 (count_elem _ _) (ex_intro _ f (conj (list_elem_of_here _ _) eq_refl))))).
      congruence.
Qed.
End quorum_facts.

(** One receipt that reports the majority output and does not verify makes the
    whole quorum fail. *)
Lemma invalid_agreeing_poisons `{VcrCrypto} v now l r o :
  quorum_spec v now l → len l * 2 ≤ count o l * 3 → r ∈ l → r.(output_hash) = o →
  verify v now r = Ok tt.
Proof.
  intros (Hne & _ & _ & o' & Ho' & _ & Hv) Ho Hr <-. apply Hv; [done|].
  destruct (decide (r.(output_hash) = o')) as [|Hn]; [done|].
  pose proof (count_disjoint _ _ l Hn).
  assert (0 < len l) by (unfold len; destruct l; [done|cbn; lia]). lia.
Qed.

(** *** Signing message *)

Definition well_sized (r : VerifiableComputeReceipt) : Prop :=
  (r.(job_id) < 2 ^ 256)%N ∧ (r.(model_hash) < 2 ^ 256)%N ∧ (r.(input_hash) < 2 ^ 256)%N ∧
  (r.(output_hash) < 2 ^ 256)%N ∧ length r.(worker_id) = 32%nat ∧
  length r.(trace_commitment) = 48%nat ∧ length r.(trace_proof) = 48%nat ∧
  length r.(trace_evaluation) = 32%nat ∧ length r.(trace_point) = 32%nat ∧ is_u64 r.(timestamp).

Lemma h256_inj (x y : N) :
  (x < 2 ^ 256)%N → (y < 2 ^ 256)%N → as_bytes 32 x = as_bytes 32 y → x = y.
Proof.
  intros. apply (as_bytes_inj 32); [| |done]; change (256 ^ Z.of_nat 32) with (Z.of_N (2 ^ 256)); lia.
Qed.

Ltac peel H Hx :=
  apply app_inj_len in H as [Hx H]; [|rewrite ?length_as_bytes; congruence].

(** Two receipts whose fields have the sizes that the checks of [verify]
    enforce and that hash the same bytes agree on everything but the
    signature: the worker's signature covers every field. *)
Theorem signing_preimage_injective (r r' : VerifiableComputeReceipt) :
  well_sized r → well_sized r' → signing_preimage r = signing_preimage r' →
  mkReceipt r.(job_id) r.(worker_id) r.(model_hash) r.(input_hash) r.(output_hash)
    r.(trace_commitment) r.(trace_proof) r.(trace_evaluation) r.(trace_point)
    r.(tee_attestation) r.(timestamp) r'.(signature) = r'.
Proof.
  intros (? & ? & ? & ? & ? & ? & ? & ? & ? & ?) (? & ? & ? & ? & ? & ? & ? & ? & ? & ?) E.
  unfold signing_preimage in E. apply app_inj_len in E as [_ E]; [|done].
  peel E Hj. peel E Hw. peel E Hm. peel E Hi. peel E Ho. peel E Hc. peel E Hp. peel E Hv. peel E Hz.
  apply app_inj_len_r in E as [Ht Hs]; [|by rewrite !length_to_le_bytes].
  apply to_le_bytes_inj in Hs; [|cbn in *; unfold_ints; lia..].
  apply h256_inj in Hj, Hm, Hi, Ho; [|done..].
  destruct r, r'; cbn in *; congruence.
Qed.

(** Without the size checks it does not: bytes can move from one
    variable-length field to the next. *)
Lemma signing_preimage_malleable : ∃ r r', r.(trace_commitment) ≠ r'.(trace_commitment) ∧
  signing_preimage r = signing_preimage r'.
Proof.
  exists (mkReceipt 0 [] 0 0 0 [1; 2] [] [] [] [] 0 []), (mkReceipt 0 [] 0 0 0 [1] [2] [] [] [] 0 []).
  split; [done|]. reflexivity.
Qed.

(** *** Witnesses *)

Definition demo_crypto : VcrCrypto := {|
  report_from_slice := λ b, if bool_decide (b = [1]) then
    Some (Tee.mkAttestationReport Tee.Simulation [7] [] 100 [] []) else None;
  kzg_verify := λ c p e z, Some (bool_decide (c = p));
  ed25519_verify := λ pk m s, bool_decide (s = [9]);
  sha256 := λ b, b |}.

Definition demo_receipt (w : Z) (o : H256) : VerifiableComputeReceipt :=
  mkReceipt 5 (repeat w 32) 1 2 o (repeat 3 48) (repeat 3 48) (repeat 0 32) (repeat 4 32) [1] 100 [9].

Definition demo_validator : VcrValidator :=
  mkVcrValidator 2 10 (Tee.add_approved_measurement [7] Tee.new).

Definition demo_quorum : list VerifiableComputeReceipt :=
  [demo_receipt 1 8; demo_receipt 2 8; demo_receipt 3 6].

Lemma verify_quorum_iff_witness :
  @verify_quorum demo_crypto map_to_list demo_validator 130 demo_quorum = Ok tt ∧
  @quorum_spec demo_crypto demo_validator 130 demo_quorum.
Proof.
  assert (@verify_quorum demo_crypto map_to_list demo_validator 130 demo_quorum = Ok tt) as Hq
    by (vm_compute; reflexivity).
  split; [exact Hq|].
  apply (proj1 (@verify_quorum_iff demo_crypto map_to_list (λ m, Permutation_refl _)
    demo_validator 130 demo_quorum)). exact Hq.
Defined.

Lemma signing_preimage_injective_witness :
  signing_preimage (demo_receipt 1 8) = signing_preimage (demo_receipt 1 8) ∧
  demo_receipt 1 8 = demo_receipt 1 8.
Proof.
  split; [reflexivity|].
  apply (signing_preimage_injective (demo_receipt 1 8) (demo_receipt 1 8));
    [repeat split; vm_compute; congruence..|reflexivity].
Defined.

End Vcr.

(** ** KZG spot checks of an execution trace *)

Module Kzg.

Record KzgChallenge := mkKzgChallenge {
  vcr_id : H256;
  layer_indices : list Z;
  point_indices : list (list Z);
  deadline_slot : Z
}.

Inductive VerifierError : Type :=
| InvalidChallenge (msg : string)
| VcrMismatch (expected received : H256)
| IncompleteResponse (expected received : Z)
| UnexpectedOpening (layer point : Z)
| DuplicateOpening (layer point : Z)
| InvalidProof (layer point : Z).

Definition validate (c : KzgChallenge) : result VerifierError unit :=
  bail_if (bool_decide (length c.(layer_indices) ≠ length c.(point_indices)))
    (InvalidChallenge "layer and point vectors must align");;
  bail_if (bool_decide (c.(layer_indices) = []))
    (InvalidChallenge "challenge must request at least one layer");;
  bail_if (existsb (λ points, bool_decide (points = [])) c.(point_indices))
    (InvalidChallenge "each challenged layer must request at least one point").

Definition expected_openings (c : KzgChallenge) : Z :=
  sum_list ((λ points : list Z, Z.of_nat (length points)) <$> c.(point_indices)).

Definition contains (c : KzgChallenge) (layer point : Z) : bool :=
  existsb (λ '(l, points), (l =? layer) && bool_decide (point ∈ points))
    (zip c.(layer_indices) c.(point_indices)).

Definition iter_points (c : KzgChallenge) : list (Z * Z) :=
  zip c.(layer_indices) c.(point_indices) ≫= λ '(layer, points), (λ point, (layer, point)) <$> points.

Record Opening := mkOpening {
  layer_idx : Z;
  point_idx : Z;
  point : bytes;
  commitment : bytes;
  proof : bytes;
  evaluation : bytes
}.

Record KzgOpeningResponse := mkResponse {
  response_vcr_id : H256;
  openings : list Opening
}.

Definition key (o : Opening) : Z * Z := (o.(layer_idx), o.(point_idx)).

Definition validate_opening (c : KzgChallenge) (o : Opening) (seen : gset (Z * Z)) :
    result VerifierError (gset (Z * Z)) :=
  bail_if (negb (contains c o.(layer_idx) o.(point_idx))) (UnexpectedOpening o.(layer_idx) o.(point_idx));;
  bail_if (bool_decide (key o ∈ seen)) (DuplicateOpening o.(layer_idx) o.(point_idx));;
  bail_if (bool_decide (length o.(point) ≠ 32%nat)) (InvalidChallenge "evaluation point must be 32 bytes");;
  mret ({[key o]} ∪ seen).

Section verifier.
(** [KzgVerifier::verify] of a commitment, a proof with its evaluation, and a point. *)
Variable kzg_verify : bytes → bytes → bytes → bytes → option bool.

Fixpoint verify_loop (c : KzgChallenge) (seen : gset (Z * Z)) (l : list Opening) :
    result VerifierError unit :=
  match l with
  | [] => mret tt
  | o :: l =>
      seen' ← validate_opening c o seen;
      bail_if (bool_decide (length o.(point) ≠ 32%nat)) (InvalidChallenge "point must be 32 bytes");;
      valid ← ok_or (kzg_verify o.(commitment) o.(proof) o.(evaluation) o.(point))
        (InvalidProof o.(layer_idx) o.(point_idx));
      bail_if (negb valid) (InvalidProof o.(layer_idx) o.(point_idx));;
      verify_loop c seen' l
  end.

Definition verify_kzg_openings (c : KzgChallenge) (r : KzgOpeningResponse) : result VerifierError unit :=
  validate c;;
  bail_if (bool_decide (c.(vcr_id) ≠ r.(response_vcr_id))) (VcrMismatch c.(vcr_id) r.(response_vcr_id));;
  bail_if (bool_decide (expected_openings c ≠ Z.of_nat (length r.(openings))))
    (IncompleteResponse (expected_openings c) (Z.of_nat (length r.(openings))));;
  verify_loop c ∅ r.(openings).

(** *** A response passes exactly when it answers the challenge *)

Lemma contains_iff c l p : contains c l p = true ↔ (l, p) ∈ iter_points c.
Proof.
  unfold contains, iter_points. rewrite existsb_exists, list_elem_of_bind. split.
  - intros ([l' ps] & Hin & [->%Z.eqb_eq Hp%bool_decide_eq_true]%andb_true_iff).
    exists (l, ps). split; [|by apply list_elem_of_In]. apply list_elem_of_fmap. eauto.
  - intros ([l' ps] & (p' & [= <- <-] & Hp)%list_elem_of_fmap & Hin). exists (l, ps).
    split; [by apply list_elem_of_In|]. by rewrite Z.eqb_refl, bool_decide_true.
Qed.

Lemma length_iter_points c :
  length c.(layer_indices) = length c.(point_indices) →
  Z.of_nat (length (iter_points c)) = expected_openings c.
Proof.
  unfold iter_points, expected_openings. destruct c as [? ls ps ?]; cbn.
  revert ps. induction ls as [|l ls IH]; intros [|p ps] Hlen; try done.
  cbn in *. rewrite length_app, length_fmap. unfold sum_list in *. cbn.
  rewrite <- IH by lia. lia.
Qed.

(** A challenge that can be answered: aligned, non-empty, without repetition. *)
Definition challenge_wf (c : KzgChallenge) : Prop :=
  length c.(layer_indices) = length c.(point_indices) ∧ c.(layer_indices) ≠ [] ∧
  (∀ ps, ps ∈ c.(point_indices) → ps ≠ []) ∧ NoDup (iter_points c).

Lemma validate_ok c :
  validate c = Ok tt ↔
  length c.(layer_indices) = length c.(point_indices) ∧ c.(layer_indices) ≠ [] ∧
  (∀ ps, ps ∈ c.(point_indices) → ps ≠ []).
Proof.
  unfold validate. rewrite !res_bail_Ok, res_bail_last, !bool_decide_eq_false.
  rewrite <- not_true_iff_false, existsb_exists. setoid_rewrite <- list_elem_of_In.
  setoid_rewrite bool_decide_eq_true. split; [intros (?%dec_stable & ? & ?)|]; naive_solver.
Qed.

Definition opening_valid (o : Opening) : Prop :=
  length o.(point) = 32%nat ∧ kzg_verify o.(commitment) o.(proof) o.(evaluation) o.(point) = Some true.

Lemma validate_opening_ok c o seen seen' :
  validate_opening c o seen = Ok seen' ↔
  key o ∈ iter_points c ∧ key o ∉ seen ∧ length o.(point) = 32%nat ∧ seen' = {[key o]} ∪ seen.
Proof.
  unfold validate_opening. rewrite !res_bail_Ok, negb_false_iff, contains_iff, !bool_decide_eq_false.
  unfold_M. split; [intros (? & ? & ?%dec_stable & [= <-])|intros (? & ? & ? & ->)]; split_and!; auto.
Qed.

Lemma verify_loop_ok c seen l :
  verify_loop c seen l = Ok tt ↔
  NoDup (key <$> l) ∧
  ∀ o, o ∈ l → key o ∈ iter_points c ∧ key o ∉ seen ∧ opening_valid o.
Proof.
  revert seen. induction l as [|o l IH]; intros seen; cbn [verify_loop fmap list_fmap].
  - split; [|done]. split; [constructor|]. intros ? ?%not_elem_of_nil. done.
  - rewrite NoDup_cons. split.
    + intros Hv. res_inv. rename select (validate_opening _ _ _ = _) into Hvo.
      apply validate_opening_ok in Hvo as (? & ? & ? & ->).
      rename select (verify_loop _ _ _ = _) into Hl. apply IH in Hl as [Hn Hl].
      subst. split; [split; [|done]|].
      * intros (o' & E & Ho')%list_elem_of_fmap. destruct (Hl o' Ho') as (_ & Hns & _). apply Hns.
        rewrite <- E. by apply elem_of_union_l, elem_of_singleton.
      * intros o' [->|Ho']%elem_of_cons; [by split_and!|]. destruct (Hl o' Ho') as (? & Hns & ?).
        split_and!; [done| |done]. intros Hs. apply Hns. by apply elem_of_union_r.
    + intros [[Hk Hn] Ho]. destruct (Ho o) as (? & ? & Hlen & Hv); [left|].
      eapply res_seq_intro; [by apply validate_opening_ok|].
      apply res_bail_Ok; split; [apply bool_decide_eq_false; lia|].
      eapply res_seq_intro; [by apply res_ok_or_Ok|]. apply res_bail_Ok; split; [done|].
      apply IH. split; [done|]. intros o' Ho'. destruct (Ho o') as (? & ? & ?); [by right|].
      split_and!; [done| |done]. intros [E%elem_of_singleton|?]%elem_of_union; [|done].
      apply Hk. rewrite <- E. by apply list_elem_of_fmap_2.
Qed.

Lemma verify_kzg_openings_spec (c : KzgChallenge) (r : KzgOpeningResponse) :
  verify_kzg_openings c r = Ok tt ↔
  challenge_wf c ∧ c.(vcr_id) = r.(response_vcr_id) ∧
  key <$> r.(openings) ≡ₚ iter_points c ∧ Forall opening_valid r.(openings).
Proof.
  unfold verify_kzg_openings, challenge_wf.
  rewrite res_seq_Ok, !res_bail_Ok, validate_ok, verify_loop_ok, !bool_decide_eq_false, Forall_forall.
  split.
  - intros ((Ha & Hne & Hps) & Hid%dec_stable & Hlen%dec_stable & Hn & Ho).
    assert (key <$> r.(openings) ≡ₚ iter_points c) as Hp.
    { apply submseteq_length_Permutation.
      - apply NoDup_submseteq; [done|]. intros k (o & -> & Hin)%list_elem_of_fmap. by apply Ho.
      - rewrite length_fmap. rewrite <- length_iter_points in Hlen by done. lia. }
    split_and!; try done; [by rewrite <- Hp|]. intros o Hin. by apply Ho.
  - intros ((Ha & Hne & Hps & Hn) & Hid & Hp & Hv). split_and!; try done.
    + by intros [].
    + rewrite <- length_iter_points, <- Hp, length_fmap by done. by intros [].
    + by rewrite Hp.
    + intros o Hin. split_and!; [rewrite <- Hp; by apply list_elem_of_fmap_2|apply not_elem_of_empty|by apply Hv].
Qed.

(** [verify_kzg_openings] accepts a response exactly when the challenge is
    well-formed and without repetition, the identifiers match, the openings
    answer each challenged point exactly once and nothing else, and every
    opening proof is valid. *)
Theorem verify_kzg_openings_iff (c : KzgChallenge) (r : KzgOpeningResponse) :
  verify_kzg_openings c r = Ok tt ↔
  challenge_wf c ∧ c.(vcr_id) = r.(response_vcr_id) ∧
  key <$> r.(openings) ≡ₚ iter_points c ∧ Forall opening_valid r.(openings).
Proof. apply verify_kzg_openings_spec. Qed.
End verifier.

(** *** The watchtower's random challenges *)

Section watchtower.
Context {Rng : Type}.
(** [rand]'s [choose_multiple]. *)
Variable choose_multiple : Rng → list Z → nat → list Z * Rng.

Definition indices (n : Z) : list Z := seqZ 0 n.

(** The loop that samples the points of the selected layers. *)
Fixpoint sample_layers_points (rng : Rng) (layers : list Z) (layer_size : Z) (sample_points : nat) :
    list (list Z) * Rng :=
  match layers with
  | [] => ([], rng)
  | _ :: layers =>
      let '(chosen, rng) := choose_multiple rng (indices layer_size)
        (sample_points `min` Z.to_nat layer_size)%nat in
      let '(rest, rng) := sample_layers_points rng layers layer_size sample_points in
      (chosen :: rest, rng)
  end.

Definition build_challenge (rng : Rng) (id : H256) (total_layers layer_size : Z)
    (sample_layers sample_points : nat) : result error KzgChallenge :=
  bail_if (negb (0 <? total_layers)) (Msg "total layers must be positive");;
  bail_if (negb (0 <? layer_size)) (Msg "layer size must be positive");;
  bail_if (bool_decide (sample_layers = 0%nat)) (Msg "must request at least one layer");;
  bail_if (bool_decide (sample_points = 0%nat)) (Msg "must request at least one point per layer");;
  let '(selected, rng) := choose_multiple rng (indices total_layers)
    (sample_layers `min` Z.to_nat total_layers)%nat in
  let '(points, _) := sample_layers_points rng selected layer_size sample_points in
  mret (mkKzgChallenge id selected points 0).

(** [choose_multiple] returns distinct positions of the iterator, as many as
    asked for when it has that many. *)
Hypothesis choose_spec : ∀ rng l n,
  (choose_multiple rng l n).1 ⊆+ l ∧
  length (choose_multiple rng l n).1 = (n `min` length l)%nat.

Lemma indices_NoDup n : NoDup (indices n).
Proof. apply NoDup_seqZ. Qed.

Lemma choose_indices rng n (k : nat) :
  0 < n → k ≠ 0%nat →
  let r := (choose_multiple rng (indices n) (k `min` Z.to_nat n)%nat).1 in
  NoDup r ∧ r ≠ [].
Proof.
  intros Hn Hk. destruct (choose_spec rng (indices n) (k `min` Z.to_nat n)%nat) as [Hs Hl].
  cbn. split.
  - apply submseteq_Permutation in Hs as [rest Hp]. pose proof (indices_NoDup n) as Hi.
    rewrite Hp in Hi. by apply NoDup_app in Hi as [? _].
  - intros E. rewrite E in Hl. unfold indices in Hl. rewrite length_seqZ in Hl. cbn in Hl. lia.
Qed.

Lemma sample_layers_points_wf rng layers size k points rng' :
  0 < size → k ≠ 0%nat → sample_layers_points rng layers size k = (points, rng') →
  length points = length layers ∧ ∀ ps, ps ∈ points → NoDup ps ∧ ps ≠ [].
Proof.
  intros Hs Hk. revert rng points. induction layers as [|l layers IH]; intros rng points; cbn.
  - intros [= <- <-]. split; [done|]. intros ? ?%not_elem_of_nil. done.
  - pose proof (choose_indices rng size k Hs Hk) as Hc. cbn in Hc.
    destruct (choose_multiple _ _ _) as [chosen rng1]. cbn in Hc.
    destruct (sample_layers_points rng1 _ _ _) as [rest rng2] eqn:E. intros [= <- <-].
    destruct (IH _ _ E) as [Hlen Hall]. split; [cbn; lia|].
    intros ps [->|?]%elem_of_cons; auto.
Qed.

Lemma NoDup_iter_points c :
  NoDup c.(layer_indices) → (∀ ps, ps ∈ c.(point_indices) → NoDup ps) → NoDup (iter_points c).
Proof.
  unfold iter_points. destruct c as [? ls ps ?]; cbn.
  revert ps. induction ls as [|l ls IH]; intros [|p ps] Hl Hp; cbn; try constructor.
  apply NoDup_cons in Hl as [Hnl Hl]. apply NoDup_app. split_and!.
  - apply NoDup_fmap_2; [by intros ?? [= ->]|]. apply Hp. left.
  - intros [l' q] (q' & [= -> ->] & _)%list_elem_of_fmap.
    intros ([l'' ps'] & (? & [= -> ->] & _)%list_elem_of_fmap & Hz)%list_elem_of_bind.
    by apply elem_of_zip_l in Hz.
  - apply IH; [done|]. intros. apply Hp. by right.
Qed.

(** Every challenge the watchtower builds is well-formed and without
    repetition, so it passes [validate] and an honest worker can answer it. *)
Theorem build_challenge_wf rng id total size layers points c :
  build_challenge rng id total size layers points = Ok c → challenge_wf c ∧ c.(vcr_id) = id.
Proof.
  unfold build_challenge. intros Hb. repeat apply res_bail_Ok in Hb as [? Hb]. clean_ints.
  pose proof (choose_indices rng total layers ltac:(done) ltac:(done)) as Hc. cbn in Hc.
  destruct (choose_multiple _ _ _) as [sel rng1]. cbn in Hc. destruct Hc as [Hn Hne].
  destruct (sample_layers_points _ _ _ _) as [pts rng2] eqn:E.
  apply sample_layers_points_wf in E as [Hlen Hall]; [|done..]. injection Hb as <-.
  split; [|done]. unfold challenge_wf. cbn [layer_indices point_indices].
  split_and!; [done|done|by apply Hall|].
  apply NoDup_iter_points; [done|]. cbn [point_indices]. by apply Hall.
Qed.

End watchtower.

(** The sampler that takes the first elements meets [choose_spec]. *)
Definition take_first (rng : unit) (l : list Z) (n : nat) : list Z * unit := (take n l, rng).

Lemma build_challenge_wf_witness :
  build_challenge take_first tt 3 4 5 2 2 = Ok (mkKzgChallenge 3 [0; 1] [[0; 1]; [0; 1]] 0) ∧
  challenge_wf (mkKzgChallenge 3 [0; 1] [[0; 1]; [0; 1]] 0).
Proof.
  split; [reflexivity|].
  apply (build_challenge_wf take_first
    (λ rng l n, conj (sublist_submseteq _ _ (sublist_take l n)) (length_take l n))
    tt 3 4 5 2 2 (mkKzgChallenge 3 [0; 1] [[0; 1]; [0; 1]] 0)). reflexivity.
Defined.

End Kzg.
