(* ===== verification/JobEscrow.v ===== *)
(** * Job escrow program

    [crates/programs/job-escrow/src/lib.rs]: the escrow of AI-inference
    payments. Decoding a stored proof ([serde_json::from_slice]) is a
    parameter; the receipt is checked by [Verifiers.Vcr.verify]. *)

From S2P Require Import Prelude.
From S2P Require Import Verifiers.

Module JobEscrow.

Inductive JobStatus : Type :=
| Posted | Accepted | Submitted | Verified | Disputed | Completed | Cancelled.

#[global] Instance JobStatus_eq_dec : EqDecision JobStatus.
Proof. solve_decision. Defined.

Record Job := mkJob {
  job_id : H256;
  requester : Address;
  provider : option Address;
  model_hash : H256;
  input_hash : H256;
  output_hash : option H256;
  vcr_proof : option (list Z);
  payment : Z;
  status : JobStatus;
  posted_slot : Z;
  deadline_slot : Z;
  challenge_end_slot : option Z
}.

Definition set_provider v j := mkJob j.(job_id) j.(requester) v j.(model_hash) j.(input_hash) j.(output_hash) j.(vcr_proof) j.(payment) j.(status) j.(posted_slot) j.(deadline_slot) j.(challenge_end_slot).
Definition set_status v j := mkJob j.(job_id) j.(requester) j.(provider) j.(model_hash) j.(input_hash) j.(output_hash) j.(vcr_proof) j.(payment) v j.(posted_slot) j.(deadline_slot) j.(challenge_end_slot).
Definition set_output o p j := mkJob j.(job_id) j.(requester) j.(provider) j.(model_hash) j.(input_hash) o p j.(payment) j.(status) j.(posted_slot) j.(deadline_slot) j.(challenge_end_slot).
Definition set_challenge_end v j := mkJob j.(job_id) j.(requester) j.(provider) j.(model_hash) j.(input_hash) j.(output_hash) j.(vcr_proof) j.(payment) j.(status) j.(posted_slot) j.(deadline_slot) v.

Record JobEscrowState := mkJobEscrowState {
  jobs : gmap H256 Job;
  provider_reputation : gmap Address Z;
  requester_escrow : gmap Address Z;
  provider_claimable : gmap Address Z;
  total_jobs : Z;
  completed_jobs : Z
}.

Definition set_jobs v s := mkJobEscrowState v s.(provider_reputation) s.(requester_escrow) s.(provider_claimable) s.(total_jobs) s.(completed_jobs).
Definition set_reputation v s := mkJobEscrowState s.(jobs) v s.(requester_escrow) s.(provider_claimable) s.(total_jobs) s.(completed_jobs).
Definition set_escrow v s := mkJobEscrowState s.(jobs) s.(provider_reputation) v s.(provider_claimable) s.(total_jobs) s.(completed_jobs).
Definition set_claimable v s := mkJobEscrowState s.(jobs) s.(provider_reputation) s.(requester_escrow) v s.(total_jobs) s.(completed_jobs).
Definition set_total_jobs v s := mkJobEscrowState s.(jobs) s.(provider_reputation) s.(requester_escrow) s.(provider_claimable) v s.(completed_jobs).
Definition set_completed_jobs v s := mkJobEscrowState s.(jobs) s.(provider_reputation) s.(requester_escrow) s.(provider_claimable) s.(total_jobs) v.

Definition new : JobEscrowState := mkJobEscrowState ∅ ∅ ∅ ∅ 0 0.

Definition I32_MAX : Z := 2147483647.
Definition MIN_PROVIDER_REPUTATION : Z := -50.

Definition get_job (id : H256) (s : JobEscrowState) : option Job := s.(jobs) !! id.
Definition get_provider_reputation (p : Address) (s : JobEscrowState) : Z :=
  default 0 (s.(provider_reputation) !! p).
Definition escrowed_balance_of (r : Address) (s : JobEscrowState) : Z :=
  default 0 (s.(requester_escrow) !! r).
Definition claimable_balance_of (p : Address) (s : JobEscrowState) : Z :=
  default 0 (s.(provider_claimable) !! p).

(** A write through [self.jobs.get_mut(&job_id)]. *)
Definition update_job (f : Job → Job) (id : H256) (s : JobEscrowState) : JobEscrowState :=
  set_jobs (alter f id s.(jobs)) s.

Definition post_job (id : H256) (req : Address) (model input : H256)
    (pay current_slot deadline_slots : Z) : M JobEscrowState error unit :=
  s ← get_state;
  bail_if (bool_decide (is_Some (s.(jobs) !! id))) (Msg "job already exists");;
  bail_if (pay =? 0) (Msg "payment must be non-zero");;
  deadline ← ok_or (checked_add U64_MAX current_slot deadline_slots)
    (Msg "slot overflow in deadline calculation");
  modify (λ s, set_jobs (<[id := mkJob id req None model input None None pay Posted
                                   current_slot deadline None]> s.(jobs)) s);;
  modify (λ s, set_escrow (or_insert req 0 s.(requester_escrow)) s);;
  escrowed ← ok_or (checked_add U128_MAX (escrowed_balance_of req s) pay)
    (Msg "requester escrow overflow");
  modify (λ s, set_escrow (<[req := escrowed]> s.(requester_escrow)) s);;
  total ← ok_or (checked_add U64_MAX s.(total_jobs) 1) (Msg "total_jobs overflow");
  modify (set_total_jobs total).

Definition accept_job (id : H256) (prov : Address) : M JobEscrowState error unit :=
  s ← get_state;
  let reputation := get_provider_reputation prov s in
  bail_if (reputation <=? MIN_PROVIDER_REPUTATION)
    (Fmt "provider reputation is too low to accept jobs (minimum)" [reputation; MIN_PROVIDER_REPUTATION]);;
  job ← ok_or (s.(jobs) !! id) (Msg "job not found");
  bail_if (bool_decide (job.(status) ≠ Posted)) (Msg "job not available");;
  bail_if (bool_decide (prov = job.(requester)))
    (Msg "provider cannot be the same address as the job requester");;
  modify (update_job (set_provider (Some prov)) id);;
  modify (update_job (set_status Accepted) id).

Definition submit_result (id : H256) (prov : Address) (out : H256) (proof : list Z)
    (current_slot : Z) : M JobEscrowState error unit :=
  s ← get_state;
  job ← ok_or (s.(jobs) !! id) (Msg "job not found");
  bail_if (bool_decide (job.(provider) ≠ Some prov)) (Msg "not job provider");;
  bail_if (bool_decide (job.(status) ≠ Accepted)) (Msg "invalid job status");;
  bail_if (job.(deadline_slot) <? current_slot) (Msg "deadline passed");;
  modify (update_job (set_output (Some out) (Some proof)) id);;
  modify (update_job (set_status Submitted) id);;
  challenge_end ← ok_or (checked_add U64_MAX current_slot 10)
    (Msg "slot overflow in challenge period calculation");
  modify (update_job (set_challenge_end (Some challenge_end)) id).

(** The debit of the escrow shared by [verify_job] and [cancel_job]. *)
Definition debit_escrow (req : Address) (pay : Z) : M JobEscrowState error unit :=
  s ← get_state;
  escrowed ← ok_or (s.(requester_escrow) !! req) (Msg "missing requester escrow balance");
  bail_if (escrowed <? pay) (Msg "insufficient requester escrow balance");;
  remaining ← ok_or (checked_sub escrowed pay) (Msg "escrow underflow");
  modify (λ s, set_escrow (<[req := remaining]> s.(requester_escrow)) s);;
  if remaining =? 0 then modify (λ s, set_escrow (delete req s.(requester_escrow)) s) else mret tt.

Section verifier.
Context `{Vcr.VcrCrypto}.
(** [serde_json::from_slice::<VerifiableComputeReceipt>]. *)
Variable from_slice : list Z → option Vcr.VerifiableComputeReceipt.

(** [now] is the clock the validator reads. *)
Definition verify_job (id : H256) (current_slot : Z) (vcr_validator : Vcr.VcrValidator) (now : Z) :
    M JobEscrowState error (option (Address * Z)) :=
  s ← get_state;
  job ← ok_or (s.(jobs) !! id) (Msg "job not found");
  bail_if (bool_decide (job.(status) ≠ Submitted)) (Msg "job not submitted");;
  match job.(challenge_end_slot) with
  | Some challenge_end => bail_if (current_slot <=? challenge_end) (Msg "challenge period not ended")
  | None => mret tt
  end;;
  proof_bytes ← ok_or job.(vcr_proof) (Msg "missing VCR proof");
  receipt ← ok_or (from_slice proof_bytes) (Msg "invalid VCR proof encoding");
  reads (λ _, map_err (prefix_error "VCR proof verification failed: ")
                (Vcr.verify vcr_validator now receipt));;
  prov ← ok_or job.(provider) (Msg "job has no provider");
  debit_escrow job.(requester) job.(payment);;
  modify (λ s, set_claimable (or_insert prov 0 s.(provider_claimable)) s);;
  claimable ← ok_or (checked_add U128_MAX (claimable_balance_of prov s) job.(payment))
    (Msg "provider claimable overflow");
  modify (λ s, set_claimable (<[prov := claimable]> s.(provider_claimable)) s);;
  modify (update_job (set_status Completed) id);;
  modify (λ s, set_reputation (or_insert prov 0 s.(provider_reputation)) s);;
  rep ← ok_or (checked_add I32_MAX (get_provider_reputation prov s) 1) (Msg "reputation overflow");
  modify (λ s, set_reputation (<[prov := rep]> s.(provider_reputation)) s);;
  completed ← ok_or (checked_add U64_MAX s.(completed_jobs) 1) (Msg "completed_jobs overflow");
  modify (set_completed_jobs completed);;
  mret (Some (prov, job.(payment))).

Definition challenge_job (id : H256) (challenger : Address) : M JobEscrowState error unit :=
  s ← get_state;
  job ← ok_or (s.(jobs) !! id) (Msg "job not found");
  bail_if (bool_decide (job.(status) ≠ Submitted)) (Msg "cannot challenge job");;
  bail_if (bool_decide (challenger ≠ job.(requester))) (Msg "only job requester can challenge");;
  modify (update_job (set_status Disputed) id).

Definition cancel_job (id : H256) (caller : Address) : M JobEscrowState error unit :=
  s ← get_state;
  job ← ok_or (s.(jobs) !! id) (Msg "job not found");
  bail_if (bool_decide (caller ≠ job.(requester))) (Msg "not job requester");;
  bail_if (bool_decide (job.(status) ≠ Posted)) (Msg "cannot cancel job");;
  debit_escrow job.(requester) job.(payment);;
  modify (update_job (set_status Cancelled) id).

(** The program's calls. *)
Inductive op : Type :=
| Post (id : H256) (req : Address) (model input : H256) (pay slot deadline : Z)
| Accept (id : H256) (prov : Address)
| Submit (id : H256) (prov : Address) (out : H256) (proof : list Z) (slot : Z)
| Verify (id : H256) (slot : Z) (validator : Vcr.VcrValidator) (now : Z)
| Challenge (id : H256) (challenger : Address)
| Cancel (id : H256) (caller : Address).

(** The state after a call, and whether it returned [Ok]. *)
Definition exec (o : op) (s : JobEscrowState) : JobEscrowState * bool :=
  match o with
  | Post id req m i p c d => let '(s', r) := post_job id req m i p c d s in (s', is_ok r)
  | Accept id p => let '(s', r) := accept_job id p s in (s', is_ok r)
  | Submit id p o pr c => let '(s', r) := submit_result id p o pr c s in (s', is_ok r)
  | Verify id c v n => let '(s', r) := verify_job id c v n s in (s', is_ok r)
  | Challenge id c => let '(s', r) := challenge_job id c s in (s', is_ok r)
  | Cancel id c => let '(s', r) := cancel_job id c s in (s', is_ok r)
  end.


(** ** The escrow as a step relation

    What a call can do to the jobs, the balances and the reputations, whether
    it returns [Ok] or [Err]. *)

Definition debit (req : Address) (pay : Z) (m : gmap Address Z) : gmap Address Z :=
  let remaining := default 0 (m !! req) - pay in
  if remaining =? 0 then delete req m else <[req := remaining]> m.
Definition credit (a : Address) (pay : Z) (m : gmap Address Z) : gmap Address Z :=
  <[a := default 0 (m !! a) + pay]> m.

(** The status changes that keep the payment in escrow. *)
Inductive progress : Job → Job → Prop :=
| ProgressAccept j p : j.(status) = Posted → p ≠ j.(requester) →
    progress j (set_status Accepted (set_provider (Some p) j))
| ProgressSubmit j p out proof e : j.(status) = Accepted → j.(provider) = Some p →
    progress j (set_challenge_end (Some e) (set_status Submitted (set_output (Some out) (Some proof) j)))
| ProgressDispute j : j.(status) = Submitted → progress j (set_status Disputed j).

Inductive step (s s' : JobEscrowState) : Prop :=
| StepSkip :
    s'.(jobs) = s.(jobs) → s'.(requester_escrow) = s.(requester_escrow) →
    s'.(provider_claimable) = s.(provider_claimable) →
    s'.(provider_reputation) = s.(provider_reputation) → step s s'
| StepPost id j :
    s.(jobs) !! id = None → j.(job_id) = id → j.(status) = Posted → j.(provider) = None →
    0 < j.(payment) →
    s'.(jobs) = <[id := j]> s.(jobs) →
    s'.(requester_escrow) = credit j.(requester) j.(payment) s.(requester_escrow) →
    s'.(provider_claimable) = s.(provider_claimable) →
    s'.(provider_reputation) = s.(provider_reputation) → step s s'
| StepProgress id j j' :
    s.(jobs) !! id = Some j → progress j j' →
    s'.(jobs) = <[id := j']> s.(jobs) →
    s'.(requester_escrow) = s.(requester_escrow) →
    s'.(provider_claimable) = s.(provider_claimable) →
    s'.(provider_reputation) = s.(provider_reputation) → step s s'
| StepRefund id j :
    s.(jobs) !! id = Some j → j.(status) = Posted →
    s'.(jobs) = <[id := set_status Cancelled j]> s.(jobs) →
    s'.(requester_escrow) = debit j.(requester) j.(payment) s.(requester_escrow) →
    s'.(provider_claimable) = s.(provider_claimable) →
    s'.(provider_reputation) = s.(provider_reputation) → step s s'
| StepPay id j p rep :
    s.(jobs) !! id = Some j → j.(status) = Submitted → j.(provider) = Some p →
    s'.(jobs) = <[id := set_status Completed j]> s.(jobs) →
    s'.(requester_escrow) = debit j.(requester) j.(payment) s.(requester_escrow) →
    s'.(provider_claimable) = credit p j.(payment) s.(provider_claimable) →
    get_provider_reputation p s ≤ rep →
    s'.(provider_reputation) = <[p := rep]> s.(provider_reputation) → step s s'.

(** ** Invariant *)

Definition holds_payment (st : JobStatus) : bool :=
  match st with Posted | Accepted | Submitted | Verified | Disputed => true | _ => false end.

(** What job [j] keeps in the escrow of [r]. *)
Definition held (r : Address) (j : Job) : Z :=
  if bool_decide (j.(requester) = r) && holds_payment j.(status) then j.(payment) else 0.

Definition job_ok (id : H256) (j : Job) : Prop :=
  j.(job_id) = id ∧ 0 < j.(payment) ∧
  match j.(status) with
  | Posted => j.(provider) = None
  | Accepted => ∃ p, j.(provider) = Some p ∧ p ≠ j.(requester)
  | Submitted | Disputed | Completed =>
      (∃ p, j.(provider) = Some p ∧ p ≠ j.(requester)) ∧
      is_Some j.(vcr_proof) ∧ is_Some j.(output_hash) ∧ is_Some j.(challenge_end_slot)
  | Verified => False
  | Cancelled => True
  end.

(** All funds the program holds. *)
Definition funds (s : JobEscrowState) : Z :=
  map_total s.(requester_escrow) + map_total s.(provider_claimable).

Record escrow_inv (s : JobEscrowState) : Prop := {
  inv_jobs : map_Forall job_ok s.(jobs);
  inv_escrow : ∀ r, escrowed_balance_of r s = map_sum (held r) s.(jobs);
  inv_escrow_pos : map_Forall (λ _ v, 0 ≤ v) s.(requester_escrow);
  inv_claimable_pos : map_Forall (λ _ v, 0 ≤ v) s.(provider_claimable);
  inv_reputation : map_Forall (λ _ v, 0 ≤ v) s.(provider_reputation);
  inv_funds : funds s ≤ U128_MAX
}.

(** The arguments of a call: [u128] payments backed by tokens of a [u128]
    supply, slots that leave room for the challenge period. *)
Definition op_wf (o : op) (s : JobEscrowState) : Prop :=
  match o with
  | Post _ _ _ _ pay _ _ => 0 ≤ pay ∧ funds s + pay ≤ U128_MAX
  | Submit _ _ _ _ slot => slot + 10 ≤ U64_MAX
  | _ => True
  end.

Lemma lookup_credit a b pay m :
  default 0 (credit a pay m !! b) = default 0 (m !! b) + (if decide (a = b) then pay else 0).
Proof.
  unfold credit. case_decide; subst.
  - rewrite lookup_insert_eq. done.
  - rewrite lookup_insert_ne by done. lia.
Qed.

Lemma lookup_debit a b pay m :
  default 0 (debit a pay m !! b) = default 0 (m !! b) - (if decide (a = b) then pay else 0).
Proof.
  unfold debit. case_decide; subst.
  - case_match; clean_ints.
    + rewrite lookup_delete_eq. cbn. lia.
    + by rewrite lookup_insert_eq.
  - case_match; [rewrite lookup_delete_ne by done|rewrite lookup_insert_ne by done]; lia.
Qed.

Lemma map_total_credit a pay m : map_total (credit a pay m) = map_total m + pay.
Proof. unfold credit. rewrite map_total_insert. lia. Qed.

Lemma map_total_debit a pay m : map_total (debit a pay m) = map_total m - pay.
Proof.
  unfold debit. case_match; clean_ints; [rewrite map_total_delete|rewrite map_total_insert]; lia.
Qed.

Lemma credit_nonneg a pay m :
  0 ≤ pay → map_Forall (λ _ v, 0 ≤ v) m → map_Forall (λ _ v, 0 ≤ v) (credit a pay m).
Proof.
  intros Hp Hm. unfold credit. apply map_Forall_insert_2; [|done].
  pose proof (map_total_lookup m a Hm). lia.
Qed.

Lemma debit_nonneg a pay m :
  pay ≤ default 0 (m !! a) → map_Forall (λ _ v, 0 ≤ v) m → map_Forall (λ _ v, 0 ≤ v) (debit a pay m).
Proof.
  intros Hp Hm. unfold debit. case_match; clean_ints.
  - by apply map_Forall_delete.
  - apply map_Forall_insert_2; [lia|done].
Qed.

(** A job's payment is covered by its requester's escrow. *)
Lemma held_le_escrow s id j :
  escrow_inv s → s.(jobs) !! id = Some j → holds_payment j.(status) = true →
  0 < j.(payment) ≤ escrowed_balance_of j.(requester) s.
Proof.
  intros [Hj He _ _ _ _] Hid Hst. destruct (Hj id j Hid) as (_ & Hp & _). split; [done|].
  rewrite He. etransitivity; [|apply (map_sum_lookup_le _ _ id j); [|done]].
  - unfold held. by rewrite bool_decide_true, Hst.
  - intros k v Hk. destruct (Hj k v Hk) as (_ & ? & _). unfold held. case_match; lia.
Qed.

Lemma held_insert s r id j j' :
  s.(jobs) !! id = Some j →
  map_sum (held r) (<[id := j']> s.(jobs)) = map_sum (held r) s.(jobs) - held r j + held r j'.
Proof. intros Hid. rewrite map_sum_insert, Hid. cbn. lia. Qed.

Lemma progress_held r j j' : progress j j' → held r j' = held r j.
Proof. destruct 1 as [? ? Hs|? ? ? ? ? Hs|? Hs]; unfold held; by rewrite Hs. Qed.

Lemma progress_ok id j j' : job_ok id j → progress j j' → job_ok id j'.
Proof.
  intros (Hid & Hp & Hst). destruct 1 as [? ? Hs|? ? ? ? ? Hs Hpr|? Hs]; rewrite Hs in Hst;
    (split_and!; [done|done|]); cbn.
  - eauto.
  - destruct Hst as (q & Hq & ?). split_and!; eauto.
  - done.
Qed.

Lemma step_inv s s' :
  escrow_inv s → step s s' → funds s' ≤ U128_MAX → escrow_inv s'.
Proof.
  intros Hinv Hstep Hf. pose proof Hinv as [Hj He Hep Hcp Hr _].
  destruct Hstep as [Ej Ee Ec Er|id j Hid Hji Hst Hpr Hpay Ej Ee Ec Er|id j j' Hid Hpg Ej Ee Ec Er
    |id j Hid Hst Ej Ee Ec Er|id j p rep Hid Hst Hpr Ej Ee Ec Hrep Er];
    constructor; unfold escrowed_balance_of in *; rewrite ?Ej, ?Ee, ?Ec, ?Er; try done.
  - apply map_Forall_insert_2; [|done]. split_and!; [done|lia|]. by rewrite Hst.
  - intros r. rewrite lookup_credit, map_sum_insert_new, He by done. unfold held at 2.
    rewrite Hst. cbn. case_decide; [rewrite bool_decide_true by done|rewrite bool_decide_false by done]; cbn; lia.
  - apply credit_nonneg; [lia|done].
  - apply map_Forall_insert_2; [|done]. eapply progress_ok; eauto.
  - intros r. rewrite (held_insert s r id j), (progress_held r j j'), He by done. lia.
  - apply map_Forall_insert_2; [|done]. destruct (Hj id j Hid) as (? & ? & _). by split_and!.
  - intros r. rewrite lookup_debit, (held_insert s r id j), He by done. unfold held. rewrite Hst. cbn.
    rewrite andb_false_r, andb_true_r.
    case_decide; [rewrite bool_decide_true by done|rewrite bool_decide_false by done]; lia.
  - apply debit_nonneg; [|done]. eapply held_le_escrow; eauto. by rewrite Hst.
  - apply map_Forall_insert_2; [|done]. destruct (Hj id j Hid) as (? & ? & Hc). rewrite Hst in Hc.
    by split_and!.
  - intros r. rewrite lookup_debit, (held_insert s r id j), He by done. unfold held. rewrite Hst. cbn.
    rewrite andb_false_r, andb_true_r.
    case_decide; [rewrite bool_decide_true by done|rewrite bool_decide_false by done]; lia.
  - apply debit_nonneg; [|done]. eapply held_le_escrow; eauto. by rewrite Hst.
  - apply credit_nonneg; [|done]. destruct (Hj id j Hid) as (_ & ? & _). lia.
  - apply map_Forall_insert_2; [|done]. etransitivity; [|exact Hrep].
    unfold get_provider_reputation. apply map_total_lookup. done.
Qed.

(** ** The operations are steps *)

Lemma update_job_jobs f id j s :
  s.(jobs) !! id = Some j → (update_job f id s).(jobs) = <[id := f j]> s.(jobs).
Proof. intros. cbn. by apply alter_lookup. Qed.

Lemma update_job_compose f g id s :
  update_job g id (update_job f id s) = update_job (g ∘ f) id s.
Proof. unfold update_job. cbn. by rewrite alter_alter_eq. Qed.

Lemma post_job_step id req model input pay slot dl s s' r :
  0 ≤ pay → map_Forall (λ _ v, 0 ≤ v) s.(provider_claimable) →
  map_Forall (λ _ v, 0 ≤ v) s.(requester_escrow) → funds s + pay ≤ U128_MAX →
  post_job id req model input pay slot dl s = (s', r) → step s s' ∧ funds s' ≤ funds s + pay.
Proof.
  intros Hpay Hc He Hf H0. unfold funds in *.
  assert (escrowed_balance_of req s + pay ≤ U128_MAX).
  { pose proof (map_total_lookup _ req He). pose proof (map_total_nonneg _ Hc).
    unfold escrowed_balance_of. lia. }
  unfold post_job in H0. run; try lia;
    try (split; [by apply StepSkip|lia]).
  all: rewrite <- eq_None_not_Some in *; unfold escrowed_balance_of in *.
  all: split; [|rewrite insert_or_insert, map_total_insert; lia].
  all: eapply StepPost; cbn; eauto; cbn.
  all: try done; try lia. all: subst; by rewrite insert_or_insert.
Qed.

Lemma accept_job_step id p s s' r : accept_job id p s = (s', r) → step s s' ∧ funds s' = funds s.
Proof.
  intros H0. unfold accept_job in H0. run; try (split; [by apply StepSkip|done]).
  split; [|done].
  eapply (StepProgress _ _ id); [done|by apply ProgressAccept| |done..].
  rewrite update_job_compose. by erewrite update_job_jobs.
Qed.

Lemma submit_result_step id p out proof slot s s' r :
  slot + 10 ≤ U64_MAX →
  submit_result id p out proof slot s = (s', r) → step s s' ∧ funds s' = funds s.
Proof.
  intros Hs H0. unfold submit_result in H0. run; try (split; [by apply StepSkip|done]); try lia.
  split; [|done].
  eapply (StepProgress _ _ id); [done| | |done..].
  - by eapply ProgressSubmit.
  - rewrite !update_job_compose. by erewrite update_job_jobs.
Qed.

Lemma challenge_job_step id c s s' r : challenge_job id c s = (s', r) → step s s' ∧ funds s' = funds s.
Proof.
  intros H0. unfold challenge_job in H0. run; try (split; [by apply StepSkip|done]).
  split; [|done].
  eapply (StepProgress _ _ id); [done|by apply ProgressDispute|by apply update_job_jobs|done..].
Qed.

(** The debit of a job whose payment is held succeeds. *)
Lemma debit_escrow_held s id j :
  escrow_inv s → s.(jobs) !! id = Some j → holds_payment j.(status) = true →
  debit_escrow j.(requester) j.(payment) s =
    (set_escrow (debit j.(requester) j.(payment) s.(requester_escrow)) s, Ok tt).
Proof.
  intros Hinv Hid Hst. pose proof (held_le_escrow s id j Hinv Hid Hst) as [Hpos Hle].
  unfold escrowed_balance_of, debit_escrow, debit in *. unfold_M.
  destruct (s.(requester_escrow) !! j.(requester)) as [e|] eqn:E; cbn in *; [|lia].
  rewrite (proj2 (Z.ltb_ge _ _)), (proj2 (checked_sub_Some e j.(payment) _)) by (done || lia). cbn.
  case_match; [|done]. unfold set_escrow. cbn. by rewrite delete_insert_eq.
Qed.

Lemma cancel_job_cases id c s s' r :
  escrow_inv s → cancel_job id c s = (s', r) →
  (s' = s ∧ is_ok r = false) ∨
  ∃ j, s.(jobs) !! id = Some j ∧ c = j.(requester) ∧ j.(status) = Posted ∧ r = Ok tt ∧
    s' = update_job (set_status Cancelled) id
           (set_escrow (debit j.(requester) j.(payment) s.(requester_escrow)) s).
Proof.
  intros Hinv H0. unfold cancel_job in H0. unfold_M.
  destruct (s.(jobs) !! id) as [j|] eqn:Hid; [|by simplify_eq; left].
  case_bool_decide as Hc; [by simplify_eq; left|]. case_bool_decide as Hst; [by simplify_eq; left|].
  rewrite (debit_escrow_held s id j) in H0 by (done || by rewrite Hst). simplify_eq. right. by exists j.
Qed.

Lemma cancel_job_step id c s s' r :
  escrow_inv s → cancel_job id c s = (s', r) → step s s' ∧ funds s' ≤ funds s.
Proof.
  intros Hinv [[-> _]|(j & Hid & -> & Hst & -> & ->)]%cancel_job_cases; [| |done].
  - split; [by apply StepSkip|done].
  - split.
    + eapply (StepRefund _ _ id j); [done|done|by erewrite update_job_jobs|done..].
    + unfold funds. cbn. rewrite map_total_debit.
      pose proof (held_le_escrow s id j Hinv Hid ltac:(by rewrite Hst)). lia.
Qed.

(** The conditions under which [verify_job] releases a payment. *)
Definition releasable (id : H256) (slot : Z) (v : Vcr.VcrValidator) (now : Z)
    (s : JobEscrowState) (j : Job) (p : Address) : Prop :=
  s.(jobs) !! id = Some j ∧ j.(status) = Submitted ∧ j.(provider) = Some p ∧
  (∃ e, j.(challenge_end_slot) = Some e ∧ e < slot) ∧
  ∃ proof receipt, j.(vcr_proof) = Some proof ∧ from_slice proof = Some receipt ∧
    Vcr.verify v now receipt = Ok tt.

(** The state changes of a release. *)
Definition released (id : H256) (j : Job) (p : Address) (s s' : JobEscrowState) : Prop :=
  s'.(jobs) = <[id := set_status Completed j]> s.(jobs) ∧
  s'.(requester_escrow) = debit j.(requester) j.(payment) s.(requester_escrow) ∧
  s'.(provider_claimable) = credit p j.(payment) s.(provider_claimable).

Ltac refuse_release :=
  left; simplify_eq; split_and!; [done|done|];
  intros (? & ? & (? & ? & ? & (? & ? & ?) & (? & ? & ? & ? & ?))); simplify_eq; congruence || lia.

Lemma verify_job_cases id slot v now s s' r :
  escrow_inv s → verify_job id slot v now s = (s', r) →
  (s' = s ∧ is_ok r = false ∧ ¬ ∃ j p, releasable id slot v now s j p) ∨
  ∃ j p, releasable id slot v now s j p ∧ released id j p s s' ∧
    (∃ rep, get_provider_reputation p s ≤ rep ∧
       s'.(provider_reputation) = <[p := rep]> s.(provider_reputation)) ∧
    (get_provider_reputation p s < I32_MAX → s.(completed_jobs) < U64_MAX →
     r = Ok (Some (p, j.(payment)))) ∧
    (∀ x, r = Ok x → x = Some (p, j.(payment))).
Proof.
  intros Hinv H0. unfold verify_job in H0. unfold_M.
  destruct (s.(jobs) !! id) as [j|] eqn:Hid; [|refuse_release].
  case_bool_decide as Hst; [refuse_release|].
  pose proof (inv_jobs s Hinv id j Hid) as (_ & Hpay & Hok). rewrite Hst in Hok.
  destruct Hok as ((p & Hp & Hne) & [proof Hproof] & _ & [e He]).
  rewrite He, Hproof, Hp in H0.
  destruct (slot <=? e) eqn:Hslot; [refuse_release|]. clean_ints.
  destruct (from_slice proof) as [rc|] eqn:Hrc; [|refuse_release].
  destruct (Vcr.verify v now rc) as [[]|?] eqn:Hv; cbn [map_err] in H0; [|refuse_release].
  rewrite (debit_escrow_held s id j) in H0 by (done || by rewrite Hst).
  right. exists j, p. split; [unfold releasable; naive_solver|].
  assert (claimable_balance_of p s + j.(payment) ≤ U128_MAX) as Hcl.
  { pose proof (held_le_escrow s id j Hinv Hid ltac:(by rewrite Hst)).
    pose proof (map_total_lookup _ p (inv_claimable_pos s Hinv)).
    pose proof (map_total_lookup _ j.(requester) (inv_escrow_pos s Hinv)).
    pose proof (inv_funds s Hinv). unfold funds, escrowed_balance_of, claimable_balance_of in *. lia. }
  unfold checked_add at 1 in H0. rewrite (proj2 (Z.leb_le _ _)) in H0 by done.
  cbn -[update_job] in H0. unfold released.
  destruct (checked_add I32_MAX _ _) as [rep|] eqn:Erep; clean_ints.
  2: { simplify_eq. cbn. rewrite alter_lookup with (v := j), !insert_or_insert by done.
       split_and!; [done..| |unfold I32_MAX in *; lia|done].
       exists (get_provider_reputation p s). split; [done|].
       unfold or_insert, get_provider_reputation. destruct (_ !! p) eqn:Er; cbn; [by rewrite insert_id|done]. }
  destruct (checked_add U64_MAX _ _) as [c|] eqn:Ec; clean_ints; simplify_eq; cbn;
    rewrite alter_lookup with (v := j), !insert_or_insert by done;
    (split_and!; [done..|exists (get_provider_reputation p s + 1); split; [lia|done]| |]);
    try naive_solver lia; try lia.
Qed.

Lemma verify_job_step id slot v now s s' r :
  escrow_inv s → verify_job id slot v now s = (s', r) → step s s' ∧ funds s' = funds s.
Proof.
  intros Hinv [(-> & _)|(j & p & (Hid & Hst & Hp & _) & (Ej & Ee & Ec) & (rep & Hrep & Er) & _)]
    %verify_job_cases; [| |done].
  - split; [by apply StepSkip|done].
  - split; [by eapply StepPay|]. unfold funds. rewrite Ee, Ec, map_total_debit, map_total_credit. lia.
Qed.

Lemma escrow_exec_step o s :
  escrow_inv s → op_wf o s → step s (exec o s).1 ∧ funds (exec o s).1 ≤ U128_MAX.
Proof.
  intros Hinv Hwf. pose proof (inv_funds s Hinv).
  destruct o; cbn in *;
    match goal with |- context [let '(_, _) := ?x in _] => destruct x as [s' r] eqn:E end; cbn.
  - destruct Hwf. apply post_job_step in E as [? ?]; try apply Hinv; [|done..]. split; [done|lia].
  - apply accept_job_step in E as [? ?]. split; [done|lia].
  - apply submit_result_step in E as [? ?]; [|done]. split; [done|lia].
  - apply verify_job_step in E as [? ?]; [|done]. split; [done|lia].
  - apply challenge_job_step in E as [? ?]. split; [done|lia].
  - apply cancel_job_step in E as [? ?]; [|done]. split; [done|lia].
Qed.

(** C9: As long as the funds it holds stay within a [u128] (a posted payment
    fits beside them) and a result is submitted at a slot that leaves room for
    the challenge period ([op_wf]), every call, [Ok] or [Err], keeps each
    requester's escrow balance equal to the sum of the payments of their jobs
    that are neither completed nor cancelled, each job's provider different
    from its requester, and each submitted result with its proof and its
    challenge end. Outside these limits two error paths keep what they wrote
    ([overflowing_post_keeps_job], [late_submit_keeps_result]). *)
Theorem exec_escrow_inv (o : op) (s : JobEscrowState) :
  escrow_inv s → op_wf o s → escrow_inv (exec o s).1.
Proof. intros Hinv Hwf. destruct (escrow_exec_step o s Hinv Hwf). by eapply step_inv. Qed.

(** [verify_job] releases a payment exactly when the result was submitted, the
    challenge period has passed and the stored receipt verifies; it then moves
    the payment from the requester's escrow to the provider's claimable
    balance, once, and reports it. None of the balance checks inside it can
    fail. *)
Theorem verify_job_releases (id : H256) (slot : Z) (v : Vcr.VcrValidator) (now : Z)
    (s : JobEscrowState) :
  escrow_inv s → s.(completed_jobs) < U64_MAX →
  (∀ p, get_provider_reputation p s < I32_MAX) →
  match verify_job id slot v now s with
  | (s', Ok x) => ∃ j p, releasable id slot v now s j p ∧ x = Some (p, j.(payment)) ∧
      p ≠ j.(requester) ∧ released id j p s s'
  | (s', Err _) => s' = s ∧ ¬ ∃ j p, releasable id slot v now s j p
  end.
Proof.
  intros Hinv Hc Hr. destruct (verify_job id slot v now s) as [s' r] eqn:E.
  pose proof (verify_job_cases _ _ _ _ _ _ _ Hinv E) as
    [(-> & Hno & Hnr)|(j & p & Hrel & Hd & _ & Hok & Hx)].
  - by destruct r.
  - rewrite (Hok (Hr p) Hc) in *. exists j, p. split_and!; [done..| |done].
    destruct Hrel as (Hid & Hst & Hp & _). destruct (inv_jobs s Hinv id j Hid) as (_ & _ & Hj).
    rewrite Hst in Hj. destruct Hj as ((q & Hq & ?) & _). congruence.
Qed.

(** ** The life of a job *)

Inductive status_step : JobStatus → JobStatus → Prop :=
| S_accept : status_step Posted Accepted
| S_cancel : status_step Posted Cancelled
| S_submit : status_step Accepted Submitted
| S_dispute : status_step Submitted Disputed
| S_complete : status_step Submitted Completed.

(** The fields a job keeps for ever. *)
Definition same_terms (j j' : Job) : Prop :=
  j'.(job_id) = j.(job_id) ∧ j'.(requester) = j.(requester) ∧ j'.(payment) = j.(payment) ∧
  j'.(model_hash) = j.(model_hash) ∧ j'.(input_hash) = j.(input_hash) ∧
  j'.(posted_slot) = j.(posted_slot) ∧ j'.(deadline_slot) = j.(deadline_slot).

Lemma step_lifecycle s s' id j :
  step s s' → s.(jobs) !! id = Some j →
  ∃ j', s'.(jobs) !! id = Some j' ∧ (j' = j ∨ same_terms j j' ∧ status_step j.(status) j'.(status)).
Proof.
  intros Hstep Hid.
  destruct Hstep as [Ej|i i' Hi ? ? ? ? Ej|i k k' Hi Hpg Ej|i k Hi Hst Ej|i k q rep Hi Hst Hq Ej];
    rewrite Ej; [by eauto|..]; (destruct (decide (i = id)) as [->|Hne];
      [rewrite lookup_insert_eq|rewrite lookup_insert_ne by done; by eauto]); simplify_eq;
    eexists; (split; [done|]); right; (split; [|cbn; try (rewrite Hst; constructor)]); try done.
  - by destruct Hpg.
  - destruct Hpg as [? ? Hs|? ? ? ? ? Hs|? Hs]; cbn; rewrite Hs; constructor.
Qed.

(** A call changes the status of a job only along the arcs posted to accepted
    or cancelled, accepted to submitted, submitted to disputed or completed,
    and never its requester, payment, input, model or deadline; no job is
    ever removed. *)
Theorem exec_lifecycle (o : op) (s : JobEscrowState) (id : H256) (j : Job) :
  escrow_inv s → op_wf o s → s.(jobs) !! id = Some j →
  ∃ j', (exec o s).1.(jobs) !! id = Some j' ∧
    (j' = j ∨ same_terms j j' ∧ status_step j.(status) j'.(status)).
Proof. intros Hinv Hwf. eapply step_lifecycle. by apply escrow_exec_step. Qed.

(** States reached by any sequence of calls. *)
Inductive runs (s : JobEscrowState) : JobEscrowState → Prop :=
| runs_refl : runs s s
| runs_step s1 o : runs s s1 → op_wf o s1 → runs s (exec o s1).1.

Lemma runs_inv s s' : escrow_inv s → runs s s' → escrow_inv s'.
Proof.
  intros Hinv. induction 1 as [|s1 o _ IH Hwf]; [done|].
  destruct (escrow_exec_step o s1 IH Hwf). by eapply step_inv.
Qed.

(** A disputed job stays disputed whatever calls follow, and its payment
    stays in the requester's escrow: the program has no call that resolves a
    dispute. *)
Theorem disputed_payment_locked (s s' : JobEscrowState) (id : H256) (j : Job) :
  escrow_inv s → s.(jobs) !! id = Some j → j.(status) = Disputed → runs s s' →
  s'.(jobs) !! id = Some j ∧ j.(payment) ≤ escrowed_balance_of j.(requester) s'.
Proof.
  intros Hinv Hid Hst Hruns.
  assert (s'.(jobs) !! id = Some j) as Hid'.
  { induction Hruns as [|s1 o Hr IH Hwf]; [done|].
    destruct (escrow_exec_step o s1 (runs_inv s s1 Hinv Hr) Hwf) as [Hs _].
    destruct (step_lifecycle _ _ _ _ Hs IH) as (j' & Hj' & [->|[_ Hss]]); [done|].
    rewrite Hst in Hss. inversion Hss. }
  split; [done|]. apply (held_le_escrow s' id j); [by eapply runs_inv|done|by rewrite Hst].
Qed.

(** The reputation floor of [accept_job] is never reached: reputations only
    grow from zero, so no provider is ever refused for a low reputation. *)
Lemma accept_never_refused_for_reputation (s : JobEscrowState) (id : H256) (p : Address) :
  escrow_inv s → MIN_PROVIDER_REPUTATION < get_provider_reputation p s.
Proof.
  intros Hinv. pose proof (map_total_lookup _ p (inv_reputation s Hinv)).
  unfold get_provider_reputation, MIN_PROVIDER_REPUTATION. lia.
Qed.

End verifier.


(** ** Witnesses *)

Definition demo_from_slice (b : list Z) : option Vcr.VerifiableComputeReceipt :=
  if bool_decide (b = [1]) then Some (Vcr.demo_receipt 1 8) else None.

Abbreviation demo_exec := (@exec Vcr.demo_crypto demo_from_slice).

Fixpoint demo_run (l : list op) (s : JobEscrowState) : JobEscrowState :=
  match l with [] => s | o :: l => demo_run l (demo_exec o s).1 end.

(** Requester 10 posts job 5 for 100, provider 11 accepts it and submits. *)
Definition demo_posted : JobEscrowState := demo_run [Post 5 10 1 2 100 0 50] new.
Definition demo_accepted : JobEscrowState := demo_run [Accept 5 11] demo_posted.
Definition demo_submitted : JobEscrowState := demo_run [Submit 5 11 8 [1] 20] demo_accepted.
Definition demo_disputed : JobEscrowState := demo_run [Challenge 5 10] demo_submitted.

Lemma escrow_new_inv : escrow_inv new.
Proof.
  constructor; [apply map_Forall_empty|done|apply map_Forall_empty..|].
  vm_compute. congruence.
Qed.

Lemma demo_posted_inv : escrow_inv demo_posted.
Proof.
  destruct (@escrow_exec_step Vcr.demo_crypto demo_from_slice (Post 5 10 1 2 100 0 50) new escrow_new_inv)
    as [Hs Hf]; [vm_compute; split; congruence|]. exact (step_inv _ _ escrow_new_inv Hs Hf).
Qed.
Lemma demo_accepted_inv : escrow_inv demo_accepted.
Proof.
  destruct (@escrow_exec_step Vcr.demo_crypto demo_from_slice (Accept 5 11) demo_posted demo_posted_inv I)
    as [Hs Hf]. exact (step_inv _ _ demo_posted_inv Hs Hf).
Qed.
Lemma demo_submitted_inv : escrow_inv demo_submitted.
Proof.
  destruct (@escrow_exec_step Vcr.demo_crypto demo_from_slice (Submit 5 11 8 [1] 20) demo_accepted
    demo_accepted_inv) as [Hs Hf]; [vm_compute; congruence|].
  exact (step_inv _ _ demo_accepted_inv Hs Hf).
Qed.
Lemma demo_disputed_inv : escrow_inv demo_disputed.
Proof.
  destruct (@escrow_exec_step Vcr.demo_crypto demo_from_slice (Challenge 5 10) demo_submitted
    demo_submitted_inv I) as [Hs Hf]. exact (step_inv _ _ demo_submitted_inv Hs Hf).
Qed.

Lemma exec_escrow_inv_witness :
  (demo_exec (Verify 5 31 Vcr.demo_validator 130) demo_submitted).2 = true ∧
  escrow_inv (demo_exec (Verify 5 31 Vcr.demo_validator 130) demo_submitted).1.
Proof.
  split; [vm_compute; reflexivity|].
  exact (@exec_escrow_inv Vcr.demo_crypto demo_from_slice (Verify 5 31 Vcr.demo_validator 130)
    demo_submitted demo_submitted_inv I).
Defined.

Lemma verify_job_releases_witness :
  ∃ s', @verify_job Vcr.demo_crypto demo_from_slice 5 31 Vcr.demo_validator 130 demo_submitted
        = (s', Ok (Some (11%N, 100))) ∧
  match @verify_job Vcr.demo_crypto demo_from_slice 5 31 Vcr.demo_validator 130 demo_submitted with
  | (s', Ok x) => ∃ j p,
      @releasable Vcr.demo_crypto demo_from_slice 5 31 Vcr.demo_validator 130 demo_submitted j p ∧
      x = Some (p, j.(payment)) ∧ p ≠ j.(requester) ∧ released 5 j p demo_submitted s'
  | (s', Err _) => s' = demo_submitted ∧ ¬ ∃ j p,
      @releasable Vcr.demo_crypto demo_from_slice 5 31 Vcr.demo_validator 130 demo_submitted j p
  end.
Proof.
  eexists. split; [vm_compute; reflexivity|].
  apply (@verify_job_releases Vcr.demo_crypto demo_from_slice 5 31 Vcr.demo_validator 130
    demo_submitted demo_submitted_inv); [reflexivity|].
  intros p. unfold get_provider_reputation.
  replace (provider_reputation demo_submitted) with (∅ : gmap Address Z) by (vm_compute; reflexivity).
  rewrite lookup_empty. reflexivity.
Defined.

Lemma exec_lifecycle_witness : ∃ j j', demo_posted.(jobs) !! 5%N = Some j ∧
  (demo_exec (Accept 5 11) demo_posted).1.(jobs) !! 5%N = Some j' ∧
  (j' = j ∨ same_terms j j' ∧ status_step j.(status) j'.(status)).
Proof.
  eexists. destruct (@exec_lifecycle Vcr.demo_crypto demo_from_slice (Accept 5 11) demo_posted 5%N
    (mkJob 5 10 None 1 2 None None 100 Posted 0 50 None) demo_posted_inv I ltac:(vm_compute; reflexivity))
    as (j' & Hj' & Hor).
  exists j'. split; [vm_compute; reflexivity|]. split; [exact Hj'|exact Hor].
Defined.

Lemma disputed_payment_locked_witness :
  (demo_exec (Cancel 5 10) demo_disputed).1.(jobs) !! 5%N = demo_disputed.(jobs) !! 5%N ∧
  100 ≤ escrowed_balance_of 10 (demo_exec (Cancel 5 10) demo_disputed).1.
Proof.
  destruct (@disputed_payment_locked Vcr.demo_crypto demo_from_slice demo_disputed
    (demo_exec (Cancel 5 10) demo_disputed).1 5%N
    (mkJob 5 10 (Some 11%N) 1 2 (Some 8%N) (Some [1]) 100 Disputed 0 50 (Some 30)) demo_disputed_inv)
    as [Hj Hp]; [vm_compute; reflexivity|reflexivity| |].
  - apply (runs_step (H := Vcr.demo_crypto) demo_from_slice demo_disputed demo_disputed (Cancel 5 10));
      [apply runs_refl|exact I].
  - split; [rewrite Hj; vm_compute; reflexivity|exact Hp].
Defined.

(** A receipt of one job releases the payment of another: [verify_job] does
    not compare the receipt's job, model, input or output with the job's. *)
Lemma foreign_receipt_releases_payment :
  let s := demo_run [Post 77 10 1 2 100 0 50; Accept 77 11; Submit 77 11 999 [1] 20] new in
  (demo_exec (Verify 77 31 Vcr.demo_validator 130) s).2 = true ∧
  (∃ r, demo_from_slice [1] = Some r ∧ Vcr.job_id r = 5%N ∧ Vcr.output_hash r = 8%N).
Proof. split; [vm_compute; reflexivity|]. eexists. split; [reflexivity|]. split; reflexivity. Qed.

(** The limits of the invariant. A post whose payment overflows the requester's
    escrow returns [Err] with the job stored: its payment is in no escrow, and
    it cannot be cancelled. *)
Definition half : Z := 2 ^ 127.
Definition demo_overflow : JobEscrowState := demo_run [Post 5 10 1 2 half 0 50; Post 6 10 1 2 half 0 50] new.

Lemma overflowing_post_keeps_job :
  (demo_exec (Post 6 10 1 2 half 0 50) (demo_run [Post 5 10 1 2 half 0 50] new)).2 = false ∧
  escrowed_balance_of 10 demo_overflow = half ∧ map_sum (held 10) demo_overflow.(jobs) = 2 * half ∧
  ¬ escrow_inv demo_overflow.
Proof.
  assert (H2 : map_sum (held 10) demo_overflow.(jobs) = 2 * half) by (vm_compute; reflexivity).
  split_and!; [vm_compute; reflexivity..|exact H2|]. intros [_ He _ _ _ _]. specialize (He 10%N). rewrite H2 in He.
  vm_compute in He. discriminate.
Qed.

(** A result submitted in the last ten slots of a [u64] returns [Err] with the
    result stored and no end of its challenge period: it can be verified at
    once. *)
Lemma late_submit_keeps_result :
  let s := demo_run [Post 5 10 1 2 100 0 U64_MAX; Accept 5 11] new in
  (demo_exec (Submit 5 11 8 [1] U64_MAX) s).2 = false ∧
  (demo_exec (Verify 5 0 Vcr.demo_validator 130) (demo_exec (Submit 5 11 8 [1] U64_MAX) s).1).2 = true.
Proof. split; vm_compute; reflexivity. Qed.

End JobEscrow.
