(* ===== verification/Staking.v ===== *)
(** * Staking program

    [crates/programs/staking/src/state.rs]: validators, delegations, the
    unbonding queue, slashing and rewards. A [Vec] is a list searched for its
    first match, as the code searches it. *)

From S2P Require Import Prelude.
From S2P Require Import Arith256.

Module Staking.

Import Arith256.

Inductive StakingError : Type :=
| InsufficientStake (min got : Z)
| ValidatorExists (a : Address)
| Unauthorized
| ValidatorNotFound (a : Address)
| ValidatorInactive (a : Address)
| InvalidCommission (rate : Z)
| InvalidSlashRate (rate : Z)
| DelegationNotFound
| InsufficientDelegation (have requested : Z)
| Overflow
| ValidatorJailed (until current : Z)
| ValidatorNotJailed (a : Address)
| UnjailInsufficientStake (have min : Z).

Record Validator := mkValidator {
  address : Address;
  staked_amount : Z;
  delegated_amount : Z;
  commission_rate : Z;
  reward_address : Address;
  is_active : bool;
  jailed_until : option Z;
  slash_count : Z
}.

Record Delegation := mkDelegation {
  delegator : Address;
  validator : Address;
  amount : Z;
  reward_debt : Z
}.

Record Unbonding := mkUnbonding {
  unb_address : Address;
  unb_validator : Address;
  unb_amount : Z;
  complete_slot : Z
}.

Record StakingState := mkStakingState {
  total_staked : Z;
  validators : list Validator;
  delegations : list Delegation;
  unbonding : list Unbonding;
  reward_pool : Z;
  current_epoch : Z
}.

Definition set_total v s := mkStakingState v s.(validators) s.(delegations) s.(unbonding) s.(reward_pool) s.(current_epoch).
Definition set_validators v s := mkStakingState s.(total_staked) v s.(delegations) s.(unbonding) s.(reward_pool) s.(current_epoch).
Definition set_delegations v s := mkStakingState s.(total_staked) s.(validators) v s.(unbonding) s.(reward_pool) s.(current_epoch).
Definition set_unbonding v s := mkStakingState s.(total_staked) s.(validators) s.(delegations) v s.(reward_pool) s.(current_epoch).

Definition set_staked x v := mkValidator v.(address) x v.(delegated_amount) v.(commission_rate) v.(reward_address) v.(is_active) v.(jailed_until) v.(slash_count).
Definition set_delegated x v := mkValidator v.(address) v.(staked_amount) x v.(commission_rate) v.(reward_address) v.(is_active) v.(jailed_until) v.(slash_count).
Definition set_slash_count x v := mkValidator v.(address) v.(staked_amount) v.(delegated_amount) v.(commission_rate) v.(reward_address) v.(is_active) v.(jailed_until) x.
Definition set_jail active until v := mkValidator v.(address) v.(staked_amount) v.(delegated_amount) v.(commission_rate) v.(reward_address) active until v.(slash_count).
Definition set_amount x d := mkDelegation d.(delegator) d.(validator) x d.(reward_debt).
Definition set_unb_amount x u := mkUnbonding u.(unb_address) u.(unb_validator) x u.(complete_slot).

Definition new : StakingState := mkStakingState 0 [] [] [] 0 0.

Definition MIN_STAKE : Z := 100000000.
Definition UNBONDING_SLOTS : Z := 100800.
Definition UNJAIL_COOLDOWN_SLOTS : Z := 201600.
Definition MIN_STAKE_TO_UNJAIL : Z := 100000000.

(** The closures the code searches with. *)
Definition is_validator (a : Address) (v : Validator) : bool := (v.(address) =? a)%N.
Definition is_delegation (d a : Address) (x : Delegation) : bool :=
  ((x.(delegator) =? d) && (x.(validator) =? a))%N.
Definition to_validator (a : Address) (x : Delegation) : bool := (x.(validator) =? a)%N.
Definition from_validator (a : Address) (u : Unbonding) : bool := (u.(unb_validator) =? a)%N.

Definition get_validator (a : Address) (s : StakingState) : option Validator :=
  find_first (is_validator a) s.(validators).
Definition active_validators (s : StakingState) : list Validator := retain is_active s.(validators).

(** A write to the validator found by [position] or [find]. *)
Definition update_validator (a : Address) (f : Validator → Validator) (s : StakingState) : StakingState :=
  set_validators (alter_first (is_validator a) f s.(validators)) s.

Abbreviation op_result := (M StakingState StakingError).

Definition register_validator (caller a : Address) (initial_stake rate : Z) (reward : Address) :
    op_result unit :=
  s ← get_state;
  bail_if (negb (caller =? a)%N) Unauthorized;;
  bail_if (initial_stake <? MIN_STAKE) (InsufficientStake MIN_STAKE initial_stake);;
  bail_if (existsb (is_validator a) s.(validators)) (ValidatorExists a);;
  bail_if (10000 <? rate) (InvalidCommission rate);;
  modify (λ s, set_validators
    (s.(validators) ++ [mkValidator a initial_stake 0 rate reward true None 0]) s);;
  total ← ok_or (checked_add U128_MAX s.(total_staked) initial_stake) Overflow;
  modify (set_total total).

Definition delegate (caller d a : Address) (x : Z) : op_result unit :=
  s ← get_state;
  bail_if (negb (caller =? d)%N) Unauthorized;;
  v ← ok_or (get_validator a s) (ValidatorNotFound a);
  bail_if (negb v.(is_active)) (ValidatorInactive a);;
  match find_first (is_delegation d a) s.(delegations) with
  | Some e =>
      sum ← ok_or (checked_add U128_MAX e.(amount) x) Overflow;
      modify (λ s, set_delegations (alter_first (is_delegation d a) (set_amount sum) s.(delegations)) s)
  | None => modify (λ s, set_delegations (s.(delegations) ++ [mkDelegation d a x 0]) s)
  end;;
  delegated ← ok_or (checked_add U128_MAX v.(delegated_amount) x) Overflow;
  modify (update_validator a (set_delegated delegated));;
  total ← ok_or (checked_add U128_MAX s.(total_staked) x) Overflow;
  modify (set_total total).

Definition unbond (caller d a : Address) (x current_slot : Z) : op_result unit :=
  s ← get_state;
  bail_if (negb (caller =? d)%N) Unauthorized;;
  e ← ok_or (find_first (is_delegation d a) s.(delegations)) DelegationNotFound;
  bail_if (e.(amount) <? x) (InsufficientDelegation e.(amount) x);;
  left_over ← ok_or (checked_sub e.(amount) x) Overflow;
  modify (λ s, set_delegations (alter_first (is_delegation d a) (set_amount left_over) s.(delegations)) s);;
  (if left_over =? 0
   then modify (λ s, set_delegations (retain (λ y, negb (is_delegation d a y)) s.(delegations)) s)
   else mret tt);;
  match get_validator a s with
  | Some v =>
      delegated ← ok_or (checked_sub v.(delegated_amount) x) Overflow;
      modify (update_validator a (set_delegated delegated))
  | None => mret tt
  end;;
  complete ← ok_or (checked_add U64_MAX current_slot UNBONDING_SLOTS) Overflow;
  modify (λ s, set_unbonding (s.(unbonding) ++ [mkUnbonding d a x complete]) s);;
  total ← ok_or (checked_sub s.(total_staked) x) Overflow;
  modify (set_total total).

Definition due (current_slot : Z) (u : Unbonding) : bool := u.(complete_slot) <=? current_slot.

Definition complete_unbonding (current_slot : Z) (s : StakingState) :
    StakingState * list (Address * Z) :=
  (set_unbonding (retain (λ u, negb (due current_slot u)) s.(unbonding)) s,
   (λ u, (u.(unb_address), u.(unb_amount))) <$> retain (due current_slot) s.(unbonding)).

(** The loop over the delegations of the slashed validator. *)
Fixpoint slash_delegations (a : Address) (rate acc : Z) (l : list Delegation) {struct l} : list Delegation * Z :=
  match l with
  | [] => ([], acc)
  | d :: l =>
      if to_validator a d then
        let slash := mul_div d.(amount) rate 10000 in
        let remaining := saturating_sub d.(amount) slash in
        let acc := saturating_add U128_MAX acc (saturating_sub d.(amount) remaining) in
        let '(l', acc') := slash_delegations a rate acc l in
        (set_amount remaining d :: l', acc')
      else
        let '(l', acc') := slash_delegations a rate acc l in (d :: l', acc')
  end.

(** The loop over the unbonding entries of the slashed validator. *)
Fixpoint slash_unbonding (a : Address) (rate acc : Z) (l : list Unbonding) {struct l} : list Unbonding * Z :=
  match l with
  | [] => ([], acc)
  | u :: l =>
      if from_validator a u then
        let slash := mul_div u.(unb_amount) rate 10000 in
        let '(l', acc') := slash_unbonding a rate (saturating_add U128_MAX acc slash) l in
        (set_unb_amount (saturating_sub u.(unb_amount) slash) u :: l', acc')
      else
        let '(l', acc') := slash_unbonding a rate acc l in (u :: l', acc')
  end.

Definition slash (a : Address) (slash_rate current_slot : Z) : op_result Z :=
  s ← get_state;
  bail_if (10000 <? slash_rate) (InvalidSlashRate slash_rate);;
  v ← ok_or (get_validator a s) (ValidatorNotFound a);
  let slash_amount := mul_div v.(staked_amount) slash_rate 10000 in
  let count := saturating_add U32_MAX v.(slash_count) 1 in
  modify (update_validator a (set_staked (saturating_sub v.(staked_amount) slash_amount)));;
  modify (update_validator a (set_slash_count count));;
  let '(ds, delegated_slash) := slash_delegations a slash_rate 0 s.(delegations) in
  let ds := retain (λ d, 0 <? d.(amount)) ds in
  modify (set_delegations ds);;
  modify (update_validator a (set_delegated
    (foldl (λ acc d, saturating_add U128_MAX acc d.(amount)) 0 (retain (to_validator a) ds))));;
  let '(us, unbonding_slash) := slash_unbonding a slash_rate 0 s.(unbonding) in
  modify (set_unbonding (retain (λ u, 0 <? u.(unb_amount)) us));;
  let total_slash := saturating_add U128_MAX
    (saturating_add U128_MAX slash_amount delegated_slash) unbonding_slash in
  modify (set_total (saturating_sub s.(total_staked) total_slash));;
  (if 3 <=? count
   then modify (update_validator a
          (set_jail false (Some (saturating_add U64_MAX current_slot UNJAIL_COOLDOWN_SLOTS))))
   else mret tt);;
  mret total_slash.

(** The inner loop of [distribute_rewards]: credits each delegation of the
    validator, and returns the delegations, [distributed], [total_distributed]
    and [last_delegation_idx]. *)
Fixpoint credit_delegations (a : Address) (delegator_pool delegated : Z) (idx : nat)
    (distributed total : Z) (last : option nat) (l : list Delegation) {struct l} :
    list Delegation * Z * Z * option nat :=
  match l with
  | [] => ([], distributed, total, last)
  | d :: l =>
      if to_validator a d && (0 <? d.(amount)) then
        let share := mul_div delegator_pool d.(amount) delegated in
        let '(l', r1, r2, r3) := credit_delegations a delegator_pool delegated (S idx)
          (saturating_add U128_MAX distributed share) (saturating_add U128_MAX total share)
          (Some idx) l in
        (set_amount (saturating_add U128_MAX d.(amount) share) d :: l', r1, r2, r3)
      else
        let '(l', r1, r2, r3) := credit_delegations a delegator_pool delegated (S idx)
          distributed total last l in
        (d :: l', r1, r2, r3)
  end.

(** One iteration of the loop over [validator_infos]; [staked] is the
    [total_staked] the loop reads. *)
Definition reward_validator (epoch_rewards staked : Z)
    (st : list Validator * list Delegation * Z) (info : Validator) :
    list Validator * list Delegation * Z :=
  let '(vs, ds, total) := st in
  if negb info.(is_active) then st else
  let total_stake := saturating_add U128_MAX info.(staked_amount) info.(delegated_amount) in
  if total_stake =? 0 then st else
  let validator_reward := mul_div epoch_rewards total_stake staked in
  let commission := mul_div validator_reward info.(commission_rate) 10000 in
  let delegator_pool := saturating_sub validator_reward commission in
  let '(vs, total) :=
    match find_first (is_validator info.(address)) vs with
    | Some v =>
        (alter_first (is_validator info.(address))
           (set_staked (saturating_add U128_MAX v.(staked_amount) commission)) vs,
         saturating_add U128_MAX total commission)
    | None => (vs, total)
    end in
  if (0 <? info.(delegated_amount)) && (0 <? delegator_pool) then
    let '(ds, distributed, total, last) :=
      credit_delegations info.(address) delegator_pool info.(delegated_amount) 0 0 total None ds in
    let remainder := saturating_sub delegator_pool distributed in
    match last with
    | Some idx =>
        if 0 <? remainder
        then (vs, alter (λ d, set_amount (saturating_add U128_MAX d.(amount) remainder) d) idx ds,
              saturating_add U128_MAX total remainder)
        else (vs, ds, total)
    | None => (vs, ds, total)
    end
  else (vs, ds, total).

Definition distribute_rewards (epoch_rewards : Z) (s : StakingState) : StakingState :=
  if (s.(total_staked) =? 0) || (epoch_rewards =? 0) then s else
  let '(vs, ds, total_distributed) :=
    foldl (reward_validator epoch_rewards s.(total_staked))
      (s.(validators), s.(delegations), 0) s.(validators) in
  set_total (saturating_add U128_MAX s.(total_staked) total_distributed)
    (set_delegations ds (set_validators vs s)).

Definition unjail (caller a : Address) (current_slot : Z) : op_result unit :=
  s ← get_state;
  v ← ok_or (get_validator a s) (ValidatorNotFound a);
  bail_if (negb (caller =? a)%N) Unauthorized;;
  until ← ok_or v.(jailed_until) (ValidatorNotJailed a);
  bail_if v.(is_active) (ValidatorNotJailed a);;
  bail_if (current_slot <? until) (ValidatorJailed until current_slot);;
  bail_if (v.(staked_amount) <? MIN_STAKE_TO_UNJAIL)
    (UnjailInsufficientStake v.(staked_amount) MIN_STAKE_TO_UNJAIL);;
  modify (update_validator a (set_jail true None));;
  modify (update_validator a (set_slash_count 0)).


(** ** Invariant *)

Definition bonded (s : StakingState) : Z := sum_of staked_amount s.(validators).
Definition delegated (s : StakingState) : Z := sum_of amount s.(delegations).
(** The stake that secures the chain: own and delegated. *)
Definition actual_stake (s : StakingState) : Z := bonded s + delegated s.

(** The delegations to one validator. *)
Definition part (a : Address) (d : Delegation) : Z := if to_validator a d then d.(amount) else 0.
Definition delegated_to (a : Address) (ds : list Delegation) : Z := sum_of (part a) ds.

#[global] Arguments part : simpl never.
#[global] Arguments delegated_to : simpl never.

Definition key (d : Delegation) : Address * Address := (d.(delegator), d.(validator)).

Definition val_ok (v : Validator) : Prop :=
  0 ≤ v.(staked_amount) ∧ 0 ≤ v.(commission_rate) ≤ 10000 ∧ 0 ≤ v.(slash_count).

Record staking_inv (s : StakingState) : Prop := {
  sinv_addr : NoDup (address <$> s.(validators));
  sinv_val : Forall val_ok s.(validators);
  sinv_key : NoDup (key <$> s.(delegations));
  sinv_del : Forall (λ d, 0 ≤ d.(amount) ∧ ∃ v, v ∈ s.(validators) ∧ v.(address) = d.(validator)) s.(delegations);
  sinv_unb : Forall (λ u, 0 ≤ u.(unb_amount)) s.(unbonding);
  sinv_sync : Forall (λ v, v.(delegated_amount) = delegated_to v.(address) s.(delegations)) s.(validators);
  sinv_total : s.(total_staked) = actual_stake s;
  sinv_range : actual_stake s ≤ U128_MAX
}.

Lemma is_validator_iff a v : is_validator a v = true ↔ v.(address) = a.
Proof. apply N.eqb_eq. Qed.
Lemma is_delegation_iff d a x : is_delegation d a x = true ↔ key x = (d, a).
Proof.
  unfold is_delegation, key. rewrite andb_true_iff, !N.eqb_eq. naive_solver.
Qed.
Lemma to_validator_iff a d : to_validator a d = true ↔ d.(validator) = a.
Proof. apply N.eqb_eq. Qed.

Lemma part_bounds a d : 0 ≤ d.(amount) → 0 ≤ part a d ≤ d.(amount).
Proof. unfold part. case_match; lia. Qed.

Lemma amounts_nonneg s : staking_inv s → Forall (λ d, 0 ≤ d.(amount)) s.(delegations).
Proof. intros Hi. eapply Forall_impl; [apply Hi|]. cbn. tauto. Qed.

Lemma stakes_nonneg s : staking_inv s → Forall (λ v, 0 ≤ v.(staked_amount)) s.(validators).
Proof. intros Hi. eapply Forall_impl; [apply Hi|]. unfold val_ok. tauto. Qed.

Lemma delegated_to_bounds a ds :
  Forall (λ d, 0 ≤ d.(amount)) ds → 0 ≤ delegated_to a ds ≤ sum_of amount ds.
Proof.
  intros Hd. split.
  - apply sum_of_nonneg. eapply Forall_impl; [done|]. intros ? ?. by apply part_bounds.
  - apply sum_of_le. eapply Forall_impl; [done|]. intros ? ?. by apply part_bounds.
Qed.

Lemma delegation_le_to ds d :
  Forall (λ d, 0 ≤ d.(amount)) ds → d ∈ ds → d.(amount) ≤ delegated_to d.(validator) ds.
Proof.
  intros Hd Hin. transitivity (part d.(validator) d).
  - unfold part. by rewrite (proj2 (to_validator_iff _ _)).
  - apply sum_of_elem; [|done]. eapply Forall_impl; [done|]. intros ? ?. by apply part_bounds.
Qed.

(** The sums that occur in the invariant are bounded by the total. *)
Lemma inv_bounds s :
  staking_inv s → 0 ≤ bonded s ∧ 0 ≤ delegated s ∧ bonded s + delegated s ≤ U128_MAX.
Proof.
  intros Hi. pose proof (sum_of_nonneg _ _ (amounts_nonneg s Hi)).
  pose proof (sum_of_nonneg _ _ (stakes_nonneg s Hi)).
  pose proof (sinv_range s Hi). unfold actual_stake, bonded, delegated in *. lia.
Qed.

(** Two states that differ only in data outside the invariant. *)
Lemma get_validator_in a s v : get_validator a s = Some v → v ∈ s.(validators) ∧ v.(address) = a.
Proof. intros [? ?%is_validator_iff]%find_first_Some. done. Qed.

Lemma sync_at s a v :
  staking_inv s → get_validator a s = Some v → v.(delegated_amount) = delegated_to a s.(delegations).
Proof.
  intros Hi [Hin <-]%get_validator_in. pose proof (sinv_sync s Hi) as Hs.
  rewrite Forall_forall in Hs. by apply Hs.
Qed.

(** Changing the delegations and one validator's aggregate together. *)
Lemma inv_redelegate s a v ds x total us :
  staking_inv s → get_validator a s = Some v →
  NoDup (key <$> ds) →
  Forall (λ d, 0 ≤ d.(amount) ∧ ∃ v, v ∈ s.(validators) ∧ v.(address) = d.(validator)) ds →
  (∀ b, delegated_to b ds = delegated_to b s.(delegations) + (if decide (a = b) then x else 0)) →
  sum_of amount ds = delegated s + x →
  total = actual_stake s + x → total ≤ U128_MAX → Forall (λ u, 0 ≤ u.(unb_amount)) us →
  staking_inv (set_total total (set_unbonding us (update_validator a
    (set_delegated (v.(delegated_amount) + x)) (set_delegations ds s)))).
Proof.
  intros Hi Hv Hk Hd Hto Hsum Htot Hmax Hus. pose proof Hi as [Ha Hval _ _ _ Hsync _ _].
  assert (address <$> alter_first (is_validator a) (set_delegated (v.(delegated_amount) + x)) s.(validators)
          = address <$> s.(validators)) as Haddr by by apply fmap_alter_first.
  assert (sum_of staked_amount (alter_first (is_validator a) (set_delegated (v.(delegated_amount) + x))
            s.(validators)) = bonded s) as Hst.
  { erewrite sum_of_alter_first by done. unfold bonded. cbn. lia. }
  constructor; cbn.
  - by rewrite Haddr.
  - apply alter_first_Forall; [done|]. by intros y _ _ ?.
  - done.
  - eapply Forall_impl; [exact Hd|]. intros d [? (w & Hw & Hwa)]. split; [done|].
    assert (d.(validator) ∈ address <$> s.(validators)) as Hin
      by (rewrite <- Hwa; by apply list_elem_of_fmap_2).
    rewrite <- Haddr in Hin. apply list_elem_of_fmap in Hin as (w' & -> & ?). by exists w'.
  - done.
  - rewrite Forall_forall in Hsync.
    eapply (alter_first_Forall_unique address a); [apply is_validator_iff|done|..].
    + intros y Hy Hp. cbn. rewrite Hto.
      rewrite (find_first_unique address a _ (is_validator_iff a) _ _ _ Ha Hv Hy Hp).
      apply is_validator_iff in Hp. apply get_validator_in in Hv as Hv'. destruct Hv' as [Hin <-].
      rewrite decide_True by done. by rewrite Hsync.
    + intros y Hy Hp. cbn. rewrite Hto, decide_False, Hsync by
        (done || intros ->; apply not_true_iff_false in Hp; by rewrite is_validator_iff in Hp). lia.
  - unfold actual_stake, bonded, delegated in *. cbn. rewrite Hst. lia.
  - unfold actual_stake, bonded, delegated in *. cbn. rewrite Hst. lia.
Qed.

(** ** Each operation *)

(** A call that was refused: an error, and the state as before. *)
Definition refused {A} (s s' : StakingState) (r : result StakingError A) : Prop :=
  s' = s ∧ is_ok r = false.

Lemma register_validator_cases caller a stake rate reward s s' r :
  staking_inv s → 0 ≤ rate → actual_stake s + stake ≤ U128_MAX →
  register_validator caller a stake rate reward s = (s', r) →
  refused s s' r ∨ r = Ok tt ∧ staking_inv s' ∧ actual_stake s' = actual_stake s + stake.
Proof.
  intros Hi Hrate Hmax H0. pose proof Hi as [Ha Hval Hk Hd Hu Hsync Htot Hr].
  unfold register_validator in H0. run_in H0; try (by left).
  2: { unfold actual_stake in *. lia. }
  right. split; [done|].
  assert (∀ v, v ∈ s.(validators) → v.(address) ≠ a) as Hnew.
  { intros v Hv <-. rename select (existsb _ _ = false) into He.
    apply not_true_iff_false in He. apply He, existsb_exists. exists v.
    split; [by apply list_elem_of_In|by apply is_validator_iff]. }
  assert (actual_stake (set_validators (s.(validators) ++ [mkValidator a stake 0 rate reward true None 0]) s)
          = actual_stake s + stake) as Hact.
  { unfold actual_stake, bonded, delegated. cbn. rewrite sum_of_app, sum_of_cons. cbn.
    change (sum_of staked_amount []) with 0. lia. }
  split; [|exact Hact]. constructor; cbn; try done.
  - rewrite fmap_app. apply NoDup_app. split_and!; [done| |apply NoDup_singleton].
    intros b (v & -> & Hv)%list_elem_of_fmap Hb%list_elem_of_singleton. by apply (Hnew v).
  - apply Forall_app. split; [done|]. apply Forall_singleton. unfold MIN_STAKE in *. by split_and!; cbn; lia.
  - eapply Forall_impl; [exact Hd|]. intros d [? (v & ? & ?)]. split; [done|]. exists v. set_solver.
  - apply Forall_app. split; [done|]. apply Forall_singleton. cbn. symmetry.
    unfold delegated_to. rewrite (sum_of_ext _ (λ _, 0)).
    + clear. induction s.(delegations); [done|]. rewrite sum_of_cons. lia.
    + eapply Forall_impl; [exact Hd|]. intros d [_ (v & Hv & Hva)]. unfold part.
      destruct (to_validator a d) eqn:E; [|done]. apply to_validator_iff in E.
      exfalso. apply (Hnew v Hv). congruence.
  - rewrite <- Htot in Hact. unfold actual_stake, bonded, delegated in *. cbn in *. lia.
  - unfold actual_stake, bonded, delegated in *. cbn in *. lia.
Qed.

Lemma part_set_amount b x d :
  part b (set_amount x d) = if decide (d.(validator) = b) then x else 0.
Proof.
  unfold part, to_validator. cbn. case_decide; [rewrite (proj2 (N.eqb_eq _ _))|rewrite (proj2 (N.eqb_neq _ _))]; done.
Qed.
Lemma part_amount b d : part b d = if decide (d.(validator) = b) then d.(amount) else 0.
Proof. by rewrite <- (part_set_amount b d.(amount) d). Qed.

(** Setting the amount of one delegation. *)
Lemma alter_delegation d a e y s :
  staking_inv s → find_first (is_delegation d a) s.(delegations) = Some e → 0 ≤ y →
  let ds := alter_first (is_delegation d a) (set_amount y) s.(delegations) in
  e.(validator) = a ∧ 0 ≤ e.(amount) ∧
  NoDup (key <$> ds) ∧
  Forall (λ d, 0 ≤ d.(amount) ∧ ∃ v, v ∈ s.(validators) ∧ v.(address) = d.(validator)) ds ∧
  (∀ b, delegated_to b ds = delegated_to b s.(delegations) + (if decide (a = b) then y - e.(amount) else 0)) ∧
  sum_of amount ds = delegated s + (y - e.(amount)).
Proof.
  intros Hi He Hy. cbn. pose proof Hi as [_ _ Hk Hd _ _ _ _].
  pose proof (find_first_Some _ _ _ He) as [Hin Hke%is_delegation_iff]. injection Hke as Hdel Hval.
  split_and!; [done| | | | |].
  - rewrite Forall_forall in Hd. by apply Hd.
  - rewrite fmap_alter_first; done.
  - apply alter_first_Forall; [done|]. intros z _ _ [_ ?]. done.
  - intros b. unfold delegated_to. rewrite (sum_of_alter_first _ _ _ _ e) by done.
    rewrite part_set_amount, part_amount, Hval. case_decide; lia.
  - rewrite (sum_of_alter_first _ _ _ _ e) by done. unfold delegated. cbn. lia.
Qed.

(** The invariant after a change of one delegation, with its stake. *)
Lemma inv_redelegate_stake s a v ds x total us :
  staking_inv s → get_validator a s = Some v →
  NoDup (key <$> ds) →
  Forall (λ d, 0 ≤ d.(amount) ∧ ∃ v, v ∈ s.(validators) ∧ v.(address) = d.(validator)) ds →
  (∀ b, delegated_to b ds = delegated_to b s.(delegations) + (if decide (a = b) then x else 0)) →
  sum_of amount ds = delegated s + x →
  total = actual_stake s + x → total ≤ U128_MAX → Forall (λ u, 0 ≤ u.(unb_amount)) us →
  let s' := set_total total (set_unbonding us (update_validator a
    (set_delegated (v.(delegated_amount) + x)) (set_delegations ds s))) in
  staking_inv s' ∧ actual_stake s' = actual_stake s + x.
Proof.
  intros Hi Hv Hk Hd Hto Hsum Htot Hmax Hus s'.
  assert (staking_inv s') as Hi' by by apply inv_redelegate.
  split; [done|]. rewrite <- (sinv_total s' Hi'). exact Htot.
Qed.

Lemma delegate_cases caller d a x s s' r :
  staking_inv s → 0 ≤ x → actual_stake s + x ≤ U128_MAX →
  delegate caller d a x s = (s', r) →
  refused s s' r ∨ r = Ok tt ∧ staking_inv s' ∧ actual_stake s' = actual_stake s + x.
Proof.
  intros Hi Hx Hmax H0. pose proof (inv_bounds s Hi) as (? & ? & ?).
  pose proof (delegated_to_bounds a _ (amounts_nonneg s Hi)) as [? ?].
  pose proof (sinv_total s Hi) as Htot. pose proof (sinv_unb s Hi) as Hu.
  unfold delegate in H0.
  destruct (find_first (is_delegation d a) s.(delegations)) as [e|] eqn:He.
  - pose proof (find_first_Some _ _ _ He) as [Hin _].
    pose proof (sum_of_elem _ _ _ (amounts_nonneg s Hi) Hin) as Hle.
    destruct (alter_delegation d a e (e.(amount) + x) s Hi He) as (_ & ? & Hk & Hd & Hto & Hsum).
    { pose proof (amounts_nonneg s Hi) as Hn. rewrite Forall_forall in Hn. specialize (Hn e Hin). lia. }
    replace (e.(amount) + x - e.(amount)) with x in * by lia.
    run_in H0; simplify_eq; try (by left); unfold actual_stake, delegated in *;
      rename select (get_validator a s = Some _) into Hv; pose proof (sync_at s a _ Hi Hv); try lia.
    right. split; [done|]. rewrite Htot.
    by apply (inv_redelegate_stake s a v _ x _ s.(unbonding)).
  - run_in H0; simplify_eq; try (by left); unfold actual_stake, delegated in *;
      rename select (get_validator a s = Some _) into Hv; pose proof (sync_at s a _ Hi Hv); try lia.
    right. split; [done|]. rewrite Htot.
    apply (inv_redelegate_stake s a v (s.(delegations) ++ [mkDelegation d a x 0]) x _ s.(unbonding)); try done.
    + rewrite fmap_app. apply NoDup_app. split_and!; [apply Hi| |apply NoDup_singleton].
      intros k (y & -> & Hy)%list_elem_of_fmap Hk%list_elem_of_singleton.
      rename select (find_first (is_delegation d a) _ = None) into Hno.
      apply find_first_None in Hno. rewrite Forall_forall in Hno. specialize (Hno y Hy).
      apply not_true_iff_false in Hno. by rewrite is_delegation_iff in Hno.
    + apply Forall_app. split; [apply Hi|]. apply Forall_singleton. split; [done|].
      apply get_validator_in in Hv as [? ?]. by exists v.
    + intros b. unfold delegated_to. rewrite sum_of_app, sum_of_cons, part_amount. cbn.
      change (sum_of (part b) []) with 0. case_decide; lia.
    + rewrite sum_of_app, sum_of_cons. cbn. change (sum_of amount []) with 0. unfold delegated. lia.
Qed.

(** Removing the delegations that match, when they are empty. *)
Lemma retain_empty (p : Delegation → bool) ds (P : Delegation → Prop) :
  Forall (λ y, p y = true → y.(amount) = 0) ds →
  NoDup (key <$> ds) → Forall P ds →
  let ds' := retain (λ y, negb (p y)) ds in
  NoDup (key <$> ds') ∧ Forall P ds' ∧
  (∀ b, delegated_to b ds' = delegated_to b ds) ∧ sum_of amount ds' = sum_of amount ds.
Proof.
  intros Hz Hk HP. cbn. split_and!.
  - by apply NoDup_fmap_retain.
  - by apply Forall_retain.
  - intros b. apply sum_of_retain. eapply Forall_impl; [exact Hz|]. cbn.
    intros y Hy Hp%negb_false_iff. rewrite part_amount, Hy by done. by case_decide.
  - apply sum_of_retain. eapply Forall_impl; [exact Hz|]. cbn. intros y Hy Hp%negb_false_iff. auto.
Qed.

Lemma unbond_delegations d a e x s :
  staking_inv s → find_first (is_delegation d a) s.(delegations) = Some e → 0 ≤ x ≤ e.(amount) →
  let ds := alter_first (is_delegation d a) (set_amount (e.(amount) - x)) s.(delegations) in
  let ds' := if e.(amount) - x =? 0 then retain (λ y, negb (is_delegation d a y)) ds else ds in
  NoDup (key <$> ds') ∧
  Forall (λ d, 0 ≤ d.(amount) ∧ ∃ v, v ∈ s.(validators) ∧ v.(address) = d.(validator)) ds' ∧
  (∀ b, delegated_to b ds' = delegated_to b s.(delegations) + (if decide (a = b) then - x else 0)) ∧
  sum_of amount ds' = delegated s + - x.
Proof.
  intros Hi He Hx ds ds'.
  destruct (alter_delegation d a e (e.(amount) - x) s Hi He ltac:(lia)) as (_ & _ & Hk & Hd & Hto & Hsum).
  replace (e.(amount) - x - e.(amount)) with (- x) in * by lia. fold ds in Hk, Hd, Hto, Hsum.
  unfold ds'. case_match; clean_ints; [|by split_and!].
  assert (Forall (λ y, is_delegation d a y = true → y.(amount) = 0) ds) as Hz.
  { apply Forall_forall. intros y Hy Hp.
    rewrite (find_first_unique key (d, a) _ (is_delegation_iff d a) ds y _ Hk
      (find_first_alter_first key (d, a) _ (is_delegation_iff d a) (set_amount (e.(amount) - x))
        _ _ (λ _, eq_refl) He) Hy Hp). done. }
  destruct (retain_empty (is_delegation d a) ds _ Hz Hk Hd) as (Hk2 & Hd2 & Hto2 & Hsum2).
  split_and!; [done..| |].
  - intros b. by rewrite Hto2, Hto.
  - by rewrite Hsum2.
Qed.

Lemma delegation_validator s d a e :
  staking_inv s → find_first (is_delegation d a) s.(delegations) = Some e →
  ∃ v, get_validator a s = Some v ∧ 0 ≤ e.(amount) ≤ v.(delegated_amount) ∧
    v.(delegated_amount) ≤ delegated s.
Proof.
  intros Hi He. pose proof (find_first_Some _ _ _ He) as [Hin Hke%is_delegation_iff].
  injection Hke as _ Hva. pose proof (amounts_nonneg s Hi) as Hn.
  pose proof (delegation_le_to _ _ Hn Hin) as Hle. rewrite Hva in Hle.
  pose proof (delegated_to_bounds a _ Hn).
  pose proof (sinv_del s Hi) as Hdv. rewrite Forall_forall in Hdv.
  destruct (Hdv e Hin) as [? (w & Hw & Hwa)].
  destruct (get_validator a s) as [v|] eqn:E.
  - exists v. pose proof (sync_at s a v Hi E). unfold delegated. split_and!; [done|lia..].
  - apply find_first_None in E. rewrite Forall_forall in E. specialize (E w Hw).
    apply not_true_iff_false in E. rewrite is_validator_iff in E. congruence.
Qed.

(** [unbond] on a delegation that covers the amount. *)
Lemma unbond_cases caller d a x slot s s' r :
  staking_inv s → 0 ≤ x → slot + UNBONDING_SLOTS ≤ U64_MAX →
  unbond caller d a x slot s = (s', r) →
  refused s s' r ∨
  r = Ok tt ∧ staking_inv s' ∧ actual_stake s' = actual_stake s - x ∧
  s'.(unbonding) = s.(unbonding) ++ [mkUnbonding d a x (slot + UNBONDING_SLOTS)].
Proof.
  intros Hi Hx Hslot H0. pose proof (inv_bounds s Hi) as (? & ? & ?).
  pose proof (sinv_total s Hi) as Htot. unfold unbond in H0. unfold_M.
  destruct (caller =? d)%N; cbn [negb] in H0; [|simplify_eq; by left].
  destruct (find_first (is_delegation d a) s.(delegations)) as [e|] eqn:He; [|simplify_eq; by left].
  destruct (e.(amount) <? x) eqn:Hle; [simplify_eq; by left|]. clean_ints.
  destruct (unbond_delegations d a e x s Hi He ltac:(lia)) as (Hk & Hd & Hto & Hsum).
  destruct (delegation_validator s d a e Hi He) as (v & Hv & ? & ?).
  unfold checked_sub at 1 in H0. rewrite (proj2 (Z.leb_le _ _)) in H0 by lia. cbn in H0.
  set (ds := alter_first (is_delegation d a) (set_amount (e.(amount) - x)) s.(delegations)) in *.
  set (ds' := if e.(amount) - x =? 0 then retain (λ y, negb (is_delegation d a y)) ds else ds) in *.
  assert (Forall (λ u, 0 ≤ u.(unb_amount)) (s.(unbonding) ++ [mkUnbonding d a x (slot + UNBONDING_SLOTS)])) as Hu.
  { apply Forall_app. split; [apply Hi|]. by apply Forall_singleton. }
  destruct (inv_redelegate_stake s a v ds' (- x) (s.(total_staked) - x) _ Hi Hv Hk Hd Hto Hsum
    ltac:(unfold actual_stake in *; lia) ltac:(unfold actual_stake in *; lia) Hu) as [Hi' Hact].
  right. rewrite Hv in H0.
  assert (s' = set_total (s.(total_staked) - x) (set_unbonding
     (s.(unbonding) ++ [mkUnbonding d a x (slot + UNBONDING_SLOTS)])
     (update_validator a (set_delegated (v.(delegated_amount) + - x)) (set_delegations ds' s)))
     ∧ r = Ok tt) as [-> ->].
  { unfold ds'. unfold actual_stake in *.
    destruct (e.(amount) - x =? 0); run_in H0; try lia; subst; by rewrite Z.add_opp_r. }
  split_and!; [done..|lia|done].
Qed.

(** *** Slashing *)

(** What a slash of [rate] basis points takes from [x]. *)
Definition cut (rate x : Z) : Z := x * rate / 10000.

Lemma cut_bounds rate x : 0 ≤ rate ≤ 10000 → 0 ≤ x → 0 ≤ cut rate x ≤ x.
Proof.
  intros Hr Hx. unfold cut. split.
  - apply Z.div_pos; nia.
  - apply Z.div_le_upper_bound; nia.
Qed.

Lemma mul_div_cut rate x : 0 ≤ rate ≤ 10000 → is_u128 x → mul_div x rate 10000 = cut rate x.
Proof. intros. by apply mul_div_rate. Qed.

Definition cut_delegation (a : Address) (rate : Z) (d : Delegation) : Z := cut rate (part a d).
Definition slashed (a : Address) (rate : Z) (d : Delegation) : Delegation :=
  if to_validator a d then set_amount (d.(amount) - cut rate d.(amount)) d else d.

Definition unb_part (a : Address) (u : Unbonding) : Z := if from_validator a u then u.(unb_amount) else 0.
Definition cut_unbonding (a : Address) (rate : Z) (u : Unbonding) : Z := cut rate (unb_part a u).
Definition slashed_unb (a : Address) (rate : Z) (u : Unbonding) : Unbonding :=
  if from_validator a u then set_unb_amount (u.(unb_amount) - cut rate u.(unb_amount)) u else u.

(** The tokens in the unbonding queue. *)
Definition pending (s : StakingState) : Z := sum_of unb_amount s.(unbonding).

Lemma cut_0 rate : cut rate 0 = 0.
Proof. unfold cut. by rewrite Z.mul_0_l, Z.div_0_l. Qed.

Lemma slash_delegations_eq a rate acc l :
  0 ≤ rate ≤ 10000 → 0 ≤ acc → Forall (λ d, 0 ≤ d.(amount)) l → acc + sum_of amount l ≤ U128_MAX →
  slash_delegations a rate acc l = (slashed a rate <$> l, acc + sum_of (cut_delegation a rate) l).
Proof.
  intros Hr Ha Hl. revert acc Ha. induction Hl as [|d l Hd Hl IH]; intros acc Ha Hmax;
    cbn [slash_delegations fmap list_fmap].
  - f_equal. change (sum_of (cut_delegation a rate) []) with 0. lia.
  - rewrite sum_of_cons in *. pose proof (sum_of_nonneg _ _ Hl). unfold cut_delegation at 1, slashed at 1, part.
    destruct (to_validator a d) eqn:E.
    + rewrite (mul_div_cut rate d.(amount)) by (done || ulia).
      pose proof (cut_bounds rate d.(amount) Hr Hd).
      assert (saturating_sub d.(amount) (cut rate d.(amount)) = d.(amount) - cut rate d.(amount)) as -> by ulia.
      assert (saturating_add U128_MAX acc (saturating_sub d.(amount) (d.(amount) - cut rate d.(amount)))
              = acc + cut rate d.(amount)) as -> by ulia.
      rewrite IH by lia. f_equal. lia.
    + rewrite IH, cut_0 by lia. f_equal.
Qed.

Lemma slash_unbonding_eq a rate acc l :
  0 ≤ rate ≤ 10000 → 0 ≤ acc → Forall (λ u, 0 ≤ u.(unb_amount)) l → acc + sum_of unb_amount l ≤ U128_MAX →
  slash_unbonding a rate acc l = (slashed_unb a rate <$> l, acc + sum_of (cut_unbonding a rate) l).
Proof.
  intros Hr Ha Hl. revert acc Ha. induction Hl as [|u l Hu Hl IH]; intros acc Ha Hmax;
    cbn [slash_unbonding fmap list_fmap].
  - f_equal. change (sum_of (cut_unbonding a rate) []) with 0. lia.
  - rewrite sum_of_cons in *. pose proof (sum_of_nonneg _ _ Hl).
    unfold cut_unbonding at 1, slashed_unb at 1, unb_part.
    destruct (from_validator a u) eqn:E.
    + rewrite (mul_div_cut rate u.(unb_amount)) by (done || ulia).
      pose proof (cut_bounds rate u.(unb_amount) Hr Hu).
      assert (saturating_sub u.(unb_amount) (cut rate u.(unb_amount)) = u.(unb_amount) - cut rate u.(unb_amount)) as -> by ulia.
      assert (saturating_add U128_MAX acc (cut rate u.(unb_amount)) = acc + cut rate u.(unb_amount)) as -> by ulia.
      rewrite IH by lia. f_equal. lia.
    + rewrite IH, cut_0 by lia. f_equal.
Qed.

Lemma foldl_saturating_add acc l :
  0 ≤ acc → Forall (λ d, 0 ≤ d.(amount)) l → acc + sum_of amount l ≤ U128_MAX →
  foldl (λ acc d, saturating_add U128_MAX acc d.(amount)) acc l = acc + sum_of amount l.
Proof.
  intros Ha Hl. revert acc Ha. induction Hl as [|d l Hd Hl IH]; intros acc Ha Hmax; cbn [foldl].
  - change (sum_of amount []) with 0. lia.
  - rewrite sum_of_cons in *. pose proof (sum_of_nonneg _ _ Hl).
    rewrite IH by ulia. ulia.
Qed.

Lemma sum_of_retain_to a ds : sum_of amount (retain (to_validator a) ds) = delegated_to a ds.
Proof.
  unfold retain, delegated_to. induction ds as [|d ds IH]; [done|].
  rewrite filter_cons, sum_of_cons. unfold part at 1.
  case_decide as Hd; [rewrite sum_of_cons, Hd, IH; done|].
  apply not_true_is_false in Hd. by rewrite Hd, IH.
Qed.

(** The delegations after a slash. *)
Definition slashed_delegations (a : Address) (rate : Z) (ds : list Delegation) : list Delegation :=
  retain (λ d, 0 <? d.(amount)) (slashed a rate <$> ds).

Lemma slashed_part a b rate d :
  0 ≤ rate ≤ 10000 → 0 ≤ d.(amount) →
  part b (slashed a rate d) = part b d - (if decide (a = b) then cut_delegation a rate d else 0).
Proof.
  intros Hr Hd. unfold cut_delegation, slashed. rewrite (part_amount a d).
  destruct (to_validator a d) eqn:E.
  - apply to_validator_iff in E. rewrite part_set_amount, part_amount, E, (decide_True (P := a = a)) by done.
    case_decide; lia.
  - apply not_true_iff_false in E. rewrite to_validator_iff in E.
    rewrite (decide_False (P := d.(validator) = a)), cut_0 by done. case_decide; lia.
Qed.

Lemma slashed_amount a rate d :
  (slashed a rate d).(amount) = d.(amount) - cut_delegation a rate d.
Proof.
  unfold slashed, cut_delegation, part. destruct (to_validator a d); cbn; [done|]. rewrite cut_0. lia.
Qed.

Lemma slashed_delegations_facts a rate ds (P : Address → Prop) :
  0 ≤ rate ≤ 10000 → NoDup (key <$> ds) → Forall (λ d, 0 ≤ d.(amount) ∧ P d.(validator)) ds →
  let ds' := slashed_delegations a rate ds in
  NoDup (key <$> ds') ∧ Forall (λ d, 0 ≤ d.(amount) ∧ P d.(validator)) ds' ∧
  (∀ b, delegated_to b ds' = delegated_to b ds -
          (if decide (a = b) then sum_of (cut_delegation a rate) ds else 0)) ∧
  sum_of amount ds' = sum_of amount ds - sum_of (cut_delegation a rate) ds.
Proof.
  intros Hr Hk Hd. cbn.
  assert (Forall (λ d, 0 ≤ d.(amount) ∧ P d.(validator)) (slashed a rate <$> ds)) as Hd'.
  { apply Forall_fmap. eapply Forall_impl; [exact Hd|]. intros d [? ?]. cbn.
    rewrite slashed_amount. pose proof (part_bounds a d ltac:(done)).
    pose proof (cut_bounds rate (part a d) Hr ltac:(lia)). unfold cut_delegation. split; [lia|].
    unfold slashed. by case_match. }
  unfold slashed_delegations. split_and!.
  - apply NoDup_fmap_retain. rewrite <- list_fmap_compose.
    rewrite (list_fmap_ext (key ∘ slashed a rate) key ds); [done|].
    intros i d _. unfold slashed. cbn. by case_match.
  - by apply Forall_retain.
  - intros b. unfold delegated_to. rewrite sum_of_retain.
    + clear Hk Hd'. induction Hd as [|d ds [? _] Hds IH]; [by case_decide|].
      rewrite fmap_cons, !sum_of_cons, IH, slashed_part by done. case_decide; lia.
    + eapply Forall_impl; [exact Hd'|]. cbn. intros d [? _] Hz%Z.ltb_ge.
      rewrite part_amount. case_decide; lia.
  - rewrite sum_of_retain.
    + clear Hk Hd' Hd. induction ds as [|d ds IH]; [done|].
      rewrite fmap_cons, !sum_of_cons, IH, slashed_amount. lia.
    + eapply Forall_impl; [exact Hd'|]. cbn. intros d [? _] Hz%Z.ltb_ge. lia.
Qed.

(** The validator after a slash. *)
Definition slashed_validator (rate slot : Z) (delegated : Z) (v : Validator) : Validator :=
  let count := saturating_add U32_MAX v.(slash_count) 1 in
  let v' := set_delegated delegated (set_slash_count count
              (set_staked (v.(staked_amount) - cut rate v.(staked_amount)) v)) in
  if 3 <=? count then set_jail false (Some (saturating_add U64_MAX slot UNJAIL_COOLDOWN_SLOTS)) v'
  else v'.

Lemma alter_first_compose {A} (p : A → bool) (f g : A → A) l :
  (∀ x, p (f x) = p x) → alter_first p g (alter_first p f l) = alter_first p (g ∘ f) l.
Proof.
  intros Hp. induction l as [|x l IH]; cbn; [done|]. destruct (p x) eqn:E; cbn.
  - by rewrite Hp, E.
  - by rewrite E, IH.
Qed.

Lemma alter_first_found {A} (p : A → bool) (f g : A → A) l x :
  find_first p l = Some x → f x = g x → alter_first p f l = alter_first p g l.
Proof.
  intros Hf E. induction l as [|y l IH]; cbn in *; [done|]. destruct (p y).
  - injection Hf as ->. by rewrite E.
  - by rewrite IH.
Qed.

(** What is taken in all by a slash of validator [v]. *)
Definition slash_total (rate : Z) (v : Validator) (s : StakingState) : Z :=
  cut rate v.(staked_amount) + sum_of (cut_delegation v.(address) rate) s.(delegations)
  + sum_of (cut_unbonding v.(address) rate) s.(unbonding).

Lemma slash_bounds a rate s v :
  staking_inv s → 0 ≤ rate ≤ 10000 → get_validator a s = Some v →
  let ds := slashed_delegations a rate s.(delegations) in
  Forall (λ d, 0 ≤ d.(amount)) ds ∧ 0 ≤ delegated_to a ds ≤ sum_of amount ds ∧
  0 ≤ v.(staked_amount) ≤ bonded s ∧ 0 ≤ cut rate v.(staked_amount) ≤ v.(staked_amount) ∧
  0 ≤ sum_of (cut_delegation a rate) s.(delegations) ≤ delegated s ∧
  sum_of amount ds = delegated s - sum_of (cut_delegation a rate) s.(delegations) ∧
  0 ≤ sum_of (cut_unbonding a rate) s.(unbonding) ≤ pending s.
Proof.
  intros Hi Hr Hv ds. pose proof (get_validator_in _ _ _ Hv) as [Hin Hva].
  pose proof (sum_of_elem _ _ _ (stakes_nonneg s Hi) Hin) as Hst.
  pose proof (stakes_nonneg s Hi) as Hsn. rewrite Forall_forall in Hsn. specialize (Hsn v Hin).
  pose proof (cut_bounds rate v.(staked_amount) Hr Hsn).
  destruct (slashed_delegations_facts a rate s.(delegations) (λ _, True) Hr (sinv_key s Hi)
    ltac:(eapply Forall_impl; [apply (amounts_nonneg s Hi)|done])) as (_ & Hn & _ & Hsum).
  assert (Forall (λ d, 0 ≤ d.(amount)) ds) as Hn' by (eapply Forall_impl; [exact Hn|cbn; tauto]).
  pose proof (sum_of_nonneg _ _ Hn') as Hpos. fold ds in Hsum.
  unfold bonded, delegated, pending in *. split_and!; try apply delegated_to_bounds; try done; try lia.
  - apply sum_of_nonneg. eapply Forall_impl; [apply (amounts_nonneg s Hi)|]. intros d Hd. cbn.
    apply cut_bounds; [done|]. by apply part_bounds.
  - apply sum_of_nonneg. eapply Forall_impl; [apply (sinv_unb s Hi)|]. intros u Hu. cbn in *.
    unfold cut_unbonding, unb_part. case_match; [by apply cut_bounds|by rewrite cut_0].
  - apply sum_of_le. eapply Forall_impl; [apply (sinv_unb s Hi)|]. intros u Hu. cbn in *.
    unfold cut_unbonding, unb_part. case_match; [by apply cut_bounds|by rewrite cut_0].
Qed.

Lemma slash_eq a rate slot s v :
  staking_inv s → 0 ≤ rate ≤ 10000 → actual_stake s + pending s ≤ U128_MAX →
  get_validator a s = Some v →
  let ds := slashed_delegations a rate s.(delegations) in
  let us := retain (λ u, 0 <? u.(unb_amount)) (slashed_unb a rate <$> s.(unbonding)) in
  slash a rate slot s =
    (set_total (saturating_sub s.(total_staked) (slash_total rate v s))
      (set_unbonding us (set_delegations ds
        (update_validator a (slashed_validator rate slot (delegated_to a ds)) s))),
     Ok (slash_total rate v s)).
Proof.
  intros Hi Hr Hmax Hv. cbv zeta. pose proof (inv_bounds s Hi) as (? & ? & ?).
  pose proof (get_validator_in _ _ _ Hv) as [Hin Hva].
  pose proof (slash_bounds a rate s v Hi Hr Hv) as (Hn & ? & ? & ? & ? & ? & ?).
  unfold actual_stake in *.
  unfold slash. unfold_M. rewrite (proj2 (Z.ltb_ge _ _)), Hv by lia. cbn beta iota zeta.
  rewrite slash_delegations_eq, slash_unbonding_eq
    by (done || lia || apply Hi || (by apply amounts_nonneg) || (unfold delegated, pending in *; lia)).
  rewrite (mul_div_cut rate v.(staked_amount)) by (done || ulia). fold (slashed_delegations a rate s.(delegations)).
  rewrite foldl_saturating_add; [|lia|by apply Forall_retain|rewrite sum_of_retain_to; lia].
  rewrite sum_of_retain_to, !Z.add_0_l.
  assert (saturating_add U128_MAX (saturating_add U128_MAX (cut rate v.(staked_amount))
    (sum_of (cut_delegation a rate) s.(delegations))) (sum_of (cut_unbonding a rate) s.(unbonding))
    = slash_total rate v s) as -> by (unfold slash_total; rewrite Hva; ulia).
  assert (saturating_sub v.(staked_amount) (cut rate v.(staked_amount))
    = v.(staked_amount) - cut rate v.(staked_amount)) as -> by ulia.
  unfold slashed_validator. destruct (3 <=? saturating_add U32_MAX v.(slash_count) 1) eqn:E;
    f_equal; unfold update_validator; cbn; rewrite !alter_first_compose by done; unfold set_total, set_unbonding,
    set_delegations, set_validators; cbn; f_equal; (eapply alter_first_found; [exact Hv|]); cbn; by rewrite E.
Qed.

Lemma slash_actual a rate slot s v :
  staking_inv s → 0 ≤ rate ≤ 10000 → actual_stake s + pending s ≤ U128_MAX →
  get_validator a s = Some v →
  let s' := (slash a rate slot s).1 in
  bonded s' = bonded s - cut rate v.(staked_amount) ∧
  delegated s' = delegated s - sum_of (cut_delegation a rate) s.(delegations) ∧
  pending s' = pending s - sum_of (cut_unbonding a rate) s.(unbonding).
Proof.
  intros Hi Hr Hmax Hv. rewrite (slash_eq a rate slot s v) by done. cbn.
  pose proof (slash_bounds a rate s v Hi Hr Hv) as (_ & _ & _ & _ & _ & Hsum & _).
  unfold bonded, delegated, pending in *. cbn. split_and!; [|done|].
  - rewrite (sum_of_alter_first _ _ _ _ v) by done. unfold slashed_validator. case_match; cbn; lia.
  - rewrite sum_of_retain.
    + clear. induction s.(unbonding) as [|u l IH]; [done|].
      rewrite fmap_cons, !sum_of_cons, IH. unfold cut_unbonding at 2, slashed_unb, unb_part.
      case_match; cbn; [lia|]. rewrite cut_0. lia.
    + apply Forall_fmap. eapply Forall_impl; [apply (sinv_unb s Hi)|]. intros u Hu Hz%Z.ltb_ge.
      revert Hz. unfold slashed_unb. cbn in *. case_match; cbn; [|lia].
      pose proof (cut_bounds rate u.(unb_amount) Hr Hu). lia.
Qed.

Lemma addresses_kept s f a :
  (∀ v, (f v).(address) = v.(address)) →
  address <$> (update_validator a f s).(validators) = address <$> s.(validators).
Proof. intros. cbn. by apply fmap_alter_first. Qed.

Lemma same_addresses (vs vs' : list Validator) (a : Address) :
  address <$> vs' = address <$> vs → (∃ v, v ∈ vs ∧ v.(address) = a) → ∃ v, v ∈ vs' ∧ v.(address) = a.
Proof.
  intros E (v & Hv & <-). assert (v.(address) ∈ address <$> vs) as Hin by by apply list_elem_of_fmap_2.
  rewrite <- E in Hin. apply list_elem_of_fmap in Hin as (w & ? & ?). by exists w.
Qed.

Lemma slash_inv a rate slot s v :
  staking_inv s → 0 ≤ rate ≤ 10000 → actual_stake s + pending s ≤ U128_MAX →
  get_validator a s = Some v → sum_of (cut_unbonding a rate) s.(unbonding) = 0 →
  staking_inv (slash a rate slot s).1.
Proof.
  intros Hi Hr Hmax Hv Hno. destruct (slash_actual a rate slot s v Hi Hr Hmax Hv) as (Hb & Hd & _).
  rewrite (slash_eq a rate slot s v) in * by done. cbn [fst] in *.
  pose proof (get_validator_in _ _ _ Hv) as [Hin Hva].
  pose proof (slash_bounds a rate s v Hi Hr Hv) as (_ & _ & ? & ? & ? & _ & _).
  destruct (slashed_delegations_facts a rate s.(delegations)
    (λ b, ∃ v, v ∈ s.(validators) ∧ v.(address) = b) Hr (sinv_key s Hi) (sinv_del s Hi)) as (Hk & Hn & Hto & _).
  set (f := slashed_validator rate slot _) in *.
  assert (∀ w, (f w).(address) = w.(address)) as Hfa by (intros w; unfold f, slashed_validator; by case_match).
  pose proof (addresses_kept s f a Hfa) as Haddr. pose proof (sinv_total s Hi) as Htot.
  assert (s.(total_staked) - slash_total rate v s = bonded s - cut rate v.(staked_amount)
    + (delegated s - sum_of (cut_delegation a rate) s.(delegations))) as Htot'.
  { unfold slash_total. rewrite Hva. unfold actual_stake in *. lia. }
  constructor; cbn in *.
  - rewrite Haddr. apply Hi.
  - apply alter_first_Forall; [apply Hi|]. intros w _ _ (? & ? & ?). unfold f, slashed_validator, val_ok.
    pose proof (cut_bounds rate w.(staked_amount) Hr ltac:(done)). case_match; cbn; ulia.
  - exact Hk.
  - eapply Forall_impl; [exact Hn|]. intros d [? ?]. split; [done|]. by eapply same_addresses.
  - apply Forall_retain. apply Forall_fmap. eapply Forall_impl; [apply (sinv_unb s Hi)|].
    intros u Hu. cbn in *. unfold slashed_unb. case_match; cbn; [|done].
    pose proof (cut_bounds rate u.(unb_amount) Hr Hu). lia.
  - pose proof (sinv_sync s Hi) as Hsync. rewrite Forall_forall in Hsync.
    eapply (alter_first_Forall_unique address a); [apply is_validator_iff|apply Hi|..].
    + intros w _ Hw%is_validator_iff. rewrite Hfa, Hw. unfold f, slashed_validator. by case_match.
    + intros w Hw Hp. rewrite Hto, decide_False, (Hsync w Hw); [lia|].
      intros E. apply not_true_iff_false in Hp. by apply Hp, is_validator_iff.
  - unfold actual_stake. rewrite Hb, Hd. unfold saturating_sub. lia.
  - pose proof (sinv_range s Hi). unfold actual_stake in *. rewrite Hb, Hd. lia.
Qed.

Lemma complete_unbonding_inv slot s : staking_inv s → staking_inv (complete_unbonding slot s).1.
Proof. intros [? ? ? ? Hu ? ? ?]. constructor; try done. by apply Forall_retain. Qed.

Lemma unjail_inv caller a slot s : staking_inv s → staking_inv (unjail caller a slot s).1.
Proof.
  intros Hi. destruct (unjail caller a slot s) as [s' r] eqn:E. cbn. unfold unjail in E.
  run_in E; try done. pose proof Hi as [Ha Hval Hk Hd Hu Hsync Htot Hr].
  set (f := set_slash_count 0 ∘ set_jail true None).
  assert (update_validator a (set_slash_count 0) (update_validator a (set_jail true None) s)
    = update_validator a f s) as ->.
  { unfold update_validator. cbn. by rewrite alter_first_compose. }
  pose proof (addresses_kept s f a (λ _, eq_refl)) as Haddr.
  assert (bonded (update_validator a f s) = bonded s) as Hb.
  { unfold bonded. cbn. erewrite sum_of_alter_first by done. cbn. lia. }
  constructor; cbn in *; try done.
  - by rewrite Haddr.
  - apply alter_first_Forall; [done|]. intros w _ _ (? & ? & ?). unfold val_ok; cbn; lia.
  - eapply Forall_impl; [exact Hd|]. intros d [? ?]. split; [done|]. by eapply same_addresses.
  - apply alter_first_Forall; [done|]. by intros w _ _ ?.
  - unfold actual_stake in *. by rewrite Hb.
  - unfold actual_stake in *. by rewrite Hb.
Qed.

(** A write to one validator leaves the others. *)
Lemma get_validator_other a b f s :
  b ≠ a → (∀ v, (f v).(address) = v.(address)) →
  get_validator b (update_validator a f s) = get_validator b s.
Proof.
  intros Hne Hf. unfold get_validator. cbn. induction s.(validators) as [|w l IH]; cbn; [done|].
  assert (is_validator b (f w) = is_validator b w) as Hb by (unfold is_validator; by rewrite Hf).
  destruct (is_validator a w) eqn:E; cbn; [|by rewrite IH].
  apply is_validator_iff in E. assert (is_validator b w = false) as Hw.
  { apply not_true_iff_false. rewrite is_validator_iff. congruence. }
  by rewrite Hb, Hw.
Qed.

(** ** The program's calls

    [distribute_rewards] is treated on its own below. *)

Inductive op : Type :=
| Register (caller a : Address) (stake rate : Z) (reward : Address)
| Delegate (caller d a : Address) (x : Z)
| Unbond (caller d a : Address) (x slot : Z)
| CompleteUnbonding (slot : Z)
| Slash (a : Address) (rate slot : Z)
| Unjail (caller a : Address) (slot : Z).

Definition exec (o : op) (s : StakingState) : StakingState :=
  match o with
  | Register c a st r rw => (register_validator c a st r rw s).1
  | Delegate c d a x => (delegate c d a x s).1
  | Unbond c d a x sl => (unbond c d a x sl s).1
  | CompleteUnbonding sl => (complete_unbonding sl s).1
  | Slash a r sl => (slash a r sl s).1
  | Unjail c a sl => (unjail c a sl s).1
  end.

(** Amounts backed by a [u128] supply and slots far from [u64::MAX]; a
    validator is slashed while nothing of its stake is unbonding. *)
Definition op_wf (o : op) (s : StakingState) : Prop :=
  match o with
  | Register _ _ st r _ => 0 ≤ r ∧ actual_stake s + st ≤ U128_MAX
  | Delegate _ _ _ x => 0 ≤ x ∧ actual_stake s + x ≤ U128_MAX
  | Unbond _ _ _ x sl => 0 ≤ x ∧ sl + UNBONDING_SLOTS ≤ U64_MAX
  | Slash a r _ => 0 ≤ r ∧ actual_stake s + pending s ≤ U128_MAX ∧
      Forall (λ u, from_validator a u = false) s.(unbonding)
  | _ => True
  end.

(** C10: As long as the staked tokens stay within a [u128], an unbonding period
    ends within a [u64], and a slashed validator has no stake in the unbonding
    queue ([op_wf]), every call other than a reward distribution, whether it
    succeeds or is refused, keeps [total_staked] equal to the stake of the
    validators plus all delegations, and each validator's [delegated_amount]
    equal to the sum of the delegations to it. Outside these limits a call that
    returns [Err] keeps what it wrote before. *)
Theorem exec_staking_inv (o : op) (s : StakingState) :
  staking_inv s → op_wf o s → staking_inv (exec o s).
Proof.
  intros Hi Hwf. destruct o as [c a st r rw|c d a x|c d a x sl|sl|a r sl|c a sl]; cbn in *.
  - destruct (register_validator _ _ _ _ _ s) as [s' res] eqn:E. destruct Hwf.
    apply register_validator_cases in E as [[-> _]|(_ & ? & _)]; done.
  - destruct (delegate _ _ _ _ s) as [s' res] eqn:E. destruct Hwf.
    apply delegate_cases in E as [[-> _]|(_ & ? & _)]; done.
  - destruct (unbond _ _ _ _ _ s) as [s' res] eqn:E. destruct Hwf.
    apply unbond_cases in E as [[-> _]|(_ & ? & _)]; done.
  - by apply complete_unbonding_inv.
  - destruct Hwf as (? & ? & Hno). destruct (decide (r ≤ 10000)).
    + destruct (get_validator a s) as [v|] eqn:Hv.
      * eapply slash_inv; [done|lia|done|done|].
        rewrite (sum_of_ext _ (λ _, 0)); [clear; induction s.(unbonding); [done|rewrite sum_of_cons; lia]|].
        eapply Forall_impl; [exact Hno|]. intros u Hu. unfold cut_unbonding, unb_part. cbn in Hu.
        by rewrite Hu, cut_0.
      * unfold slash. unfold_M. rewrite (proj2 (Z.ltb_ge _ _)), Hv by lia. done.
    + unfold slash. unfold_M. by rewrite (proj2 (Z.ltb_lt _ _)) by lia.
  - by apply unjail_inv.
Qed.

(** A slash takes exactly [rate] basis points, rounded down, from the
    validator's own stake, from each delegation to it and from each unbonding
    entry from it, takes nothing from anybody else, and returns the sum of
    what it took. *)
Theorem slash_exact (a : Address) (rate slot : Z) (s : StakingState) (v : Validator) :
  staking_inv s → 0 ≤ rate ≤ 10000 → actual_stake s + pending s ≤ U128_MAX →
  get_validator a s = Some v →
  ∃ s', slash a rate slot s = (s', Ok (slash_total rate v s)) ∧
    (∃ v', get_validator a s' = Some v' ∧
       v'.(staked_amount) = v.(staked_amount) - v.(staked_amount) * rate / 10000) ∧
    bonded s' = bonded s - v.(staked_amount) * rate / 10000 ∧
    (∀ b, b ≠ a → get_validator b s' = get_validator b s ∧
       delegated_to b s'.(delegations) = delegated_to b s.(delegations)) ∧
    s'.(delegations) = retain (λ d, 0 <? d.(amount)) (slashed a rate <$> s.(delegations)) ∧
    s'.(unbonding) = retain (λ u, 0 <? u.(unb_amount)) (slashed_unb a rate <$> s.(unbonding)) ∧
    actual_stake s' + pending s' = actual_stake s + pending s - slash_total rate v s.
Proof.
  intros Hi Hr Hmax Hv. destruct (slash_actual a rate slot s v Hi Hr Hmax Hv) as (Hb & Hd & Hp).
  rewrite (slash_eq a rate slot s v) in * by done. cbn [fst] in *.
  pose proof (get_validator_in _ _ _ Hv) as [Hin Hva].
  destruct (slashed_delegations_facts a rate s.(delegations) (λ _, True) Hr (sinv_key s Hi)
    ltac:(eapply Forall_impl; [apply (amounts_nonneg s Hi)|done])) as (_ & _ & Hto & _).
  eexists. split; [done|]. split_and!; try done.
  - eexists. split.
    + unfold get_validator. cbn. apply (find_first_alter_first address a); [apply is_validator_iff| |done].
      intros w. unfold slashed_validator. by case_match.
    + unfold slashed_validator. by case_match.
  - intros b Hne. split.
    + apply (get_validator_other a b _ s); [done|]. intros w. unfold slashed_validator. by case_match.
    + specialize (Hto b). rewrite decide_False in Hto by congruence. cbn. lia.
  - unfold actual_stake. rewrite Hb, Hd, Hp. unfold slash_total. rewrite Hva. lia.
Qed.

End Staking.
