(* ===== verification/StakingRewards.v ===== *)
(** * Staking: reward distribution and unbonding

    The theorems about [distribute_rewards] and the unbonding queue of
    [Staking], and the defects of the reward accounting. *)

From S2P Require Import Prelude.
From S2P Require Import Arith256.
From S2P Require Import Staking.

Module StakingRewards.

Import Arith256 Staking.

(** ** Shares *)

Lemma mid_fits_126 a b : 0 ≤ a < 2 ^ 126 → 0 ≤ b < 2 ^ 126 → mid_fits a b.
Proof.
  intros Ha Hb. unfold mid_fits.
  pose proof (Z.mod_pos_bound a (2 ^ 64) ltac:(lia)). pose proof (Z.mod_pos_bound b (2 ^ 64) ltac:(lia)).
  assert (0 ≤ a / 2 ^ 64 < 2 ^ 62) by (split; [apply Z.div_pos|apply Z.div_lt_upper_bound]; lia).
  assert (0 ≤ b / 2 ^ 64 < 2 ^ 62) by (split; [apply Z.div_pos|apply Z.div_lt_upper_bound]; lia).
  assert (a mod 2 ^ 64 * (b mod 2 ^ 64) / 2 ^ 64 < 2 ^ 64) by (apply Z.div_lt_upper_bound; nia).
  unfold U128_MAX. nia.
Qed.

(** A share [b / c] of [a]. *)
Lemma mul_div_share a b c :
  0 ≤ a < 2 ^ 126 → 0 ≤ b ≤ c → 0 < c < 2 ^ 126 → mul_div a b c = a * b / c.
Proof.
  intros Ha Hb Hc.
  destruct (mul_div_limbs a b c) as (hi & lo & ? & ? & E & ->); [ulia..| |].
  { apply mid_fits_126; lia. }
  rewrite div_256_by_128_spec, <- E by lia || done.
  apply Z.min_r, Z.div_le_upper_bound; [lia|]. unfold U128_MAX. nia.
Qed.

Lemma share_bounds a b c :
  0 ≤ a → 0 ≤ b ≤ c → 0 < c → 0 ≤ a * b / c ≤ a ∧ a * b / c * c ≤ a * b.
Proof.
  intros Ha Hb Hc. split_and!.
  - apply Z.div_pos; nia.
  - apply Z.div_le_upper_bound; nia.
  - rewrite Z.mul_comm. apply Z.mul_div_le. lia.
Qed.

(** ** Crediting the delegations of one validator *)

(** The same delegation with no less in it. *)
Definition grown (d d' : Delegation) : Prop := key d' = key d ∧ d.(amount) ≤ d'.(amount).

Lemma grown_refl ds : Forall2 grown ds ds.
Proof. induction ds; constructor; [split; [done|lia]|done]. Qed.

Lemma grown_trans ds1 ds2 ds3 : Forall2 grown ds1 ds2 → Forall2 grown ds2 ds3 → Forall2 grown ds1 ds3.
Proof.
  intros H12. revert ds3. induction H12 as [|x y l1 l2 [Hk Ha] _ IH]; intros ds3 H23.
  - done.
  - inversion H23 as [|? z ? l3 [Hk' Ha'] ?]; subst. constructor; [split; [congruence|lia]|auto].
Qed.

Section credit.
Context (a : Address) (pool deleg : Z).
Hypothesis Hpool : 0 ≤ pool < 2 ^ 126.
Hypothesis Hdeleg : 0 < deleg < 2 ^ 126.

Lemma credit_delegations_spec l idx dist total last l' dist' total' last' :
  Forall (λ d, 0 ≤ d.(amount) < 2 ^ 126) l → delegated_to a l ≤ deleg →
  0 ≤ dist → dist * deleg + pool * delegated_to a l ≤ pool * deleg →
  dist ≤ total ≤ dist + 2 ^ 126 →
  credit_delegations a pool deleg idx dist total last l = (l', dist', total', last') →
  ∃ g, dist' = dist + g ∧ total' = total + g ∧ 0 ≤ g ∧ dist' ≤ pool ∧
    sum_of amount l' = sum_of amount l + g ∧
    (∀ b, b ≠ a → delegated_to b l' = delegated_to b l) ∧ Forall2 grown l l' ∧
    (delegated_to a l = 0 ∧ last' = last ∨
     ∃ i d, last' = Some (idx + i)%nat ∧ l' !! i = Some d ∧ d.(validator) = a ∧ d.(amount) < 2 ^ 127).
Proof.
  intros Hl. revert idx dist total last l' dist' total' last'.
  induction Hl as [|d l Hd Hl IH]; intros idx dist total last l' dist' total' last' Hle Hdist Hsh Htot;
    cbn [credit_delegations].
  - change (delegated_to a []) with 0 in *. intros [= <- <- <- <-]. exists 0.
    split_and!; try lia; try done; [nia|by left].
  - assert (0 ≤ delegated_to a l) as Hpos.
    { apply delegated_to_bounds. eapply Forall_impl; [exact Hl|]. cbn. lia. }
    assert (∀ b x, delegated_to b (x :: l) = part b x + delegated_to b l) as Hcons by done.
    rewrite Hcons in *. pose proof (part_bounds a d ltac:(lia)) as Hpart.
    destruct (to_validator a d && (0 <? d.(amount))) eqn:Et.
    + apply andb_true_iff in Et as [Et Hp%Z.ltb_lt]. assert (part a d = d.(amount)) as Hpa by (unfold part; by rewrite Et).
      apply to_validator_iff in Et. rewrite Hpa in *.
      rewrite mul_div_share by lia. pose proof (share_bounds pool d.(amount) deleg) as Hb.
      destruct Hb as [? ?]; [lia..|]. set (sh := pool * d.(amount) / deleg) in *.
      assert (dist + sh ≤ pool) by nia.
      assert (saturating_add U128_MAX dist sh = dist + sh) as -> by ulia.
      assert (saturating_add U128_MAX total sh = total + sh) as -> by ulia.
      assert (saturating_add U128_MAX d.(amount) sh = d.(amount) + sh) as -> by ulia.
      destruct (credit_delegations _ _ _ _ _ _ _ l) as [[[l1 r1] r2] r3] eqn:E. intros [= <- <- <- <-].
      apply IH in E as (g & -> & -> & ? & ? & Hs & Ho & Hg & Hlast); [|nia..].
      exists (sh + g). split_and!; try lia.
      * rewrite !sum_of_cons. cbn. lia.
      * intros b Hb. specialize (Ho b Hb). unfold delegated_to in *. rewrite !sum_of_cons, part_set_amount, part_amount.
        rewrite !decide_False by congruence. lia.
      * constructor; [split; [done|cbn; lia]|done].
      * right. destruct Hlast as [[_ ->]|(i & e & -> & ? & ?)].
        -- exists O, (set_amount (d.(amount) + sh) d). rewrite Nat.add_0_r. split_and!; try done. cbn. lia.
        -- exists (S i), e. by rewrite Nat.add_succ_r.
    + assert (part a d = 0) as Hpa.
      { unfold part. destruct (to_validator a d); cbn in Et; [clean_ints; lia|done]. }
      destruct (credit_delegations _ _ _ _ _ _ _ l) as [[[l1 r1] r2] r3] eqn:E. intros [= <- <- <- <-].
      apply IH in E as (g & -> & -> & ? & ? & Hs & Ho & Hg & Hlast); [|lia..].
      exists g. split_and!; try done; try lia.
      * rewrite !sum_of_cons. lia.
      * intros b Hb. rewrite Hcons. unfold delegated_to at 1. rewrite sum_of_cons. f_equal. by apply Ho.
      * constructor; [split; [done|lia]|done].
      * destruct Hlast as [[? ->]|(i & e & -> & ? & ?)]; [left; split; [lia|done]|right].
        exists (S i), e. by rewrite Nat.add_succ_r.
Qed.
End credit.

(** ** One validator's reward *)

(** The same validator with no less stake, and the same stake if inactive. *)
Definition rewarded (v v' : Validator) : Prop :=
  ∃ x, v' = set_staked x v ∧ v.(staked_amount) ≤ x ∧ (v.(is_active) = false → x = v.(staked_amount)).

Lemma set_staked_id v : set_staked v.(staked_amount) v = v.
Proof. by destruct v. Qed.

Lemma rewarded_refl vs : Forall2 rewarded vs vs.
Proof.
  induction vs as [|v vs IH]; constructor; [|done]. exists v.(staked_amount).
  rewrite set_staked_id. split_and!; [done|lia|done].
Qed.

Lemma rewarded_trans vs1 vs2 vs3 :
  Forall2 rewarded vs1 vs2 → Forall2 rewarded vs2 vs3 → Forall2 rewarded vs1 vs3.
Proof.
  intros H12. revert vs3.
  induction H12 as [|v1 v2 l1 l2 (x & -> & Hx & Hi) _ IH]; intros vs3 H23; [done|].
  inversion H23 as [|? v3 ? l3 (y & -> & Hy & Hi') ?]; subst. constructor; [|auto].
  exists y. cbn in *. split_and!; [done|lia|]. intros Hina. rewrite Hi', Hi; auto.
Qed.

Lemma rewarded_alter a x vs v :
  find_first (is_validator a) vs = Some v → v.(staked_amount) ≤ x → v.(is_active) = true →
  Forall2 rewarded vs (alter_first (is_validator a) (set_staked x) vs).
Proof.
  intros Hf Hx Hact. induction vs as [|w vs IH]; cbn in *; [done|].
  destruct (is_validator a w).
  - injection Hf as ->. constructor; [|apply rewarded_refl]. exists x. by rewrite Hact.
  - constructor; [|auto]. exists w.(staked_amount). rewrite set_staked_id. split_and!; [done|lia|done].
Qed.

Section reward.
Context (R T : Z).
Hypothesis HR : 0 ≤ R < 2 ^ 125.
Hypothesis HT : 0 < T < 2 ^ 125.

(** What one iteration adds: [g], at most the validator's share of [R]. *)
Definition iteration_ok (info : Validator) (vs vs' : list Validator) (ds ds' : list Delegation) (g : Z) : Prop :=
  0 ≤ g ∧ g * T ≤ R * (info.(staked_amount) + info.(delegated_amount)) ∧
  sum_of staked_amount vs' + sum_of amount ds' = sum_of staked_amount vs + sum_of amount ds + g ∧
  (∀ b, b ≠ info.(address) → delegated_to b ds' = delegated_to b ds) ∧
  Forall2 rewarded vs vs' ∧ Forall2 grown ds ds'.

Lemma iteration_skip info vs ds :
  0 ≤ info.(staked_amount) + info.(delegated_amount) → iteration_ok info vs vs ds ds 0.
Proof.
  intros. split_and!; try nia; try done; [apply rewarded_refl|apply grown_refl].
Qed.

(** The delegators' part of an iteration: they receive the whole pool. *)
Lemma credit_all a pool deleg ds total ds1 dist total1 last :
  0 < pool ≤ R → 0 < deleg < 2 ^ 125 → delegated_to a ds = deleg →
  Forall (λ d, 0 ≤ d.(amount)) ds → sum_of amount ds < 2 ^ 126 → 0 ≤ total ≤ 2 ^ 126 →
  credit_delegations a pool deleg 0 0 total None ds = (ds1, dist, total1, last) →
  ∃ i d ds2, last = Some i ∧ dist ≤ pool ∧ total1 = total + dist ∧ ds1 !! i = Some d ∧
    ds2 = alter (λ d, set_amount (saturating_add U128_MAX d.(amount) (pool - dist)) d) i ds1 ∧
    sum_of amount ds1 = sum_of amount ds + dist ∧ sum_of amount ds2 = sum_of amount ds + pool ∧
    (∀ b, b ≠ a → delegated_to b ds1 = delegated_to b ds ∧ delegated_to b ds2 = delegated_to b ds) ∧
    Forall2 grown ds ds1 ∧ Forall2 grown ds ds2.
Proof.
  intros Hp Hd Hto Hds Hsum Ht E.
  assert (Forall (λ d, 0 ≤ d.(amount) < 2 ^ 126) ds) as Hds'.
  { apply Forall_forall. intros d Hin. pose proof (sum_of_elem amount ds d Hds Hin).
    rewrite Forall_forall in Hds. specialize (Hds d Hin). lia. }
  apply credit_delegations_spec in E as (g & -> & -> & ? & ? & Hs & Ho & Hg & Hlast); try done; try lia.
  destruct Hlast as [[? _]|(i & d & -> & Hi & Hva & Hlt)]; [lia|].
  assert (saturating_add U128_MAX d.(amount) (pool - (0 + g)) = d.(amount) + (pool - g)) as Hsat.
  { assert (0 ≤ d.(amount)); [|ulia].
    destruct (Forall2_lookup_r _ _ _ i d Hg Hi) as (d0 & Hd0 & _ & Hle).
    rewrite Forall_forall in Hds. specialize (Hds d0). apply list_elem_of_lookup_2 in Hd0. specialize (Hds Hd0). lia. }
  exists i, d, (alter (λ d, set_amount (saturating_add U128_MAX d.(amount) (pool - (0 + g))) d) i ds1).
  split_and!; try done; try lia.
  - rewrite (sum_of_alter_index _ _ _ _ d) by done. cbn. lia.
  - intros b Hb. split; [auto|]. unfold delegated_to at 1. rewrite (sum_of_alter_index _ _ _ _ d) by done.
    rewrite part_set_amount, part_amount, !decide_False by congruence. fold (delegated_to b ds1).
    rewrite Ho by done. lia.
  - eapply grown_trans; [exact Hg|]. assert (0 ≤ pool - g) as Hpg by lia. clear -Hi Hsat Hpg. revert i Hi.
    induction ds1 as [|e l IH]; intros [|i] Hi; cbn in *; try done.
    + injection Hi as ->. constructor; [|apply grown_refl]. split; [done|]. cbn. lia.
    + constructor; [split; [done|lia]|auto].
Qed.

Lemma reward_validator_spec vs ds t info v :
  val_ok info → 0 ≤ info.(delegated_amount) →
  info.(staked_amount) + info.(delegated_amount) ≤ T →
  delegated_to info.(address) ds = info.(delegated_amount) →
  find_first (is_validator info.(address)) vs = Some v → v.(is_active) = info.(is_active) →
  0 ≤ v.(staked_amount) < 2 ^ 126 →
  Forall (λ d, 0 ≤ d.(amount)) ds → sum_of amount ds < 2 ^ 126 → 0 ≤ t ≤ R →
  ∃ vs' ds' g, reward_validator R T (vs, ds, t) info = (vs', ds', t + g) ∧ iteration_ok info vs vs' ds ds' g.
Proof.
  intros (Hst & Hrate & _) Hdel Hle Hto Hv Hact Hvs Hds Hsum Ht. unfold reward_validator.
  destruct (info.(is_active)) eqn:Ea; cbn [negb]; [|exists vs, ds, 0; rewrite Z.add_0_r; split; [done|apply iteration_skip; lia]].
  assert (saturating_add U128_MAX info.(staked_amount) info.(delegated_amount)
    = info.(staked_amount) + info.(delegated_amount)) as -> by ulia.
  assert (0 ≤ info.(staked_amount) + info.(delegated_amount)) by lia.
  set (S := info.(staked_amount) + info.(delegated_amount)) in *.
  destruct (S =? 0) eqn:E0; clean_ints; [exists vs, ds, 0; rewrite Z.add_0_r; split; [done|apply iteration_skip; lia]|].
  rewrite (mul_div_share R S T) by lia. destruct (share_bounds R S T) as [? ?]; [lia..|].
  set (W := R * S / T) in *. rewrite (mul_div_rate W) by ulia.
  destruct (share_bounds W info.(commission_rate) 10000) as [? _]; [lia..|].
  set (c := W * info.(commission_rate) / 10000) in *. rewrite Hv.
  assert (saturating_sub W c = W - c) as -> by ulia.
  assert (saturating_add U128_MAX v.(staked_amount) c = v.(staked_amount) + c) as -> by ulia.
  assert (saturating_add U128_MAX t c = t + c) as -> by ulia.
  assert (sum_of staked_amount (alter_first (is_validator info.(address)) (set_staked (v.(staked_amount) + c)) vs)
    = sum_of staked_amount vs + c) as Hsv by (rewrite (sum_of_alter_first _ _ _ _ v) by done; cbn; lia).
  pose proof (rewarded_alter _ (v.(staked_amount) + c) vs v Hv ltac:(lia) Hact) as Hrw.
  destruct ((0 <? info.(delegated_amount)) && (0 <? W - c)) eqn:Ep.
  2: { eexists _, ds, c. split; [done|]. split_and!; try done; [lia|nia|lia|apply grown_refl]. }
  clean_ints. destruct (credit_delegations _ _ _ _ _ _ _ ds) as [[[ds1 dist] t1] last] eqn:Ec.
  apply credit_all in Ec
    as (i & d & ds2 & -> & ? & -> & _ & Eds2 & Hs1 & Hs2 & Ho & Hg1 & Hg2); [|done || lia..].
  assert (saturating_sub (W - c) dist = W - c - dist) as -> by ulia. rewrite <- Eds2.
  destruct (0 <? W - c - dist) eqn:Er; clean_ints.
  - assert (saturating_add U128_MAX (t + c + dist) (W - c - dist) = t + W) as -> by ulia.
    eexists _, ds2, W. split; [done|]. split_and!; try done; try lia. intros b Hb. by apply Ho.
  - replace (t + c + dist) with (t + W) by lia. eexists _, ds1, W. split; [done|]. split_and!; try done; try lia. intros b Hb. by apply Ho.
Qed.
End reward.

(** ** The whole distribution *)

Lemma rewarded_address vs vs' : Forall2 rewarded vs vs' → address <$> vs' = address <$> vs.
Proof. induction 1 as [|? ? ? ? (x & -> & _) _ IH]; cbn; [done|]. by rewrite IH. Qed.

Lemma rewarded_find a vs vs' v :
  Forall2 rewarded vs vs' → find_first (is_validator a) vs = Some v →
  ∃ v', find_first (is_validator a) vs' = Some v' ∧ rewarded v v'.
Proof.
  induction 1 as [|w w' l l' (x & -> & Hx) _ IH]; cbn; [done|].
  change (is_validator a (set_staked x w)) with (is_validator a w).
  destruct (is_validator a w); [|done]. intros [= ->]. eexists. split; [done|]. by exists x.
Qed.

Lemma grown_nonneg ds ds' :
  Forall2 grown ds ds' → Forall (λ d, 0 ≤ d.(amount)) ds → Forall (λ d, 0 ≤ d.(amount)) ds'.
Proof. induction 1 as [|? ? ? ? [_ ?] _ IH]; intros Hn; inversion Hn; subst; constructor; [lia|auto]. Qed.

Lemma rewarded_nonneg vs vs' :
  Forall2 rewarded vs vs' → Forall (λ v, 0 ≤ v.(staked_amount)) vs → Forall (λ v, 0 ≤ v.(staked_amount)) vs'.
Proof.
  induction 1 as [|? ? ? ? (y & -> & Hy & _) _ IH]; intros Hn; inversion Hn; subst; constructor; [cbn; lia|auto].
Qed.

Section distribution.
Context (s : StakingState) (R : Z).
Hypothesis Hinv : staking_inv s.
Hypothesis HR : 0 ≤ R < 2 ^ 125.
Hypothesis HT : 0 < s.(total_staked) < 2 ^ 125.

Definition weight (v : Validator) : Z := v.(staked_amount) + v.(delegated_amount).

Lemma delegated_nonneg v : v ∈ s.(validators) → 0 ≤ v.(delegated_amount).
Proof.
  intros Hv. pose proof (sinv_sync s Hinv) as Hs. rewrite Forall_forall in Hs. rewrite (Hs v Hv).
  apply delegated_to_bounds, (amounts_nonneg s Hinv).
Qed.

(** The delegations to distinct validators are at most all delegations. *)
Lemma delegated_to_disjoint (l : list Address) ds :
  NoDup l → Forall (λ d, 0 ≤ d.(amount)) ds → sum_of (λ a, delegated_to a ds) l ≤ sum_of amount ds.
Proof.
  intros Hl. induction 1 as [|d ds Hd Hds IH].
  - clear. induction l as [|a l IH]; [done|]. rewrite sum_of_cons. change (delegated_to a []) with 0. done.
  - rewrite sum_of_cons.
    assert (sum_of (λ a, delegated_to a (d :: ds)) l =
      sum_of (λ a, part a d) l + sum_of (λ a, delegated_to a ds) l) as -> by by rewrite <- sum_of_add.
    assert (sum_of (λ a, part a d) l ≤ d.(amount)); [|lia].
    clear IH. induction Hl as [|a l Ha Hl IH]; [done|]. rewrite sum_of_cons, part_amount.
    case_decide as Hda; [|lia]. subst. rewrite (sum_of_ext _ (λ _, 0)).
    + assert (sum_of (λ _, 0) l = 0) as ->; [clear; induction l; [done|rewrite sum_of_cons; lia]|lia].
    + apply Forall_forall. intros b Hb. rewrite part_amount, decide_False; [done|].
      intros E. apply Ha. by rewrite E.
Qed.

Lemma weights_le_total : sum_of weight s.(validators) ≤ s.(total_staked).
Proof.
  unfold weight. rewrite sum_of_add, (sinv_total s Hinv). unfold actual_stake, bonded, delegated.
  pose proof (delegated_to_disjoint (address <$> s.(validators)) s.(delegations) (sinv_addr s Hinv)
    (amounts_nonneg s Hinv)) as Hle.
  rewrite (sum_of_ext delegated_amount (λ v, delegated_to v.(address) s.(delegations))) by apply Hinv.
  assert (sum_of (λ a, delegated_to a s.(delegations)) (address <$> s.(validators)) =
    sum_of (λ v, delegated_to v.(address) s.(delegations)) s.(validators)) as E.
  { unfold sum_of. by rewrite <- list_fmap_compose. }
  lia.
Qed.

Lemma le_by_weight t w T : 0 < T → t * T ≤ R * w → w ≤ T → t ≤ R.
Proof.
  intros HT0 Htw Hw. apply (Z.mul_le_mono_pos_r t R T); [done|].
  etransitivity; [exact Htw|]. apply Z.mul_le_mono_nonneg_l; lia.
Qed.

(** The loop: [infos] are the validators still to visit. *)
Lemma distribute_loop infos vs ds t done_weight :
  NoDup (address <$> infos) → (∀ v, v ∈ infos → v ∈ s.(validators)) →
  Forall2 rewarded s.(validators) vs → Forall2 grown s.(delegations) ds →
  sum_of staked_amount vs + sum_of amount ds = actual_stake s + t →
  0 ≤ t → t * s.(total_staked) ≤ R * done_weight → done_weight + sum_of weight infos ≤ s.(total_staked) →
  0 ≤ done_weight → (∀ v, v ∈ infos → delegated_to v.(address) ds = v.(delegated_amount)) →
  ∃ vs' ds' t', foldl (reward_validator R s.(total_staked)) (vs, ds, t) infos = (vs', ds', t') ∧
    Forall2 rewarded s.(validators) vs' ∧ Forall2 grown s.(delegations) ds' ∧
    sum_of staked_amount vs' + sum_of amount ds' = actual_stake s + t' ∧ 0 ≤ t' ≤ R.
Proof.
  revert vs ds t done_weight. induction infos as [|info infos IH]; intros vs ds t dw Hnd Hin Hvs Hds Hsum Ht Htw Hw Hdw Hto;
    cbn [foldl].
  - exists vs, ds, t. change (sum_of weight []) with 0 in Hw. split_and!; try done.
    apply (le_by_weight t dw s.(total_staked)); lia.
  - rewrite fmap_cons in Hnd. apply NoDup_cons in Hnd as [Hninfo Hnd]. rewrite sum_of_cons in Hw.
    pose proof (Hin info (list_elem_of_here _ _)) as Hinfo.
    pose proof (sinv_val s Hinv) as Hval. rewrite Forall_forall in Hval.
    pose proof (Hval info Hinfo) as Hok. pose proof (delegated_nonneg info Hinfo) as Hdn.
    assert (0 ≤ sum_of weight infos) as Hwn.
    { apply sum_of_nonneg, Forall_forall. intros w Hwi. specialize (Hin w (list_elem_of_further _ _ _ Hwi)).
      pose proof (delegated_nonneg w Hin). pose proof (Hval w Hin) as (? & _). unfold weight. lia. }
    destruct (find_first (is_validator info.(address)) s.(validators)) as [v0|] eqn:Hv0.
    2: { apply find_first_None in Hv0. rewrite Forall_forall in Hv0. specialize (Hv0 info Hinfo).
         apply not_true_iff_false in Hv0. by rewrite is_validator_iff in Hv0. }
    assert (info = v0) as <-.
    { apply (find_first_unique address info.(address) _ (is_validator_iff _) _ _ _ (sinv_addr s Hinv) Hv0 Hinfo).
      by apply is_validator_iff. }
    destruct (rewarded_find _ _ _ _ Hvs Hv0) as (v & Hv & x & -> & Hx & _).
    pose proof (grown_nonneg _ _ Hds (amounts_nonneg s Hinv)) as Hpos. pose proof (sum_of_nonneg _ _ Hpos).
    destruct Hok as (Hok1 & Hok2). unfold weight in *.
    assert (t ≤ R) by (apply (le_by_weight t dw s.(total_staked)); lia).
    pose proof (rewarded_nonneg _ _ Hvs (stakes_nonneg s Hinv)) as Hvpos.
    pose proof (sum_of_elem _ _ _ Hvpos (proj1 (find_first_Some _ _ _ Hv))) as Hvle. cbn in Hvle.
    pose proof (sum_of_nonneg _ _ Hvpos). pose proof (sinv_total s Hinv) as Htot.
    destruct (reward_validator_spec R s.(total_staked) HR HT vs ds t info (set_staked x info))
      as (vs' & ds' & g & -> & Hg0 & Hgw & Hgs & Ho & Hrw & Hgr); [by split|lia|nia|by apply Hto; left|done|done|cbn; lia|done|lia|lia|].
    apply (IH vs' ds' (t + g) (dw + (info.(staked_amount) + info.(delegated_amount)))); try done; try nia.
    + intros w Hwi. apply Hin. by right.
    + by eapply rewarded_trans.
    + by eapply grown_trans.
    + intros w Hwi. rewrite Ho.
      * apply Hto. by right.
      * intros E. apply Hninfo. rewrite <- E. by apply list_elem_of_fmap_2.
Qed.
End distribution.

(** When each validator's [delegated_amount] is the sum of its delegations, a
    distribution adds no more than the epoch's rewards, lowers nobody's stake,
    gives nothing to an inactive validator, and keeps [total_staked] equal to
    the stake. *)
Theorem distribute_rewards_bounded (s : StakingState) (epoch_rewards : Z) :
  staking_inv s → 0 ≤ epoch_rewards < 2 ^ 125 → s.(total_staked) < 2 ^ 125 →
  let s' := distribute_rewards epoch_rewards s in
  s'.(total_staked) = actual_stake s' ∧
  actual_stake s ≤ actual_stake s' ≤ actual_stake s + epoch_rewards ∧
  Forall2 rewarded s.(validators) s'.(validators) ∧ Forall2 grown s.(delegations) s'.(delegations).
Proof.
  intros Hi HR HT. unfold distribute_rewards. pose proof (sinv_total s Hi) as Htot.
  pose proof (inv_bounds s Hi) as (? & ? & ?).
  destruct ((s.(total_staked) =? 0) || (epoch_rewards =? 0)) eqn:E.
  { cbn. split_and!; [done|lia|lia|apply rewarded_refl|apply grown_refl]. }
  clean_ints. assert (0 < s.(total_staked) < 2 ^ 125) as HT' by (unfold actual_stake in *; lia).
  destruct (distribute_loop s epoch_rewards Hi HR HT' s.(validators) s.(validators) s.(delegations) 0 0)
    as (vs & ds & t & -> & Hvs & Hds & Hsum & Ht).
  - apply Hi.
  - done.
  - apply rewarded_refl.
  - apply grown_refl.
  - unfold actual_stake, bonded, delegated. lia.
  - lia.
  - lia.
  - pose proof (weights_le_total s Hi). lia.
  - lia.
  - intros v Hv. pose proof (sinv_sync s Hi) as Hs. rewrite Forall_forall in Hs. by rewrite (Hs v Hv).
  - assert (saturating_add U128_MAX s.(total_staked) t = s.(total_staked) + t) as -> by ulia.
    unfold actual_stake at 1 3 4, bonded, delegated. cbn. rewrite Hsum. split_and!; try done; lia.
Qed.

(** Unbonding moves stake into the queue without loss, and the queue pays the
    entry out in full at the first completion at least 100,800 slots later
    and not before. *)
Theorem unbond_then_complete (caller d a : Address) (x slot slot' : Z) (s s1 : StakingState) :
  staking_inv s → 0 ≤ x → slot + UNBONDING_SLOTS ≤ U64_MAX →
  unbond caller d a x slot s = (s1, Ok tt) →
  let '(s2, paid) := complete_unbonding slot' s1 in
  actual_stake s1 + pending s1 = actual_stake s + pending s ∧
  actual_stake s1 = actual_stake s - x ∧
  paid = (complete_unbonding slot' s).2 ++ (if slot + UNBONDING_SLOTS <=? slot' then [(d, x)] else []) ∧
  pending s2 + sum_of snd paid = pending s1.
Proof.
  intros Hi Hx Hslot Hu. apply unbond_cases in Hu as [[_ ?]|(_ & _ & Hact & Hq)]; [done| |done..].
  unfold complete_unbonding, pending. cbn. rewrite Hq. split_and!.
  - rewrite sum_of_app, sum_of_cons. cbn. change (sum_of unb_amount []) with 0. lia.
  - done.
  - unfold retain. rewrite filter_app, fmap_app. f_equal. rewrite filter_cons, filter_nil. unfold due at 1. cbn.
    case_decide as Hc; [by rewrite Hc|]. apply not_true_is_false in Hc. by rewrite Hc.
  - set (l := s.(unbonding) ++ _). clearbody l. clear. induction l as [|u l IH]; [done|].
    unfold retain in *. rewrite !filter_cons, sum_of_cons.
    destruct (due slot' u) eqn:E; cbn [negb].
    + rewrite decide_False, decide_True by done. rewrite fmap_cons, sum_of_cons. cbn [snd]. lia.
    + rewrite decide_True, decide_False by done. rewrite sum_of_cons. lia.
Qed.

(** ** Where the accounting is wrong *)

Definition staked_validator : StakingState :=
  mkStakingState 100001000 [mkValidator 1 100000000 1000 0 1 true None 0]
    [mkDelegation 2 1 1000 0] [] 0 0.

Lemma staked_validator_inv : staking_inv staked_validator.
Proof.
  constructor; cbn.
  - apply NoDup_singleton.
  - apply Forall_singleton. by vm_compute.
  - apply NoDup_singleton.
  - apply Forall_singleton. split; [done|]. eexists. split; [left|done].
  - constructor.
  - apply Forall_singleton. done.
  - done.
  - by vm_compute.
Qed.

(** [distribute_rewards] credits the delegations and not the validator's
    [delegated_amount]; when the delegator then unbonds everything, the
    delegation is removed, the subtraction from [delegated_amount] underflows
    and the call returns [Err]: the delegation is gone and nothing was queued. *)
Lemma unbond_after_rewards_destroys_delegation :
  let s := distribute_rewards 200002000 staked_validator in
  s.(delegations) = [mkDelegation 2 1 200003000 0] ∧
  (unbond 2 2 1 200003000 0 s).2 = Err Overflow ∧
  (unbond 2 2 1 200003000 0 s).1.(delegations) = [] ∧
  (unbond 2 2 1 200003000 0 s).1.(unbonding) = [].
Proof. split_and!; vm_compute; reflexivity. Qed.

(** For the same reason a later distribution pays out more than the epoch's
    rewards. *)
Lemma rewards_exceed_epoch :
  let s := distribute_rewards 200002000 staked_validator in
  actual_stake (distribute_rewards 300003000 s) - actual_stake s > 10000 * 300003000.
Proof. vm_compute. reflexivity. Qed.

(** A slash subtracts what it takes from the unbonding queue from
    [total_staked], which [unbond] had already left it: [total_staked] falls
    below the stake. *)
Lemma slash_total_drifts :
  let s := (unbond 2 2 1 1000 0 staked_validator).1 in
  staked_validator.(total_staked) = actual_stake staked_validator ∧ s.(total_staked) = actual_stake s ∧
  let t := (slash 1 5000 0 s).1 in t.(total_staked) = actual_stake t - 500.
Proof. split_and!; vm_compute; reflexivity. Qed.

(** A validator without delegators receives its commission only; the rest of
    its share is given to nobody. *)
Lemma solo_validator_share_lost :
  let s := mkStakingState 100000000 [mkValidator 1 100000000 0 1000 1 true None 0] [] [] 0 0 in
  actual_stake (distribute_rewards 1000 s) = actual_stake s + 100.
Proof. vm_compute. reflexivity. Qed.

(** The limits of the invariant: a registration that overflows
    [total_staked] returns [Err] with the validator in the set, and an unbonding
    whose end overflows returns [Err] with the delegation gone and nothing
    queued. *)
Lemma overflowing_register_keeps_validator :
  let s := (register_validator 1 1 (2 ^ 127) 0 1 (mkStakingState 0 [] [] [] 0 0)).1 in
  (register_validator 2 2 (2 ^ 127) 0 2 s).2 = Err Overflow ∧
  let t := (register_validator 2 2 (2 ^ 127) 0 2 s).1 in
  t.(total_staked) = 2 ^ 127 ∧ actual_stake t = 2 ^ 128 ∧ ¬ staking_inv t.
Proof.
  cbv zeta. split_and!; [vm_compute; reflexivity..|]. intros Hi. pose proof (sinv_total _ Hi) as Ht.
  vm_compute in Ht. discriminate.
Qed.

Lemma overflowing_unbond_destroys_delegation :
  (unbond 2 2 1 1000 U64_MAX staked_validator).2 = Err Overflow ∧
  (unbond 2 2 1 1000 U64_MAX staked_validator).1.(delegations) = [] ∧
  (unbond 2 2 1 1000 U64_MAX staked_validator).1.(unbonding) = [].
Proof. split_and!; vm_compute; reflexivity. Qed.

(** ** Witnesses *)

Lemma exec_staking_inv_witness :
  staking_inv (exec (Unbond 2 2 1 400 7) staked_validator) ∧
  (exec (Unbond 2 2 1 400 7) staked_validator).(total_staked) = 100000600.
Proof.
  split; [|vm_compute; reflexivity].
  apply (exec_staking_inv (Unbond 2 2 1 400 7) staked_validator staked_validator_inv).
  cbn. split; [lia|vm_compute; congruence].
Defined.

Lemma slash_exact_witness : ∃ s', slash 1 500 9 staked_validator = (s', Ok 5000050) ∧
  actual_stake s' + pending s' = 100001000 - 5000050.
Proof.
  destruct (slash_exact 1 500 9 staked_validator (mkValidator 1 100000000 1000 0 1 true None 0)
    staked_validator_inv) as (s' & E & _ & _ & _ & _ & _ & Hsum);
    [lia|vm_compute; congruence|vm_compute; reflexivity|].
  exists s'. split; [rewrite E; vm_compute; reflexivity|rewrite Hsum; vm_compute; reflexivity].
Defined.

Lemma distribute_rewards_bounded_witness :
  (distribute_rewards 200002000 staked_validator).(total_staked) = 100001000 + 200002000 ∧
  actual_stake (distribute_rewards 200002000 staked_validator) ≤ actual_stake staked_validator + 200002000.
Proof.
  split; [vm_compute; reflexivity|].
  destruct (distribute_rewards_bounded staked_validator 200002000 staked_validator_inv) as (_ & [_ H] & _);
    [lia|reflexivity|exact H].
Defined.

Lemma unbond_then_complete_witness :
  ∃ s1, unbond 2 2 1 400 7 staked_validator = (s1, Ok tt) ∧
  (complete_unbonding 100806 s1).2 = [] ∧ (complete_unbonding 100807 s1).2 = [(2%N, 400)].
Proof.
  eexists. split; [vm_compute; reflexivity|].
  pose proof (unbond_then_complete 2 2 1 400 7 100806 staked_validator _ staked_validator_inv
    ltac:(lia) ltac:(vm_compute; congruence) ltac:(vm_compute; reflexivity)) as (_ & _ & H1 & _).
  pose proof (unbond_then_complete 2 2 1 400 7 100807 staked_validator _ staked_validator_inv
    ltac:(lia) ltac:(vm_compute; congruence) ltac:(vm_compute; reflexivity)) as (_ & _ & H2 & _).
  split; [exact H1|exact H2].
Defined.

End StakingRewards.
