(* ===== verification/Governance.v ===== *)
(** * Governance program

    [crates/programs/governance/src/lib.rs]: proposals, votes weighted by a
    power snapshot, liquid delegation, conviction voting, the treasury. The
    order in which a [HashMap] is iterated is the argument [iter]. *)

From S2P Require Import Prelude.

Module Governance.

Inductive ProposalStatus : Type := Active | Passed | Failed | Executed | Cancelled.

#[global] Instance ProposalStatus_eq_dec : EqDecision ProposalStatus.
Proof. solve_decision. Defined.

Inductive ProposalType : Type :=
| ParameterChange (parameter : string) (value : Z)
| ProtocolUpgrade (code_hash : H256)
| TreasuryAllocation (recipient : Address) (amount : Z)
| EmergencyAction (action : string).

Record Proposal := mkProposal {
  proposal_id : H256;
  proposer : Address;
  proposal_type : ProposalType;
  description : string;
  votes_for : Z;
  votes_against : Z;
  status : ProposalStatus;
  start_slot : Z;
  end_slot : Z;
  execution_slot : option Z;
  voters : gmap Address bool;
  power_snapshot : gmap Address Z
}.

Definition set_votes f a p := mkProposal p.(proposal_id) p.(proposer) p.(proposal_type) p.(description) f a p.(status) p.(start_slot) p.(end_slot) p.(execution_slot) p.(voters) p.(power_snapshot).
Definition set_status v p := mkProposal p.(proposal_id) p.(proposer) p.(proposal_type) p.(description) p.(votes_for) p.(votes_against) v p.(start_slot) p.(end_slot) p.(execution_slot) p.(voters) p.(power_snapshot).
Definition set_execution_slot v p := mkProposal p.(proposal_id) p.(proposer) p.(proposal_type) p.(description) p.(votes_for) p.(votes_against) p.(status) p.(start_slot) p.(end_slot) v p.(voters) p.(power_snapshot).
Definition set_voters v p := mkProposal p.(proposal_id) p.(proposer) p.(proposal_type) p.(description) p.(votes_for) p.(votes_against) p.(status) p.(start_slot) p.(end_slot) p.(execution_slot) v p.(power_snapshot).

Record GovernanceState := mkGovernanceState {
  proposals : gmap H256 Proposal;
  voting_power : gmap Address Z;
  delegations : gmap Address Address;
  effective_power : gmap Address Z;
  min_proposal_stake : Z;
  quorum_percentage : Z;
  voting_period_slots : Z;
  timelock_slots : Z;
  total_voting_power : Z;
  treasury_balance : Z
}.

Definition set_proposals v s := mkGovernanceState v s.(voting_power) s.(delegations) s.(effective_power) s.(min_proposal_stake) s.(quorum_percentage) s.(voting_period_slots) s.(timelock_slots) s.(total_voting_power) s.(treasury_balance).
Definition set_power vp total s := mkGovernanceState s.(proposals) vp s.(delegations) s.(effective_power) s.(min_proposal_stake) s.(quorum_percentage) s.(voting_period_slots) s.(timelock_slots) total s.(treasury_balance).
Definition set_delegations v s := mkGovernanceState s.(proposals) s.(voting_power) v s.(effective_power) s.(min_proposal_stake) s.(quorum_percentage) s.(voting_period_slots) s.(timelock_slots) s.(total_voting_power) s.(treasury_balance).
Definition set_effective v s := mkGovernanceState s.(proposals) s.(voting_power) s.(delegations) v s.(min_proposal_stake) s.(quorum_percentage) s.(voting_period_slots) s.(timelock_slots) s.(total_voting_power) s.(treasury_balance).
Definition set_treasury v s := mkGovernanceState s.(proposals) s.(voting_power) s.(delegations) s.(effective_power) s.(min_proposal_stake) s.(quorum_percentage) s.(voting_period_slots) s.(timelock_slots) s.(total_voting_power) v.

Definition new : GovernanceState :=
  mkGovernanceState ∅ ∅ ∅ ∅ 1000000000000 20 100800 96000 0 0.

Abbreviation op_result := (M GovernanceState error).

Definition get_proposal (id : H256) (s : GovernanceState) : option Proposal := s.(proposals) !! id.
Definition effective_voting_power (a : Address) (s : GovernanceState) : Z :=
  default 0 (s.(effective_power) !! a).

(** A write through [self.proposals.get_mut(&id)]. *)
Definition update_proposal (f : Proposal → Proposal) (id : H256) (s : GovernanceState) : GovernanceState :=
  set_proposals (alter f id s.(proposals)) s.

Definition propose (id : H256) (who : Address) (ty : ProposalType) (desc : string) (current_slot : Z) :
    op_result unit :=
  s ← get_state;
  bail_if (default 0 (s.(voting_power) !! who) <? s.(min_proposal_stake)) (Msg "insufficient voting power");;
  bail_if (bool_decide (is_Some (s.(proposals) !! id))) (Msg "proposal already exists");;
  end_ ← ok_or (checked_add U64_MAX current_slot s.(voting_period_slots))
    (Msg "slot overflow in voting period calculation");
  modify (λ s, set_proposals (<[id := mkProposal id who ty desc 0 0 Active current_slot end_ None ∅
                                        s.(effective_power)]> s.(proposals)) s).

(** The tail shared by [vote] and [vote_with_conviction]: record the voter,
    add the weight to one side. *)
Definition record_vote (id : H256) (voter : Address) (vote_for : bool) (weight : Z) (p : Proposal) :
    op_result unit :=
  modify (update_proposal (λ p, set_voters (<[voter := vote_for]> p.(voters)) p) id);;
  if vote_for then
    f ← ok_or (checked_add U128_MAX p.(votes_for) weight) (Msg "votes_for overflow");
    modify (update_proposal (λ p, set_votes f p.(votes_against) p) id)
  else
    a ← ok_or (checked_add U128_MAX p.(votes_against) weight) (Msg "votes_against overflow");
    modify (update_proposal (λ p, set_votes p.(votes_for) a p) id).

Definition vote (id : H256) (voter : Address) (vote_for : bool) (current_slot : Z) : op_result unit :=
  s ← get_state;
  p ← ok_or (s.(proposals) !! id) (Msg "proposal not found");
  bail_if (bool_decide (p.(status) ≠ Active)) (Msg "proposal not active");;
  bail_if ((current_slot <? p.(start_slot)) || (p.(end_slot) <? current_slot)) (Msg "not in voting period");;
  bail_if (bool_decide (is_Some (p.(voters) !! voter))) (Msg "already voted");;
  let power := default 0 (p.(power_snapshot) !! voter) in
  bail_if (power =? 0) (Msg "no voting power (at proposal creation time)");;
  record_vote id voter vote_for power p.

Definition conviction_multiplier (lock_slots : Z) (s : GovernanceState) : Z :=
  1 + Z.min (lock_slots / Z.max s.(voting_period_slots) 1) 5.

Definition vote_with_conviction (id : H256) (voter : Address) (vote_for : bool)
    (lock_slots current_slot : Z) : op_result unit :=
  s ← get_state;
  let multiplier := conviction_multiplier lock_slots s in
  p ← ok_or (s.(proposals) !! id) (Msg "proposal not found");
  bail_if (bool_decide (p.(status) ≠ Active)) (Msg "proposal not active");;
  bail_if ((current_slot <? p.(start_slot)) || (p.(end_slot) <? current_slot)) (Msg "not in voting period");;
  bail_if (bool_decide (is_Some (p.(voters) !! voter))) (Msg "already voted");;
  let base_power := default 0 (p.(power_snapshot) !! voter) in
  bail_if (base_power =? 0) (Msg "no voting power (at proposal creation time)");;
  weighted ← ok_or (checked_mul U128_MAX base_power multiplier) (Msg "weighted vote power overflow");
  record_vote id voter vote_for weighted p.

Definition finalize (id : H256) (current_slot : Z) : op_result unit :=
  s ← get_state;
  p ← ok_or (s.(proposals) !! id) (Msg "proposal not found");
  bail_if (bool_decide (p.(status) ≠ Active)) (Msg "proposal not active");;
  bail_if (current_slot <=? p.(end_slot)) (Msg "voting period not ended");;
  bail_if (100 <? s.(quorum_percentage)) (Fmt "quorum_percentage exceeds 100" [s.(quorum_percentage)]);;
  total_votes ← ok_or (checked_add U128_MAX p.(votes_for) p.(votes_against)) (Msg "total_votes overflow");
  scaled ← ok_or (checked_mul U128_MAX s.(total_voting_power) s.(quorum_percentage))
    (Msg "quorum threshold overflow");
  let quorum_threshold := scaled / 100 in
  bail_if (quorum_threshold =? 0) (Msg "quorum is zero: no voting power registered");;
  if total_votes <? quorum_threshold then modify (update_proposal (set_status Failed) id)
  else if p.(votes_against) <? p.(votes_for) then
    modify (update_proposal (set_status Passed) id);;
    e ← ok_or (checked_add U64_MAX current_slot s.(timelock_slots))
      (Msg "slot overflow in timelock calculation");
    modify (update_proposal (set_execution_slot (Some e)) id)
  else modify (update_proposal (set_status Failed) id).

Definition execute (id : H256) (current_slot : Z) : op_result ProposalType :=
  s ← get_state;
  p ← ok_or (s.(proposals) !! id) (Msg "proposal not found");
  bail_if (bool_decide (p.(status) ≠ Passed)) (Msg "proposal not passed");;
  match p.(execution_slot) with
  | Some e => bail_if (current_slot <? e) (Msg "timelock not expired")
  | None => mthrow (Msg "execution slot not set")
  end;;
  modify (update_proposal (set_status Executed) id);;
  mret p.(proposal_type).

Definition cancel (id : H256) (caller : Address) : op_result unit :=
  s ← get_state;
  p ← ok_or (s.(proposals) !! id) (Msg "proposal not found");
  bail_if (negb (caller =? p.(proposer))%N) (Msg "not proposer");;
  bail_if (bool_decide (p.(status) ≠ Active)) (Msg "cannot cancel proposal");;
  modify (update_proposal (set_status Cancelled) id).

(** One iteration of the loop of [recompute_effective_power]. *)
Definition move_power (vp : gmap Address Z) (effective : gmap Address Z) (x : Address * Address) :
    gmap Address Z :=
  let '(delegator, delegate) := x in
  let power := default 0 (vp !! delegator) in
  if 0 <? power then
    let effective := <[delegator := 0]> effective in
    <[delegate := saturating_add U128_MAX (default 0 (effective !! delegate)) power]> effective
  else effective.

Section iteration_order.
(** The order in which [&self.delegations] is iterated. *)
Variable iter : gmap Address Address → list (Address * Address).

Definition recompute_effective_power (s : GovernanceState) : GovernanceState :=
  set_effective (foldl (move_power s.(voting_power)) s.(voting_power) (iter s.(delegations))) s.

Definition update_voting_power (account : Address) (power : Z) : op_result unit :=
  s ← get_state;
  let old_power := default 0 (s.(voting_power) !! account) in
  rest ← ok_or (checked_sub s.(total_voting_power) old_power) (Msg "total_voting_power underflow");
  total ← ok_or (checked_add U128_MAX rest power) (Msg "total_voting_power overflow");
  modify (λ s, set_power (<[account := power]> s.(voting_power)) total s);;
  modify recompute_effective_power.

Definition delegate (delegator to : Address) : op_result unit :=
  s ← get_state;
  bail_if (delegator =? to)%N (Msg "cannot delegate to self");;
  bail_if (bool_decide (is_Some (s.(delegations) !! to)))
    (Msg "delegate is already delegating to someone else (no chains)");;
  bail_if (existsb (λ x : Address * Address, (x.2 =? delegator)%N) (iter s.(delegations)))
    (Msg "delegator already receives delegations from others (no chains)");;
  modify (λ s, set_delegations (<[delegator := to]> s.(delegations)) s);;
  modify recompute_effective_power.

Definition undelegate (delegator : Address) : op_result unit :=
  s ← get_state;
  bail_if (bool_decide (s.(delegations) !! delegator = None)) (Msg "no active delegation");;
  modify (λ s, set_delegations (delete delegator s.(delegations)) s);;
  modify recompute_effective_power.

Definition deposit_treasury (amount : Z) : op_result unit :=
  s ← get_state;
  b ← ok_or (checked_add U128_MAX s.(treasury_balance) amount) (Msg "treasury overflow");
  modify (set_treasury b).

Definition execute_treasury_allocation (recipient : Address) (amount : Z) : op_result (Address * Z) :=
  s ← get_state;
  bail_if (s.(treasury_balance) <? amount)
    (Fmt "insufficient treasury balance" [s.(treasury_balance); amount]);;
  b ← ok_or (checked_sub s.(treasury_balance) amount) (Msg "treasury underflow");
  modify (set_treasury b);;
  mret (recipient, amount).

(** The program's calls. *)
Inductive op : Type :=
| Propose (id : H256) (who : Address) (ty : ProposalType) (desc : string) (slot : Z)
| Vote (id : H256) (voter : Address) (vote_for : bool) (slot : Z)
| VoteWithConviction (id : H256) (voter : Address) (vote_for : bool) (lock slot : Z)
| Finalize (id : H256) (slot : Z)
| Execute (id : H256) (slot : Z)
| Cancel (id : H256) (caller : Address)
| UpdateVotingPower (account : Address) (power : Z)
| DelegateTo (delegator to : Address)
| Undelegate (delegator : Address)
| DepositTreasury (amount : Z)
| ExecuteTreasury (recipient : Address) (amount : Z).

Definition exec (o : op) (s : GovernanceState) : GovernanceState * bool :=
  match o with
  | Propose id w t d sl => let '(s', r) := propose id w t d sl s in (s', is_ok r)
  | Vote id v f sl => let '(s', r) := vote id v f sl s in (s', is_ok r)
  | VoteWithConviction id v f l sl => let '(s', r) := vote_with_conviction id v f l sl s in (s', is_ok r)
  | Finalize id sl => let '(s', r) := finalize id sl s in (s', is_ok r)
  | Execute id sl => let '(s', r) := execute id sl s in (s', is_ok r)
  | Cancel id c => let '(s', r) := cancel id c s in (s', is_ok r)
  | UpdateVotingPower a p => let '(s', r) := update_voting_power a p s in (s', is_ok r)
  | DelegateTo d t => let '(s', r) := delegate d t s in (s', is_ok r)
  | Undelegate d => let '(s', r) := undelegate d s in (s', is_ok r)
  | DepositTreasury a => let '(s', r) := deposit_treasury a s in (s', is_ok r)
  | ExecuteTreasury r a => let '(s', r) := execute_treasury_allocation r a s in (s', is_ok r)
  end.

End iteration_order.


(** ** Liquid delegation *)

Section effective.
Context (vp : gmap Address Z).
Hypothesis vp_nonneg : map_Forall (λ _ x, 0 ≤ x) vp.
Hypothesis vp_total : map_total vp ≤ U128_MAX.

Definition power (a : Address) : Z := default 0 (vp !! a).

Lemma power_nonneg a : 0 ≤ power a.
Proof. apply (map_total_lookup vp a vp_nonneg). Qed.

(** What [a] receives from the delegations in [l]. *)
Definition received (l : list (Address * Address)) (a : Address) : Z :=
  sum_of (λ x, if (x.2 =? a)%N then power x.1 else 0) l.

Definition delegates (l : list (Address * Address)) (a : Address) : bool :=
  existsb (λ x : Address * Address, (x.1 =? a)%N) l.

(** The specification of [effective_power]. *)
Definition effective_spec (l : list (Address * Address)) (a : Address) : Z :=
  if delegates l a then 0 else power a + received l a.

(** Distinct delegators, and no delegator is a delegate. *)
Definition no_chains (l : list (Address * Address)) : Prop :=
  NoDup l.*1 ∧ ∀ x y, x ∈ l → y ∈ l → x.1 ≠ y.2.

Lemma received_app l1 l2 a : received (l1 ++ l2) a = received l1 a + received l2 a.
Proof. apply sum_of_app. Qed.

Lemma received_nonneg l a : 0 ≤ received l a.
Proof.
  apply sum_of_nonneg, Forall_forall. intros x _. case_match; [apply power_nonneg|done].
Qed.

Lemma delegates_iff l a : delegates l a = true ↔ a ∈ l.*1.
Proof.
  unfold delegates. rewrite existsb_exists, list_elem_of_fmap.
  setoid_rewrite <- list_elem_of_In. setoid_rewrite N.eqb_eq. naive_solver.
Qed.

Lemma received_none l a : (∀ x, x ∈ l → x.2 ≠ a) → received l a = 0.
Proof.
  unfold received. induction l as [|x l IH]; intros Hl; [done|].
  rewrite sum_of_cons, IH by (intros; apply Hl; by right).
  rewrite (proj2 (N.eqb_neq _ _)); [done|]. apply Hl. left.
Qed.

Lemma no_chains_app l x : no_chains (l ++ [x]) → no_chains l ∧ x.1 ∉ l.*1 ∧ x.1 ≠ x.2 ∧
  (∀ y, y ∈ l → y.1 ≠ x.2 ∧ y.2 ≠ x.1).
Proof.
  intros [Hn Hc]. rewrite fmap_app in Hn. apply NoDup_app in Hn as (Hn & Hx & _).
  setoid_rewrite elem_of_app in Hc. setoid_rewrite list_elem_of_singleton in Hc. split_and!.
  - split; [done|]. intros. apply Hc; by left.
  - intros Hin. apply (Hx x.1); [done|]. by apply list_elem_of_singleton.
  - apply Hc; by right.
  - intros y Hy. split; [apply Hc; [by left|by right]|]. intros E.
    apply (Hc x y); [by right|by left|done].
Qed.

(** The loop keeps the total and computes the specification. *)
Lemma move_power_fold l :
  no_chains l →
  let eff := foldl (move_power vp) vp l in
  map_Forall (λ _ x, 0 ≤ x) eff ∧ map_total eff = map_total vp ∧
  ∀ a, default 0 (eff !! a) = effective_spec l a.
Proof.
  induction l as [|x l IH] using rev_ind; intros Hc.
  - cbn. split_and!; [done|done|]. intros a. unfold effective_spec, received, power. cbn.
    change (sum_of _ []) with 0. lia.
  - rewrite foldl_app. cbn [foldl]. apply no_chains_app in Hc as (Hc & Hnew & Hself & Hl).
    destruct (IH Hc) as (Hpos & Htot & Hspec). clear IH.
    set (eff := foldl (move_power vp) vp l) in *. destruct x as [d e]. cbn [fst snd] in *.
    assert (delegates l d = false) as Hdd by (apply not_true_is_false; by rewrite delegates_iff).
    assert (delegates l e = false) as Hde.
    { apply not_true_is_false. rewrite delegates_iff. intros (y & -> & Hy)%list_elem_of_fmap. by destruct (Hl y Hy) as [? _]. }
    assert (default 0 (eff !! d) = power d) as Hd.
    { rewrite Hspec. unfold effective_spec. rewrite Hdd, received_none; [lia|]. intros y Hy. by apply Hl. }
    assert (∀ a, effective_spec (l ++ [(d, e)]) a =
      if (d =? a)%N then 0 else effective_spec l a + (if (e =? a)%N && negb (delegates l a) then power d else 0)) as Hstep.
    { intros a. unfold effective_spec. rewrite received_app. unfold delegates at 1 3. rewrite existsb_app. cbn.
      fold (delegates l a). unfold received at 2. rewrite sum_of_cons. change (sum_of _ []) with 0. cbn.
      destruct (delegates l a), (d =? a)%N, (e =? a)%N; cbn; lia. }
    unfold move_power. fold (power d). destruct (0 <? power d) eqn:Hp; clean_ints.
    + rewrite lookup_insert_ne by done.
      pose proof (map_total_lookup2 eff d e Hpos Hself) as Hle. rewrite Hd in Hle.
      pose proof (map_total_lookup eff e Hpos).
      assert (saturating_add U128_MAX (default 0 (eff !! e)) (power d) = default 0 (eff !! e) + power d) as -> by ulia.
      split_and!.
      * apply map_Forall_insert_2; [lia|]. by apply map_Forall_insert_2.
      * rewrite !map_total_insert, lookup_insert_ne, Hd by done. lia.
      * intros a. rewrite Hstep. destruct (N.eqb_spec d a) as [->|Hda].
        -- rewrite lookup_insert_ne by done. by rewrite lookup_insert_eq.
        -- destruct (N.eqb_spec e a) as [->|Hea]; cbn [andb].
           ++ rewrite lookup_insert_eq, Hde. cbn. by rewrite Hspec.
           ++ rewrite !lookup_insert_ne, Hspec by done. lia.
    + split_and!; [done|done|]. intros a. rewrite Hspec, Hstep. pose proof (power_nonneg d).
      assert (power d = 0) as Hz by lia.
      destruct (N.eqb_spec d a) as [->|Hda]; [|rewrite Hz; case_match; lia].
      rewrite <- Hspec, Hd. lia.
Qed.
End effective.

Lemma delegates_perm l l' a : l ≡ₚ l' → delegates l a = delegates l' a.
Proof. intros Hp. apply eq_true_iff_eq. by rewrite !delegates_iff, Hp. Qed.

Lemma effective_spec_perm vp l l' a : l ≡ₚ l' → effective_spec vp l a = effective_spec vp l' a.
Proof. intros Hp. unfold effective_spec, received. by rewrite (delegates_perm l l' a Hp), Hp. Qed.

Definition chain_free (m : gmap Address Address) : Prop :=
  ∀ d e, m !! d = Some e → m !! e = None.

Lemma chain_free_no_chains m l : chain_free m → l ≡ₚ map_to_list m → no_chains l.
Proof.
  intros Hm Hl. split.
  - rewrite Hl. apply NoDup_fst_map_to_list.
  - intros [d e] [d' e'] Hx Hy. rewrite Hl in Hx, Hy. apply elem_of_map_to_list in Hx, Hy. cbn. intros ->.
    rewrite (Hm _ _ Hy) in Hx. done.
Qed.

(** The effective powers are those of the specification, and none is made or
    lost, whatever order the delegations are visited in. *)
Definition effective_ok (s : GovernanceState) : Prop :=
  map_Forall (λ _ x, 0 ≤ x) s.(effective_power) ∧
  map_total s.(effective_power) = map_total s.(voting_power) ∧
  ∀ a, effective_voting_power a s = effective_spec s.(voting_power) (map_to_list s.(delegations)) a.

Lemma recompute_ok iter s :
  (∀ m, iter m ≡ₚ map_to_list m) → map_Forall (λ _ x, 0 ≤ x) s.(voting_power) →
  map_total s.(voting_power) ≤ U128_MAX → chain_free s.(delegations) →
  effective_ok (recompute_effective_power iter s).
Proof.
  intros Hit Hvp Htot Hc.
  destruct (move_power_fold s.(voting_power) Hvp Htot (iter s.(delegations))
    (chain_free_no_chains _ _ Hc (Hit _))) as (Hpos & Ht & Hspec).
  split_and!; [done..|]. intros a. unfold effective_voting_power. cbn. rewrite Hspec.
  apply effective_spec_perm, Hit.
Qed.

(** ** Tallies *)

(** The snapshot power of the voters who voted [b]. *)
Definition counted (b : bool) (snap : gmap Address Z) (vs : gmap Address bool) : Z :=
  sum_of (λ x, if Bool.eqb b x.2 then default 0 (snap !! x.1) else 0) (map_to_list vs).

#[global] Arguments counted : simpl never.

Lemma counted_insert b b' snap vs v :
  vs !! v = None →
  counted b snap (<[v := b']> vs) = (if Bool.eqb b b' then default 0 (snap !! v) else 0) + counted b snap vs.
Proof. intros Hv. unfold counted. by rewrite map_to_list_insert, sum_of_cons by done. Qed.

Lemma counted_nonneg b snap vs : map_Forall (λ _ x, 0 ≤ x) snap → 0 ≤ counted b snap vs.
Proof.
  intros Hs. apply sum_of_nonneg, Forall_forall. intros x _. case_match; [|done].
  apply (map_total_lookup snap x.1 Hs).
Qed.

Lemma counted_delete b snap vs v : vs !! v = None → counted b (delete v snap) vs = counted b snap vs.
Proof.
  intros Hv. unfold counted. apply sum_of_ext, Forall_forall. intros [k c] Hk%elem_of_map_to_list. cbn.
  rewrite lookup_delete_ne by (intros ->; congruence). done.
Qed.

(** Each voter counts once: together the two sides are at most the snapshot. *)
Lemma counted_le_total snap vs :
  map_Forall (λ _ x, 0 ≤ x) snap → counted true snap vs + counted false snap vs ≤ map_total snap.
Proof.
  revert snap. induction vs as [|v c vs Hv IH] using map_ind; intros snap Hs.
  - unfold counted. rewrite map_to_list_empty. change (sum_of _ []) with 0. by apply map_total_nonneg.
  - rewrite !counted_insert by done. specialize (IH (delete v snap) (map_Forall_delete _ _ _ Hs)).
    rewrite !counted_delete, map_total_delete in IH by done. destruct c; cbn; lia.
Qed.

(** ** Invariant *)

Definition prop_ok (timelock : Z) (id : H256) (p : Proposal) : Prop :=
  p.(proposal_id) = id ∧ map_Forall (λ _ x, 0 ≤ x) p.(power_snapshot) ∧
  6 * map_total p.(power_snapshot) ≤ U128_MAX ∧
  counted true p.(power_snapshot) p.(voters) ≤ p.(votes_for) ≤ 6 * counted true p.(power_snapshot) p.(voters) ∧
  counted false p.(power_snapshot) p.(voters) ≤ p.(votes_against) ≤ 6 * counted false p.(power_snapshot) p.(voters) ∧
  match p.(status) with
  | Passed | Executed => p.(votes_against) < p.(votes_for) ∧
      ∃ e, p.(execution_slot) = Some e ∧ p.(end_slot) + timelock < e
  | _ => True
  end.

Record gov_inv (s : GovernanceState) : Prop := {
  ginv_power : map_Forall (λ _ x, 0 ≤ x) s.(voting_power);
  ginv_total : s.(total_voting_power) = map_total s.(voting_power);
  ginv_range : 6 * s.(total_voting_power) ≤ U128_MAX;
  ginv_chains : chain_free s.(delegations);
  ginv_effective : effective_ok s;
  ginv_props : map_Forall (prop_ok s.(timelock_slots)) s.(proposals);
  ginv_treasury : 0 ≤ s.(treasury_balance)
}.

(** Voting powers that leave room for the sixfold conviction weight, and
    slots that leave room for the timelock. *)
Definition op_wf (o : op) (s : GovernanceState) : Prop :=
  match o with
  | VoteWithConviction _ _ _ lock _ => 0 ≤ lock
  | Finalize _ slot => slot + s.(timelock_slots) ≤ U64_MAX
  | UpdateVotingPower a p => 0 ≤ p ∧
      6 * (s.(total_voting_power) - default 0 (s.(voting_power) !! a) + p) ≤ U128_MAX
  | DepositTreasury a | ExecuteTreasury _ a => 0 ≤ a
  | _ => True
  end.

Lemma conviction_bounds lock s : 0 ≤ lock → 1 ≤ conviction_multiplier lock s ≤ 6.
Proof. intros. unfold conviction_multiplier. pose proof (Z.div_pos lock (Z.max s.(voting_period_slots) 1)). lia. Qed.

(** A change of one proposal. *)
Lemma inv_update_proposal s id p (f : Proposal → Proposal) :
  gov_inv s → s.(proposals) !! id = Some p → prop_ok s.(timelock_slots) id (f p) →
  gov_inv (update_proposal f id s).
Proof.
  intros [? ? ? ? ? Hp ?] Hid Hok. constructor; try done. cbn.
  rewrite (alter_lookup _ _ p) by done. by apply map_Forall_insert_2.
Qed.

Lemma update_proposal_compose (f g : Proposal → Proposal) id s :
  update_proposal g id (update_proposal f id s) = update_proposal (g ∘ f) id s.
Proof. unfold update_proposal. cbn. by rewrite alter_alter_eq. Qed.

(** A vote of a new voter with a weight between one and six times their
    snapshot power is counted. *)
Lemma record_vote_eq id v (b : bool) w p s :
  gov_inv s → s.(proposals) !! id = Some p → p.(status) = Active → p.(voters) !! v = None →
  default 0 (p.(power_snapshot) !! v) ≤ w ≤ 6 * default 0 (p.(power_snapshot) !! v) →
  let p' := set_votes (p.(votes_for) + (if b then w else 0)) (p.(votes_against) + (if b then 0 else w))
              (set_voters (<[v := b]> p.(voters)) p) in
  ∃ f : Proposal → Proposal, record_vote id v b w p s = (update_proposal f id s, Ok tt) ∧ f p = p' ∧
    prop_ok s.(timelock_slots) id p'.
Proof.
  intros Hi Hid Hst Hv Hw. pose proof (ginv_props s Hi id p Hid) as (Hpid & Hs & Hmax & Hf & Ha & _).
  pose proof (counted_le_total p.(power_snapshot) (<[v := b]> p.(voters)) Hs) as Hle.
  rewrite !counted_insert in Hle by done.
  pose proof (counted_nonneg true _ p.(voters) Hs). pose proof (counted_nonneg false _ p.(voters) Hs).
  assert (p.(votes_for) + (if b then w else 0) ≤ U128_MAX ∧ p.(votes_against) + (if b then 0 else w) ≤ U128_MAX) as [Hbf Hba].
  { destruct b; cbn in Hle; lia. }
  unfold record_vote. unfold_M.
  destruct b; (rewrite (proj2 (checked_add_Some _ _ _ _)) by (split; [reflexivity|lia]));
    cbn -[update_proposal]; rewrite update_proposal_compose; eexists; (split; [reflexivity|]);
    (split; [unfold set_votes, set_voters; cbn; f_equal; lia|]);
    unfold prop_ok; cbn; rewrite Hst, !counted_insert by done; cbn; split_and!; done || lia.
Qed.

(** ** The life of a proposal *)

Inductive status_step : ProposalStatus → ProposalStatus → Prop :=
| S_pass : status_step Active Passed
| S_fail : status_step Active Failed
| S_cancel : status_step Active Cancelled
| S_execute : status_step Passed Executed.

(** A proposal keeps its terms and its snapshot, its status moves along the
    arcs, votes are only added and only while it is active. *)
Definition evolves (p p' : Proposal) : Prop :=
  p'.(proposal_id) = p.(proposal_id) ∧ p'.(proposer) = p.(proposer) ∧
  p'.(proposal_type) = p.(proposal_type) ∧ p'.(start_slot) = p.(start_slot) ∧
  p'.(end_slot) = p.(end_slot) ∧ p'.(power_snapshot) = p.(power_snapshot) ∧
  p.(voters) ⊆ p'.(voters) ∧
  (p.(status) ≠ Active → p'.(voters) = p.(voters) ∧ p'.(votes_for) = p.(votes_for) ∧
     p'.(votes_against) = p.(votes_against)) ∧
  (p'.(status) = p.(status) ∨ status_step p.(status) p'.(status)).

Definition evolve (s s' : GovernanceState) : Prop :=
  ∀ id p, s.(proposals) !! id = Some p → ∃ p', s'.(proposals) !! id = Some p' ∧ evolves p p'.

Lemma evolves_refl p : evolves p p.
Proof. split_and!; try done. by left. Qed.

Lemma evolve_same s s' : s'.(proposals) = s.(proposals) → evolve s s'.
Proof. intros E id p Hp. rewrite E. eauto using evolves_refl. Qed.

Lemma evolve_update s id p f :
  s.(proposals) !! id = Some p → evolves p (f p) → evolve s (update_proposal f id s).
Proof.
  intros Hid Hev i q Hq. cbn. rewrite (alter_lookup _ _ p) by done.
  destruct (decide (i = id)) as [->|Hne].
  - rewrite lookup_insert_eq. simplify_eq. eauto.
  - rewrite lookup_insert_ne by done. eauto using evolves_refl.
Qed.

(** The change of status of one proposal. *)
Lemma evolves_status p p' :
  p'.(voters) = p.(voters) → p'.(votes_for) = p.(votes_for) → p'.(votes_against) = p.(votes_against) →
  p'.(proposal_id) = p.(proposal_id) → p'.(proposer) = p.(proposer) →
  p'.(proposal_type) = p.(proposal_type) → p'.(start_slot) = p.(start_slot) →
  p'.(end_slot) = p.(end_slot) → p'.(power_snapshot) = p.(power_snapshot) →
  status_step p.(status) p'.(status) → evolves p p'.
Proof. intros. split_and!; try done; [by rewrite H|by right]. Qed.

Definition kept (s s' : GovernanceState) : Prop := gov_inv s' ∧ evolve s s'.

Lemma kept_refl s : gov_inv s → kept s s.
Proof. split; [done|by apply evolve_same]. Qed.

Lemma kept_vote id v (b : bool) w p s :
  gov_inv s → s.(proposals) !! id = Some p → p.(status) = Active → p.(voters) !! v = None →
  default 0 (p.(power_snapshot) !! v) ≤ w ≤ 6 * default 0 (p.(power_snapshot) !! v) →
  kept s (record_vote id v b w p s).1.
Proof.
  intros Hi Hid Hst Hv Hw. destruct (record_vote_eq id v b w p s Hi Hid Hst Hv Hw) as (f & -> & Hf & Hok).
  cbn [fst]. split.
  - eapply inv_update_proposal; [done|done|by rewrite Hf].
  - apply (evolve_update s id p f Hid). rewrite Hf. split_and!; try done; [|by left].
    cbn. by apply insert_subseteq.
Qed.

Lemma kept_status id p (f : Proposal → Proposal) s :
  gov_inv s → s.(proposals) !! id = Some p → prop_ok s.(timelock_slots) id (f p) → evolves p (f p) →
  kept s (update_proposal f id s).
Proof. split; [by eapply inv_update_proposal|by eapply evolve_update]. Qed.

Lemma propose_kept id who ty desc slot s : gov_inv s → kept s (propose id who ty desc slot s).1.
Proof.
  intros Hi. destruct (propose id who ty desc slot s) as [s' r] eqn:E. unfold propose in E.
  run_in E; try by apply kept_refl. cbn [fst]. rewrite <- eq_None_not_Some in *.
  pose proof Hi as [Hvp Htot Hr Hc (Hpos & Heff & Hspec) Hp Ht]. split.
  - constructor; try done. cbn. apply map_Forall_insert_2; [|done].
    unfold prop_ok, counted. cbn. rewrite map_to_list_empty. change (sum_of _ []) with 0.
    split_and!; try done; lia.
  - intros i q Hq. cbn. exists q. rewrite lookup_insert_ne by (intros ->; congruence).
    split; [done|apply evolves_refl].
Qed.

Lemma vote_kept id v b slot s : gov_inv s → kept s (vote id v b slot s).1.
Proof.
  intros Hi. unfold vote. unfold_M. do 5 (split_guard; try (by apply kept_refl)).
  clean_ints. rename select (s.(proposals) !! id = Some _) into Hid.
  rewrite <- eq_None_not_Some in *. apply kept_vote; try done.
  pose proof (ginv_props s Hi id _ Hid) as (_ & Hs & _).
  pose proof (map_total_lookup _ v Hs). lia.
Qed.

Lemma vote_with_conviction_kept id v b lock slot s :
  0 ≤ lock → gov_inv s → kept s (vote_with_conviction id v b lock slot s).1.
Proof.
  intros Hlock Hi. unfold vote_with_conviction. unfold_M.
  do 6 (split_guard; try (by apply kept_refl)).
  clean_ints. rename select (s.(proposals) !! id = Some _) into Hid.
  rewrite <- eq_None_not_Some in *. pose proof (ginv_props s Hi id _ Hid) as (_ & Hs & _).
  pose proof (map_total_lookup _ v Hs). pose proof (conviction_bounds lock s Hlock).
  apply kept_vote; try done. subst. nia.
Qed.

Lemma finalize_kept id slot s :
  slot + s.(timelock_slots) ≤ U64_MAX → gov_inv s → kept s (finalize id slot s).1.
Proof.
  intros Hslot Hi. destruct (finalize id slot s) as [s' r] eqn:E. unfold finalize in E.
  run_in E; try (by apply kept_refl); try lia; cbn [fst];
    rename select (s.(proposals) !! id = Some _) into Hid; rename select (_.(status) = Active) into Hst;
    pose proof (ginv_props s Hi id _ Hid) as (? & ? & ? & ? & ? & _).
  - eapply kept_status; [done..|unfold prop_ok; cbn; tauto|]. apply evolves_status; try done. rewrite Hst. constructor.
  - rewrite update_proposal_compose. eapply kept_status; [done..| |].
    + unfold prop_ok. cbn. split_and!; try done; try lia. eexists. split; [done|]. lia.
    + apply evolves_status; try done. rewrite Hst. constructor.
  - eapply kept_status; [done..|unfold prop_ok; cbn; tauto|]. apply evolves_status; try done. rewrite Hst. constructor.
Qed.

Lemma execute_kept id slot s : gov_inv s → kept s (execute id slot s).1.
Proof.
  intros Hi. destruct (execute id slot s) as [s' r] eqn:E. unfold execute in E.
  run_in E; try (by apply kept_refl); cbn [fst].
  rename select (s.(proposals) !! id = Some _) into Hid; rename select (_.(status) = Passed) into Hst.
  pose proof (ginv_props s Hi id _ Hid) as (? & ? & ? & ? & ? & Hp). rewrite Hst in Hp.
  eapply kept_status; [done..|unfold prop_ok; cbn; tauto|]. apply evolves_status; try done. rewrite Hst. constructor.
Qed.

Lemma cancel_kept id c s : gov_inv s → kept s (cancel id c s).1.
Proof.
  intros Hi. destruct (cancel id c s) as [s' r] eqn:E. unfold cancel in E.
  run_in E; try (by apply kept_refl); cbn [fst].
  rename select (s.(proposals) !! id = Some _) into Hid; rename select (_.(status) = Active) into Hst.
  pose proof (ginv_props s Hi id _ Hid) as (? & ? & ? & ? & ? & _).
  eapply kept_status; [done..|unfold prop_ok; cbn; tauto|]. apply evolves_status; try done. rewrite Hst. constructor.
Qed.

Section calls.
Variable iter : gmap Address Address → list (Address * Address).
(** A [HashMap]'s iterator visits each entry once, in some order. *)
Hypothesis iter_perm : ∀ m, iter m ≡ₚ map_to_list m.

Lemma kept_recompute s s1 :
  gov_inv s → map_Forall (λ _ x, 0 ≤ x) s1.(voting_power) →
  s1.(total_voting_power) = map_total s1.(voting_power) → 6 * s1.(total_voting_power) ≤ U128_MAX →
  chain_free s1.(delegations) → s1.(proposals) = s.(proposals) → s1.(timelock_slots) = s.(timelock_slots) →
  s1.(treasury_balance) = s.(treasury_balance) → kept s (recompute_effective_power iter s1).
Proof.
  intros Hi Hvp Htot Hr Hc Hp Ht Htr. pose proof (map_total_nonneg _ Hvp).
  pose proof (recompute_ok iter s1 iter_perm Hvp ltac:(lia) Hc) as Heff.
  split; [|by apply evolve_same]. constructor; try done; cbn.
  - rewrite Hp, Ht. apply Hi.
  - rewrite Htr. apply Hi.
Qed.

Lemma update_voting_power_kept a p s :
  0 ≤ p → 6 * (s.(total_voting_power) - default 0 (s.(voting_power) !! a) + p) ≤ U128_MAX →
  gov_inv s → kept s (update_voting_power iter a p s).1.
Proof.
  intros Hp Hmax Hi. destruct (update_voting_power iter a p s) as [s' r] eqn:E.
  unfold update_voting_power in E. run_in E; try (by apply kept_refl). cbn [fst].
  apply kept_recompute; try done; cbn.
  - apply map_Forall_insert_2; [done|apply Hi].
  - subst. rewrite map_total_insert, (ginv_total s Hi). lia.
  - lia.
  - apply Hi.
Qed.

Lemma delegate_kept d t s : gov_inv s → kept s (delegate iter d t s).1.
Proof.
  intros Hi. destruct (delegate iter d t s) as [s' r] eqn:E. unfold delegate in E.
  run_in E; try (by apply kept_refl). cbn [fst]. rewrite <- eq_None_not_Some in *.
  apply kept_recompute; try apply Hi; try done. cbn.
  rename select (existsb _ _ = false) into He. intros x y.
  destruct (decide (x = d)) as [->|Hx].
  - rewrite lookup_insert_eq. intros [= <-]. by rewrite lookup_insert_ne.
  - rewrite lookup_insert_ne by done. intros Hy. destruct (decide (y = d)) as [->|Hyd].
    + exfalso. apply not_true_iff_false in He. apply He, existsb_exists. exists (x, d).
      rewrite <- list_elem_of_In, iter_perm, elem_of_map_to_list. split; [done|apply N.eqb_refl].
    + rewrite lookup_insert_ne by done. by apply (ginv_chains s Hi x).
Qed.

Lemma undelegate_kept d s : gov_inv s → kept s (undelegate iter d s).1.
Proof.
  intros Hi. destruct (undelegate iter d s) as [s' r] eqn:E. unfold undelegate in E.
  run_in E; try (by apply kept_refl). cbn [fst]. apply kept_recompute; try apply Hi; try done. cbn.
  intros x y [_ Hy]%lookup_delete_Some. apply lookup_delete_None. right. by apply (ginv_chains s Hi x).
Qed.

Lemma gov_exec_kept o s : gov_inv s → op_wf o s → kept s (exec iter o s).1.
Proof.
  intros Hi Hwf. destruct o; cbn in *;
    match goal with |- context [let '(_, _) := ?x in _] =>
      enough (kept s x.1) by (by destruct x) end.
  - by apply propose_kept.
  - by apply vote_kept.
  - by apply vote_with_conviction_kept.
  - by apply finalize_kept.
  - by apply execute_kept.
  - by apply cancel_kept.
  - destruct Hwf. by apply update_voting_power_kept.
  - by apply delegate_kept.
  - by apply undelegate_kept.
  - destruct (deposit_treasury amount s) as [s' r] eqn:E. unfold deposit_treasury in E.
    run_in E; [|by apply kept_refl]. pose proof (ginv_treasury s Hi).
    split; [|by apply evolve_same]. destruct Hi. constructor; try done. cbn. lia.
  - destruct (execute_treasury_allocation recipient amount s) as [s' r] eqn:E.
    unfold execute_treasury_allocation in E. run_in E; try (by apply kept_refl).
    split; [|by apply evolve_same]. destruct Hi. constructor; try done. cbn. lia.
Qed.

(** C11: As long as six times the total voting power fits a [u128] and a
    timelock ends within a [u64] ([op_wf]), every call keeps the governance
    invariant: the effective powers are the raw powers moved along the
    delegations with nothing created or lost, in each proposal the two tallies
    lie between the snapshot power of those who voted so and six times it, and
    a proposal that passed has the end of its timelock. Outside these limits a
    vote or a finalization that returns [Err] keeps what it wrote before
    ([overflowing_vote_keeps_voter], [late_finalize_stuck]). *)
Theorem exec_gov_inv (o : op) (s : GovernanceState) :
  gov_inv s → op_wf o s → gov_inv (exec iter o s).1.
Proof. intros Hi Hwf. apply (gov_exec_kept o s Hi Hwf). Qed.

(** No call changes a proposal's terms or snapshot, removes or changes a vote,
    adds a vote once the proposal is no longer active, or moves its status
    off the arcs active to passed, failed or cancelled, passed to executed. *)
Theorem exec_proposals_evolve (o : op) (s : GovernanceState) :
  gov_inv s → op_wf o s → evolve s (exec iter o s).1.
Proof. intros Hi Hwf. apply (gov_exec_kept o s Hi Hwf). Qed.

(** The effective powers recomputed after any change are those of the
    specification and sum to the raw powers, whatever order the delegation
    map is iterated in. *)
Theorem recompute_effective_power_spec (s : GovernanceState) :
  map_Forall (λ _ x, 0 ≤ x) s.(voting_power) → map_total s.(voting_power) ≤ U128_MAX →
  chain_free s.(delegations) →
  let s' := recompute_effective_power iter s in
  map_total s'.(effective_power) = map_total s.(voting_power) ∧
  ∀ a, effective_voting_power a s' =
    (if delegates (map_to_list s.(delegations)) a then 0
     else power s.(voting_power) a + received s.(voting_power) (map_to_list s.(delegations)) a).
Proof. intros Hvp Ht Hc. destruct (recompute_ok iter s iter_perm Hvp Ht Hc) as (_ & ? & ?). done. Qed.

(** A proposal is executed only after it passed: more power for than against,
    and the timelock counted from after the end of the voting period has
    expired. It is executed once. *)
Theorem execute_after_majority_and_timelock (id : H256) (slot : Z) (s s' : GovernanceState) (ty : ProposalType) :
  gov_inv s → execute id slot s = (s', Ok ty) →
  ∃ p, s.(proposals) !! id = Some p ∧ ty = p.(proposal_type) ∧ p.(status) = Passed ∧
    p.(votes_against) < p.(votes_for) ∧ p.(end_slot) + s.(timelock_slots) < slot ∧
    ∀ slot', (execute id slot' s').1 = s' ∧ is_ok (execute id slot' s').2 = false.
Proof.
  intros Hi E. unfold execute in E. unfold_M.
  destruct (s.(proposals) !! id) as [p|] eqn:Hid; [|done]. case_bool_decide as Hst; [done|].
  pose proof (ginv_props s Hi id p Hid) as (_ & _ & _ & _ & _ & Hp). rewrite Hst in Hp.
  destruct Hp as (Hmaj & e & He & Hend). rewrite He in E.
  destruct (slot <? e) eqn:Hs; [done|]. injection E as <- <-. clean_ints.
  exists p. split_and!; try done; [lia|]. intros slot'. unfold execute. unfold_M. cbn.
  rewrite (alter_lookup _ _ p), lookup_insert_eq by done. cbn. done.
Qed.

End calls.

(** ** Witnesses *)

Definition demo : GovernanceState :=
  let s1 := (update_voting_power map_to_list 1 2000000000000 new).1 in
  let s2 := (update_voting_power map_to_list 2 500 s1).1 in
  (propose 9 1 (ProtocolUpgrade 7) "upgrade" 10 s2).1.

Lemma gov_new_inv : gov_inv new.
Proof.
  constructor; [apply map_Forall_empty|done|done|done| |apply map_Forall_empty|done].
  split_and!; [apply map_Forall_empty|done|].
  intros a. unfold effective_voting_power, effective_spec. cbn.
  unfold received. rewrite map_to_list_empty. done.
Qed.

Lemma iter_refl (m : gmap Address Address) : map_to_list m ≡ₚ map_to_list m.
Proof. done. Qed.

Lemma demo_inv : gov_inv demo.
Proof.
  unfold demo. apply propose_kept.
  apply (update_voting_power_kept map_to_list iter_refl); [done|vm_compute; congruence|].
  apply (update_voting_power_kept map_to_list iter_refl); [done|vm_compute; congruence|apply gov_new_inv].
Qed.

(** The limits of the invariant: a vote that overflows a tally returns [Err]
    with the voter recorded, so that the weight is not counted and the voter
    cannot vote again. *)
Definition sixth : Z := U128_MAX / 6.
Definition demo_powers : GovernanceState :=
  let s1 := (update_voting_power map_to_list 1 sixth new).1 in
  let s2 := (update_voting_power map_to_list 2 sixth s1).1 in
  (vote_with_conviction 9 1 true 10000000 50 (propose 9 1 (ProtocolUpgrade 7) "upgrade" 10 s2).1).1.

Lemma overflowing_vote_keeps_voter :
  (vote_with_conviction 9 2 true 10000000 50 demo_powers).2 = Err (Msg "votes_for overflow") ∧
  let t := (vote_with_conviction 9 2 true 10000000 50 demo_powers).1 in
  (votes_for <$> t.(proposals) !! 9%N) = Some (6 * sixth) ∧
  (vote 9 2 true 50 t).2 = Err (Msg "already voted").
Proof. cbv zeta. split_and!; vm_compute; reflexivity. Qed.

(** A finalization whose timelock overflows returns [Err] with the proposal
    passed and no execution slot: it can be neither finalized again nor
    executed. *)
Lemma late_finalize_stuck :
  let s := (vote 9 1 true 50 demo).1 in
  (finalize 9 U64_MAX s).2 = Err (Msg "slot overflow in timelock calculation") ∧
  let t := (finalize 9 U64_MAX s).1 in
  (finalize 9 200000 t).2 = Err (Msg "proposal not active") ∧
  (execute 9 U64_MAX t).2 = Err (Msg "execution slot not set").
Proof. cbv zeta. split_and!; vm_compute; reflexivity. Qed.

Lemma exec_gov_inv_witness :
  gov_inv (exec map_to_list (VoteWithConviction 9 1 true 600000 50) demo).1 ∧
  (exec map_to_list (VoteWithConviction 9 1 true 600000 50) demo).2 = true.
Proof.
  split; [|vm_compute; reflexivity].
  apply (exec_gov_inv map_to_list iter_refl (VoteWithConviction 9 1 true 600000 50) demo demo_inv).
  cbn. lia.
Defined.

Lemma exec_proposals_evolve_witness : evolve demo (exec map_to_list (Cancel 9 1) demo).1.
Proof. exact (exec_proposals_evolve map_to_list iter_refl (Cancel 9 1) demo demo_inv I). Defined.

Lemma recompute_effective_power_spec_witness :
  let s := set_delegations {[ 2%N := 1%N ]} demo in
  map_total (recompute_effective_power map_to_list s).(effective_power) = 2000000000500 ∧
  effective_voting_power 1 (recompute_effective_power map_to_list s) = 2000000000500.
Proof.
  cbv zeta.
  destruct (recompute_effective_power_spec map_to_list iter_refl (set_delegations {[ 2%N := 1%N ]} demo)) as [Ht Ha].
  - apply demo_inv.
  - vm_compute. congruence.
  - unfold chain_free. cbn [delegations set_delegations].
    intros d e [<- <-]%lookup_singleton_Some. reflexivity.
  - split; [rewrite Ht; vm_compute; reflexivity|rewrite Ha; vm_compute; reflexivity].
Defined.

Definition demo_passed : GovernanceState :=
  (finalize 9 200000 (vote 9 1 true 50 demo).1).1.

Lemma demo_passed_inv : gov_inv demo_passed.
Proof. apply finalize_kept; [vm_compute; congruence|]. apply vote_kept, demo_inv. Qed.

Lemma execute_after_majority_and_timelock_witness :
  ∃ s', execute 9 300000 demo_passed = (s', Ok (ProtocolUpgrade 7)) ∧
    is_ok (execute 9 400000 s').2 = false.
Proof.
  eexists. split; [vm_compute; reflexivity|].
  destruct (execute_after_majority_and_timelock 9 300000 demo_passed _ (ProtocolUpgrade 7) demo_passed_inv
    ltac:(vm_compute; reflexivity)) as (p & _ & _ & _ & _ & _ & H). exact (proj2 (H 400000)).
Defined.

(** ** Divergences *)

(** The lock of a conviction vote is not recorded and locks nothing: a voter
    gets the sixfold weight and every power in the state is as before. *)
Lemma conviction_locks_nothing :
  let s := (vote_with_conviction 9 1 true 504000 50 demo).1 in
  (votes_for <$> s.(proposals) !! 9%N) = Some 12000000000000 ∧
  s.(voting_power) = demo.(voting_power) ∧ s.(effective_power) = demo.(effective_power) ∧
  s.(delegations) = demo.(delegations).
Proof. split_and!; vm_compute; reflexivity. Qed.

End Governance.
