(* ===== verification/Consensus.v ===== *)
(** * Consensus: quorums, the finality interface, the simple engine, the pacemaker

    [crates/consensus/src/lib.rs] (the [Finality] trait, [InstantFinality],
    [has_quorum]), [simple.rs], [pacemaker.rs] and the types of
    [crates/types/src/consensus.rs] and [block.rs]. SHA-256 is the parameter
    [sha256_digest]. *)

From S2P Require Import Prelude.

(** ** Votes and validators *)

Record Vote := mkVote {
  vote_slot : Z;
  vote_block_hash : H256;
  vote_validator : PublicKey;
  vote_signature : list Z;
  vote_stake : Z
}.

Record ValidatorInfo := mkValidatorInfo {
  pubkey : PublicKey;
  stake : Z;
  commission : Z;
  active : bool
}.

Record VrfProof := mkVrfProof {
  vrf_output : list Z;
  vrf_proof_bytes : list Z
}.

Record BlockHeader := mkBlockHeader {
  version : Z;
  header_slot : Z;
  parent_hash : H256;
  state_root : H256;
  transactions_root : H256;
  receipts_root : H256;
  header_proposer : Address;
  vrf_proof : VrfProof;
  header_timestamp : Z
}.

(** ** Quorums *)

Module Quorum.

Definition has_quorum (voted_stake total_stake : Z) : bool :=
  if total_stake =? 0 then false else
  match checked_mul U128_MAX voted_stake 3, checked_mul U128_MAX total_stake 2 with
  | Some lhs, Some rhs => rhs <=? lhs
  | _, _ => total_stake / 3 * 2 + (if 0 <? total_stake mod 3 then 1 else 0) <=? voted_stake
  end.

(** Without overflow the test is exact. *)
Lemma has_quorum_exact v t :
  0 ≤ v → v * 3 ≤ U128_MAX → 0 ≤ t → t * 2 ≤ U128_MAX →
  has_quorum v t = true ↔ 0 < t ∧ 2 * t ≤ 3 * v.
Proof.
  intros. unfold has_quorum, checked_mul.
  rewrite (proj2 (Z.leb_le (v * 3) U128_MAX)), (proj2 (Z.leb_le (t * 2) U128_MAX)) by done.
  destruct (Z.eqb_spec t 0); [split; [done|lia]|]. rewrite Z.leb_le. lia.
Qed.

(** In general it may accept one unit of stake less than two thirds. *)
Lemma has_quorum_sound v t : 0 ≤ t → has_quorum v t = true → 0 < t ∧ 2 * t - 1 ≤ 3 * v.
Proof.
  intros Ht. unfold has_quorum. destruct (Z.eqb_spec t 0); [done|].
  pose proof (Z.div_mod t 3 ltac:(lia)). pose proof (Z.mod_pos_bound t 3 ltac:(lia)).
  destruct (checked_mul U128_MAX v 3) eqn:E1, (checked_mul U128_MAX t 2) eqn:E2; clean_ints; subst;
    intros Hq%Z.leb_le; repeat case_match; clean_ints; lia.
Qed.

Lemma has_quorum_mono v v' t : 0 ≤ t → v ≤ v' → has_quorum v t = true → has_quorum v' t = true.
Proof.
  intros Ht Hv. unfold has_quorum. destruct (Z.eqb_spec t 0); [done|].
  pose proof (Z.div_mod t 3 ltac:(lia)). pose proof (Z.mod_pos_bound t 3 ltac:(lia)).
  destruct (checked_mul U128_MAX v 3) eqn:E1, (checked_mul U128_MAX v' 3) eqn:E3,
    (checked_mul U128_MAX t 2) eqn:E2; clean_ints; subst; rewrite !Z.leb_le; repeat case_match; clean_ints; lia.
Qed.

(** Two quorums of one total cannot be disjoint: stakes [v] and [v'] that both
    reach the quorum of [t] exceed [t] together, by at least a third of [t]
    (rounded down) less one. *)
Lemma quorum_overlap v v' t :
  0 ≤ v → 0 ≤ v' → 0 ≤ t → has_quorum v t = true → has_quorum v' t = true →
  t < v + v' ∧ t - 2 ≤ 3 * (v + v' - t).
Proof.
  intros Hv Hv' Ht Hq Hq'.
  destruct (decide (t ≤ 2)) as [Hsmall|Hbig].
  - assert (Hex : ∀ w, 0 ≤ w → has_quorum w t = true → 0 < t ∧ 2 * t ≤ 3 * w).
    { intros w Hw Hqw. unfold has_quorum, checked_mul in Hqw.
      destruct (Z.eqb_spec t 0); [done|].
      rewrite (proj2 (Z.leb_le (t * 2) U128_MAX)) in Hqw by ulia.
      destruct (w * 3 <=? U128_MAX) eqn:E; clean_ints; [|ulia]. lia. }
    destruct (Hex v Hv Hq), (Hex v' Hv' Hq'). lia.
  - destruct (has_quorum_sound v t Ht Hq), (has_quorum_sound v' t Ht Hq'). lia.
Qed.

(** The stake listed validators have in a validator map. *)
Section stakes.
Context {K V : Type} `{Countable K} (f : V → Z).
Implicit Types m : gmap K V.

Definition stake_in m (l : list K) : Z := sum_list ((λ a, from_option f 0 (m !! a)) <$> l).

Lemma stake_in_cons m a l : stake_in m (a :: l) = from_option f 0 (m !! a) + stake_in m l.
Proof. done. Qed.

Lemma stake_in_app m l l' : stake_in m (l ++ l') = stake_in m l + stake_in m l'.
Proof. unfold stake_in. by rewrite fmap_app, sum_list_app. Qed.

Lemma stake_in_nonneg m l : map_Forall (λ _ v, 0 ≤ f v) m → 0 ≤ stake_in m l.
Proof.
  intros Hm. induction l as [|a l IH]; [done|]. rewrite stake_in_cons.
  destruct (m !! a) eqn:E; cbn; [apply Hm in E|]; lia.
Qed.

Lemma stake_in_le m l : map_Forall (λ _ v, 0 ≤ f v) m → NoDup l → stake_in m l ≤ map_sum f m.
Proof.
  intros Hm Hn. revert m Hm. induction Hn as [|a l Ha Hn IH]; intros m Hm.
  { unfold stake_in. cbn. by apply map_sum_nonneg. }
  assert (Hd : stake_in m l = stake_in (delete a m) l).
  { unfold stake_in. f_equal. apply list_fmap_ext. intros i b Hb. rewrite lookup_delete_ne; [done|].
    intros ->. by apply Ha, list_elem_of_lookup; exists i. }
  rewrite stake_in_cons, Hd.
  specialize (IH (delete a m) (map_Forall_delete _ _ _ Hm)). rewrite map_sum_delete_opt in IH. lia.
Qed.

Lemma stake_in_split m P `{!∀ a : K, Decision (P a)} l :
  stake_in m l = stake_in m (filter P l) + stake_in m (filter (λ a, ¬ P a) l).
Proof.
  induction l as [|a l IH]; [done|]. rewrite stake_in_cons, IH.
  rewrite !filter_cons. destruct (decide (P a)) as [Hp|Hp]; destruct (decide (¬ P a)) as [Hq|Hq]; try done;
    rewrite stake_in_cons; lia.
Qed.

Lemma overlap_stake m l l' :
  map_Forall (λ _ v, 0 ≤ f v) m → NoDup l → NoDup l' →
  stake_in m l + stake_in m l' ≤ stake_in m (filter (.∈ l) l') + map_sum f m.
Proof.
  intros Hm Hn Hn'. rewrite (stake_in_split m (.∈ l) l').
  assert (Hu : NoDup (l ++ filter (λ a, ¬ a ∈ l) l')).
  { apply NoDup_app. split_and!; [done| |by apply NoDup_filter]. intros a Ha [Hna _]%list_elem_of_filter. done. }
  pose proof (stake_in_le m _ Hm Hu) as Hle. rewrite stake_in_app in Hle. lia.
Qed.
End stakes.

(** The fallback used when a product overflows is one unit too low when the
    total is 2 modulo 3. *)
Lemma has_quorum_fallback_low :
  let t := U128_MAX - 1 in
  let v := t / 3 * 2 + 1 in
  is_u128 t ∧ is_u128 v ∧ has_quorum v t = true ∧ 3 * v < 2 * t.
Proof. cbv zeta. split_and!; [split; by vm_compute..|by vm_compute|by vm_compute]. Qed.

End Quorum.

(** ** The finality interface *)

(** The trait [Finality]. *)
Class Finality (S : Type) := {
  check_finality : Z → S → S * bool;
  finalized_slot : S → Z
}.

(** What an engine promises to the callers of [check_finality]: a watermark,
    the highest slot reported so far. A report is above it and raises it; no
    other operation of the engine ([step]) lowers it. *)
Class FinalityContract (S : Type) `{Finality S} (step : S → S → Prop) := {
  watermark : S → Z;
  reported_above : ∀ slot s s', check_finality slot s = (s', true) →
    watermark s < slot ∧ watermark s' = slot ∧ slot ≤ finalized_slot s';
  unreported_same : ∀ slot s s', check_finality slot s = (s', false) → watermark s' = watermark s;
  step_watermark : ∀ s s', step s s' → watermark s ≤ watermark s'
}.

Section contract.
Context {S : Type} `{!Finality S} (step : S → S → Prop) `{!FinalityContract S step}.

(** A run of the engine with the slots reported, in order. *)
Inductive finality_run : S → list Z → S → Prop :=
| run_nil s : finality_run s [] s
| run_step s s1 s2 l : step s s1 → finality_run s1 l s2 → finality_run s l s2
| run_report s s1 s2 slot l :
    check_finality slot s = (s1, true) → finality_run s1 l s2 → finality_run s (slot :: l) s2
| run_no_report s s1 s2 slot l :
    check_finality slot s = (s1, false) → finality_run s1 l s2 → finality_run s l s2.

Lemma run_watermark s l s' : finality_run s l s' → watermark s ≤ watermark s' ∧ Forall (λ x, watermark s < x) l.
Proof.
  induction 1 as [|s s1 s2 l Hs _ [IH1 IH2]|s s1 s2 slot l Hc _ [IH1 IH2]|s s1 s2 slot l Hc _ [IH1 IH2]].
  - split; [lia|constructor].
  - apply step_watermark in Hs. split; [lia|]. eapply Forall_impl; [exact IH2|]. cbn. lia.
  - apply reported_above in Hc as (? & E & _). split; [lia|]. constructor; [done|].
    eapply Forall_impl; [exact IH2|]. cbn. lia.
  - apply unreported_same in Hc as E. split; [lia|]. eapply Forall_impl; [exact IH2|]. cbn. lia.
Qed.

(** However an engine that keeps the finality contract is driven, the slots
    for which [check_finality] returns [true] are strictly increasing: each
    slot is reported at most once. *)
Theorem finality_reported_at_most_once (s s' : S) (l : list Z) :
  finality_run s l s' → StronglySorted Z.lt l ∧ NoDup l.
Proof.
  induction 1 as [|s s1 s2 l Hs Hr IH|s s1 s2 slot l Hc Hr [IH1 IH2]|s s1 s2 slot l Hc Hr IH];
    [split; constructor|done| |done].
  apply reported_above in Hc as (_ & E & _). apply run_watermark in Hr as [_ Hl]. rewrite E in Hl.
  split; [by constructor|]. constructor; [|done]. intros Hin.
  rewrite Forall_forall in Hl. specialize (Hl slot Hin). lia.
Qed.
End contract.

(** [InstantFinality]: every slot is final at once. *)
Module Instant.

Record InstantFinality := mkInstant { finalized : Z }.

Definition new : InstantFinality := mkInstant 0.

Definition instant_check_finality (slot : Z) (s : InstantFinality) : InstantFinality * bool :=
  if s.(finalized) <? slot then (mkInstant slot, true) else (s, false).

#[global] Instance instant_finality : Finality InstantFinality := {
  check_finality := instant_check_finality;
  finalized_slot := finalized
}.

#[global] Program Instance instant_contract : FinalityContract InstantFinality (λ _ _, False) := {
  watermark := finalized
}.
Next Obligation.
  cbn. unfold instant_check_finality. intros slot s s' H. case_match; simplify_eq. clean_ints. cbn. lia.
Qed.
Next Obligation. cbn. unfold instant_check_finality. intros slot s s' H. by case_match; simplify_eq. Qed.
Next Obligation. done. Qed.

End Instant.

(** ** The simple engine *)

Module Simple.

Record SimpleConsensus := mkSimple {
  validators : list ValidatorInfo;
  current_slot : Z;
  s_finalized_slot : Z;
  votes : gmap Z (list Vote)
}.

Definition new (vs : list ValidatorInfo) : SimpleConsensus := mkSimple vs 0 0 ∅.

Definition advance_slot (s : SimpleConsensus) : SimpleConsensus :=
  mkSimple s.(validators) (saturating_add U64_MAX s.(current_slot) 1) s.(s_finalized_slot) s.(votes).

Definition get_leader (slot : Z) (s : SimpleConsensus) : option ValidatorInfo :=
  match s.(validators) with
  | [] => None
  | vs => vs !! Z.to_nat (slot mod Z.of_nat (length vs))
  end.

Definition is_leader (slot : Z) (pk : PublicKey) (s : SimpleConsensus) : bool :=
  match get_leader slot s with Some l => (l.(pubkey) =? pk)%N | None => false end.

Definition validate_block `{Digest} (b : BlockHeader) (s : SimpleConsensus) :
    result error unit :=
  bail_if (s.(current_slot) <? b.(header_slot)) (Msg "block from future slot");;
  leader ← ok_or (get_leader b.(header_slot) s) (Msg "no leader for slot");
  bail_if (negb (b.(header_proposer) =? to_address leader.(pubkey))%N) (Msg "invalid proposer").

Definition add_vote (v : Vote) : M SimpleConsensus error unit :=
  s ← get_state;
  bail_if (s.(current_slot) <? v.(vote_slot)) (Msg "vote from future slot");;
  modify (λ s, mkSimple s.(validators) s.(current_slot) s.(s_finalized_slot)
    (<[v.(vote_slot) := default [] (s.(votes) !! v.(vote_slot)) ++ [v]]> s.(votes))).

Definition total_stake (s : SimpleConsensus) : Z :=
  foldl (saturating_add U128_MAX) 0 (stake <$> s.(validators)).

Definition simple_check_finality (slot : Z) (s : SimpleConsensus) : SimpleConsensus * bool :=
  match s.(votes) !! slot with
  | None => (s, false)
  | Some vs =>
      let voted := foldl (λ acc v, saturating_add U128_MAX acc v.(vote_stake)) 0 vs in
      let quorum_reached :=
        saturating_mul U128_MAX (total_stake s) 2 <=? saturating_mul U128_MAX voted 3 in
      if quorum_reached && (s.(s_finalized_slot) <? slot)
      then (mkSimple s.(validators) s.(current_slot) slot s.(votes), true)
      else (s, false)
  end.

Definition validator_addresses_and_stakes `{Digest} (s : SimpleConsensus) :
    list (Address * Z) :=
  (λ v, (to_address v.(pubkey), v.(stake))) <$> retain (λ v, 0 <? v.(stake)) s.(validators).

#[global] Instance simple_finality : Finality SimpleConsensus := {
  check_finality := simple_check_finality;
  finalized_slot := s_finalized_slot
}.

(** The engine's other operations. *)
Inductive simple_step : SimpleConsensus → SimpleConsensus → Prop :=
| step_advance s : simple_step s (advance_slot s)
| step_vote s v : simple_step s (add_vote v s).1.

#[global] Program Instance simple_contract : FinalityContract SimpleConsensus simple_step := {
  watermark := s_finalized_slot
}.
Next Obligation.
  cbn. intros slot s s' H. unfold simple_check_finality in H.
  destruct (s.(votes) !! slot); [|done]. case_match; simplify_eq. clean_ints. cbn. lia.
Qed.
Next Obligation.
  cbn. intros slot s s' H. unfold simple_check_finality in H.
  destruct (s.(votes) !! slot); [|by simplify_eq]. by case_match; simplify_eq.
Qed.
Next Obligation.
  intros s s' [s0|s0 v]; cbn; [lia|].
  destruct (add_vote v s0) as [s1 r] eqn:H. unfold add_vote in H. run_in H; simplify_eq; cbn; lia.
Qed.

Definition demo_engine : SimpleConsensus :=
  mkSimple [mkValidatorInfo 1 10 0 true; mkValidatorInfo 2 5 0 true] 2 0 ∅.

Lemma finality_reported_at_most_once_witness : ∃ s', finality_run simple_step demo_engine [1; 2] s' ∧
  StronglySorted Z.lt [1; 2] ∧ NoDup [1; 2].
Proof.
  pose (s1 := (add_vote (mkVote 1 7 1 [] 10) demo_engine).1).
  pose (s2 := (simple_check_finality 1 s1).1).
  pose (s3 := (add_vote (mkVote 2 8 1 [] 10) s2).1).
  assert (Hrun : finality_run simple_step demo_engine [1; 2] (simple_check_finality 2 s3).1).
  { apply (run_step _ _ s1); [apply step_vote|]. apply (run_report _ _ s2); [vm_compute; reflexivity|].
    apply (run_step _ _ s3); [apply step_vote|]. eapply run_report; [vm_compute; reflexivity|]. apply run_nil. }
  eexists. split; [exact Hrun|].
  apply (finality_reported_at_most_once simple_step _ _ _ Hrun).
Defined.

(** Votes are neither authenticated, nor matched with a validator's stake, nor
    counted once: one vote claiming a stake of ten finalizes a slot of a set
    that never voted. *)
Lemma simple_counts_any_vote :
  let s := mkSimple [mkValidatorInfo 1 10 0 true; mkValidatorInfo 2 5 0 true] 1 0 ∅ in
  let s' := (add_vote (mkVote 1 99 77 [] 10) s).1 in
  (simple_check_finality 1 s').2 = true.
Proof. vm_compute. reflexivity. Qed.

End Simple.

(** ** The pacemaker *)

Module Pacemaker.

(** Durations and instants are in milliseconds; [now] is [Instant::now()].
    The product of [on_timeout] panics beyond [Duration::MAX]; the theorem
    below assumes a base within the thirty seconds' cap, where it cannot. *)
Record Pacemaker := mkPacemaker {
  base_timeout : Z;
  current_timeout : Z;
  max_timeout : Z;
  round_start : Z;
  current_round : Z;
  consecutive_timeouts : Z
}.

Definition new (base now : Z) : Pacemaker := mkPacemaker base base 30000 now 0 0.

Definition is_timed_out (now : Z) (p : Pacemaker) : bool := p.(current_timeout) <=? now - p.(round_start).

Definition time_remaining (now : Z) (p : Pacemaker) : Z :=
  default 0 (checked_sub p.(current_timeout) (now - p.(round_start))).

Definition on_timeout (now : Z) (p : Pacemaker) : Pacemaker :=
  let k := saturating_add U32_MAX p.(consecutive_timeouts) 1 in
  mkPacemaker p.(base_timeout) (Z.min (p.(base_timeout) * 2 ^ Z.min k 5) p.(max_timeout)) p.(max_timeout) now
    (saturating_add U64_MAX p.(current_round) 1) k.

Definition on_commit (now : Z) (p : Pacemaker) : Pacemaker :=
  mkPacemaker p.(base_timeout) p.(base_timeout) p.(max_timeout) now
    (saturating_add U64_MAX p.(current_round) 1) 0.

Definition reset_timer (now : Z) (p : Pacemaker) : Pacemaker :=
  mkPacemaker p.(base_timeout) p.(current_timeout) p.(max_timeout) now p.(current_round) p.(consecutive_timeouts).

Definition leader_for_round (round count : Z) : Z := if count =? 0 then 0 else round mod count.

Definition advance_to_round (now round : Z) (p : Pacemaker) : Pacemaker :=
  if round <=? p.(current_round) then p else
  let steps := round - p.(current_round) in
  if 1 <? steps then mkPacemaker p.(base_timeout) p.(base_timeout) p.(max_timeout) now round 0
  else mkPacemaker p.(base_timeout) p.(current_timeout) p.(max_timeout) now round p.(consecutive_timeouts).

Inductive event : Type := Timeout | Commit | Reset | JumpTo (round : Z).

Definition apply (now : Z) (e : event) (p : Pacemaker) : Pacemaker :=
  match e with
  | Timeout => on_timeout now p
  | Commit => on_commit now p
  | Reset => reset_timer now p
  | JumpTo r => advance_to_round now r p
  end.

(** The timeout is the backoff of the consecutive timeouts, within the cap. *)
Definition pacemaker_inv (p : Pacemaker) : Prop :=
  0 < p.(base_timeout) ≤ p.(max_timeout) ∧ 0 ≤ p.(consecutive_timeouts) ∧
  p.(current_timeout) = Z.min (p.(base_timeout) * 2 ^ Z.min p.(consecutive_timeouts) 5) p.(max_timeout).

(** Through every sequence of timeouts, commits and jumps the timeout is the
    base doubled once per consecutive timeout, at most five times and at most
    the cap, so it stays between base and cap; the round never decreases. *)
Theorem pacemaker_backoff (now : Z) (e : event) (p : Pacemaker) :
  pacemaker_inv p → 0 ≤ p.(current_round) ≤ U64_MAX →
  let p' := apply now e p in
  pacemaker_inv p' ∧ p'.(base_timeout) ≤ p'.(current_timeout) ≤ p'.(max_timeout) ∧
  p.(current_round) ≤ p'.(current_round).
Proof.
  intros (Hb & Hk & Ht) Hr.
  assert (Hpow : ∀ k, 0 ≤ k → 1 ≤ 2 ^ Z.min k 5) 
    by (intros k ?; assert (0 < 2 ^ Z.min k 5) by (apply Z.pow_pos_nonneg; lia); lia).
  assert (Hz : Z.min (p.(base_timeout) * 2 ^ Z.min 0 5) p.(max_timeout) = p.(base_timeout)) by (change (2 ^ Z.min 0 5) with 1; lia).
  assert (Hbound : ∀ q, pacemaker_inv q → q.(base_timeout) ≤ q.(current_timeout) ≤ q.(max_timeout)).
  { intros q (? & ? & ->). specialize (Hpow q.(consecutive_timeouts)). nia. }
  cbv zeta. assert (pacemaker_inv (apply now e p)) as Hinv.
  { unfold pacemaker_inv. destruct e as [| | |r]; cbn.
    - split_and!; [lia|lia|ulia|done].
    - split_and!; lia.
    - split_and!; [lia..|done].
    - unfold advance_to_round. repeat case_match; cbn; split_and!; try lia. }
  split_and!; [done|by apply Hbound|by apply Hbound|].
  destruct e as [| | |r]; cbn; try ulia. unfold advance_to_round. repeat case_match; clean_ints; cbn; lia.
Qed.

Lemma pacemaker_backoff_witness : pacemaker_inv (apply 9 Timeout (new 500 0)) ∧
  (apply 9 Timeout (new 500 0)).(current_timeout) = 1000.
Proof.
  split; [|reflexivity].
  apply (pacemaker_backoff 9 Timeout (new 500 0)); [|cbn; ulia].
  split_and!; by vm_compute.
Defined.

End Pacemaker.
