(* ===== verification/Bls.v ===== *)
(** * BLS signatures

    [crates/crypto/bls/src]: the wrapper around the [blst] library that signs
    and verifies votes ([keypair.rs]), aggregates them ([aggregate.rs]) and
    verifies aggregates and batches ([verify.rs]). The library itself is the
    class [Blst]; [BlstLaws] states what its documentation promises (encodings
    are canonical, aggregation adds points, verification is the pairing
    equation). Random scalars are arguments. *)

From S2P Require Import Prelude.

Abbreviation bytes := (list Z).

(** The [blst] library: points, their encodings, and the calls the wrapper
    makes. A [BLST_ERROR] is its number. *)
Class Blst := {
  BlstSecretKey : Type;
  BlstPublicKey : Type;
  BlstSignature : Type;
  key_gen : bytes → result Z BlstSecretKey;
  secret_from_bytes : bytes → result Z BlstSecretKey;
  secret_to_bytes : BlstSecretKey → bytes;
  sk_to_pk : BlstSecretKey → BlstPublicKey;
  pk_from_bytes : bytes → result Z BlstPublicKey;
  pk_to_bytes : BlstPublicKey → bytes;
  sig_from_bytes : bytes → result Z BlstSignature;
  sig_to_bytes : BlstSignature → bytes;
  subgroup_check : BlstSignature → bool;
  blst_sign : BlstSecretKey → bytes → string → BlstSignature;
  (** [sig.verify(true, msg, dst, &[], pk, true) == BLST_SUCCESS] *)
  blst_verify : BlstSignature → bytes → string → BlstPublicKey → bool;
  aggregate_sig_serialized : list bytes → result Z BlstSignature;
  aggregate_pk_serialized : list bytes → result Z BlstPublicKey;
  (** [verify_multiple_aggregate_signatures(..) == BLST_SUCCESS] *)
  verify_multiple : list bytes → string → list BlstPublicKey → list BlstSignature → list Z → bool
}.

(** What the library documents: canonical encodings, aggregation by point
    addition, the pairing equation for one signature, and its random linear
    combination for a batch. *)
Class BlstLaws `{Blst} := {
  GT : Type;
  gt_zero : GT;
  gt_add : GT → GT → GT;
  gt_scale : Z → GT → GT;
  pk_zero : BlstPublicKey;
  pk_add : BlstPublicKey → BlstPublicKey → BlstPublicKey;
  sig_zero : BlstSignature;
  sig_add : BlstSignature → BlstSignature → BlstSignature;
  g1 : BlstPublicKey;
  hash_to_g2 : string → bytes → BlstSignature;
  pairing : BlstPublicKey → BlstSignature → GT;
  (** in the subgroup and not the point at infinity *)
  pk_valid : BlstPublicKey → bool;
  pairing_zero_l : ∀ h, pairing pk_zero h = gt_zero;
  pairing_add_l : ∀ p q h, pairing (pk_add p q) h = gt_add (pairing p h) (pairing q h);
  pairing_zero_r : pairing g1 sig_zero = gt_zero;
  pairing_add_r : ∀ s t, pairing g1 (sig_add s t) = gt_add (pairing g1 s) (pairing g1 t);
  subgroup_zero : subgroup_check sig_zero = true;
  subgroup_add : ∀ s t, subgroup_check s = true → subgroup_check t = true →
    subgroup_check (sig_add s t) = true;
  pk_encoding : ∀ p, length (pk_to_bytes p) = 48%nat ∧ pk_from_bytes (pk_to_bytes p) = Ok p;
  sig_encoding : ∀ s, length (sig_to_bytes s) = 96%nat ∧ sig_from_bytes (sig_to_bytes s) = Ok s;
  sign_equation : ∀ sk m d, pk_valid (sk_to_pk sk) = true ∧ subgroup_check (blst_sign sk m d) = true ∧
    pairing (sk_to_pk sk) (hash_to_g2 d m) = pairing g1 (blst_sign sk m d);
  verify_equation : ∀ s m d p, blst_verify s m d p = true ↔
    pk_valid p = true ∧ subgroup_check s = true ∧ pairing p (hash_to_g2 d m) = pairing g1 s;
  aggregate_sig_sum : ∀ bs ss, bs ≠ [] →
    Forall2 (λ b s, sig_from_bytes b = Ok s ∧ subgroup_check s = true) bs ss →
    aggregate_sig_serialized bs = Ok (foldr sig_add sig_zero ss);
  aggregate_pk_sum : ∀ bs ps, bs ≠ [] →
    Forall2 (λ b p, pk_from_bytes b = Ok p ∧ pk_valid p = true) bs ps →
    aggregate_pk_serialized bs = Ok (foldr pk_add pk_zero ps);
  verify_multiple_equation : ∀ ms d ps ss rs,
    length ps = length ms → length ss = length ms → length rs = length ms →
    verify_multiple ms d ps ss rs = true ↔
    Forall (λ p, pk_valid p = true) ps ∧ Forall (λ s, subgroup_check s = true) ss ∧
    foldr gt_add gt_zero (zip_with gt_scale rs (zip_with (λ p m, pairing p (hash_to_g2 d m)) ps ms)) =
    foldr gt_add gt_zero (zip_with gt_scale rs (pairing g1 <$> ss))
}.

Module Bls.
Section wrapper.
Context `{Blst}.

Definition DST : string := "BLS_SIG_BLS12381G2_XMD:SHA-256_SSWU_RO_NUL_".
Definition DST_POP : string := "BLS_POP_BLS12381G2_XMD:SHA-256_SSWU_RO_POP_".

Definition len (b : bytes) : Z := Z.of_nat (length b).

(** ** keypair.rs *)

Record BlsKeypair := mkBlsKeypair {
  secret : BlstSecretKey;
  public : BlstPublicKey
}.

(** [ikm] are the random bytes; [None] is the panic of [expect]. *)
Definition generate (ikm : bytes) : option BlsKeypair :=
  match key_gen ikm with
  | Ok sk => Some (mkBlsKeypair sk (sk_to_pk sk))
  | Err _ => None
  end.

Definition from_secret (bs : bytes) : result error BlsKeypair :=
  bail_if (negb (len bs =? 32)) (Msg "BLS secret key must be 32 bytes");;
  sk ← map_err (λ e, Fmt "invalid secret key bytes: {}" [e]) (secret_from_bytes bs);
  mret (mkBlsKeypair sk (sk_to_pk sk)).

Definition sign (kp : BlsKeypair) (message : bytes) : bytes :=
  sig_to_bytes (blst_sign kp.(secret) message DST).

Definition public_key (kp : BlsKeypair) : bytes := pk_to_bytes kp.(public).

Definition secret_key (kp : BlsKeypair) : bytes := secret_to_bytes kp.(secret).

Definition proof_of_possession (kp : BlsKeypair) : bytes :=
  sig_to_bytes (blst_sign kp.(secret) (pk_to_bytes kp.(public)) DST_POP).

Definition verify_pop (pk pop : bytes) : result error bool :=
  bail_if (negb (len pk =? 48)) (Msg "BLS public key must be 48 bytes for PoP verification");;
  bail_if (negb (len pop =? 96)) (Msg "PoP signature must be 96 bytes");;
  p ← map_err (λ e, Fmt "invalid public key: {}" [e]) (pk_from_bytes pk);
  s ← map_err (λ e, Fmt "invalid PoP signature: {}" [e]) (sig_from_bytes pop);
  mret (blst_verify s pk DST_POP p).

Definition verify (pk message signature : bytes) : result error bool :=
  bail_if (negb (len pk =? 48)) (Msg "BLS public key must be 48 bytes");;
  bail_if (negb (len signature =? 96)) (Msg "BLS signature must be 96 bytes");;
  p ← map_err (λ e, Fmt "invalid public key: {}" [e]) (pk_from_bytes pk);
  s ← map_err (λ e, Fmt "invalid signature bytes: {}" [e]) (sig_from_bytes signature);
  mret (blst_verify s message DST p).

(** ** aggregate.rs *)

(** The validation loop of [aggregate_signatures]. *)
Fixpoint check_signatures (i : Z) (seen sigs : list bytes) {struct sigs} : result error unit :=
  match sigs with
  | [] => mret tt
  | sig :: rest =>
      bail_if (negb (len sig =? 96)) (Fmt "signature {} has invalid length: {}" [i; len sig]);;
      p ← map_err (λ e, Fmt "signature {} deserialization failed: {}" [i; e]) (sig_from_bytes sig);
      bail_if (negb (subgroup_check p)) (Fmt "signature {} failed subgroup check" [i]);;
      bail_if (bool_decide (sig ∈ seen)) (Fmt "duplicate signature detected at index {}" [i]);;
      check_signatures (i + 1) (sig :: seen) rest
  end.

Definition aggregate_signatures (sigs : list bytes) : result error bytes :=
  bail_if (bool_decide (sigs = [])) (Msg "cannot aggregate empty signature list");;
  check_signatures 0 [] sigs;;
  agg ← map_err (λ e, Fmt "failed to aggregate signatures: {}" [e]) (aggregate_sig_serialized sigs);
  mret (sig_to_bytes agg).

(** The validation loop of [aggregate_public_keys]. *)
Fixpoint check_public_keys (i : Z) (pks : list bytes) {struct pks} : result error unit :=
  match pks with
  | [] => mret tt
  | pk :: rest =>
      bail_if (negb (len pk =? 48)) (Fmt "public key {} has invalid length: {}" [i; len pk]);;
      check_public_keys (i + 1) rest
  end.

Definition aggregate_public_keys (pks : list bytes) : result error bytes :=
  bail_if (bool_decide (pks = [])) (Msg "cannot aggregate empty public key list");;
  check_public_keys 0 pks;;
  agg ← map_err (λ e, Fmt "failed to aggregate public keys (subgroup check): {}" [e])
          (aggregate_pk_serialized pks);
  mret (pk_to_bytes agg).

Definition is_aggregated (sig : bytes) : bool :=
  if negb (len sig =? 96) then false else
  match sig_from_bytes sig with Ok p => subgroup_check p | Err _ => false end.

Definition aggregate_signatures_parallel (sigs : list bytes) : result error bytes :=
  bail_if (bool_decide (sigs = [])) (Msg "cannot aggregate empty signature list");;
  if Z.of_nat (length sigs) <? 100 then aggregate_signatures sigs else aggregate_signatures sigs.

(** ** verify.rs *)

(** The decoding loop of [verify_batch]. *)
Fixpoint decode_batch (vs : list (bytes * bytes * bytes)) {struct vs} :
    result error (list BlstPublicKey * list BlstSignature * list bytes) :=
  match vs with
  | [] => mret ([], [], [])
  | (pk, msg, sig) :: rest =>
      bail_if (negb (len pk =? 48)) (Msg "BLS public key must be 48 bytes");;
      bail_if (negb (len sig =? 96)) (Msg "BLS signature must be 96 bytes");;
      p ← map_err (λ e, Fmt "invalid public key: {}" [e]) (pk_from_bytes pk);
      s ← map_err (λ e, Fmt "invalid signature: {}" [e]) (sig_from_bytes sig);
      '(ps, ss, ms) ← decode_batch rest;
      mret (p :: ps, s :: ss, msg :: ms)
  end.

(** [rands] are the random scalars, one for each signature. *)
Definition verify_batch (rands : list Z) (vs : list (bytes * bytes * bytes)) : result error bool :=
  if bool_decide (vs = []) then mret true else
  '(ps, ss, ms) ← decode_batch vs;
  mret (verify_multiple ms DST ps ss rands).

Definition verify_aggregated (agg_pk message agg_sig : bytes) : result error bool :=
  bail_if (negb (len agg_pk =? 48)) (Msg "aggregated public key must be 48 bytes");;
  bail_if (negb (len agg_sig =? 96)) (Msg "aggregated signature must be 96 bytes");;
  p ← map_err (λ e, Fmt "invalid aggregated public key: {}" [e]) (pk_from_bytes agg_pk);
  s ← map_err (λ e, Fmt "invalid aggregated signature: {}" [e]) (sig_from_bytes agg_sig);
  mret (blst_verify s message DST p).

(** The parallel iterator collects all the results, or one of the errors (the
    first here). *)
Fixpoint batch_verify_aggregated (vs : list (bytes * bytes * bytes)) : result error (list bool) :=
  match vs with
  | [] => mret []
  | (pk, m, s) :: rest =>
      b ← verify_aggregated pk m s;
      bs ← batch_verify_aggregated rest;
      mret (b :: bs)
  end.

(** The loop over the proofs of possession of [verify_aggregated_with_pop]. *)
Fixpoint check_pops (i : Z) (ps : list (bytes * bytes)) {struct ps} : result error unit :=
  match ps with
  | [] => mret tt
  | (pk, pop) :: rest =>
      ok ← verify_pop pk pop;
      bail_if (negb ok) (Fmt "invalid proof-of-possession for signer {}" [i]);;
      check_pops (i + 1) rest
  end.

Definition verify_aggregated_with_pop (pks pops : list bytes) (message agg_sig : bytes) :
    result error bool :=
  bail_if (negb (length pks =? length pops)%nat) (Msg "pubkey count must match PoP count");;
  bail_if (bool_decide (pks = [])) (Msg "cannot verify with empty signer set");;
  check_pops 0 (zip pks pops);;
  agg_pk ← aggregate_public_keys pks;
  verify_aggregated agg_pk message agg_sig.

(** A key pair as [generate] and [from_secret] build it. *)
Definition keypair_wf (kp : BlsKeypair) : Prop := kp.(public) = sk_to_pk kp.(secret).

Lemma from_secret_wf bs kp : from_secret bs = Ok kp → keypair_wf kp.
Proof. unfold from_secret. intros Hk. by res_inv. Qed.

(** The outcome of [verify] in terms of the library's verdict. *)
Lemma verify_true pk m sig :
  verify pk m sig = Ok true ↔ length pk = 48%nat ∧ length sig = 96%nat ∧
    ∃ p s, pk_from_bytes pk = Ok p ∧ sig_from_bytes sig = Ok s ∧ blst_verify s m DST p = true.
Proof.
  unfold verify, len. split.
  - intros Hv. res_inv. split_and!; [lia..|].
    destruct (pk_from_bytes pk), (sig_from_bytes sig); simplify_eq/=. naive_solver.
  - intros (Hp & Hs & p & s & E1 & E2 & E3). rewrite Hp, Hs, E1, E2. cbn. by rewrite <- E3.
Qed.

(** What the validation loop of [aggregate_signatures] establishes. *)
Lemma check_signatures_Ok i seen sigs :
  check_signatures i seen sigs = Ok tt ↔
  Forall (λ b, length b = 96%nat ∧ ∃ s, sig_from_bytes b = Ok s ∧ subgroup_check s = true) sigs ∧
  NoDup sigs ∧ Forall (λ b, b ∉ seen) sigs.
Proof.
  revert i seen. induction sigs as [|b sigs IH]; intros i seen; cbn.
  { split; [|done]. intros _. split_and!; constructor. }
  rewrite !Forall_cons, NoDup_cons. split.
  - intros Hc. res_inv. select (check_signatures _ _ _ = _) (fun Hr => apply IH in Hr as (Hf & Hd & Hseen)).
    destruct (sig_from_bytes b) as [s|] eqn:E; simplify_eq/=. unfold len in *.
    split_and!; try done; [lia|by eexists| |].
    + intros Hin. rewrite Forall_forall in Hseen. by destruct (Hseen b Hin); left.
    + eapply Forall_impl; [exact Hseen|]. cbn. set_solver.
  - intros ([[Hl (s & E & Hg)] H1] & [Hni H2] & Hs & H3).
    unfold len. rewrite Hl, E. cbn. rewrite Hg, bool_decide_false by done. cbn.
    apply IH. split_and!; [done..|]. rewrite Forall_forall in *.
    intros x Hx [->|?]%elem_of_cons; [done|]. by apply (H3 x).
Qed.

Lemma check_public_keys_Ok i pks :
  Forall (λ b, length b = 48%nat) pks → check_public_keys i pks = Ok tt.
Proof.
  intros Hp. revert i. induction Hp as [|b pks Hb _ IH]; intros i; cbn; [done|].
  unfold len. rewrite Hb. cbn. apply IH.
Qed.

(** ** Signing, aggregating and verifying fit together *)

Context `{!BlstLaws}.

(** A signature made with a key pair verifies under its public key, and its
    proof of possession is accepted. *)
Theorem sign_verify_roundtrip (kp : BlsKeypair) (m : bytes) :
  keypair_wf kp →
  verify (public_key kp) m (sign kp m) = Ok true ∧
  verify_pop (public_key kp) (proof_of_possession kp) = Ok true.
Proof.
  unfold keypair_wf. intros Hk. split.
  - apply verify_true. unfold public_key, sign.
    destruct (pk_encoding kp.(public)) as [-> ?]. destruct (sig_encoding (blst_sign kp.(secret) m DST)) as [-> ?].
    split_and!; [done..|]. eexists _, _. split_and!; [done..|]. apply verify_equation. rewrite Hk. apply sign_equation.
  - unfold verify_pop, public_key, proof_of_possession, len.
    destruct (pk_encoding kp.(public)) as [-> ->].
    destruct (sig_encoding (blst_sign kp.(secret) (pk_to_bytes kp.(public)) DST_POP)) as [-> ->]. cbn.
    unfold_M. f_equal. apply verify_equation. rewrite Hk at 1 3. apply sign_equation.
Qed.

(** The sums of keys and signatures of one message satisfy the equation. *)
Lemma pairing_sums m d ps ss :
  Forall2 (λ p s, pairing p (hash_to_g2 d m) = pairing g1 s) ps ss →
  pairing (foldr pk_add pk_zero ps) (hash_to_g2 d m) = pairing g1 (foldr sig_add sig_zero ss).
Proof.
  induction 1 as [|p s ps ss E _ IH]; cbn; [by rewrite pairing_zero_l, pairing_zero_r|].
  by rewrite pairing_add_l, pairing_add_r, E, IH.
Qed.

Lemma subgroup_sum ss : Forall (λ s, subgroup_check s = true) ss →
  subgroup_check (foldr sig_add sig_zero ss) = true.
Proof. induction 1; cbn; [apply subgroup_zero|]. by apply subgroup_add. Qed.

(** The points behind a list of verifying keys and signatures. *)
Lemma verified_points m pks sigs :
  Forall2 (λ pk sig, verify pk m sig = Ok true) pks sigs →
  ∃ ps ss, Forall2 (λ b p, pk_from_bytes b = Ok p ∧ pk_valid p = true) pks ps ∧
    Forall2 (λ b s, sig_from_bytes b = Ok s ∧ subgroup_check s = true) sigs ss ∧
    Forall2 (λ p s, pairing p (hash_to_g2 DST m) = pairing g1 s) ps ss ∧
    Forall (λ b, length b = 48%nat) pks ∧ Forall (λ b, length b = 96%nat) sigs.
Proof.
  induction 1 as [|pk sig pks sigs Hv _ (ps & ss & H1 & H2 & H3 & H4 & H5)].
  { exists [], []. split_and!; constructor. }
  apply verify_true in Hv as (? & ? & p & s & ? & ? & (? & ? & ?)%verify_equation).
  exists (p :: ps), (s :: ss). split_and!; constructor; auto.
Qed.

Lemma aggregate_points (m : bytes) (pks sigs : list bytes) :
  sigs ≠ [] → NoDup sigs → Forall2 (λ pk sig, verify pk m sig = Ok true) pks sigs →
  ∃ ps agg_pk agg_sig, Forall2 (λ b p, pk_from_bytes b = Ok p) pks ps ∧
    aggregate_signatures sigs = Ok agg_sig ∧ aggregate_public_keys pks = Ok agg_pk ∧
    (verify_aggregated agg_pk m agg_sig = Ok true ↔ pk_valid (foldr pk_add pk_zero ps) = true).
Proof.
  intros Hne Hnd Hv. pose proof (Forall2_length _ _ _ Hv) as Hlen.
  apply verified_points in Hv as (ps & ss & H1 & H2 & H3 & H4 & H5).
  assert (Hne' : pks ≠ []) by (by destruct pks, sigs).
  set (P := foldr pk_add pk_zero ps). set (T := foldr sig_add sig_zero ss).
  exists ps, (pk_to_bytes P), (sig_to_bytes T). split_and!.
  - eapply Forall2_impl; [exact H1|]. by intros ?? [? _].
  - unfold aggregate_signatures. rewrite bool_decide_false by done. cbn.
    rewrite (proj2 (check_signatures_Ok 0 [] sigs)); [cbn; by rewrite (aggregate_sig_sum _ ss)|].
    split_and!; [|done|apply Forall_true; intros ? ?%not_elem_of_nil; done].
    clear -H2 H5. induction H2 as [|b s bs ss [? ?] _ IH]; constructor; inv H5; eauto.
  - unfold aggregate_public_keys. rewrite bool_decide_false by done. cbn.
    rewrite check_public_keys_Ok by done. cbn. by rewrite (aggregate_pk_sum _ ps).
  - unfold verify_aggregated, len. destruct (pk_encoding P) as [-> ->], (sig_encoding T) as [-> ->]. cbn.
    assert (Hsub : subgroup_check T = true).
    { apply subgroup_sum. clear -H2. induction H2 as [|? ? ? ? [_ ?]]; by constructor. }
    unfold_M. split.
    + intros [= Hver]. by apply verify_equation in Hver as [? _].
    + intros Hq. f_equal. apply verify_equation. split_and!; [done..|by apply pairing_sums].
Qed.

(** Signatures of one message that verify one by one, no two of them equal,
    can be aggregated with their keys, and the aggregate verifies: unless the
    keys add up to the point at infinity. *)
Theorem aggregate_verifies (m : bytes) (pks sigs : list bytes) :
  sigs ≠ [] → NoDup sigs → Forall2 (λ pk sig, verify pk m sig = Ok true) pks sigs →
  ∃ ps agg_pk agg_sig, Forall2 (λ b p, pk_from_bytes b = Ok p) pks ps ∧
    aggregate_signatures sigs = Ok agg_sig ∧ aggregate_public_keys pks = Ok agg_pk ∧
    (verify_aggregated agg_pk m agg_sig = Ok true ↔ pk_valid (foldr pk_add pk_zero ps) = true).
Proof. apply aggregate_points. Qed.

(** A batch of signatures that verify one by one passes the batch check,
    whatever the random scalars. *)
Theorem verify_batch_complete (rands : list Z) (vs : list (bytes * bytes * bytes)) :
  length rands = length vs → Forall (λ '(pk, m, sig), verify pk m sig = Ok true) vs →
  verify_batch rands vs = Ok true.
Proof.
  intros Hr Hv. unfold verify_batch. case_bool_decide as Hne; [done|].
  assert (∃ ps ss ms, decode_batch vs = Ok (ps, ss, ms) ∧
    length ps = length vs ∧ length ss = length vs ∧ length ms = length vs ∧
    Forall (λ p, pk_valid p = true) ps ∧ Forall (λ s, subgroup_check s = true) ss ∧
    zip_with (λ p m, pairing p (hash_to_g2 DST m)) ps ms = pairing g1 <$> ss)
    as (ps & ss & ms & -> & L1 & L2 & L3 & H1 & H2 & H3).
  { clear Hr Hne. induction Hv as [|[[pk m] sig] vs Hx _ (ps & ss & ms & E & ? & ? & ? & ? & ? & Hz)].
    { exists [], [], []. split_and!; constructor. }
    apply verify_true in Hx as (Lp & Ls & p & s & Ep & Es & (? & ? & Heq)%verify_equation).
    exists (p :: ps), (s :: ss), (m :: ms). cbn. unfold len. rewrite Lp, Ls, Ep, Es, E. cbn.
    split_and!; try (constructor; done); try congruence. }
  cbn. unfold_M. f_equal. apply verify_multiple_equation; try congruence.
  split_and!; [done..|]. by rewrite H3.
Qed.

End wrapper.

(** ** An instance: the two-element field, with the product as pairing *)

Definition toy_encode (n : nat) (b : bool) : bytes := replicate (n - 1) 0 ++ [if b then 1 else 0].
Definition toy_decode (n : nat) (bs : bytes) : result Z bool :=
  if bool_decide (bs = toy_encode n true) then Ok true
  else if bool_decide (bs = toy_encode n false) then Ok false else Err 1.
Definition toy_hash (m : bytes) : bool := Z.odd (sum_list m).
Definition toy_points (n : nat) (bs : list bytes) : list bool :=
  (λ b, match toy_decode n b with Ok x => x | Err _ => false end) <$> bs.

#[global] Instance toy_blst : Blst := {
  BlstSecretKey := bool; BlstPublicKey := bool; BlstSignature := bool;
  key_gen bs := Ok (toy_hash bs);
  secret_from_bytes bs := Ok (toy_hash bs);
  secret_to_bytes := toy_encode 32;
  sk_to_pk sk := sk;
  pk_from_bytes := toy_decode 48; pk_to_bytes := toy_encode 48;
  sig_from_bytes := toy_decode 96; sig_to_bytes := toy_encode 96;
  subgroup_check _ := true;
  blst_sign sk m d := sk && toy_hash m;
  blst_verify s m d p := eqb (p && toy_hash m) s;
  aggregate_sig_serialized bs := Ok (foldr xorb false (toy_points 96 bs));
  aggregate_pk_serialized bs := Ok (foldr xorb false (toy_points 48 bs));
  verify_multiple ms d ps ss rs :=
    eqb (foldr xorb false (zip_with (λ r x, Z.odd r && x) rs (zip_with (λ p m, p && toy_hash m) ps ms)))
        (foldr xorb false (zip_with (λ r x, Z.odd r && x) rs ss))
}.

Lemma toy_roundtrip n b : (0 < n)%nat →
  length (toy_encode n b) = n ∧ toy_decode n (toy_encode n b) = Ok b.
Proof.
  intros Hn. unfold toy_encode at 1. rewrite length_app, length_replicate. cbn. split; [lia|].
  unfold toy_decode. case_bool_decide as E; [|destruct b; [done|by rewrite bool_decide_true]].
  unfold toy_encode in E. apply (inj (replicate (n - 1) 0 ++.)) in E. by destruct b.
Qed.

Lemma toy_sum n (P : bool → Prop) bs xs :
  Forall2 (λ b x, toy_decode n b = Ok x ∧ P x) bs xs → toy_points n bs = xs.
Proof. induction 1 as [|b x bs xs [E _] _ IH]; [done|]. unfold toy_points in *. cbn. by rewrite E, IH. Qed.

#[global] Program Instance toy_blst_laws : @BlstLaws toy_blst := {
  GT := bool; gt_zero := false; gt_add := xorb; gt_scale r x := Z.odd r && x;
  pk_zero := false; pk_add := xorb; sig_zero := false; sig_add := xorb;
  g1 := true; hash_to_g2 d m := toy_hash m; pairing := andb; pk_valid _ := true
}.
Next Obligation. by intros []. Qed.
Next Obligation. by intros [] [] []. Qed.
Next Obligation. done. Qed.
Next Obligation. by intros [] []. Qed.
Next Obligation. done. Qed.
Next Obligation. done. Qed.
Next Obligation. intros. apply (toy_roundtrip 48). lia. Qed.
Next Obligation. intros. apply (toy_roundtrip 96). lia. Qed.
Next Obligation. done. Qed.
Next Obligation. intros s m d p. cbn. rewrite eqb_true_iff. naive_solver. Qed.
Next Obligation. intros bs ss _ Hs. cbn. by rewrite (toy_sum 96 (λ _, true = true) bs ss Hs). Qed.
Next Obligation. intros bs ps _ Hs. cbn. by rewrite (toy_sum 48 (λ _, true = true) bs ps Hs). Qed.
Next Obligation.
  intros ms d ps ss rs _ _ _. cbn. rewrite eqb_true_iff, list_fmap_id.
  split; [intros E; split_and!; [by apply Forall_true..|exact E]|by intros (_ & _ & E)].
Qed.

Definition demo_keys : BlsKeypair * BlsKeypair := (mkBlsKeypair true true, mkBlsKeypair false false).

Lemma sign_verify_roundtrip_witness :
  verify (public_key demo_keys.1) [3] (sign demo_keys.1 [3]) = Ok true.
Proof. apply (sign_verify_roundtrip demo_keys.1 [3]). reflexivity. Defined.

Lemma aggregate_verifies_witness : ∃ ps agg_pk agg_sig,
  Forall2 (λ b p, pk_from_bytes b = Ok p) [public_key demo_keys.1; public_key demo_keys.2] ps ∧
  aggregate_signatures [sign demo_keys.1 [3]; sign demo_keys.2 [3]] = Ok agg_sig ∧
  aggregate_public_keys [public_key demo_keys.1; public_key demo_keys.2] = Ok agg_pk ∧
  (verify_aggregated agg_pk [3] agg_sig = Ok true ↔ pk_valid (foldr pk_add pk_zero ps) = true).
Proof.
  apply aggregate_verifies; [done|apply (bool_decide_unpack _); vm_compute; exact I|].
  repeat constructor; vm_compute; reflexivity.
Defined.

Lemma verify_batch_complete_witness :
  verify_batch [5; 8] [(public_key demo_keys.1, [3], sign demo_keys.1 [3]);
                       (public_key demo_keys.2, [4], sign demo_keys.2 [4])] = Ok true.
Proof. apply verify_batch_complete; [done|]. repeat constructor; vm_compute; reflexivity. Defined.

End Bls.
