(* ===== verification/Vrf.v ===== *)
(** * Leader eligibility

    The integer lottery of [crates/crypto/vrf/src/ecvrf.rs]:
    [check_leader_eligibility_integer] compares a VRF output with a threshold
    proportional to the stake, in 256-bit arithmetic on pairs of [u128] limbs.
    The theorems show that the limb arithmetic is the arithmetic of integers,
    saturated at [2^256 - 1]. The proofs themselves (RFC 9381 over
    edwards25519) are a parameter of the consensus engines. *)

From S2P Require Import Prelude.
From S2P Require Import Arith256.

Module Vrf.

(** [x as u64 as u128]. *)
Definition low64 (x : Z) : Z := x mod 2 ^ 64.

Definition mul_u128_wide (a b : Z) : Z * Z :=
  let a_lo := low64 a in
  let a_hi := Z.shiftr a 64 in
  let b_lo := low64 b in
  let b_hi := Z.shiftr b 64 in
  let lo_lo := wrapping_mul U128_MAX a_lo b_lo in
  let hi_lo := wrapping_mul U128_MAX a_hi b_lo in
  let lo_hi := wrapping_mul U128_MAX a_lo b_hi in
  let hi_hi := wrapping_mul U128_MAX a_hi b_hi in
  let mid := wrapping_add U128_MAX (wrapping_add U128_MAX (Z.shiftr lo_lo 64) (low64 hi_lo)) (low64 lo_hi) in
  let carry := wrapping_add U128_MAX (wrapping_add U128_MAX (Z.shiftr mid 64) (Z.shiftr hi_lo 64))
                 (Z.shiftr lo_hi 64) in
  let low := Z.lor (low64 lo_lo) (wrapping_shl U128_MAX mid 64) in
  let high := wrapping_add U128_MAX hi_hi carry in
  (high, low).

Definition lt_u256 (a b : Z * Z) : bool :=
  if negb (a.1 =? b.1) then a.1 <? b.1 else a.2 <? b.2.

Definition mul_u256_by_u128 (val : Z * Z) (scalar : Z) : Z * Z :=
  let '(lo_hi, lo_lo) := mul_u128_wide val.2 scalar in
  let '(hi_hi, hi_lo) := mul_u128_wide val.1 scalar in
  if 0 <? hi_hi then (U128_MAX, U128_MAX) else
  match checked_add U128_MAX hi_lo lo_hi with
  | Some h => (h, lo_lo)
  | None => (U128_MAX, U128_MAX)
  end.

Definition check_leader_eligibility_integer (vrf_output : list Z)
    (stake total_stake tau_numerator tau_denominator : Z) : bool :=
  if (total_stake =? 0) || (tau_denominator =? 0) then false else
  let vrf_value := from_le_bytes (take 8 vrf_output) in
  let lhs_step1 := mul_u128_wide vrf_value total_stake in
  let lhs := mul_u256_by_u128 lhs_step1 tau_denominator in
  let rhs_step1 := mul_u128_wide tau_numerator stake in
  let rhs :=
    if negb (Z.shiftr rhs_step1.1 64 =? 0) then (U128_MAX, U128_MAX)
    else (Z.lor (wrapping_shl U128_MAX rhs_step1.1 64) (Z.shiftr rhs_step1.2 64),
          wrapping_shl U128_MAX rhs_step1.2 64) in
  lt_u256 lhs rhs.

(** ** The limbs as integers *)

Definition u256 (x : Z * Z) : Z := x.1 * 2 ^ 128 + x.2.
Definition is_u256 (x : Z * Z) : Prop := is_u128 x.1 ∧ is_u128 x.2.
Definition U256_MAX : Z := 2 ^ 256 - 1.

Lemma limb_bounds a : is_u128 a →
  0 ≤ a mod 2 ^ 64 < 2 ^ 64 ∧ 0 ≤ a / 2 ^ 64 < 2 ^ 64 ∧ a = 2 ^ 64 * (a / 2 ^ 64) + a mod 2 ^ 64.
Proof.
  intros Ha. split_and!; [apply Z.mod_pos_bound; lia|apply Z.mod_pos_bound; lia|apply Z.div_pos; ulia| |].
  - apply Z.div_lt_upper_bound; ulia.
  - apply Z.div_mod. lia.
Qed.

(** The schoolbook product of the limbs, with the middle limb's carries. *)
Lemma wide_product ah al bh bl :
  let ll := al * bl in let hl := ah * bl in let lh := al * bh in
  let mid := ll / 2 ^ 64 + hl mod 2 ^ 64 + lh mod 2 ^ 64 in
  (2 ^ 64 * ah + al) * (2 ^ 64 * bh + bl) =
  (ah * bh + (mid / 2 ^ 64 + hl / 2 ^ 64 + lh / 2 ^ 64)) * 2 ^ 128
    + (ll mod 2 ^ 64 + (mid mod 2 ^ 64) * 2 ^ 64).
Proof.
  cbv zeta. remember (_ + _ mod _ + _) as mid eqn:Hmid.
  pose proof (Z.div_mod (al * bl) (2 ^ 64) ltac:(lia)).
  pose proof (Z.div_mod (ah * bl) (2 ^ 64) ltac:(lia)).
  pose proof (Z.div_mod (al * bh) (2 ^ 64) ltac:(lia)).
  pose proof (Z.div_mod mid (2 ^ 64) ltac:(lia)).
  replace ((2 ^ 64 * ah + al) * (2 ^ 64 * bh + bl))
    with (2 ^ 128 * (ah * bh) + 2 ^ 64 * (ah * bl) + 2 ^ 64 * (al * bh) + al * bl) by ring.
  generalize dependent (ah * bl). generalize dependent (al * bh). generalize dependent (al * bl).
  intros ll E1 lh E2 hl E3 Hmid. lia.
Qed.

(** A product of two limbs splits into limbs, the upper one at most
    [2^64 - 2]. *)
Lemma product_limb x y : 0 ≤ x < 2 ^ 64 → 0 ≤ y < 2 ^ 64 →
  wrapping_mul U128_MAX x y = x * y ∧ 0 ≤ x * y / 2 ^ 64 ≤ 2 ^ 64 - 2 ∧ 0 ≤ (x * y) mod 2 ^ 64 < 2 ^ 64.
Proof.
  intros Hx Hy. split_and!.
  - by apply Arith256.wrapping_mul_small.
  - apply Z.div_pos; nia.
  - assert (x * y ≤ (2 ^ 64 - 1) * (2 ^ 64 - 1)) by nia.
    apply Z.lt_succ_r, Z.div_lt_upper_bound; lia.
  - apply Z.mod_pos_bound; lia.
  - apply Z.mod_pos_bound; lia.
Qed.

(** [mul_u128_wide] is the exact 256-bit product, for all operands. *)
Lemma mul_u128_wide_spec a b :
  is_u128 a → is_u128 b → u256 (mul_u128_wide a b) = a * b ∧ is_u256 (mul_u128_wide a b).
Proof.
  intros Ha Hb. unfold mul_u128_wide, low64. rewrite !Z.shiftr_div_pow2 by lia. cbv zeta.
  destruct (limb_bounds a Ha) as (Hal & Hah & Ea), (limb_bounds b Hb) as (Hbl & Hbh & Eb).
  set (ah := a / 2 ^ 64) in *. set (al := a mod 2 ^ 64) in *.
  set (bh := b / 2 ^ 64) in *. set (bl := b mod 2 ^ 64) in *.
  destruct (product_limb al bl) as (-> & ? & ?); [done..|].
  destruct (product_limb ah bl) as (-> & ? & ?); [done..|].
  destruct (product_limb al bh) as (-> & ? & ?); [done..|].
  destruct (product_limb ah bh) as (-> & ? & ?); [done..|].
  pose proof (wide_product ah al bh bl) as Hw. cbv zeta in Hw. rewrite <- Ea, <- Eb in Hw.
  rewrite !(Arith256.wrapping_add_small (al * bl / 2 ^ 64)) by ulia.
  rewrite !(Arith256.wrapping_add_small (al * bl / 2 ^ 64 + _)) by ulia.
  set (mid := al * bl / 2 ^ 64 + _ + _) in *.
  assert (0 ≤ mid / 2 ^ 64 < 4) by (split; [apply Z.div_pos|apply Z.div_lt_upper_bound]; lia).
  pose proof (Z.mod_pos_bound mid (2 ^ 64) ltac:(lia)).
  rewrite !(Arith256.wrapping_add_small (mid / 2 ^ 64)), !(Arith256.wrapping_add_small (mid / 2 ^ 64 + _)) by ulia.
  rewrite Arith256.low_limb, Z.lor_comm, Arith256.lor_disjoint_add by lia.
  set (carry := mid / 2 ^ 64 + _ + _) in *.
  assert (a * b ≤ U128_MAX * U128_MAX) by (unfold_ints; nia).
  rewrite Arith256.wrapping_add_small.
  2: { split; [lia|]. apply Z.lt_succ_r, (Z.mul_lt_mono_pos_r (2 ^ 128)); [lia|]. ulia. }
  unfold u256, is_u256. cbn [fst snd]. split_and!; unfold_ints; try lia.
Qed.

Lemma u256_range x : is_u256 x → 0 ≤ u256 x ≤ U256_MAX.
Proof. intros [? ?]. unfold u256, U256_MAX. ulia. Qed.

Lemma lt_u256_spec a b : is_u256 a → is_u256 b → lt_u256 a b = (u256 a <? u256 b).
Proof.
  intros [Ha1 Ha2] [Hb1 Hb2]. unfold lt_u256, u256.
  destruct (Z.eqb_spec a.1 b.1) as [E|E]; cbn.
  - rewrite E. destruct (Z.ltb_spec a.2 b.2), (Z.ltb_spec (b.1 * 2 ^ 128 + a.2) (b.1 * 2 ^ 128 + b.2)); lia.
  - destruct (Z.ltb_spec a.1 b.1), (Z.ltb_spec (a.1 * 2 ^ 128 + a.2) (b.1 * 2 ^ 128 + b.2)); ulia.
Qed.

Lemma saturated : u256 (U128_MAX, U128_MAX) = U256_MAX ∧ is_u256 (U128_MAX, U128_MAX).
Proof. split; [by vm_compute|]. split; cbn; ulia. Qed.

(** Multiplying by a scalar saturates at [2^256 - 1]. *)
Lemma mul_u256_by_u128_spec x s :
  is_u256 x → is_u128 s →
  u256 (mul_u256_by_u128 x s) = Z.min U256_MAX (u256 x * s) ∧ is_u256 (mul_u256_by_u128 x s).
Proof.
  intros [Hx1 Hx2] Hs. unfold mul_u256_by_u128.
  destruct (mul_u128_wide_spec x.2 s) as [E1 [R1 R1']]; [done..|].
  destruct (mul_u128_wide_spec x.1 s) as [E2 [R2 R2']]; [done..|].
  destruct (mul_u128_wide x.2 s) as [lh ll], (mul_u128_wide x.1 s) as [hh hl].
  unfold u256 in E1, E2. cbn [fst snd] in *.
  assert (Ev : u256 x * s = hh * 2 ^ 256 + (hl + lh) * 2 ^ 128 + ll)
    by (unfold u256; change (2 ^ 256) with (2 ^ 128 * 2 ^ 128); lia).
  destruct saturated as [Hsat1 Hsat2].
  destruct (Z.ltb_spec 0 hh).
  { rewrite Hsat1, Ev, Z.min_l; [done|]. unfold U256_MAX. ulia. }
  destruct (checked_add U128_MAX hl lh) as [h|] eqn:E; clean_ints; subst.
  - rewrite Ev. unfold u256, is_u256, U256_MAX. cbn [fst snd]. split; [ulia|]. split; ulia.
  - rewrite Hsat1, Ev, Z.min_l; [done|]. unfold U256_MAX. ulia.
Qed.

(** The shift by 64 bits saturates in the same way. *)
Lemma shift_64_spec x : is_u256 x →
  let r := if negb (Z.shiftr x.1 64 =? 0) then (U128_MAX, U128_MAX)
    else (Z.lor (wrapping_shl U128_MAX x.1 64) (Z.shiftr x.2 64), wrapping_shl U128_MAX x.2 64) in
  u256 r = Z.min U256_MAX (u256 x * 2 ^ 64) ∧ is_u256 r.
Proof.
  intros [H1 H2]. cbv zeta. rewrite !Z.shiftr_div_pow2 by lia.
  destruct (limb_bounds x.1 H1) as (A1 & A2 & A3), (limb_bounds x.2 H2) as (B1 & B2 & B3).
  rewrite !Arith256.low_limb by ulia. rewrite Arith256.lor_disjoint_add by lia.
  destruct saturated as [Hsat1 Hsat2].
  destruct (Z.eqb_spec (x.1 / 2 ^ 64) 0) as [E|E]; cbn [negb].
  - unfold u256, is_u256, U256_MAX. cbn [fst snd]. split; [ulia|split; ulia].
  - rewrite Hsat1, Z.min_l; [done|]. unfold u256, U256_MAX. ulia.
Qed.

Lemma vrf_value_range out : is_bytes out → 0 ≤ from_le_bytes (take 8 out) < 2 ^ 64.
Proof.
  intros Ho. pose proof (from_le_bytes_range (take 8 out) (Forall_take _ _ _ Ho)) as Hr.
  split; [lia|]. eapply Z.lt_le_trans; [apply Hr|]. rewrite length_take.
  change (2 ^ 64) with (256 ^ 8). apply Z.pow_le_mono_r; lia.
Qed.

(** The lottery is exact: for every output, stake and total, and a rate
    [tau = num / den] with [den] at most [2^64], the limb arithmetic decides
    [value / 2^64 < tau * stake / total], cleared of fractions. In particular
    no stake overflows it. *)
Theorem leader_eligibility_exact (out : list Z) (stake total num den : Z) :
  is_bytes out → is_u128 stake → is_u128 total → is_u128 num → 0 ≤ den ≤ 2 ^ 64 →
  check_leader_eligibility_integer out stake total num den = true ↔
  0 < total ∧ 0 < den ∧ from_le_bytes (take 8 out) * total * den < num * stake * 2 ^ 64.
Proof.
  intros Ho Hs Ht Hn Hd. unfold check_leader_eligibility_integer.
  pose proof (vrf_value_range out Ho) as Hv. set (v := from_le_bytes _) in *.
  destruct (Z.eqb_spec total 0); [cbn; split; [done|lia]|].
  destruct (Z.eqb_spec den 0); [cbn; split; [done|lia]|]. cbn [orb]. cbv zeta.
  destruct (mul_u128_wide_spec v total) as [El Rl]; [ulia|done|].
  destruct (mul_u256_by_u128_spec (mul_u128_wide v total) den) as [El2 Rl2]; [done|ulia|].
  destruct (mul_u128_wide_spec num stake) as [Er Rr]; [done..|].
  destruct (shift_64_spec (mul_u128_wide num stake) Rr) as [Er2 Rr2]. cbv zeta in Er2, Rr2.
  rewrite lt_u256_spec by done. rewrite El2, Er2, El, Er, Z.ltb_lt.
  assert (v * total ≤ (2 ^ 64 - 1) * U128_MAX) by (unfold_ints; nia).
  assert (0 ≤ v * total) by (unfold_ints; nia).
  assert (v * total * den ≤ (2 ^ 64 - 1) * U128_MAX * 2 ^ 64) by nia.
  unfold U256_MAX. ulia.
Qed.

Lemma leader_eligibility_exact_witness :
  check_leader_eligibility_integer [0; 0; 0; 0; 0; 0; 0; 64] 1 2 8000 10000 = true ↔
  0 < 2 ∧ 0 < 10000 ∧ from_le_bytes (take 8 [0; 0; 0; 0; 0; 0; 0; 64]) * 2 * 10000 < 8000 * 1 * 2 ^ 64.
Proof.
  apply leader_eligibility_exact; [|split; by vm_compute..].
  apply (bool_decide_unpack _). vm_compute. exact I.
Defined.


End Vrf.
