(* ===== verification/Hybrid.v ===== *)
(** * The hybrid engine

    [crates/consensus/src/hybrid.rs]: VRF leader election, HotStuff phases and
    votes with BLS aggregation, and two-chain finality. The engine is the
    record [HybridConsensus]; every method is a definition, [&mut self] methods
    in the state-and-error monad. [now] is the clock of the pacemaker in
    milliseconds. The VRF proof check, SHA-256, the [blst] library and the
    iteration order of hash maps are parameters ([HybridEnv], [Digest], [Blst]);
    [tau], a float, enters as its integer numerator over 10,000. *)

From S2P Require Import Prelude.
From S2P Require Import Arith256.
From S2P Require Import Bls.
From S2P Require Import Vrf.
From S2P Require Import Consensus.

(** What the engine takes from elsewhere: the VRF proof check, and the order
    in which a hash map of votes is iterated, which is unspecified. *)
Class HybridEnv := {
  vrf_verify : list Z → list Z → VrfProof → result error bool;
  iter : gmap Address Vote → list (Address * Vote);
  iter_perm : ∀ m, iter m ≡ₚ map_to_list m
}.

Module Hybrid.

Inductive Phase := Propose | Prevote | Precommit | Commit.

#[global] Instance Phase_eq_dec : EqDecision Phase.
Proof. solve_decision. Defined.
#[global] Instance Phase_countable : Countable Phase.
Proof.
  apply (inj_countable' (λ p, match p with Propose => 0%nat | Prevote => 1%nat | Precommit => 2%nat | Commit => 3%nat end)
    (λ n, match n with O => Propose | 1%nat => Prevote | 2%nat => Precommit | _ => Commit end)).
  by intros [].
Defined.

Record QuorumCertificate := mkQC {
  qc_slot : Z;
  qc_block_hash : H256;
  qc_phase : Phase;
  qc_total_stake : Z;
  signers : list Address;
  aggregated_signature : list Z;
  aggregated_pubkey : list Z
}.

(** [slash_validator] uses the engine's own copy of the helper. *)
Definition mul_div : Z → Z → Z → Z := Arith256.mul_div.

#[local] Arguments Arith256.mul_div : simpl never.

Section engine.
Context `{Blst, Digest, HybridEnv}.

Abbreviation vote_key := (Z * Phase * H256)%type.

Record HybridConsensus := mkHybrid {
  validators : gmap Address ValidatorInfo;
  total_stake : Z;
  epoch_validators : gmap Address ValidatorInfo;
  epoch_total_stake : Z;
  current_slot : Z;
  current_epoch : Z;
  epoch_randomness : H256;
  epoch_length : Z;
  epoch_randomness_updated : bool;
  tau_numerator : Z;
  tau_denominator : Z;
  my_vrf_keypair : option (list Z → VrfProof);
  my_bls_keypair : option Bls.BlsKeypair;
  my_address : option Address;
  current_phase : Phase;
  votes : gmap vote_key (gmap Address Vote);
  qcs : gmap vote_key QuorumCertificate;
  locked_block : option H256;
  locked_slot : Z;
  block_parents : gmap H256 H256;
  block_slots : gmap H256 Z;
  vote_record : gmap (Z * Address) H256;
  vrf_pubkeys : gmap Address (list Z);
  bls_pubkeys : gmap Address (list Z);
  pacemaker : Pacemaker.Pacemaker;
  committed_slot : Z;
  hs_finalized_slot : Z;
  last_reported_finalized : Z
}.

(** Assignments to one field: [s] rebuilt from its fields with one replaced. *)
Definition eta (s : HybridConsensus) : HybridConsensus :=
  mkHybrid s.(validators) s.(total_stake) s.(epoch_validators) s.(epoch_total_stake) s.(current_slot)
    s.(current_epoch) s.(epoch_randomness) s.(epoch_length) s.(epoch_randomness_updated)
    s.(tau_numerator) s.(tau_denominator) s.(my_vrf_keypair) s.(my_bls_keypair) s.(my_address)
    s.(current_phase) s.(votes) s.(qcs) s.(locked_block) s.(locked_slot) s.(block_parents)
    s.(block_slots) s.(vote_record) s.(vrf_pubkeys) s.(bls_pubkeys) s.(pacemaker) s.(committed_slot)
    s.(hs_finalized_slot) s.(last_reported_finalized).

Local Ltac assign field x s :=
  let t := eval cbv beta delta [eta] in (eta s) in
  let p := constr:(field s) in
  match eval pattern p in t with ?f _ => let r := eval cbv beta in (f x) in exact r end.

Definition set_validators (x : gmap Address ValidatorInfo) (s : HybridConsensus) : HybridConsensus := ltac:(assign validators x s).
Definition set_total_stake (x : Z) (s : HybridConsensus) : HybridConsensus := ltac:(assign total_stake x s).
Definition set_epoch_validators (x : gmap Address ValidatorInfo) (s : HybridConsensus) : HybridConsensus := ltac:(assign epoch_validators x s).
Definition set_epoch_total_stake (x : Z) (s : HybridConsensus) : HybridConsensus := ltac:(assign epoch_total_stake x s).
Definition set_current_slot (x : Z) (s : HybridConsensus) : HybridConsensus := ltac:(assign current_slot x s).
Definition set_current_epoch (x : Z) (s : HybridConsensus) : HybridConsensus := ltac:(assign current_epoch x s).
Definition set_epoch_randomness (x : H256) (s : HybridConsensus) : HybridConsensus := ltac:(assign epoch_randomness x s).
Definition set_epoch_randomness_updated (x : bool) (s : HybridConsensus) : HybridConsensus := ltac:(assign epoch_randomness_updated x s).
Definition set_current_phase (x : Phase) (s : HybridConsensus) : HybridConsensus := ltac:(assign current_phase x s).
Definition set_votes (x : gmap vote_key (gmap Address Vote)) (s : HybridConsensus) : HybridConsensus := ltac:(assign votes x s).
Definition set_qcs (x : gmap vote_key QuorumCertificate) (s : HybridConsensus) : HybridConsensus := ltac:(assign qcs x s).
Definition set_locked_block (x : option H256) (s : HybridConsensus) : HybridConsensus := ltac:(assign locked_block x s).
Definition set_locked_slot (x : Z) (s : HybridConsensus) : HybridConsensus := ltac:(assign locked_slot x s).
Definition set_block_parents (x : gmap H256 H256) (s : HybridConsensus) : HybridConsensus := ltac:(assign block_parents x s).
Definition set_block_slots (x : gmap H256 Z) (s : HybridConsensus) : HybridConsensus := ltac:(assign block_slots x s).
Definition set_vote_record (x : gmap (Z * Address) H256) (s : HybridConsensus) : HybridConsensus := ltac:(assign vote_record x s).
Definition set_vrf_pubkeys (x : gmap Address (list Z)) (s : HybridConsensus) : HybridConsensus := ltac:(assign vrf_pubkeys x s).
Definition set_bls_pubkeys (x : gmap Address (list Z)) (s : HybridConsensus) : HybridConsensus := ltac:(assign bls_pubkeys x s).
Definition set_pacemaker (x : Pacemaker.Pacemaker) (s : HybridConsensus) : HybridConsensus := ltac:(assign pacemaker x s).
Definition set_committed_slot (x : Z) (s : HybridConsensus) : HybridConsensus := ltac:(assign committed_slot x s).
Definition set_finalized_slot (x : Z) (s : HybridConsensus) : HybridConsensus := ltac:(assign hs_finalized_slot x s).
Definition set_last_reported_finalized (x : Z) (s : HybridConsensus) : HybridConsensus := ltac:(assign last_reported_finalized x s).

(** ** Construction *)

Definition with_vrf (vs : list ValidatorInfo) (tau_num epoch_len : Z) (vrf : option (list Z → VrfProof))
    (bls : option Bls.BlsKeypair) (addr : option Address) (now : Z) : HybridConsensus :=
  let epoch_len := Z.max epoch_len 1 in
  let total := foldl (saturating_add U128_MAX) 0 (stake <$> vs) in
  let vmap := foldl (λ m v, <[to_address v.(pubkey) := v]> m) ∅ vs in
  mkHybrid vmap total vmap total 0 0 0 epoch_len false tau_num 10000 vrf bls addr Propose ∅ ∅ None 0
    ∅ ∅ ∅ ∅ ∅ (Pacemaker.new 500 now) 0 0 0.

(** ** Leader election *)

Definition vrf_input (s : HybridConsensus) (slot : Z) : list Z :=
  as_bytes 32 s.(epoch_randomness) ++ to_le_bytes 8 slot.

Definition check_my_eligibility (slot : Z) (s : HybridConsensus) : option VrfProof :=
  prove ← s.(my_vrf_keypair);
  my_addr ← s.(my_address);
  validator ← s.(epoch_validators) !! my_addr;
  let proof := prove (vrf_input s slot) in
  if Vrf.check_leader_eligibility_integer proof.(vrf_output) validator.(stake) s.(epoch_total_stake)
       s.(tau_numerator) s.(tau_denominator)
  then Some proof else None.

Definition register_vrf_pubkey (a : Address) (pk : list Z) (s : HybridConsensus) : HybridConsensus :=
  set_vrf_pubkeys (<[a := pk]> s.(vrf_pubkeys)) s.

Definition verify_leader_eligibility (b : BlockHeader) (s : HybridConsensus) : result error bool :=
  let proposer_addr := b.(header_proposer) in
  validator ← ok_or (s.(epoch_validators) !! proposer_addr) (Msg "unknown validator");
  vrf_pubkey ← ok_or (s.(vrf_pubkeys) !! proposer_addr)
                 (Fmt "no VRF public key registered for proposer {}" [Z.of_N proposer_addr]);
  ok ← vrf_verify vrf_pubkey (vrf_input s b.(header_slot)) b.(vrf_proof);
  if negb ok then mret false else
  mret (Vrf.check_leader_eligibility_integer b.(vrf_proof).(vrf_output) validator.(stake) s.(epoch_total_stake)
          s.(tau_numerator) s.(tau_denominator)).

(** ** Votes *)

(** The message a vote signs: [block_hash || slot]. *)
Definition vote_message (h : H256) (slot : Z) : list Z := as_bytes 32 h ++ to_le_bytes 8 slot.

#[local] Arguments vote_message : simpl never.

Definition create_vote (h : H256) (phase : Phase) (s : HybridConsensus) : result error (option Vote) :=
  match s.(my_bls_keypair), s.(my_address) with
  | None, _ => mret None
  | _, None => mret None
  | Some kp, Some my_addr =>
      validator ← ok_or (s.(epoch_validators) !! my_addr) (Msg "not in validator set");
      let signature := Bls.sign kp (vote_message h s.(current_slot)) in
      mret (Some (mkVote s.(current_slot) h validator.(pubkey) signature validator.(stake)))
  end.

Definition register_bls_pubkey (a : Address) (pk pop : list Z) : M HybridConsensus error unit :=
  bail_if (negb (Bls.len pk =? 48)) (Fmt "BLS pubkey must be 48 bytes, got {}" [Bls.len pk]);;
  ok ← reads (λ _, Bls.verify_pop pk pop);
  bail_if (negb ok) (Fmt "invalid proof-of-possession for BLS pubkey registered by {}" [Z.of_N a]);;
  modify (λ s, set_bls_pubkeys (<[a := pk]> s.(bls_pubkeys)) s).

Definition update_epoch_randomness (out : list Z) (s : HybridConsensus) : HybridConsensus * bool :=
  if s.(epoch_randomness_updated) then (s, false) else
  let h := sha256_digest (as_bytes 32 s.(epoch_randomness) ++ out ++ to_le_bytes 8 s.(current_epoch)) in
  (set_epoch_randomness_updated true (set_epoch_randomness h s), true).

Definition aggregate_votes (vs : list Vote) (s : HybridConsensus) : result error QuorumCertificate :=
  let signatures := vote_signature <$> vs in
  let pubkeys := (λ v, default (replicate 48 0) (s.(bls_pubkeys) !! to_address v.(vote_validator))) <$> vs in
  agg_sig ← Bls.aggregate_signatures signatures;
  agg_pk ← Bls.aggregate_public_keys pubkeys;
  let total := foldl (saturating_add U128_MAX) 0 (vote_stake <$> vs) in
  let signers := (λ v, to_address v.(vote_validator)) <$> vs in
  (* [votes[0]] panics on an empty slice, which [aggregate_signatures] refused *)
  v0 ← ok_or (head vs) (Msg "index out of bounds");
  mret (mkQC v0.(vote_slot) v0.(vote_block_hash) s.(current_phase) total signers agg_sig agg_pk).

Definition next_phase (p : Phase) : Phase :=
  match p with Propose => Prevote | Prevote => Precommit | Precommit => Commit | Commit => Propose end.

Definition advance_phase (s : HybridConsensus) : HybridConsensus :=
  set_current_phase (next_phase s.(current_phase)) s.

(** [self.vote_record.entry(key)]: the first vote of a validator in a slot is
    recorded; a vote for another block is an equivocation. *)
Definition record_first_vote (slot : Z) (a : Address) (h : H256) : M HybridConsensus error unit :=
  s ← get_state;
  match s.(vote_record) !! (slot, a) with
  | Some h' =>
      bail_if (negb (h' =? h)%N)
        (Fmt "equivocation detected: validator {} double-voted at slot {}" [Z.of_N a; slot])
  | None => modify (λ s, set_vote_record (<[(slot, a) := h]> s.(vote_record)) s)
  end.

Definition raise_committed (slot : Z) (s : HybridConsensus) : HybridConsensus :=
  if s.(committed_slot) <? slot then set_committed_slot slot s else s.

(** The parent of [h] is finalized if it has a QC of phase [p]. *)
Definition finalize_parent (p : Phase) (h : H256) (s : HybridConsensus) : HybridConsensus :=
  match s.(block_parents) !! h with
  | None => s
  | Some parent_hash =>
      match s.(block_slots) !! parent_hash with
      | None => s
      | Some parent_slot =>
          if bool_decide (is_Some (s.(qcs) !! (parent_slot, p, parent_hash)))
             && (s.(hs_finalized_slot) <? parent_slot)
          then set_finalized_slot parent_slot s else s
      end
  end.

Definition lock_on (h : H256) (slot : Z) (s : HybridConsensus) : HybridConsensus :=
  set_locked_slot slot (set_locked_block (Some h) s).

(** The effects of a new QC, by the phase it formed in. *)
Definition on_quorum (vote : Vote) (s : HybridConsensus) : HybridConsensus :=
  match s.(current_phase) with
  | Propose =>
      raise_committed vote.(vote_slot)
        (lock_on vote.(vote_block_hash) vote.(vote_slot) (finalize_parent Propose vote.(vote_block_hash) s))
  | Prevote => lock_on vote.(vote_block_hash) vote.(vote_slot) s
  | Precommit => raise_committed vote.(vote_slot) (finalize_parent Prevote vote.(vote_block_hash) s)
  | Commit => s
  end.

Definition pacemaker_commit (now : Z) (s : HybridConsensus) : HybridConsensus :=
  set_pacemaker (Pacemaker.on_commit now s.(pacemaker)) s.

(** The number of block hashes with votes in this slot and phase. *)
Definition existing_hashes (slot : Z) (p : Phase) (s : HybridConsensus) : Z :=
  Z.of_nat (length (filter (λ k, k.1.1 = slot ∧ k.1.2 = p) (map_to_list s.(votes)).*1)).

(** The checks before a vote touches the state. *)
Definition check_vote (vote : Vote) (s : HybridConsensus) : result error unit :=
  bail_if (negb (vote.(vote_slot) =? s.(current_slot)))
    (Fmt "vote for wrong slot: got {}, expected {}" [vote.(vote_slot); s.(current_slot)]);;
  let voter_addr := to_address vote.(vote_validator) in
  registered ← ok_or (s.(epoch_validators) !! voter_addr) (Fmt "unknown validator: {}" [Z.of_N voter_addr]);
  bail_if (negb (vote.(vote_stake) =? registered.(stake)))
    (Fmt "claimed stake {} != registered stake {} for {}"
       [vote.(vote_stake); registered.(stake); Z.of_N voter_addr]);;
  bls_pk ← ok_or (s.(bls_pubkeys) !! voter_addr)
             (Fmt "no BLS public key registered for validator {}" [Z.of_N voter_addr]);
  bail_if (negb (Bls.len bls_pk =? 48))
    (Fmt "registered BLS pubkey has invalid length {} for {}" [Bls.len bls_pk; Z.of_N voter_addr]);;
  let sig_bytes := vote.(vote_signature) in
  bail_if (negb (Bls.len sig_bytes =? 96))
    (Fmt "vote signature has invalid length {} from {}" [Bls.len sig_bytes; Z.of_N voter_addr]);;
  match Bls.verify bls_pk (vote_message vote.(vote_block_hash) vote.(vote_slot)) sig_bytes with
  | Ok true => mret tt
  | Ok false => mthrow (Fmt "invalid BLS signature on vote from {}" [Z.of_N voter_addr])
  | Err e => mthrow (prefix_error "BLS verification error: " e)
  end.

(** The vote is counted, and a quorum turned into a certificate. *)
Definition count_vote (now : Z) (vote : Vote) : M HybridConsensus error (option QuorumCertificate) :=
  s ← get_state;
  let voter_addr := to_address vote.(vote_validator) in
  let max_block_hashes_per_phase := Z.of_nat (size s.(validators)) * 2 in
  let key := (vote.(vote_slot), s.(current_phase), vote.(vote_block_hash)) in
  bail_if (negb (bool_decide (is_Some (s.(votes) !! key)))
           && (max_block_hashes_per_phase <=? existing_hashes vote.(vote_slot) s.(current_phase) s))
    (Fmt "too many block candidates for slot {} (limit: {})" [vote.(vote_slot); max_block_hashes_per_phase]);;
  let votes_map := default ∅ (s.(votes) !! key) in
  if bool_decide (is_Some (votes_map !! voter_addr)) then mret None else
  let votes_map := <[voter_addr := vote]> votes_map in
  modify (set_votes (<[key := votes_map]> s.(votes)));;
  let values := (iter votes_map).*2 in
  let voted_stake := foldl (saturating_add U128_MAX) 0 (vote_stake <$> values) in
  if negb (Quorum.has_quorum voted_stake s.(epoch_total_stake)) then mret None else
  if Z.of_nat (size s.(epoch_validators)) =? 1 then
    let qc := mkQC vote.(vote_slot) vote.(vote_block_hash) s.(current_phase) vote.(vote_stake) [voter_addr]
                vote.(vote_signature) [] in
    modify (λ s, set_qcs (<[key := qc]> s.(qcs)) s);;
    modify (raise_committed vote.(vote_slot));;
    modify (λ s, if s.(hs_finalized_slot) <? vote.(vote_slot) then set_finalized_slot vote.(vote_slot) s else s);;
    modify (pacemaker_commit now);;
    mret (Some qc)
  else
    qc ← reads (aggregate_votes values);
    modify (λ s, set_qcs (<[key := qc]> s.(qcs)) s);;
    modify (on_quorum vote);;
    modify advance_phase;;
    modify (pacemaker_commit now);;
    mret (Some qc).

Definition process_vote (now : Z) (vote : Vote) : M HybridConsensus error (option QuorumCertificate) :=
  reads (check_vote vote);;
  record_first_vote vote.(vote_slot) (to_address vote.(vote_validator)) vote.(vote_block_hash);;
  count_vote now vote.

(** ** Batches of votes *)

(** The tuple handed to the batch verification, or [None] if the vote is
    rejected beforehand. *)
Definition prepare (s : HybridConsensus) (vote : Vote) : option (list Z * list Z * list Z) :=
  if negb (vote.(vote_slot) =? s.(current_slot)) then None else
  let addr := to_address vote.(vote_validator) in
  registered ← s.(epoch_validators) !! addr;
  if negb (vote.(vote_stake) =? registered.(stake)) then None else
  pk ← s.(bls_pubkeys) !! addr;
  if negb (Bls.len pk =? 48) then None else
  let sig_bytes := vote.(vote_signature) in
  if negb (Bls.len sig_bytes =? 96) then None else
  Some (pk, vote_message vote.(vote_block_hash) vote.(vote_slot), sig_bytes).

Definition unwrap_or_false (r : result error bool) : bool := match r with Ok b => b | Err _ => false end.

(** [if let Ok(qc) = self.process_vote(..) { results[i] = qc; }] *)
Definition try_vote (now : Z) (vote : Vote) (s : HybridConsensus) : HybridConsensus * option QuorumCertificate :=
  match process_vote now vote s with
  | (s', Ok qc) => (s', qc)
  | (s', Err _) => (s', None)
  end.

Fixpoint process_prepared (now : Z) (batch_ok : bool) (ps : list (Vote * option (list Z * list Z * list Z)))
    (s : HybridConsensus) {struct ps} : HybridConsensus * list (option QuorumCertificate) :=
  match ps with
  | [] => (s, [])
  | (vote, prepared) :: ps =>
      let valid := match prepared with
                   | None => false
                   | Some (pk, msg, sig) => batch_ok || unwrap_or_false (Bls.verify pk msg sig)
                   end in
      let '(s1, r) := if valid then try_vote now vote s else (s, None) in
      let '(s2, rs) := process_prepared now batch_ok ps s1 in
      (s2, r :: rs)
  end.

Definition infallible {A} (f : HybridConsensus → HybridConsensus * A) : M HybridConsensus error A :=
  λ s, let '(s', a) := f s in (s', Ok a).

(** [rands] are the scalars drawn by the batch verification. *)
Definition batch_process_votes (now : Z) (rands : list Z) (vs : list Vote) :
    M HybridConsensus error (list (option QuorumCertificate)) :=
  if bool_decide (vs = []) then mret [] else
  s ← get_state;
  let prepared := prepare s <$> vs in
  let tuples := omap id prepared in
  batch_ok ← reads (λ _, if bool_decide (tuples = []) then mret true else Bls.verify_batch rands tuples);
  infallible (process_prepared now batch_ok (zip vs prepared)).

(** ** The rest of the engine *)

Definition hybrid_check_finality (slot : Z) (s : HybridConsensus) : HybridConsensus * bool :=
  if (slot <=? s.(hs_finalized_slot)) && (s.(last_reported_finalized) <? slot)
  then (set_last_reported_finalized slot s, true) else (s, false).

#[global] Instance hybrid_finality : Finality HybridConsensus := {
  check_finality := hybrid_check_finality;
  finalized_slot := hs_finalized_slot
}.

Definition record_block (block parent : H256) (slot : Z) (s : HybridConsensus) : HybridConsensus :=
  set_block_slots (<[block := slot]> s.(block_slots))
    (set_block_parents (<[block := parent]> s.(block_parents)) s).

(** Drop the state of slots before [b]. *)
Definition prune (b : Z) (s : HybridConsensus) : HybridConsensus :=
  let s := set_vote_record (filter (λ kv, b ≤ kv.1.1) s.(vote_record)) s in
  let s := set_qcs (filter (λ kv, b ≤ kv.1.1.1) s.(qcs)) s in
  let s := set_block_slots (filter (λ kv, b ≤ kv.2) s.(block_slots)) s in
  set_block_parents (filter (λ kv, is_Some (s.(block_slots) !! kv.1)) s.(block_parents)) s.

Definition epoch_transition (s : HybridConsensus) : HybridConsensus :=
  let s := if s.(epoch_randomness_updated) then s else
    set_epoch_randomness (sha256_digest (as_bytes 32 s.(epoch_randomness) ++ to_le_bytes 8 s.(current_slot)
                                         ++ to_le_bytes 8 s.(current_epoch))) s in
  let s := set_epoch_randomness_updated false s in
  let s := set_current_epoch (saturating_add U64_MAX s.(current_epoch) 1) s in
  set_epoch_total_stake s.(total_stake) (set_epoch_validators s.(validators) s).

Definition advance_slot (s : HybridConsensus) : HybridConsensus :=
  let s := set_current_slot (saturating_add U64_MAX s.(current_slot) 1) s in
  let s := set_votes ∅ (set_current_phase Propose s) in
  let s := prune (saturating_sub s.(current_slot) 200) s in
  if (0 <? s.(epoch_length)) && (s.(current_slot) mod s.(epoch_length) =? 0)
  then epoch_transition s else s.

(** The trait's default loop: one [advance_slot] per slot up to the target. *)
Definition skip_to_slot (slot : Z) (s : HybridConsensus) : HybridConsensus :=
  Nat.iter (Z.to_nat (slot - s.(current_slot))) advance_slot s.

Definition is_leader (slot : Z) (pk : PublicKey) (s : HybridConsensus) : bool :=
  match s.(my_address) with
  | Some my_addr => (to_address pk =? my_addr)%N && bool_decide (is_Some (check_my_eligibility slot s))
  | None => false
  end.

(** [now_secs] is the system clock in seconds. *)
Definition validate_block (now_secs : Z) (b : BlockHeader) (s : HybridConsensus) : result error unit :=
  bail_if (s.(current_slot) <? b.(header_slot)) (Msg "block from future slot");;
  bail_if (wrapping_add U64_MAX now_secs 3600 <? b.(header_timestamp))
    (Fmt "block timestamp {} is too far in the future (now={})" [b.(header_timestamp); now_secs]);;
  eligible ← verify_leader_eligibility b s;
  bail_if (negb eligible) (Msg "invalid leader proof");;
  match s.(locked_block) with
  | None => mret tt
  | Some locked =>
      if (b.(parent_hash) =? locked)%N then mret tt else
      let parent_slot := default 0 (s.(block_slots) !! b.(parent_hash)) in
      bail_if (parent_slot <? s.(locked_slot))
        (Fmt "block does not extend locked block and parent slot {} < locked slot {} (safe node predicate failed)"
           [parent_slot; s.(locked_slot)])
  end.

Definition add_vote (now : Z) (vote : Vote) : M HybridConsensus error unit :=
  process_vote now vote;; mret tt.

Definition validator_stake (a : Address) (s : HybridConsensus) : Z :=
  match s.(validators) !! a with Some v => v.(stake) | None => 0 end.

Definition on_timeout (now : Z) (s : HybridConsensus) : HybridConsensus :=
  let s := set_pacemaker (Pacemaker.on_timeout now s.(pacemaker)) s in
  set_votes ∅ (set_current_phase Propose s).

Definition advance_pacemaker_to_round (now round : Z) (s : HybridConsensus) : HybridConsensus :=
  set_pacemaker (Pacemaker.advance_to_round now round s.(pacemaker)) s.

Definition slash_validator (a : Address) (slash_bps : Z) (s : HybridConsensus) : HybridConsensus * Z :=
  match s.(validators) !! a with
  | None => (s, 0)
  | Some v =>
      let slash_amount := mul_div v.(stake) slash_bps 10000 in
      let v' := mkValidatorInfo v.(pubkey) (saturating_sub v.(stake) slash_amount) v.(commission) v.(active) in
      (set_total_stake (saturating_sub s.(total_stake) slash_amount)
         (set_validators (<[a := v']> s.(validators)) s), slash_amount)
  end.

Definition validator_addresses_and_stakes (s : HybridConsensus) : list (Address * Z) :=
  (λ kv, (kv.1, kv.2.(stake))) <$> filter (λ kv, 0 < kv.2.(stake)) (map_to_list s.(validators)).

(** ** The voting core

    The fields that votes, quorums and certificates depend on. *)

Record Core := mkCore {
  c_validators : gmap Address ValidatorInfo;
  c_total : Z;
  c_epoch_validators : gmap Address ValidatorInfo;
  c_epoch_total : Z;
  c_slot : Z;
  c_votes : gmap vote_key (gmap Address Vote);
  c_qcs : gmap vote_key QuorumCertificate;
  c_record : gmap (Z * Address) H256
}.

Definition core (s : HybridConsensus) : Core :=
  mkCore s.(validators) s.(total_stake) s.(epoch_validators) s.(epoch_total_stake) s.(current_slot)
    s.(votes) s.(qcs) s.(vote_record).

(** The epoch stake of the validators recorded as voting for [h] in slot [sl]. *)
Definition support (sl : Z) (h : H256) (c : Core) : Z :=
  map_sum stake (filter (λ kv, c.(c_record) !! (sl, kv.1) = Some h) c.(c_epoch_validators)).

Definition stakes_ok (m : gmap Address ValidatorInfo) (total : Z) : Prop :=
  map_Forall (λ _ v, 0 ≤ v.(stake)) m ∧ map_sum stake m ≤ total ≤ U128_MAX.

(** A vote counted for block [h] in slot [sl]: its voter is recorded for [h],
    and it counts the voter's stake of the epoch. *)
Definition vote_counted (c : Core) (sl : Z) (h : H256) (a : Address) (v : Vote) : Prop :=
  sl = c.(c_slot) ∧ c.(c_record) !! (sl, a) = Some h ∧
  ∃ r, c.(c_epoch_validators) !! a = Some r ∧ v.(vote_stake) = r.(stake).

Record core_inv (c : Core) : Prop := {
  inv_slot : 0 ≤ c.(c_slot) ≤ U64_MAX;
  inv_live : stakes_ok c.(c_validators) c.(c_total);
  inv_epoch : stakes_ok c.(c_epoch_validators) c.(c_epoch_total);
  inv_votes : ∀ sl p h m a v, c.(c_votes) !! (sl, p, h) = Some m → m !! a = Some v → vote_counted c sl h a v;
  inv_qc_slot : ∀ sl p h, is_Some (c.(c_qcs) !! (sl, p, h)) → sl ≤ c.(c_slot);
  inv_qc_quorum : ∀ p h, is_Some (c.(c_qcs) !! (c.(c_slot), p, h)) →
    Quorum.has_quorum (support c.(c_slot) h c) c.(c_epoch_total) = true;
  inv_qc_unique : ∀ sl p h p' h', is_Some (c.(c_qcs) !! (sl, p, h)) → is_Some (c.(c_qcs) !! (sl, p', h')) → h = h'
}.

Definition hybrid_inv (s : HybridConsensus) : Prop := core_inv (core s).

(** What a vote does to the core, in three stages. *)
Definition with_record (sl : Z) (a : Address) (h : H256) (c : Core) : Core :=
  mkCore c.(c_validators) c.(c_total) c.(c_epoch_validators) c.(c_epoch_total) c.(c_slot) c.(c_votes) c.(c_qcs)
    (<[(sl, a) := h]> c.(c_record)).
Definition with_vote (k : vote_key) (a : Address) (v : Vote) (c : Core) : Core :=
  mkCore c.(c_validators) c.(c_total) c.(c_epoch_validators) c.(c_epoch_total) c.(c_slot)
    (<[k := <[a := v]> (default ∅ (c.(c_votes) !! k))]> c.(c_votes)) c.(c_qcs) c.(c_record).
Definition with_qc (k : vote_key) (qc : QuorumCertificate) (c : Core) : Core :=
  mkCore c.(c_validators) c.(c_total) c.(c_epoch_validators) c.(c_epoch_total) c.(c_slot) c.(c_votes)
    (<[k := qc]> c.(c_qcs)) c.(c_record).

(** The stake of two different blocks' supporters is at most the total. *)
Lemma support_disjoint sl h h' c :
  stakes_ok c.(c_epoch_validators) c.(c_epoch_total) → h ≠ h' →
  support sl h c + support sl h' c ≤ c.(c_epoch_total).
Proof.
  intros [Hn Ht] Hh. unfold support.
  rewrite <- map_sum_union.
  - etrans; [apply map_sum_subseteq|exact (proj1 Ht)]; [|exact Hn].
    apply map_union_least; apply map_filter_subseteq.
  - apply map_disjoint_spec. intros a v v' [_ E]%map_lookup_filter_Some [_ E']%map_lookup_filter_Some.
    cbn in *. congruence.
Qed.

Lemma support_nonneg sl h c : stakes_ok c.(c_epoch_validators) c.(c_epoch_total) → 0 ≤ support sl h c.
Proof.
  intros [Hn _]. apply map_sum_nonneg. intros a v [Hv _]%map_lookup_filter_Some. by apply (Hn a).
Qed.

(** Recording a first vote only adds support. *)
Lemma support_with_record sl a h sl' h' c :
  stakes_ok c.(c_epoch_validators) c.(c_epoch_total) → c.(c_record) !! (sl, a) ∈ [None; Some h] →
  support sl' h' c ≤ support sl' h' (with_record sl a h c).
Proof.
  intros [Hn _] Hr. apply map_sum_subseteq.
  - apply map_filter_subseteq_ext. intros b v _. cbn. intros E.
    destruct (decide ((sl, a) = (sl', b))) as [Ek|]; [|by rewrite lookup_insert_ne].
    rewrite Ek, lookup_insert_eq. rewrite Ek, E in Hr. set_solver.
  - intros b v [Hv _]%map_lookup_filter_Some. by apply (Hn b).
Qed.

(** The votes counted for a block in one phase weigh at most its support. *)
Lemma votes_support c sl p h m :
  core_inv c → c.(c_votes) !! (sl, p, h) = Some m →
  map_sum vote_stake m ≤ support sl h c ∧ (∀ a v, m !! a = Some v → 0 ≤ v.(vote_stake)).
Proof.
  intros Hc Hm. destruct (inv_epoch c Hc) as [Hn _].
  assert (Hv : ∀ a v, m !! a = Some v → vote_counted c sl h a v) by (intros; by eapply inv_votes).
  split.
  - transitivity (map_sum id (vote_stake <$> m)); [by rewrite map_sum_fmap|].
    transitivity (map_sum id (stake <$> filter (λ kv, c.(c_record) !! (sl, kv.1) = Some h) c.(c_epoch_validators)));
      [|by rewrite map_sum_fmap].
    apply map_sum_subseteq.
    + apply map_subseteq_spec. intros a x. rewrite !lookup_fmap_Some.
      intros (v & <- & Ha). destruct (Hv a v Ha) as (_ & Hr & r & Hr' & ->).
      exists r. split; [done|]. by apply map_lookup_filter_Some.
    + intros a x (r & <- & [Hr _]%map_lookup_filter_Some)%lookup_fmap_Some. by apply (Hn a).
  - intros a v Ha. destruct (Hv a v Ha) as (_ & _ & r & Hr & ->). by apply (Hn a).
Qed.

Lemma core_inv_record c a h :
  core_inv c → c.(c_record) !! (c.(c_slot), a) ∈ [None; Some h] → core_inv (with_record c.(c_slot) a h c).
Proof.
  intros Hc Hr. destruct Hc. constructor; cbn; try done.
  - intros sl p h' m b v Hm Hb. destruct (inv_votes0 sl p h' m b v Hm Hb) as (-> & Hrec & Hst).
    split_and!; [done| |done]. cbn.
    destruct (decide (a = b)) as [->|]; [rewrite lookup_insert_eq; rewrite Hrec in Hr; set_solver|].
    by rewrite lookup_insert_ne by congruence.
  - intros p h' Hq. eapply Quorum.has_quorum_mono; [|by apply support_with_record|by eapply inv_qc_quorum0].
    destruct inv_epoch0 as [Hn ?]. pose proof (map_sum_nonneg stake c.(c_epoch_validators) Hn). lia.
Qed.

Lemma core_inv_vote c p h a v r :
  core_inv c → c.(c_record) !! (c.(c_slot), a) = Some h → c.(c_epoch_validators) !! a = Some r →
  v.(vote_stake) = r.(stake) → core_inv (with_vote (c.(c_slot), p, h) a v c).
Proof.
  intros Hc Hr Ha Hs. destruct Hc. constructor; try done.
  intros sl p' h' m b w Hm Hb. unfold vote_counted. cbn in *.
  apply lookup_insert_Some in Hm as [[[= <- <- <-] <-]|[_ Hm]]; [|by eapply inv_votes0].
  apply lookup_insert_Some in Hb as [[<- <-]|[_ Hb]]; [by eauto|].
  destruct (c.(c_votes) !! (c.(c_slot), p, h)) as [m|] eqn:E; [|done]. by eapply inv_votes0.
Qed.

Lemma core_inv_qc c p h qc :
  core_inv c → Quorum.has_quorum (support c.(c_slot) h c) c.(c_epoch_total) = true →
  core_inv (with_qc (c.(c_slot), p, h) qc c).
Proof.
  intros Hc Hq. pose proof Hc as []. 
  assert (Hu : ∀ p' h', is_Some (c.(c_qcs) !! (c.(c_slot), p', h')) → h' = h).
  { intros p' h' Hq'%inv_qc_quorum0. destruct (decide (h' = h)) as [|Hne]; [done|].
    pose proof (support_disjoint c.(c_slot) h' h c inv_epoch0 Hne).
    pose proof (support_nonneg c.(c_slot) h c inv_epoch0).
    pose proof (support_nonneg c.(c_slot) h' c inv_epoch0).
    assert (0 ≤ c.(c_epoch_total)) by lia.
    destruct (Quorum.quorum_overlap (support c.(c_slot) h' c) (support c.(c_slot) h c) c.(c_epoch_total)); [done..|lia]. }
  constructor; try done; cbn.
  - intros sl p' h' [q E]. apply lookup_insert_Some in E as [[[= <- <- <-] _]|[_ E]]; [lia|eauto].
  - intros p' h' [q E]. apply lookup_insert_Some in E as [[[= <- <-] _]|[_ E]]; [done|by eapply inv_qc_quorum0].
  - intros sl p1 h1 p2 h2 [q1 E1] [q2 E2].
    apply lookup_insert_Some in E1 as [[E1 _]|[_ E1]], E2 as [[E2 _]|[_ E2]]; simplify_eq; eauto.
    symmetry. eauto.
Qed.

(** ** One vote *)

Lemma check_vote_Ok v s :
  check_vote v s = Ok tt ↔
  v.(vote_slot) = s.(current_slot) ∧
  ∃ r pk, s.(epoch_validators) !! to_address v.(vote_validator) = Some r ∧ v.(vote_stake) = r.(stake) ∧
    s.(bls_pubkeys) !! to_address v.(vote_validator) = Some pk ∧
    Bls.verify pk (vote_message v.(vote_block_hash) v.(vote_slot)) v.(vote_signature) = Ok true.
Proof.
  unfold check_vote. split.
  - intros Hc. res_inv. split; [done|]. eexists _, _. split_and!; [done..|].
    by destruct (Bls.verify _ _ _) as [[]|].
  - intros (-> & r & pk & Hr & -> & Hpk & Hv). apply Bls.verify_true in Hv as Hl. destruct Hl as (L1 & L2 & _).
    rewrite !Z.eqb_refl, Hr. cbn. rewrite Z.eqb_refl, Hpk. unfold Bls.len. cbn. rewrite L1, L2. cbn. by rewrite Hv.
Qed.

Lemma core_on_quorum v s : core (on_quorum v s) = core s.
Proof.
  unfold on_quorum, raise_committed, finalize_parent, lock_on. repeat (case_match; cbn; try done).
Qed.

Lemma record_first_vote_cases sl a h s s' r :
  record_first_vote sl a h s = (s', r) →
  (s' = s ∧ is_ok r = false ∧ ∃ h', s.(vote_record) !! (sl, a) = Some h' ∧ h' ≠ h) ∨
  (r = Ok tt ∧ s.(vote_record) !! (sl, a) ∈ [None; Some h] ∧
   s' = set_vote_record (<[(sl, a) := h]> s.(vote_record)) s).
Proof.
  unfold record_first_vote. intros Hr. unfold_M.
  destruct (s.(vote_record) !! (sl, a)) as [h'|] eqn:E.
  - destruct (N.eqb_spec h' h) as [->|Hne]; simplify_eq/=; [right|left; eauto].
    split_and!; [done|set_solver|]. rewrite insert_id by done. by destruct s'.
  - simplify_eq/=. right. split_and!; [done|set_solver|done].
Qed.

Lemma count_vote_stages now v s s' r :
  count_vote now v s = (s', r) →
  let a := to_address v.(vote_validator) in
  let k := (v.(vote_slot), s.(current_phase), v.(vote_block_hash)) in
  let c := with_vote k a v (core s) in
  (core s' = core s ∧ ∀ qc, r ≠ Ok (Some qc)) ∨ (core s' = c ∧ ∀ qc, r ≠ Ok (Some qc)) ∨
  ∃ qc m, core s' = with_qc k qc c ∧ r = Ok (Some qc) ∧ c.(c_votes) !! k = Some m ∧
    Quorum.has_quorum (foldl (saturating_add U128_MAX) 0 (vote_stake <$> (iter m).*2)) s.(epoch_total_stake) = true.
Proof.
  intros Hp. cbv zeta. unfold count_vote in Hp.
  set (k := (v.(vote_slot), s.(current_phase), v.(vote_block_hash))) in *.
  set (a := to_address v.(vote_validator)) in *. unfold_M.
  destruct (_ && _) in Hp; [simplify_eq; by left|].
  destruct (bool_decide _) in Hp; [simplify_eq; by left|].
  destruct (negb _) eqn:Hq in Hp; [simplify_eq; by right; left|]. apply negb_false_iff in Hq.
  destruct (_ =? 1) in Hp.
  - simplify_eq. right. right. eexists _, _. split_and!; [|done|apply lookup_insert_eq|exact Hq].
    unfold raise_committed. by repeat case_match.
  - destruct (aggregate_votes _ _) as [qc|e] in Hp; simplify_eq; [|by right; left].
    right. right. eexists _, _. split_and!; [|done|apply lookup_insert_eq|exact Hq].
    transitivity (core (on_quorum v (set_qcs (<[k := qc]> s.(qcs)) (set_votes (<[k := <[a := v]> (default ∅ (s.(votes) !! k))]> s.(votes)) s)))); [done|].
    by rewrite core_on_quorum.
Qed.

(** Every vote, accepted or not, keeps the invariant. *)
Lemma process_vote_inv now v s s' r : process_vote now v s = (s', r) → hybrid_inv s → hybrid_inv s'.
Proof.
  unfold process_vote, hybrid_inv. intros Hp Hi. unfold_M.
  destruct (check_vote v s) as [[]|] eqn:Hc; [|by simplify_eq].
  apply check_vote_Ok in Hc as (Hsl & w & pk & Hw & Hst & _).
  destruct (record_first_vote _ _ _ s) as [s1 r1] eqn:Hr.
  apply record_first_vote_cases in Hr as [(-> & Hf & _)|(-> & Hin & Es1)].
  { destruct r1; [done|]. by simplify_eq. }
  rewrite Hsl in *.
  pose proof (core_inv_record (core s) _ _ Hi Hin) as Hi1.
  assert (Ec : core s1 = with_record s.(current_slot) (to_address v.(vote_validator)) v.(vote_block_hash) (core s))
    by (by rewrite Es1). cbn in Hi1. rewrite <- Ec in Hi1.
  assert (Hrec : s1.(vote_record) !! (s1.(current_slot), to_address v.(vote_validator)) = Some v.(vote_block_hash))
    by (rewrite Es1; cbn; apply lookup_insert_eq).
  assert (s1.(epoch_validators) !! to_address v.(vote_validator) = Some w) as Hw1 by (by rewrite Es1).
  assert (Hsl1 : v.(vote_slot) = s1.(current_slot)) by (by rewrite Es1).
  apply count_vote_stages in Hp. cbv zeta in Hp. rewrite Hsl1 in Hp.
  pose proof (core_inv_vote (core s1) s1.(current_phase) _ _ v w Hi1 Hrec Hw1 Hst) as Hi2. cbn in Hi2.
  destruct Hp as [[-> _]|[[-> _]|(qc & m & -> & -> & Hm & Hq)]]; [done|done|].
  apply (core_inv_qc _ _ _ qc Hi2).
  destruct (votes_support _ _ _ _ _ Hi2 Hm) as [Hle Hnn].
  destruct (inv_epoch _ Hi2) as [Hn Ht]. cbn in *.
  eapply Quorum.has_quorum_mono; [| |exact Hq].
  - pose proof (map_sum_nonneg stake s1.(epoch_validators) Hn). lia.
  - rewrite foldl_saturating; [|apply Forall_fmap, Forall_fmap, Forall_forall|ulia].
    + etrans; [apply Z.le_min_r|]. rewrite Z.add_0_l. etrans; [|exact Hle].
      rewrite map_sum_to_list, <- list_fmap_compose. by rewrite iter_perm.
    + intros [b x] Hb. rewrite iter_perm in Hb. apply elem_of_map_to_list in Hb. by apply (Hnn b).
Qed.

Lemma try_vote_inv now v s : hybrid_inv s → hybrid_inv (try_vote now v s).1.
Proof.
  intros Hi. unfold try_vote. destruct (process_vote now v s) as [s' [qc|e]] eqn:E; cbn;
    by eapply process_vote_inv.
Qed.

Lemma process_prepared_inv now ok ps s : hybrid_inv s → hybrid_inv (process_prepared now ok ps s).1.
Proof.
  revert s. induction ps as [|[v pr] ps IH]; intros s Hi; [done|]. cbn [process_prepared].
  set (valid := match pr with None => _ | Some _ => _ end).
  assert (Hi' : hybrid_inv (if valid then try_vote now v s else (s, None)).1)
    by (destruct valid; [by apply try_vote_inv|done]).
  destruct (if valid then _ else _) as [s1 r]. specialize (IH s1 Hi').
  by destruct (process_prepared now ok ps s1).
Qed.

Lemma batch_process_votes_inv now rands vs s : hybrid_inv s → hybrid_inv (batch_process_votes now rands vs s).1.
Proof.
  intros Hi. unfold batch_process_votes. case_bool_decide; [done|]. unfold infallible. unfold_M.
  destruct (if bool_decide _ then _ else _) as [ok|]; [|done].
  pose proof (process_prepared_inv now ok (zip vs (prepare s <$> vs)) s Hi).
  by destruct (process_prepared _ _ _ _).
Qed.

(** ** The other operations *)

Lemma advance_slot_core s :
  let s' := advance_slot s in
  s'.(current_slot) = saturating_add U64_MAX s.(current_slot) 1 ∧ s'.(votes) = ∅ ∧ s'.(qcs) ⊆ s.(qcs) ∧
  s'.(vote_record) = filter (λ kv, saturating_sub s'.(current_slot) 200 ≤ kv.1.1) s.(vote_record) ∧
  s'.(validators) = s.(validators) ∧ s'.(total_stake) = s.(total_stake) ∧
  ((s'.(epoch_validators), s'.(epoch_total_stake)) = (s.(epoch_validators), s.(epoch_total_stake)) ∨
   (s'.(epoch_validators), s'.(epoch_total_stake)) = (s.(validators), s.(total_stake))).
Proof.
  cbv zeta. unfold advance_slot, epoch_transition. cbv zeta.
  destruct (_ && _); [|cbn; split_and!; auto; apply map_filter_subseteq].
  destruct (epoch_randomness_updated _); cbn; split_and!; auto; apply map_filter_subseteq.
Qed.

Lemma advance_slot_inv s : s.(current_slot) < U64_MAX → hybrid_inv s → hybrid_inv (advance_slot s).
Proof.
  intros Hlt Hi. destruct (advance_slot_core s) as (Esl & Ev & Hq & _ & Eval & Etot & Eep).
  destruct Hi. cbn in *.
  assert (Enew : (advance_slot s).(current_slot) = s.(current_slot) + 1) by (rewrite Esl; ulia).
  assert (Hsub : ∀ sl p h, is_Some ((advance_slot s).(qcs) !! (sl, p, h)) → is_Some (s.(qcs) !! (sl, p, h)))
    by (intros sl p h [q E]; exists q; by eapply lookup_weaken).
  constructor; cbn.
  - rewrite Enew. lia.
  - by rewrite Eval, Etot.
  - destruct Eep as [[= -> ->]|[= -> ->]]; done.
  - intros sl p h m a v Hm. by rewrite Ev, lookup_empty in Hm.
  - intros sl p h Hs%Hsub%inv_qc_slot0. lia.
  - intros p h Hs%Hsub%inv_qc_slot0. lia.
  - intros sl p h p' h' Hq1%Hsub Hq2%Hsub. by eapply inv_qc_unique0.
Qed.

Lemma slash_validator_inv a bps s : 0 ≤ bps ≤ 10000 → hybrid_inv s → hybrid_inv (slash_validator a bps s).1.
Proof.
  intros Hb Hi. unfold slash_validator. destruct (s.(validators) !! a) as [v|] eqn:Ha; [|done].
  destruct Hi. cbn in *. destruct inv_live0 as [Hn Ht].
  pose proof (map_sum_lookup_le stake s.(validators) a v Hn Ha).
  pose proof (Hn a v Ha) as Hv. cbn in Hv.
  pose proof (Arith256.mul_div_le v.(stake) bps 10000 ltac:(ulia) Hb ltac:(lia)) as Hm.
  unfold mul_div. generalize dependent (Arith256.mul_div v.(stake) bps 10000). intros amt Hm.
  constructor; cbn; try done. split.
  - apply map_Forall_insert_2; [cbn; ulia|done].
  - rewrite map_sum_insert, Ha. cbn. ulia.
Qed.

Lemma foldl_insert_stakes (vs : list ValidatorInfo) (m : gmap Address ValidatorInfo) :
  Forall (λ v, 0 ≤ v.(stake)) vs → map_Forall (λ _ v, 0 ≤ v.(stake)) m →
  let m' := foldl (λ m v, <[to_address v.(pubkey) := v]> m) m vs in
  map_Forall (λ _ v, 0 ≤ v.(stake)) m' ∧ map_sum stake m' ≤ map_sum stake m + sum_list (stake <$> vs).
Proof.
  intros Hvs. revert m. induction Hvs as [|v vs Hv _ IH]; intros m Hm; cbn.
  { split; [done|]. unfold sum_list. cbn. lia. }
  destruct (IH (<[to_address v.(pubkey) := v]> m)) as [Hf Hle]; [by apply map_Forall_insert_2|].
  split; [done|]. etrans; [exact Hle|]. rewrite map_sum_insert. unfold sum_list. cbn.
  destruct (m !! to_address v.(pubkey)) as [w|] eqn:E; cbn; [|lia]. pose proof (Hm _ _ E). cbn in *. lia.
Qed.

Lemma with_vrf_inv vs tau len vrf bls addr now :
  Forall (λ v, 0 ≤ v.(stake)) vs → sum_list (stake <$> vs) ≤ U128_MAX →
  hybrid_inv (with_vrf vs tau len vrf bls addr now).
Proof.
  intros Hvs Hs. destruct (foldl_insert_stakes vs ∅ Hvs) as [Hf Hle]; [apply map_Forall_empty|].
  rewrite map_sum_empty in Hle.
  assert (Hok : stakes_ok (foldl (λ m v, <[to_address v.(pubkey) := v]> m) ∅ vs)
    (foldl (saturating_add U128_MAX) 0 (stake <$> vs))).
  { split; [done|]. rewrite foldl_saturating by (try apply Forall_fmap; done || ulia). ulia. }
  constructor; cbn; try done.
  - intros * Hm. by rewrite lookup_empty in Hm.
  - intros * [? Hm]. by rewrite lookup_empty in Hm.
  - intros * [? Hm]. by rewrite lookup_empty in Hm.
Qed.

(** ** Runs of the engine *)

(** Every operation but [check_finality]. A slot cannot advance beyond
    [u64::MAX], and a slash is at most the whole stake. *)
Inductive hybrid_step : HybridConsensus → HybridConsensus → Prop :=
| step_vote now v s : hybrid_step s (process_vote now v s).1
| step_batch now rands vs s : hybrid_step s (batch_process_votes now rands vs s).1
| step_advance_slot s : s.(current_slot) < U64_MAX → hybrid_step s (advance_slot s)
| step_advance_phase s : hybrid_step s (advance_phase s)
| step_record_block b p sl s : hybrid_step s (record_block b p sl s)
| step_timeout now s : hybrid_step s (on_timeout now s)
| step_pacemaker now r s : hybrid_step s (advance_pacemaker_to_round now r s)
| step_slash a bps s : 0 ≤ bps ≤ 10000 → hybrid_step s (slash_validator a bps s).1
| step_register_vrf a pk s : hybrid_step s (register_vrf_pubkey a pk s)
| step_register_bls a pk pop s : hybrid_step s (register_bls_pubkey a pk pop s).1
| step_randomness out s : hybrid_step s (update_epoch_randomness out s).1.

(** With the reports of finality. *)
Definition engine_step (s s' : HybridConsensus) : Prop :=
  hybrid_step s s' ∨ ∃ slot, s' = (check_finality slot s).1.

Lemma register_bls_core a pk pop s : core (register_bls_pubkey a pk pop s).1 = core s.
Proof.
  unfold register_bls_pubkey. unfold_M. destruct (negb _); [done|].
  destruct (Bls.verify_pop pk pop) as [[]|]; done.
Qed.

Lemma hybrid_step_inv s s' : hybrid_step s s' → hybrid_inv s → hybrid_inv s'.
Proof.
  intros [] Hi; try exact Hi.
  - destruct (process_vote now v s0) eqn:E. by eapply process_vote_inv.
  - by apply batch_process_votes_inv.
  - by apply advance_slot_inv.
  - destruct Hi. constructor; cbn in *; try done.
  - by apply slash_validator_inv.
  - unfold hybrid_inv. by rewrite register_bls_core.
  - unfold update_epoch_randomness. by case_match.
Qed.

Lemma engine_step_inv s s' : engine_step s s' → hybrid_inv s → hybrid_inv s'.
Proof.
  intros [Hs|[slot ->]] Hi; [by eapply hybrid_step_inv|].
  cbn. unfold hybrid_check_finality. by case_match.
Qed.

Lemma engine_run_inv s s' : rtc engine_step s s' → hybrid_inv s → hybrid_inv s'.
Proof. induction 1; [done|]. eauto using engine_step_inv. Qed.

End engine.
End Hybrid.
