(* ===== verification/HybridSafety.v ===== *)
(** * Safety of the hybrid engine

    The theorems about [Hybrid]: one certified block per slot, equivocation
    refused, two-chain finality, batches equal to single votes, the finality
    contract, and that an honest validator's votes and blocks are accepted. *)

From S2P Require Import Prelude.
From S2P Require Import Bls.
From S2P Require Import Vrf.
From S2P Require Import Consensus.
From S2P Require Import Hybrid.

Module HybridSafety.
Import Hybrid.

Section safety.
Context `{Blst, Digest, HybridEnv}.

(** C1: In every state the engine reaches, at most one block of a slot has a
    quorum certificate, whatever the phases, and a certificate of the current
    slot is backed by two thirds of the epoch's stake, each validator counted
    once with its epoch stake. *)
Theorem one_certified_block_per_slot (vs : list ValidatorInfo) tau len vrf bls addr now s :
  Forall (λ v, 0 ≤ v.(stake)) vs → sum_list (stake <$> vs) ≤ U128_MAX →
  rtc engine_step (with_vrf vs tau len vrf bls addr now) s →
  (∀ sl p h p' h', is_Some (s.(qcs) !! (sl, p, h)) → is_Some (s.(qcs) !! (sl, p', h')) → h = h') ∧
  (∀ p h, is_Some (s.(qcs) !! (s.(current_slot), p, h)) →
     Quorum.has_quorum (support s.(current_slot) h (core s)) s.(epoch_total_stake) = true).
Proof.
  intros Hvs Hsum Hrun.
  apply engine_run_inv in Hrun; [|by apply with_vrf_inv]. destruct Hrun. split; [done|].
  exact inv_qc_quorum0.
Qed.

(** ** What a vote leaves alone *)

Definition stable (s : HybridConsensus) :=
  (s.(epoch_validators), s.(epoch_total_stake), s.(current_slot), s.(bls_pubkeys), s.(block_parents),
   s.(block_slots), s.(last_reported_finalized)).

Lemma finalize_parent_stable p h s : stable (finalize_parent p h s) = stable s.
Proof. unfold finalize_parent. by repeat case_match. Qed.

Lemma on_quorum_stable v s : stable (on_quorum v s) = stable s.
Proof.
  unfold on_quorum, raise_committed, lock_on.
  destruct (current_phase s); repeat case_match; unfold stable; cbn; try done; apply finalize_parent_stable.
Qed.

Lemma count_vote_stable now v s s' r : count_vote now v s = (s', r) → stable s' = stable s.
Proof.
  unfold count_vote. intros Hc. unfold_M. cbv zeta in Hc.
  destruct (_ && _) in Hc; [by simplify_eq|]. destruct (bool_decide _) in Hc; [by simplify_eq|].
  destruct (negb _) in Hc; [by simplify_eq|]. destruct (_ =? 1) in Hc.
  - simplify_eq. unfold raise_committed. by repeat case_match.
  - destruct (aggregate_votes _ _) in Hc; simplify_eq; [|done].
    etrans; [apply (on_quorum_stable v)|done].
Qed.

Lemma process_vote_stable now v s s' r : process_vote now v s = (s', r) → stable s' = stable s.
Proof.
  unfold process_vote. intros Hp. unfold_M. destruct (check_vote v s) as [[]|]; [|by simplify_eq].
  destruct (record_first_vote _ _ _ s) as [s1 r1] eqn:Hr.
  apply record_first_vote_cases in Hr as [(-> & Hf & _)|(-> & _ & ->)].
  { destruct r1; [done|]. by simplify_eq. }
  by apply count_vote_stable in Hp as ->.
Qed.

Lemma process_vote_rejected now v s : check_vote v s ≠ Ok tt → ∃ e, process_vote now v s = (s, Err e).
Proof.
  intros Hc. unfold process_vote. unfold_M. destruct (check_vote v s) as [[]|e]; [done|]. by exists e.
Qed.

Lemma try_vote_stable now v s : stable (try_vote now v s).1 = stable s.
Proof.
  unfold try_vote. destruct (process_vote now v s) as [s' [qc|e]] eqn:E; cbn; by eapply process_vote_stable.
Qed.

(** ** Batches *)

(** The votes one by one, errors ignored. *)
Fixpoint sequential (now : Z) (vs : list Vote) (s : HybridConsensus) :
    HybridConsensus * list (option QuorumCertificate) :=
  match vs with
  | [] => (s, [])
  | v :: vs =>
      let '(s1, r) := try_vote now v s in
      let '(s2, rs) := sequential now vs s1 in
      (s2, r :: rs)
  end.

Lemma check_prepare v s0 s :
  stable s = stable s0 → check_vote v s = Ok tt →
  ∃ pk msg, prepare s0 v = Some (pk, msg, v.(vote_signature)) ∧ Bls.verify pk msg v.(vote_signature) = Ok true.
Proof.
  intros [= E1 _ E3 E4 _ _ _] (Hsl & w & pk & Hw & Hst & Hpk & Hv)%check_vote_Ok.
  rewrite E1 in Hw. rewrite E4 in Hpk. rewrite E3 in Hsl.
  apply Bls.verify_true in Hv as Hl. destruct Hl as (L1 & L2 & _).
  exists pk, (vote_message v.(vote_block_hash) v.(vote_slot)). split; [|done].
  unfold prepare, Bls.len. rewrite Hsl, Z.eqb_refl, Hw. cbn. rewrite Hst, Z.eqb_refl. cbn.
  rewrite Hpk. cbn. rewrite L1, L2. done.
Qed.

Lemma process_prepared_sequential now ok vs s0 s :
  stable s = stable s0 →
  process_prepared now ok (zip vs (prepare s0 <$> vs)) s = sequential now vs s.
Proof.
  revert s. induction vs as [|v vs IH]; intros s Es; [done|].
  cbn [fmap list_fmap zip_with process_prepared sequential].
  assert (Hstep : (if match prepare s0 v with
                      | None => false
                      | Some (pk, msg, sig) => ok || unwrap_or_false (Bls.verify pk msg sig)
                      end then try_vote now v s else (s, None)) = try_vote now v s).
  { destruct (check_vote v s) as [[]|] eqn:Hc.
    - destruct (check_prepare v s0 s Es Hc) as (pk & msg & -> & ->). by rewrite orb_true_r.
    - destruct (process_vote_rejected now v s) as [e' Hr]; [congruence|].
      unfold try_vote. rewrite Hr. by case_match. }
  rewrite Hstep. pose proof (try_vote_stable now v s) as Ht. destruct (try_vote now v s) as [s1 r].
  cbn in Ht. by rewrite (IH s1) by congruence.
Qed.

Lemma batch_state now rands vs s :
  (batch_process_votes now rands vs s).1 = s ∨
  (batch_process_votes now rands vs s).1 = (sequential now vs s).1.
Proof.
  unfold batch_process_votes, infallible. case_bool_decide; [by left|]. unfold_M.
  destruct (if bool_decide _ then _ else _); [|by left].
  rewrite process_prepared_sequential by done. right. by destruct (sequential now vs s).
Qed.

(** A batch of votes has exactly the effect of its votes processed one after
    another, with the same results, whatever the random scalars: unless the
    batch verification returns an error, which drops the whole batch. *)
Theorem batch_equals_sequential (now : Z) (rands : list Z) (vs : list Vote) (s : HybridConsensus) :
  match Bls.verify_batch rands (omap id (prepare s <$> vs)) with
  | Ok _ => batch_process_votes now rands vs s = ((sequential now vs s).1, Ok (sequential now vs s).2)
  | Err e => batch_process_votes now rands vs s = (s, Err e)
  end.
Proof.
  unfold batch_process_votes, infallible. case_bool_decide as Hvs; [by rewrite Hvs|]. unfold_M.
  case_bool_decide as Ht.
  - rewrite Ht. cbn. rewrite process_prepared_sequential by done. by destruct (sequential now vs s).
  - destruct (Bls.verify_batch _ _); [|done].
    rewrite process_prepared_sequential by done. by destruct (sequential now vs s).
Qed.

(** ** Equivocation *)

(** The vote of validator [a] for [h] in slot [sl] is on record, or the slot
    is over. *)
Definition voted (sl : Z) (a : Address) (h : H256) (s : HybridConsensus) : Prop :=
  sl < s.(current_slot) ∨ sl = s.(current_slot) ∧ s.(vote_record) !! (sl, a) = Some h.

Lemma count_vote_record now v s s' r : count_vote now v s = (s', r) → s'.(vote_record) = s.(vote_record).
Proof.
  intros Hc. change (c_record (core s') = c_record (core s)).
  by apply count_vote_stages in Hc as [[-> _]|[[-> _]|(qc & m & -> & _)]].
Qed.

(** An accepted vote is the validator's only vote of the slot. *)
Lemma process_vote_records now v s s' q :
  process_vote now v s = (s', Ok q) →
  voted v.(vote_slot) (to_address v.(vote_validator)) v.(vote_block_hash) s' ∧
  s.(vote_record) !! (v.(vote_slot), to_address v.(vote_validator)) ∈ [None; Some v.(vote_block_hash)].
Proof.
  intros Hp. pose proof (process_vote_stable now v s s' _ Hp) as [= _ _ Esl _ _ _ _].
  unfold process_vote in Hp. unfold_M.
  destruct (check_vote v s) as [[]|] eqn:Hc; [|done]. apply check_vote_Ok in Hc as [Hsl _].
  destruct (record_first_vote _ _ _ s) as [s1 r1] eqn:Hr.
  apply record_first_vote_cases in Hr as [(-> & Hf & _)|(-> & Hin & ->)]; [by destruct r1|].
  split; [|done]. right. split; [congruence|].
  rewrite (count_vote_record _ _ _ _ _ Hp). cbn. apply lookup_insert_eq.
Qed.

Lemma process_vote_keeps_record now v s s' r k h :
  process_vote now v s = (s', r) → s.(vote_record) !! k = Some h → s'.(vote_record) !! k = Some h.
Proof.
  intros Hp Hk. unfold process_vote in Hp. unfold_M.
  destruct (check_vote v s) as [[]|]; [|by simplify_eq].
  destruct (record_first_vote _ _ _ s) as [s1 r1] eqn:Hr.
  apply record_first_vote_cases in Hr as [(-> & Hf & _)|(-> & Hin & ->)].
  { destruct r1; [done|]. by simplify_eq. }
  rewrite (count_vote_record _ _ _ _ _ Hp). cbn.
  destruct (decide ((v.(vote_slot), to_address v.(vote_validator)) = k)) as [<-|];
    [|by rewrite lookup_insert_ne].
  rewrite lookup_insert_eq. rewrite Hk in Hin. set_solver.
Qed.

Lemma voted_try_vote now v sl a h s : voted sl a h s → voted sl a h (try_vote now v s).1.
Proof.
  intros Hv. pose proof (try_vote_stable now v s) as [= _ _ Esl _ _ _ _].
  unfold voted. rewrite Esl. destruct Hv as [|[? Hr]]; [by left|right; split; [done|]].
  unfold try_vote. destruct (process_vote now v s) as [s' [|]] eqn:E; cbn; by eapply process_vote_keeps_record.
Qed.

Lemma voted_sequential now vs sl a h s : voted sl a h s → voted sl a h (sequential now vs s).1.
Proof.
  revert s. induction vs as [|v vs IH]; intros s Hv; [done|]. cbn [sequential].
  apply (voted_try_vote now v) in Hv. destruct (try_vote now v s) as [s1 r]. cbn in Hv.
  apply IH in Hv. by destruct (sequential now vs s1).
Qed.

Lemma voted_step sl a h s s' : engine_step s s' → voted sl a h s → voted sl a h s'.
Proof.
  intros [Hs|[slot ->]] Hv.
  2: { unfold check_finality, hybrid_finality, hybrid_check_finality. by case_match. }
  destruct Hs; try exact Hv.
  - destruct (process_vote now v s) as [s' r] eqn:E. cbn.
    pose proof (process_vote_stable now v s s' r E) as [= _ _ Esl _ _ _ _].
    unfold voted. rewrite Esl. destruct Hv as [|[? Hr]]; [by left|right; split; [done|]].
    by eapply process_vote_keeps_record.
  - destruct (batch_state now rands vs s) as [-> | ->]; [done|by apply voted_sequential].
  - destruct (advance_slot_core s) as (E & _). left. rewrite E. destruct Hv as [|[? _]]; ulia.
  - unfold slash_validator. by case_match.
  - unfold register_bls_pubkey. unfold_M. repeat case_match; simplify_eq/=; try done.
  - unfold update_epoch_randomness. by case_match.
Qed.

(** A validator whose vote was accepted cannot vote for another block of that
    slot, however long the engine runs on: the second vote is an error and
    changes nothing. *)
Theorem equivocation_rejected (now now' : Z) (v1 v2 : Vote) (s s1 s2 : HybridConsensus)
    (q : option QuorumCertificate) :
  process_vote now v1 s = (s1, Ok q) → rtc engine_step s1 s2 →
  to_address v2.(vote_validator) = to_address v1.(vote_validator) →
  v2.(vote_slot) = v1.(vote_slot) → v2.(vote_block_hash) ≠ v1.(vote_block_hash) →
  ∃ e, process_vote now' v2 s2 = (s2, Err e).
Proof.
  intros [Hv _]%process_vote_records Hrun Ha Hsl Hh.
  assert (Hv2 : voted v1.(vote_slot) (to_address v1.(vote_validator)) v1.(vote_block_hash) s2).
  { induction Hrun as [|s1 s3 s2 Hs _ IH]; [done|]. apply IH. by eapply voted_step. }
  unfold process_vote. unfold_M. destruct (check_vote v2 s2) as [[]|e] eqn:Hc; [|by exists e].
  apply check_vote_Ok in Hc as [Hc _]. destruct Hv2 as [|[_ Hr]]; [lia|].
  unfold record_first_vote. unfold_M. rewrite Ha, Hsl, Hr.
  destruct (N.eqb_spec v1.(vote_block_hash) v2.(vote_block_hash)); [congruence|]. cbn. eauto.
Qed.

(** ** Finality *)

Lemma finalize_parent_spec p h s :
  let s' := finalize_parent p h s in
  s'.(qcs) = s.(qcs) ∧
  (s'.(hs_finalized_slot) = s.(hs_finalized_slot) ∨
   s.(hs_finalized_slot) < s'.(hs_finalized_slot) ∧
   ∃ parent, s.(block_parents) !! h = Some parent ∧ s.(block_slots) !! parent = Some s'.(hs_finalized_slot) ∧
     is_Some (s.(qcs) !! (s'.(hs_finalized_slot), p, parent))).
Proof.
  unfold finalize_parent. cbv zeta.
  destruct (s.(block_parents) !! h) as [parent|] eqn:E1; [|auto].
  destruct (s.(block_slots) !! parent) as [sl|] eqn:E2; [|auto].
  destruct (_ && _) eqn:E3; [|auto]. clean_ints. cbn. split; [done|right]. split; [done|]. eauto.
Qed.

(** What the new certificate of [v] finalizes. *)
Lemma on_quorum_finalizes v s :
  let s' := on_quorum v s in
  s'.(qcs) = s.(qcs) ∧
  (s'.(hs_finalized_slot) = s.(hs_finalized_slot) ∨
   s.(hs_finalized_slot) < s'.(hs_finalized_slot) ∧
   ∃ p parent, s.(block_parents) !! v.(vote_block_hash) = Some parent ∧
     s.(block_slots) !! parent = Some s'.(hs_finalized_slot) ∧
     is_Some (s.(qcs) !! (s'.(hs_finalized_slot), p, parent))).
Proof.
  assert (Hr : ∀ x y, (raise_committed x y).(qcs) = y.(qcs) ∧
    (raise_committed x y).(hs_finalized_slot) = y.(hs_finalized_slot))
    by (intros x y; unfold raise_committed; by case_match).
  cbv zeta. unfold on_quorum. destruct s.(current_phase).
  - destruct (Hr v.(vote_slot) (lock_on v.(vote_block_hash) v.(vote_slot) (finalize_parent Propose v.(vote_block_hash) s))) as [-> ->].
    cbn. destruct (finalize_parent_spec Propose v.(vote_block_hash) s) as [-> [->|(? & parent & ?)]]; [auto|].
    split; [done|]. right. split; [done|]. by exists Propose, parent.
  - auto.
  - destruct (Hr v.(vote_slot) (finalize_parent Prevote v.(vote_block_hash) s)) as [-> ->].
    destruct (finalize_parent_spec Prevote v.(vote_block_hash) s) as [-> [->|(? & parent & ?)]]; [auto|].
    split; [done|]. right. split; [done|]. by exists Prevote, parent.
  - auto.
Qed.

(** How a vote moves the finalized slot. *)
Lemma count_vote_finality now v s s' r :
  count_vote now v s = (s', r) →
  s'.(hs_finalized_slot) = s.(hs_finalized_slot) ∨
  s.(hs_finalized_slot) < s'.(hs_finalized_slot) ∧
  is_Some (s'.(qcs) !! (v.(vote_slot), s.(current_phase), v.(vote_block_hash))) ∧
  (size s.(epoch_validators) = 1%nat ∧ s'.(hs_finalized_slot) = v.(vote_slot) ∨
   size s.(epoch_validators) ≠ 1%nat ∧
   ∃ p parent, s.(block_parents) !! v.(vote_block_hash) = Some parent ∧
     s.(block_slots) !! parent = Some s'.(hs_finalized_slot) ∧
     is_Some (s'.(qcs) !! (s'.(hs_finalized_slot), p, parent))).
Proof.
  unfold count_vote. intros Hc. unfold_M. cbv zeta in Hc.
  destruct (_ && _) in Hc; [simplify_eq; by left|]. destruct (bool_decide _) in Hc; [simplify_eq; by left|].
  destruct (negb _) in Hc; [simplify_eq; by left|].
  destruct (_ =? 1) eqn:E1 in Hc; clean_ints.
  - simplify_eq. unfold raise_committed. repeat case_match; clean_ints; cbn in *; try (by left).
    all: right; split_and!; [done|eexists; apply lookup_insert_eq|left; split; [lia|done]].
  - destruct (aggregate_votes _ _) as [qc|] in Hc; simplify_eq; [|by left].
    match goal with |- context [on_quorum v ?x] => pose proof (on_quorum_finalizes v x) as Hf end.
    cbn [pacemaker_commit advance_phase set_pacemaker set_current_phase hs_finalized_slot qcs] in *.
    destruct Hf as [Eq [->|(Hlt & p & parent & Hb & Hsl & Hq)]]; [by left|].
    right. rewrite Eq. split_and!; [done|eexists; apply lookup_insert_eq|].
    right. split; [lia|]. exists p, parent. by split_and!.
Qed.

(** C4: A vote moves the finalized slot only forward, and only when it completes
    a certificate for its block. With more than one validator it follows the
    two-chain rule: the new finalized slot is that of the block's parent, which
    has a certificate of its own and is the only block of its slot that has one.
    With a single validator it is the slot of the block itself, the only block
    of its slot that has a certificate. *)
Theorem two_chain_finality (now : Z) (v : Vote) (s s' : HybridConsensus) r :
  hybrid_inv s → process_vote now v s = (s', r) →
  s'.(hs_finalized_slot) = s.(hs_finalized_slot) ∨
  s.(hs_finalized_slot) < s'.(hs_finalized_slot) ∧
  is_Some (s'.(qcs) !! (v.(vote_slot), s.(current_phase), v.(vote_block_hash))) ∧
  (size s.(epoch_validators) = 1%nat ∧ s'.(hs_finalized_slot) = v.(vote_slot) ∧
     (∀ p' h, is_Some (s'.(qcs) !! (s'.(hs_finalized_slot), p', h)) → h = v.(vote_block_hash)) ∨
   size s.(epoch_validators) ≠ 1%nat ∧
   ∃ p parent, s.(block_parents) !! v.(vote_block_hash) = Some parent ∧
    s.(block_slots) !! parent = Some s'.(hs_finalized_slot) ∧
    is_Some (s'.(qcs) !! (s'.(hs_finalized_slot), p, parent)) ∧
    ∀ p' h, is_Some (s'.(qcs) !! (s'.(hs_finalized_slot), p', h)) → h = parent).
Proof.
  intros Hi Hp. pose proof (process_vote_inv now v s s' r Hp Hi) as Hi'.
  unfold process_vote in Hp. unfold_M.
  destruct (check_vote v s) as [[]|]; [|simplify_eq; by left].
  destruct (record_first_vote _ _ _ s) as [s1 r1] eqn:Hr.
  apply record_first_vote_cases in Hr as [(-> & Hf & _)|(-> & _ & ->)].
  { destruct r1; [done|]. simplify_eq; by left. }
  apply count_vote_finality in Hp as [Hp|(Hlt & Hq & Hc)]; cbn in *; [by left|]. right. split_and!; [done..|].
  destruct Hc as [[Hone Hsl]|(Hone & p & parent & Hb & Hsl & Hqp)].
  - left. split_and!; [done..|]. intros p' h Hh. rewrite Hsl in Hh. by eapply (inv_qc_unique _ Hi').
  - right. split; [done|]. exists p, parent. split_and!; [done..|]. intros p' h Hh. by eapply (inv_qc_unique _ Hi').
Qed.

Lemma process_vote_finalized now v s s' r :
  process_vote now v s = (s', r) → s.(hs_finalized_slot) ≤ s'.(hs_finalized_slot).
Proof.
  unfold process_vote. intros Hp. unfold_M. destruct (check_vote v s) as [[]|]; [|by simplify_eq].
  destruct (record_first_vote _ _ _ s) as [s1 r1] eqn:Hr.
  apply record_first_vote_cases in Hr as [(-> & Hf & _)|(-> & _ & ->)].
  { destruct r1; [done|]. by simplify_eq. }
  apply count_vote_finality in Hp as [Hp|[Hp _]]; cbn in Hp; lia.
Qed.

Lemma sequential_stable now vs s :
  stable (sequential now vs s).1 = stable s ∧ s.(hs_finalized_slot) ≤ (sequential now vs s).1.(hs_finalized_slot).
Proof.
  revert s. induction vs as [|v vs IH]; intros s; [done|]. cbn [sequential].
  pose proof (try_vote_stable now v s) as Hs.
  assert (s.(hs_finalized_slot) ≤ (try_vote now v s).1.(hs_finalized_slot)).
  { unfold try_vote. destruct (process_vote now v s) as [s' [|]] eqn:E; cbn; by eapply process_vote_finalized. }
  destruct (try_vote now v s) as [s1 r]. destruct (IH s1) as [IH1 IH2].
  destruct (sequential now vs s1). cbn in *. split; [congruence|lia].
Qed.

(** No operation lowers the finalized slot or the last reported one. *)
Lemma hybrid_step_watermarks s s' : hybrid_step s s' →
  s'.(last_reported_finalized) = s.(last_reported_finalized) ∧ s.(hs_finalized_slot) ≤ s'.(hs_finalized_slot).
Proof.
  intros []; try (split; [done|cbn; lia]).
  - destruct (process_vote now v s0) as [s1 r] eqn:E.
    pose proof (process_vote_stable now v s0 s1 r E) as [= _ _ _ _ _ _ El].
    split; [done|]. by eapply process_vote_finalized.
  - destruct (batch_state now rands vs s0) as [-> | ->]; [split; [done|lia]|].
    destruct (sequential_stable now vs s0) as [[= _ _ _ _ _ _ El] Hle]. done.
  - unfold advance_slot, epoch_transition. cbv zeta. repeat case_match; cbn; split; done || lia.
  - unfold slash_validator. case_match; cbn; split; done || lia.
  - unfold register_bls_pubkey. unfold_M. repeat case_match; simplify_eq/=; split; done || lia.
  - unfold update_epoch_randomness. case_match; cbn; split; done || lia.
Qed.

(** The engine keeps the contract of the [Finality] trait. *)
#[global] Program Instance hybrid_contract : FinalityContract HybridConsensus hybrid_step := {
  watermark := last_reported_finalized
}.
Next Obligation.
  cbn. intros slot s s' Hc. unfold hybrid_check_finality in Hc. case_match; simplify_eq. clean_ints. cbn. lia.
Qed.
Next Obligation. cbn. intros slot s s' Hc. unfold hybrid_check_finality in Hc. by case_match; simplify_eq. Qed.
Next Obligation. intros s s' Hs. apply hybrid_step_watermarks in Hs. cbn. lia. Qed.

(** ** Honest validators *)

(** The vote an engine creates passes the checks of every engine that is in
    the same slot, has the same entry for the voter in its epoch's validators,
    and has the voter's BLS key. *)
Theorem created_vote_accepted `{!BlstLaws} (s p : HybridConsensus) (kp : Bls.BlsKeypair) (a : Address)
    (w : ValidatorInfo) (h : H256) (ph : Phase) :
  s.(my_bls_keypair) = Some kp → Bls.keypair_wf kp → s.(my_address) = Some a →
  s.(epoch_validators) !! a = Some w → to_address w.(pubkey) = a →
  p.(current_slot) = s.(current_slot) → p.(epoch_validators) !! a = Some w →
  p.(bls_pubkeys) !! a = Some (Bls.public_key kp) →
  ∃ v, create_vote h ph s = Ok (Some v) ∧ v.(vote_block_hash) = h ∧ check_vote v p = Ok tt.
Proof.
  intros Hkp Hwf Ha Hw Hpk Hsl Hpw Hpb. unfold create_vote. rewrite Hkp, Ha, Hw. cbn.
  eexists. split_and!; [done|done|]. apply check_vote_Ok. cbn. split; [done|].
  exists w, (Bls.public_key kp). rewrite Hpk. split_and!; [done..|].
  by apply Bls.sign_verify_roundtrip.
Qed.

End safety.

(** ** A run of three validators *)

#[global] Program Instance demo_digest : Digest := {
  sha256_digest bs := (N.shiftl (Z.to_N (sum_list bs)) 96 mod 2 ^ 256)%N
}.
Next Obligation. intros. apply N.mod_upper_bound. done. Qed.
#[global] Program Instance demo_env : HybridEnv := {
  vrf_verify pk input proof := Ok (bool_decide (proof.(vrf_proof_bytes) = pk ++ input));
  iter := map_to_list
}.
Next Obligation. done. Qed.

Definition demo_validators : list ValidatorInfo :=
  [mkValidatorInfo 1 10 0 true; mkValidatorInfo 2 10 0 true; mkValidatorInfo 3 10 0 true].
(** Validator 2 has the second key pair, 1 and 3 the first. *)
Definition demo_kp (a : N) : Bls.BlsKeypair := if (a =? 2)%N then Bls.demo_keys.2 else Bls.demo_keys.1.
Definition demo_start : HybridConsensus := with_vrf demo_validators 8000 100 None None None 0.
Definition demo_vote (a : N) (sl : Z) (h : H256) : Vote :=
  mkVote sl h a (Bls.sign (demo_kp a) (vote_message h sl)) 10.
Definition register (a : N) (s : HybridConsensus) : HybridConsensus :=
  (register_bls_pubkey a (Bls.public_key (demo_kp a)) (Bls.proof_of_possession (demo_kp a)) s).1.
Definition cast (v : Vote) (s : HybridConsensus) : HybridConsensus := (process_vote 0 v s).1.

(** Slot 1, block 2 certified by validators 1 and 2; slot 2, block 3 on top of
    it, with the vote of validator 1. *)
Definition demo_keyed : HybridConsensus := register 3 (register 2 (register 1 demo_start)).
Definition demo_slot1 : HybridConsensus := record_block 2 0 1 (advance_slot demo_keyed).
Definition demo_voted1 : HybridConsensus := cast (demo_vote 1 1 2) demo_slot1.
Definition demo_qc1 : HybridConsensus := cast (demo_vote 2 1 2) demo_voted1.
Definition demo_slot2 : HybridConsensus := record_block 3 2 2 (advance_slot demo_qc1).
Definition demo_voted2 : HybridConsensus := cast (demo_vote 1 2 3) demo_slot2.
Definition demo_final : HybridConsensus := cast (demo_vote 2 2 3) demo_voted2.

Lemma demo_run1 : rtc engine_step demo_start demo_voted1.
Proof.
  apply (rtc_l _ _ (register 1 demo_start)); [left; apply step_register_bls|].
  apply (rtc_l _ _ (register 2 (register 1 demo_start))); [left; apply step_register_bls|].
  apply (rtc_l _ _ demo_keyed); [left; apply step_register_bls|].
  apply (rtc_l _ _ (advance_slot demo_keyed)); [left; apply step_advance_slot; by vm_compute|].
  apply (rtc_l _ _ demo_slot1); [left; apply step_record_block|].
  apply (rtc_l _ _ demo_voted1); [left; apply step_vote|]. apply rtc_refl.
Qed.

Lemma demo_run2 : rtc engine_step demo_voted1 demo_final.
Proof.
  apply (rtc_l _ _ demo_qc1); [left; apply step_vote|].
  apply (rtc_l _ _ (advance_slot demo_qc1)); [left; apply step_advance_slot; by vm_compute|].
  apply (rtc_l _ _ demo_slot2); [left; apply step_record_block|].
  apply (rtc_l _ _ demo_voted2); [left; apply step_vote|].
  apply (rtc_l _ _ demo_final); [left; apply step_vote|]. apply rtc_refl.
Qed.

Lemma one_certified_block_per_slot_witness :
  is_Some (demo_final.(qcs) !! (1, Propose, 2%N)) ∧ is_Some (demo_final.(qcs) !! (2, Propose, 3%N)) ∧
  demo_final.(hs_finalized_slot) = 1 ∧
  (∀ sl p h p' h', is_Some (demo_final.(qcs) !! (sl, p, h)) → is_Some (demo_final.(qcs) !! (sl, p', h')) → h = h').
Proof.
  split_and!; [vm_compute; eauto|vm_compute; eauto|vm_compute; reflexivity|].
  apply (one_certified_block_per_slot demo_validators 8000 100 None None None 0).
  - repeat constructor; by vm_compute.
  - by vm_compute.
  - etrans; [apply demo_run1|apply demo_run2].
Defined.

Lemma equivocation_rejected_witness : ∃ e, process_vote 7 (demo_vote 1 1 5) demo_final = (demo_final, Err e).
Proof.
  apply (equivocation_rejected 0 7 (demo_vote 1 1 2) (demo_vote 1 1 5) demo_slot1 demo_voted1 demo_final None);
    [vm_compute; reflexivity|apply demo_run2|reflexivity..|done].
Defined.

Lemma demo_voted2_inv : hybrid_inv demo_voted2.
Proof.
  unfold demo_voted2, cast. destruct (process_vote 0 (demo_vote 1 2 3) demo_slot2) as [s r] eqn:E.
  apply (process_vote_inv _ _ _ _ _ E). apply (engine_run_inv demo_start); [|apply with_vrf_inv].
  - etrans; [apply demo_run1|]. apply (rtc_l _ _ demo_qc1); [left; apply step_vote|].
    apply (rtc_l _ _ (advance_slot demo_qc1)); [left; apply step_advance_slot; by vm_compute|].
    apply (rtc_l _ _ demo_slot2); [left; apply step_record_block|]. apply rtc_refl.
  - repeat constructor; by vm_compute.
  - by vm_compute.
Qed.

Lemma two_chain_finality_witness : demo_voted2.(hs_finalized_slot) = 0 ∧ demo_final.(hs_finalized_slot) = 1 ∧
  (demo_final.(hs_finalized_slot) = demo_voted2.(hs_finalized_slot) ∨
   demo_voted2.(hs_finalized_slot) < demo_final.(hs_finalized_slot) ∧
   is_Some (demo_final.(qcs) !! (2, Propose, 3%N)) ∧
   (size demo_voted2.(epoch_validators) = 1%nat ∧ demo_final.(hs_finalized_slot) = 2 ∧
      (∀ p' h, is_Some (demo_final.(qcs) !! (demo_final.(hs_finalized_slot), p', h)) → h = 3%N) ∨
    size demo_voted2.(epoch_validators) ≠ 1%nat ∧
    ∃ p parent, demo_voted2.(block_parents) !! 3%N = Some parent ∧
     demo_voted2.(block_slots) !! parent = Some demo_final.(hs_finalized_slot) ∧
     is_Some (demo_final.(qcs) !! (demo_final.(hs_finalized_slot), p, parent)) ∧
     ∀ p' h, is_Some (demo_final.(qcs) !! (demo_final.(hs_finalized_slot), p', h)) → h = parent)).
Proof.
  split_and!; [vm_compute; reflexivity..|].
  apply (two_chain_finality 0 (demo_vote 2 2 3) demo_voted2 demo_final (process_vote 0 (demo_vote 2 2 3) demo_voted2).2).
  - apply demo_voted2_inv.
  - apply surjective_pairing.
Defined.

Definition demo_voter : HybridConsensus :=
  with_vrf demo_validators 8000 100 None (Some (demo_kp 1)) (Some 1%N) 0.

Lemma created_vote_accepted_witness : ∃ v,
  create_vote 9 Propose demo_voter = Ok (Some v) ∧ v.(vote_block_hash) = 9%N ∧ check_vote v demo_keyed = Ok tt.
Proof.
  apply (created_vote_accepted demo_voter demo_keyed (demo_kp 1) 1 (mkValidatorInfo 1 10 0 true));
    vm_compute; reflexivity.
Defined.

(** ** Defects *)

(** A vote does not name its phase: the two votes that certified block 2 for
    the first phase, delivered again, certify it for the next ones. *)
Lemma replayed_votes_certify_every_phase :
  let again s := cast (demo_vote 2 1 2) (cast (demo_vote 1 1 2) s) in
  is_Some ((again demo_qc1).(qcs) !! (1, Prevote, 2%N)) ∧
  is_Some ((again (again demo_qc1)).(qcs) !! (1, Precommit, 2%N)).
Proof. cbv zeta. split; vm_compute; eauto. Qed.

(** Nothing stops two validators from registering one BLS key (the proof of
    possession does not name the validator). Their votes carry the same
    signature, the aggregation refuses duplicates, and a block all validators
    voted for gets no certificate. *)
Lemma copied_key_blocks_certificates :
  let s := cast (demo_vote 2 1 2) (cast (demo_vote 3 1 2) (cast (demo_vote 1 1 2) demo_slot1)) in
  s.(qcs) = ∅ ∧ support 1 2 (core s) = 30 ∧ s.(epoch_total_stake) = 30.
Proof. cbv zeta. split_and!; vm_compute; reflexivity. Qed.

(** One vote with an undecodable signature makes the batch verification an
    error, and the valid votes of the batch are dropped with it. *)
Lemma malformed_signature_drops_batch :
  let bad := mkVote 1 2 3 (replicate 96 7) 10 in
  let vs := [demo_vote 1 1 2; demo_vote 2 1 2] in
  is_Some ((batch_process_votes 0 [1; 3] vs demo_slot1).1.(qcs) !! (1, Propose, 2%N)) ∧
  (batch_process_votes 0 [1; 3; 5] (vs ++ [bad]) demo_slot1).1.(votes) = ∅ ∧
  is_ok (batch_process_votes 0 [1; 3; 5] (vs ++ [bad]) demo_slot1).2 = false.
Proof. cbv zeta. split_and!; [vm_compute; eauto|vm_compute; reflexivity..]. Qed.

End HybridSafety.
