(* ===== verification/Merkle.v ===== *)
(** * The sparse Merkle tree

    [crates/state/merkle/src]: the 160-level tree over addresses that commits
    the ledger's state ([tree.rs]) and its inclusion and exclusion proofs
    ([proof.rs]). The tree hashes a sorted vector of leaves by splitting it
    with [partition_point] at every bit; the theorems show that this is the
    tree of the leaves by their address bits, that every proof it makes
    verifies, and that a verifying proof of another value exhibits a collision
    of SHA-256. *)

From S2P Require Import Prelude.

Module Merkle.
Section merkle.
Context `{Digest}.

(** ** proof.rs *)

Record MerkleProof := mkProof {
  key : Address;
  value_hash : option H256;
  proof_root : H256;
  siblings : list H256
}.

Definition internal_input (left right : H256) : list Z := [1] ++ as_bytes 32 left ++ as_bytes 32 right.
Definition internal_hash (left right : H256) : H256 := sha256_digest (internal_input left right).

Definition leaf_input (k : Address) (vh : H256) : list Z := [0] ++ as_bytes 20 k ++ as_bytes 32 vh.
Definition leaf_hash (k : Address) (vh : H256) : H256 := sha256_digest (leaf_input k vh).

Definition bit_of (byte : Z) (offset : nat) : bool := Z.land (Z.shiftr byte (Z.of_nat offset)) 1 =? 1.

Definition address_to_bits (a : Address) : list bool :=
  flat_map (λ byte, bit_of byte <$> [7; 6; 5; 4; 3; 2; 1; 0]%nat) (as_bytes 20 a).

(** The loop over the siblings, from the leaf to the root. *)
Fixpoint climb (bits : list bool) (i : nat) (sibs : list H256) (current : H256) {struct sibs} : H256 :=
  match sibs with
  | [] => current
  | sibling :: sibs =>
      let bit_index := (length bits - 1 - i)%nat in
      climb bits (S i) sibs
        (if nth bit_index bits false then internal_hash sibling current else internal_hash current sibling)
  end.

Definition verify (p : MerkleProof) : bool :=
  let key_bits := address_to_bits p.(key) in
  let depth := length key_bits in
  if negb (length p.(siblings) =? depth)%nat then false else
  let current := match p.(value_hash) with
                 | Some vh => leaf_hash p.(key) vh
                 | None => sha256_digest [0]
                 end in
  (climb key_bits 0 p.(siblings) current =? p.(proof_root))%N.

(** ** tree.rs *)

Record SparseMerkleTree := mkTree {
  root : H256;
  leaves : gmap Address H256;
  defaults : list H256;
  depth : nat
}.

Definition get_bit (a : Address) (bit_index : nat) : bool :=
  bit_of (nth (bit_index / 8) (as_bytes 20 a) 0) (7 - bit_index mod 8).

(** [slice::partition_point]: the length of the prefix that satisfies [p]. *)
Fixpoint partition_point {A} (p : A → bool) (l : list A) : nat :=
  match l with
  | [] => 0
  | x :: l => if p x then S (partition_point p l) else 0
  end.

Definition partition_by_bit (ls : list (Address * H256)) (bit_index : nat) : nat :=
  partition_point (λ x, negb (get_bit x.1 bit_index)) ls.

Fixpoint push_defaults (n : nat) (ds : list H256) : list H256 :=
  match n with
  | O => ds
  | S n => let prev := default 0%N (last ds) in push_defaults n (ds ++ [internal_hash prev prev])
  end.

Definition precompute_defaults (d : nat) : list H256 := push_defaults d [sha256_digest [0]].

Fixpoint subtree_hash_sorted (ds : list H256) (ls : list (Address * H256)) (bit_index height : nat)
    {struct height} : H256 :=
  match ls, height with
  | [], _ => nth height ds 0%N
  | x :: _, O => x.2
  | _ :: _, S h =>
      let split := partition_by_bit ls bit_index in
      internal_hash (subtree_hash_sorted ds (take split ls) (S bit_index) h)
                    (subtree_hash_sorted ds (drop split ls) (S bit_index) h)
  end.

(** The leaves with their hashes, sorted by address (big-endian bytes). *)
Definition address_le (x y : Address * H256) : Prop := (x.1 ≤ y.1)%N.
#[global] Instance address_le_dec : RelDecision address_le.
Proof. intros x y. unfold address_le. apply _. Defined.

Definition sorted_leaves (m : gmap Address H256) : list (Address * H256) :=
  merge_sort address_le ((λ kv, (kv.1, leaf_hash kv.1 kv.2)) <$> map_to_list m).

Definition compute_root (t : SparseMerkleTree) : H256 :=
  if bool_decide (t.(leaves) = ∅) then nth t.(depth) t.(defaults) 0%N
  else subtree_hash_sorted t.(defaults) (sorted_leaves t.(leaves)) 0 t.(depth).

Definition new : SparseMerkleTree :=
  let ds := precompute_defaults 160 in mkTree (nth 160 ds 0%N) ∅ ds 160.

(** Replace the leaves and recompute the root. *)
Definition set_leaves (m : gmap Address H256) (t : SparseMerkleTree) : SparseMerkleTree :=
  let t := mkTree t.(root) m t.(defaults) t.(depth) in
  mkTree (compute_root t) m t.(defaults) t.(depth).

Definition update (k : Address) (vh : H256) (t : SparseMerkleTree) : SparseMerkleTree :=
  set_leaves (<[k := vh]> t.(leaves)) t.

Definition delete_leaf (k : Address) (t : SparseMerkleTree) : SparseMerkleTree :=
  set_leaves (delete k t.(leaves)) t.

Definition get (k : Address) (t : SparseMerkleTree) : option H256 := t.(leaves) !! k.

(** [n] is [depth - bit_index]. *)
Fixpoint collect_siblings_sorted (ds : list H256) (target : Address) (ls : list (Address * H256))
    (bit_index n : nat) {struct n} : list H256 :=
  match n with
  | O => []
  | S h =>
      let split := partition_by_bit ls bit_index in
      let target_goes_right := get_bit target bit_index in
      let same_side := if target_goes_right then drop split ls else take split ls in
      let other_side := if target_goes_right then take split ls else drop split ls in
      subtree_hash_sorted ds other_side (S bit_index) h
        :: collect_siblings_sorted ds target same_side (S bit_index) h
  end.

Definition prove (k : Address) (t : SparseMerkleTree) : MerkleProof :=
  mkProof k (t.(leaves) !! k) t.(root)
    (reverse (collect_siblings_sorted t.(defaults) k (sorted_leaves t.(leaves)) 0 t.(depth))).

(** ** Bits of an address *)

Lemma lookup_to_le_bytes n z k : (k < n)%nat → to_le_bytes n z !! k = Some ((z / 256 ^ Z.of_nat k) mod 256).
Proof.
  revert z k. induction n as [|n IH]; intros z k Hk; [lia|].
  change (to_le_bytes (S n) z) with (z mod 256 :: to_le_bytes n (z / 256)).
  destruct k as [|k]; cbn [lookup list_lookup]; [by rewrite Z.div_1_r|].
  rewrite IH by lia. rewrite Z.div_div by (try apply Z.pow_nonzero; lia).
  by rewrite Nat2Z.inj_succ, Z.pow_succ_r by lia.
Qed.

Lemma nth_as_bytes n a k : (k < n)%nat →
  nth k (as_bytes n a) 0 = (Z.of_N a / 256 ^ Z.of_nat (n - 1 - k)) mod 256.
Proof.
  intros Hk. unfold as_bytes, to_be_bytes.
  assert (E : reverse (to_le_bytes n (Z.of_N a)) !! k = Some ((Z.of_N a / 256 ^ Z.of_nat (n - 1 - k)) mod 256)).
  { rewrite reverse_lookup by (by rewrite length_to_le_bytes). rewrite length_to_le_bytes.
    replace (n - S k)%nat with (n - 1 - k)%nat by lia. apply lookup_to_le_bytes. lia. }
  apply nth_lookup_Some with (d := 0) in E. done.
Qed.

Lemma bit_of_testbit b k : bit_of b k = Z.testbit b (Z.of_nat k).
Proof.
  unfold bit_of. rewrite (Z.land_ones _ 1), Z.pow_1_r, <- Z.bit0_mod, Z.shiftr_spec, Z.add_0_l by lia.
  by destruct (Z.testbit b _).
Qed.

(** The path of an address reads its 160 bits from the top. *)
Lemma get_bit_testbit a i : (i < 160)%nat → get_bit a i = N.testbit a (N.of_nat (159 - i)).
Proof.
  intros Hi. pose proof (Nat.div_mod_eq i 8). pose proof (Nat.mod_upper_bound i 8 ltac:(lia)).
  assert (i / 8 < 20)%nat by (apply Nat.Div0.div_lt_upper_bound; lia).
  unfold get_bit. rewrite bit_of_testbit, nth_as_bytes by done.
  change 256 with (2 ^ 8) at 2. rewrite Z.mod_pow2_bits_low by lia.
  change 256 with (2 ^ 8). rewrite <- Z.pow_mul_r by lia.
  rewrite Z.div_pow2_bits by lia.
  replace (Z.of_nat (7 - i mod 8) + 8 * Z.of_nat (20 - 1 - i / 8)) with (Z.of_N (N.of_nat (159 - i))) by lia.
  apply Z.testbit_of_N.
Qed.

Lemma bytes_to_bits (l : list Z) : length l = 20%nat →
  flat_map (λ byte, bit_of byte <$> [7; 6; 5; 4; 3; 2; 1; 0]%nat) l =
  (λ i, bit_of (nth (i / 8) l 0) (7 - i mod 8)) <$> seq 0 160.
Proof. intros Hl. do 20 (destruct l as [|? l]; [done|]). destruct l; [reflexivity|done]. Qed.

Lemma address_to_bits_get a : address_to_bits a = get_bit a <$> seq 0 160.
Proof. unfold address_to_bits. by rewrite bytes_to_bits by apply length_as_bytes. Qed.

(** Addresses with the same bits are equal. *)
Lemma bits_inj a b : (a < 2 ^ 160)%N → (b < 2 ^ 160)%N →
  (∀ i, (i < 160)%nat → get_bit a i = get_bit b i) → a = b.
Proof.
  intros Ha Hb Hbits. apply N.bits_inj. intros j. destruct (decide (j < 160)%N) as [Hj|Hj].
  - specialize (Hbits (159 - N.to_nat j)%nat ltac:(lia)). rewrite !get_bit_testbit in Hbits by lia.
    by replace (N.of_nat (159 - (159 - N.to_nat j))) with j in Hbits by lia.
  - rewrite <- (N.mod_small a (2 ^ 160)), <- (N.mod_small b (2 ^ 160)) by done.
    by rewrite !N.mod_pow2_bits_high by lia.
Qed.

(** Among addresses that agree on the first [i] bits, order follows bit [i]. *)
Lemma get_bit_mono a b i : (i < 160)%nat → (a < 2 ^ 160)%N → (b < 2 ^ 160)%N →
  (∀ j, (j < i)%nat → get_bit a j = get_bit b j) → (a ≤ b)%N → get_bit a i = true → get_bit b i = true.
Proof.
  intros Hi Ha Hb Hpre Hle. rewrite !get_bit_testbit by done.
  set (k := N.of_nat (159 - i)).
  assert (Hsh : N.shiftr a (N.succ k) = N.shiftr b (N.succ k)).
  { apply N.bits_inj. intros j. rewrite !N.shiftr_spec by lia.
    destruct (decide (j + N.succ k < 160)%N) as [Hj|Hj].
    - specialize (Hpre (159 - N.to_nat (j + N.succ k))%nat ltac:(lia)).
      rewrite !get_bit_testbit in Hpre by lia.
      by replace (N.of_nat (159 - (159 - N.to_nat (j + N.succ k)))) with (j + N.succ k)%N in Hpre by lia.
    - rewrite <- (N.mod_small a (2 ^ 160)), <- (N.mod_small b (2 ^ 160)) by done.
      by rewrite !N.mod_pow2_bits_high by lia. }
  rewrite !N.testbit_true. rewrite !N.shiftr_div_pow2, N.pow_succ_r' in Hsh.
  rewrite !(N.mul_comm 2), <- !N.Div0.div_div in Hsh.
  pose proof (N.Div0.div_le_mono a b (2 ^ k) Hle).
  pose proof (N.div_mod' (a / 2 ^ k) 2). pose proof (N.div_mod' (b / 2 ^ k) 2).
  pose proof (N.mod_upper_bound (b / 2 ^ k) 2 ltac:(done)). lia.
Qed.

(** ** Splitting a sorted slice *)

(** The predicate, once false, stays false. *)
Definition partitioned {A} (p : A → bool) (l : list A) : Prop :=
  StronglySorted (λ x y, p y = true → p x = true) l.

Lemma partition_point_filter {A} (p : A → bool) (l : list A) :
  partitioned p l →
  take (partition_point p l) l = filter (λ x, p x = true) l ∧
  drop (partition_point p l) l = filter (λ x, p x = false) l.
Proof.
  induction 1 as [|x l _ [IH1 IH2] Hx]; [done|]. cbn [partition_point].
  rewrite !filter_cons. destruct (p x) eqn:E; cbn [take drop].
  - rewrite decide_True, decide_False by done. by rewrite IH1, IH2.
  - rewrite decide_False, decide_True by done.
    assert (Hall : Forall (λ y, p y = false) l).
    { eapply Forall_impl; [exact Hx|]. intros y Hy. cbn in Hy. destruct (p y); [|done]. specialize (Hy eq_refl). congruence. }
    split; [|f_equal]; clear -Hall; induction Hall as [|y l Hy _ IH]; rewrite ?filter_cons; try done.
    + by rewrite decide_False by congruence.
    + rewrite decide_True by done. by f_equal.
Qed.

(** A slice of the recursion: sorted, and the addresses agree on the first
    [i] bits. *)
Record slice_ok (ls : list (Address * H256)) (i : nat) : Prop := {
  slice_sorted : StronglySorted address_le ls;
  slice_range : Forall (λ x, (x.1 < 2 ^ 160)%N) ls;
  slice_prefix : ∀ x y j, x ∈ ls → y ∈ ls → (j < i)%nat → get_bit x.1 j = get_bit y.1 j
}.

Lemma slice_partitioned ls i : slice_ok ls i → (i < 160)%nat →
  partitioned (λ x, negb (get_bit x.1 i)) ls.
Proof.
  intros [Hs Hr Hp] Hi. induction Hs as [|x ls _ IH Hx]; constructor.
  - apply IH; [by inv Hr|]. intros y z j Hy Hz. apply Hp; by right.
  - rewrite Forall_forall in Hr, Hx |- *. intros y Hy. rewrite !negb_true_iff. intros Hb.
    destruct (get_bit x.1 i) eqn:E; [|done]. rewrite <- Hb. symmetry.
    apply (get_bit_mono x.1); auto; [apply Hr; left|apply Hr; by right| |by apply Hx].
    intros j Hj. apply Hp; [left|by right|done].
Qed.

Lemma StronglySorted_filter {A} (R : A → A → Prop) (P : A → Prop) `{∀ x, Decision (P x)} l :
  StronglySorted R l → StronglySorted R (filter P l).
Proof.
  induction 1 as [|x l _ IH Hx]; [constructor|]. rewrite filter_cons. case_decide; [|done].
  constructor; [done|]. rewrite Forall_forall in *. intros y [_ Hy]%list_elem_of_filter. auto.
Qed.

Definition side (b : bool) (ls : list (Address * H256)) (i : nat) : list (Address * H256) :=
  filter (λ x, get_bit x.1 i = b) ls.

Lemma split_sides ls i : slice_ok ls i → (i < 160)%nat →
  take (partition_by_bit ls i) ls = side false ls i ∧ drop (partition_by_bit ls i) ls = side true ls i.
Proof.
  intros Hok Hi. unfold partition_by_bit, side.
  destruct (partition_point_filter _ ls (slice_partitioned ls i Hok Hi)) as [-> ->].
  split; apply list_filter_iff; intros x; [apply negb_true_iff|apply negb_false_iff].
Qed.

Lemma side_ok b ls i : slice_ok ls i → slice_ok (side b ls i) (S i).
Proof.
  intros [Hs Hr Hp]. constructor.
  - by apply StronglySorted_filter.
  - rewrite Forall_forall in *. intros x [_ Hx]%list_elem_of_filter. auto.
  - intros x y j [Ex Hx]%list_elem_of_filter [Ey Hy]%list_elem_of_filter Hj.
    destruct (decide (j = i)) as [->|]; [congruence|]. apply Hp; [done..|lia].
Qed.

(** ** The tree by bits *)

Fixpoint default_hash (n : nat) : H256 :=
  match n with O => sha256_digest [0] | S n => internal_hash (default_hash n) (default_hash n) end.

(** The reference: split by the bit, without sorting or defaults. *)
Fixpoint ref_hash (ls : list (Address * H256)) (i n : nat) {struct n} : H256 :=
  match n with
  | O => match ls with [] => sha256_digest [0] | x :: _ => x.2 end
  | S h => internal_hash (ref_hash (side false ls i) (S i) h) (ref_hash (side true ls i) (S i) h)
  end.

Lemma ref_hash_nil i n : ref_hash [] i n = default_hash n.
Proof. revert i. induction n as [|n IH]; intros i; cbn; [done|]. by rewrite !IH. Qed.

Lemma push_defaults_spec n m :
  push_defaults n (default_hash <$> seq 0 (S m)) = default_hash <$> seq 0 (S m + n).
Proof.
  revert m. induction n as [|n IH]; intros m; cbn [push_defaults]; [by rewrite Nat.add_0_r|].
  assert (E : default_hash <$> seq 0 (S (S m)) = (default_hash <$> seq 0 (S m)) ++ [default_hash (S m)])
    by (rewrite (seq_S (S m)), fmap_app; done).
  replace (default 0%N (last (default_hash <$> seq 0 (S m)))) with (default_hash m)
    by (rewrite seq_S, fmap_app; change (default_hash <$> [(0 + m)%nat]) with [default_hash m]; by rewrite last_snoc).
  change (internal_hash (default_hash m) (default_hash m)) with (default_hash (S m)).
  rewrite <- E, IH. f_equal. f_equal. lia.
Qed.

Lemma nth_defaults d n : (n ≤ d)%nat → nth n (precompute_defaults d) 0%N = default_hash n.
Proof.
  intros Hn. unfold precompute_defaults. change [sha256_digest [0]] with (default_hash <$> seq 0 1).
  rewrite push_defaults_spec. apply nth_lookup_Some.
  rewrite list_lookup_fmap, lookup_seq_lt by lia. done.
Qed.

Definition defaults_ok (ds : list H256) : Prop := ∀ n, (n ≤ 160)%nat → nth n ds 0%N = default_hash n.

Lemma subtree_reference ds ls i n :
  defaults_ok ds → slice_ok ls i → (i + n = 160)%nat → subtree_hash_sorted ds ls i n = ref_hash ls i n.
Proof.
  intros Hd. revert ls i. induction n as [|n IH]; intros ls i Hok Hn.
  - destruct ls; cbn; [apply (Hd 0%nat); lia|done].
  - destruct ls as [|x ls]; [cbn [subtree_hash_sorted]; rewrite Hd by lia; by rewrite ref_hash_nil|].
    cbn [subtree_hash_sorted]. cbv zeta.
    destruct (split_sides (x :: ls) i Hok ltac:(lia)) as [-> ->].
    rewrite !IH by (try apply side_ok; done || lia). done.
Qed.

(** ** Proofs *)

Definition node (b : bool) (sibling current : H256) : H256 :=
  if b then internal_hash sibling current else internal_hash current sibling.

(** The root from the bits and siblings, top to bottom, and the leaf. *)
Definition fold_path (bits : list bool) (sibs : list H256) (leaf : H256) : H256 :=
  foldr (λ bs c, node bs.1 bs.2 c) leaf (zip bits sibs).

Lemma climb_fold bits i sibs cur :
  (i + length sibs = length bits)%nat →
  climb bits i sibs cur = fold_path (take (length bits - i) bits) (reverse sibs) cur.
Proof.
  revert i cur. induction sibs as [|s sibs IH]; intros i cur Hl; cbn [climb length] in *.
  - replace (length bits - i)%nat with 0%nat by lia. done.
  - rewrite IH by lia. set (m := (length bits - 1 - i)%nat).
    destruct (lookup_lt_is_Some_2 bits m) as [b Hb]; [lia|].
    replace (length bits - i)%nat with (S m) by lia. replace (length bits - S i)%nat with m by lia.
    rewrite (take_S_r _ _ _ Hb), reverse_cons. unfold fold_path.
    rewrite zip_with_app by (rewrite length_take, length_reverse; lia).
    rewrite foldr_app. cbn. by rewrite (nth_lookup_Some _ _ false _ Hb).
Qed.

(** The slice that remains on the target's side. *)
Fixpoint narrow (target : Address) (ls : list (Address * H256)) (i n : nat) {struct n} :
    list (Address * H256) :=
  match n with
  | O => ls
  | S h => narrow target (if get_bit target i then drop (partition_by_bit ls i) ls
                          else take (partition_by_bit ls i) ls) (S i) h
  end.

Definition leaf_of (ls : list (Address * H256)) : H256 :=
  match ls with [] => sha256_digest [0] | x :: _ => x.2 end.

Lemma collect_path ds target ls i n :
  defaults_ok ds → (i + n ≤ 160)%nat →
  fold_path (get_bit target <$> seq i n) (collect_siblings_sorted ds target ls i n)
    (leaf_of (narrow target ls i n)) = subtree_hash_sorted ds ls i n.
Proof.
  intros Hd. revert ls i. induction n as [|n IH]; intros ls i Hn.
  - destruct ls; cbn; [symmetry; apply (Hd 0%nat); lia|done].
  - cbn [seq fmap list_fmap collect_siblings_sorted narrow]. unfold fold_path. cbn [zip_with foldr fst snd].
    change (foldr _ _ _) with (fold_path (get_bit target <$> seq (S i) n)
      (collect_siblings_sorted ds target (if get_bit target i then drop (partition_by_bit ls i) ls
                          else take (partition_by_bit ls i) ls) (S i) n)
      (leaf_of (narrow target (if get_bit target i then drop (partition_by_bit ls i) ls
                          else take (partition_by_bit ls i) ls) (S i) n))) at 1.
    rewrite IH by lia.
    assert (Hnode : subtree_hash_sorted ds ls i (S n) =
      internal_hash (subtree_hash_sorted ds (take (partition_by_bit ls i) ls) (S i) n)
                    (subtree_hash_sorted ds (drop (partition_by_bit ls i) ls) (S i) n)).
    { destruct ls; [|done]. cbn. destruct n; cbn; rewrite !Hd by lia; done. }
    rewrite Hnode. by destruct (get_bit target i).
Qed.

Lemma narrow_elem target ls i n x :
  slice_ok ls i → (i + n = 160)%nat →
  x ∈ narrow target ls i n ↔ x ∈ ls ∧ ∀ j, (i ≤ j < 160)%nat → get_bit x.1 j = get_bit target j.
Proof.
  revert ls i. induction n as [|n IH]; intros ls i Hok Hn; cbn [narrow].
  - split; [|by intros [? _]]. intros Hx. split; [done|]. lia.
  - destruct (split_sides ls i Hok ltac:(lia)) as [-> ->].
    assert (Hside : (if get_bit target i then side true ls i else side false ls i) = side (get_bit target i) ls i)
      by (by destruct (get_bit target i)).
    rewrite Hside, IH by (try apply side_ok; done || lia). unfold side. rewrite list_elem_of_filter. split.
    + intros [[Hb Hx] Hj]. split; [done|]. intros j Hr. destruct (decide (j = i)) as [->|]; [done|]. apply Hj. lia.
    + intros [Hx Hj]. split; [split; [apply Hj; lia|done]|]. intros j Hr. apply Hj. lia.
Qed.

(** ** Well-formed trees *)

Record tree_wf (t : SparseMerkleTree) : Prop := {
  wf_depth : t.(depth) = 160%nat;
  wf_defaults : defaults_ok t.(defaults);
  wf_root : t.(root) = compute_root t;
  wf_leaves : map_Forall (λ k v, (k < 2 ^ 160)%N ∧ (v < 2 ^ 256)%N) t.(leaves)
}.

Lemma new_wf : tree_wf new.
Proof.
  constructor; [reflexivity| | |apply map_Forall_empty].
  - intros n Hn. by apply nth_defaults.
  - unfold compute_root, new. cbv zeta. cbn [leaves depth defaults root]. by rewrite bool_decide_true.
Qed.

Lemma set_leaves_wf m t : tree_wf t → map_Forall (λ k v, (k < 2 ^ 160)%N ∧ (v < 2 ^ 256)%N) m → tree_wf (set_leaves m t).
Proof. intros [] Hm. by constructor. Qed.

Lemma update_wf k v t : tree_wf t → (k < 2 ^ 160)%N → (v < 2 ^ 256)%N → tree_wf (update k v t).
Proof. intros Ht Hk Hv. apply set_leaves_wf; [done|]. by apply map_Forall_insert_2, Ht. Qed.

Lemma delete_leaf_wf k t : tree_wf t → tree_wf (delete_leaf k t).
Proof. intros Ht. apply set_leaves_wf; [done|]. by apply map_Forall_delete, Ht. Qed.

Lemma elem_sorted_leaves m x :
  x ∈ sorted_leaves m ↔ ∃ v, m !! x.1 = Some v ∧ x.2 = leaf_hash x.1 v.
Proof.
  unfold sorted_leaves. rewrite merge_sort_Permutation, list_elem_of_fmap. split.
  - intros ([k v] & -> & Hk%elem_of_map_to_list). eauto.
  - intros (v & Hk & E). exists (x.1, v). rewrite elem_of_map_to_list. split; [|done]. destruct x; cbn in *; congruence.
Qed.

#[local] Instance address_le_trans : Transitive address_le.
Proof. intros x y z. unfold address_le. lia. Qed.
#[local] Instance address_le_total : Total address_le.
Proof. intros x y. unfold address_le. lia. Qed.

Lemma sorted_leaves_ok t : tree_wf t → slice_ok (sorted_leaves t.(leaves)) 0.
Proof.
  intros Ht. constructor.
  - apply StronglySorted_merge_sort; apply _.
  - rewrite Forall_forall. intros x (v & Hk & _)%elem_sorted_leaves. by apply (wf_leaves t Ht _ _ Hk).
  - lia.
Qed.

(** The empty tree needs no special case. *)
Lemma compute_root_subtree t : tree_wf t →
  t.(root) = subtree_hash_sorted t.(defaults) (sorted_leaves t.(leaves)) 0 160.
Proof.
  intros Ht. rewrite (wf_root t Ht). unfold compute_root. rewrite (wf_depth t Ht).
  case_bool_decide as E; [|done]. rewrite E. done.
Qed.

(** The root is that of the reference tree, which splits the leaves by their
    address bits at each of the 160 levels, and it does not depend on the
    order in which the leaves were inserted or on the order a hash map lists
    them. *)
Theorem root_is_reference (t : SparseMerkleTree) (ls : list (Address * H256)) :
  tree_wf t → ls ≡ₚ map_to_list t.(leaves) →
  t.(root) = ref_hash (merge_sort address_le ((λ kv, (kv.1, leaf_hash kv.1 kv.2)) <$> ls)) 0 160.
Proof.
  intros Ht Hls. rewrite compute_root_subtree by done.
  rewrite subtree_reference; [|apply Ht|by apply sorted_leaves_ok|done].
  f_equal. unfold sorted_leaves.
  eapply (StronglySorted_unique_strong address_le); [|apply StronglySorted_merge_sort; apply _..|].
  - intros x y Hx Hy Hxy Hyx. apply elem_sorted_leaves in Hx as (v & Hv & Ex).
    rewrite merge_sort_Permutation, Hls in Hy.
    apply list_elem_of_fmap in Hy as ([k w] & -> & Hw%elem_of_map_to_list).
    unfold address_le in *. cbn in *. assert (x.1 = k) as Ek by lia. rewrite Ek in Hv.
    destruct x; cbn in *. congruence.
  - by rewrite !merge_sort_Permutation, Hls.
Qed.

(** ** Completeness *)

(** The leaf at the end of the target's path. *)
Lemma leaf_of_narrow t k : tree_wf t → (k < 2 ^ 160)%N →
  leaf_of (narrow k (sorted_leaves t.(leaves)) 0 160) =
  match t.(leaves) !! k with Some vh => leaf_hash k vh | None => sha256_digest [0] end.
Proof.
  intros Ht Hk.
  assert (Hel : ∀ x, x ∈ narrow k (sorted_leaves t.(leaves)) 0 160 ↔
    ∃ v, t.(leaves) !! k = Some v ∧ x = (k, leaf_hash k v)).
  { intros [a h]. rewrite narrow_elem by (try apply sorted_leaves_ok; done).
    rewrite elem_sorted_leaves. cbn. split.
    - intros [(v & Hv & ->) Hb]. destruct (wf_leaves t Ht _ _ Hv) as [Ha _].
      assert (a = k) as -> by (apply bits_inj; [done..|]; intros i Hi; apply Hb; lia). eauto.
    - intros (v & Hv & [= -> ->]). eauto. }
  destruct (narrow k (sorted_leaves t.(leaves)) 0 160) as [|x l].
  - destruct (t.(leaves) !! k) as [v|] eqn:E; [|done]. exfalso.
    apply (not_elem_of_nil (k, leaf_hash k v)), Hel. eauto.
  - destruct (proj1 (Hel x)) as (v & -> & ->); [left|done].
Qed.

Lemma length_collect ds k ls i n : length (collect_siblings_sorted ds k ls i n) = n.
Proof. revert ls i. induction n as [|n IH]; intros ls i; cbn; [done|]. by rewrite IH. Qed.

Lemma prove_verifies_raw t k : tree_wf t → (k < 2 ^ 160)%N → verify (prove k t) = true.
Proof.
  intros Ht Hk. unfold verify, prove. cbn [key siblings value_hash proof_root].
  rewrite address_to_bits_get, length_fmap, length_seq, length_reverse, length_collect, (wf_depth t Ht).
  cbn [Nat.eqb negb]. apply N.eqb_eq.
  rewrite climb_fold by (rewrite length_reverse, length_collect, length_fmap, length_seq; done).
  rewrite reverse_involutive, length_fmap, length_seq, Nat.sub_0_r.
  rewrite take_ge by (by rewrite length_fmap, length_seq).
  rewrite <- leaf_of_narrow by done. rewrite collect_path by (apply Ht || done).
  symmetry. by apply compute_root_subtree.
Qed.

(** Every proof the tree makes verifies: of the value of a key that is present
    and of the absence of one that is not. *)
Theorem prove_verifies (t : SparseMerkleTree) (k : Address) :
  tree_wf t → (k < 2 ^ 160)%N →
  verify (prove k t) = true ∧ (prove k t).(value_hash) = get k t ∧ (prove k t).(proof_root) = t.(root).
Proof. intros Ht Hk. split; [by apply prove_verifies_raw|done]. Qed.

(** ** Soundness *)

(** The inputs hashed while verifying, from the leaf up. *)
Fixpoint climb_inputs (bits : list bool) (i : nat) (sibs : list H256) (current : H256) {struct sibs} :
    list (list Z) :=
  match sibs with
  | [] => []
  | sibling :: sibs =>
      let input := if nth (length bits - 1 - i) bits false then internal_input sibling current
                   else internal_input current sibling in
      input :: climb_inputs bits (S i) sibs (sha256_digest input)
  end.

Definition leaf_preimage (p : MerkleProof) : list Z :=
  match p.(value_hash) with Some vh => leaf_input p.(key) vh | None => [0] end.

Definition path_inputs (p : MerkleProof) : list (list Z) :=
  leaf_preimage p :: climb_inputs (address_to_bits p.(key)) 0 p.(siblings) (sha256_digest (leaf_preimage p)).

(** Two runs hash different inputs of the same level to the same digest. *)
Definition collide (l l' : list (list Z)) : Prop :=
  ∃ i x y, l !! i = Some x ∧ l' !! i = Some y ∧ x ≠ y ∧ sha256_digest x = sha256_digest y.

Lemma collide_cons x y l l' : collide l l' → collide (x :: l) (y :: l').
Proof. intros (i & u & v & ?). by exists (S i), u, v. Qed.

Lemma as_bytes32_inj (x y : N) : (x < 2 ^ 256)%N → (y < 2 ^ 256)%N → as_bytes 32 x = as_bytes 32 y → x = y.
Proof.
  intros Hx Hy. apply as_bytes_inj; change (256 ^ Z.of_nat 32) with (Z.of_N (2 ^ 256)%N); lia.
Qed.

Lemma internal_input_inj l r l' r' : internal_input l r = internal_input l' r' →
  as_bytes 32 l = as_bytes 32 l' ∧ as_bytes 32 r = as_bytes 32 r'.
Proof. unfold internal_input. intros E%(inj (cons 1)). apply app_inj_len in E; [done|]. by rewrite !length_as_bytes. Qed.

Lemma climb_collide bits i sp sq cp cq :
  length sp = length sq → (cp < 2 ^ 256)%N → (cq < 2 ^ 256)%N →
  climb bits i sp cp = climb bits i sq cq →
  cp = cq ∨ collide (climb_inputs bits i sp cp) (climb_inputs bits i sq cq).
Proof.
  revert i sq cp cq. induction sp as [|s sp IH]; intros i [|s' sq] cp cq Hl Hp Hq E; try done; [by left|].
  cbn [climb climb_inputs] in *. injection Hl as Hl.
  set (b := nth (length bits - 1 - i) bits false) in *.
  set (x := if b then internal_input s cp else internal_input cp s).
  set (y := if b then internal_input s' cq else internal_input cq s').
  replace (if b then internal_hash s cp else internal_hash cp s) with (sha256_digest x) in E by (by destruct b).
  replace (if b then internal_hash s' cq else internal_hash cq s') with (sha256_digest y) in E by (by destruct b).
  destruct (IH _ _ _ _ Hl (digest_range x) (digest_range y) E) as [Exy|Hc]; [|right; by apply collide_cons].
  destruct (decide (x = y)) as [Hxy|]; [left|right; by exists 0%nat, x, y].
  apply as_bytes32_inj; [done..|]. subst x y. destruct b; apply internal_input_inj in Hxy as [? ?]; done.
Qed.

Definition value_ok (v : option H256) : Prop := match v with Some h => (h < 2 ^ 256)%N | None => True end.

Lemma verified_value_raw (t : SparseMerkleTree) (p : MerkleProof) :
  tree_wf t → (p.(key) < 2 ^ 160)%N → value_ok p.(value_hash) →
  verify p = true → p.(proof_root) = t.(root) →
  p.(value_hash) = get p.(key) t ∨ collide (path_inputs p) (path_inputs (prove p.(key) t)).
Proof.
  intros Ht Hk Hvp Hp Hroot. pose proof (prove_verifies_raw t p.(key) Ht Hk) as Hq.
  set (q := prove p.(key) t) in *. assert (Ek : q.(key) = p.(key)) by done.
  assert (Eqr : q.(proof_root) = t.(root)) by done.
  assert (Hlv : ∀ r, verify r = true → length r.(siblings) = length (address_to_bits r.(key)) ∧
    climb (address_to_bits r.(key)) 0 r.(siblings) (sha256_digest (leaf_preimage r)) = r.(proof_root)).
  { intros r Hr. unfold verify in Hr. destruct (Nat.eqb_spec (length r.(siblings)) (length (address_to_bits r.(key)))); [|done].
    split; [done|]. apply N.eqb_eq in Hr. rewrite <- Hr. unfold leaf_preimage. by destruct (value_hash r). }
  destruct (Hlv p Hp) as [Lp Cp], (Hlv q Hq) as [Lq Cq]. rewrite Ek in Lq, Cq.
  destruct (climb_collide (address_to_bits p.(key)) 0 p.(siblings) q.(siblings)
    (sha256_digest (leaf_preimage p)) (sha256_digest (leaf_preimage q))) as [E|Hc];
    [congruence|apply digest_range..|congruence| |].
  2: { right. unfold path_inputs. rewrite Ek. by apply collide_cons. }
  destruct (decide (leaf_preimage p = leaf_preimage q)) as [El|]; [left|right; by exists 0%nat, (leaf_preimage p), (leaf_preimage q)].
  unfold leaf_preimage in El. rewrite Ek in El. change (get p.(key) t) with q.(value_hash).
  assert (Hvq : value_ok q.(value_hash)).
  { cbn. destruct (t.(leaves) !! p.(key)) eqn:E'; [|done]. by apply (wf_leaves t Ht _ _ E'). }
  destruct (value_hash p) as [u|], (value_hash q) as [w|]; cbn in *; try done.
  unfold leaf_input in El. apply (inj (cons 0)), app_inj_len in El as [_ El]; [|done].
  f_equal. by apply as_bytes32_inj.
Qed.

(** C7: A proof that verifies against the root of the tree shows the value the
    tree has at that key (or its absence): otherwise, at some level, it and
    the tree's own proof hash different inputs to the same digest. *)
Theorem verified_value_or_collision (t : SparseMerkleTree) (p : MerkleProof) :
  tree_wf t → (p.(key) < 2 ^ 160)%N → value_ok p.(value_hash) →
  verify p = true → p.(proof_root) = t.(root) →
  p.(value_hash) = get p.(key) t ∨ collide (path_inputs p) (path_inputs (prove p.(key) t)).
Proof. apply verified_value_raw. Qed.

End merkle.

(** ** A concrete tree *)

#[local] Program Instance toy_digest : Digest := {
  sha256_digest bs := Z.to_N (foldl (λ acc b, Z.land (acc * 31 + b + 7) 65535) 1 bs)
}.
Next Obligation.
  intros bs. cbn beta. destruct bs as [|b bs] using rev_ind; [done|]. rewrite foldl_app. cbn [foldl].
  rewrite (Z.land_ones _ 16) by lia.
  pose proof (Z.mod_pos_bound (foldl (λ acc b, Z.land (acc * 31 + b + 7) 65535) 1 bs * 31 + b + 7) (2 ^ 16) ltac:(lia)).
  lia.
Qed.

Definition demo_tree : SparseMerkleTree := update 9 88 (update 5 77 new).

Lemma demo_tree_wf : tree_wf demo_tree.
Proof. apply update_wf; [apply update_wf; [apply new_wf|done..]|done..]. Qed.

Lemma root_is_reference_witness : demo_tree.(root) =
  ref_hash (merge_sort address_le ((λ kv, (kv.1, leaf_hash kv.1 kv.2)) <$> [(9, 88); (5, 77)]%N)) 0 160.
Proof.
  apply root_is_reference; [apply demo_tree_wf|].
  apply (bool_decide_unpack _). vm_compute. exact I.
Defined.

Lemma prove_verifies_witness : verify (prove 5 demo_tree) = true ∧ verify (prove 6 demo_tree) = true ∧
  (prove 5 demo_tree).(value_hash) = Some 77%N ∧ (prove 6 demo_tree).(value_hash) = None.
Proof.
  split_and!; [apply (prove_verifies demo_tree 5)|apply (prove_verifies demo_tree 6)|reflexivity..];
    apply demo_tree_wf || done.
Defined.

Lemma verified_value_or_collision_witness :
  (prove 5 demo_tree).(value_hash) = get 5 demo_tree ∨
  collide (path_inputs (prove 5 demo_tree)) (path_inputs (prove 5 demo_tree)).
Proof.
  apply (verified_value_or_collision demo_tree (prove 5 demo_tree));
    [apply demo_tree_wf|done|vm_compute; reflexivity|vm_compute; reflexivity|reflexivity].
Defined.

End Merkle.
