(* ===== verification/Transaction.v ===== *)
(** * Transactions, accounts and ed25519

    [crates/types/src/transaction.rs] and [account.rs], and the signature
    wrapper [crates/crypto/primitives/src/ed25519.rs]. The serialization
    ([bincode]) is the class [Codec]; the curve ([ed25519-dalek]) the class
    [Dalek]. *)

From S2P Require Import Prelude.

Record UtxoId := mkUtxoId { utxo_tx_hash : H256; output_index : Z }.

#[global] Instance UtxoId_eq_dec : EqDecision UtxoId.
Proof. solve_decision. Defined.
#[global] Instance UtxoId_countable : Countable UtxoId.
Proof.
  apply (inj_countable' (λ u, (u.(utxo_tx_hash), u.(output_index))) (λ p, mkUtxoId p.1 p.2)). by intros [].
Defined.

(** A [PublicKey] and a [Signature] are byte vectors of any length here. *)
Record UtxoOutput := mkUtxoOutput { out_amount : Z; out_owner : list Z; out_script_hash : option H256 }.

Record TransferPayload := mkTransfer { recipient : Address; transfer_amount : Z; memo : option string }.

(** A [HashSet<Address>] is the list of its elements in iteration order, which
    differs between two sets with the same elements: every set has its own
    random hasher, and [bincode] writes the elements in that order. *)
Record Transaction := mkTx {
  tx_nonce : Z;
  chain_id : Z;
  sender : Address;
  sender_pubkey : list Z;
  inputs : list UtxoId;
  outputs : list UtxoOutput;
  tx_reads : list Address;
  tx_writes : list Address;
  program_id : option H256;
  data : list Z;
  gas_limit : Z;
  fee : Z;
  signature : list Z
}.

Inductive TransactionStatus := Success | Failed (reason : error).

(** [logs] is always empty in the modelled code. *)
Record TransactionReceipt := mkReceipt {
  r_tx_hash : H256;
  r_block_hash : H256;
  r_slot : Z;
  status : TransactionStatus;
  gas_used : Z;
  r_state_root : H256
}.

Record Account := mkAccount {
  address : Address;
  balance : Z;
  nonce : Z;
  code_hash : option H256;
  storage_root : H256
}.

Definition Account_new (a : Address) : Account := mkAccount a 0 0 None 0.
Definition with_balance (a : Address) (b : Z) : Account := mkAccount a b 0 None 0.

Record Utxo := mkUtxo { amount : Z; owner : Address; script_hash : option H256 }.

Record FeeParams := mkFeeParams { fee_a : Z; fee_b : Z; fee_c : Z }.

(** The encodings of [bincode]. Decoding inverts encoding, a key's encoding
    identifies it, and a decoded [Address] has 20 bytes. *)
Class Codec := {
  ser_tx : Transaction → list Z;
  ser_account : Account → list Z;
  de_account : list Z → result error Account;
  ser_utxo_id : UtxoId → list Z;
  ser_utxo : Utxo → list Z;
  de_utxo : list Z → result error Utxo;
  de_transfer : list Z → result error TransferPayload;
  de_ser_account : ∀ a, de_account (ser_account a) = Ok a;
  de_ser_utxo : ∀ u, de_utxo (ser_utxo u) = Ok u;
  ser_utxo_id_inj : ∀ u u', ser_utxo_id u = ser_utxo_id u' → u = u';
  de_transfer_range : ∀ b p, de_transfer b = Ok p → (p.(recipient) < 2 ^ 160)%N ∧ 0 ≤ p.(transfer_amount) ≤ U128_MAX
}.

(** The curve: a verifying key from its 32 bytes, and the check of a signature. *)
Class Dalek := {
  VerifyingKey : Type;
  vk_from_bytes : list Z → option VerifyingKey;
  dalek_verify : VerifyingKey → list Z → list Z → bool
}.

(** Signing with a 32-byte secret: the signature verifies under the public key
    of the secret. *)
Class DalekSigner `{Dalek} := {
  signing_public : H256 → H256;
  dalek_sign : H256 → list Z → list Z;
  public_range : ∀ sk, (signing_public sk < 2 ^ 256)%N;
  sign_length : ∀ sk m, length (dalek_sign sk m) = 64%nat;
  sign_verifies : ∀ sk m, ∃ vk, vk_from_bytes (as_bytes 32 (signing_public sk)) = Some vk ∧
    dalek_verify vk m (dalek_sign sk m) = true
}.

Module Ed25519.
Section ed25519.
Context `{Dalek}.

Inductive Ed25519Error := ErrSignature | ErrPublicKey | ErrSecretKey.

Definition verify (pk message sig : list Z) : result Ed25519Error unit :=
  bail_if (negb (length pk =? 32)%nat) ErrPublicKey;;
  bail_if (negb (length sig =? 64)%nat) ErrSignature;;
  vk ← ok_or (vk_from_bytes pk) ErrPublicKey;
  bail_if (negb (dalek_verify vk message sig)) ErrSignature.

(** The decoding loop of [verify_batch]. *)
Fixpoint decode_all (vs : list (list Z * list Z * list Z)) :
    result Ed25519Error (list (VerifyingKey * list Z * list Z)) :=
  match vs with
  | [] => mret []
  | (pk, msg, sig) :: vs =>
      bail_if (negb (length pk =? 32)%nat) ErrPublicKey;;
      bail_if (negb (length sig =? 64)%nat) ErrSignature;;
      vk ← ok_or (vk_from_bytes pk) ErrPublicKey;
      rest ← decode_all vs;
      mret ((vk, msg, sig) :: rest)
  end.

Definition verify_batch (vs : list (list Z * list Z * list Z)) : result Ed25519Error (list bool) :=
  if bool_decide (vs = []) then Ok [] else
  ds ← (decode_all vs : result Ed25519Error _);
  mret (map (λ d, dalek_verify d.1.1 d.1.2 d.2) ds).

Definition verify_batch_count (vs : list (list Z * list Z * list Z)) : result Ed25519Error Z :=
  results ← verify_batch vs;
  mret (Z.of_nat (length (filter (λ v, v = true) results))).

Definition verify_tuple (v : list Z * list Z * list Z) : bool := is_ok (verify v.1.1 v.1.2 v.2).

(** A batch that decodes gives, for each tuple, the verdict of [verify]. *)
Lemma verify_batch_spec vs bs : verify_batch vs = Ok bs → bs = verify_tuple <$> vs.
Proof.
  unfold verify_batch. case_bool_decide as Hvs; [intros [= <-]; by rewrite Hvs|]. clear Hvs.
  intros Hb. res_inv. rename select (list _) into ds. rename select (decode_all vs = _) into Hd.
  revert ds Hd. induction vs as [|[[pk m] s] vs IH]; intros ds Hd; cbn in Hd.
  - by injection Hd as <-.
  - res_inv. cbn. rewrite <- (IH x2) by done. f_equal. unfold verify_tuple, verify. cbn.
    rename select (_ = Some _) into Hvk.
    rewrite H0, H1. cbn. rewrite Hvk. cbn. by destruct (dalek_verify x1 m s).
Qed.

(** It decodes when every tuple verifies. *)
Lemma verify_batch_complete_ed vs :
  Forall (λ v, verify_tuple v = true) vs → verify_batch vs = Ok (replicate (length vs) true).
Proof.
  intros Hall. assert (∃ ds, decode_all vs = Ok ds) as [ds Hd].
  { induction Hall as [|[[pk m] s] vs Hv Hall [ds IH]]; [by exists []|].
    unfold verify_tuple, verify in Hv. cbn in Hv |- *. rewrite IH. unfold_M.
    repeat (case_match; try done). eauto. }
  assert (Hb : ∃ bs, verify_batch vs = Ok bs).
  { unfold verify_batch. case_bool_decide; [eauto|]. rewrite Hd. cbn. eauto. }
  destruct Hb as [bs Hb]. rewrite Hb. f_equal. rewrite (verify_batch_spec _ _ Hb). clear -Hall.
  induction Hall as [|v vs Hv _ IH]; [done|]. cbn. by rewrite Hv, IH.
Qed.

End ed25519.
End Ed25519.

Section transaction.
Context `{Digest, Codec, Dalek}.

Definition TRANSFER_PROGRAM_ID : H256 :=
  Z.to_N (from_le_bytes (replicate 32 1)).

(** [PublicKey::to_address]: the first 20 bytes of the key's hash. *)
Definition key_address (pk : list Z) : Address := N.shiftr (sha256_digest pk) 96.

(** The hash of the transaction without its signature. *)
Definition unsigned (tx : Transaction) : Transaction :=
  mkTx tx.(tx_nonce) tx.(chain_id) tx.(sender) tx.(sender_pubkey) tx.(inputs) tx.(outputs) tx.(tx_reads)
    tx.(tx_writes) tx.(program_id) tx.(data) tx.(gas_limit) tx.(fee) [].
Definition hash (tx : Transaction) : H256 := sha256_digest (ser_tx (unsigned tx)).

Definition validate_chain_id (expected : Z) (tx : Transaction) : result error unit :=
  bail_if (negb (tx.(chain_id) =? expected)) (Fmt "chain_id mismatch: tx has {}, expected {}" [tx.(chain_id); expected]).

Definition verify_signature (tx : Transaction) : result error unit :=
  bail_if (bool_decide (tx.(signature) = [])) (Msg "signature is empty");;
  bail_if (128 <? Z.of_nat (length tx.(signature)))
    (Fmt "signature too large: {} bytes (max 128)" [Z.of_nat (length tx.(signature))]);;
  bail_if (negb (key_address tx.(sender_pubkey) =? tx.(sender))%N) (Msg "sender address does not match public key");;
  map_err (λ _, Msg "signature verification failed")
    (Ed25519.verify (tx.(sender_pubkey)) (as_bytes 32 (hash tx)) tx.(signature)).

Definition calculate_fee (p : FeeParams) (tx : Transaction) : result error Z :=
  let bytes := Z.of_nat (length (ser_tx tx)) in
  byte_cost ← ok_or (checked_mul U128_MAX p.(fee_b) bytes) (Msg "fee overflow: B*bytes");
  gas_cost ← ok_or (checked_mul U128_MAX p.(fee_c) tx.(gas_limit)) (Msg "fee overflow: C*gas");
  computed_fee ← ok_or (v ← checked_add U128_MAX p.(fee_a) byte_cost; checked_add U128_MAX v gas_cost)
                   (Msg "fee calculation overflow");
  bail_if (tx.(fee) <? computed_fee) (Fmt "fee too low: provided {}, required {}" [tx.(fee); computed_fee]);;
  mret tx.(fee).

Definition ed25519_tuple (tx : Transaction) : list Z * list Z * list Z :=
  (tx.(sender_pubkey), as_bytes 32 (hash tx), tx.(signature)).

(** [!xs.is_disjoint(ys)], and the loop over the inputs. *)
Definition overlap {A} `{EqDecision A} (xs ys : list A) : bool :=
  existsb (λ x, bool_decide (x ∈ ys)) xs.

Definition conflicts_with (t1 t2 : Transaction) : bool :=
  if overlap t1.(tx_writes) t2.(tx_writes) then true else
  if overlap t1.(tx_writes) t2.(tx_reads) then true else
  if overlap t2.(tx_writes) t1.(tx_reads) then true else
  overlap t1.(inputs) t2.(inputs).

Lemma overlap_comm {A} `{EqDecision A} (xs ys : list A) : overlap xs ys = overlap ys xs.
Proof.
  apply eq_iff_eq_true. unfold overlap. rewrite !existsb_exists.
  split; intros (x & Hx & Hb%bool_decide_eq_true); exists x; rewrite bool_decide_eq_true;
    rewrite <- list_elem_of_In in *; done.
Qed.

(** Conflicts are symmetric. *)
Lemma conflicts_with_comm t1 t2 : conflicts_with t1 t2 = conflicts_with t2 t1.
Proof.
  unfold conflicts_with. rewrite (overlap_comm t1.(tx_writes) t2.(tx_writes)), (overlap_comm t1.(inputs)).
  by destruct (overlap t2.(tx_writes) t1.(tx_writes)), (overlap t1.(tx_writes) t2.(tx_reads)),
    (overlap t2.(tx_writes) t1.(tx_reads)).
Qed.

End transaction.
