(* ===== verification/Storage.v ===== *)
(** * Key-value storage

    [crates/state/storage/src/database.rs]. The database itself (RocksDB) is
    the class [RocksDb]: a map from a column family and a key to a value, a
    write batch applied in order and at once, and an iterator over a family in
    the order of the keys. Its I/O errors, caches and metrics are left out. *)

From S2P Require Import Prelude.
From S2P Require Import Transaction.

Abbreviation bytes := (list Z) (only parsing).

Definition CF_ACCOUNTS : string := "accounts".
Definition CF_UTXOS : string := "utxos".
Definition CF_MERKLE : string := "merkle_nodes".
Definition CF_BLOCKS : string := "blocks".
Definition CF_RECEIPTS : string := "receipts".
Definition CF_METADATA : string := "metadata".
Definition CF_SPENT_UTXOS : string := "spent_utxos".
Definition CF_STAKING : string := "staking".

(** The column families [Storage::open] creates. *)
Definition column_families : list string :=
  [CF_ACCOUNTS; CF_UTXOS; CF_MERKLE; CF_BLOCKS; CF_RECEIPTS; CF_METADATA; CF_SPENT_UTXOS; CF_STAKING].

Lemma accounts_known : CF_ACCOUNTS ∈ column_families. Proof. compute_done. Qed.
Lemma utxos_known : CF_UTXOS ∈ column_families. Proof. compute_done. Qed.
Lemma metadata_known : CF_METADATA ∈ column_families. Proof. compute_done. Qed.
Lemma spent_known : CF_SPENT_UTXOS ∈ column_families. Proof. compute_done. Qed.
#[export] Hint Resolve accounts_known utxos_known metadata_known spent_known : aether.

Inductive BatchOperation :=
| Put (cf : string) (key value : bytes)
| Delete (cf : string) (key : bytes).

Abbreviation StorageBatch := (list BatchOperation) (only parsing).

(** What one operation does to the value under a key. *)
Definition apply_op (cf : string) (k : bytes) (old : option bytes) (op : BatchOperation) : option bytes :=
  match op with
  | Put cf' k' v => if bool_decide (cf' = cf ∧ k' = k) then Some v else old
  | Delete cf' k' => if bool_decide (cf' = cf ∧ k' = k) then None else old
  end.

(** Bytewise comparison, RocksDB's default order. *)
Fixpoint bytes_le (x y : bytes) : bool :=
  match x, y with
  | [], _ => true
  | _ :: _, [] => false
  | a :: x, b :: y => if a <? b then true else if b <? a then false else bytes_le x y
  end.

Class RocksDb := {
  DB : Type;
  db_get : DB → string → bytes → option bytes;
  db_write : DB → StorageBatch → DB;
  db_iterator : DB → string → list (bytes * bytes);
  db_get_write : ∀ db ops cf k, db_get (db_write db ops) cf k = foldl (apply_op cf k) (db_get db cf k) ops;
  db_iterator_spec : ∀ db cf k v, (k, v) ∈ db_iterator db cf ↔ db_get db cf k = Some v;
  db_iterator_sorted : ∀ db cf, StronglySorted (λ x y, Is_true (bytes_le x y)) (fst <$> db_iterator db cf)
}.

(** [slice::starts_with]. *)
Fixpoint starts_with (prefix bs : bytes) : bool :=
  match prefix, bs with
  | [], _ => true
  | _ :: _, [] => false
  | p :: prefix, b :: bs => (p =? b) && starts_with prefix bs
  end.

Fixpoint take_while {A} (p : A → bool) (l : list A) : list A :=
  match l with [] => [] | x :: l => if p x then x :: take_while p l else [] end.

(** The bytes of a literal. *)
Definition str_bytes (s : string) : bytes :=
  (λ a, Z.of_N (Ascii.N_of_ascii a)) <$> String.list_ascii_of_string s.

Module Storage.
Section storage.
Context `{RocksDb}.

Definition cf_handle (cf : string) : result error unit :=
  bail_if (negb (bool_decide (cf ∈ column_families))) (Msg "column family not found").

Definition get (db : DB) (cf : string) (key : bytes) : result error (option bytes) :=
  cf_handle cf;; mret (db_get db cf key).

Definition put (cf : string) (key value : bytes) (db : DB) : result error DB :=
  cf_handle cf;; mret (db_write db [Put cf key value]).

Definition delete (cf : string) (key : bytes) (db : DB) : result error DB :=
  cf_handle cf;; mret (db_write db [Delete cf key]).

(** The loop of [write_batch] looks every family up before anything is written. *)
Fixpoint resolve (ops : StorageBatch) : result error unit :=
  match ops with
  | [] => mret tt
  | (Put cf _ _ | Delete cf _) :: ops => cf_handle cf;; resolve ops
  end.

Definition write_batch (ops : StorageBatch) (db : DB) : result error DB :=
  resolve ops;; mret (db_write db ops).

Definition iterator (db : DB) (cf : string) : result error (list (bytes * bytes)) :=
  cf_handle cf;; mret (db_iterator db cf).

(** [IteratorMode::From(prefix, Forward)] starts at the first key that is not
    below the prefix. *)
Definition prefix_iterator (db : DB) (cf : string) (prefix : bytes) : result error (list (bytes * bytes)) :=
  cf_handle cf;;
  mret (take_while (λ kv, starts_with prefix kv.1) (filter (λ kv, Is_true (bytes_le prefix kv.1)) (db_iterator db cf))).

(** ** pruning *)

(** [str::parse::<u64>]: an optional plus sign and at least one digit. *)
Fixpoint parse_digits (bs : bytes) (acc : Z) : option Z :=
  match bs with
  | [] => Some acc
  | b :: bs =>
      if (48 <=? b) && (b <=? 57) then
        v ← checked_mul U64_MAX acc 10; v ← checked_add U64_MAX v (b - 48); parse_digits bs v
      else None
  end.
Definition parse_u64 (bs : bytes) : option Z :=
  match bs with
  | [] => None
  | [43] => None
  | 43 :: bs => parse_digits bs 0
  | _ => parse_digits bs 0
  end.

Definition strip_prefix (prefix bs : bytes) : option bytes :=
  if starts_with prefix bs then Some (drop (length prefix) bs) else None.

(** A key that is not UTF-8 has a byte that is not a digit, which
    [parse_u64] refuses as well. *)
Definition slot_of_key (key : bytes) : option Z := k ← strip_prefix (str_bytes "slot:") key; parse_u64 k.

Definition from_be_bytes (bs : bytes) : Z := from_le_bytes (reverse bs).

(** The loop over the spent records: short keys are skipped, the first key at
    or above the threshold ends it. *)
Fixpoint spent_to_prune (min_slot : Z) (keys : list bytes) : list bytes :=
  match keys with
  | [] => []
  | key :: keys =>
      if (length key <? 8)%nat then spent_to_prune min_slot keys else
      if min_slot <=? from_be_bytes (take 8 key) then [] else key :: spent_to_prune min_slot keys
  end.

Definition prune_spent_utxos (min_slot : Z) (db : DB) : result error (DB * Z) :=
  entries ← iterator db CF_SPENT_UTXOS;
  let keys := spent_to_prune min_slot (fst <$> entries) in
  if bool_decide (keys = []) then mret (db, 0) else
  db' ← write_batch (Delete CF_SPENT_UTXOS <$> keys) db;
  mret (db', Z.of_nat (length keys)).

(** ** Lemmas *)

Lemma resolve_known ops :
  Forall (λ op, match op with Put cf _ _ | Delete cf _ => cf ∈ column_families end) ops → resolve ops = Ok tt.
Proof.
  induction 1 as [|op ops Hop _ IH]; [done|].
  assert (Hcf : ∀ cf, cf ∈ column_families → cf_handle cf = Ok tt)
    by (intros cf Hcf; unfold cf_handle; by rewrite bool_decide_true).
  destruct op; cbn; by rewrite Hcf.
Qed.

Lemma foldl_apply_op_other ops cf k old :
  Forall (λ op, match op with Put cf' k' _ | Delete cf' k' => ¬ (cf' = cf ∧ k' = k) end) ops →
  foldl (apply_op cf k) old ops = old.
Proof.
  induction 1 as [|op ops Hop _ IH]; [done|]. cbn.
  destruct op; cbn [apply_op]; rewrite bool_decide_false by done; done.
Qed.

Lemma foldl_apply_delete cf cf' k keys old :
  foldl (apply_op cf k) old (Delete cf' <$> keys) =
  if bool_decide (cf' = cf ∧ k ∈ keys) then None else old.
Proof.
  revert old. induction keys as [|k' keys IH]; intros old; cbn.
  - rewrite bool_decide_false; [done|]. intros [_ ?%elem_of_nil]. done.
  - rewrite IH. repeat case_bool_decide; set_solver.
Qed.

(** Order of the keys and order of the slots. *)
Lemma from_be_bytes_cons b bs : from_be_bytes (b :: bs) = b * 256 ^ Z.of_nat (length bs) + from_be_bytes bs.
Proof.
  unfold from_be_bytes. rewrite reverse_cons, from_le_bytes_app, length_reverse. cbn. lia.
Qed.

Lemma from_be_bytes_range bs : is_bytes bs → 0 ≤ from_be_bytes bs < 256 ^ Z.of_nat (length bs).
Proof.
  intros Hbs. unfold from_be_bytes. rewrite <- (length_reverse bs). apply from_le_bytes_range.
  unfold is_bytes. by rewrite Forall_reverse.
Qed.

Lemma bytes_le_prefix n x y :
  is_bytes x → is_bytes y → (n ≤ length x)%nat → (n ≤ length y)%nat → bytes_le x y = true →
  from_be_bytes (take n x) ≤ from_be_bytes (take n y).
Proof.
  revert x y. induction n as [|n IH]; intros x y Hx Hy Hlx Hly Hle; [done|].
  destruct x as [|a x], y as [|b y]; cbn in Hlx, Hly; try lia.
  apply Forall_cons in Hx as [Ha Hx], Hy as [Hb Hy]. cbn [bytes_le] in Hle. cbn [take]. rewrite !from_be_bytes_cons.
  rewrite !length_take_le by lia.
  pose proof (from_be_bytes_range (take n x) ltac:(by apply Forall_take)) as Rx.
  pose proof (from_be_bytes_range (take n y) ltac:(by apply Forall_take)) as Ry.
  rewrite length_take_le in Rx, Ry by lia.
  destruct (a <? b) eqn:?; [clean_ints; nia|]. destruct (b <? a) eqn:?; [done|].
  clean_ints. assert (a = b) as -> by lia. specialize (IH x y Hx Hy ltac:(lia) ltac:(lia) Hle). lia.
Qed.

(** In key order the loop keeps exactly the records below the threshold. *)
Lemma spent_to_prune_spec min_slot keys k :
  Forall is_bytes keys → StronglySorted (λ x y, Is_true (bytes_le x y)) keys →
  k ∈ spent_to_prune min_slot keys ↔
  k ∈ keys ∧ (8 ≤ length k)%nat ∧ from_be_bytes (take 8 k) < min_slot.
Proof.
  intros Hb Hs. induction Hs as [|x keys Hs IH Hx]; cbn [spent_to_prune]; [set_solver|].
  apply Forall_cons in Hb as [Hbx Hb]. specialize (IH Hb).
  destruct (length x <? 8)%nat eqn:Hl; [apply Nat.ltb_lt in Hl|apply Nat.ltb_ge in Hl].
  { rewrite IH, elem_of_cons. split; [naive_solver|]. intros [[->|?] [??]]; [lia|done]. }
  destruct (min_slot <=? _) eqn:Hm; clean_ints.
  - rewrite elem_of_cons. split; [by intros ?%elem_of_nil|]. intros [[->|Hk] [Hlk Hlt]]; [lia|].
    rewrite Forall_forall in Hx, Hb. pose proof (bytes_le_prefix 8 x k Hbx (Hb _ Hk) Hl Hlk ltac:(by apply Is_true_true, Hx)).
    lia.
  - rewrite !elem_of_cons, IH. naive_solver lia.
Qed.

(** What every caller relies on: a known family reads and writes. *)
Lemma get_known db cf k : cf ∈ column_families → get db cf k = Ok (db_get db cf k).
Proof. intros Hcf. unfold get, cf_handle. by rewrite bool_decide_true. Qed.

Lemma iterator_known db cf : cf ∈ column_families → iterator db cf = Ok (db_iterator db cf).
Proof. intros Hcf. unfold iterator, cf_handle. by rewrite bool_decide_true. Qed.

Lemma write_batch_known ops db :
  Forall (λ op, match op with Put cf _ _ | Delete cf _ => cf ∈ column_families end) ops →
  write_batch ops db = Ok (db_write db ops).
Proof. intros Hops. unfold write_batch. by rewrite resolve_known. Qed.

(** The slot a spent record's key starts with. *)
Definition spent_slot (key : bytes) : Z := from_be_bytes (take 8 key).

(** Pruning spent records below a slot removes exactly the records of the
    slots below it; every other entry of the database stays. *)
Theorem prune_spent_utxos_exact min_slot db :
  (∀ k v, db_get db CF_SPENT_UTXOS k = Some v → is_bytes k ∧ (8 ≤ length k)%nat) →
  ∃ db' n, prune_spent_utxos min_slot db = Ok (db', n) ∧
    (∀ k, db_get db' CF_SPENT_UTXOS k =
       if spent_slot k <? min_slot then None else db_get db CF_SPENT_UTXOS k) ∧
    (∀ cf k, cf ≠ CF_SPENT_UTXOS → db_get db' cf k = db_get db cf k).
Proof.
  intros Hkeys. set (keys := spent_to_prune min_slot (fst <$> db_iterator db CF_SPENT_UTXOS)).
  assert (Hin : ∀ k, k ∈ keys ↔ is_Some (db_get db CF_SPENT_UTXOS k) ∧ spent_slot k < min_slot).
  { intros k. unfold keys. rewrite spent_to_prune_spec; [|..|apply db_iterator_sorted].
    - rewrite list_elem_of_fmap. split.
      + intros ([[k' v] [-> Hv%db_iterator_spec]] & _ & Hlt). split; [by exists v|done].
      + intros [[v Hv] Hlt]. split; [|by split; [eapply Hkeys|]]. exists (k, v). by rewrite db_iterator_spec.
    - apply Forall_forall. intros k' ([k2 v] & -> & Hv%db_iterator_spec)%list_elem_of_fmap. by eapply Hkeys. }
  assert (Hget : ∀ k, (if bool_decide (CF_SPENT_UTXOS = CF_SPENT_UTXOS ∧ k ∈ keys) then None else db_get db CF_SPENT_UTXOS k) =
    (if spent_slot k <? min_slot then None else db_get db CF_SPENT_UTXOS k)).
  { intros k. destruct (spent_slot k <? min_slot) eqn:Hlt; clean_ints; case_bool_decide as Hk; try done.
    - destruct (db_get _ _ k) eqn:Hg; [|done]. destruct Hk. split; [done|]. apply Hin. split; [eauto|done].
    - destruct Hk as [_ Hk%Hin]. lia. }
  unfold prune_spent_utxos. rewrite iterator_known by compute_done. unfold_M. fold keys. case_bool_decide as Hnil.
  - eexists _, _. split; [done|]. split; [|done]. intros k. rewrite <- Hget.
    rewrite bool_decide_false; [done|]. rewrite Hnil. by intros [_ ?%elem_of_nil].
  - rewrite write_batch_known by (apply Forall_fmap, Forall_true; intros; change (CF_SPENT_UTXOS ∈ column_families); compute_done).
    eexists _, _. split; [done|]. split; intros; rewrite db_get_write, foldl_apply_delete; [apply Hget|].
    rewrite bool_decide_false; [done|]. by intros [? _].
Qed.

End storage.

Section blocks.
Context `{RocksDb, Digest, Codec} (de_block : bytes → result error (list Transaction)).

(** One entry of the slot index: the deletions it adds. *)
Definition prune_entry (db : DB) (min_slot : Z) (entry : bytes * bytes) : option StorageBatch :=
  match slot_of_key entry.1 with
  | None => None
  | Some slot =>
      if min_slot <=? slot then None else
      Some ([Delete CF_BLOCKS entry.2] ++
            match get db CF_BLOCKS entry.2 with
            | Ok (Some block_bytes) =>
                match de_block block_bytes with
                | Ok txs => (λ tx, Delete CF_RECEIPTS (as_bytes 32 (hash tx))) <$> txs
                | Err _ => []
                end
            | _ => []
            end ++
            [Delete CF_METADATA entry.1])
  end.

Definition prune_old_blocks_and_receipts (min_slot : Z) (db : DB) : result error (DB * Z) :=
  entries ← prefix_iterator db CF_METADATA (str_bytes "slot:");
  let pruned := omap (prune_entry db min_slot) entries in
  if bool_decide (pruned = []) then mret (db, 0) else
  db' ← write_batch (concat pruned) db;
  mret (db', Z.of_nat (length pruned)).

End blocks.
End Storage.

(** ** A database of finite maps

    The instance the concrete runs use. *)

Section map_db.

#[local] Instance bytes_le_trans : Transitive (λ x y, Is_true (bytes_le x y)).
Proof.
  intros x. induction x as [|a x IH]; intros [|b y] [|c z]; cbn; try done. intros H1 H2.
  destruct (Z.ltb_spec a b), (Z.ltb_spec b a), (Z.ltb_spec b c), (Z.ltb_spec c b), (Z.ltb_spec a c), (Z.ltb_spec c a);
    try done; try lia. by apply (IH y).
Qed.
#[local] Instance bytes_le_total : Total (λ x y, Is_true (bytes_le x y)).
Proof.
  intros x. induction x as [|a x IH]; intros [|b y]; cbn; auto.
  destruct (Z.ltb_spec a b), (Z.ltb_spec b a); auto; try lia.
Qed.

Abbreviation map_entry := (string * list Z * list Z)%type.

Definition key_le (x y : bytes * bytes) : Prop := Is_true (bytes_le x.1 y.1).
#[local] Instance key_le_dec : RelDecision key_le.
Proof. intros x y. unfold key_le. apply _. Defined.
#[local] Instance key_le_trans : Transitive key_le.
Proof. intros x y z. apply bytes_le_trans. Qed.
#[local] Instance key_le_total : Total key_le.
Proof. intros x y. apply bytes_le_total. Qed.

Definition map_get (m : gmap (string * bytes) bytes) (cf : string) (k : bytes) : option bytes := m !! (cf, k).
Definition map_op (m : gmap (string * bytes) bytes) (op : BatchOperation) : gmap (string * bytes) bytes :=
  match op with Put cf k v => <[(cf, k) := v]> m | Delete cf k => delete (cf, k) m end.
Definition map_write (m : gmap (string * bytes) bytes) (ops : StorageBatch) := foldl map_op m ops.
Definition map_iterator (m : gmap (string * bytes) bytes) (cf : string) : list (bytes * bytes) :=
  merge_sort key_le ((λ kv, (kv.1.2, kv.2)) <$> filter (λ kv, kv.1.1 = cf) (map_to_list m)).

#[global] Program Instance map_db : RocksDb := {|
  DB := gmap (string * bytes) bytes;
  db_get := map_get;
  db_write := map_write;
  db_iterator := map_iterator
|}.
Next Obligation.
  intros m ops cf k. revert m. induction ops as [|op ops IH]; intros m; [done|].
  change (map_write m (op :: ops)) with (map_write (map_op m op) ops). rewrite IH. cbn [foldl]. f_equal. unfold map_get. destruct op as [cf' k' v|cf' k']; cbn [map_op apply_op].
  - case_bool_decide as E; [destruct E as [-> ->]; by rewrite lookup_insert_eq|].
    apply lookup_insert_ne. intros [= -> ->]. by apply E.
  - case_bool_decide as E; [destruct E as [-> ->]; by rewrite lookup_delete_eq|].
    apply lookup_delete_ne. intros [= -> ->]. by apply E.
Qed.
Next Obligation.
  intros m cf k v. unfold map_iterator, map_get. rewrite merge_sort_Permutation, list_elem_of_fmap. split.
  - intros ([[cf' k'] v'] & [= -> ->] & [Hcf Hk%elem_of_map_to_list]%list_elem_of_filter). cbn in Hcf. by subst.
  - intros Hk. exists (cf, k, v). split; [done|]. apply list_elem_of_filter. split; [done|]. by apply elem_of_map_to_list.
Qed.
Next Obligation.
  intros m cf. unfold map_iterator.
  pose proof (StronglySorted_merge_sort key_le ((λ kv, (kv.1.2, kv.2)) <$> filter (λ kv, kv.1.1 = cf) (map_to_list m))) as Hs.
  induction Hs as [|x l _ IH Hx]; constructor; [done|]. by apply Forall_fmap.
Qed.

End map_db.

(** A run: two records of slot 1 and one of slot 2, pruned below slot 2. *)
Definition demo_spent : DB :=
  map_write ∅ [Put CF_SPENT_UTXOS (to_be_bytes 8 1 ++ [1]) []; Put CF_SPENT_UTXOS (to_be_bytes 8 2 ++ [1]) [];
               Put CF_SPENT_UTXOS (to_be_bytes 8 1 ++ [2]) []].

Lemma prune_spent_utxos_exact_witness :
  ∃ db' n, Storage.prune_spent_utxos 2 demo_spent = Ok (db', n) ∧
    (∀ k, db_get db' CF_SPENT_UTXOS k =
       if Storage.spent_slot k <? 2 then None else db_get demo_spent CF_SPENT_UTXOS k) ∧
    (∀ cf k, cf ≠ CF_SPENT_UTXOS → db_get db' cf k = db_get demo_spent cf k).
Proof.
  apply (Storage.prune_spent_utxos_exact 2 demo_spent). intros k v. cbn. unfold map_get, demo_spent, map_write. cbn [foldl map_op].
  intros Hk. repeat (apply lookup_insert_Some in Hk as [[[= <-] _]|[_ Hk]];
    [split; [unfold is_bytes; compute_done|compute_done]|]). by rewrite lookup_empty in Hk.
Defined.
