(* ===== verification/Ledger.v ===== *)
(** * The ledger

    [crates/ledger/src/state.rs]: accounts and unspent outputs in storage, the
    Merkle tree of the accounts in memory, transactions applied directly
    ([apply_transaction], [apply_block_transactions]) or to an overlay that is
    committed later ([apply_block_speculatively], [commit_overlay]). Every
    operation is translated here; what they do is proved in LedgerSpec and
    LedgerBlocks. *)

From S2P Require Import Prelude.
From S2P Require Import Merkle.
From S2P Require Import Transaction.
From S2P Require Import Storage.

Module Ledger.

Record PendingOverlay := mkOverlay {
  writes : gmap (string * bytes) bytes;
  deletes : gset (string * bytes);
  changed_accounts : list Address;
  overlay_root : H256
}.

Definition overlay_new : PendingOverlay := mkOverlay ∅ ∅ [] 0%N.

Definition overlay_put (cf : string) (key value : bytes) (o : PendingOverlay) : PendingOverlay :=
  mkOverlay (<[(cf, key) := value]> o.(writes)) (o.(deletes) ∖ {[(cf, key)]}) o.(changed_accounts) o.(overlay_root).

Definition overlay_delete (cf : string) (key : bytes) (o : PendingOverlay) : PendingOverlay :=
  mkOverlay (delete (cf, key) o.(writes)) (o.(deletes) ∪ {[(cf, key)]}) o.(changed_accounts) o.(overlay_root).

Definition overlay_get (o : PendingOverlay) (cf : string) (key : bytes) : option (option bytes) :=
  if bool_decide ((cf, key) ∈ o.(deletes)) then Some None else Some <$> o.(writes) !! (cf, key).

Definition push_changed (a : Address) (o : PendingOverlay) : PendingOverlay :=
  mkOverlay o.(writes) o.(deletes) (o.(changed_accounts) ++ [a]) o.(overlay_root).
Definition set_root (r : H256) (o : PendingOverlay) : PendingOverlay :=
  mkOverlay o.(writes) o.(deletes) o.(changed_accounts) r.

Section ledger.
Context `{Digest, Codec, Dalek, RocksDb, HashOrder}.

Abbreviation SparseMerkleTree := Merkle.SparseMerkleTree.

Record Ledger := mkLedger { storage : DB; merkle_tree : SparseMerkleTree }.

Definition set_tree (t : SparseMerkleTree) (l : Ledger) : Ledger := mkLedger l.(storage) t.

Definition state_root (l : Ledger) : H256 := l.(merkle_tree).(Merkle.root).

(** [self.storage.write_batch(batch)?]. *)
Definition write_batch (batch : StorageBatch) : M Ledger error unit :=
  l ← get_state;
  db ← reads (λ l, Storage.write_batch batch l.(storage));
  put_state (mkLedger db l.(merkle_tree)).

(** ** Reading *)

Definition get_account (l : Ledger) (a : Address) : result error (option Account) :=
  o ← (Storage.get l.(storage) CF_ACCOUNTS (as_bytes 20 a) : result error _);
  match o with
  | Some bs => acc ← de_account bs; mret (Some acc)
  | None => mret None
  end.

Definition get_or_create_account (l : Ledger) (a : Address) : result error Account :=
  o ← (get_account l a : result error _);
  match o with Some acc => mret acc | None => mret (Account_new a) end.

Definition get_utxo (l : Ledger) (u : UtxoId) : result error (option Utxo) :=
  o ← (Storage.get l.(storage) CF_UTXOS (ser_utxo_id u) : result error _);
  match o with
  | Some bs => utxo ← de_utxo bs; mret (Some utxo)
  | None => mret None
  end.

Definition get_account_from_overlay (l : Ledger) (o : PendingOverlay) (a : Address) : result error Account :=
  match overlay_get o CF_ACCOUNTS (as_bytes 20 a) with
  | Some (Some bs) => de_account bs
  | Some None => mret (Account_new a)
  | None => get_or_create_account l a
  end.

(** ** Checks shared by the two paths *)

Fixpoint check_duplicates (seen : gset UtxoId) (ins : list UtxoId) : result error unit :=
  match ins with
  | [] => mret tt
  | i :: ins =>
      bail_if (bool_decide (i ∈ seen)) (Msg "duplicate UTxO input in transaction");;
      check_duplicates ({[i]} ∪ seen) ins
  end.

(** The loop that sums the inputs, with the lookup of the path. *)
Fixpoint sum_inputs (lookup_utxo : UtxoId → result error Utxo) (spender : Address) (ins : list UtxoId)
    (total_input : Z) : result error Z :=
  match ins with
  | [] => mret total_input
  | i :: ins =>
      utxo ← lookup_utxo i;
      bail_if (negb (utxo.(owner) =? spender)%N) (Msg "UTxO input owned by another address, not sender");;
      total_input ← ok_or (checked_add U128_MAX total_input utxo.(amount)) (Msg "UTxO total input overflow");
      sum_inputs lookup_utxo spender ins total_input
  end.

Fixpoint sum_outputs (outs : list UtxoOutput) (total_output : Z) : result error Z :=
  match outs with
  | [] => mret total_output
  | o :: outs =>
      total_output ← ok_or (checked_add U128_MAX total_output o.(out_amount)) (Msg "UTxO total output overflow");
      sum_outputs outs total_output
  end.

Definition decode_transfer_payload (tx : Transaction) : result error (option TransferPayload) :=
  if negb (bool_decide (tx.(program_id) = Some TRANSFER_PROGRAM_ID)) then Ok None else
  bail_if (bool_decide (tx.(data) = [])) (Msg "transfer program payload is empty");;
  payload ← map_err (λ _, Msg "invalid transfer payload encoding") (de_transfer tx.(data));
  bail_if (payload.(transfer_amount) =? 0) (Msg "transfer amount must be greater than zero");;
  mret (Some payload).

Definition is_utxo_tx (tx : Transaction) : bool :=
  negb (bool_decide (tx.(inputs) = [])) || negb (bool_decide (tx.(outputs) = [])).

Definition set_balance (b : Z) (a : Account) : Account :=
  mkAccount a.(address) b a.(nonce) a.(code_hash) a.(storage_root).
Definition set_nonce (n : Z) (a : Account) : Account :=
  mkAccount a.(address) a.(balance) n a.(code_hash) a.(storage_root).

(** The debit of the sender when the fee is paid from the account. *)
Definition debit_sender (tx : Transaction) (payload : option TransferPayload) (sender_account : Account) :
    result error Account :=
  if is_utxo_tx tx then Ok sender_account else
  let amount := from_option transfer_amount 0 payload in
  total_debit ← ok_or (checked_add U128_MAX tx.(fee) amount) (Msg "fee + transfer amount overflow");
  bail_if (sender_account.(balance) <? total_debit) (Msg "insufficient balance for fee and transfer amount");;
  b ← ok_or (checked_sub sender_account.(balance) total_debit) (Msg "balance underflow during debit");
  mret (set_balance b sender_account).

Definition bump_nonce (a : Account) : result error Account :=
  n ← ok_or (checked_add U64_MAX a.(nonce) 1) (Msg "nonce overflow");
  mret (set_nonce n a).

(** The credit of the recipient, through the path's account lookup. *)
Definition credit_recipient (lookup_account : Address → result error Account) (tx : Transaction)
    (payload : option TransferPayload) (sender_account : Account) : result error (Account * option Account) :=
  match payload with
  | None => mret (sender_account, None)
  | Some p =>
      if (p.(recipient) =? tx.(sender))%N then
        b ← ok_or (checked_add U128_MAX sender_account.(balance) p.(transfer_amount)) (Msg "sender balance overflow");
        mret (set_balance b sender_account, None)
      else
        r ← lookup_account p.(recipient);
        b ← ok_or (checked_add U128_MAX r.(balance) p.(transfer_amount)) (Msg "recipient balance overflow");
        mret (sender_account, Some (set_balance b r))
  end.

Definition check_totals (tx : Transaction) (total_input total_output : Z) : result error unit :=
  if is_utxo_tx tx then
    required ← ok_or (checked_add U128_MAX total_output tx.(fee)) (Msg "UTxO output + fee overflow");
    bail_if (total_input <? required) (Msg "UTxO inputs insufficient for outputs + fee")
  else bail_if (total_input <? total_output) (Msg "UTxO inputs insufficient for outputs").

Definition check_nonce (tx : Transaction) (a : Account) : result error unit :=
  bail_if (negb (a.(nonce) =? tx.(tx_nonce))) (Fmt "invalid nonce: expected {}, got {}" [a.(nonce); tx.(tx_nonce)]).

Definition check_mix (tx : Transaction) (payload : option TransferPayload) : result error unit :=
  bail_if (bool_decide (is_Some payload) && is_utxo_tx tx)
    (Msg "transfer program transactions cannot mix UTxO inputs/outputs").

(** ** The direct path *)

Definition stored_utxo (l : Ledger) (u : UtxoId) : result error Utxo :=
  o ← (get_utxo l u : result error _); ok_or o (Msg "UTxO input not found").

(** The checks of [apply_transaction_validated], in its order. *)
Definition validate (tx : Transaction) (l : Ledger) : result error (Account * option Account) :=
  check_duplicates ∅ tx.(inputs);;
  total_input ← sum_inputs (stored_utxo l) tx.(sender) tx.(inputs) 0;
  payload ← decode_transfer_payload tx;
  check_mix tx payload;;
  sender_account ← get_or_create_account l tx.(sender);
  check_nonce tx sender_account;;
  sender_account ← debit_sender tx payload sender_account;
  sender_account ← bump_nonce sender_account;
  accounts ← credit_recipient (get_or_create_account l) tx payload sender_account;
  total_output ← sum_outputs tx.(outputs) 0;
  check_totals tx total_input total_output;;
  mret accounts.

Definition update_account_in_batch (batch : StorageBatch) (a : Account) : StorageBatch :=
  batch ++ [Put CF_ACCOUNTS (as_bytes 20 a.(address)) (ser_account a)].

Definition new_utxo (o : UtxoOutput) : Utxo := mkUtxo o.(out_amount) (key_address o.(out_owner)) o.(out_script_hash).

(** The puts of the new outputs, from index [idx] on. *)
Fixpoint output_puts (tx_hash : H256) (idx : Z) (outs : list UtxoOutput) : result error StorageBatch :=
  match outs with
  | [] => mret []
  | o :: outs =>
      bail_if (U32_MAX <? idx) (Msg "transaction output index exceeds u32::MAX");;
      rest ← output_puts tx_hash (idx + 1) outs;
      mret (Put CF_UTXOS (ser_utxo_id (mkUtxoId tx_hash idx)) (ser_utxo (new_utxo o)) :: rest)
  end.

Definition hash_account (a : Account) : H256 := sha256_digest (ser_account a).

Definition update_leaf (a : Account) : SparseMerkleTree → SparseMerkleTree :=
  Merkle.update a.(address) (hash_account a).

Definition STATE_ROOT : bytes := str_bytes "state_root".

(** With a batch the root is added to it, without one it is written. *)
Definition update_state_root_incremental (sender_account : Account) (recipient_account : option Account)
    (batch : option StorageBatch) : M Ledger error (option StorageBatch) :=
  modify (λ l, set_tree (update_leaf sender_account l.(merkle_tree)) l);;
  modify (λ l, match recipient_account with
               | Some r => set_tree (update_leaf r l.(merkle_tree)) l
               | None => l
               end);;
  root ← reads (λ l, Ok (state_root l));
  match batch with
  | Some b => mret (Some (b ++ [Put CF_METADATA STATE_ROOT (as_bytes 32 root)]))
  | None => write_batch [Put CF_METADATA STATE_ROOT (as_bytes 32 root)];; mret None
  end.

(** The call with a batch. *)
Definition root_into_batch (sender_account : Account) (recipient_account : option Account) (batch : StorageBatch) :
    M Ledger error StorageBatch :=
  b ← update_state_root_incremental sender_account recipient_account (Some batch);
  mret (default [] b).

Definition receipt (tx_hash : H256) (st : TransactionStatus) (root : H256) : TransactionReceipt :=
  mkReceipt tx_hash 0%N 0 st 0 root.

Definition apply_transaction_validated (tx : Transaction) : M Ledger error TransactionReceipt :=
  accounts ← reads (validate tx);
  let '(sender_account, recipient_account) := accounts in
  let batch := update_account_in_batch [] sender_account in
  let batch := match recipient_account with Some r => update_account_in_batch batch r | None => batch end in
  let batch := batch ++ ((λ i, Delete CF_UTXOS (ser_utxo_id i)) <$> tx.(inputs)) in
  puts ← reads (λ _, output_puts (hash tx) 0 tx.(outputs));
  batch ← root_into_batch sender_account recipient_account (batch ++ puts);
  write_batch batch;;
  root ← reads (λ l, Ok (state_root l));
  mret (receipt (hash tx) Success root).

Definition apply_transaction (tx : Transaction) : M Ledger error TransactionReceipt :=
  reads (λ _, verify_signature tx);;
  apply_transaction_validated tx.

Definition failed (tx : Transaction) (e : error) (root : H256) : TransactionReceipt :=
  receipt (hash tx) (Failed e) root.

(** The loop of [apply_block_transactions]: a failed transaction gets a
    receipt and the block goes on. *)
Fixpoint apply_all (txs : list Transaction) : M Ledger error (list TransactionReceipt) :=
  match txs with
  | [] => mret []
  | tx :: txs =>
      r ← (λ l, match apply_transaction_validated tx l with
                | (l', Ok r) => (l', Ok r)
                | (l', Err e) => (l', Ok (failed tx e (state_root l')))
                end);
      rs ← apply_all txs;
      mret (r :: rs)
  end.

(** The checks before a block is executed, the same on both paths. *)
Definition check_senders (txs : list Transaction) : result error unit :=
  bail_if (existsb (λ tx, negb (key_address tx.(sender_pubkey) =? tx.(sender))%N) txs)
    (Msg "sender address does not match public key").

Definition check_signatures (txs : list Transaction) : result error unit :=
  results ← map_err (λ _, Msg "batch signature verification failed")
              (Ed25519.verify_batch (ed25519_tuple <$> txs));
  bail_if (existsb negb (zip_with (λ _ v, v) txs results)) (Msg "block contains transaction with invalid signature").

Definition apply_block_transactions (txs : list Transaction) : M Ledger error (list TransactionReceipt) :=
  if bool_decide (txs = []) then mret [] else
  reads (λ _, check_senders txs);;
  reads (λ _, check_signatures txs);;
  apply_all txs.

(** ** Start and recovery *)

Definition address_of_bytes (bs : bytes) : Address := Z.to_N (Storage.from_be_bytes bs).

(** The loop over the stored accounts. *)
Fixpoint collect_accounts (entries : list (bytes * bytes)) (acc : gmap Address H256) :
    result error (gmap Address H256) :=
  match entries with
  | [] => mret acc
  | (k, v) :: entries =>
      if (length k =? 20)%nat then
        account ← de_account v;
        collect_accounts entries (<[address_of_bytes k := hash_account account]> acc)
      else collect_accounts entries acc
  end.

Definition recompute_state_root : M Ledger error unit :=
  entries ← reads (λ l, Storage.iterator l.(storage) CF_ACCOUNTS);
  accounts ← reads (λ _, collect_accounts entries ∅);
  modify (set_tree (foldl (λ t kv, Merkle.update kv.1 kv.2 t) Merkle.new (hash_iter accounts)));;
  root ← reads (λ l, Ok (state_root l));
  write_batch [Put CF_METADATA STATE_ROOT (as_bytes 32 root)].

Definition load_state_root : M Ledger error unit :=
  o ← reads (λ l, Storage.get l.(storage) CF_METADATA STATE_ROOT);
  entries ← reads (λ l, Storage.iterator l.(storage) CF_ACCOUNTS);
  if bool_decide (is_Some o) || negb (bool_decide (entries = [])) then recompute_state_root else mret tt.

Definition new (db : DB) : result error Ledger :=
  match load_state_root (mkLedger db Merkle.new) with
  | (l, Ok tt) => Ok l
  | (_, Err e) => Err e
  end.

(** ** Totals in the metadata

    The values are written by [to_le_bytes] and have 16 bytes. *)

Definition TOTAL_BURNED : bytes := str_bytes "total_burned".
Definition TOTAL_TREASURY : bytes := str_bytes "total_treasury_fees".

Definition read_total (key : bytes) (l : Ledger) : result error Z :=
  o ← (Storage.get l.(storage) CF_METADATA key : result error _);
  mret (from_option (λ bs, from_le_bytes (take 16 bs)) 0 o).

Definition total_burned (l : Ledger) : Z := match read_total TOTAL_BURNED l with Ok v => v | Err _ => 0 end.
Definition total_treasury_fees (l : Ledger) : Z := match read_total TOTAL_TREASURY l with Ok v => v | Err _ => 0 end.

Definition record_burned_fees (amount : Z) : M Ledger error unit :=
  if amount =? 0 then mret tt else
  current ← reads (read_total TOTAL_BURNED);
  new_total ← ok_or (checked_add U128_MAX current amount) (Msg "total_burned overflow");
  write_batch [Put CF_METADATA TOTAL_BURNED (to_le_bytes 16 new_total)].

Definition fold_fee_distribution_into_batch (batch : StorageBatch) (o : PendingOverlay) (proposer : Address)
    (proposer_reward burned treasury_fee : Z) : M Ledger error StorageBatch :=
  batch ← (if proposer_reward >? 0 then
             account ← reads (λ l, get_account_from_overlay l o proposer);
             b ← ok_or (checked_add U128_MAX account.(balance) proposer_reward) (Msg "proposer balance overflow");
             let account := set_balance b account in
             root_into_batch account None (update_account_in_batch batch account)
           else mret batch : M Ledger error StorageBatch);
  batch ← (if burned >? 0 then
             current ← reads (read_total TOTAL_BURNED);
             t ← ok_or (checked_add U128_MAX current burned) (Msg "total_burned overflow in batch");
             mret (batch ++ [Put CF_METADATA TOTAL_BURNED (to_le_bytes 16 t)])
           else mret batch : M Ledger error StorageBatch);
  if treasury_fee >? 0 then
    current ← reads (read_total TOTAL_TREASURY);
    t ← ok_or (checked_add U128_MAX current treasury_fee) (Msg "total_treasury_fees overflow in batch");
    mret (batch ++ [Put CF_METADATA TOTAL_TREASURY (to_le_bytes 16 t)])
  else mret batch.

(** ** Credits *)

Definition credit_account_to_batch (batch : StorageBatch) (a : Address) (amount : Z) : M Ledger error StorageBatch :=
  account ← reads (λ l, get_or_create_account l a);
  b ← ok_or (checked_add U128_MAX account.(balance) amount) (Msg "balance overflow crediting account");
  let account := set_balance b account in
  root_into_batch account None (update_account_in_batch batch account).

Definition credit_account (a : Address) (amount : Z) : M Ledger error unit :=
  batch ← credit_account_to_batch [] a amount;
  write_batch batch.

Definition seed_account (a : Address) (b : Z) : M Ledger error unit :=
  let account := with_balance a b in
  batch ← root_into_batch account None [Put CF_ACCOUNTS (as_bytes 20 a) (ser_account account)];
  write_batch batch.

(** ** The speculative path *)

Abbreviation Spec := (PendingOverlay * SparseMerkleTree)%type.

Definition overlay_utxo (l : Ledger) (o : PendingOverlay) (u : UtxoId) : result error Utxo :=
  match overlay_get o CF_UTXOS (ser_utxo_id u) with
  | Some (Some bs) => de_utxo bs
  | Some None => Err (Msg "UTxO input already spent in this block")
  | None => stored_utxo l u
  end.

(** The checks of [apply_tx_to_overlay], in its order. *)
Definition validate_overlay (l : Ledger) (tx : Transaction) (o : PendingOverlay) :
    result error (Account * option Account) :=
  sender_account ← get_account_from_overlay l o tx.(sender);
  check_nonce tx sender_account;;
  payload ← decode_transfer_payload tx;
  check_mix tx payload;;
  sender_account ← debit_sender tx payload sender_account;
  sender_account ← bump_nonce sender_account;
  accounts ← credit_recipient (get_account_from_overlay l o) tx payload sender_account;
  check_duplicates ∅ tx.(inputs);;
  total_input ← sum_inputs (overlay_utxo l o) tx.(sender) tx.(inputs) 0;
  total_output ← sum_outputs tx.(outputs) 0;
  check_totals tx total_input total_output;;
  mret accounts.

(** An account written to the overlay under [key], and its leaf. *)
Definition write_account (key : Address) (a : Account) : M Spec error unit :=
  modify (λ s, (push_changed key (overlay_put CF_ACCOUNTS (as_bytes 20 key) (ser_account a) s.1), update_leaf a s.2)).

Fixpoint put_outputs (tx_hash : H256) (idx : Z) (outs : list UtxoOutput) : M Spec error unit :=
  match outs with
  | [] => mret tt
  | o :: outs =>
      bail_if (U32_MAX <? idx) (Msg "transaction output index exceeds u32::MAX");;
      modify (λ s, (overlay_put CF_UTXOS (ser_utxo_id (mkUtxoId tx_hash idx)) (ser_utxo (new_utxo o)) s.1, s.2));;
      put_outputs tx_hash (idx + 1) outs
  end.

Definition apply_tx_to_overlay (l : Ledger) (tx : Transaction) : M Spec error TransactionReceipt :=
  accounts ← reads (λ s, validate_overlay l tx s.1);
  let '(sender_account, recipient_account) := accounts in
  write_account tx.(sender) sender_account;;
  match recipient_account with Some r => write_account r.(address) r | None => mret tt end;;
  modify (λ s, (foldl (λ o i, overlay_delete CF_UTXOS (ser_utxo_id i) o) s.1 tx.(inputs), s.2));;
  put_outputs (hash tx) 0 tx.(outputs);;
  root ← reads (λ s, Ok s.2.(Merkle.root));
  mret (receipt (hash tx) Success root).

(** The loop of [apply_block_speculatively_with_chain_id]. *)
Fixpoint speculate_all (l : Ledger) (expected_chain_id : option Z) (txs : list Transaction) :
    M Spec error (list TransactionReceipt) :=
  match txs with
  | [] => mret []
  | tx :: txs =>
      r ← (λ s,
        if match expected_chain_id with Some id => negb (tx.(chain_id) =? id) | None => false end then
          (s, Ok (failed tx (Fmt "wrong chain_id: expected {}, got {}" [default 0 expected_chain_id; tx.(chain_id)])
                    s.2.(Merkle.root)))
        else match apply_tx_to_overlay l tx s with
             | (s', Ok r) => (s', Ok r)
             | (s', Err e) => (s', Ok (failed tx e s'.2.(Merkle.root)))
             end);
      rs ← speculate_all l expected_chain_id txs;
      mret (r :: rs)
  end.

(** Speculation reads the ledger and changes nothing in it. *)
Definition apply_block_speculatively_with_chain_id (l : Ledger) (txs : list Transaction)
    (expected_chain_id : option Z) : result error (list TransactionReceipt * PendingOverlay) :=
  if bool_decide (txs = []) then Ok ([], set_root (state_root l) overlay_new) else
  check_senders txs;;
  check_signatures txs;;
  match speculate_all l expected_chain_id txs (overlay_new, l.(merkle_tree)) with
  | (s, Ok receipts) => Ok (receipts, set_root s.2.(Merkle.root) s.1)
  | (_, Err e) => Err e
  end.

Definition apply_block_speculatively (l : Ledger) (txs : list Transaction) :
    result error (list TransactionReceipt * PendingOverlay) :=
  apply_block_speculatively_with_chain_id l txs None.

(** The loop of [prepare_overlay_batch] over the changed accounts. *)
Fixpoint update_changed (o : PendingOverlay) (changed : list Address) : M Ledger error unit :=
  match changed with
  | [] => mret tt
  | a :: changed =>
      match overlay_get o CF_ACCOUNTS (as_bytes 20 a) with
      | Some (Some bs) =>
          account ← reads (λ _, de_account bs);
          modify (λ l, set_tree (Merkle.update a (hash_account account) l.(merkle_tree)) l)
      | Some None => modify (λ l, set_tree (Merkle.update a 0%N l.(merkle_tree)) l)
      | None => mret tt
      end;;
      update_changed o changed
  end.

Definition prepare_overlay_batch (o : PendingOverlay) : M Ledger error StorageBatch :=
  let batch := ((λ kv, Put kv.1.1 kv.1.2 kv.2) <$> hash_iter o.(writes)) ++
               ((λ k, Delete k.1 k.2) <$> hash_elements o.(deletes)) in
  update_changed o o.(changed_accounts);;
  root ← reads (λ l, Ok (state_root l));
  mret (batch ++ [Put CF_METADATA STATE_ROOT (as_bytes 32 root)]).

Definition record_spent_utxos (batch : StorageBatch) (o : PendingOverlay) (slot : Z) : StorageBatch :=
  batch ++ ((λ k, Put CF_SPENT_UTXOS (to_be_bytes 8 slot ++ k.2) []) <$>
            filter (λ k, k.1 = CF_UTXOS) (hash_elements o.(deletes))).

Definition commit_overlay (o : PendingOverlay) : M Ledger error unit :=
  batch ← prepare_overlay_batch o;
  write_batch batch.

End ledger.
End Ledger.
