(* ===== verification/LedgerSpec.v ===== *)
(** * The ledger's specification

    The abstract state (two maps), what a transaction does to it ([tx_exec])
    and the refinement: [apply_transaction_validated] on the stored ledger
    implements it. Consequences for the abstract state are the conservation of
    the supply and the exclusion of replays. *)

From S2P Require Import Prelude.
From S2P Require Import Merkle.
From S2P Require Import Transaction.
From S2P Require Import Storage.
From S2P Require Import Ledger.

Record LState := mkLState { accts : gmap Address Account; utxs : gmap UtxoId Utxo }.

Section spec.
Context `{Digest, Codec, Dalek, RocksDb, HashOrder}.
Import Ledger.

(** ** Specification *)

Definition acct (σ : LState) (a : Address) : Account := default (Account_new a) (σ.(accts) !! a).

Definition owned (σ : LState) (a : Address) (i : UtxoId) : bool :=
  match σ.(utxs) !! i with Some u => (u.(owner) =? a)%N | None => false end.

Definition input_total (m : gmap UtxoId Utxo) (ins : list UtxoId) : Z :=
  sum_list ((λ i, from_option amount 0 (m !! i)) <$> ins).
Definition output_total (outs : list UtxoOutput) : Z := sum_list (out_amount <$> outs).
Definition moved (p : option TransferPayload) : Z := from_option transfer_amount 0 p.

(** A transfer moves its amount between accounts and pays its fee from the
    sender's; a UTxO transaction pays the fee from its inputs. *)
Definition accepts (σ : LState) (tx : Transaction) (p : option TransferPayload) : bool :=
  let s := acct σ tx.(sender) in
  bool_decide (NoDup tx.(inputs)) && forallb (owned σ tx.(sender)) tx.(inputs) &&
  (input_total σ.(utxs) tx.(inputs) <=? U128_MAX) &&
  negb (bool_decide (is_Some p) && is_utxo_tx tx) &&
  (s.(nonce) =? tx.(tx_nonce)) && (tx.(tx_nonce) <? U64_MAX) &&
  (if is_utxo_tx tx then output_total tx.(outputs) + tx.(fee) <=? input_total σ.(utxs) tx.(inputs)
   else tx.(fee) + moved p <=? s.(balance)) &&
  match p with
  | Some q => (q.(recipient) =? tx.(sender))%N ||
              ((acct σ q.(recipient)).(balance) + q.(transfer_amount) <=? U128_MAX)
  | None => true
  end.

Definition sender_after (σ : LState) (tx : Transaction) (p : option TransferPayload) : Account :=
  let s := acct σ tx.(sender) in
  let paid := if is_utxo_tx tx then 0 else tx.(fee) + moved p in
  set_nonce (s.(nonce) + 1) (set_balance (s.(balance) - paid) s).

Definition credit (x : Z) (a : Account) : Account := set_balance (a.(balance) + x) a.

(** The accounts the transaction writes: the sender's and, for a transfer to
    another account, the recipient's. *)
Definition accounts_after (σ : LState) (tx : Transaction) (p : option TransferPayload) : Account * option Account :=
  let s := sender_after σ tx p in
  match p with
  | None => (s, None)
  | Some q => if (q.(recipient) =? tx.(sender))%N then (credit q.(transfer_amount) s, None)
              else (s, Some (credit q.(transfer_amount) (acct σ q.(recipient))))
  end.

Fixpoint add_outputs (h : H256) (idx : Z) (outs : list UtxoOutput) (m : gmap UtxoId Utxo) : gmap UtxoId Utxo :=
  match outs with
  | [] => m
  | o :: outs => add_outputs h (idx + 1) outs (<[mkUtxoId h idx := new_utxo o]> m)
  end.
Definition remove_inputs (ins : list UtxoId) (m : gmap UtxoId Utxo) : gmap UtxoId Utxo :=
  foldl (λ m i, delete i m) m ins.

Definition put_acct (a : Account) (σ : LState) : LState := mkLState (<[a.(address) := a]> σ.(accts)) σ.(utxs).

Definition tx_effect (σ : LState) (tx : Transaction) (p : option TransferPayload) : LState :=
  let '(s, r) := accounts_after σ tx p in
  let σ1 := from_option (λ r, put_acct r (put_acct s σ)) (put_acct s σ) r in
  mkLState σ1.(accts) (add_outputs (hash tx) 0 tx.(outputs) (remove_inputs tx.(inputs) σ1.(utxs))).

Definition tx_exec (tx : Transaction) (σ : LState) : option LState :=
  match decode_transfer_payload tx with
  | Ok p => if accepts σ tx p then Some (tx_effect σ tx p) else None
  | Err _ => None
  end.

(** ** Well-formedness and representation *)

Definition account_ok (a : Address) (acc : Account) : Prop :=
  acc.(address) = a ∧ (a < 2 ^ 160)%N ∧ is_u128 acc.(balance) ∧ is_u64 acc.(nonce).

Record state_ok (σ : LState) : Prop := {
  ok_accts : map_Forall account_ok σ.(accts);
  ok_utxs : map_Forall (λ _ u, is_u128 u.(amount)) σ.(utxs)
}.

(** The types of the fields of a transaction; its outputs can be numbered. *)
Record tx_ok (tx : Transaction) : Prop := {
  ok_sender : (tx.(sender) < 2 ^ 160)%N;
  ok_fee : is_u128 tx.(fee);
  ok_outputs : Forall (λ o, is_u128 o.(out_amount)) tx.(outputs);
  ok_fits : Z.of_nat (length tx.(outputs)) ≤ 2 ^ 32
}.

(** What a read function of the storage (the database, or the overlay in
    front of it) returns for the abstract state. *)
Record represents (get : string → bytes → option bytes) (σ : LState) : Prop := {
  rep_accts : ∀ a, (a < 2 ^ 160)%N → get CF_ACCOUNTS (as_bytes 20 a) = ser_account <$> σ.(accts) !! a;
  rep_keys : ∀ k v, get CF_ACCOUNTS k = Some v → ∃ a, (a < 2 ^ 160)%N ∧ k = as_bytes 20 a;
  rep_utxs : ∀ u, get CF_UTXOS (ser_utxo_id u) = ser_utxo <$> σ.(utxs) !! u
}.

Definition tree_of (m : gmap Address H256) : Merkle.SparseMerkleTree := Merkle.set_leaves m Merkle.new.
Definition account_tree (σ : LState) : Merkle.SparseMerkleTree := tree_of (hash_account <$> σ.(accts)).

#[global] Arguments tree_of : simpl never.
#[global] Arguments account_tree : simpl never.

Record ledger_inv (l : Ledger) (σ : LState) : Prop := {
  inv_state : state_ok σ;
  inv_rep : represents (db_get l.(storage)) σ;
  inv_tree : l.(merkle_tree) = account_tree σ
}.

(** ** The checks *)

Lemma check_duplicates_Ok seen ins :
  check_duplicates seen ins = Ok tt ↔ NoDup ins ∧ ∀ i, i ∈ ins → i ∉ seen.
Proof.
  revert seen. induction ins as [|i ins IH]; intros seen; cbn [check_duplicates].
  - split; [intros _; split; [constructor|by intros ? ?%elem_of_nil]|done].
  - rewrite res_bail_Ok, IH, bool_decide_eq_false, NoDup_cons. set_solver.
Qed.

Lemma sum_list_nonneg (l : list Z) : Forall (λ x, 0 ≤ x) l → 0 ≤ sum_list l.
Proof. unfold sum_list. induction 1; cbn; lia. Qed.

Lemma input_total_cons m i ins : input_total m (i :: ins) = from_option amount 0 (m !! i) + input_total m ins.
Proof. done. Qed.
Lemma output_total_cons o outs : output_total (o :: outs) = o.(out_amount) + output_total outs.
Proof. done. Qed.

Lemma input_total_nonneg σ ins : state_ok σ → 0 ≤ input_total σ.(utxs) ins.
Proof.
  intros [_ Hu]. apply sum_list_nonneg, Forall_fmap, Forall_true. intros i. cbn.
  destruct (_ !! i) as [u|] eqn:E; [|done]. apply (Hu _ _ E).
Qed.

Lemma sum_inputs_Ok σ look a ins t v :
  state_ok σ → (∀ i u, look i = Ok u ↔ σ.(utxs) !! i = Some u) → 0 ≤ t ≤ U128_MAX →
  sum_inputs look a ins t = Ok v ↔
  forallb (owned σ a) ins = true ∧ v = t + input_total σ.(utxs) ins ∧ v ≤ U128_MAX.
Proof.
  intros Hσ Hl. revert t. induction ins as [|i ins IH]; intros t Ht; cbn [sum_inputs forallb].
  - unfold input_total. cbn. split; [intros [= <-]; lia|]. intros (_ & -> & _). unfold_M. f_equal. lia.
  - rewrite andb_true_iff, input_total_cons. unfold owned at 1. split.
    + intros Hs. res_inv. rename select (look i = Ok _) into Hi. apply Hl in Hi. rewrite Hi in *. cbn.
      pose proof (ok_utxs σ Hσ _ _ Hi) as Hr. cbn in Hr.
      rename select (sum_inputs _ _ _ _ = _) into Hs. apply IH in Hs; [|ulia]. rewrite (proj2 (N.eqb_eq _ _)) by done. naive_solver lia.
    + intros ((Ho & Hf) & -> & Hle). destruct (_ !! i) as [u|] eqn:Hi; [|done]. cbn in *.
      pose proof (ok_utxs σ Hσ _ _ Hi) as Hr. cbn in Hr. pose proof (input_total_nonneg σ ins Hσ).
      rewrite (proj2 (Hl i u) Hi). cbn. rewrite Ho. cbn.
      rewrite (proj2 (checked_add_Some U128_MAX t u.(amount) (t + u.(amount)))) by (split; [done|ulia]). cbn.
      apply IH; [ulia|]. split; [done|]. lia.
Qed.

Lemma output_total_nonneg outs : Forall (λ o, is_u128 o.(out_amount)) outs → 0 ≤ output_total outs.
Proof.
  intros Ho. apply sum_list_nonneg, Forall_fmap. eapply Forall_impl; [exact Ho|]. intros x [? _]. done.
Qed.

Lemma sum_outputs_Ok outs t v :
  Forall (λ o, is_u128 o.(out_amount)) outs → 0 ≤ t ≤ U128_MAX →
  sum_outputs outs t = Ok v ↔ v = t + output_total outs ∧ v ≤ U128_MAX.
Proof.
  intros Ho. revert t. induction Ho as [|o outs Hr Ho IH]; intros t Ht; cbn [sum_outputs].
  - unfold output_total. cbn. split; [intros [= <-]; lia|]. intros (-> & _). unfold_M. f_equal. lia.
  - rewrite output_total_cons. pose proof (output_total_nonneg outs Ho). split.
    + intros Hs. res_inv. rename select (sum_outputs _ _ = _) into Hs. apply IH in Hs; [|ulia]. lia.
    + intros (-> & Hle).
      rewrite (proj2 (checked_add_Some U128_MAX t o.(out_amount) (t + o.(out_amount)))) by (split; [done|ulia]). cbn.
      apply IH; [ulia|]. lia.
Qed.

Lemma acct_ok σ a : state_ok σ → (a < 2 ^ 160)%N → account_ok a (acct σ a).
Proof.
  intros Hσ Ha. unfold acct. destruct (_ !! a) eqn:E; cbn; [by apply (ok_accts σ Hσ)|].
  repeat split; cbn; ulia.
Qed.

(** What both paths check, whatever the order. *)
Definition checked (la : Address → result error Account) (lu : UtxoId → result error Utxo) (tx : Transaction)
    (res : Account * option Account) : Prop :=
  ∃ p ti s0 s1 s2 tot,
    check_duplicates ∅ tx.(inputs) = Ok tt ∧ sum_inputs lu tx.(sender) tx.(inputs) 0 = Ok ti ∧
    decode_transfer_payload tx = Ok p ∧ check_mix tx p = Ok tt ∧ la tx.(sender) = Ok s0 ∧
    check_nonce tx s0 = Ok tt ∧ debit_sender tx p s0 = Ok s1 ∧ bump_nonce s1 = Ok s2 ∧
    credit_recipient la tx p s2 = Ok res ∧ sum_outputs tx.(outputs) 0 = Ok tot ∧ check_totals tx ti tot = Ok tt.

Ltac chain := repeat match goal with
  | H : ?m = Ok _ |- context [?m] => rewrite H; cbn [mbind result_bind]
  | u : unit |- _ => destruct u
  end.

Ltac split_checks H := repeat apply res_bind_Ok in H as (? & ? & H).

Lemma validate_checked tx l res :
  validate tx l = Ok res ↔ checked (get_or_create_account l) (stored_utxo l) tx res.
Proof.
  unfold validate, checked. split.
  - intros Hv. split_checks Hv. injection Hv as <-. chain. repeat eexists; eassumption.
  - intros (p & ti & s0 & s1 & s2 & tot & ?&?&?&?&?&?&?&?&?&?&?). by chain.
Qed.

Lemma validate_overlay_checked l tx o res :
  validate_overlay l tx o = Ok res ↔ checked (get_account_from_overlay l o) (overlay_utxo l o) tx res.
Proof.
  unfold validate_overlay, checked. split.
  - intros Hv. split_checks Hv. injection Hv as <-. chain. repeat eexists; eassumption.
  - intros (p & ti & s0 & s1 & s2 & tot & ?&?&?&?&?&?&?&?&?&?&?). by chain.
Qed.

Lemma decode_range tx q :
  decode_transfer_payload tx = Ok (Some q) → (q.(recipient) < 2 ^ 160)%N ∧ 0 < q.(transfer_amount) ≤ U128_MAX.
Proof.
  unfold decode_transfer_payload. case_match; [done|]. intros Hd. res_inv. unfold map_err in *.
  repeat case_match; simplify_eq. rename select (de_transfer _ = _) into Hde. apply de_transfer_range in Hde. lia.
Qed.

Lemma not_utxo_inputs tx : is_utxo_tx tx = false → tx.(inputs) = [] ∧ tx.(outputs) = [].
Proof. unfold is_utxo_tx. intros Hu. by clean_ints. Qed.

Section reads_of.
Context (σ : LState) (la : Address → result error Account) (lu : UtxoId → result error Utxo).
Hypothesis Hσ : state_ok σ.
Hypothesis Hla : ∀ a, (a < 2 ^ 160)%N → la a = Ok (acct σ a).
Hypothesis Hlu : ∀ i u, lu i = Ok u ↔ σ.(utxs) !! i = Some u.

Lemma debit_bump_Ok tx p s2 :
  tx_ok tx → 0 ≤ moved p →
  (∃ s1, debit_sender tx p (acct σ tx.(sender)) = Ok s1 ∧ bump_nonce s1 = Ok s2) ↔
  (is_utxo_tx tx = false → tx.(fee) + moved p ≤ (acct σ tx.(sender)).(balance)) ∧
  (acct σ tx.(sender)).(nonce) < U64_MAX ∧ s2 = sender_after σ tx p.
Proof using Hσ.
  intros Htx Hm. destruct (acct_ok σ tx.(sender) Hσ (ok_sender tx Htx)) as (_ & _ & Hb & Hn).
  unfold debit_sender, bump_nonce, sender_after. cbv zeta. fold (moved p). set (s := acct σ tx.(sender)) in *.
  destruct (is_utxo_tx tx); split.
  - intros (s1 & [= <-] & Hs). res_inv. split; [done|]. split; [ulia|]. destruct s; cbn in *. unfold set_nonce. cbn. f_equal; lia.
  - intros (_ & Hlt & ->). eexists. split; [done|].
    rewrite (proj2 (checked_add_Some U64_MAX s.(nonce) 1 _)) by (split; [done|ulia]). unfold set_nonce, set_balance. cbn.
    unfold_M. do 2 f_equal. lia.
  - intros (s1 & Hd & Hs). res_inv. cbn in *. split; [intros _; lia|]. split; [ulia|].
    unfold set_nonce, set_balance. cbn. f_equal; lia.
  - intros (Hle & Hlt & ->). specialize (Hle eq_refl). eexists. split.
    + rewrite (proj2 (checked_add_Some U128_MAX tx.(fee) (moved p) _)) by (split; [done|ulia]). unfold_M.
      rewrite (proj2 (Z.ltb_ge _ _)) by lia. cbn.
      rewrite (proj2 (checked_sub_Some s.(balance) (tx.(fee) + moved p) _)) by (split; [done|lia]). done.
    + unfold_M. cbn. rewrite (proj2 (checked_add_Some U64_MAX s.(nonce) 1 _)) by (split; [done|ulia]). done.
Qed.

Lemma credit_Ok tx p res :
  tx_ok tx → decode_transfer_payload tx = Ok p →
  (is_utxo_tx tx = false → tx.(fee) + moved p ≤ (acct σ tx.(sender)).(balance)) →
  (bool_decide (is_Some p) && is_utxo_tx tx = false) →
  credit_recipient la tx p (sender_after σ tx p) = Ok res ↔
  res = accounts_after σ tx p ∧
  (∀ q, p = Some q → q.(recipient) ≠ tx.(sender) → (acct σ q.(recipient)).(balance) + q.(transfer_amount) ≤ U128_MAX).
Proof using Hσ Hla.
  intros Htx Hd Hpaid Hmix. unfold credit_recipient, accounts_after.
  destruct p as [q|]; [|split; [intros [= <-]; by split|by intros [-> _]]].
  destruct (decode_range tx q Hd) as [Hr Ha]. destruct (acct_ok σ tx.(sender) Hσ (ok_sender tx Htx)) as (_ & _ & Hb & _).
  destruct (N.eqb_spec q.(recipient) tx.(sender)) as [He|He].
  - cbn in Hmix. specialize (Hpaid Hmix). cbn in Hpaid. pose proof (ok_fee tx Htx).
    rewrite (proj2 (checked_add_Some U128_MAX (sender_after σ tx (Some q)).(balance) q.(transfer_amount) _))
      by (split; [done|unfold sender_after; rewrite Hmix; cbn; ulia]).
    unfold_M. split; [intros [= <-]; split; [done|intros ? [= <-] ?; done]|by intros [-> _]].
  - rewrite Hla by done. cbn [mbind result_bind]. split.
    + intros Hc. res_inv. split; [by subst|]. intros ? [= <-] _. done.
    + intros [-> Hle]. specialize (Hle q eq_refl He).
      rewrite (proj2 (checked_add_Some U128_MAX _ _ _)) by (split; [done|exact Hle]). done.
Qed.

Lemma moved_nonneg tx p : decode_transfer_payload tx = Ok p → 0 ≤ moved p.
Proof using Type. destruct p as [q|]; [|done]. intros Hd%decode_range. cbn. lia. Qed.

Lemma checked_accepts tx res :
  tx_ok tx → checked la lu tx res →
  ∃ p, decode_transfer_payload tx = Ok p ∧ accepts σ tx p = true ∧ res = accounts_after σ tx p.
Proof using Hσ Hla Hlu.
  intros Htx. destruct (acct_ok σ tx.(sender) Hσ (ok_sender tx Htx)) as (_ & _ & Hb & Hn).
  intros (p & ti & s0 & s1 & s2 & tot & Hdup & Hin & Hd & Hmix & Hs0 & Hno & Hdb & Hbu & Hcr & Hout & Htot).
  exists p. split; [done|]. rewrite Hla in Hs0 by apply Htx. injection Hs0 as <-.
  destruct (proj1 (debit_bump_Ok tx p s2 Htx (moved_nonneg _ _ Hd)) (ex_intro _ s1 (conj Hdb Hbu))) as (Hpay & Hlt & ->).
  apply res_bail_last in Hmix, Hno. clean_ints.
  apply (credit_Ok tx p res Htx Hd Hpay Hmix) in Hcr as [-> Hrec]. split; [|done].
  apply check_duplicates_Ok in Hdup as [Hdup _]. apply (sum_inputs_Ok σ) in Hin as (Hown & -> & Hle); [|done..].
  unfold accepts. rewrite bool_decide_true, Hown, Hmix by done. cbn.
  rewrite (proj2 (Z.leb_le _ _)), (proj2 (Z.eqb_eq _ _)), (proj2 (Z.ltb_lt _ _)) by lia. cbn.
  apply andb_true_iff. split.
  - destruct (is_utxo_tx tx) eqn:Hu; [|apply Z.leb_le; auto].
    apply sum_outputs_Ok in Hout as [-> _]; [|apply Htx|done]. unfold check_totals in Htot. rewrite Hu in Htot.
    res_inv. apply Z.leb_le. lia.
  - destruct p as [q|]; [|done]. destruct (N.eqb_spec q.(recipient) tx.(sender)); [done|]. cbn. apply Z.leb_le. eauto.
Qed.

Lemma totals_Ok tx p :
  tx_ok tx → input_total σ.(utxs) tx.(inputs) ≤ U128_MAX →
  (if is_utxo_tx tx then output_total tx.(outputs) + tx.(fee) <=? input_total σ.(utxs) tx.(inputs)
   else tx.(fee) + moved p <=? (acct σ tx.(sender)).(balance)) = true →
  sum_outputs tx.(outputs) 0 = Ok (output_total tx.(outputs)) ∧
  check_totals tx (input_total σ.(utxs) tx.(inputs)) (output_total tx.(outputs)) = Ok tt.
Proof using Hσ.
  intros Htx Hle Hif. pose proof (ok_fee tx Htx) as Hf. unfold check_totals.
  destruct (is_utxo_tx tx) eqn:Hu; clean_ints.
  - pose proof (output_total_nonneg _ (ok_outputs tx Htx)). split; [apply sum_outputs_Ok; [apply Htx|done|ulia]|].
    rewrite (proj2 (checked_add_Some U128_MAX (output_total _) tx.(fee) _)) by (split; [done|ulia]). unfold_M.
    by rewrite (proj2 (Z.ltb_ge _ _)) by lia.
  - apply not_utxo_inputs in Hu as [-> ->]. done.
Qed.

(** The checks pass exactly for the accepted transactions. *)
Lemma checked_spec tx res :
  tx_ok tx →
  checked la lu tx res ↔
  ∃ p, decode_transfer_payload tx = Ok p ∧ accepts σ tx p = true ∧ res = accounts_after σ tx p.
Proof using Hσ Hla Hlu.
  intros Htx. split; [by apply checked_accepts|]. destruct (acct_ok σ tx.(sender) Hσ (ok_sender tx Htx)) as (_ & _ & Hb & Hn).
  intros (p & Hd & Hacc & ->). unfold accepts in Hacc. cbv zeta in Hacc.
  apply andb_true_iff in Hacc as [Hacc Hrec]. apply andb_true_iff in Hacc as [Hacc Htot]. clean_ints.
  assert (Hpay : is_utxo_tx tx = false → tx.(fee) + moved p ≤ (acct σ tx.(sender)).(balance))
    by (intros Hu; rewrite Hu in Htot; by clean_ints).
  destruct (proj2 (debit_bump_Ok tx p (sender_after σ tx p) Htx (moved_nonneg _ _ Hd))) as (s1 & Hdb & Hbu);
    [repeat split; [done|lia]|].
  destruct (totals_Ok tx p Htx) as [Hout Hck]; [done..|].
  exists p, (input_total σ.(utxs) tx.(inputs)), (acct σ tx.(sender)), s1, (sender_after σ tx p), (output_total tx.(outputs)).
  repeat match goal with |- _ ∧ _ => split end; try done.
  - apply check_duplicates_Ok. split; [done|]. intros ? _. apply not_elem_of_empty.
  - apply (sum_inputs_Ok σ); [done..|]. repeat split; [done|lia].
  - by apply res_bail_last.
  - by apply Hla, Htx.
  - apply res_bail_last, negb_false_iff. by apply Z.eqb_eq.
  - apply credit_Ok; [done..|]. split; [done|]. intros q -> Hne. apply orb_true_iff in Hrec as [He|Hle]; clean_ints; [|done].
    done.
Qed.
End reads_of.

(** ** Writes *)

Lemma as_bytes_20_inj a b : (a < 2 ^ 160)%N → (b < 2 ^ 160)%N → as_bytes 20 a = as_bytes 20 b → a = b.
Proof. intros Ha Hb. apply as_bytes_inj; change (256 ^ Z.of_nat 20) with (Z.of_N (2 ^ 160)); lia. Qed.

(** The read function after a batch. *)
Definition after (ops : StorageBatch) (get : string → bytes → option bytes) : string → bytes → option bytes :=
  λ cf k, foldl (apply_op cf k) (get cf k) ops.

Lemma get_write_after db ops cf k : db_get (db_write db ops) cf k = after ops (db_get db) cf k.
Proof. apply db_get_write. Qed.

Lemma represents_ext get get' σ :
  (∀ k, get CF_ACCOUNTS k = get' CF_ACCOUNTS k) → (∀ k, get CF_UTXOS k = get' CF_UTXOS k) →
  represents get σ → represents get' σ.
Proof.
  intros Ha Hu [R1 R2 R3]. constructor; intros.
  - rewrite <- Ha. auto.
  - eapply R2. by rewrite Ha.
  - rewrite <- Hu. auto.
Qed.

Lemma represents_put_account get σ a :
  (a.(address) < 2 ^ 160)%N → represents get σ →
  represents (after [Put CF_ACCOUNTS (as_bytes 20 a.(address)) (ser_account a)] get) (put_acct a σ).
Proof.
  intros Ha [R1 R2 R3]. constructor; cbn [after foldl apply_op put_acct accts utxs].
  - intros b Hb. unfold after. cbn. rewrite R1 by done. case_bool_decide as E.
    + destruct E as [_ E%as_bytes_20_inj]; [|done..]. subst. by rewrite lookup_insert_eq.
    + rewrite lookup_insert_ne; [done|]. intros <-. by apply E.
  - intros k v. unfold after. cbn. case_bool_decide as E; [|apply R2]. destruct E as [_ <-]. eauto.
  - intros u. unfold after. cbn. rewrite bool_decide_false by (intros [? _]; done). apply R3.
Qed.

Lemma represents_delete_utxo get σ i :
  represents get σ →
  represents (after [Delete CF_UTXOS (ser_utxo_id i)] get) (mkLState σ.(accts) (delete i σ.(utxs))).
Proof.
  intros [R1 R2 R3]. constructor; cbn [accts utxs]; unfold after; cbn.
  - intros a Ha. rewrite bool_decide_false by (intros [? _]; done). by apply R1.
  - intros k v. rewrite bool_decide_false by (intros [? _]; done). apply R2.
  - intros u. rewrite R3. case_bool_decide as E.
    + destruct E as [_ ->%ser_utxo_id_inj]. by rewrite lookup_delete_eq.
    + rewrite lookup_delete_ne; [done|]. intros ->. by apply E.
Qed.

Lemma represents_put_utxo get σ i x :
  represents get σ →
  represents (after [Put CF_UTXOS (ser_utxo_id i) (ser_utxo x)] get) (mkLState σ.(accts) (<[i := x]> σ.(utxs))).
Proof.
  intros [R1 R2 R3]. constructor; cbn [accts utxs]; unfold after; cbn.
  - intros a Ha. rewrite bool_decide_false by (intros [? _]; done). by apply R1.
  - intros k v. rewrite bool_decide_false by (intros [? _]; done). apply R2.
  - intros u. rewrite R3. case_bool_decide as E.
    + destruct E as [_ ->%ser_utxo_id_inj]. by rewrite lookup_insert_eq.
    + rewrite lookup_insert_ne; [done|]. intros ->. by apply E.
Qed.

Lemma after_app ops ops' get cf k : after (ops ++ ops') get cf k = after ops' (after ops get) cf k.
Proof. unfold after. by rewrite foldl_app. Qed.

Lemma represents_app ops ops' get σ :
  represents (after ops' (after ops get)) σ → represents (after (ops ++ ops') get) σ.
Proof. apply represents_ext; intros k; by rewrite after_app. Qed.

Lemma represents_metadata get σ k v : represents get σ → represents (after [Put CF_METADATA k v] get) σ.
Proof. apply represents_ext; intros k'; unfold after; cbn; rewrite bool_decide_false by (intros [? _]; done); done. Qed.

Lemma represents_remove_inputs get σ ins :
  represents get σ →
  represents (after ((λ i, Delete CF_UTXOS (ser_utxo_id i)) <$> ins) get)
    (mkLState σ.(accts) (remove_inputs ins σ.(utxs))).
Proof.
  revert get σ. induction ins as [|i ins IH]; intros get σ HR.
  - by destruct σ.
  - apply (represents_app [_]). apply (IH _ (mkLState σ.(accts) (delete i σ.(utxs)))). by apply represents_delete_utxo.
Qed.

Lemma output_puts_Ok h idx outs :
  0 ≤ idx → idx + Z.of_nat (length outs) ≤ 2 ^ 32 → ∃ puts, output_puts h idx outs = Ok puts.
Proof.
  revert idx. induction outs as [|o outs IH]; intros idx Hi Hl; cbn; [eauto|].
  cbn in Hl. destruct (IH (idx + 1)) as [puts ->]; [lia..|]. unfold_M.
  rewrite (proj2 (Z.ltb_ge _ _)) by ulia. eauto.
Qed.

Lemma represents_add_outputs get σ h idx outs puts :
  output_puts h idx outs = Ok puts → represents get σ →
  represents (after puts get) (mkLState σ.(accts) (add_outputs h idx outs σ.(utxs))).
Proof.
  revert get σ idx puts. induction outs as [|o outs IH]; intros get σ idx puts Hp HR; cbn [output_puts] in Hp.
  - injection Hp as <-. by destruct σ.
  - res_inv. apply (represents_app [_]). cbn [add_outputs].
    pose proof (represents_put_utxo get σ (mkUtxoId h idx) (new_utxo o) HR) as HQ.
    eapply IH in HQ; [|eassumption]. cbn [accts utxs] in HQ. exact HQ.
Qed.

(** ** The tree *)

Lemma update_set_leaves m k v t : Merkle.update k v (Merkle.set_leaves m t) = Merkle.set_leaves (<[k := v]> m) t.
Proof. done. Qed.

Lemma tree_of_update m k v : Merkle.update k v (tree_of m) = tree_of (<[k := v]> m).
Proof. unfold tree_of. apply update_set_leaves. Qed.

Lemma tree_of_empty : tree_of ∅ = Merkle.new.
Proof.
  pose proof (Merkle.wf_root _ Merkle.new_wf) as Hr. unfold tree_of, Merkle.set_leaves. revert Hr.
  assert (Hl : Merkle.new.(Merkle.leaves) = ∅) by (unfold Merkle.new; cbv zeta; by cbn [Merkle.leaves]).
  revert Hl. generalize Merkle.new as t. intros [rt lv ds dp] Hl Hr. cbn in *. subst lv. by rewrite <- Hr.
Qed.

Lemma update_leaf_tree a σ : update_leaf a (account_tree σ) = account_tree (put_acct a σ).
Proof. unfold update_leaf, account_tree. rewrite tree_of_update. unfold put_acct. cbn [accts]. by rewrite fmap_insert. Qed.

(** ** Well-formedness is kept *)

Lemma put_acct_ok a σ : state_ok σ → account_ok a.(address) a → state_ok (put_acct a σ).
Proof. intros [Ha Hu] Hok. constructor; [|done]. by apply map_Forall_insert_2. Qed.

Lemma account_ok_addr a x : account_ok a x → x.(address) = a.
Proof. by intros [? _]. Qed.

Lemma accepts_paid σ tx p :
  state_ok σ → tx_ok tx → decode_transfer_payload tx = Ok p → accepts σ tx p = true →
  account_ok tx.(sender) (sender_after σ tx p) ∧
  (is_utxo_tx tx = false → tx.(fee) + moved p ≤ (acct σ tx.(sender)).(balance)).
Proof.
  intros Hσ Htx Hd Hacc. destruct (acct_ok σ tx.(sender) Hσ (ok_sender tx Htx)) as (Ha & Hr & Hb & Hn).
  pose proof (ok_fee tx Htx) as Hf. pose proof (moved_nonneg _ _ Hd) as Hm.
  unfold accepts in Hacc. cbv zeta in Hacc. repeat (apply andb_true_iff in Hacc as [Hacc ?]). clean_ints.
  unfold sender_after. destruct (is_utxo_tx tx) eqn:Hu; clean_ints; split; try done; try (intros _; done);
    repeat split; cbn; try done; ulia.
Qed.

Lemma credit_ok a x v : account_ok a x → 0 ≤ v → x.(balance) + v ≤ U128_MAX → account_ok a (credit v x).
Proof. intros (? & ? & ? & ?) ? ?. repeat split; cbn; try done; ulia. Qed.

Lemma accounts_after_ok σ tx p s r :
  state_ok σ → tx_ok tx → decode_transfer_payload tx = Ok p → accepts σ tx p = true →
  accounts_after σ tx p = (s, r) →
  account_ok tx.(sender) s ∧
  match r with
  | Some r => ∃ q, p = Some q ∧ q.(recipient) ≠ tx.(sender) ∧ account_ok q.(recipient) r
  | None => True
  end.
Proof.
  intros Hσ Htx Hd Hacc. destruct (accepts_paid σ tx p Hσ Htx Hd Hacc) as [Hs Hpay].
  unfold accounts_after. destruct p as [q|]; [|by intros [= <- <-]].
  destruct (decode_range tx q Hd) as [Hqr Hqa]. unfold accepts in Hacc. cbv zeta in Hacc.
  apply andb_true_iff in Hacc as [Hacc Hrec]. apply andb_true_iff in Hacc as [Hacc _]. clean_ints.
  pose proof (ok_fee tx Htx) as Hf. destruct (acct_ok σ tx.(sender) Hσ (ok_sender tx Htx)) as (_ & _ & Hb0 & _).
  destruct (N.eqb_spec q.(recipient) tx.(sender)) as [He|He]; intros [= <- <-].
  - split; [|done]. apply credit_ok; [done|lia|]. rename select (bool_decide _ && _ = false) into Hu. cbn in Hu.
    specialize (Hpay Hu). unfold sender_after. rewrite Hu. cbn in *. ulia.
  - split; [done|]. exists q. split; [done|]. split; [done|]. cbn in Hrec. clean_ints.
    apply credit_ok; [by apply acct_ok|lia|done].
Qed.

Lemma remove_inputs_Forall (P : Utxo → Prop) ins m : map_Forall (λ _, P) m → map_Forall (λ _, P) (remove_inputs ins m).
Proof. revert m. induction ins as [|i ins IH]; intros m Hm; [done|]. apply IH. by apply map_Forall_delete. Qed.

Lemma add_outputs_Forall (P : Utxo → Prop) h idx outs m :
  Forall (λ o, P (new_utxo o)) outs → map_Forall (λ _, P) m → map_Forall (λ _, P) (add_outputs h idx outs m).
Proof.
  intros Ho. revert idx m. induction Ho as [|o outs Hp Ho IH]; intros idx m Hm; [done|].
  apply IH. by apply map_Forall_insert_2.
Qed.

Lemma tx_exec_ok tx σ σ' : state_ok σ → tx_ok tx → tx_exec tx σ = Some σ' → state_ok σ'.
Proof.
  intros Hσ Htx. unfold tx_exec. destruct (decode_transfer_payload tx) as [p|] eqn:Hd; [|done].
  destruct (accepts σ tx p) eqn:Hacc; [|done]. intros [= <-]. unfold tx_effect.
  destruct (accounts_after σ tx p) as [s r] eqn:Haft.
  destruct (accounts_after_ok σ tx p s r Hσ Htx Hd Hacc Haft) as [Hs Hr].
  assert (H1s : state_ok (put_acct s σ)).
  { apply put_acct_ok; [done|]. by rewrite (account_ok_addr _ _ Hs). }
  assert (H2s : state_ok (from_option (λ r, put_acct r (put_acct s σ)) (put_acct s σ) r)).
  { destruct r as [r|]; [|done]. destruct Hr as (q & _ & _ & Hr). apply put_acct_ok; [done|].
    by rewrite (account_ok_addr _ _ Hr). }
  constructor; [apply H2s|]. cbn [utxs].
  apply (add_outputs_Forall (λ u, is_u128 u.(amount))); [apply (ok_outputs tx Htx)|].
  apply (remove_inputs_Forall (λ u, is_u128 u.(amount))). apply H2s.
Qed.

(** ** Refinement of the direct path *)

Lemma get_account_rep l σ a :
  ledger_inv l σ → (a < 2 ^ 160)%N → get_or_create_account l a = Ok (acct σ a).
Proof.
  intros Hl Ha. unfold get_or_create_account, get_account.
  rewrite Storage.get_known by auto with aether. rewrite (rep_accts _ _ (inv_rep _ _ Hl)) by done.
  unfold acct. destruct (_ !! a); cbn; [by rewrite de_ser_account|done].
Qed.

Lemma stored_utxo_rep l σ i u : ledger_inv l σ → stored_utxo l i = Ok u ↔ σ.(utxs) !! i = Some u.
Proof.
  intros Hl. unfold stored_utxo, get_utxo.
  rewrite Storage.get_known by auto with aether. rewrite (rep_utxs _ _ (inv_rep _ _ Hl)).
  destruct (σ.(utxs) !! i); cbn; [rewrite de_ser_utxo; cbn|]; unfold_M; split; by intros [= <-].
Qed.

(** The batch of an accepted transaction. *)
Definition tx_batch (tx : Transaction) (s : Account) (r : option Account) (puts : StorageBatch) : StorageBatch :=
  (from_option (λ r, update_account_in_batch (update_account_in_batch [] s) r) (update_account_in_batch [] s) r ++
   ((λ i, Delete CF_UTXOS (ser_utxo_id i)) <$> tx.(inputs))) ++ puts.

Lemma batch_represents get σ tx p s r puts :
  state_ok σ → tx_ok tx → decode_transfer_payload tx = Ok p → accepts σ tx p = true →
  accounts_after σ tx p = (s, r) → output_puts (hash tx) 0 tx.(outputs) = Ok puts →
  represents get σ → represents (after (tx_batch tx s r puts) get) (tx_effect σ tx p).
Proof.
  intros Hσ Htx Hd Hacc Haft Hputs HR. destruct (accounts_after_ok σ tx p s r Hσ Htx Hd Hacc Haft) as [(Hsa & Hsr & _) Hr].
  unfold tx_effect. rewrite Haft. unfold tx_batch. apply represents_app.
  apply (represents_add_outputs _ (mkLState _ (remove_inputs _ _))); [done|]. apply represents_app.
  apply represents_remove_inputs. assert (represents (after (update_account_in_batch [] s) get) (put_acct s σ)).
  { apply represents_put_account; [by rewrite Hsa|done]. }
  destruct r as [r|]; [|done]. destruct Hr as (q & _ & _ & Hra & Hrr & _). cbn [from_option].
  apply represents_app. apply represents_put_account; [by rewrite Hra|done].
Qed.

Lemma resolve_tx_batch tx s r puts h idx outs k v :
  output_puts h idx outs = Ok puts →
  Storage.resolve (tx_batch tx s r puts ++ [Put CF_METADATA k v]) = Ok tt.
Proof.
  intros Hp. apply Storage.resolve_known. unfold tx_batch. rewrite !Forall_app. split; [split; [split|]|].
  - by destruct r; repeat constructor.
  - apply Forall_fmap, Forall_true. intros i. cbn. auto with aether.
  - revert idx puts Hp. induction outs as [|o outs IH]; intros idx puts Hp; cbn in Hp; [by injection Hp as <-|].
    res_inv. constructor; [auto with aether|eauto].
  - by repeat constructor.
Qed.

Lemma tree_after l σ s r :
  ledger_inv l σ →
  from_option (λ r, update_leaf r (update_leaf s l.(merkle_tree))) (update_leaf s l.(merkle_tree)) r =
  account_tree (from_option (λ r, put_acct r (put_acct s σ)) (put_acct s σ) r).
Proof. intros Hl. rewrite (inv_tree _ _ Hl), update_leaf_tree. destruct r; cbn; by rewrite ?update_leaf_tree. Qed.

Lemma account_tree_utxs m u u' : account_tree (mkLState m u) = account_tree (mkLState m u').
Proof. done. Qed.

(** The whole of [apply_transaction_validated] once its checks passed. *)
Lemma apply_validated_run tx l s r puts :
  validate tx l = Ok (s, r) → output_puts (hash tx) 0 tx.(outputs) = Ok puts →
  let t := from_option (λ r, update_leaf r (update_leaf s l.(merkle_tree))) (update_leaf s l.(merkle_tree)) r in
  let l' := mkLedger (db_write l.(storage) (tx_batch tx s r puts ++ [Put CF_METADATA STATE_ROOT (as_bytes 32 t.(Merkle.root))])) t in
  apply_transaction_validated tx l = (l', Ok (receipt (hash tx) Success (state_root l'))).
Proof.
  intros Hv Hp t l'. subst l'. pose proof (resolve_tx_batch tx s r puts _ _ _ STATE_ROOT (as_bytes 32 t.(Merkle.root)) Hp) as Hres.
  unfold apply_transaction_validated, root_into_batch, update_state_root_incremental, write_batch, Storage.write_batch.
  unfold_M. rewrite Hv, Hp. unfold state_root, tx_batch in *. subst t.
  destruct r as [r|]; cbn [merkle_tree set_tree storage from_option default] in *; unfold id in *; by rewrite Hres.
Qed.

(** A transaction on the stored ledger does what the specification says: it
    is accepted exactly when the specification accepts it, the storage and the
    tree follow, and a rejected one changes nothing. *)
Lemma apply_validated_refines tx l σ :
  ledger_inv l σ → tx_ok tx →
  match tx_exec tx σ with
  | Some σ' => ∃ l', apply_transaction_validated tx l = (l', Ok (receipt (hash tx) Success (state_root l'))) ∧
                     ledger_inv l' σ'
  | None => ∃ e, apply_transaction_validated tx l = (l, Err e)
  end.
Proof.
  intros Hl Htx. pose proof (λ res, validate_checked tx l res) as Hvc.
  assert (Hcs := λ res, checked_spec σ _ _ (inv_state _ _ Hl) (λ a, get_account_rep l σ a Hl) (λ i u, stored_utxo_rep l σ i u Hl) tx res Htx).
  destruct (tx_exec tx σ) as [σ'|] eqn:Hx.
  - pose proof (tx_exec_ok tx σ σ' (inv_state _ _ Hl) Htx Hx) as Hσ'. unfold tx_exec in Hx.
    destruct (decode_transfer_payload tx) as [p|] eqn:Hd; [|done]. destruct (accepts σ tx p) eqn:Hacc; [|done].
    injection Hx as <-. destruct (accounts_after σ tx p) as [s r] eqn:Haft.
    assert (Hv : validate tx l = Ok (s, r)) by (apply Hvc, Hcs; exists p; by rewrite Haft).
    destruct (output_puts_Ok (hash tx) 0 tx.(outputs)) as [puts Hp]; [done|pose proof (ok_fits tx Htx); lia|].
    rewrite (apply_validated_run tx l s r puts Hv Hp). cbv zeta. eexists. split; [reflexivity|]. constructor; [done|..]; cbn [storage merkle_tree].
    + pose proof (batch_represents _ σ tx p s r puts (inv_state _ _ Hl) Htx Hd Hacc Haft Hp (inv_rep _ _ Hl)) as HR.
      eapply represents_ext; [| |eapply (represents_metadata _ _ STATE_ROOT), HR];
        intros k; rewrite db_get_write; by rewrite <- after_app.
    + rewrite (tree_after l σ s r Hl). unfold tx_effect. rewrite Haft. destruct r; done.
  - destruct (validate tx l) as [[s r]|e] eqn:Hv.
    + destruct (proj1 (Hcs _) (proj1 (Hvc _) eq_refl)) as (p & Hd & Hacc & _). unfold tx_exec in Hx. by rewrite Hd, Hacc in Hx.
    + exists e. unfold apply_transaction_validated. unfold_M. by rewrite Hv.
Qed.

(** ** Supply *)

Definition supply (σ : LState) : Z := map_sum balance σ.(accts) + map_sum amount σ.(utxs).

Lemma acct_put a b σ : acct (put_acct b σ) a = if decide (b.(address) = a) then b else acct σ a.
Proof.
  unfold acct, put_acct. cbn. case_decide as E; [subst; by rewrite lookup_insert_eq|by rewrite lookup_insert_ne].
Qed.

Lemma put_acct_supply a σ :
  supply (put_acct a σ) = supply σ + a.(balance) - (acct σ a.(address)).(balance).
Proof.
  unfold supply, put_acct, acct. cbn [accts utxs]. rewrite map_sum_insert.
  destruct (_ !! a.(address)); cbn; lia.
Qed.

Lemma input_total_delete m i ins : i ∉ ins → input_total (delete i m) ins = input_total m ins.
Proof.
  induction ins as [|j ins IH]; [done|]. intros [Hne Hni]%not_elem_of_cons.
  rewrite !input_total_cons, IH, lookup_delete_ne by done. done.
Qed.

Lemma remove_inputs_sum m ins : NoDup ins → map_sum amount (remove_inputs ins m) = map_sum amount m - input_total m ins.
Proof.
  intros Hnd. revert m. induction Hnd as [|i ins Hi _ IH]; intros m; [unfold input_total; cbn; lia|].
  rewrite input_total_cons. change (remove_inputs (i :: ins) m) with (remove_inputs ins (delete i m)).
  rewrite IH, input_total_delete, map_sum_delete_opt by done. lia.
Qed.

Lemma add_outputs_sum h idx outs m :
  Forall (λ o, is_u128 o.(out_amount)) outs → map_Forall (λ _ u, is_u128 u.(amount)) m →
  map_sum amount (add_outputs h idx outs m) ≤ map_sum amount m + output_total outs.
Proof.
  intros Ho. revert idx m. induction Ho as [|o outs Hr Ho IH]; intros idx m Hm; [unfold output_total; cbn; lia|].
  rewrite output_total_cons. cbn [add_outputs].
  specialize (IH (idx + 1) (<[mkUtxoId h idx := new_utxo o]> m) ltac:(by apply map_Forall_insert_2)).
  rewrite map_sum_insert in IH.
  assert (0 ≤ from_option amount 0 (m !! mkUtxoId h idx)); [|cbn in *; lia].
  destruct (m !! _) eqn:E; [|done]. apply (Hm _ _ E).
Qed.

(** The accounts a transaction writes together lose what it pays. *)
Lemma accounts_supply σ tx p s r :
  state_ok σ → tx_ok tx → decode_transfer_payload tx = Ok p → accepts σ tx p = true →
  accounts_after σ tx p = (s, r) →
  supply (from_option (λ r, put_acct r (put_acct s σ)) (put_acct s σ) r) =
  supply σ - (if is_utxo_tx tx then 0 else tx.(fee)).
Proof.
  intros Hσ Htx Hd Hacc Haft. destruct (accounts_after_ok σ tx p s r Hσ Htx Hd Hacc Haft) as [(Hsa & _) Hr].
  assert (Hmix : is_utxo_tx tx = true → p = None).
  { intros Hu. unfold accepts in Hacc. cbv zeta in Hacc. repeat (apply andb_true_iff in Hacc as [Hacc ?]).
    rewrite Hu in *. destruct p; [|done]. done. }
  unfold accounts_after, sender_after in Haft. destruct p as [q|].
  - destruct (is_utxo_tx tx); [by discriminate Hmix|]. destruct (N.eqb_spec q.(recipient) tx.(sender)) as [He|He];
      injection Haft as <- <-; cbn [from_option]; rewrite put_acct_supply.
    + cbn in Hsa |- *. rewrite Hsa. lia.
    + destruct Hr as (q' & [= <-] & _ & (Hra & _)). rewrite put_acct_supply, acct_put. cbn in Hsa, Hra. cbn [credit set_balance set_nonce address balance].
      rewrite Hra, Hsa, decide_False by congruence. unfold moved. cbn. lia.
  - injection Haft as <- <-. cbn [from_option]. rewrite put_acct_supply. cbn in Hsa |- *. rewrite Hsa.
    destruct (is_utxo_tx tx); lia.
Qed.

(** A transaction never creates value: the fee leaves the supply, exactly
    for an account transaction, at least for one with inputs and outputs. *)
Lemma tx_exec_supply tx σ σ' :
  state_ok σ → tx_ok tx → tx_exec tx σ = Some σ' →
  supply σ' + tx.(fee) ≤ supply σ ∧ (is_utxo_tx tx = false → supply σ' + tx.(fee) = supply σ).
Proof.
  intros Hσ Htx. unfold tx_exec. destruct (decode_transfer_payload tx) as [p|] eqn:Hd; [|done].
  destruct (accepts σ tx p) eqn:Hacc; [|done]. intros [= <-].
  unfold tx_effect. destruct (accounts_after σ tx p) as [s r] eqn:Haft.
  pose proof (accounts_supply σ tx p s r Hσ Htx Hd Hacc Haft) as Hs.
  set (σ1 := from_option _ _ r) in *. assert (Hu : σ1.(utxs) = σ.(utxs)) by (subst σ1; by destruct r).
  unfold supply in *. cbn [accts utxs]. rewrite Hu in *.
  unfold accepts in Hacc. cbv zeta in Hacc. repeat (apply andb_true_iff in Hacc as [Hacc ?]). clean_ints.
  destruct (is_utxo_tx tx) eqn:Hux; clean_ints.
  - pose proof (add_outputs_sum (hash tx) 0 tx.(outputs) (remove_inputs tx.(inputs) σ.(utxs)) (ok_outputs tx Htx)
      (remove_inputs_Forall (λ u, is_u128 u.(amount)) _ _ (ok_utxs σ Hσ))) as Ha.
    rewrite remove_inputs_sum in Ha by done. split; [lia|done].
  - apply not_utxo_inputs in Hux as [-> ->]. cbn. lia.
Qed.

(** ** Nonces *)

Lemma tx_exec_nonce tx σ σ' a :
  state_ok σ → tx_ok tx → tx_exec tx σ = Some σ' →
  (acct σ tx.(sender)).(nonce) = tx.(tx_nonce) ∧
  (acct σ' a).(nonce) = if decide (a = tx.(sender)) then tx.(tx_nonce) + 1 else (acct σ a).(nonce).
Proof.
  intros Hσ Htx. unfold tx_exec. destruct (decode_transfer_payload tx) as [p|] eqn:Hd; [|done].
  destruct (accepts σ tx p) eqn:Hacc; [|done]. intros [= <-].
  unfold tx_effect. destruct (accounts_after σ tx p) as [s r] eqn:Haft.
  destruct (accounts_after_ok σ tx p s r Hσ Htx Hd Hacc Haft) as [(Hsa & _) Hr].
  unfold accepts in Hacc. cbv zeta in Hacc. repeat (apply andb_true_iff in Hacc as [Hacc ?]). clean_ints. split; [done|].
  assert (Hn : s.(nonce) = tx.(tx_nonce) + 1).
  { unfold accounts_after, sender_after in Haft. destruct p; [destruct (_ =? _)%N|]; injection Haft as <- <-; cbn; lia. }
  change (acct (mkLState ?m _) a) with (acct (mkLState m σ.(utxs)) a).
  destruct r as [r|]; cbn [from_option].
  - destruct Hr as (q & -> & Hne & Hra & _). unfold accounts_after in Haft. destruct (_ =? _)%N; [done|]. injection Haft as <- <-.
    change (mkLState (accts ?x) σ.(utxs)) with x. rewrite !acct_put. cbn in Hra. cbn [credit set_balance address] in *.
    rewrite Hra, Hsa. repeat case_decide; subst; done.
  - change (mkLState (accts ?x) σ.(utxs)) with x. rewrite acct_put, Hsa. repeat case_decide; subst; try done.
Qed.
End spec.
