(* ===== verification/Toy.v ===== *)
(** * Concrete instances

    Small executable instances of the classes that stand for external code
    (hash, encodings, signatures, iteration order), used by the concrete runs
    that show the hypotheses of the theorems can hold. *)

From S2P Require Import Prelude.
From S2P Require Import Transaction.

Definition toy_fold (bs : list Z) : Z := foldl (λ acc b, Z.land (acc * 31 + b + 7) 65535) 1 bs.

Lemma toy_fold_range bs : 0 ≤ toy_fold bs < 65536.
Proof.
  assert (Hgen : ∀ acc, 0 ≤ acc < 65536 → 0 ≤ foldl (λ acc b, Z.land (acc * 31 + b + 7) 65535) acc bs < 65536).
  { induction bs as [|b bs IH]; intros acc Hacc; [done|]. cbn [foldl]. apply IH.
    change 65535 with (Z.ones 16). rewrite Z.land_ones by lia. apply Z.mod_pos_bound. lia. }
  apply Hgen. lia.
Qed.

(** The value is at both ends, so that addresses differ as well. *)
#[global] Program Instance toy_sha : Digest := { sha256_digest bs := let x := Z.to_N (toy_fold bs) in (x * 2 ^ 240 + x)%N }.
Next Obligation.
  intros bs. cbv beta zeta. pose proof (toy_fold_range bs). lia.
Qed.

#[global] Instance Account_eq_dec : EqDecision Account.
Proof. solve_decision. Defined.
#[global] Instance Account_countable : Countable Account.
Proof.
  apply (inj_countable' (λ a, (a.(address), a.(balance), a.(nonce), a.(code_hash), a.(storage_root)))
    (λ '(a, b, n, c, r), mkAccount a b n c r)). by intros [].
Defined.
#[global] Instance Utxo_eq_dec : EqDecision Utxo.
Proof. solve_decision. Defined.
#[global] Instance Utxo_countable : Countable Utxo.
Proof. apply (inj_countable' (λ u, (u.(amount), u.(owner), u.(script_hash))) (λ '(a, o, s), mkUtxo a o s)). by intros []. Defined.
#[global] Instance TransferPayload_eq_dec : EqDecision TransferPayload.
Proof. solve_decision. Defined.
#[global] Instance TransferPayload_countable : Countable TransferPayload.
Proof.
  apply (inj_countable' (λ p, (p.(recipient), p.(transfer_amount), p.(memo))) (λ '(r, a, m), mkTransfer r a m)). by intros [].
Defined.

(** A value is encoded as the single number of its [Countable] code. *)
Definition toy_ser {A} `{Countable A} (a : A) : list Z := [Zpos (encode a)].
Definition toy_de {A} `{Countable A} (bs : list Z) : result error A :=
  match bs with
  | [Zpos p] => match decode p with Some a => Ok a | None => Err (Msg "decode") end
  | _ => Err (Msg "decode")
  end.

Lemma toy_de_ser {A} `{Countable A} (a : A) : toy_de (toy_ser a) = Ok a.
Proof. unfold toy_de, toy_ser. by rewrite decode_encode. Qed.

Definition toy_de_transfer (bs : list Z) : result error TransferPayload :=
  p ← toy_de bs;
  bail_if (negb ((p.(recipient) <? 2 ^ 160)%N && (0 <=? p.(transfer_amount)) && (p.(transfer_amount) <=? U128_MAX))) (Msg "range");;
  mret p.

#[global] Program Instance toy_codec : Codec := {
  ser_tx tx := [tx.(tx_nonce); tx.(chain_id); Z.of_N tx.(sender)] ++ tx.(sender_pubkey) ++
    toy_ser tx.(inputs) ++ (out_amount <$> tx.(outputs)) ++ tx.(data) ++ [tx.(gas_limit); tx.(fee)] ++ tx.(signature);
  ser_account := toy_ser; de_account := toy_de;
  ser_utxo_id := toy_ser;
  ser_utxo := toy_ser; de_utxo := toy_de;
  de_transfer := toy_de_transfer
}.
Next Obligation. intros. apply toy_de_ser. Qed.
Next Obligation. intros. apply toy_de_ser. Qed.
Next Obligation. intros u u' [= E]. by apply (inj encode). Qed.
Next Obligation.
  intros bs p Hp. unfold toy_de_transfer in Hp. res_inv. split_and!; [by apply N.ltb_lt|done..].
Qed.

(** A signature of [m] by the key [pk] starts with the sum of both. *)
#[global] Instance toy_dalek : Dalek := {
  VerifyingKey := list Z;
  vk_from_bytes pk := Some pk;
  dalek_verify pk m s := default 0 (head s) =? toy_fold (pk ++ m)
}.

#[global] Program Instance toy_signer : DalekSigner := {
  signing_public sk := (Z.to_N (toy_fold (as_bytes 32 sk)));
  dalek_sign sk m := toy_fold (as_bytes 32 (Z.to_N (toy_fold (as_bytes 32 sk))) ++ m) :: replicate 63 0
}.
Next Obligation. intros sk. cbn beta. pose proof (toy_fold_range (as_bytes 32 sk)). lia. Qed.
Next Obligation. done. Qed.
Next Obligation. intros sk m. eexists. split; [done|]. cbn. apply Z.eqb_refl. Qed.

#[global] Program Instance toy_order : HashOrder := { hash_iter K V _ _ m := map_to_list m }.
Next Obligation. done. Qed.

(** Sign with the key [pk]. *)
Definition toy_sign (pk : list Z) (tx : Transaction) : Transaction :=
  mkTx tx.(tx_nonce) tx.(chain_id) tx.(sender) tx.(sender_pubkey) tx.(inputs) tx.(outputs) tx.(tx_reads)
    tx.(tx_writes) tx.(program_id) tx.(data) tx.(gas_limit) tx.(fee) (toy_fold (pk ++ as_bytes 32 (hash tx)) :: replicate 63 0).
