(* ===== verification/LedgerBlocks.v ===== *)
(** * Blocks on the ledger

    Whole blocks: executed directly, or speculatively on the overlay and then
    committed. Both implement the same specification [block_exec]; a restart
    rebuilds the tree from the storage. *)

From S2P Require Import Prelude.
From S2P Require Import Merkle.
From S2P Require Import Transaction.
From S2P Require Import Storage.
From S2P Require Import Ledger.
From S2P Require Import LedgerSpec.

Section blocks.
Context `{Digest, Codec, Dalek, RocksDb, HashOrder}.
Import Ledger.

#[local] Opaque Merkle.new Merkle.set_leaves.

Definition lroot (σ : LState) : H256 := (account_tree σ).(Merkle.root).
#[local] Arguments lroot : simpl never.

(** What a block does, with the verdict and the root after each transaction. *)
Definition tx_step (cid : option Z) (tx : Transaction) (σ : LState) : LState * bool :=
  if from_option (λ id, negb (tx.(chain_id) =? id)) false cid then (σ, false) else
  match tx_exec tx σ with Some σ' => (σ', true) | None => (σ, false) end.

Fixpoint block_exec (cid : option Z) (txs : list Transaction) (σ : LState) : LState * list (H256 * bool * H256) :=
  match txs with
  | [] => (σ, [])
  | tx :: txs =>
      let '(σ1, ok) := tx_step cid tx σ in
      let '(σ2, rs) := block_exec cid txs σ1 in
      (σ2, (hash tx, ok, lroot σ1) :: rs)
  end.

Definition succeeded (r : TransactionReceipt) : bool :=
  match r.(status) with Success => true | Failed _ => false end.
(** A receipt without the reason of a failure. *)
Definition summary (r : TransactionReceipt) : H256 * bool * H256 := (r.(r_tx_hash), succeeded r, r.(r_state_root)).

(** ** The direct path *)

Lemma apply_all_refines txs l σ :
  ledger_inv l σ → Forall tx_ok txs →
  ∃ l' rs, apply_all txs l = (l', Ok rs) ∧ summary <$> rs = (block_exec None txs σ).2 ∧
           ledger_inv l' (block_exec None txs σ).1.
Proof.
  intros Hl Hall. revert l σ Hl. induction Hall as [|tx txs Htx _ IH]; intros l σ Hl; [by exists l, []|].
  cbn [apply_all block_exec]. unfold tx_step. cbn [from_option].
  pose proof (apply_validated_refines tx l σ Hl Htx) as Ht. destruct (tx_exec tx σ) as [σ1|] eqn:Hx.
  - destruct Ht as (l1 & Ht & Hl1). destruct (IH l1 σ1 Hl1) as (l2 & rs & Hrs & Hsum & Hl2).
    destruct (block_exec None txs σ1) as [σ2 bs]. unfold_M. rewrite Ht, Hrs. eexists _, _. split; [done|].
    split; [|done]. cbn in Hsum |- *. rewrite Hsum. unfold summary, lroot, state_root. cbn. by rewrite (inv_tree _ _ Hl1).
  - destruct Ht as (e & Ht). destruct (IH l σ Hl) as (l2 & rs & Hrs & Hsum & Hl2).
    destruct (block_exec None txs σ) as [σ2 bs]. unfold_M. rewrite Ht, Hrs. eexists _, _. split; [done|].
    split; [|done]. cbn in Hsum |- *. rewrite Hsum. unfold summary, lroot, state_root. cbn. by rewrite (inv_tree _ _ Hl).
Qed.

(** A block is executed when every transaction is signed by its sender. *)
Definition signed (tx : Transaction) : bool :=
  (key_address tx.(sender_pubkey) =? tx.(sender))%N && Ed25519.verify_tuple (ed25519_tuple tx).

Lemma existsb_negb_replicate {A} (txs : list A) n : existsb negb (zip_with (λ _ v, v) txs (replicate n true)) = false.
Proof. revert n. induction txs as [|tx txs IH]; intros [|n]; cbn; auto. Qed.

Lemma signed_checks txs :
  Forall (λ tx, signed tx = true) txs → check_senders txs = Ok tt ∧ check_signatures txs = Ok tt.
Proof.
  intros Hs. assert (H1s : existsb (λ tx, negb (key_address tx.(sender_pubkey) =? tx.(sender))%N) txs = false).
  { induction Hs as [|tx txs Hx _ IH]; [done|]. cbn. apply andb_true_iff in Hx as [-> _]. done. }
  split; [unfold check_senders; by rewrite H1s|]. unfold check_signatures.
  rewrite Ed25519.verify_batch_complete_ed; [cbn; by rewrite existsb_negb_replicate|].
  apply Forall_fmap. eapply Forall_impl; [exact Hs|]. cbn. intros tx [_ Hv]%andb_true_iff. done.
Qed.

Lemma checks_signed txs : txs ≠ [] → check_senders txs = Ok tt → check_signatures txs = Ok tt →
  Forall (λ tx, signed tx = true) txs.
Proof.
  intros _ Hs%res_bail_last Hg. unfold check_signatures in Hg. apply res_bind_Ok in Hg as (bs & Hb & Hg%res_bail_last).
  unfold map_err in Hb. case_match eqn:Hv; [|done]. injection Hb as ->. apply Ed25519.verify_batch_spec in Hv. subst bs.
  induction txs as [|tx txs IH]; [constructor|]. cbn in Hs, Hg. apply orb_false_iff in Hs as [Hs1 Hs2], Hg as [Hg1 Hg2].
  constructor; [|by apply IH]. unfold signed. apply negb_false_iff in Hs1, Hg1. by rewrite Hs1, Hg1.
Qed.

(** ** The overlay *)

(** What a read through the overlay returns. *)
Definition view (l : Ledger) (o : PendingOverlay) (cf : string) (k : bytes) : option bytes :=
  match overlay_get o cf k with Some v => v | None => db_get l.(storage) cf k end.

Lemma view_put l o cf k v cf' k' :
  view l (overlay_put cf k v o) cf' k' = after [Put cf k v] (view l o) cf' k'.
Proof.
  unfold view, overlay_get, after. cbn. case_bool_decide as E.
  - apply elem_of_difference in E as [E Hne]. rewrite (bool_decide_true _ E), bool_decide_false; [done|].
    intros [-> ->]. set_solver.
  - destruct (decide ((cf, k) = (cf', k'))) as [[= <- <-]|Hne].
    + rewrite lookup_insert_eq, bool_decide_true by done. done.
    + rewrite lookup_insert_ne by done. rewrite (bool_decide_false (_ ∈ o.(deletes))) by set_solver.
      rewrite bool_decide_false; [done|]. intros [-> ->]. done.
Qed.

Lemma view_delete l o cf k cf' k' :
  view l (overlay_delete cf k o) cf' k' = after [Delete cf k] (view l o) cf' k'.
Proof.
  unfold view, overlay_get, after. cbn. destruct (decide ((cf, k) = (cf', k'))) as [[= <- <-]|Hne].
  - rewrite !bool_decide_true by set_solver. done.
  - rewrite lookup_delete_ne by done. rewrite (bool_decide_false (cf = cf' ∧ k = k')) by (intros [-> ->]; done).
    destruct (bool_decide ((cf', k') ∈ o.(deletes))) eqn:E; clean_ints.
    + rewrite bool_decide_true by set_solver. done.
    + rewrite bool_decide_false by set_solver. done.
Qed.

Record overlay_wf (o : PendingOverlay) : Prop := {
  wf_disjoint : ∀ kk, kk ∈ o.(deletes) → o.(writes) !! kk = None;
  wf_deletes : ∀ kk, kk ∈ o.(deletes) → kk.1 = CF_UTXOS;
  wf_writes : ∀ kk v, o.(writes) !! kk = Some v → kk.1 = CF_ACCOUNTS ∨ kk.1 = CF_UTXOS;
  wf_changed : ∀ a, a ∈ o.(changed_accounts) → (a < 2 ^ 160)%N ∧ is_Some (o.(writes) !! (CF_ACCOUNTS, as_bytes 20 a))
}.

Lemma overlay_new_wf : overlay_wf overlay_new.
Proof.
  constructor; cbn; [set_solver|set_solver| |].
  - intros kk v. by rewrite lookup_empty.
  - intros a Ha. by apply elem_of_nil in Ha.
Qed.

(** The overlay in front of the ledger stands for [σ]. *)
Definition tracks (l : Ledger) (o : PendingOverlay) (σ : LState) : Prop :=
  represents (view l o) σ ∧ overlay_wf o.

Lemma tracks_put_account l o σ a :
  (a.(address) < 2 ^ 160)%N → tracks l o σ →
  tracks l (push_changed a.(address) (overlay_put CF_ACCOUNTS (as_bytes 20 a.(address)) (ser_account a) o)) (put_acct a σ).
Proof.
  intros Ha [HR Hw]. split.
  - eapply represents_ext; [| |by apply represents_put_account]; intros k; symmetry; apply view_put.
  - destruct Hw as [W1 W2 W3 W4]. constructor; cbn.
    + intros kk [Hd Hne]%elem_of_difference. rewrite lookup_insert_ne by set_solver. auto.
    + intros kk [Hd _]%elem_of_difference. auto.
    + intros kk v [[<- _]|[_ Hv]]%lookup_insert_Some; [by left|eauto].
    + intros b [Hb| ->%list_elem_of_singleton]%elem_of_app; [|split; [done|]; rewrite lookup_insert_eq; eauto].
      destruct (W4 b Hb) as [Hr Hs]. split; [done|]. destruct (decide (as_bytes 20 a.(address) = as_bytes 20 b)) as [E|E].
      * rewrite E, lookup_insert_eq. eauto.
      * rewrite lookup_insert_ne by congruence. done.
Qed.

Lemma tracks_delete_utxo l o σ i :
  tracks l o σ → tracks l (overlay_delete CF_UTXOS (ser_utxo_id i) o) (mkLState σ.(accts) (delete i σ.(utxs))).
Proof.
  intros [HR Hw]. split.
  - eapply represents_ext; [| |by apply represents_delete_utxo]; intros k; symmetry; apply view_delete.
  - destruct Hw as [W1 W2 W3 W4]. constructor; cbn.
    + intros kk [Hd| ->%elem_of_singleton]%elem_of_union; [|by rewrite lookup_delete_eq].
      destruct (decide (kk = (CF_UTXOS, ser_utxo_id i))) as [->|]; [by rewrite lookup_delete_eq|].
      rewrite lookup_delete_ne by done. auto.
    + intros kk [Hd| ->%elem_of_singleton]%elem_of_union; [auto|done].
    + intros kk v [_ Hv]%lookup_delete_Some. eauto.
    + intros b Hb. destruct (W4 b Hb) as [? ?]. split; [done|]. by rewrite lookup_delete_ne by done.
Qed.

Lemma tracks_put_utxo l o σ i x :
  tracks l o σ →
  tracks l (overlay_put CF_UTXOS (ser_utxo_id i) (ser_utxo x) o) (mkLState σ.(accts) (<[i := x]> σ.(utxs))).
Proof.
  intros [HR Hw]. split.
  - eapply represents_ext; [| |by apply represents_put_utxo]; intros k; symmetry; apply view_put.
  - destruct Hw as [W1 W2 W3 W4]. constructor; cbn.
    + intros kk [Hd Hne]%elem_of_difference. rewrite lookup_insert_ne by set_solver. auto.
    + intros kk [Hd _]%elem_of_difference. auto.
    + intros kk v [[<- _]|[_ Hv]]%lookup_insert_Some; [by right|eauto].
    + intros b Hb. destruct (W4 b Hb) as [? ?]. split; [done|]. by rewrite lookup_insert_ne by done.
Qed.

Lemma tracks_remove_inputs l o σ ins :
  tracks l o σ →
  tracks l (foldl (λ o i, overlay_delete CF_UTXOS (ser_utxo_id i) o) o ins)
    (mkLState σ.(accts) (remove_inputs ins σ.(utxs))) ∧
  changed_accounts (foldl (λ o i, overlay_delete CF_UTXOS (ser_utxo_id i) o) o ins) = o.(changed_accounts).
Proof.
  revert o σ. induction ins as [|i ins IH]; intros o σ HT; [by destruct σ|].
  destruct (IH _ _ (tracks_delete_utxo l o σ i HT)) as [HT' Hc]. split; [exact HT'|]. cbn [foldl]. by rewrite Hc.
Qed.

Lemma put_outputs_run l h idx outs o t σ :
  tracks l o σ → 0 ≤ idx → idx + Z.of_nat (length outs) ≤ 2 ^ 32 →
  ∃ o', put_outputs h idx outs (o, t) = ((o', t), Ok tt) ∧
        tracks l o' (mkLState σ.(accts) (add_outputs h idx outs σ.(utxs))) ∧ o'.(changed_accounts) = o.(changed_accounts).
Proof.
  revert idx o σ. induction outs as [|x outs IH]; intros idx o σ HT Hi Hl.
  - exists o. by destruct σ.
  - cbn [length] in Hl. destruct (IH (idx + 1) _ _ (tracks_put_utxo l o σ (mkUtxoId h idx) (new_utxo x) HT)) as (o' & Hp & HT' & Hc);
      [lia..|]. exists o'. split; [|by split]. cbn [put_outputs]. unfold_M.
    rewrite (proj2 (Z.ltb_ge _ _)) by ulia. cbn [fst snd]. exact Hp.
Qed.

(** Reads through the overlay. *)
Lemma overlay_account_rep l o σ a :
  represents (view l o) σ → (a < 2 ^ 160)%N → get_account_from_overlay l o a = Ok (acct σ a).
Proof.
  intros HR Ha. pose proof (rep_accts _ _ HR a Ha) as Hv. unfold view in Hv. unfold get_account_from_overlay, acct.
  destruct (overlay_get o CF_ACCOUNTS (as_bytes 20 a)) as [[bs|]|].
  - destruct (σ.(accts) !! a); [|done]. injection Hv as ->. apply de_ser_account.
  - by destruct (σ.(accts) !! a).
  - unfold get_or_create_account, get_account. rewrite Storage.get_known by auto with aether. rewrite Hv.
    destruct (σ.(accts) !! a); cbn; [by rewrite de_ser_account|done].
Qed.

Lemma overlay_utxo_rep l o σ i u :
  represents (view l o) σ → overlay_utxo l o i = Ok u ↔ σ.(utxs) !! i = Some u.
Proof.
  intros HR. pose proof (rep_utxs _ _ HR i) as Hv. unfold view in Hv. unfold overlay_utxo.
  destruct (overlay_get o CF_UTXOS (ser_utxo_id i)) as [[bs|]|].
  - destruct (σ.(utxs) !! i); [|done]. injection Hv as ->. rewrite de_ser_utxo. split; by intros [= <-].
  - by destruct (σ.(utxs) !! i).
  - unfold stored_utxo, get_utxo. rewrite Storage.get_known by auto with aether. rewrite Hv.
    destruct (σ.(utxs) !! i); cbn; [rewrite de_ser_utxo; cbn|]; unfold_M; split; by intros [= <-].
Qed.

(** ** The speculative path *)

Record spec_inv (l : Ledger) (σ0 : LState) (s : PendingOverlay * Merkle.SparseMerkleTree) (σ : LState) : Prop := {
  si_state : state_ok σ;
  si_tracks : tracks l s.1 σ;
  si_tree : s.2 = account_tree σ;
  si_same : ∀ a, a ∉ s.1.(changed_accounts) → σ.(accts) !! a = σ0.(accts) !! a
}.

(** The writes of an accepted transaction. *)
Lemma overlay_writes l σ0 s σ tx p sa r :
  spec_inv l σ0 s σ → tx_ok tx → decode_transfer_payload tx = Ok p → accepts σ tx p = true →
  accounts_after σ tx p = (sa, r) →
  ∃ s', (write_account tx.(sender) sa;;
         match r with Some r => write_account r.(address) r | None => mret tt end;;
         modify (λ s, (foldl (λ o i, overlay_delete CF_UTXOS (ser_utxo_id i) o) s.1 tx.(inputs), s.2));;
         put_outputs (hash tx) 0 tx.(outputs)) s = (s', Ok tt) ∧
        tracks l s'.1 (tx_effect σ tx p) ∧ s'.2 = account_tree (tx_effect σ tx p) ∧
        (∀ a, a ∉ s'.1.(changed_accounts) → (tx_effect σ tx p).(accts) !! a = σ0.(accts) !! a).
Proof.
  intros [Hσ HT Htr Hsame] Htx Hd Hacc Haft. destruct s as [o t]. cbn in HT, Htr, Hsame.
  destruct (accounts_after_ok σ tx p sa r Hσ Htx Hd Hacc Haft) as [(Hsa & Hsr & _) Hr].
  unfold tx_effect. rewrite Haft. set (σ1 := from_option _ _ r).
  set (o1 := push_changed tx.(sender) (overlay_put CF_ACCOUNTS (as_bytes 20 tx.(sender)) (ser_account sa) o)).
  set (o2 := from_option (λ r, push_changed r.(address) (overlay_put CF_ACCOUNTS (as_bytes 20 r.(address)) (ser_account r) o1)) o1 r).
  set (t2 := from_option (λ r, update_leaf r (update_leaf sa t)) (update_leaf sa t) r).
  assert (HT2 : tracks l o2 σ1 ∧ t2 = account_tree σ1 ∧ ∀ a, a ∉ o2.(changed_accounts) → σ1.(accts) !! a = σ0.(accts) !! a).
  { assert (HT1 : tracks l o1 (put_acct sa σ)).
    { subst o1. rewrite <- Hsa. apply tracks_put_account; [by rewrite Hsa|done]. }
    assert (Hs1 : ∀ a, a ∉ o1.(changed_accounts) → (put_acct sa σ).(accts) !! a = σ0.(accts) !! a).
    { intros a [Ha Hne%not_elem_of_cons]%not_elem_of_app. cbn. rewrite lookup_insert_ne by (rewrite Hsa; naive_solver). auto. }
    subst σ1 o2 t2. destruct r as [r|]; cbn [from_option]; rewrite Htr, update_leaf_tree; [|split; [exact HT1|split; [reflexivity|exact Hs1]]].
    destruct Hr as (q & _ & _ & Hra & Hrr & _). rewrite update_leaf_tree. split; [|split; [reflexivity|]].
    - apply tracks_put_account; [by rewrite Hra|done].
    - intros a [Ha Hne%not_elem_of_cons]%not_elem_of_app. cbn. rewrite lookup_insert_ne by naive_solver. by apply Hs1. }
  destruct HT2 as (HT2 & Ht2 & Hs2). destruct (tracks_remove_inputs l o2 σ1 tx.(inputs) HT2) as [HT3 Hc3].
  destruct (put_outputs_run l (hash tx) 0 tx.(outputs) _ t2 _ HT3) as (o' & Hput & HT' & Hc'); [done|pose proof (ok_fits tx Htx); lia|].
  exists (o', t2). split; [|split; [done|split; [done|]]].
  - unfold write_account. unfold_M. subst o2 t2. destruct r as [r|]; cbn [from_option fst snd] in *; exact Hput.
  - cbn [fst]. rewrite Hc', Hc3. exact Hs2.
Qed.

Lemma apply_overlay_refines l σ0 s σ tx :
  spec_inv l σ0 s σ → tx_ok tx →
  match tx_exec tx σ with
  | Some σ' => ∃ s', apply_tx_to_overlay l tx s = (s', Ok (receipt (hash tx) Success s'.2.(Merkle.root))) ∧ spec_inv l σ0 s' σ'
  | None => ∃ e, apply_tx_to_overlay l tx s = (s, Err e)
  end.
Proof.
  intros Hs Htx. pose proof Hs as [Hσ [HR Hw] Htr Hsame].
  assert (Hvc : ∀ res, validate_overlay l tx s.1 = Ok res ↔ _) by (intros res; apply validate_overlay_checked).
  assert (Hcs := λ res, checked_spec σ _ _ Hσ (λ a, overlay_account_rep l s.1 σ a HR) (λ i u, overlay_utxo_rep l s.1 σ i u HR) tx res Htx).
  destruct (tx_exec tx σ) as [σ'|] eqn:Hx.
  - pose proof (tx_exec_ok tx σ σ' Hσ Htx Hx) as Hσ'. unfold tx_exec in Hx.
    destruct (decode_transfer_payload tx) as [p|] eqn:Hd; [|done]. destruct (accepts σ tx p) eqn:Hacc; [|done].
    injection Hx as <-. destruct (accounts_after σ tx p) as [sa r] eqn:Haft.
    assert (Hv : validate_overlay l tx s.1 = Ok (sa, r)) by (apply Hvc, Hcs; exists p; by rewrite Haft).
    destruct (overlay_writes l σ0 s σ tx p sa r Hs Htx Hd Hacc Haft) as (s' & Hrun & HT' & Ht' & Hsame').
    exists s'. split; [|by constructor]. unfold apply_tx_to_overlay. unfold_M. rewrite Hv.
    destruct (write_account tx.(sender) sa s) as [s1 [[]|]]; [|done].
    destruct (match r with Some r => write_account r.(address) r | None => λ s, (s, Ok tt) end s1) as [s2 [[]|]]; [|done].
    destruct (put_outputs _ _ _ _) as [s3 [[]|]]; [|done]. by injection Hrun as ->.
  - destruct (validate_overlay l tx s.1) as [[sa r]|e] eqn:Hv.
    + destruct (proj1 (Hcs _) (proj1 (Hvc _) eq_refl)) as (p & Hd & Hacc & _). unfold tx_exec in Hx. by rewrite Hd, Hacc in Hx.
    + exists e. unfold apply_tx_to_overlay. unfold_M. by rewrite Hv.
Qed.

Lemma speculate_refines cid txs l σ0 s σ :
  spec_inv l σ0 s σ → Forall tx_ok txs →
  ∃ s' rs, speculate_all l cid txs s = (s', Ok rs) ∧ summary <$> rs = (block_exec cid txs σ).2 ∧
           spec_inv l σ0 s' (block_exec cid txs σ).1.
Proof.
  intros Hs Hall. revert s σ Hs. induction Hall as [|tx txs Htx _ IH]; intros s σ Hs; [by exists s, []|].
  cbn [speculate_all block_exec]. unfold tx_step.
  change (match cid with Some id => negb (tx.(chain_id) =? id) | None => false end)
    with (from_option (λ id, negb (tx.(chain_id) =? id)) false cid).
  assert (Hfail : ∀ e, summary (failed tx e s.2.(Merkle.root)) = (hash tx, false, lroot σ))
    by (intros e; unfold summary, failed, lroot; cbn; by rewrite (si_tree _ _ _ _ Hs)).
  destruct (IH s σ Hs) as (s2 & rs & Hrs & Hsum & Hs2). destruct (from_option _ _ cid).
  { destruct (block_exec cid txs σ) as [σ2 bs]. unfold_M. rewrite Hrs. eexists _, _. split; [done|].
    cbn in Hsum |- *. split; [|done]. by rewrite Hsum, Hfail. }
  pose proof (apply_overlay_refines l σ0 s σ tx Hs Htx) as Ht. destruct (tx_exec tx σ) as [σ1|] eqn:Hx.
  - destruct Ht as (s1 & Ht & Hs1). destruct (IH s1 σ1 Hs1) as (s3 & rs' & Hrs' & Hsum' & Hs3).
    destruct (block_exec cid txs σ1) as [σ2 bs]. unfold_M. rewrite Ht, Hrs'. eexists _, _. split; [done|].
    split; [|done]. cbn in Hsum' |- *. rewrite Hsum'. unfold summary, lroot. cbn. by rewrite (si_tree _ _ _ _ Hs1).
  - destruct Ht as (e & Ht). destruct (block_exec cid txs σ) as [σ2 bs]. unfold_M. rewrite Ht, Hrs. eexists _, _. split; [done|].
    cbn in Hsum |- *. split; [|done]. by rewrite Hsum, Hfail.
Qed.

(** ** Commit *)

Definition put_of (kv : string * bytes * bytes) : BatchOperation := Put kv.1.1 kv.1.2 kv.2.
Definition delete_of (k : string * bytes) : BatchOperation := Delete k.1 k.2.

Lemma foldl_puts (m : gmap (string * bytes) bytes) kvs cf k old :
  (∀ kk v, (kk, v) ∈ kvs → m !! kk = Some v) →
  foldl (apply_op cf k) old (put_of <$> kvs) =
  if decide ((cf, k) ∈ kvs.*1) then m !! (cf, k) else old.
Proof.
  intros Hm. induction kvs as [|[[cf' k'] v] kvs IH] using rev_ind; [done|].
  rewrite fmap_app, foldl_app, fmap_app. cbn [foldl fmap list_fmap apply_op put_of fst snd].
  rewrite IH by (intros; apply Hm; set_solver). case_bool_decide as E.
  - destruct E as [-> ->]. rewrite decide_True by set_solver. symmetry. apply Hm. set_solver.
  - assert ((cf', k') ≠ (cf, k)) by (intros [= -> ->]; by apply E). repeat case_decide; set_solver.
Qed.

Lemma foldl_deletes ks cf k old :
  foldl (apply_op cf k) old (delete_of <$> ks) = if decide ((cf, k) ∈ ks) then None else old.
Proof.
  induction ks as [|[cf' k'] ks IH] using rev_ind; [done|].
  rewrite fmap_app, foldl_app. cbn [foldl fmap list_fmap apply_op delete_of fst snd]. rewrite IH. case_bool_decide as E.
  - destruct E as [-> ->]. by rewrite decide_True by set_solver.
  - assert ((cf', k') ≠ (cf, k)) by (intros [= -> ->]; by apply E). repeat case_decide; set_solver.
Qed.

Definition overlay_batch (o : PendingOverlay) : StorageBatch :=
  (put_of <$> hash_iter o.(writes)) ++ (delete_of <$> hash_elements o.(deletes)).

(** Writing the overlay's batch makes the database what the view was. *)
Lemma overlay_batch_view l o cf k :
  overlay_wf o → after (overlay_batch o) (db_get l.(storage)) cf k = view l o cf k.
Proof.
  intros Hw. unfold after, overlay_batch, view, overlay_get. rewrite foldl_app, foldl_deletes.
  rewrite (foldl_puts o.(writes)) by (intros kk v; apply elem_of_hash_iter).
  destruct (decide ((cf, k) ∈ hash_elements o.(deletes))) as [Hd|Hd]; rewrite elem_of_hash_elements in Hd.
  - by rewrite bool_decide_true.
  - rewrite bool_decide_false by done. case_decide as E; [apply list_elem_of_fmap in E as ([kk v] & -> & Hv%elem_of_hash_iter)|].
    + cbn. by rewrite Hv.
    + destruct (o.(writes) !! (cf, k)) as [v|] eqn:Hv; [|done]. destruct E.
      apply list_elem_of_fmap. exists ((cf, k), v). split; [done|]. by apply elem_of_hash_iter.
Qed.

Lemma overlay_batch_known o :
  overlay_wf o →
  Forall (λ op, match op with Put cf _ _ | Delete cf _ => cf ∈ column_families end) (overlay_batch o).
Proof.
  intros [W1 W2 W3 W4]. apply Forall_app. split; apply Forall_fmap, Forall_forall.
  - intros [kk v] Hv%elem_of_hash_iter. cbn. destruct (W3 _ _ Hv) as [-> | ->]; auto with aether.
  - intros kk Hk%elem_of_hash_elements. cbn. rewrite (W2 _ Hk). auto with aether.
Qed.

Lemma foldl_insert_lookup {A} (f : Address → A) (changed : list Address) (m : gmap Address A) i :
  foldl (λ m a, <[a := f a]> m) m changed !! i = if decide (i ∈ changed) then Some (f i) else m !! i.
Proof.
  revert m. induction changed as [|a changed IH]; intros m; [done|]. cbn [foldl]. rewrite IH.
  destruct (decide (a = i)) as [->|Hne].
  - rewrite lookup_insert_eq. repeat case_decide; set_solver.
  - rewrite lookup_insert_ne by done. repeat case_decide; set_solver.
Qed.

Lemma changed_account l o σ a :
  tracks l o σ → a ∈ o.(changed_accounts) →
  ∃ acc, σ.(accts) !! a = Some acc ∧ overlay_get o CF_ACCOUNTS (as_bytes 20 a) = Some (Some (ser_account acc)).
Proof.
  intros [HR Hw] Ha. destruct (wf_changed o Hw a Ha) as [Hr [bs Hbs]].
  pose proof (rep_accts _ _ HR a Hr) as Hv. unfold view, overlay_get in Hv |- *.
  rewrite bool_decide_false in Hv |- * by (intros Hd; by rewrite (wf_disjoint o Hw _ Hd) in Hbs).
  rewrite Hbs in *. cbn in *. destruct (σ.(accts) !! a) as [acc|]; [|done]. injection Hv as ->. eauto.
Qed.

Lemma update_changed_run l0 o σ changed l m :
  tracks l0 o σ → (∀ a, a ∈ changed → a ∈ o.(changed_accounts)) → l.(merkle_tree) = tree_of m →
  update_changed o changed l =
  (set_tree (tree_of (foldl (λ m a, <[a := hash_account (acct σ a)]> m) m changed)) l, Ok tt).
Proof.
  intros HT. revert l m. induction changed as [|a changed IH]; intros l m Hin Ht.
  - cbn [update_changed foldl]. rewrite <- Ht. by destruct l.
  - cbn [update_changed foldl]. destruct (changed_account l0 o σ a HT) as (acc & Hacc & Hget); [apply Hin; left|].
    rewrite Hget. unfold_M. rewrite de_ser_account.
    assert (Ea : acct σ a = acc) by (unfold acct; by rewrite Hacc).
    rewrite (IH _ (<[a := hash_account (acct σ a)]> m)); [done|intros b Hb; apply Hin; by right|].
    cbn [merkle_tree set_tree]. rewrite Ht, Ea. apply tree_of_update.
Qed.

Lemma changed_leaves l o σ0 σ :
  tracks l o σ → (∀ a, a ∉ o.(changed_accounts) → σ.(accts) !! a = σ0.(accts) !! a) →
  foldl (λ m a, <[a := hash_account (acct σ a)]> m) (hash_account <$> σ0.(accts)) o.(changed_accounts) =
  hash_account <$> σ.(accts).
Proof.
  intros HT Hsame. apply map_eq. intros i. rewrite (foldl_insert_lookup (λ a, hash_account (acct σ a))), !lookup_fmap.
  case_decide as Hi.
  - destruct (changed_account l o σ i HT Hi) as (acc & Hacc & _). unfold acct. by rewrite Hacc.
  - by rewrite (Hsame i Hi).
Qed.

Lemma prepare_refines l σ0 s σ :
  ledger_inv l σ0 → spec_inv l σ0 s σ →
  prepare_overlay_batch s.1 l =
  (set_tree (account_tree σ) l, Ok (overlay_batch s.1 ++ [Put CF_METADATA STATE_ROOT (as_bytes 32 (lroot σ))])).
Proof.
  intros Hl [_ HT _ Hsame]. unfold prepare_overlay_batch. unfold_M.
  rewrite (update_changed_run l s.1 σ _ l (hash_account <$> σ0.(accts)) HT); [|done|apply Hl].
  rewrite (changed_leaves l s.1 σ0 σ HT Hsame). reflexivity.
Qed.

Lemma spec_inv_root l σ0 s σ r : spec_inv l σ0 s σ → spec_inv l σ0 (set_root r s.1, s.2) σ.
Proof. intros [Hσ [HR Hw] Ht Hs]. constructor; [done| |done|done]. split; [exact HR|]. by destruct Hw. Qed.

Lemma commit_refines l σ0 s σ :
  ledger_inv l σ0 → spec_inv l σ0 s σ → ∃ l', commit_overlay s.1 l = (l', Ok tt) ∧ ledger_inv l' σ.
Proof.
  intros Hl Hs. pose proof Hs as [Hσ [HR Hw] _ _]. unfold commit_overlay, write_batch. unfold_M.
  rewrite (prepare_refines l σ0 s σ Hl Hs). cbn [storage set_tree].
  rewrite Storage.write_batch_known by (apply Forall_app; split; [by apply overlay_batch_known|by repeat constructor]).
  eexists. split; [reflexivity|]. constructor; cbn [storage merkle_tree]; [done| |done].
  eapply represents_ext; [| |exact (represents_metadata _ _ STATE_ROOT (as_bytes 32 (lroot σ)) HR)];
    intros k; rewrite get_write_after, after_app; unfold after at 1; cbn [foldl]; unfold after at 1;
    f_equal; symmetry; by apply overlay_batch_view.
Qed.

(** ** Start and recovery *)

Lemma address_of_as_bytes a : (a < 2 ^ 160)%N → address_of_bytes (as_bytes 20 a) = a.
Proof.
  intros Ha. unfold address_of_bytes, Storage.from_be_bytes, as_bytes, to_be_bytes. rewrite reverse_involutive, from_to_le_bytes; [lia|].
  change (256 ^ Z.of_nat 20) with (Z.of_N (2 ^ 160)). lia.
Qed.

(** The entries of the accounts family, collected, are the accounts' hashes. *)
Lemma collect_accounts_run σ entries m :
  (∀ k v, (k, v) ∈ entries → ∃ a acc, k = as_bytes 20 a ∧ (a < 2 ^ 160)%N ∧ σ.(accts) !! a = Some acc ∧ v = ser_account acc) →
  ∃ m', collect_accounts entries m = Ok m' ∧
    ∀ a, m' !! a = if decide (a ∈ address_of_bytes <$> entries.*1) then hash_account <$> σ.(accts) !! a else m !! a.
Proof.
  revert m. induction entries as [|[k v] entries IH]; intros m Hin; [by exists m|].
  destruct (Hin k v) as (a & acc & -> & Ha & Hacc & ->); [left|]. cbn [collect_accounts].
  rewrite length_as_bytes. cbn [Nat.eqb]. rewrite de_ser_account. cbn [mbind result_bind].
  destruct (IH (<[address_of_bytes (as_bytes 20 a) := hash_account acc]> m)) as (m' & -> & Hm'); [intros; apply Hin; by right|].
  exists m'. split; [done|]. intros b. rewrite Hm'. cbn [fmap list_fmap fst]. rewrite address_of_as_bytes by done.
  destruct (decide (b = a)) as [->|Hne].
  - rewrite lookup_insert_eq, Hacc. repeat case_decide; set_solver.
  - rewrite lookup_insert_ne by done. repeat case_decide; set_solver.
Qed.

Lemma foldl_update_tree kvs m :
  foldl (λ t kv, Merkle.update kv.1 kv.2 t) (tree_of m) kvs = tree_of (foldl (λ m kv, <[kv.1 := kv.2]> m) m kvs).
Proof. revert m. induction kvs as [|kv kvs IH]; intros m; [done|]. cbn [foldl]. rewrite tree_of_update. apply IH. Qed.

Lemma foldl_hash_iter (m : gmap Address H256) : foldl (λ m kv, <[kv.1 := kv.2]> m) ∅ (hash_iter m) = m.
Proof.
  assert (Hgen : ∀ kvs (acc : gmap Address H256) i, (∀ k v, (k, v) ∈ kvs → m !! k = Some v) →
    foldl (λ m kv, <[kv.1 := kv.2]> m) acc kvs !! i = if decide (i ∈ kvs.*1) then m !! i else acc !! i).
  { induction kvs as [|[k v] kvs IH]; intros acc i Hm; [done|]. cbn [foldl fst snd]. rewrite IH by (intros; apply Hm; by right).
    destruct (decide (k = i)) as [->|Hne].
    - rewrite lookup_insert_eq, (Hm i v) by left. repeat case_decide; set_solver.
    - rewrite lookup_insert_ne by done. repeat case_decide; set_solver. }
  apply map_eq. intros i. rewrite Hgen by (intros k v; apply elem_of_hash_iter). case_decide as Hi; [done|].
  rewrite lookup_empty. destruct (m !! i) as [v|] eqn:Hv; [|done]. destruct Hi. apply list_elem_of_fmap.
  exists (i, v). split; [done|]. by apply elem_of_hash_iter.
Qed.

Lemma stored_entries l σ k v :
  state_ok σ → represents (db_get l.(storage)) σ → (k, v) ∈ db_iterator l.(storage) CF_ACCOUNTS →
  ∃ a acc, k = as_bytes 20 a ∧ (a < 2 ^ 160)%N ∧ σ.(accts) !! a = Some acc ∧ v = ser_account acc.
Proof.
  intros Hσ HR Hv%db_iterator_spec. destruct (rep_keys _ _ HR k v Hv) as (a & Ha & ->).
  rewrite (rep_accts _ _ HR a Ha) in Hv. destruct (σ.(accts) !! a) as [acc|] eqn:Hacc; [|done]. injection Hv as <-. eauto 6.
Qed.

Lemma recompute_run l σ :
  state_ok σ → represents (db_get l.(storage)) σ →
  recompute_state_root l =
  (mkLedger (db_write l.(storage) [Put CF_METADATA STATE_ROOT (as_bytes 32 (lroot σ))]) (account_tree σ), Ok tt).
Proof.
  intros Hσ HR. unfold recompute_state_root, write_batch. unfold_M. rewrite Storage.iterator_known by auto with aether.
  destruct (collect_accounts_run σ (db_iterator l.(storage) CF_ACCOUNTS) ∅ (λ k v, stored_entries l σ k v Hσ HR)) as (m & -> & Hm).
  assert (m = hash_account <$> σ.(accts)) as ->.
  { apply map_eq. intros a. rewrite Hm, lookup_fmap, lookup_empty. case_decide as Ha; [done|].
    destruct (σ.(accts) !! a) as [acc|] eqn:Hacc; [|done]. destruct Ha. apply list_elem_of_fmap. exists (as_bytes 20 a).
    pose proof (proj1 (proj2 (ok_accts σ Hσ a acc Hacc))) as Hr. split; [by rewrite address_of_as_bytes|].
    apply list_elem_of_fmap. exists (as_bytes 20 a, ser_account acc). split; [done|]. apply db_iterator_spec.
    by rewrite (rep_accts _ _ HR a Hr), Hacc. }
  rewrite <- tree_of_empty, foldl_update_tree, foldl_hash_iter. cbn [storage merkle_tree set_tree].
  rewrite Storage.write_batch_known by (by repeat constructor). reflexivity.
Qed.

Lemma new_refines l σ :
  ledger_inv l σ → ∃ l', new l.(storage) = Ok l' ∧ ledger_inv l' σ.
Proof.
  intros [Hσ HR Ht]. unfold new, load_state_root. unfold_M.
  rewrite Storage.get_known, Storage.iterator_known by auto with aether. cbn [storage].
  destruct (bool_decide _ || _) eqn:E.
  - rewrite recompute_run with (σ := σ) by done. eexists. split; [reflexivity|]. constructor; [done| |done]. cbn [storage].
    eapply represents_ext; [| |exact (represents_metadata _ _ STATE_ROOT (as_bytes 32 (lroot σ)) HR)];
      intros k; by rewrite get_write_after.
  - eexists. split; [reflexivity|]. constructor; [done|done|]. cbn [merkle_tree]. clean_ints.
    assert (σ.(accts) = ∅) as E0.
    { apply map_empty. intros a. destruct (σ.(accts) !! a) as [acc|] eqn:Hacc; [|done].
      pose proof (proj1 (proj2 (ok_accts σ Hσ a acc Hacc))) as Hr.
      assert (Hin : (as_bytes 20 a, ser_account acc) ∈ db_iterator l.(storage) CF_ACCOUNTS)
        by (apply db_iterator_spec; by rewrite (rep_accts _ _ HR a Hr), Hacc).
      rewrite H5 in Hin. by apply elem_of_nil in Hin. }
    unfold account_tree. rewrite E0, fmap_empty. symmetry. apply tree_of_empty.
Qed.

(** ** Seeds and credits *)

Lemma root_into_batch_run a batch l σ :
  l.(merkle_tree) = account_tree σ →
  root_into_batch a None batch l =
  (set_tree (account_tree (put_acct a σ)) l, Ok (batch ++ [Put CF_METADATA STATE_ROOT (as_bytes 32 (lroot (put_acct a σ)))])).
Proof.
  intros Hl. unfold root_into_batch, update_state_root_incremental. unfold_M. unfold state_root. cbn [merkle_tree set_tree].
  rewrite Hl, update_leaf_tree. reflexivity.
Qed.

Lemma write_account_refines a l σ :
  ledger_inv l σ → account_ok a.(address) a →
  ∃ l', (batch ← root_into_batch a None [Put CF_ACCOUNTS (as_bytes 20 a.(address)) (ser_account a)]; write_batch batch) l = (l', Ok tt) ∧
        ledger_inv l' (put_acct a σ).
Proof.
  intros Hl Ha. pose proof (root_into_batch_run a [Put CF_ACCOUNTS (as_bytes 20 a.(address)) (ser_account a)] l σ (inv_tree _ _ Hl)) as Hr.
  unfold write_batch. unfold_M. rewrite Hr. cbn [storage set_tree merkle_tree].
  rewrite Storage.write_batch_known by (by repeat constructor). eexists. split; [reflexivity|].
  constructor; cbn [storage merkle_tree]; [by apply put_acct_ok; [apply Hl|]| |done].
  eapply represents_ext; [| |eapply (represents_metadata _ _ STATE_ROOT (as_bytes 32 (lroot (put_acct a σ)))),
    (represents_put_account _ _ a (proj1 (proj2 Ha)) (inv_rep _ _ Hl))]; intros k; by rewrite get_write_after.
Qed.

(** An account is created with a balance, replacing what was there. *)
Lemma seed_refines a b l σ :
  ledger_inv l σ → (a < 2 ^ 160)%N → is_u128 b →
  ∃ l', seed_account a b l = (l', Ok tt) ∧ ledger_inv l' (put_acct (with_balance a b) σ).
Proof.
  intros Hl Ha Hb. apply (write_account_refines (with_balance a b)); [done|].
  split; [done|]. split; [done|]. split; [done|]. cbn. ulia.
Qed.

Lemma credit_refines a v l σ :
  ledger_inv l σ → (a < 2 ^ 160)%N → 0 ≤ v → (acct σ a).(balance) + v ≤ U128_MAX →
  ∃ l', credit_account a v l = (l', Ok tt) ∧ ledger_inv l' (put_acct (credit v (acct σ a)) σ).
Proof.
  intros Hl Ha Hv Hle. pose proof (acct_ok σ a (inv_state _ _ Hl) Ha) as Hok.
  assert (Hcr : account_ok a (credit v (acct σ a))) by (by apply credit_ok).
  destruct (write_account_refines (credit v (acct σ a)) l σ Hl) as (l' & Hrun & Hl');
    [by rewrite (account_ok_addr _ _ Hcr)|].
  exists l'. split; [|done]. rewrite <- Hrun. unfold credit_account, credit_account_to_batch. unfold_M.
  rewrite (get_account_rep l σ a Hl Ha). rewrite (proj2 (checked_add_Some U128_MAX _ _ _)) by (split; [done|exact Hle]). done.
Qed.

(** ** Signatures *)

Lemma verify_signature_signed tx : verify_signature tx = Ok tt ↔ signed tx = true.
Proof.
  unfold verify_signature, signed, Ed25519.verify_tuple, ed25519_tuple. cbn [fst snd]. rewrite andb_true_iff. split.
  - intros Hv. apply res_bail_Ok in Hv as [_ Hv]. apply res_bail_Ok in Hv as [_ Hv]. apply res_bail_Ok in Hv as [Hk Hv].
    clean_ints. unfold map_err in Hv. rewrite Hk, N.eqb_refl. split; [done|]. by destruct (Ed25519.verify _ _ _).
  - intros [Hk Hv]. destruct (Ed25519.verify _ _ _) as [[]|] eqn:E; [|done].
    assert (Hlen : length tx.(signature) = 64%nat).
    { unfold Ed25519.verify in E. res_inv. by apply Nat.eqb_eq. }
    rewrite bool_decide_false by (intros Hn; by rewrite Hn in Hlen). rewrite Hlen, Hk. done.
Qed.

Lemma unsigned_rejected txs :
  forallb signed txs = false → ∃ e, (check_senders txs;; check_signatures txs) = Err e.
Proof.
  intros Hf. destruct txs as [|tx txs]; [done|]. destruct (check_senders (tx :: txs)) as [[]|e] eqn:Hs; [|eexists; reflexivity].
  destruct (check_signatures (tx :: txs)) as [[]|e] eqn:Hg; [|by exists e].
  pose proof (checks_signed (tx :: txs) ltac:(done) Hs Hg) as Hall. exfalso.
  assert (forallb signed (tx :: txs) = true); [|congruence]. apply forallb_forall. intros x Hx.
  rewrite Forall_forall in Hall. by apply Hall, list_elem_of_In.
Qed.

(** ** Theorems *)

(** A transaction on the stored ledger implements the specification: it is
    applied exactly when it is signed by its sender and the specification
    accepts it, with the storage, the tree and the receipt's root following
    the new state; otherwise it returns an error and nothing changes. *)
Theorem transaction_refines tx l σ :
  ledger_inv l σ → tx_ok tx →
  match (if signed tx then tx_exec tx σ else None) with
  | Some σ' => ∃ l', apply_transaction tx l = (l', Ok (receipt (hash tx) Success (state_root l'))) ∧ ledger_inv l' σ'
  | None => ∃ e, apply_transaction tx l = (l, Err e)
  end.
Proof.
  intros Hl Htx. unfold apply_transaction. unfold_M. destruct (signed tx) eqn:Hs.
  - rewrite (proj2 (verify_signature_signed tx) Hs). by apply apply_validated_refines.
  - destruct (verify_signature tx) as [[]|e] eqn:Hv; [|eauto]. apply verify_signature_signed in Hv. congruence.
Qed.

(** C5: Speculation and commit agree with direct execution: on a signed block
    both succeed, with the same verdict and root for every transaction, the
    overlay's root is the root after the commit, and both ledgers hold the
    same accounts, outputs and tree. An unsigned block changes nothing. (The
    state root a storage keeps under its metadata key is not compared.) *)
Theorem speculation_equals_direct txs l σ :
  ledger_inv l σ → Forall tx_ok txs →
  if forallb signed txs then
    ∃ rs o rs' l1 l2 σ', apply_block_speculatively l txs = Ok (rs, o) ∧ commit_overlay o l = (l1, Ok tt) ∧
      apply_block_transactions txs l = (l2, Ok rs') ∧ summary <$> rs = summary <$> rs' ∧
      o.(overlay_root) = state_root l1 ∧ l1.(merkle_tree) = l2.(merkle_tree) ∧ ledger_inv l1 σ' ∧ ledger_inv l2 σ'
  else (∃ e, apply_block_speculatively l txs = Err e) ∧ (∃ e, apply_block_transactions txs l = (l, Err e)).
Proof.
  intros Hl Hall. destruct (speculate_refines None txs l σ (overlay_new, l.(merkle_tree)) σ) as (s & rs & Hrs & Hsum & Hs); [|done|].
  { constructor; [apply Hl| |apply Hl|done]. split; [apply Hl|]. apply overlay_new_wf. }
  destruct (apply_all_refines txs l σ Hl Hall) as (l2 & rs' & Hrs' & Hsum' & Hl2).
  unfold apply_block_speculatively, apply_block_speculatively_with_chain_id, apply_block_transactions.
  destruct (forallb signed txs) eqn:Hsg.
  - destruct (commit_refines l σ _ _ Hl (spec_inv_root _ _ _ _ s.2.(Merkle.root) Hs)) as (l1 & Hc & Hl1).
    assert (Hroot : s.2.(Merkle.root) = state_root l1)
      by (unfold state_root; rewrite (inv_tree _ _ Hl1), (si_tree _ _ _ _ Hs); reflexivity).
    exists rs, (set_root s.2.(Merkle.root) s.1), rs', l1, l2, (block_exec None txs σ).1.
    destruct (signed_checks txs) as [Hc1 Hc2].
    { apply Forall_forall. intros tx Htx. apply (proj1 (forallb_forall _ _) Hsg). by apply list_elem_of_In. }
    case_bool_decide as Hnil.
    + subst txs. injection Hrs as <- <-. injection Hrs' as <- <-. cbn in *. rewrite Hc.
      by split_and!; try done; rewrite ?(inv_tree _ _ Hl1), ?(inv_tree _ _ Hl2).
    + unfold_M. rewrite Hc1, Hc2, Hrs, Hrs'.
      split_and!; try done; [congruence|]. by rewrite (inv_tree _ _ Hl1), (inv_tree _ _ Hl2).
  - destruct (unsigned_rejected txs Hsg) as [e He]. rewrite bool_decide_false by (by intros ->).
    unfold_M. destruct (check_senders txs) as [[]|e'] eqn:Hcs; [|by split; eauto].
    destruct (check_signatures txs) as [[]|e'] eqn:Hcg; [done|]. by split; eauto.
Qed.

(** Fees of the transactions whose receipt is a success. *)
Definition fees_paid (txs : list Transaction) (oks : list bool) : Z :=
  sum_list (zip_with (λ tx (ok : bool), if ok then tx.(fee) else 0) txs oks).

Definition verdicts (rs : list (H256 * bool * H256)) : list bool := (λ r, r.1.2) <$> rs.

Lemma fees_paid_cons tx txs h ok r rs :
  fees_paid (tx :: txs) (verdicts ((h, ok, r) :: rs)) = (if ok : bool then tx.(fee) else 0) + fees_paid txs (verdicts rs).
Proof. done. Qed.

Lemma block_exec_supply cid txs σ :
  state_ok σ → Forall tx_ok txs →
  let '(σ', rs) := block_exec cid txs σ in
  state_ok σ' ∧ supply σ' + fees_paid txs (verdicts rs) ≤ supply σ ∧
  (Forall (λ tx, is_utxo_tx tx = false) txs → supply σ' + fees_paid txs (verdicts rs) = supply σ).
Proof.
  intros Hσ Hall. revert σ Hσ. induction Hall as [|tx txs Htx _ IH]; intros σ Hσ.
  - cbn. unfold fees_paid. cbn. split; [done|]. lia.
  - cbn [block_exec]. unfold tx_step. destruct (from_option _ _ cid).
    { specialize (IH σ Hσ). destruct (block_exec cid txs σ) as [σ2 rs]. destruct IH as (? & Hle & Heq). split; [done|].
      rewrite fees_paid_cons. split; [lia|]. intros [_ Hf]%Forall_cons. specialize (Heq Hf). lia. }
    destruct (tx_exec tx σ) as [σ1|] eqn:Hx.
    + destruct (tx_exec_supply tx σ σ1 Hσ Htx Hx) as [Hs1 Hs2]. specialize (IH σ1 (tx_exec_ok tx σ σ1 Hσ Htx Hx)).
      destruct (block_exec cid txs σ1) as [σ2 rs]. destruct IH as (? & Hle & Heq). split; [done|].
      rewrite fees_paid_cons. split; [lia|]. intros [Hu Hf]%Forall_cons. specialize (Heq Hf). specialize (Hs2 Hu). lia.
    + specialize (IH σ Hσ). destruct (block_exec cid txs σ) as [σ2 rs]. destruct IH as (? & Hle & Heq). split; [done|].
      rewrite fees_paid_cons. split; [lia|]. intros [_ Hf]%Forall_cons. specialize (Heq Hf). lia.
Qed.

Lemma block_all txs l l' rs :
  apply_block_transactions txs l = (l', Ok rs) → apply_all txs l = (l', Ok rs).
Proof.
  unfold apply_block_transactions. case_bool_decide as Hnil; [by subst txs|].
  unfold_M. destruct (check_senders txs); [|done]. by destruct (check_signatures txs).
Qed.

(** C8: A block creates no value: what accounts and outputs hold after it, with
    the fees of its successful transactions, is at most what they held before,
    and exactly that when it has no UTxO transaction. *)
Theorem block_conserves_supply txs l σ l' rs :
  ledger_inv l σ → Forall tx_ok txs → apply_block_transactions txs l = (l', Ok rs) →
  ∃ σ', ledger_inv l' σ' ∧ supply σ' + fees_paid txs (succeeded <$> rs) ≤ supply σ ∧
        (Forall (λ tx, is_utxo_tx tx = false) txs → supply σ' + fees_paid txs (succeeded <$> rs) = supply σ).
Proof.
  intros Hl Hall Hrun. destruct (apply_all_refines txs l σ Hl Hall) as (l2 & rs2 & Hrs & Hsum & Hl2).
  apply block_all in Hrun. rewrite Hrs in Hrun. injection Hrun as <- <-.
  pose proof (block_exec_supply None txs σ (inv_state _ _ Hl) Hall) as Hs.
  destruct (block_exec None txs σ) as [σ' bs]. cbn in Hsum, Hl2. exists σ'. split; [done|].
  assert (verdicts bs = succeeded <$> rs2) as Ev by (rewrite <- Hsum; unfold verdicts; by rewrite <- list_fmap_compose).
  rewrite Ev in Hs. tauto.
Qed.

(** ** Replay *)

Lemma block_exec_nonce cid txs σ a :
  state_ok σ → Forall tx_ok txs →
  state_ok (block_exec cid txs σ).1 ∧ (acct σ a).(nonce) ≤ (acct (block_exec cid txs σ).1 a).(nonce).
Proof.
  intros Hσ Hall. revert σ Hσ. induction Hall as [|tx txs Htx _ IH]; intros σ Hσ; [done|].
  cbn [block_exec]. unfold tx_step. assert (Hstay := IH σ Hσ). destruct (from_option _ _ cid).
  { by destruct (block_exec cid txs σ). }
  destruct (tx_exec tx σ) as [σ1|] eqn:Hx; [|by destruct (block_exec cid txs σ)].
  specialize (IH σ1 (tx_exec_ok tx σ σ1 Hσ Htx Hx)). destruct (tx_exec_nonce tx σ σ1 a Hσ Htx Hx) as [Hn Ha].
  destruct (block_exec cid txs σ1) as [σ2 rs]. cbn in *. split; [tauto|]. case_decide; subst; lia.
Qed.

(** A transaction that was applied is rejected for ever after. *)
Theorem applied_transaction_not_replayed tx txs l σ l1 r l2 rs :
  ledger_inv l σ → tx_ok tx → Forall tx_ok txs →
  apply_transaction tx l = (l1, Ok r) → apply_block_transactions txs l1 = (l2, Ok rs) →
  ∃ e, apply_transaction tx l2 = (l2, Err e).
Proof.
  intros Hl Htx Hall Hrun Hblk. unfold apply_transaction in *. unfold_M. destruct (verify_signature tx) as [[]|]; [|done].
  pose proof (apply_validated_refines tx l σ Hl Htx) as Ht. destruct (tx_exec tx σ) as [σ1|] eqn:Hx;
    [|destruct Ht as [e Ht]; by rewrite Ht in Hrun].
  destruct Ht as (l1' & Ht & Hl1). rewrite Ht in Hrun. injection Hrun as <- _.
  destruct (apply_all_refines txs l1' σ1 Hl1 Hall) as (l3 & rs3 & Hrs & _ & Hl3).
  apply block_all in Hblk. rewrite Hrs in Hblk. injection Hblk as <- <-.
  pose proof (apply_validated_refines tx _ _ Hl3 Htx) as Ht3.
  destruct (tx_exec tx (block_exec None txs σ1).1) as [σ4|] eqn:Hx4; [|done]. exfalso.
  destruct (tx_exec_nonce tx σ σ1 tx.(sender) (inv_state _ _ Hl) Htx Hx) as [_ Hn1]. rewrite decide_True in Hn1 by done.
  destruct (tx_exec_nonce tx _ σ4 tx.(sender) (inv_state _ _ Hl3) Htx Hx4) as [Hn4 _].
  destruct (block_exec_nonce None txs σ1 tx.(sender) (inv_state _ _ Hl1) Hall) as [_ Hmono]. lia.
Qed.

(** ** Restart *)

(** Opening the storage again gives a ledger with the same accounts, outputs
    and state root. *)
Theorem restart_keeps_ledger l σ :
  ledger_inv l σ → ∃ l', new l.(storage) = Ok l' ∧ ledger_inv l' σ ∧ state_root l' = state_root l.
Proof.
  intros Hl. destruct (new_refines l σ Hl) as (l' & Hn & Hl'). exists l'. split; [done|]. split; [done|].
  unfold state_root. by rewrite (inv_tree _ _ Hl), (inv_tree _ _ Hl').
Qed.
End blocks.

From S2P Require Import Toy.

(** ** A concrete ledger

    Two keys; the first account holds 1000. It transfers 100 to the second
    with a fee of 5, then the same transaction is offered again. *)

Module LedgerDemo.
Import Ledger.

Definition key_a : list Z := replicate 32 1.
Definition key_b : list Z := replicate 32 2.
Definition addr_a : Address := key_address key_a.
Definition addr_b : Address := key_address key_b.

Definition state0 : LState := mkLState ∅ ∅.
Definition ledger0 : Ledger := mkLedger (∅ : gmap (string * bytes) bytes) Merkle.new.

Lemma ledger0_inv : ledger_inv ledger0 state0.
Proof.
  constructor; [by constructor| |].
  - constructor; cbn; unfold map_get; intros; rewrite lookup_empty in *; done.
  - unfold account_tree. cbn [state0 accts]. rewrite fmap_empty. symmetry. apply tree_of_empty.
Qed.

Definition ledger1 : Ledger := (seed_account addr_a 1000 ledger0).1.
Definition state1 : LState := put_acct (with_balance addr_a 1000) state0.

Lemma ledger1_inv : ledger_inv ledger1 state1.
Proof.
  destruct (seed_refines addr_a 1000 ledger0 state0 ledger0_inv) as (l & Hrun & Hl); [by vm_compute|split; by vm_compute|].
  unfold ledger1. by rewrite Hrun.
Qed.

Definition transfer : Transaction :=
  toy_sign key_a (mkTx 0 1 addr_a key_a [] [] [] [] (Some TRANSFER_PROGRAM_ID)
    (toy_ser (mkTransfer addr_b 100 None)) 21000 5 []).

Lemma transfer_ok : tx_ok transfer.
Proof. constructor; [by vm_compute|split; by vm_compute|constructor|by vm_compute]. Qed.

Definition state2 : LState := tx_effect state1 transfer (Some (mkTransfer addr_b 100 None)).

Lemma transfer_exec : (if signed transfer then tx_exec transfer state1 else None) = Some state2.
Proof. by vm_compute. Qed.

Lemma transaction_refines_witness :
  (if signed transfer then tx_exec transfer state1 else None) = Some state2 ∧
  ∃ l', apply_transaction transfer ledger1 = (l', Ok (receipt (hash transfer) Success (state_root l'))) ∧
        ledger_inv l' state2.
Proof.
  split; [exact transfer_exec|].
  pose proof (transaction_refines transfer ledger1 state1 ledger1_inv transfer_ok) as Ht.
  rewrite transfer_exec in Ht. exact Ht.
Defined.

Lemma block_ok : Forall tx_ok [transfer; transfer].
Proof. repeat constructor; apply transfer_ok. Qed.

Lemma speculation_equals_direct_witness :
  forallb signed [transfer; transfer] = true ∧
  ∃ rs o rs' l1 l2 σ', apply_block_speculatively ledger1 [transfer; transfer] = Ok (rs, o) ∧
    commit_overlay o ledger1 = (l1, Ok tt) ∧
    apply_block_transactions [transfer; transfer] ledger1 = (l2, Ok rs') ∧ summary <$> rs = summary <$> rs' ∧
    o.(overlay_root) = state_root l1 ∧ l1.(merkle_tree) = l2.(merkle_tree) ∧ ledger_inv l1 σ' ∧ ledger_inv l2 σ'.
Proof.
  assert (Hs : forallb signed [transfer; transfer] = true) by (by vm_compute). split; [exact Hs|].
  pose proof (speculation_equals_direct [transfer; transfer] ledger1 state1 ledger1_inv block_ok) as Ht.
  rewrite Hs in Ht. exact Ht.
Defined.

(** The block's two receipts: the transfer succeeds, its repetition fails. *)
Lemma block_run :
  ∃ l2 rs, apply_block_transactions [transfer; transfer] ledger1 = (l2, Ok rs) ∧ succeeded <$> rs = [true; false].
Proof.
  destruct (apply_all_refines [transfer; transfer] ledger1 state1 ledger1_inv block_ok) as (l2 & rs & Hrs & Hsum & _).
  exists l2, rs. split.
  - unfold apply_block_transactions. rewrite bool_decide_false by done.
    destruct (signed_checks [transfer; transfer]) as [Hc1 Hc2]; [repeat constructor; by vm_compute|].
    unfold_M. by rewrite Hc1, Hc2.
  - assert (Hv : verdicts (summary <$> rs) = [true; false]) by (rewrite Hsum; by vm_compute).
    rewrite <- Hv. unfold verdicts. by rewrite <- list_fmap_compose.
Qed.

Lemma block_conserves_supply_witness :
  ∃ l2 rs σ', apply_block_transactions [transfer; transfer] ledger1 = (l2, Ok rs) ∧ ledger_inv l2 σ' ∧
    supply σ' + 5 = supply state1.
Proof.
  destruct block_run as (l2 & rs & Hrun & Hok).
  destruct (block_conserves_supply [transfer; transfer] ledger1 state1 l2 rs ledger1_inv block_ok Hrun) as (σ' & Hl2 & _ & Heq).
  exists l2, rs, σ'. split; [exact Hrun|]. split; [exact Hl2|]. rewrite Hok in Heq. apply Heq. repeat constructor.
Defined.

Lemma transfer_run : ∃ l1 r, apply_transaction transfer ledger1 = (l1, Ok r).
Proof.
  pose proof (apply_validated_refines transfer ledger1 state1 ledger1_inv transfer_ok) as Ht.
  assert (Hx : tx_exec transfer state1 = Some state2) by (by vm_compute). rewrite Hx in Ht.
  destruct Ht as (l' & Ht & _). exists l', (receipt (hash transfer) Success (state_root l')).
  unfold apply_transaction. unfold_M. rewrite (proj2 (verify_signature_signed transfer)) by (by vm_compute). exact Ht.
Qed.

Lemma applied_transaction_not_replayed_witness :
  ∃ l1 r e, apply_transaction transfer ledger1 = (l1, Ok r) ∧ apply_transaction transfer l1 = (l1, Err e).
Proof.
  destruct transfer_run as (l1 & r & Hrun).
  destruct (applied_transaction_not_replayed transfer [] ledger1 state1 l1 r l1 [] ledger1_inv transfer_ok) as [e He];
    [constructor|exact Hrun|reflexivity|].
  exists l1, r, e. split; [exact Hrun|exact He].
Defined.

Lemma restart_keeps_ledger_witness :
  ∃ l', new ledger1.(storage) = Ok l' ∧ ledger_inv l' state1 ∧ state_root l' = state_root ledger1.
Proof. exact (restart_keeps_ledger ledger1 state1 ledger1_inv). Defined.

End LedgerDemo.
