(* ===== verification/FeeMarket.v ===== *)
(** * Fee market and emission

    [crates/ledger/src/fee_market.rs] and [emission.rs]: the base fee of a
    block, the split of its fees, and the tokens minted per epoch. *)

From S2P Require Import Prelude.

Module EmissionSchedule.

Record EmissionSchedule := mkEmission {
  initial_supply : Z;
  genesis_slot : Z;
  slots_per_year : Z;
  slots_per_epoch : Z;
  epochs_per_year : Z
}.

Definition new (initial_supply slot_ms epoch_slots : Z) : EmissionSchedule :=
  let slot_ms := Z.max slot_ms 1 in
  let epoch_slots := Z.max epoch_slots 1 in
  let slots_per_year := (365 * 24 * 3600 * 1000) / slot_ms in
  let epochs_per_year := Z.max (slots_per_year / epoch_slots) 1 in
  mkEmission initial_supply 0 slots_per_year epoch_slots epochs_per_year.

Definition with_defaults (initial_supply : Z) : EmissionSchedule := new initial_supply 500 43200.

Definition annual_rate_bps (year : Z) : Z :=
  match year with 0 => 500 | 1 => 400 | 2 => 300 | 3 => 200 | _ => 100 end.

Definition year_for_slot (s : EmissionSchedule) (slot : Z) : Z :=
  saturating_sub slot s.(genesis_slot) / s.(slots_per_year).

Definition epoch_emission (s : EmissionSchedule) (current_slot total_supply : Z) : Z :=
  let rate_bps := annual_rate_bps (year_for_slot s current_slot) in
  let denominator := Z.max (saturating_mul U128_MAX 10000 s.(epochs_per_year)) 1 in
  saturating_mul U128_MAX total_supply rate_bps / denominator.

Definition distribute_priority_fee (priority_fee : Z) : Z * Z :=
  let proposer_share := saturating_mul U128_MAX priority_fee 60 / 100 in
  (proposer_share, saturating_sub priority_fee proposer_share).

Lemma annual_rate_range year : 100 ≤ annual_rate_bps year ≤ 500.
Proof. unfold annual_rate_bps. repeat case_match; lia. Qed.

(** One epoch mints at most a five-percent year's share of the supply. *)
Lemma epoch_emission_bound s slot supply :
  0 ≤ supply → 1 ≤ s.(epochs_per_year) ≤ U64_MAX →
  0 ≤ epoch_emission s slot supply ∧ epoch_emission s slot supply * (10000 * s.(epochs_per_year)) ≤ supply * 500.
Proof.
  intros Hs He. unfold epoch_emission. cbv zeta. pose proof (annual_rate_range (year_for_slot s slot)).
  assert (Ed : Z.max (saturating_mul U128_MAX 10000 s.(epochs_per_year)) 1 = 10000 * s.(epochs_per_year)) by ulia.
  rewrite Ed. set (n := saturating_mul _ _ _). assert (Hn : 0 ≤ n ≤ supply * 500) by (subst n; ulia || (unfold_ints; nia)).
  split; [apply Z.div_pos; lia|].
  pose proof (Z.mul_div_le n (10000 * s.(epochs_per_year)) ltac:(lia)). lia.
Qed.

Lemma distribute_exact fee :
  0 ≤ fee → let '(p, t) := distribute_priority_fee fee in 0 ≤ p ∧ 0 ≤ t ∧ p + t = fee ∧ 100 * p ≤ 60 * fee.
Proof.
  intros Hf. unfold distribute_priority_fee. set (p := _ / 100).
  assert (Hp : 0 ≤ p ∧ 100 * p ≤ 60 * fee).
  { subst p. split; [apply Z.div_pos; ulia|].
    pose proof (Z.mul_div_le (saturating_mul U128_MAX fee 60) 100 ltac:(lia)). ulia. }
  ulia.
Qed.

End EmissionSchedule.

Module FeeMarket.

Record FeeMarket := mkMarket {
  base_fee : Z;
  target_gas : Z;
  max_gas : Z;
  min_base_fee : Z;
  total_burned : Z;
  total_priority_fees : Z;
  total_treasury_fees : Z
}.

Record BlockFeeResult := mkFeeResult { burned : Z; proposer_reward : Z; treasury_fee : Z; next_base_fee : Z }.

Definition new (initial_base_fee max_gas min_base_fee : Z) : FeeMarket :=
  mkMarket initial_base_fee (Z.max (max_gas / 2) 1) (Z.max max_gas 2) min_base_fee 0 0 0.

Definition min_fee_for_gas (m : FeeMarket) (gas_limit : Z) : Z := saturating_mul U128_MAX m.(base_fee) gas_limit.

Definition fee_delta (m : FeeMarket) (gas_delta : Z) : Z :=
  saturating_mul U128_MAX m.(base_fee) gas_delta / Z.max (saturating_mul U128_MAX m.(target_gas) 8) 1.

Definition calculate_next_base_fee (m : FeeMarket) (gas_used : Z) : Z :=
  if gas_used =? m.(target_gas) then m.(base_fee) else
  if gas_used >? m.(target_gas) then
    saturating_add U128_MAX m.(base_fee) (Z.max (fee_delta m (gas_used - m.(target_gas))) 1)
  else
    Z.max (saturating_sub m.(base_fee) (fee_delta m (m.(target_gas) - gas_used))) m.(min_base_fee).

Definition process_block (block_gas_used total_fees_collected : Z) (m : FeeMarket) : FeeMarket * BlockFeeResult :=
  let burned := saturating_mul U128_MAX m.(base_fee) block_gas_used in
  let priority_fee := saturating_sub total_fees_collected burned in
  let '(proposer_reward, treasury_fee) := EmissionSchedule.distribute_priority_fee priority_fee in
  let next := calculate_next_base_fee m block_gas_used in
  (mkMarket next m.(target_gas) m.(max_gas) m.(min_base_fee)
     (saturating_add U128_MAX m.(total_burned) burned)
     (saturating_add U128_MAX m.(total_priority_fees) proposer_reward)
     (saturating_add U128_MAX m.(total_treasury_fees) treasury_fee),
   mkFeeResult burned proposer_reward treasury_fee next).

Record market_ok (m : FeeMarket) : Prop := {
  ok_base : m.(min_base_fee) ≤ m.(base_fee) ≤ U128_MAX;
  ok_min : 0 ≤ m.(min_base_fee);
  ok_target : 1 ≤ m.(target_gas) ≤ U64_MAX
}.

(** The change of the base fee is at most the given fraction of an eighth. *)
Lemma fee_delta_bound m d :
  market_ok m → 0 ≤ d ≤ U64_MAX → 0 ≤ fee_delta m d ∧ fee_delta m d * (8 * m.(target_gas)) ≤ m.(base_fee) * d.
Proof.
  intros [Hb Hm Ht] Hd. unfold fee_delta.
  assert (E : Z.max (saturating_mul U128_MAX m.(target_gas) 8) 1 = 8 * m.(target_gas)) by ulia. rewrite E.
  assert (Hn : 0 ≤ saturating_mul U128_MAX m.(base_fee) d ≤ m.(base_fee) * d) by (unfold_ints; nia).
  split; [apply Z.div_pos; lia|].
  pose proof (Z.mul_div_le (saturating_mul U128_MAX m.(base_fee) d) (8 * m.(target_gas)) ltac:(lia)). lia.
Qed.

(** The base fee stays at or above the floor, and one block with at most
    twice the target gas moves it by at most an eighth (or by one, upwards);
    the shares of the tip add up to the fees above the burn. *)
Theorem process_block_bounded m gas fees :
  market_ok m → 0 ≤ gas ≤ 2 * m.(target_gas) → gas ≤ U64_MAX → 0 ≤ fees →
  let '(m', r) := process_block gas fees m in
  market_ok m' ∧ m'.(base_fee) = r.(next_base_fee) ∧
  8 * (m'.(base_fee) - m.(base_fee)) ≤ Z.max 8 m.(base_fee) ∧ 8 * (m.(base_fee) - m'.(base_fee)) ≤ m.(base_fee) ∧
  0 ≤ r.(proposer_reward) ∧ 0 ≤ r.(treasury_fee) ∧
  r.(proposer_reward) + r.(treasury_fee) = Z.max 0 (fees - r.(burned)) ∧
  100 * r.(proposer_reward) ≤ 60 * (r.(proposer_reward) + r.(treasury_fee)).
Proof.
  intros Hm Hg Hu Hf. unfold process_block.
  pose proof (EmissionSchedule.distribute_exact (saturating_sub fees (saturating_mul U128_MAX m.(base_fee) gas)) ltac:(ulia)) as Hd.
  destruct (EmissionSchedule.distribute_priority_fee _) as [p t]. cbn [burned proposer_reward treasury_fee next_base_fee base_fee].
  assert (Hnext : m.(min_base_fee) ≤ calculate_next_base_fee m gas ≤ U128_MAX ∧
    8 * (calculate_next_base_fee m gas - m.(base_fee)) ≤ Z.max 8 m.(base_fee) ∧
    8 * (m.(base_fee) - calculate_next_base_fee m gas) ≤ m.(base_fee)).
  { pose proof Hm as [Hb Hmin Ht]. unfold calculate_next_base_fee. destruct (Z.eqb_spec gas m.(target_gas)); [lia|].
    destruct (Z.gtb_spec gas m.(target_gas)).
    - destruct (fee_delta_bound m (gas - m.(target_gas)) Hm ltac:(lia)) as [H0 H1].
      assert (8 * fee_delta m (gas - m.(target_gas)) ≤ m.(base_fee)) by nia. ulia.
    - destruct (fee_delta_bound m (m.(target_gas) - gas) Hm ltac:(lia)) as [H0 H1].
      assert (8 * fee_delta m (m.(target_gas) - gas) ≤ m.(base_fee)) by nia. ulia. }
  destruct Hm as [Hb Hmin Ht]. split; [constructor; cbn; lia|]. split; [done|]. split; [lia|]. split; [lia|].
  split; [lia|]. split; [lia|]. unfold saturating_sub in Hd. lia.
Qed.

Lemma process_block_bounded_witness :
  let '(m', r) := process_block 3000 5000000 (new 1000 4000 10) in
  market_ok m' ∧ m'.(base_fee) = r.(next_base_fee) ∧
  8 * (m'.(base_fee) - 1000) ≤ Z.max 8 1000 ∧ 8 * (1000 - m'.(base_fee)) ≤ 1000 ∧
  0 ≤ r.(proposer_reward) ∧ 0 ≤ r.(treasury_fee) ∧
  r.(proposer_reward) + r.(treasury_fee) = Z.max 0 (5000000 - r.(burned)) ∧
  100 * r.(proposer_reward) ≤ 60 * (r.(proposer_reward) + r.(treasury_fee)).
Proof.
  apply (process_block_bounded (new 1000 4000 10) 3000 5000000); [|split; by vm_compute|by vm_compute|lia].
  constructor; try split; by vm_compute.
Defined.

(** The burn is computed from the gas, not from what was paid: a block can
    burn more than it collected. *)
Lemma burn_exceeds_fees :
  let r := (process_block 2000 100 (new 1000 4000 10)).2 in
  r.(burned) = 2000000 ∧ r.(proposer_reward) = 0 ∧ 100 < r.(burned).
Proof. by vm_compute. Qed.

End FeeMarket.
