(* ===== verification/Slashing.v ===== *)
(** * Slashing

    [crates/consensus/src/slashing.rs]: evidence of misbehaviour, its
    verification, the penalty, and the detector that watches incoming votes. *)

From S2P Require Import Prelude.
From S2P Require Import Arith256.
From S2P Require Import Bls.

Module Slashing.

Record Vote := mkVote {
  slot : Z;
  block_hash : H256;
  validator : Address;
  validator_pubkey : list Z;
  signature : list Z
}.

Inductive SlashType := DoubleSign | SurroundVote | Downtime (missing_slots : Z).

Record SlashProof := mkProof {
  vote1 : Vote;
  vote2 : Vote;
  accused : Address;
  proof_type : SlashType
}.

Record SlashEvent := mkEvent {
  ev_validator : Address;
  ev_type : SlashType;
  slash_amount : Z;
  reporter_reward : Z
}.

(** The crate's own copy of the helper. *)
Definition mul_div : Z → Z → Z → Z := Arith256.mul_div.
#[local] Arguments Arith256.mul_div : simpl never.

Definition signing_message (v : Vote) : list Z := as_bytes 32 v.(block_hash) ++ to_le_bytes 8 v.(slot).

Definition detect_double_sign (v1 v2 : Vote) : option SlashProof :=
  if (v1.(slot) =? v2.(slot)) && (v1.(validator) =? v2.(validator))%N && negb (v1.(block_hash) =? v2.(block_hash))%N
  then Some (mkProof v1 v2 v1.(validator) DoubleSign) else None.

Definition detect_surround_vote (a : Vote) (source_a : Z) (b : Vote) (source_b : Z) : option SlashProof :=
  if negb (a.(validator) =? b.(validator))%N then None else
  let a_surrounds_b := (source_a <? source_b) && (b.(slot) <? a.(slot)) in
  let b_surrounds_a := (source_b <? source_a) && (a.(slot) <? b.(slot)) in
  if a_surrounds_b || b_surrounds_a then Some (mkProof a b a.(validator) SurroundVote) else None.

Definition slash_rate_bps (t : SlashType) : Z :=
  match t with DoubleSign => 500 | SurroundVote => 500 | Downtime _ => 0 end.

Definition calculate_slash_amount (stake : Z) (t : SlashType) : Z :=
  match t with
  | DoubleSign => mul_div stake 5 100
  | SurroundVote => mul_div stake 5 100
  | Downtime missing_slots => Z.min missing_slots (mul_div stake 1 10)
  end.

Definition apply_slash (validator_stake : Z) (p : SlashProof) (min_stake : Z) : SlashEvent :=
  let amount := calculate_slash_amount validator_stake p.(proof_type) in
  mkEvent p.(accused) p.(proof_type) amount (amount / 10).

Section verify.
Context `{Blst}.

Definition verify_vote_signature (v : Vote) : result error unit :=
  match Bls.verify v.(validator_pubkey) (signing_message v) v.(signature) with
  | Ok true => Ok tt
  | Ok false => Err (Msg "invalid BLS vote signature")
  | Err e => Err (prefix_error "BLS verification error: " e)
  end.

Definition verify_slash_proof (p : SlashProof) : result error unit :=
  match p.(proof_type) with
  | DoubleSign =>
      bail_if (negb (p.(vote1).(slot) =? p.(vote2).(slot))) (Msg "votes not in same slot");;
      bail_if (p.(vote1).(block_hash) =? p.(vote2).(block_hash))%N (Msg "votes for same block");;
      bail_if (negb (p.(vote1).(validator) =? p.(vote2).(validator))%N) (Msg "votes from different validators");;
      bail_if (negb (p.(accused) =? p.(vote1).(validator))%N) (Msg "proof.validator does not match vote validator");;
      verify_vote_signature p.(vote1);;
      verify_vote_signature p.(vote2)
  | SurroundVote =>
      bail_if (negb (p.(vote1).(validator) =? p.(vote2).(validator))%N) (Msg "votes from different validators");;
      bail_if (negb (p.(accused) =? p.(vote1).(validator))%N) (Msg "proof.validator does not match vote validator");;
      verify_vote_signature p.(vote1);;
      verify_vote_signature p.(vote2)
  | Downtime _ => Err (Msg "downtime slashing via proof submission is not supported")
  end.

End verify.

(** ** The detector *)

Record RecordedVote := mkRecorded { rv_block_hash : H256; rv_pubkey : list Z; rv_signature : list Z }.

Record SlashingDetector := mkDetector {
  seen_votes : gmap (Address * Z) RecordedVote;
  pending_slashes : list SlashProof
}.

Definition new : SlashingDetector := mkDetector ∅ [].

Definition record_vote (who : Address) (pubkey : list Z) (slot : Z) (hash : H256) (sig : list Z)
    (d : SlashingDetector) : SlashingDetector * option SlashProof :=
  match d.(seen_votes) !! (who, slot) with
  | None => (mkDetector (<[(who, slot) := mkRecorded hash pubkey sig]> d.(seen_votes)) d.(pending_slashes), None)
  | Some first =>
      if (first.(rv_block_hash) =? hash)%N then (d, None) else
      let v1 := mkVote slot first.(rv_block_hash) who first.(rv_pubkey) first.(rv_signature) in
      let v2 := mkVote slot hash who pubkey sig in
      let proof := mkProof v1 v2 who DoubleSign in
      (mkDetector d.(seen_votes) (d.(pending_slashes) ++ [proof]), Some proof)
  end.

Definition drain_pending (d : SlashingDetector) : SlashingDetector * list SlashProof :=
  (mkDetector d.(seen_votes) [], d.(pending_slashes)).

Definition prune_before (min_slot : Z) (d : SlashingDetector) : SlashingDetector :=
  mkDetector (filter (λ kv, min_slot ≤ kv.1.2) d.(seen_votes)) d.(pending_slashes).

(** ** Penalties *)

(** A penalty never exceeds the stake, and the reporter gets at most a tenth. *)
Lemma slash_amount_bounded stake p min_stake :
  is_u128 stake → (∀ n, p.(proof_type) = Downtime n → 0 ≤ n) →
  let e := apply_slash stake p min_stake in
  0 ≤ e.(slash_amount) ∧ 10 * e.(slash_amount) ≤ stake ∧ 0 ≤ e.(reporter_reward) ∧ 10 * e.(reporter_reward) ≤ e.(slash_amount).
Proof.
  intros Hs Hn. unfold apply_slash. cbn [slash_amount reporter_reward].
  assert (Ha : 0 ≤ calculate_slash_amount stake p.(proof_type) ∧ 10 * calculate_slash_amount stake p.(proof_type) ≤ stake).
  { unfold calculate_slash_amount, mul_div.
    assert (H5 : Arith256.mul_div stake 5 100 = stake * 5 / 100) by (apply Arith256.mul_div_rate; [done|lia..]).
    assert (H1 : Arith256.mul_div stake 1 10 = stake * 1 / 10) by (apply Arith256.mul_div_rate; [done|lia..]).
    assert (0 ≤ stake) by apply Hs.
    pose proof (Z.mul_div_le (stake * 5) 100 ltac:(lia)). pose proof (Z.div_pos (stake * 5) 100 ltac:(lia) ltac:(lia)).
    pose proof (Z.mul_div_le (stake * 1) 10 ltac:(lia)). pose proof (Z.div_pos (stake * 1) 10 ltac:(lia) ltac:(lia)).
    destruct p.(proof_type) as [| |n] eqn:E; rewrite ?H5, ?H1; try (specialize (Hn _ eq_refl)); lia. }
  set (x := calculate_slash_amount _ _) in *.
  pose proof (Z.mul_div_le x 10 ltac:(lia)). pose proof (Z.div_pos x 10 ltac:(lia) ltac:(lia)). lia.
Qed.

(** ** Detection *)

(** What the node does with the detector between two votes. *)
Inductive op :=
| Record (who : Address) (pubkey : list Z) (s : Z) (h : H256) (sig : list Z)
| Drain
| Prune (min_slot : Z).

Definition exec (o : op) (d : SlashingDetector) : SlashingDetector :=
  match o with
  | Record who pk s h sig => (record_vote who pk s h sig d).1
  | Drain => (drain_pending d).1
  | Prune m => prune_before m d
  end.

(** The first recorded vote of a validator in a slot is kept until its slot is
    pruned. *)
Lemma seen_kept ops d who s r :
  d.(seen_votes) !! (who, s) = Some r → Forall (λ o, match o with Prune m => m ≤ s | _ => True end) ops →
  (foldl (λ d o, exec o d) d ops).(seen_votes) !! (who, s) = Some r.
Proof.
  intros Hd Hops. revert d Hd. induction Hops as [|o ops Ho _ IH]; intros d Hd; [done|]. apply IH. clear IH.
  destruct o as [w pk s' h sig| |m]; cbn.
  - unfold record_vote. destruct (d.(seen_votes) !! (w, s')) as [r'|] eqn:E; cbn.
    + destruct (_ =? _)%N; done.
    + rewrite lookup_insert_ne; [done|]. intros [= -> ->]. congruence.
  - done.
  - apply map_lookup_filter_Some. done.
Qed.

(** A validator that votes for two blocks of a slot is caught, whatever votes
    arrive in between, as long as the slot is not pruned; the proof names
    exactly the two votes. *)
Theorem double_sign_detected who pk1 pk2 s h1 h2 sig1 sig2 ops d :
  d.(seen_votes) !! (who, s) = None → h1 ≠ h2 →
  Forall (λ o, match o with Prune m => m ≤ s | _ => True end) ops →
  let d' := foldl (λ d o, exec o d) (record_vote who pk1 s h1 sig1 d).1 ops in
  (record_vote who pk2 s h2 sig2 d').2 =
  Some (mkProof (mkVote s h1 who pk1 sig1) (mkVote s h2 who pk2 sig2) who DoubleSign).
Proof.
  intros Hd Hne Hops d'. assert (Hs : d'.(seen_votes) !! (who, s) = Some (mkRecorded h1 pk1 sig1)).
  { apply seen_kept; [|done]. unfold record_vote. rewrite Hd. apply lookup_insert_eq. }
  unfold record_vote. rewrite Hs. cbn. by rewrite (proj2 (N.eqb_neq h1 h2)).
Qed.

Lemma double_sign_detected_witness :
  (record_vote 7 [] 3 2%N [] (foldl (λ d o, exec o d) (record_vote 7 [] 3 1%N [] new).1 [Record 8 [] 3 5%N []; Prune 2])).2 =
  Some (mkProof (mkVote 3 1 7 [] []) (mkVote 3 2 7 [] []) 7 DoubleSign).
Proof. apply (double_sign_detected 7 [] [] 3 1 2 [] [] [Record 8 [] 3 5%N []; Prune 2] new); [done|done|repeat constructor; lia]. Defined.

(** One vote per slot is never accused. *)
Lemma single_vote_not_accused who pk s h sig d p :
  (record_vote who pk s h sig d).2 = Some p →
  ∃ r, d.(seen_votes) !! (who, s) = Some r ∧ r.(rv_block_hash) ≠ h ∧ detect_double_sign p.(vote1) p.(vote2) = Some p.
Proof.
  unfold record_vote. destruct (d.(seen_votes) !! (who, s)) as [r|]; [|done]. destruct (N.eqb_spec r.(rv_block_hash) h) as [|Hne]; [done|].
  intros [= <-]. exists r. split; [done|]. split; [done|]. unfold detect_double_sign. cbn.
  by rewrite Z.eqb_refl, N.eqb_refl, (proj2 (N.eqb_neq _ _) Hne).
Qed.

(** ** What evidence proves

    The key in a vote is the evidence's own: it is not compared with the
    accused validator's address or registered key, and the surround condition
    is not checked. *)

Section evidence.
Context `{BlstLaws}.

Definition signed_vote (kp : Bls.BlsKeypair) (s : Z) (h : H256) (who : Address) : Vote :=
  let v := mkVote s h who (Bls.public_key kp) [] in
  mkVote s h who (Bls.public_key kp) (Bls.sign kp (signing_message v)).

Lemma signed_vote_verifies kp s h who : Bls.keypair_wf kp → verify_vote_signature (signed_vote kp s h who) = Ok tt.
Proof.
  intros Hk. unfold verify_vote_signature, signed_vote. cbn [validator_pubkey signature].
  pose proof (Bls.sign_verify_roundtrip kp (signing_message (mkVote s h who (Bls.public_key kp) [])) Hk) as [E _].
  unfold signing_message in *. cbn [block_hash slot] in *. by rewrite E.
Qed.

(** Anyone with any key makes evidence that convicts any validator. *)
Theorem evidence_is_forgeable (kp : Bls.BlsKeypair) (victim : Address) (s : Z) (h1 h2 : H256) :
  Bls.keypair_wf kp → h1 ≠ h2 →
  verify_slash_proof (mkProof (signed_vote kp s h1 victim) (signed_vote kp s h2 victim) victim DoubleSign) = Ok tt.
Proof.
  intros Hk Hne. unfold verify_slash_proof. cbn [proof_type vote1 vote2 accused].
  cbn [slot block_hash validator signed_vote]. rewrite Z.eqb_refl, !N.eqb_refl, (proj2 (N.eqb_neq _ _) Hne). cbn.
  rewrite !signed_vote_verifies by done. done.
Qed.

(** One honest vote, given twice, is accepted as a surround vote. *)
Theorem honest_vote_is_surround_evidence (kp : Bls.BlsKeypair) (who : Address) (s : Z) (h : H256) :
  Bls.keypair_wf kp →
  let v := signed_vote kp s h who in verify_slash_proof (mkProof v v who SurroundVote) = Ok tt ∧
  ∀ src1 src2, detect_surround_vote v src1 v src2 = None.
Proof.
  intros Hk v. split.
  - unfold verify_slash_proof. cbn [proof_type vote1 vote2 accused]. subst v.
    cbn [validator signed_vote]. rewrite !N.eqb_refl. cbn. rewrite !signed_vote_verifies by done. done.
  - intros. unfold detect_surround_vote. rewrite N.eqb_refl, Z.ltb_irrefl, !andb_false_r. done.
Qed.
End evidence.

Lemma evidence_is_forgeable_witness :
  verify_slash_proof (mkProof (signed_vote Bls.demo_keys.1 3 1 99) (signed_vote Bls.demo_keys.1 3 2 99) 99 DoubleSign) = Ok tt.
Proof. apply (evidence_is_forgeable Bls.demo_keys.1 99 3 1 2); [reflexivity|done]. Defined.

End Slashing.
