(* ===== verification/Mempool.v ===== *)
(** * Mempool

    [crates/mempool/src/pool.rs]. The binary heap of pending transactions is
    the list of its elements (its order in memory, which [iter] shows, is the
    parameter [heap_iter]); the clock is an argument, in nanoseconds. *)

From S2P Require Import Prelude.
From S2P Require Import Transaction.

(** [BinaryHeap::iter] visits the elements in an arbitrary order. *)
Class HeapOrder := {
  heap_iter : ∀ {A : Type}, list A → list A;
  heap_iter_perm : ∀ A (l : list A), heap_iter l ≡ₚ l
}.

(** [BTreeMap::iter]: by ascending key. *)
Definition key_le {V} (x y : Z * V) : Prop := x.1 ≤ y.1.
#[global] Instance key_le_dec V : RelDecision (@key_le V).
Proof. intros x y. unfold key_le. apply _. Defined.
Definition btree_iter {V} (m : gmap Z V) : list (Z * V) := merge_sort key_le (map_to_list m).

Module Mempool.

Definition MAX_MEMPOOL_SIZE : nat := Z.to_nat 50000.
Definition MIN_FEE : Z := 1000.
Definition MAX_TXS_PER_SENDER_PER_SECOND : Z := 100.
Definition RATE_LIMIT_WINDOW_SECS : Z := 1.
Definition MAX_QUEUED_PER_SENDER : nat := 64.
Definition MAX_NONCE_GAP : Z := 256.
Definition FORCED_INCLUSION_SLOTS : Z := 10.
Definition MAX_TX_AGE_SLOTS : Z := 1800.

Record PrioritizedTx := mkPtx { tx : Transaction; fee_rate : Z; timestamp : Z; submitted_slot : Z }.

(** [a >= b] in the order of the heap: by fee rate, earlier first. *)
Definition prio_ge (a b : PrioritizedTx) : bool :=
  if a.(fee_rate) =? b.(fee_rate) then a.(timestamp) <=? b.(timestamp) else b.(fee_rate) <? a.(fee_rate).

(** [BinaryHeap::pop]: a greatest element and the rest. *)
Fixpoint heap_pop (l : list PrioritizedTx) : option (PrioritizedTx * list PrioritizedTx) :=
  match l with
  | [] => None
  | x :: l =>
      match heap_pop l with
      | None => Some (x, [])
      | Some (y, rest) => if prio_ge x y then Some (x, y :: rest) else Some (y, x :: rest)
      end
  end.

Record RateLimitEntry := mkRate { window_start : Z; count : Z }.

Record Mempool := mkPool {
  pending : list PrioritizedTx;
  by_hash : gmap H256 Transaction;
  by_sender : gmap Address (gset H256);
  next_nonce : gmap Address Z;
  queued : gmap Address (gmap Z (Transaction * Z));
  rate_limits : gmap Address RateLimitEntry;
  current_time : Z;
  current_slot : Z;
  fee_params : FeeParams;
  expected_chain_id : Z
}.

Definition set_pending x p := mkPool x p.(by_hash) p.(by_sender) p.(next_nonce) p.(queued) p.(rate_limits) p.(current_time) p.(current_slot) p.(fee_params) p.(expected_chain_id).
Definition set_by_hash x p := mkPool p.(pending) x p.(by_sender) p.(next_nonce) p.(queued) p.(rate_limits) p.(current_time) p.(current_slot) p.(fee_params) p.(expected_chain_id).
Definition set_by_sender x p := mkPool p.(pending) p.(by_hash) x p.(next_nonce) p.(queued) p.(rate_limits) p.(current_time) p.(current_slot) p.(fee_params) p.(expected_chain_id).
Definition set_next_nonce x p := mkPool p.(pending) p.(by_hash) p.(by_sender) x p.(queued) p.(rate_limits) p.(current_time) p.(current_slot) p.(fee_params) p.(expected_chain_id).
Definition set_queued x p := mkPool p.(pending) p.(by_hash) p.(by_sender) p.(next_nonce) x p.(rate_limits) p.(current_time) p.(current_slot) p.(fee_params) p.(expected_chain_id).
Definition set_rate_limits x p := mkPool p.(pending) p.(by_hash) p.(by_sender) p.(next_nonce) p.(queued) x p.(current_time) p.(current_slot) p.(fee_params) p.(expected_chain_id).
Definition set_current_time x p := mkPool p.(pending) p.(by_hash) p.(by_sender) p.(next_nonce) p.(queued) p.(rate_limits) x p.(current_slot) p.(fee_params) p.(expected_chain_id).
Definition set_slot x p := mkPool p.(pending) p.(by_hash) p.(by_sender) p.(next_nonce) p.(queued) p.(rate_limits) p.(current_time) x p.(fee_params) p.(expected_chain_id).

Definition new (fees : FeeParams) (chain : Z) : Mempool := mkPool [] ∅ ∅ ∅ ∅ ∅ 0 0 fees chain.

Section pool.
Context `{Digest, Codec, Dalek, HashOrder, HeapOrder}.

Definition expected_nonce (p : Mempool) (s : Address) : Z := default 0 (p.(next_nonce) !! s).

Definition set_sender_nonce (s : Address) (n : Z) (p : Mempool) : Mempool := set_next_nonce (<[s := n]> p.(next_nonce)) p.

Definition advance_sender_nonce (s : Address) (min_nonce : Z) (p : Mempool) : Mempool :=
  if min_nonce >? expected_nonce p s then set_sender_nonce s min_nonce p else p.

(** ** Removal *)

(** [if let Some(sender_txs) = by_sender.get_mut(s) { sender_txs.remove(h) }] *)
Definition forget_sender (s : Address) (h : H256) (p : Mempool) : Mempool :=
  set_by_sender (alter (λ hs, hs ∖ {[h]}) s p.(by_sender)) p.

Definition rebuild_heap (p : Mempool) : Mempool :=
  set_pending (filter (λ ptx, is_Some (p.(by_hash) !! hash ptx.(tx))) p.(pending)) p.

Definition remove_one (p : Mempool) (h : H256) : Mempool :=
  match p.(by_hash) !! h with
  | Some t => forget_sender t.(sender) h (set_by_hash (delete h p.(by_hash)) p)
  | None => p
  end.

Definition remove_transactions (hs : list H256) (p : Mempool) : Mempool := rebuild_heap (foldl remove_one p hs).

Definition too_old (p : Mempool) (slot : Z) : bool := saturating_sub p.(current_slot) slot >? MAX_TX_AGE_SLOTS.

Definition expire_old_transactions (p : Mempool) : Mempool :=
  let expired_pending := (λ ptx, hash ptx.(tx)) <$> filter (λ ptx, too_old p ptx.(submitted_slot) = true) (heap_iter p.(pending)) in
  let expired_queued :=
    (λ e, hash e.2.1) <$>
    flat_map (λ q, filter (λ e, too_old p e.2.2 = true) (btree_iter q.2)) (hash_iter p.(queued)) in
  let kept := (λ q, filter (λ e, too_old p e.2.2 = false) q) <$> p.(queued) in
  let p1 := set_queued (filter (λ q, q.2 ≠ ∅) kept) p in
  let expired := expired_pending ++ expired_queued in
  if bool_decide (expired = []) then p1 else remove_transactions expired p1.

Definition set_current_slot (slot : Z) (p : Mempool) : Mempool := expire_old_transactions (set_slot slot p).

(** ** Admission *)

Definition as_secs (ns : Z) : Z := ns / 1000000000.
(** [Instant::duration_since], which saturates. *)
Definition duration_since (now start : Z) : Z := Z.max 0 (now - start).

Definition check_rate_limit (now : Z) (s : Address) : M Mempool error unit :=
  modify (λ p, if (10000 <? Z.of_nat (size p.(rate_limits))) then
                 set_rate_limits (filter (λ e, as_secs (duration_since now e.2.(window_start)) < 60) p.(rate_limits)) p
               else p);;
  p ← get_state;
  let entry := default (mkRate now 0) (p.(rate_limits) !! s) in
  if RATE_LIMIT_WINDOW_SECS <=? as_secs (duration_since now entry.(window_start)) then
    modify (set_rate_limits (<[s := mkRate now 1]> p.(rate_limits)))
  else
    let entry := mkRate entry.(window_start) (wrapping_add U32_MAX entry.(count) 1) in
    modify (set_rate_limits (<[s := entry]> p.(rate_limits)));;
    bail_if (MAX_TXS_PER_SENDER_PER_SECOND <? entry.(count)) (Msg "rate limited: too many transactions from sender").

Definition add_to_pending (t : Transaction) (p : Mempool) : Mempool :=
  let tx_size := Z.of_nat (length (ser_tx t)) in
  let fee_rate := if tx_size >? 0 then t.(fee) / tx_size else t.(fee) in
  let next := saturating_add U64_MAX t.(tx_nonce) 1 in
  let p := if next >? expected_nonce p t.(sender) then set_next_nonce (<[t.(sender) := next]> p.(next_nonce)) p else p in
  let p := set_pending (mkPtx t fee_rate p.(current_time) p.(current_slot) :: p.(pending)) p in
  set_current_time (saturating_add U64_MAX p.(current_time) 1) p.

(** Drop a sender's queue when it is empty or absent. *)
Definition clean_queue (s : Address) (p : Mempool) : Mempool :=
  if bool_decide (default ∅ (p.(queued) !! s) = ∅) then set_queued (delete s p.(queued)) p else p.

(** The inner loop of [promote_queued], with the number of rounds. *)
Fixpoint promote_sender (n : nat) (s : Address) (p : Mempool) : Mempool :=
  match n with
  | O => p
  | S n =>
      let expected := expected_nonce p s in
      match default ∅ (p.(queued) !! s) !! expected with
      | None => p
      | Some (t, _) =>
          let p := set_queued (alter (λ q, delete expected q) s p.(queued)) p in
          promote_sender n s (clean_queue s (add_to_pending t p))
      end
  end.

(** A round takes one entry out of the sender's queue: as many rounds as
    entries, and one to see that none is left. *)
Definition promote_rounds (p : Mempool) (s : Address) : nat := S (size (default ∅ (p.(queued) !! s))).

Definition promote_queued (p : Mempool) : Mempool :=
  foldl (λ p s, promote_sender (promote_rounds p s) s p) p (fst <$> hash_iter p.(queued)).

(** The queued transaction with the lowest fee, the first one found. *)
Definition worst_queued (p : Mempool) : option (Address * Z * Z) :=
  foldl (λ w e, let '(s, n, t) := e in
                match w with
                | Some (_, _, f) => if t.(fee) <? f then Some (s, n, t.(fee)) else w
                | None => Some (s, n, t.(fee))
                end) None
    (flat_map (λ q, (λ e, (q.1, e.1, e.2.1)) <$> btree_iter q.2) (hash_iter p.(queued))).

(** [prio_ge] as a relation, to sort in descending order. *)
Definition prio_rel (a b : PrioritizedTx) : Prop := prio_ge a b = true.
#[global] Instance prio_rel_dec : RelDecision prio_rel.
Proof. intros a b. unfold prio_rel. apply _. Defined.

Definition evict_lowest_fee (p : Mempool) : Mempool :=
  match worst_queued p with
  | Some (s, n, _) =>
      match p.(queued) !! s with
      | Some nonces =>
          let p1 := match nonces !! n with
                    | Some (t, _) => forget_sender s (hash t) (set_by_hash (delete (hash t) p.(by_hash)) p)
                    | None => p
                    end in
          let nonces := delete n nonces in
          if bool_decide (nonces = ∅) then set_queued (delete s p1.(queued)) p1
          else set_queued (<[s := nonces]> p1.(queued)) p1
      | None => p
      end
  | None =>
      let txs := merge_sort prio_rel p.(pending) in
      match last txs with
      | Some lowest =>
          let h := hash lowest.(tx) in
          set_pending (removelast txs) (forget_sender lowest.(tx).(sender) h (set_by_hash (delete h p.(by_hash)) p))
      | None => p
      end
  end.

(** The transaction of the same sender and nonce, if any. *)
Definition same_nonce_hash (t : Transaction) (p : Mempool) : option H256 :=
  hs ← p.(by_sender) !! t.(sender);
  head (filter (λ h, from_option (λ t', t'.(tx_nonce) =? t.(tx_nonce)) false (p.(by_hash) !! h) = true) (hash_elements hs)).

(** Replace-by-fee. *)
Definition replace_by_fee (t : Transaction) : M Mempool error unit :=
  p ← get_state;
  match same_nonce_hash t p with
  | None => mret tt
  | Some old_hash =>
      match p.(by_hash) !! old_hash with
      | None => mret tt
      | Some old =>
          let min_replacement_fee := saturating_add U128_MAX old.(fee) (old.(fee) / 10) in
          bail_if (t.(fee) <=? min_replacement_fee)
            (Fmt "fee {} not high enough to replace (need >10% above {})" [t.(fee); old.(fee)]);;
          modify (λ p, forget_sender t.(sender) old_hash (set_by_hash (delete old_hash p.(by_hash)) p));;
          modify (λ p, if old.(tx_nonce) <? expected_nonce p t.(sender)
                       then set_next_nonce (<[t.(sender) := old.(tx_nonce)]> p.(next_nonce)) p else p)
      end
  end.

(** Undo the tracking of a transaction that cannot be queued. *)
Definition untrack (t : Transaction) (h : H256) (p : Mempool) : Mempool :=
  let p := forget_sender t.(sender) h (set_by_hash (delete h p.(by_hash)) p) in
  if bool_decide (p.(by_sender) !! t.(sender) = Some ∅) then set_by_sender (delete t.(sender) p.(by_sender)) p else p.

Definition track (t : Transaction) (h : H256) (p : Mempool) : Mempool :=
  let p := set_by_hash (<[h := t]> p.(by_hash)) p in
  set_by_sender (<[t.(sender) := {[h]} ∪ default ∅ (p.(by_sender) !! t.(sender))]> p.(by_sender)) p.

Definition enqueue (t : Transaction) (h : H256) (expected : Z) : M Mempool error unit :=
  let nonce_gap := saturating_sub t.(tx_nonce) expected in
  p ← get_state;
  if MAX_NONCE_GAP <? nonce_gap then
    put_state (untrack t h p);;
    mthrow (Fmt "nonce gap too large: tx nonce {} is {} ahead of expected {}" [t.(tx_nonce); nonce_gap; expected])
  else
    (* entry(..).or_default() *)
    let q := default ∅ (p.(queued) !! t.(sender)) in
    put_state (set_queued (<[t.(sender) := q]> p.(queued)) p);;
    p ← get_state;
    if (MAX_QUEUED_PER_SENDER <=? size q)%nat then
      put_state (untrack t h p);;
      mthrow (Fmt "too many queued transactions for sender (max {})" [Z.of_nat MAX_QUEUED_PER_SENDER])
    else put_state (set_queued (<[t.(sender) := <[t.(tx_nonce) := (t, p.(current_slot))]> q]> p.(queued)) p).

(** The stateless checks. *)
Definition admissible (t : Transaction) (p : Mempool) : result error unit :=
  bail_if (negb (p.(expected_chain_id) =? 0) && negb (t.(chain_id) =? p.(expected_chain_id)))
    (Fmt "chain_id mismatch: tx has {}, expected {}" [t.(chain_id); p.(expected_chain_id)]);;
  map_err (prefix_error "invalid signature: ") (verify_signature t);;
  map_err (prefix_error "invalid fee: ") (calculate_fee p.(fee_params) t);;
  bail_if (t.(fee) <? MIN_FEE) (Msg "fee below minimum").

Definition add_transaction (now : Z) (t : Transaction) : M Mempool error unit :=
  reads (admissible t);;
  check_rate_limit now t.(sender);;
  p ← get_state;
  let h := hash t in
  bail_if (bool_decide (is_Some (p.(by_hash) !! h))) (Msg "duplicate transaction");;
  replace_by_fee t;;
  modify (λ p, if (MAX_MEMPOOL_SIZE <=? size p.(by_hash))%nat then evict_lowest_fee p else p);;
  p ← get_state;
  let expected := expected_nonce p t.(sender) in
  bail_if (t.(tx_nonce) <? expected) (Fmt "nonce too low: tx nonce {} < expected {}" [t.(tx_nonce); expected]);;
  modify (track t h);;
  if t.(tx_nonce) =? expected then modify (λ p, promote_queued (add_to_pending t p)) else enqueue t h expected.

(** ** Selection *)

(** The loop of [get_transactions]: at most [n] pops. It returns what is left
    of the heap, what is put back, and the selected transactions. *)
Fixpoint select (n : nat) (bh : gmap H256 Transaction) (max_count : Z) (max_gas : Z) (heap temp : list PrioritizedTx)
    (selected : list Transaction) (total_gas : Z) : list PrioritizedTx * list PrioritizedTx * list Transaction :=
  match n with
  | O => (heap, temp, selected)
  | S n =>
      match heap_pop heap with
      | None => (heap, temp, selected)
      | Some (ptx, heap) =>
          if (max_count <=? Z.of_nat (length selected)) || (max_gas <=? total_gas) then (heap, ptx :: temp, selected) else
          let gas := saturating_add U64_MAX total_gas ptx.(tx).(gas_limit) in
          if gas <=? max_gas then
            if bool_decide (is_Some (bh !! hash ptx.(tx))) then
              select n bh max_count max_gas heap temp (selected ++ [ptx.(tx)]) gas
            else select n bh max_count max_gas heap temp selected total_gas
          else select n bh max_count max_gas heap (ptx :: temp) selected total_gas
      end
  end.

Definition get_transactions (max_count max_gas : Z) (p : Mempool) : Mempool * list Transaction :=
  let '(heap, temp, selected) := select (length p.(pending)) p.(by_hash) max_count max_gas p.(pending) [] [] 0 in
  (set_pending (temp ++ heap) p, selected).

Definition must_include_transactions (p : Mempool) (slot base_fee : Z) : list Transaction :=
  let min_fee := saturating_mul U128_MAX base_fee 2 in
  tx <$> filter (λ ptx, (FORCED_INCLUSION_SLOTS <=? saturating_sub slot ptx.(submitted_slot)) && (min_fee <=? ptx.(tx).(fee)) = true)
           (heap_iter p.(pending)).

Definition len (p : Mempool) : Z := Z.of_nat (size p.(by_hash)).
Definition queued_len (p : Mempool) : Z := sum_list ((λ q, Z.of_nat (size q.2)) <$> hash_iter p.(queued)).

(** Re-admission at one clock reading per transaction. *)
Fixpoint readd (txs : list (Z * Transaction)) (p : Mempool) : Mempool :=
  match txs with
  | [] => p
  | (now, t) :: txs => readd txs (add_transaction now t p).1
  end.

Definition reorg (reverted : list (Z * Transaction)) (tips : gmap Address Z) (p : Mempool) : Mempool :=
  let p := set_next_nonce (tips ∪ p.(next_nonce)) p in
  let stale := fst <$> filter (λ e, e.2.(tx_nonce) < default 0 (tips !! e.2.(sender))) (hash_iter p.(by_hash)) in
  let p := remove_transactions stale p in
  readd reverted (set_rate_limits ∅ p).


(** ** Selection is sound, ordered and greedy *)

Lemma prio_ge_refl a : prio_ge a a = true.
Proof. unfold prio_ge. rewrite Z.eqb_refl. lia. Qed.
Lemma prio_ge_trans a b c : prio_ge a b = true → prio_ge b c = true → prio_ge a c = true.
Proof. unfold prio_ge. repeat case_match; clean_ints; lia. Qed.
Lemma prio_ge_total a b : prio_ge a b = false → prio_ge b a = true.
Proof. unfold prio_ge. repeat case_match; clean_ints; lia. Qed.

Lemma heap_pop_None l : heap_pop l = None ↔ l = [].
Proof. destruct l as [|x l]; [done|]. cbn. split; [|done]. destruct (heap_pop l) as [[y r]|]; [|done]. by destruct (prio_ge x y). Qed.

Lemma heap_pop_Some l x r : heap_pop l = Some (x, r) → l ≡ₚ x :: r ∧ Forall (λ y, prio_ge x y = true) r.
Proof.
  revert x r. induction l as [|z l IH]; intros x r; [done|]. cbn. destruct (heap_pop l) as [[y rest]|] eqn:E.
  - destruct (IH y rest eq_refl) as [Hp Hf]. destruct (prio_ge z y) eqn:Hz; intros [= <- <-].
    + split; [by rewrite Hp|]. constructor; [done|]. eapply Forall_impl; [exact Hf|]. intros w Hw. by eapply prio_ge_trans.
    + split; [by rewrite Hp, Permutation_swap|]. constructor; [by apply prio_ge_total|done].
  - intros [= <- <-]. apply heap_pop_None in E as ->. by split.
Qed.

Definition gas_of (txs : list Transaction) : Z := sum_list (gas_limit <$> txs).

Lemma gas_of_app xs ys : gas_of (xs ++ ys) = gas_of xs + gas_of ys.
Proof. unfold gas_of, sum_list. rewrite fmap_app, foldr_app. induction xs; cbn in *; lia. Qed.

Lemma gas_of_snoc (l : list PrioritizedTx) x : gas_of (tx <$> l ++ [x]) = gas_of (tx <$> l) + x.(tx).(gas_limit).
Proof. rewrite fmap_app, gas_of_app. unfold gas_of, sum_list. cbn. lia. Qed.

Definition live (bh : gmap H256 Transaction) (ptx : PrioritizedTx) : Prop := is_Some (bh !! hash ptx.(tx)).

(** A transaction that stays behind does not fit, or a limit was reached. *)
Definition left_out (max_count max_gas : Z) (sel : list Transaction) (ptx : PrioritizedTx) : Prop :=
  max_count ≤ Z.of_nat (length sel) ∨ max_gas ≤ gas_of sel ∨ max_gas < gas_of sel + ptx.(tx).(gas_limit).

Record select_post (bh : gmap H256 Transaction) (max_count max_gas : Z) (heap temp : list PrioritizedTx)
    (sel : list PrioritizedTx) (heap' temp' : list PrioritizedTx) (new_sel : list PrioritizedTx) : Prop := {
  sp_live : Forall (live bh) new_sel;
  sp_sorted : StronglySorted (λ a b, prio_ge a b = true) new_sel;
  sp_count : Z.of_nat (length (sel ++ new_sel)) ≤ max_count ∨ new_sel = [];
  sp_gas : gas_of (tx <$> sel ++ new_sel) ≤ max_gas ∨ new_sel = [];
  sp_heap : ∃ dropped, heap ++ temp ≡ₚ new_sel ++ dropped ++ heap' ++ temp' ∧ Forall (λ x, ¬ live bh x) dropped;
  sp_from : ∀ x, x ∈ new_sel → x ∈ heap;
  sp_left : ∀ x, x ∈ heap' ++ temp' → x ∈ temp ∨ left_out max_count max_gas (tx <$> sel ++ new_sel) x
}.

Lemma gas_of_nonneg (l : list PrioritizedTx) : Forall (λ x, 0 ≤ x.(tx).(gas_limit)) l → 0 ≤ gas_of (tx <$> l).
Proof. unfold gas_of, sum_list. induction 1; cbn in *; lia. Qed.

Section select_cases.
Context (bh : gmap H256 Transaction) (mc mg : Z).
Implicit Types (heap temp sel : list PrioritizedTx).

Lemma select_post_nil temp sel : select_post bh mc mg [] temp sel [] temp [].
Proof. constructor; [constructor|constructor|by right|by right|by exists []|done|intros x Hx; by left]. Qed.

Lemma select_post_stop heap ptx rest temp sel :
  heap ≡ₚ ptx :: rest → mc ≤ Z.of_nat (length sel) ∨ mg ≤ gas_of (tx <$> sel) →
  select_post bh mc mg heap temp sel rest (ptx :: temp) [].
Proof.
  intros Hp Hs. constructor; [constructor|constructor|by right|by right| | |].
  - exists []. split; [|done]. rewrite Hp. cbn. by rewrite Permutation_middle.
  - by intros x ?%elem_of_nil.
  - intros x _. right. rewrite app_nil_r. unfold left_out. rewrite length_fmap. tauto.
Qed.

Lemma select_post_take heap ptx rest temp sel h' t' ns :
  heap ≡ₚ ptx :: rest → Forall (λ y, prio_ge ptx y = true) rest → live bh ptx →
  Z.of_nat (length sel) < mc → gas_of (tx <$> sel) + ptx.(tx).(gas_limit) ≤ mg →
  select_post bh mc mg rest temp (sel ++ [ptx]) h' t' ns → select_post bh mc mg heap temp sel h' t' (ptx :: ns).
Proof.
  intros Hp Hmax Hl Hc Hg [P1 P2 P3 P4 (dr & P5 & P6) P7 P8].
  rewrite <- app_assoc in P3, P4, P8. cbn in P3, P4, P8. constructor.
  - by constructor.
  - constructor; [done|]. apply Forall_forall. intros x Hx. rewrite Forall_forall in Hmax. by apply Hmax, P7.
  - left. destruct P3 as [P3| ->]; [done|]. rewrite length_app. cbn. lia.
  - left. destruct P4 as [P4| ->]; [done|]. by rewrite gas_of_snoc.
  - exists dr. split; [|done]. rewrite Hp. cbn. by rewrite P5.
  - intros x [->|Hx]%elem_of_cons; rewrite Hp; [by left|]. right. by apply P7.
  - done.
Qed.

Lemma select_post_drop heap ptx rest temp sel h' t' ns :
  heap ≡ₚ ptx :: rest → ¬ live bh ptx →
  select_post bh mc mg rest temp sel h' t' ns → select_post bh mc mg heap temp sel h' t' ns.
Proof.
  intros Hp Hl [P1 P2 P3 P4 (dr & P5 & P6) P7 P8]. constructor; try done.
  - exists (ptx :: dr). split; [|by constructor]. rewrite Hp. cbn. rewrite P5. by rewrite Permutation_middle.
  - intros x Hx. rewrite Hp. right. by apply P7.
Qed.

Lemma select_post_skip heap ptx rest temp sel h' t' ns :
  heap ≡ₚ ptx :: rest → Forall (λ x, 0 ≤ x.(tx).(gas_limit)) rest → mg < gas_of (tx <$> sel) + ptx.(tx).(gas_limit) →
  select_post bh mc mg rest (ptx :: temp) sel h' t' ns → select_post bh mc mg heap temp sel h' t' ns.
Proof.
  intros Hp Hn Hg [P1 P2 P3 P4 (dr & P5 & P6) P7 P8]. constructor; try done.
  - exists dr. split; [|done]. rewrite Hp, <- P5. cbn. by rewrite Permutation_middle.
  - intros x Hx. rewrite Hp. right. by apply P7.
  - intros x Hx. destruct (P8 x Hx) as [[->|Hin]%elem_of_cons|?]; [|by left|by right]. right. right. right.
    rewrite fmap_app, gas_of_app. assert (0 ≤ gas_of (tx <$> ns)); [|lia].
    apply gas_of_nonneg, Forall_forall. intros y Hy. rewrite Forall_forall in Hn. by apply Hn, P7.
Qed.
End select_cases.

Lemma select_spec n bh mc mg heap temp sel :
  (length heap ≤ n)%nat → mg < U64_MAX → Forall (λ x, 0 ≤ x.(tx).(gas_limit)) heap →
  ∃ heap' temp' new_sel,
    select n bh mc mg heap temp (tx <$> sel) (gas_of (tx <$> sel)) = (heap', temp', tx <$> sel ++ new_sel) ∧
    select_post bh mc mg heap temp sel heap' temp' new_sel.
Proof.
  intros Hn Hmg. revert heap temp sel Hn. induction n as [|n IH]; intros heap temp sel Hn Hg.
  { destruct heap; [|cbn in Hn; lia]. exists [], temp, []. rewrite app_nil_r. split; [done|]. apply select_post_nil. }
  cbn [select]. destruct (heap_pop heap) as [[ptx rest]|] eqn:Hpop.
  2:{ apply heap_pop_None in Hpop as ->. exists [], temp, []. rewrite app_nil_r. split; [done|]. apply select_post_nil. }
  destruct (heap_pop_Some _ _ _ Hpop) as [Hperm Hmax].
  assert (Hlen : (length rest ≤ n)%nat) by (apply Permutation_length in Hperm; cbn in Hperm; lia).
  rewrite Hperm in Hg. apply Forall_cons in Hg as [Hgp Hgr]. rewrite length_fmap.
  destruct ((mc <=? _) || (mg <=? _)) eqn:Hstop.
  { exists rest, (ptx :: temp), []. rewrite app_nil_r. split; [done|]. apply select_post_stop; [done|].
    apply orb_true_iff in Hstop as [?|?]; clean_ints; tauto. }
  apply orb_false_iff in Hstop as [Hs1 Hs2]. clean_ints. destruct (_ <=? mg) eqn:Hfit; clean_ints.
  - case_bool_decide as Hlive.
    + assert (Hgas : gas_of (tx <$> sel) + ptx.(tx).(gas_limit) ≤ mg) by (unfold saturating_add in Hfit; lia).
      replace (saturating_add U64_MAX _ _) with (gas_of (tx <$> (sel ++ [ptx])))
        by (rewrite gas_of_snoc; unfold saturating_add; lia).
      replace ((tx <$> sel) ++ [ptx.(tx)]) with (tx <$> (sel ++ [ptx])) by by rewrite fmap_app.
      destruct (IH rest temp (sel ++ [ptx]) Hlen Hgr) as (h' & t' & ns & Hsel & Hpost).
      exists h', t', (ptx :: ns). rewrite <- app_assoc in Hsel. split; [exact Hsel|]. by eapply select_post_take.
    + destruct (IH rest temp sel Hlen Hgr) as (h' & t' & ns & Hsel & Hpost).
      exists h', t', ns. split; [exact Hsel|]. by eapply select_post_drop.
  - destruct (IH rest (ptx :: temp) sel Hlen Hgr) as (h' & t' & ns & Hsel & Hpost).
    exists h', t', ns. split; [exact Hsel|]. eapply select_post_skip; try done. unfold saturating_add in Hfit. lia.
Qed.

(** ** The invariant of the pool *)

Section invariant.
(** The transactions that are ever submitted. *)
Context (submitted : Transaction → Prop).

Record pool_inv (p : Mempool) : Prop := {
  pi_tx : ∀ h t, p.(by_hash) !! h = Some t →
    submitted t ∧ hash t = h ∧ admissible t p = Ok tt ∧ h ∈ default ∅ (p.(by_sender) !! t.(sender));
  pi_filed : ∀ s h, h ∈ default ∅ (p.(by_sender) !! s) → ∃ t, submitted t ∧ hash t = h ∧ t.(sender) = s;
  pi_unique : ∀ h h' t t', p.(by_hash) !! h = Some t → p.(by_hash) !! h' = Some t' →
    t.(sender) = t'.(sender) → t.(tx_nonce) = t'.(tx_nonce) → h = h';
  pi_pending : ∀ x, x ∈ p.(pending) → admissible x.(tx) p = Ok tt;
  pi_queued : ∀ s q n e, p.(queued) !! s = Some q → q !! n = Some e →
    admissible e.1 p = Ok tt ∧ e.1.(sender) = s ∧ e.1.(tx_nonce) = n
}.

(** [p'] holds no transaction that [p] does not, and files what it holds. *)
Record shrinks (p p' : Mempool) : Prop := {
  sh_chain : p'.(expected_chain_id) = p.(expected_chain_id);
  sh_fees : p'.(fee_params) = p.(fee_params);
  sh_hash : p'.(by_hash) ⊆ p.(by_hash);
  sh_sender : ∀ h t, p'.(by_hash) !! h = Some t →
    h ∈ default ∅ (p.(by_sender) !! t.(sender)) → h ∈ default ∅ (p'.(by_sender) !! t.(sender));
  sh_filed : ∀ s h, h ∈ default ∅ (p'.(by_sender) !! s) → h ∈ default ∅ (p.(by_sender) !! s);
  sh_pending : ∀ x, x ∈ p'.(pending) → (∃ y, y ∈ p.(pending) ∧ y.(tx) = x.(tx)) ∨
    ∃ s q n e, p.(queued) !! s = Some q ∧ q !! n = Some e ∧ e.1 = x.(tx);
  sh_queued : ∀ s q n e, p'.(queued) !! s = Some q → q !! n = Some e →
    ∃ q', p.(queued) !! s = Some q' ∧ q' !! n = Some e
}.

Lemma shrinks_refl p : shrinks p p.
Proof. constructor; eauto. Qed.

Lemma shrinks_trans p1 p2 p3 : shrinks p1 p2 → shrinks p2 p3 → shrinks p1 p3.
Proof.
  intros [A1 A2 A3 A4 A0 A5 A6] [B1 B2 B3 B4 B0 B5 B6]. constructor; [congruence|congruence|by etransitivity| |eauto| |].
  - intros h t Hh Hin. apply B4, A4; try done. by eapply lookup_weaken.
  - intros x Hx. destruct (B5 x Hx) as [(y & Hy & <-)|(s & q & n & e & Hs & Hn & <-)]; [by apply A5|].
    right. destruct (A6 _ _ _ _ Hs Hn) as (q' & ? & ?). by exists s, q', n, e.
  - intros s q n e Hs Hn. destruct (B6 _ _ _ _ Hs Hn) as (q' & Hs' & Hn'). by eapply A6.
Qed.

#[global] Instance shrinks_preorder : PreOrder shrinks.
Proof. split; [exact shrinks_refl|exact shrinks_trans]. Qed.

Lemma shrinks_admissible p p' t : shrinks p p' → admissible t p' = admissible t p.
Proof. intros Hs. unfold admissible. by rewrite (sh_chain _ _ Hs), (sh_fees _ _ Hs). Qed.

Lemma shrinks_inv p p' : shrinks p p' → pool_inv p → pool_inv p'.
Proof.
  intros Hs Hi. constructor.
  - intros h t Hh. rewrite (shrinks_admissible _ _ _ Hs). pose proof (lookup_weaken _ _ _ _ Hh (sh_hash _ _ Hs)) as Hh'.
    destruct (pi_tx _ Hi h t Hh') as (? & ? & ? & ?). split_and!; [done..|]. by apply (sh_sender _ _ Hs).
  - intros s h Hin. by apply (pi_filed _ Hi), (sh_filed _ _ Hs).
  - intros h h' t t' Hh Hh'. apply (pi_unique _ Hi); by eapply lookup_weaken, (sh_hash _ _ Hs).
  - intros x Hx. rewrite (shrinks_admissible _ _ _ Hs).
    destruct (sh_pending _ _ Hs x Hx) as [(y & Hy & <-)|(s & q & n & e & Hq & Hn & <-)];
      [by apply (pi_pending _ Hi)|by destruct (pi_queued _ Hi _ _ _ _ Hq Hn)].
  - intros s q n e Hq Hn. rewrite (shrinks_admissible _ _ _ Hs).
    destruct (sh_queued _ _ Hs _ _ _ _ Hq Hn) as (q' & ? & ?). by eapply (pi_queued _ Hi).
Qed.

(** The elementary updates. *)
Lemma shrinks_forget s h p : shrinks p (forget_sender s h (set_by_hash (delete h p.(by_hash)) p)).
Proof.
  constructor; cbn; try done; [apply delete_subseteq| | |eauto|eauto]; cycle 1.
  { intros s' h'. rewrite lookup_alter. case_decide as Hd; [|done]. subst s'. destruct (p.(by_sender) !! s); cbn; [|done].
    by intros [? _]%elem_of_difference. }
  intros h' t [Hne Hh]%lookup_delete_Some Hin. destruct (decide (t.(sender) = s)) as [Hs|Hs]; [|by rewrite lookup_alter_ne].
  rewrite Hs in *. rewrite lookup_alter_eq. destruct (p.(by_sender) !! s); cbn in *; [|done].
  apply elem_of_difference. rewrite elem_of_singleton. by split.
Qed.

Lemma shrinks_pending l p :
  (∀ x, x ∈ l → x ∈ p.(pending)) → shrinks p (set_pending l p).
Proof. intros Hl. constructor; cbn; eauto 6. Qed.

Lemma shrinks_queued qs p :
  (∀ s q n e, qs !! s = Some q → q !! n = Some e → ∃ q', p.(queued) !! s = Some q' ∧ q' !! n = Some e) →
  shrinks p (set_queued qs p).
Proof. intros Hl. constructor; cbn; eauto 6. Qed.

Lemma shrinks_other p p' :
  p'.(expected_chain_id) = p.(expected_chain_id) → p'.(fee_params) = p.(fee_params) → p'.(by_hash) = p.(by_hash) →
  p'.(by_sender) = p.(by_sender) → p'.(pending) = p.(pending) → p'.(queued) = p.(queued) → shrinks p p'.
Proof. intros E1 E2 E3 E4 E5 E6. constructor; rewrite ?E3, ?E4, ?E5, ?E6; eauto. Qed.

Lemma shrinks_queue_delete p s p0 : shrinks p p0 → shrinks p (set_queued (delete s p0.(queued)) p0).
Proof.
  intros Hs. etransitivity; [exact Hs|]. apply shrinks_queued. intros s' q n e [_ ?]%lookup_delete_Some. eauto.
Qed.

Lemma shrinks_foldl {A} (f : Mempool → A → Mempool) l p : (∀ q x, shrinks q (f q x)) → shrinks p (foldl f p l).
Proof. intros Hf. revert p. induction l as [|x l IH]; intros p; [done|]. cbn. etransitivity; [apply Hf|apply IH]. Qed.

(** ** Every operation but the admission shrinks the pool *)

Lemma remove_one_shrinks p h : shrinks p (remove_one p h).
Proof. unfold remove_one. case_match; [apply shrinks_forget|done]. Qed.

Lemma remove_transactions_shrinks hs p : shrinks p (remove_transactions hs p).
Proof.
  unfold remove_transactions, rebuild_heap. etransitivity.
  - apply (shrinks_foldl remove_one), remove_one_shrinks.
  - apply shrinks_pending. by intros x [? ?]%list_elem_of_filter.
Qed.

Lemma expire_shrinks p : shrinks p (expire_old_transactions p).
Proof.
  unfold expire_old_transactions. set (p1 := set_queued _ p). assert (Hs : shrinks p p1).
  { apply shrinks_queued. intros s q n e [Hq _]%map_lookup_filter_Some Hn. apply lookup_fmap_Some in Hq as (q' & <- & Hq').
    apply map_lookup_filter_Some in Hn as [Hn _]. eauto. }
  case_bool_decide; [done|]. etransitivity; [exact Hs|apply remove_transactions_shrinks].
Qed.

Lemma set_current_slot_shrinks slot p : shrinks p (set_current_slot slot p).
Proof. unfold set_current_slot. etransitivity; [|apply expire_shrinks]. by apply shrinks_other. Qed.

Lemma set_sender_nonce_shrinks s n p : shrinks p (set_sender_nonce s n p).
Proof. by apply shrinks_other. Qed.

Lemma advance_sender_nonce_shrinks s n p : shrinks p (advance_sender_nonce s n p).
Proof. unfold advance_sender_nonce. case_match; [apply set_sender_nonce_shrinks|done]. Qed.

Lemma select_incl n bh mc mg heap temp sel g :
  ∀ x, x ∈ (select n bh mc mg heap temp sel g).1.1 ∨ x ∈ (select n bh mc mg heap temp sel g).1.2 → x ∈ heap ∨ x ∈ temp.
Proof.
  revert heap temp sel g. induction n as [|n IH]; intros heap temp sel g x; cbn [select]; [done|].
  destruct (heap_pop heap) as [[ptx rest]|] eqn:Hpop; [|done].
  destruct (heap_pop_Some _ _ _ Hpop) as [Hp _].
  assert (Hcons : x ∈ rest ∨ x ∈ ptx :: temp → x ∈ heap ∨ x ∈ temp) by (rewrite Hp, !elem_of_cons; tauto).
  assert (Hrest : x ∈ rest ∨ x ∈ temp → x ∈ heap ∨ x ∈ temp) by (rewrite Hp, !elem_of_cons; tauto).
  repeat case_match; first [done|intros Hx%IH; auto].
Qed.

Lemma get_transactions_shrinks c g p : shrinks p (get_transactions c g p).1.
Proof.
  unfold get_transactions. pose proof (select_incl (length p.(pending)) p.(by_hash) c g p.(pending) [] [] 0) as Hi.
  destruct (select _ _ _ _ _ _ _ _) as [[heap temp] sel]. cbn in *. apply shrinks_pending.
  intros x Hx%elem_of_app. destruct (Hi x) as [?|?%elem_of_nil]; tauto.
Qed.

Lemma clean_queue_shrinks s p : shrinks p (clean_queue s p).
Proof. unfold clean_queue. case_bool_decide; [by apply shrinks_queue_delete|done]. Qed.

(** Moving a queued transaction to the heap. *)
Lemma add_to_pending_frame t p :
  (add_to_pending t p).(expected_chain_id) = p.(expected_chain_id) ∧ (add_to_pending t p).(fee_params) = p.(fee_params) ∧
  (add_to_pending t p).(by_hash) = p.(by_hash) ∧ (add_to_pending t p).(by_sender) = p.(by_sender) ∧
  (add_to_pending t p).(queued) = p.(queued) ∧
  ∃ x, (add_to_pending t p).(pending) = x :: p.(pending) ∧ x.(tx) = t.
Proof. unfold add_to_pending. repeat case_match; cbn; split_and!; try done; by eexists. Qed.

Lemma promote_one_shrinks s n t slot q p :
  p.(queued) !! s = Some q → q !! n = Some (t, slot) →
  shrinks p (add_to_pending t (set_queued (alter (λ q, delete n q) s p.(queued)) p)).
Proof.
  intros Hs Hn. set (p0 := set_queued _ p). destruct (add_to_pending_frame t p0) as (E1 & E2 & E3 & E4 & E5 & x & E6 & Ex).
  constructor; rewrite ?E1, ?E2, ?E3, ?E4, ?E5, ?E6; cbn; try done.
  - intros y [->|Hy]%elem_of_cons; [right; exists s, q, n, (t, slot); by rewrite Ex|left; eauto].
  - intros s' q' n' e. destruct (decide (s' = s)) as [->|Hne].
    + rewrite lookup_alter_eq, Hs. cbn. intros [= <-] [_ ?]%lookup_delete_Some. eauto.
    + rewrite lookup_alter_ne by done. eauto.
Qed.

Lemma promote_sender_shrinks n s p : shrinks p (promote_sender n s p).
Proof.
  revert p. induction n as [|n IH]; intros p; [done|]. cbn [promote_sender]. cbv zeta.
  destruct (p.(queued) !! s) as [q|] eqn:Hs; cbn [default from_option id]; [|rewrite lookup_empty; reflexivity].
  destruct (q !! expected_nonce p s) as [[t slot]|] eqn:Hn; [|done].
  etransitivity; [by eapply promote_one_shrinks|]. etransitivity; [apply clean_queue_shrinks|apply IH].
Qed.

Lemma promote_queued_shrinks p : shrinks p (promote_queued p).
Proof. unfold promote_queued. apply (shrinks_foldl (λ p s, promote_sender (promote_rounds p s) s p)). intros q s. apply promote_sender_shrinks. Qed.

Lemma evict_shrinks p : shrinks p (evict_lowest_fee p).
Proof.
  unfold evict_lowest_fee. destruct (worst_queued p) as [[[s n] f]|].
  - destruct (p.(queued) !! s) as [nonces|] eqn:Hs; [|done]. cbn zeta.
    set (p1 := match nonces !! n with Some _ => _ | None => _ end).
    assert (Hp1 : shrinks p p1) by (unfold p1; destruct (nonces !! n) as [[t slot]|]; [apply shrinks_forget|done]).
    assert (Hq : p1.(queued) = p.(queued)) by (unfold p1; by destruct (nonces !! n) as [[t slot]|]).
    case_bool_decide; [by apply shrinks_queue_delete|]. etransitivity; [exact Hp1|]. apply shrinks_queued. rewrite Hq.
    intros s' q n' e. rewrite lookup_insert. case_decide as Hc; [|eauto].
    subst s'. intros [= <-] [_ ?]%lookup_delete_Some. eauto.
  - destruct (last (merge_sort prio_rel p.(pending))) as [lowest|] eqn:Hl; [|done]. cbn zeta.
    etransitivity; [apply (shrinks_forget lowest.(tx).(sender) (hash lowest.(tx)))|]. apply shrinks_pending.
    intros x Hx. cbn. rewrite <- (merge_sort_Permutation prio_rel p.(pending)).
    apply last_Some in Hl as [l' Hl]. rewrite Hl in *. rewrite removelast_last in Hx. apply elem_of_app. by left.
Qed.

Lemma check_rate_limit_shrinks now s p : shrinks p (check_rate_limit now s p).1.
Proof. apply shrinks_other; unfold check_rate_limit; run; done. Qed.

(** ** Admission *)

Definition no_rival (t : Transaction) (p : Mempool) : Prop :=
  ∀ h t', p.(by_hash) !! h = Some t' → t'.(sender) = t.(sender) → t'.(tx_nonce) = t.(tx_nonce) → False.

Lemma no_rival_shrinks t p p' : shrinks p p' → no_rival t p → no_rival t p'.
Proof. intros Hs Hn h t' Hh. eapply Hn, lookup_weaken, (sh_hash _ _ Hs). exact Hh. Qed.

Lemma same_nonce_None t p : pool_inv p → same_nonce_hash t p = None → no_rival t p.
Proof.
  intros Hi He h t' Hh Hs Hn. destruct (pi_tx _ Hi h t' Hh) as (_ & _ & _ & Hin). rewrite Hs in Hin.
  unfold same_nonce_hash in He. destruct (p.(by_sender) !! t.(sender)) as [hs|] eqn:Ehs; [|by apply elem_of_empty in Hin].
  cbn in He, Hin. apply head_None in He. eapply elem_of_nil. rewrite <- He. apply list_elem_of_filter.
  split; [|by apply elem_of_hash_elements]. rewrite Hh. cbn. by apply Z.eqb_eq.
Qed.

Lemma same_nonce_Some t p h : pool_inv p → same_nonce_hash t p = Some h →
  h ∈ default ∅ (p.(by_sender) !! t.(sender)) ∧ ∃ t', p.(by_hash) !! h = Some t' ∧ t'.(tx_nonce) = t.(tx_nonce).
Proof.
  intros Hi He. unfold same_nonce_hash in He. destruct (p.(by_sender) !! t.(sender)) as [hs|]; [|done].
  cbn in He. apply head_Some in He as [l He]. assert (Hin : h ∈ h :: l) by left. rewrite <- He in Hin.
  apply list_elem_of_filter in Hin as [Hin Hhs%elem_of_hash_elements]. split; [done|].
  destruct (p.(by_hash) !! h) as [t'|]; [|done]. exists t'. split; [done|]. cbn in Hin. by apply Z.eqb_eq.
Qed.

Definition distinct_hashes : Prop :=
  ∀ t t', submitted t → submitted t' → hash t = hash t' → t.(sender) = t'.(sender).

Lemma replace_by_fee_spec t p :
  distinct_hashes → pool_inv p →
  shrinks p (replace_by_fee t p).1 ∧ ((replace_by_fee t p).2 = Ok tt → no_rival t (replace_by_fee t p).1).
Proof.
  intros Hd Hi. unfold replace_by_fee. unfold_M. destruct (same_nonce_hash t p) as [old_hash|] eqn:He.
  2:{ split; [done|]. intros _. by apply same_nonce_None. }
  destruct (same_nonce_Some _ _ _ Hi He) as (Hin & old & Hold & Hn). rewrite Hold.
  destruct (pi_tx _ Hi _ _ Hold) as (Hu & Hh & _). destruct (pi_filed _ Hi _ _ Hin) as (t0 & Hu0 & Hh0 & Hs0).
  assert (Hsnd : old.(sender) = t.(sender)) by (rewrite <- Hs0; apply Hd; congruence).
  set (p1 := forget_sender t.(sender) old_hash (set_by_hash (delete old_hash p.(by_hash)) p)).
  assert (Hp1 : shrinks p p1) by apply shrinks_forget.
  assert (Hno : no_rival t p1).
  { intros h t' Hh' Hs' Hn'. cbn in Hh'. apply lookup_delete_Some in Hh' as [Hne Hh']. apply Hne. eapply (pi_unique _ Hi); [exact Hold|exact Hh'|congruence..]. }
  destruct (t.(fee) <=? _); [by split|]. cbn. fold p1. split; intros; destruct (_ <? _); try done.
  all: etransitivity; [exact Hp1|]; by apply shrinks_other.
Qed.

Lemma untrack_shrinks t h p : shrinks p (untrack t h p).
Proof.
  unfold untrack. set (p1 := forget_sender _ _ _). assert (Hp1 : shrinks p p1) by apply shrinks_forget.
  clearbody p1. case_bool_decide as Hb; [|done]. etransitivity; [exact Hp1|]. constructor; cbn; try done; try (by eauto).
  - intros h' t' _ Hin. rewrite lookup_delete. case_decide as Hd; [|done]. rewrite <- Hd, Hb in Hin. set_solver.
  - intros s h'. rewrite lookup_delete. case_decide as Hd; [|done]. intros Hin. cbn in Hin. by apply elem_of_empty in Hin.
Qed.

Lemma track_inv t p :
  pool_inv p → submitted t → admissible t p = Ok tt → p.(by_hash) !! hash t = None → no_rival t p →
  pool_inv (track t (hash t) p).
Proof.
  intros Hi Hu Ha Hnone Hno. destruct Hi as [I1 I2 I3 I4 I5]. constructor; unfold track; cbn; try done.
  - intros h t'. rewrite lookup_insert. case_decide as Hd.
    + intros [= <-]. split_and!; [done..|]. rewrite lookup_insert_eq. cbn. set_solver.
    + intros Hh. destruct (I1 _ _ Hh) as (? & ? & ? & Hin). split_and!; [done..|].
      rewrite lookup_insert. case_decide as Hs; cbn; [|done]. rewrite Hs. set_solver.
  - intros s h. rewrite lookup_insert. case_decide as Hs; [|eauto]. subst s. cbn.
    intros [->%elem_of_singleton|Hin]%elem_of_union; [by exists t|eauto].
  - intros h h' t1 t2. rewrite !lookup_insert. repeat case_decide; subst; try done.
    + intros [= <-] Hh Hs Hn. exfalso. by eapply Hno.
    + intros Hh [= <-] Hs Hn. exfalso. by eapply Hno.
    + eauto.
Qed.

Lemma add_to_pending_inv t p : admissible t p = Ok tt → pool_inv p → pool_inv (add_to_pending t p).
Proof.
  intros Ha [I1 I2 I3 I4 I5]. destruct (add_to_pending_frame t p) as (E1 & E2 & E3 & E4 & E5 & x & E6 & Ex).
  assert (Ead : ∀ t', admissible t' (add_to_pending t p) = admissible t' p) by (intros t'; unfold admissible; by rewrite E1, E2).
  constructor; rewrite ?E3, ?E4, ?E5, ?E6; try done; intros *; rewrite ?Ead; eauto.
  intros [->|Hy]%elem_of_cons; [by rewrite Ex|eauto].
Qed.

Lemma queue_insert_inv t slot p :
  admissible t p = Ok tt → pool_inv p →
  pool_inv (set_queued (<[t.(sender) := <[t.(tx_nonce) := (t, slot)]> (default ∅ (p.(queued) !! t.(sender)))]> p.(queued)) p).
Proof.
  intros Ha [I1 I2 I3 I4 I5]. constructor; cbn; try done. intros s q n' e. rewrite lookup_insert. case_decide as Hs; [|eauto].
  subst s. intros [= <-]. rewrite lookup_insert. case_decide; [by intros [= <-]|].
  destruct (p.(queued) !! t.(sender)) eqn:E; cbn; [eauto|].
  by rewrite lookup_empty.
Qed.

Lemma shrinks_or_default s p : shrinks p (set_queued (<[s := default ∅ (p.(queued) !! s)]> p.(queued)) p).
Proof.
  apply shrinks_queued. intros s' q n e. rewrite lookup_insert. case_decide as Hs; [|eauto]. subst s'. intros [= <-].
  destruct (p.(queued) !! s) as [q'|]; cbn; [eauto|]. by rewrite lookup_empty.
Qed.

Lemma enqueue_inv t h expected p :
  admissible t p = Ok tt → pool_inv p → pool_inv (enqueue t h expected p).1.
Proof.
  intros Ha Hi. unfold enqueue. unfold_M. destruct (MAX_NONCE_GAP <? _); [apply (shrinks_inv _ _ (untrack_shrinks t h p) Hi)|].
  set (p1 := set_queued (<[t.(sender) := default ∅ (p.(queued) !! t.(sender))]> p.(queued)) p).
  assert (Hp1 : shrinks p p1) by apply shrinks_or_default.
  assert (Hi1 : pool_inv p1) by by eapply shrinks_inv.
  assert (Eq : default ∅ (p1.(queued) !! t.(sender)) = default ∅ (p.(queued) !! t.(sender))) by (cbn; by rewrite lookup_insert_eq).
  destruct (_ <=? _)%nat; [apply (shrinks_inv _ _ (untrack_shrinks t h p1) Hi1)|]. cbn [fst]. rewrite <- Eq.
  apply queue_insert_inv; [|done]. by rewrite (shrinks_admissible _ _ _ Hp1).
Qed.

Lemma add_transaction_inv now t p :
  distinct_hashes → submitted t → pool_inv p → pool_inv (add_transaction now t p).1.
Proof.
  intros Hd Hu Hi. unfold add_transaction. unfold_M. destruct (admissible t p) as [[]|] eqn:Ha; [|done].
  pose proof (check_rate_limit_shrinks now t.(sender) p) as Hs1. destruct (check_rate_limit now t.(sender) p) as [p1 [[]|]] eqn:Er;
    [|by apply (shrinks_inv _ _ Hs1)]. cbn [fst] in Hs1.
  case_bool_decide as Hdup; [by apply (shrinks_inv _ _ Hs1)|].
  pose proof (shrinks_inv _ _ Hs1 Hi) as Hi1. destruct (replace_by_fee_spec t p1 Hd Hi1) as [Hs2 Hno].
  destruct (replace_by_fee t p1) as [p2 [[]|]]; [|by apply (shrinks_inv _ _ Hs2)]. cbn [fst snd] in *. specialize (Hno eq_refl).
  set (p3 := if (_ <=? _)%nat then evict_lowest_fee p2 else p2).
  assert (Hs3 : shrinks p2 p3) by (unfold p3; case_match; [apply evict_shrinks|done]).
  assert (Hs : shrinks p p3) by (etransitivity; [exact Hs1|]; by etransitivity).
  destruct (t.(tx_nonce) <? expected_nonce p3 t.(sender)); [by apply (shrinks_inv _ _ Hs)|].
  assert (Hfresh : p3.(by_hash) !! hash t = None).
  { apply eq_None_not_Some. intros [t' Ht']. apply Hdup. exists t'. eapply lookup_weaken; [exact Ht'|].
    etransitivity; [apply (sh_hash _ _ Hs3)|apply (sh_hash _ _ Hs2)]. }
  assert (Ht : pool_inv (track t (hash t) p3)).
  { apply track_inv; [by apply (shrinks_inv _ _ Hs)|done|by rewrite (shrinks_admissible _ _ _ Hs)|done|].
    by apply (no_rival_shrinks _ _ _ Hs3). }
  assert (Ha' : admissible t (track t (hash t) p3) = Ok tt) by (rewrite <- Ha, <- (shrinks_admissible _ _ _ Hs); done).
  destruct (_ =? _); cbn [fst]; [|by apply enqueue_inv].
  eapply shrinks_inv; [apply promote_queued_shrinks|by apply add_to_pending_inv].
Qed.

Lemma readd_inv txs p :
  distinct_hashes → Forall (λ e, submitted e.2) txs → pool_inv p → pool_inv (readd txs p).
Proof.
  intros Hd Hf. revert p. induction Hf as [|[now t] txs Hu _ IH]; intros p Hi; [done|]. cbn. by apply IH, add_transaction_inv.
Qed.

Lemma reorg_inv txs tips p :
  distinct_hashes → Forall (λ e, submitted e.2) txs → pool_inv p → pool_inv (reorg txs tips p).
Proof.
  intros Hd Hf Hi. apply readd_inv; [done..|]. set (p1 := remove_transactions _ _).
  eapply (shrinks_inv p1); [by apply shrinks_other|]. eapply shrinks_inv, Hi.
  etransitivity; [|apply remove_transactions_shrinks].
  apply shrinks_other; reflexivity.
Qed.

(** What the node and the network do to the pool. *)
Inductive pool_step (p : Mempool) : Mempool → Prop :=
  | step_add now t : submitted t → pool_step p (add_transaction now t p).1
  | step_remove hs : pool_step p (remove_transactions hs p)
  | step_slot slot : pool_step p (set_current_slot slot p)
  | step_nonce s n : pool_step p (set_sender_nonce s n p)
  | step_advance s n : pool_step p (advance_sender_nonce s n p)
  | step_promote : pool_step p (promote_queued p)
  | step_select c g : pool_step p (get_transactions c g p).1
  | step_reorg txs tips : Forall (λ e, submitted e.2) txs → pool_step p (reorg txs tips p).

Lemma pool_step_inv p p' : distinct_hashes → pool_step p p' → pool_inv p → pool_inv p'.
Proof.
  intros Hd Hs Hi. destruct Hs; [by apply add_transaction_inv| | | | | | |by apply reorg_inv].
  all: eapply shrinks_inv, Hi; auto using remove_transactions_shrinks, set_current_slot_shrinks,
    set_sender_nonce_shrinks, advance_sender_nonce_shrinks, promote_queued_shrinks, get_transactions_shrinks.
Qed.

Lemma new_inv fees chain : pool_inv (new fees chain).
Proof. constructor; cbn; intros *; rewrite ?lookup_empty; try done; by intros ?%elem_of_nil. Qed.

Lemma reachable_inv fees chain p : distinct_hashes → rtc pool_step (new fees chain) p → pool_inv p.
Proof.
  intros Hd Hr. pose proof (new_inv fees chain) as Hi. induction Hr as [|p q r Hs _ IH]; [done|]. by eapply IH, pool_step_inv.
Qed.
End invariant.

Definition gas_in_range (p : Mempool) : Prop := Forall (λ x, 0 ≤ x.(tx).(gas_limit)) p.(pending).

Lemma get_transactions_spec c g p :
  0 ≤ c → 0 ≤ g < U64_MAX → gas_in_range p →
  ∃ chosen stale,
    let '(p', sel) := get_transactions c g p in
    sel = tx <$> chosen ∧ p.(pending) ≡ₚ chosen ++ stale ++ p'.(pending) ∧
    Forall (live p.(by_hash)) chosen ∧ Forall (λ x, ¬ live p.(by_hash) x) stale ∧
    StronglySorted prio_rel chosen ∧ Z.of_nat (length sel) ≤ c ∧ gas_of sel ≤ g ∧
    Forall (left_out c g sel) p'.(pending).
Proof.
  intros Hc Hg Hr. unfold get_transactions.
  destruct (select_spec (length p.(pending)) p.(by_hash) c g p.(pending) [] [] ltac:(done) ltac:(lia) Hr) as (h' & t' & ns & Hsel & Hpost).
  change (gas_of (tx <$> [])) with 0 in Hsel. change (tx <$> []) with (@nil Transaction) in Hsel. rewrite Hsel.
  destruct Hpost as [P1 P2 P3 P4 (dr & P5 & P6) P7 P8]. rewrite app_nil_l in *. rewrite app_nil_r in P5.
  exists ns, dr. split_and!; [done| |done|done|done| | |].
  - cbn. by rewrite P5, (Permutation_app_comm h').
  - rewrite length_fmap. destruct P3 as [?| ->]; [done|cbn; lia].
  - destruct P4 as [?| ->]; [done|cbn; lia].
  - apply Forall_forall. intros x Hx. cbn in Hx. destruct (P8 x) as [?%elem_of_nil|?]; [set_solver|done..].
Qed.

(** ** Promotion terminates *)

Lemma clean_queue_default s p : default ∅ ((clean_queue s p).(queued) !! s) = default ∅ (p.(queued) !! s).
Proof. unfold clean_queue. case_bool_decide as Hb; [|done]. cbn. by rewrite lookup_delete_eq, Hb. Qed.

Lemma promote_sender_fixpoint n s p :
  (promote_rounds p s ≤ n)%nat →
  promote_sender n s p = promote_sender (promote_rounds p s) s p ∧
  default ∅ ((promote_sender n s p).(queued) !! s) !! expected_nonce (promote_sender n s p) s = None.
Proof.
  remember (size (default ∅ (p.(queued) !! s))) as k eqn:Hk. unfold promote_rounds. revert n p Hk.
  induction k as [|k IH]; intros n p Hk; rewrite <- Hk; intros Hn; (destruct n as [|n]; [lia|]); cbn [promote_sender]; cbv zeta.
  { symmetry in Hk. apply map_size_empty_inv in Hk. rewrite Hk, lookup_empty. by rewrite Hk, lookup_empty. }
  destruct (default ∅ (p.(queued) !! s) !! expected_nonce p s) as [[t slot]|] eqn:Hq; [|done].
  set (p1 := clean_queue s _).
  assert (Hd : default ∅ (p1.(queued) !! s) = delete (expected_nonce p s) (default ∅ (p.(queued) !! s))).
  { unfold p1. rewrite clean_queue_default. destruct (add_to_pending_frame t (set_queued (alter (λ q, delete (expected_nonce p s) q) s p.(queued)) p)) as (_ & _ & _ & _ & E & _).
    rewrite E. cbn. rewrite lookup_alter_eq. destruct (p.(queued) !! s); cbn; [done|]. by rewrite delete_empty. }
  assert (Hk1 : k = size (default ∅ (p1.(queued) !! s))) by (rewrite Hd, map_size_delete, Hq, <- Hk; lia).
  pose proof (IH n p1 Hk1) as IHn. rewrite <- Hk1 in IHn. destruct (IHn ltac:(lia)) as [E ?]. split; [|done]. exact E.
Qed.

(** The queue of a sender holds its own transactions. *)
Definition queue_keys (p : Mempool) : Prop :=
  ∀ s q n e, p.(queued) !! s = Some q → q !! n = Some e → e.1.(sender) = s.

Lemma queue_keys_shrinks p p' : shrinks p p' → queue_keys p → queue_keys p'.
Proof. intros Hs Hk s q n e Hq Hn. destruct (sh_queued _ _ Hs _ _ _ _ Hq Hn) as (q' & ? & ?). by eapply Hk. Qed.

Definition promotable (p : Mempool) (s : Address) : Prop := is_Some (default ∅ (p.(queued) !! s) !! expected_nonce p s).

Lemma clean_queue_other s s' p : s ≠ s' → (clean_queue s p).(queued) !! s' = p.(queued) !! s' ∧
  expected_nonce (clean_queue s p) s' = expected_nonce p s'.
Proof. intros Hne. unfold clean_queue. case_bool_decide; [|done]. cbn. by rewrite lookup_delete_ne. Qed.

Lemma add_to_pending_other t s' p : t.(sender) ≠ s' → expected_nonce (add_to_pending t p) s' = expected_nonce p s'.
Proof. intros Hne. unfold add_to_pending, expected_nonce. repeat case_match; cbn; by rewrite ?lookup_insert_ne. Qed.

Lemma promote_sender_other n s s' p :
  queue_keys p → s ≠ s' →
  (promote_sender n s p).(queued) !! s' = p.(queued) !! s' ∧
  expected_nonce (promote_sender n s p) s' = expected_nonce p s'.
Proof.
  intros Hk Hne. revert p Hk. induction n as [|n IH]; intros p Hk; [done|]. cbn [promote_sender]. cbv zeta.
  destruct (p.(queued) !! s) as [q|] eqn:Hs; cbn [default from_option id]; [|by rewrite lookup_empty].
  destruct (q !! expected_nonce p s) as [[t slot]|] eqn:Hn; [|done].
  pose proof (Hk _ _ _ _ Hs Hn) as Hsnd. cbn in Hsnd.
  set (p0 := set_queued _ p). set (p1 := add_to_pending t p0).
  assert (Hp1 : shrinks p p1) by by eapply promote_one_shrinks.
  destruct (IH (clean_queue s p1)) as [E1 E2].
  { by eapply queue_keys_shrinks, queue_keys_shrinks; [apply clean_queue_shrinks|exact Hp1|]. }
  destruct (clean_queue_other s s' p1 Hne) as [E3 E4]. destruct (add_to_pending_frame t p0) as (_ & _ & _ & _ & E5 & _).
  rewrite E1, E2, E3, E4. unfold p1. rewrite E5, add_to_pending_other by congruence. cbn. by rewrite lookup_alter_ne.
Qed.

Lemma promote_list_spec l p :
  queue_keys p → ∀ s, s ∈ l ∨ ¬ promotable p s →
  ¬ promotable (foldl (λ p s, promote_sender (promote_rounds p s) s p) p l) s.
Proof.
  revert p. induction l as [|s0 l IH]; intros p Hk s Hs; cbn [foldl]; [by destruct Hs as [?%elem_of_nil|]|].
  set (p1 := promote_sender (promote_rounds p s0) s0 p). apply IH; [by eapply queue_keys_shrinks; [apply promote_sender_shrinks|]|].
  destruct (decide (s = s0)) as [->|Hne].
  - right. destruct (promote_sender_fixpoint (promote_rounds p s0) s0 p ltac:(done)) as [_ E]. unfold promotable. unfold p1.
    rewrite E. by intros [? [=]].
  - destruct Hs as [[?|?]%elem_of_cons|Hs]; [done|by left|]. right. unfold promotable, p1.
    destruct (promote_sender_other (promote_rounds p s0) s0 s p Hk (not_eq_sym Hne)) as [-> ->]. exact Hs.
Qed.

Lemma promote_queued_spec p s : queue_keys p → ¬ promotable (promote_queued p) s.
Proof.
  intros Hk. apply promote_list_spec; [done|]. destruct (p.(queued) !! s) as [q|] eqn:E.
  - left. apply list_elem_of_fmap. exists (s, q). split; [done|]. by apply elem_of_hash_iter.
  - right. unfold promotable. rewrite E. cbn. rewrite lookup_empty. by intros [? [=]].
Qed.

(** Every transaction that a reachable pool holds is signed by its sender, for
    the chain of the pool and pays the minimum fee, is filed under its own hash
    and sender, and no sender has two transactions with the same nonce,
    whatever operations (submissions, replacements, evictions, expiry, blocks,
    reorganisations) led to the pool. *)
Theorem pool_invariant (submitted : Transaction → Prop) fees chain p
    (Hd : distinct_hashes submitted) (Hr : rtc (pool_step submitted) (new fees chain) p) :
  (∀ h t, p.(by_hash) !! h = Some t →
     hash t = h ∧ admissible t p = Ok tt ∧ h ∈ default ∅ (p.(by_sender) !! t.(sender))) ∧
  (∀ h h' t t', p.(by_hash) !! h = Some t → p.(by_hash) !! h' = Some t' →
     t.(sender) = t'.(sender) → t.(tx_nonce) = t'.(tx_nonce) → h = h').
Proof.
  destruct (reachable_inv submitted fees chain p Hd Hr) as [I1 _ I3 _ _]. split; [|exact I3].
  intros h t Hh. destruct (I1 h t Hh) as (_ & ? & ? & ?). done.
Qed.

(** Block building: a reachable pool offers at most [c] admissible
    transactions of at most [g] gas in total, all still held by the pool, in
    descending order of fee rate, and the choice is greedy: what stays in the
    pool does not fit, and nothing but dead heap entries is dropped. *)
Theorem selection_sound (submitted : Transaction → Prop) fees chain p c g
    (Hd : distinct_hashes submitted) (Hr : rtc (pool_step submitted) (new fees chain) p)
    (Hc : 0 ≤ c) (Hg : 0 ≤ g < U64_MAX) (Hgas : gas_in_range p) :
  ∃ chosen stale,
    let '(p', sel) := get_transactions c g p in
    sel = tx <$> chosen ∧ Forall (λ t, admissible t p = Ok tt) sel ∧
    p.(pending) ≡ₚ chosen ++ stale ++ p'.(pending) ∧
    Forall (live p.(by_hash)) chosen ∧ Forall (λ x, ¬ live p.(by_hash) x) stale ∧
    StronglySorted prio_rel chosen ∧ Z.of_nat (length sel) ≤ c ∧ gas_of sel ≤ g ∧
    Forall (left_out c g sel) p'.(pending).
Proof.
  pose proof (reachable_inv submitted fees chain p Hd Hr) as Hi.
  destruct (get_transactions_spec c g p Hc Hg Hgas) as (chosen & stale & Hspec). exists chosen, stale.
  destruct (get_transactions c g p) as [p' sel]. destruct Hspec as (E & Hp & ?). split_and!; try tauto.
  rewrite E. apply Forall_fmap, Forall_forall. intros x Hx. apply (pi_pending _ _ Hi). rewrite Hp. set_solver.
Qed.

(** Promotion terminates and is complete: the loop of a sender runs at most
    once per queued transaction (more rounds change nothing), and after
    [promote_queued] on a reachable pool no sender has its next nonce waiting
    in the queue. *)
Theorem promotion_terminates (submitted : Transaction → Prop) fees chain p
    (Hd : distinct_hashes submitted) (Hr : rtc (pool_step submitted) (new fees chain) p) :
  (∀ n s, (promote_rounds p s ≤ n)%nat → promote_sender n s p = promote_sender (promote_rounds p s) s p) ∧
  ∀ s, default ∅ ((promote_queued p).(queued) !! s) !! expected_nonce (promote_queued p) s = None.
Proof.
  pose proof (reachable_inv submitted fees chain p Hd Hr) as Hi. split.
  - intros n s Hn. by destruct (promote_sender_fixpoint n s p Hn).
  - intros s. apply eq_None_not_Some, (promote_queued_spec p s). intros s' q n e Hq Hn. by destruct (pi_queued _ _ Hi _ _ _ _ Hq Hn) as (_ & ? & _).
Qed.

End pool.
End Mempool.

(** ** Concrete runs *)

From S2P Require Import Toy.

#[global] Program Instance toy_heap : HeapOrder := { heap_iter _ l := l }.
Next Obligation. done. Qed.

Module MempoolDemo.
Import Mempool.

Definition key_a : list Z := replicate 32 1.
Definition addr_a : Address := key_address key_a.
Definition tx_of (nonce fee : Z) : Transaction :=
  toy_sign key_a (mkTx nonce 1 addr_a key_a [] [] [] [] None [] 21000 fee []).

Definition t0 : Transaction := tx_of 0 100000.
Definition t0' : Transaction := tx_of 0 120000.
Definition t1 : Transaction := tx_of 1 500000.
Definition t2 : Transaction := tx_of 2 500000.

Definition empty_pool : Mempool := new (mkFeeParams 0 0 0) 1.
Definition pool2 : Mempool := readd [(0, t0); (0, t1)] empty_pool.
Definition replaced : Mempool := readd [(0, t0); (0, t1); (0, t0')] empty_pool.

Definition submitted : Transaction → Prop := λ t, t ∈ [t0; t1; t0'].

Lemma submitted_distinct : distinct_hashes submitted.
Proof.
  intros t t' Ht Ht' _. unfold submitted in *. rewrite !elem_of_cons, elem_of_nil in *.
  by destruct Ht as [->|[->|[->|[]]]]; destruct Ht' as [->|[->|[->|[]]]].
Qed.

Lemma readd_reachable txs p : Forall (λ e, submitted e.2) txs → rtc (pool_step submitted) p (readd txs p).
Proof.
  intros Hf. revert p. induction Hf as [|[now t] txs Ht _ IH]; intros p; [done|].
  eapply rtc_l; [by apply (step_add _ _ now t)|apply IH].
Qed.

Lemma replaced_reachable : rtc (pool_step submitted) (new (mkFeeParams 0 0 0) 1) replaced.
Proof. apply readd_reachable. unfold submitted. repeat constructor; set_solver. Qed.

Lemma pool_invariant_witness :
  replaced.(by_hash) !! hash t0' = Some t0' ∧ hash t0' ∈ default ∅ (replaced.(by_sender) !! addr_a).
Proof.
  assert (E : replaced.(by_hash) !! hash t0' = Some t0') by by vm_compute. split; [exact E|].
  destruct (pool_invariant submitted _ _ replaced submitted_distinct replaced_reachable) as [Hall _].
  destruct (Hall _ _ E) as (_ & _ & Hin). exact Hin.
Defined.

Lemma replaced_gas : gas_in_range replaced.
Proof.
  apply (Forall_impl (λ x, 0 <=? x.(tx).(gas_limit))).
  - apply forallb_True. by vm_compute.
  - intros x Hx%Is_true_true. lia.
Qed.

(** The replaced transaction is still in the heap and is dropped; the other two
    are selected, the one of the higher nonce first. *)
Lemma selection_sound_witness :
  (get_transactions 10 100000 replaced).2 = [t1; t0'] ∧ length replaced.(pending) = 3%nat ∧
  ∃ chosen stale, let '(p', sel) := get_transactions 10 100000 replaced in
    sel = tx <$> chosen ∧ replaced.(pending) ≡ₚ chosen ++ stale ++ p'.(pending).
Proof.
  split_and!; [by vm_compute..|].
  destruct (selection_sound submitted _ _ replaced 10 100000 submitted_distinct replaced_reachable
    ltac:(lia) ltac:(ulia) replaced_gas) as (chosen & stale & Hs).
  exists chosen, stale. destruct (get_transactions 10 100000 replaced) as [p' sel]. destruct Hs as (E & _ & Hp & _). by split.
Defined.

Lemma promotion_terminates_witness :
  expected_nonce (promote_queued replaced) addr_a = 1 ∧
  default ∅ ((promote_queued replaced).(queued) !! addr_a) !! expected_nonce (promote_queued replaced) addr_a = None.
Proof.
  split; [by vm_compute|].
  destruct (promotion_terminates submitted _ _ replaced submitted_distinct replaced_reachable) as [_ Hall]. apply Hall.
Defined.

(** ** What the runs show *)

(** A transaction that was replaced by fee is still in the heap, and
    [must_include_transactions], which does not look at [by_hash], forces it
    into the block beside its replacement. *)
Theorem replaced_transaction_is_forced :
  replaced.(by_hash) !! hash t0 = None ∧ must_include_transactions replaced 10 1000 = [t0'; t1; t0].
Proof. split; by vm_compute. Qed.

(** Selection orders by fee rate only: the transaction with nonce 1 comes
    before the one with nonce 0 of the same sender. *)
Lemma selection_ignores_nonces : tx_nonce <$> (get_transactions 10 100000 pool2).2 = [1; 0].
Proof. by vm_compute. Qed.

(** Selected transactions leave the heap but stay in [by_hash]: if the block is
    not produced they are never selected again, cannot be submitted again, and
    do not expire. *)
Theorem selected_transaction_is_stuck :
  let p := set_current_slot 100000 (get_transactions 10 100000 pool2).1 in
  (get_transactions 10 100000 p).2 = [] ∧ p.(by_hash) !! hash t0 = Some t0 ∧
  (add_transaction 0 t0 p).2 = Err (Msg "duplicate transaction").
Proof. cbv zeta. split_and!; by vm_compute. Qed.

(** Replacing the transaction with nonce 0 rolls the next nonce back to 1 while
    nonce 1 is already in the heap: nonce 2 is then held back as a gap, and no
    promotion reaches it. *)
Lemma replacement_blocks_later_nonces :
  let p := promote_queued (add_transaction 0 t2 replaced).1 in
  p.(by_hash) !! hash t2 = Some t2 ∧ (default ∅ (p.(queued) !! addr_a)) !! 2 = Some (t2, 0) ∧
  expected_nonce p addr_a = 1.
Proof. cbv zeta. split_and!; by vm_compute. Qed.
End MempoolDemo.
