(* ===== verification/ForkChoice.v ===== *)
(** * Fork choice and feature gates

    [crates/node/src/fork_choice.rs] and [crates/node/src/feature_gates.rs].
    Hashes are compared as bytes, most significant first, which is the order
    of the numbers. *)

From S2P Require Import Prelude.

Module ForkChoice.

Definition MAX_CANDIDATES_PER_SLOT : nat := 16.

Record ForkChoice := mkForkChoice {
  candidates : gmap Z (list H256);
  canonical : gmap Z H256;
  finalized : gmap Z H256;
  committed : gset Z
}.

Definition new : ForkChoice := mkForkChoice ∅ ∅ ∅ ∅.

Definition candidates_for (f : ForkChoice) (slot : Z) : list H256 := default [] (f.(candidates) !! slot).

(** [or_default] leaves an empty entry only until the push. *)
Definition add_block (slot : Z) (h : H256) (f : ForkChoice) : ForkChoice * bool :=
  if bool_decide (is_Some (f.(finalized) !! slot)) || bool_decide (slot ∈ f.(committed)) then (f, false) else
  let cs := candidates_for f slot in
  let f := mkForkChoice (<[slot := cs]> f.(candidates)) f.(canonical) f.(finalized) f.(committed) in
  if bool_decide (h ∈ cs) then (f, false) else
  if (MAX_CANDIDATES_PER_SLOT <=? length cs)%nat then (f, false) else
  let is_fork := negb (bool_decide (cs = [])) in
  let canonical' := match f.(canonical) !! slot with
                    | None => <[slot := h]> f.(canonical)
                    | Some e => if (h <? e)%N then <[slot := h]> f.(canonical) else f.(canonical)
                    end in
  (mkForkChoice (<[slot := cs ++ [h]]> f.(candidates)) canonical' f.(finalized) f.(committed), is_fork).

Definition canonical_block (f : ForkChoice) (slot : Z) : option H256 :=
  match f.(finalized) !! slot with Some h => Some h | None => f.(canonical) !! slot end.

Definition finalize (slot : Z) (h : H256) (f : ForkChoice) : ForkChoice * bool :=
  if bool_decide (h ∈ candidates_for f slot) || bool_decide (f.(canonical) !! slot = Some h) then
    (mkForkChoice f.(candidates) (<[slot := h]> f.(canonical)) (<[slot := h]> f.(finalized)) f.(committed), true)
  else (f, false).

Definition has_fork (f : ForkChoice) (slot : Z) : bool := (1 <? length (candidates_for f slot))%nat.
Definition is_finalized (f : ForkChoice) (slot : Z) : bool := bool_decide (is_Some (f.(finalized) !! slot)).
Definition mark_committed (slot : Z) (f : ForkChoice) : ForkChoice :=
  mkForkChoice f.(candidates) f.(canonical) f.(finalized) ({[slot]} ∪ f.(committed)).
Definition prune_before (min_slot : Z) (f : ForkChoice) : ForkChoice :=
  mkForkChoice (filter (λ e, min_slot ≤ e.1) f.(candidates)) (filter (λ e, min_slot ≤ e.1) f.(canonical))
    (filter (λ e, min_slot ≤ e.1) f.(finalized)) (filter (λ s, min_slot ≤ s) f.(committed)).

(** ** The canonical block is the least candidate *)

Definition least (cs : list H256) : option H256 :=
  foldl (λ m h, Some (from_option (N.min h) h m)) None cs.

Lemma least_snoc cs h : least (cs ++ [h]) = Some (from_option (N.min h) h (least cs)).
Proof. unfold least. by rewrite foldl_snoc. Qed.

Lemma least_nil cs : least cs = None ↔ cs = [].
Proof. induction cs as [|h cs _] using rev_ind; [done|]. rewrite least_snoc. split; [done|]. by intros [_ [=]]%app_nil. Qed.

Lemma least_perm cs cs' : cs ≡ₚ cs' → least cs = least cs'.
Proof.
  unfold least. generalize (None : option H256). intros m Hp. revert m.
  induction Hp as [|x l l' _ IH|x y l|l1 l2 l3 _ IH1 _ IH2]; intros m; cbn; [done|apply IH| |by rewrite IH1, IH2].
  f_equal. destruct m as [m|]; cbn; f_equal; lia.
Qed.

Lemma least_elem cs h : least cs = Some h → h ∈ cs ∧ ∀ h', h' ∈ cs → (h ≤ h')%N.
Proof.
  revert h. induction cs as [|x cs IH] using rev_ind; [done|]. intros h. rewrite least_snoc. intros [= <-].
  destruct (least cs) as [m|] eqn:E; cbn.
  - destruct (IH m eq_refl) as [Hin Hall]. split.
    + rewrite elem_of_app, list_elem_of_singleton. destruct (N.min_spec x m) as [[_ ->]|[_ ->]]; auto.
    + intros h' [Hh'|Hh']%elem_of_app; [specialize (Hall h' Hh'); lia|]. apply list_elem_of_singleton in Hh'. lia.
  - apply least_nil in E as ->. split; [by left|]. intros h' Hh'%list_elem_of_singleton. lia.
Qed.

(** While a slot is not finalized its canonical block is the least candidate;
    at most sixteen candidates are held, without repetition. *)
Record fork_inv (f : ForkChoice) : Prop := {
  fi_least : ∀ s, f.(finalized) !! s = None → f.(canonical) !! s = least (candidates_for f s);
  fi_nodup : ∀ s, NoDup (candidates_for f s) ∧ (length (candidates_for f s) ≤ MAX_CANDIDATES_PER_SLOT)%nat;
  fi_final : ∀ s h, f.(finalized) !! s = Some h → h ∈ candidates_for f s ∧ f.(canonical) !! s = Some h
}.

Lemma candidates_for_insert f s s' cs can fin com :
  candidates_for (mkForkChoice (<[s := cs]> f.(candidates)) can fin com) s' = if decide (s = s') then cs else candidates_for f s'.
Proof. unfold candidates_for. cbn. rewrite lookup_insert. by case_decide. Qed.

Lemma touch_inv f s :
  fork_inv f → fork_inv (mkForkChoice (<[s := candidates_for f s]> f.(candidates)) f.(canonical) f.(finalized) f.(committed)).
Proof.
  intros [F1 F2 F3]. constructor; intros s'; rewrite !candidates_for_insert; case_decide; subst; cbn; eauto.
Qed.

Lemma least_min cs h : least (cs ++ [h]) =
  match least cs with None => Some h | Some e => Some (if (h <? e)%N then h else e) end.
Proof.
  rewrite least_snoc. destruct (least cs) as [e|]; cbn; [|done]. f_equal. destruct (N.ltb_spec h e); lia.
Qed.

Lemma add_block_inv s h f : fork_inv f → fork_inv (add_block s h f).1.
Proof.
  intros Hi. unfold add_block. destruct (_ || _) eqn:Hg; [done|]. apply orb_false_iff in Hg as [Hfin _].
  apply bool_decide_eq_false, eq_None_not_Some in Hfin. cbv zeta.
  case_bool_decide as Hin; [by apply touch_inv|]. destruct (_ <=? _)%nat eqn:Hlen; [by apply touch_inv|].
  apply Nat.leb_gt in Hlen. destruct Hi as [F1 F2 F3]. cbn -[candidates_for MAX_CANDIDATES_PER_SLOT]. rewrite insert_insert_eq.
  constructor; intros s'; rewrite !candidates_for_insert; cbn -[MAX_CANDIDATES_PER_SLOT].
  - intros Hf. case_decide as Hs; [subst s'|].
    + rewrite least_min, <- (F1 s Hf). destruct (f.(canonical) !! s) as [e|] eqn:Ec; [|by rewrite lookup_insert_eq].
      destruct (h <? e)%N; [by rewrite lookup_insert_eq|done].
    + rewrite <- F1 by done. destruct (f.(canonical) !! s) as [e|]; [destruct (h <? e)%N|]; rewrite ?lookup_insert_ne; done.
  - case_decide as Hs; [|done]. destruct (F2 s) as [Hn Hl]. split.
    + apply NoDup_app. split_and!; [done| |apply NoDup_singleton]. intros x Hx ->%list_elem_of_singleton. done.
    + rewrite length_app. cbn -[MAX_CANDIDATES_PER_SLOT]. lia.
  - intros h' Hf. case_decide as Hs; [congruence|]. destruct (F3 s' h' Hf) as [? Ec]. split; [done|].
    destruct (f.(canonical) !! s) as [e|]; [destruct (h <? e)%N|]; rewrite ?lookup_insert_ne; done.
Qed.

Lemma canonical_candidate f s h : fork_inv f → f.(canonical) !! s = Some h → h ∈ candidates_for f s.
Proof.
  intros [F1 _ F3] Hc. destruct (f.(finalized) !! s) as [h'|] eqn:Ef.
  - destruct (F3 s h' Ef). congruence.
  - rewrite (F1 s Ef) in Hc. by destruct (least_elem _ _ Hc).
Qed.

Lemma finalize_inv s h f : fork_inv f → fork_inv (finalize s h f).1.
Proof.
  intros Hi. unfold finalize. destruct (_ || _) eqn:Hg; [|done].
  assert (Hin : h ∈ candidates_for f s).
  { apply orb_true_iff in Hg as [Hb|Hb]; apply bool_decide_eq_true in Hb; [done|]. by apply canonical_candidate. }
  destruct Hi as [F1 F2 F3]. constructor; unfold candidates_for; cbn; intros s'.
  - intros [? ?]%lookup_insert_None. rewrite lookup_insert_ne by done. by apply F1.
  - apply F2.
  - intros h' [[<- <-]|[Hne Hf]]%lookup_insert_Some; [by rewrite lookup_insert_eq|]. rewrite lookup_insert_ne by done. by apply F3.
Qed.

Lemma filter_slot_lookup {A} (m : gmap Z A) min_slot s :
  filter (λ e : Z * A, min_slot ≤ e.1) m !! s = if decide (min_slot ≤ s) then m !! s else None.
Proof.
  apply option_eq. intros x. rewrite map_lookup_filter_Some. case_decide; cbn; naive_solver.
Qed.

Lemma prune_before_inv min_slot f : fork_inv f → fork_inv (prune_before min_slot f).
Proof.
  intros [F1 F2 F3]. constructor; unfold candidates_for; cbn; intros s; rewrite !filter_slot_lookup; case_decide; try done.
  - apply F1.
  - apply F2.
  - cbn. split; [constructor|]. unfold MAX_CANDIDATES_PER_SLOT. lia.
  - apply F3.
Qed.

Lemma mark_committed_inv s f : fork_inv f → fork_inv (mark_committed s f).
Proof. by intros []. Qed.

Lemma fork_new_inv : fork_inv new.
Proof. constructor; unfold candidates_for; cbn; intros s; rewrite ?lookup_empty; [done|split; [constructor|unfold MAX_CANDIDATES_PER_SLOT; cbn; lia]|done]. Qed.

Inductive fork_step (f : ForkChoice) : ForkChoice → Prop :=
  | fork_add s h : fork_step f (add_block s h f).1
  | fork_finalize s h : fork_step f (finalize s h f).1
  | fork_commit s : fork_step f (mark_committed s f)
  | fork_prune s : fork_step f (prune_before s f).

Lemma fork_step_inv f f' : fork_step f f' → fork_inv f → fork_inv f'.
Proof. destruct 1; auto using add_block_inv, finalize_inv, mark_committed_inv, prune_before_inv. Qed.

Lemma reachable_fork_inv f : rtc fork_step new f → fork_inv f.
Proof. pose proof fork_new_inv as Hi. induction 1; eauto using fork_step_inv. Qed.

(** ** The choice does not depend on the order of arrival *)

Definition add_all (l : list (Z * H256)) (f : ForkChoice) : ForkChoice := foldl (λ f b, (add_block b.1 b.2 f).1) f l.
Definition blocks_of (s : Z) (l : list (Z * H256)) : list H256 := snd <$> filter (λ b, b.1 = s) l.

Lemma blocks_of_snoc s l b : blocks_of s (l ++ [b]) = if decide (b.1 = s) then blocks_of s l ++ [b.2] else blocks_of s l.
Proof. unfold blocks_of. rewrite filter_app, fmap_app, filter_cons. case_decide; cbn; [done|by rewrite app_nil_r]. Qed.

Lemma add_block_candidates s h f s' :
  f.(finalized) = ∅ → f.(committed) = ∅ →
  candidates_for (add_block s h f).1 s' =
    if decide (s = s' ∧ h ∉ candidates_for f s ∧ (length (candidates_for f s) < MAX_CANDIDATES_PER_SLOT)%nat)
    then candidates_for f s' ++ [h] else candidates_for f s'.
Proof.
  intros Hf Hc. unfold add_block. rewrite Hf, lookup_empty, Hc, (bool_decide_eq_false_2 (s ∈ (∅ : gset Z))) by set_solver.
  cbn -[MAX_CANDIDATES_PER_SLOT candidates_for].
  case_bool_decide as Hin; [|destruct (_ <=? _)%nat eqn:Hl; [apply Nat.leb_le in Hl|apply Nat.leb_gt in Hl]];
    cbn [fst candidates canonical finalized committed]; rewrite ?insert_insert_eq, !candidates_for_insert; repeat case_decide; subst; try done; naive_solver lia.
Qed.

Lemma add_all_frame l f :
  f.(finalized) = ∅ → f.(committed) = ∅ → (add_all l f).(finalized) = ∅ ∧ (add_all l f).(committed) = ∅.
Proof.
  revert f. induction l as [|[s h] l IH]; intros f Hf Hc; [done|]. cbn. apply IH; unfold add_block; repeat case_match; done.
Qed.

Lemma add_all_inv l : fork_inv (add_all l new).
Proof.
  assert (Hgen : ∀ f, fork_inv f → fork_inv (add_all l f)); [|apply Hgen, fork_new_inv].
  induction l as [|[s h] l IH]; intros f Hi; [done|]. cbn. by apply IH, add_block_inv.
Qed.

Lemma add_all_candidates s l h :
  (size (list_to_set (blocks_of s l) : gset H256) ≤ MAX_CANDIDATES_PER_SLOT)%nat →
  h ∈ candidates_for (add_all l new) s ↔ h ∈ blocks_of s l.
Proof.
  revert h. induction l as [|[s' h'] l IH] using rev_ind; intros h; [done|]. unfold add_all. rewrite foldl_snoc, blocks_of_snoc.
  fold (add_all l new). cbn [fst snd]. destruct (add_all_frame l new eq_refl eq_refl) as [Hf Hc].
  rewrite add_block_candidates by done. destruct (decide (s' = s)) as [->|Hne]; intros Hsz.
  2:{ rewrite decide_False by tauto. by apply IH. }
  rewrite list_to_set_app_L in Hsz.
  assert (Hsz' : (size (list_to_set (blocks_of s l) : gset H256) ≤ MAX_CANDIDATES_PER_SLOT)%nat).
  { etransitivity; [|exact Hsz]. apply subseteq_size. set_solver. }
  pose proof (λ h, IH h Hsz') as IH'. rewrite elem_of_app, list_elem_of_singleton.
  destruct (decide (h' ∈ candidates_for (add_all l new) s)) as [Hin|Hin].
  { rewrite decide_False by tauto. rewrite IH'. apply IH' in Hin. naive_solver. }
  rewrite decide_True; [by rewrite elem_of_app, list_elem_of_singleton, IH'|]. split_and!; [done..|].
  destruct (fi_nodup _ (add_all_inv l) s) as [Hnd _]. rewrite <- (size_list_to_set (C:=gset H256) _ Hnd).
  assert (E : list_to_set (candidates_for (add_all l new) s) = (list_to_set (blocks_of s l) : gset H256)) by set_solver.
  rewrite E. rewrite IH' in Hin. rewrite size_union in Hsz by set_solver. cbn in Hsz.
  rewrite union_empty_r_L, size_singleton in Hsz. lia.
Qed.

Lemma least_ext cs cs' : (∀ h, h ∈ cs ↔ h ∈ cs') → least cs = least cs'.
Proof.
  intros He. destruct (least cs) as [h|] eqn:E, (least cs') as [h'|] eqn:E'; [| | |done].
  - destruct (least_elem _ _ E) as [H1 H2], (least_elem _ _ E') as [H3 H4]. f_equal.
    pose proof (H2 h' (proj2 (He h') H3)). pose proof (H4 h (proj1 (He h) H1)). lia.
  - apply least_nil in E' as ->. destruct (least_elem _ _ E) as [H1 _]. by apply He, elem_of_nil in H1.
  - apply least_nil in E as ->. destruct (least_elem _ _ E') as [H1 _]. by apply He, elem_of_nil in H1.
Qed.

Lemma add_all_canonical s l :
  (size (list_to_set (blocks_of s l) : gset H256) ≤ MAX_CANDIDATES_PER_SLOT)%nat →
  canonical_block (add_all l new) s = least (blocks_of s l).
Proof.
  intros Hsz. destruct (add_all_frame l new eq_refl eq_refl) as [Hf _]. unfold canonical_block.
  rewrite Hf, lookup_empty, (fi_least _ (add_all_inv l)) by by rewrite Hf. apply least_ext. intros h. by apply add_all_candidates.
Qed.

(** Nodes that receive the same blocks in any order, repetitions included,
    choose the same block for a slot, the one with the least hash, as long as
    the slot has no more competing blocks than a node keeps. *)
Theorem canonical_order_independent s l l'
    (Hsame : ∀ b, b ∈ l ↔ b ∈ l')
    (Hmax : (size (list_to_set (blocks_of s l) : gset H256) ≤ MAX_CANDIDATES_PER_SLOT)%nat) :
  canonical_block (add_all l new) s = least (blocks_of s l) ∧
  canonical_block (add_all l' new) s = canonical_block (add_all l new) s.
Proof.
  assert (Hb : ∀ h, h ∈ blocks_of s l ↔ h ∈ blocks_of s l').
  { intros h. unfold blocks_of. rewrite !list_elem_of_fmap. setoid_rewrite list_elem_of_filter. by setoid_rewrite Hsame. }
  assert (Hmax' : (size (list_to_set (blocks_of s l') : gset H256) ≤ MAX_CANDIDATES_PER_SLOT)%nat).
  { etransitivity; [|exact Hmax]. apply subseteq_size. set_solver. }
  rewrite !add_all_canonical by done. split; [done|]. apply least_ext. intros h. by rewrite Hb.
Qed.

Lemma canonical_order_independent_witness :
  canonical_block (add_all [(1, 7%N); (2, 3%N); (1, 5%N); (1, 7%N)] new) 1 = Some 5%N ∧
  canonical_block (add_all [(1, 5%N); (1, 7%N); (2, 3%N)] new) 1 =
  canonical_block (add_all [(1, 7%N); (2, 3%N); (1, 5%N); (1, 7%N)] new) 1.
Proof.
  split; [by vm_compute|].
  apply (canonical_order_independent 1 [(1, 7%N); (2, 3%N); (1, 5%N); (1, 7%N)] [(1, 5%N); (1, 7%N); (2, 3%N)]).
  - intros b. set_solver.
  - vm_compute. lia.
Defined.

(** With more than sixteen candidates the order decides. *)
Lemma too_many_candidates_depend_on_order :
  let seventeen := (λ h, (1, N.of_nat h)) <$> seq 1 17 in
  canonical_block (add_all seventeen new) 1 = Some 1%N ∧
  canonical_block (add_all (reverse seventeen) new) 1 = Some 2%N.
Proof. split; by vm_compute. Qed.

(** Once a slot is committed its canonical block changes only when another
    candidate of the slot is finalized, or the slot is pruned. *)
Theorem committed_block_locked f f' s h
    (Hr : rtc fork_step new f) (Hs : fork_step f f') (Hc : s ∈ f.(committed)) (Hh : canonical_block f s = Some h) :
  (s ∈ f'.(committed) ∧ canonical_block f' s = Some h) ∨
  (∃ h', f' = (finalize s h' f).1 ∧ h' ≠ h ∧ h' ∈ candidates_for f s) ∨
  (∃ m, f' = prune_before m f ∧ s < m).
Proof.
  pose proof (reachable_fork_inv f Hr) as Hi. destruct Hs as [s' h'|s' h'|s'|m].
  - left. unfold add_block. destruct (_ || _) eqn:Hg; [done|]. apply orb_false_iff in Hg as [_ Hg%bool_decide_eq_false].
    cbv zeta. assert (Hne : s ≠ s') by congruence. unfold canonical_block in *.
    case_bool_decide; [done|]. destruct (_ <=? _)%nat; [done|]. cbn. split; [done|].
    destruct (f.(finalized) !! s); [done|]. destruct (f.(canonical) !! s') as [e|]; [destruct (h' <? e)%N|];
      rewrite ?lookup_insert_ne; done.
  - unfold finalize. destruct (_ || _) eqn:Hg; [|by left]. destruct (decide (s = s')) as [<-|Hne].
    + destruct (decide (h' = h)) as [->|Hh'].
      * left. split; [done|]. unfold canonical_block. cbn. by rewrite lookup_insert_eq.
      * right; left. exists h'. rewrite Hg. split_and!; [done..|].
        apply orb_true_iff in Hg as [Hb|Hb]; apply bool_decide_eq_true in Hb; [done|by apply canonical_candidate].
    + left. split; [done|]. unfold canonical_block in *. cbn. by rewrite !lookup_insert_ne.
  - left. cbn. split; [set_solver|done].
  - destruct (decide (s < m)) as [Hm|Hm]; [right; right; eauto|left]. split; [cbn; apply elem_of_filter; split; [lia|done]|].
    unfold canonical_block in *. cbn. rewrite !filter_slot_lookup. case_decide; [done|lia].
Qed.

Definition locked_fork : ForkChoice := mark_committed 1 (add_block 1 7 new).1.

Lemma committed_block_locked_witness :
  canonical_block (add_block 1 5 locked_fork).1 1 = Some 7%N.
Proof.
  destruct (committed_block_locked locked_fork (add_block 1 5 locked_fork).1 1 7) as [[_ Hl]|[(h' & E & _ & _)|(m & E & _)]].
  - eapply rtc_l; [apply (fork_add _ 1 7)|]. eapply rtc_l; [apply (fork_commit _ 1)|]. done.
  - apply fork_add.
  - by vm_compute.
  - by vm_compute.
  - exact Hl.
  - by vm_compute.
  - by vm_compute.
Defined.

(** A finalized block is not immutable: a second call replaces it by another
    candidate. *)
Lemma finalize_overwrites :
  let f := add_all [(1, 5%N); (1, 7%N)] new in
  canonical_block (finalize 1 5 f).1 1 = Some 5%N ∧ canonical_block (finalize 1 7 (finalize 1 5 f).1).1 1 = Some 7%N.
Proof. split; by vm_compute. Qed.
End ForkChoice.

(** ** Feature gates *)

Module FeatureGates.

Record FeatureGateRegistry := mkGates { gates : gmap string Z }.

Definition new : FeatureGateRegistry := mkGates ∅.
Definition schedule (feature : string) (activation_slot : Z) (r : FeatureGateRegistry) : FeatureGateRegistry :=
  mkGates (<[feature := activation_slot]> r.(gates)).
Definition is_active (r : FeatureGateRegistry) (feature : string) (current_slot : Z) : bool :=
  from_option (λ activation, activation <=? current_slot) false (r.(gates) !! feature).
Definition activation_slot (r : FeatureGateRegistry) (feature : string) : option Z := r.(gates) !! feature.
Definition active_count (r : FeatureGateRegistry) (current_slot : Z) : nat :=
  size (filter (λ g, g.2 ≤ current_slot) r.(gates)).

(** A feature that is active stays active. *)
Lemma is_active_mono r feature s s' : s ≤ s' → is_active r feature s = true → is_active r feature s' = true.
Proof. unfold is_active. destruct (r.(gates) !! feature); cbn; [lia|done]. Qed.

Lemma active_count_spec r s : active_count r s = size (filter (λ g, is_active r g.1 s = true) r.(gates)).
Proof.
  unfold active_count. f_equal. apply map_filter_ext. intros f a Ha. cbn. unfold is_active. rewrite Ha. cbn. lia.
Qed.
End FeatureGates.
