(* ===== verification/Block.v ===== *)
(** * Blocks

    [crates/types/src/block.rs]: blocks, aggregated votes and slash evidence.
    The encoding of a header and of a block is that of [bincode]. *)

From S2P Require Import Prelude.
From S2P Require Import Consensus.
From S2P Require Import Transaction.

Definition PROTOCOL_VERSION : Z := 1.

Record SlashVote := mkSlashVote {
  sv_slot : Z;
  sv_block_hash : H256;
  sv_validator : Address;
  sv_validator_pubkey : list Z;
  sv_signature : list Z
}.

Inductive SlashEvidenceType := EvDoubleSign | EvSurroundVote.

Record SlashEvidence := mkEvidence {
  ev_validator : Address;
  ev_slash_rate_bps : Z;
  ev_reason : string;
  ev_vote1 : option SlashVote;
  ev_vote2 : option SlashVote;
  evidence_type : option SlashEvidenceType
}.

Record AggregatedVote := mkAggVote {
  av_slot : Z;
  av_block_hash : H256;
  aggregated_signature : list Z;
  signers : list (list Z);
  av_total_stake : Z
}.

Record Block := mkBlock {
  header : BlockHeader;
  transactions : list Transaction;
  aggregated_vote : option AggregatedVote;
  slash_evidence : list SlashEvidence
}.

(** [bincode] on headers, blocks and receipts: decoding inverts encoding. *)
Class BlockCodec := {
  ser_header : BlockHeader → list Z;
  ser_block : Block → list Z;
  de_block : list Z → result error Block;
  ser_receipt : TransactionReceipt → list Z;
  de_receipt : list Z → result error TransactionReceipt;
  de_ser_block : ∀ b, de_block (ser_block b) = Ok b;
  de_ser_receipt : ∀ r, de_receipt (ser_receipt r) = Ok r
}.

Definition block_hash `{Digest, BlockCodec} (b : Block) : H256 := sha256_digest (ser_header b.(header)).

(** [Block::new], at the time [now] in seconds. *)
Definition block_new (now slot : Z) (parent : H256) (proposer : Address) (vrf : VrfProof) (txs : list Transaction) : Block :=
  mkBlock (mkBlockHeader PROTOCOL_VERSION slot parent 0 0 0 proposer vrf now) txs None [].
