(* ===== verification/ToyBlock.v ===== *)
(** * Concrete block encodings

    An executable instance of the encodings of blocks and receipts, for the
    concrete runs. *)

From S2P Require Import Prelude.
From S2P Require Import Consensus.
From S2P Require Import Transaction.
From S2P Require Import Block.
From S2P Require Import Toy.

#[global] Instance UtxoOutput_eq_dec : EqDecision UtxoOutput.
Proof. solve_decision. Defined.
#[global] Instance UtxoOutput_countable : Countable UtxoOutput.
Proof.
  apply (inj_countable' (λ u, (u.(out_amount), u.(out_owner), u.(out_script_hash))) (λ '(a, o, s), mkUtxoOutput a o s)). by intros [].
Defined.
#[global] Instance Transaction_eq_dec : EqDecision Transaction.
Proof. solve_decision. Defined.
#[global] Instance Transaction_countable : Countable Transaction.
Proof.
  apply (inj_countable (λ t, [encode t.(tx_nonce); encode t.(chain_id); encode t.(sender); encode t.(sender_pubkey); encode t.(inputs); encode t.(outputs); encode t.(tx_reads); encode t.(tx_writes); encode t.(program_id); encode t.(data); encode t.(gas_limit); encode t.(fee); encode t.(signature)])
    (λ l, match l with
      | [x0; x1; x2; x3; x4; x5; x6; x7; x8; x9; x10; x11; x12] =>
        x0 ← decode x0;
        x1 ← decode x1;
        x2 ← decode x2;
        x3 ← decode x3;
        x4 ← decode x4;
        x5 ← decode x5;
        x6 ← decode x6;
        x7 ← decode x7;
        x8 ← decode x8;
        x9 ← decode x9;
        x10 ← decode x10;
        x11 ← decode x11;
        x12 ← decode x12;
        Some (mkTx x0 x1 x2 x3 x4 x5 x6 x7 x8 x9 x10 x11 x12)
      | _ => None
      end)).
  intros []. cbn. by rewrite !decode_encode.
Defined.
#[global] Instance error_eq_dec : EqDecision error.
Proof. solve_decision. Defined.
#[global] Instance error_countable : Countable error.
Proof.
  apply (inj_countable' (λ e, match e with Msg t => inl t | Fmt t a => inr (t, a) end)
    (λ s, match s with inl t => Msg t | inr (t, a) => Fmt t a end)). by intros [].
Defined.
#[global] Instance TransactionStatus_eq_dec : EqDecision TransactionStatus.
Proof. solve_decision. Defined.
#[global] Instance TransactionStatus_countable : Countable TransactionStatus.
Proof.
  apply (inj_countable' (λ s, match s with Success => None | Failed e => Some e end)
    (λ s, match s with None => Success | Some e => Failed e end)). by intros [].
Defined.
#[global] Instance TransactionReceipt_eq_dec : EqDecision TransactionReceipt.
Proof. solve_decision. Defined.
#[global] Instance TransactionReceipt_countable : Countable TransactionReceipt.
Proof.
  apply (inj_countable (λ r, [encode r.(r_tx_hash); encode r.(r_block_hash); encode r.(r_slot); encode r.(status); encode r.(gas_used); encode r.(r_state_root)])
    (λ l, match l with
      | [x0; x1; x2; x3; x4; x5] =>
        x0 ← decode x0;
        x1 ← decode x1;
        x2 ← decode x2;
        x3 ← decode x3;
        x4 ← decode x4;
        x5 ← decode x5;
        Some (mkReceipt x0 x1 x2 x3 x4 x5)
      | _ => None
      end)).
  intros []. cbn. by rewrite !decode_encode.
Defined.
#[global] Instance VrfProof_eq_dec : EqDecision VrfProof.
Proof. solve_decision. Defined.
#[global] Instance VrfProof_countable : Countable VrfProof.
Proof. apply (inj_countable' (λ v, (v.(vrf_output), v.(vrf_proof_bytes))) (λ '(a, b), mkVrfProof a b)). by intros []. Defined.
#[global] Instance BlockHeader_eq_dec : EqDecision BlockHeader.
Proof. solve_decision. Defined.
#[global] Instance BlockHeader_countable : Countable BlockHeader.
Proof.
  apply (inj_countable (λ h, [encode h.(version); encode h.(header_slot); encode h.(parent_hash); encode h.(state_root); encode h.(transactions_root); encode h.(receipts_root); encode h.(header_proposer); encode h.(vrf_proof); encode h.(header_timestamp)])
    (λ l, match l with
      | [x0; x1; x2; x3; x4; x5; x6; x7; x8] =>
        x0 ← decode x0;
        x1 ← decode x1;
        x2 ← decode x2;
        x3 ← decode x3;
        x4 ← decode x4;
        x5 ← decode x5;
        x6 ← decode x6;
        x7 ← decode x7;
        x8 ← decode x8;
        Some (mkBlockHeader x0 x1 x2 x3 x4 x5 x6 x7 x8)
      | _ => None
      end)).
  intros []. cbn. by rewrite !decode_encode.
Defined.
#[global] Instance SlashVote_eq_dec : EqDecision SlashVote.
Proof. solve_decision. Defined.
#[global] Instance SlashVote_countable : Countable SlashVote.
Proof.
  apply (inj_countable' (λ v, (v.(sv_slot), v.(sv_block_hash), v.(sv_validator), v.(sv_validator_pubkey), v.(sv_signature)))
    (λ '(a, b, c, d, e), mkSlashVote a b c d e)). by intros [].
Defined.
#[global] Instance SlashEvidenceType_eq_dec : EqDecision SlashEvidenceType.
Proof. solve_decision. Defined.
#[global] Instance SlashEvidenceType_countable : Countable SlashEvidenceType.
Proof.
  apply (inj_countable' (λ t, match t with EvDoubleSign => true | EvSurroundVote => false end)
    (λ b : bool, if b then EvDoubleSign else EvSurroundVote)). by intros [].
Defined.
#[global] Instance SlashEvidence_eq_dec : EqDecision SlashEvidence.
Proof. solve_decision. Defined.
#[global] Instance SlashEvidence_countable : Countable SlashEvidence.
Proof.
  apply (inj_countable' (λ e, (e.(ev_validator), e.(ev_slash_rate_bps), e.(ev_reason), e.(ev_vote1), e.(ev_vote2), e.(evidence_type)))
    (λ '(a, b, c, d, e, f), mkEvidence a b c d e f)). by intros [].
Defined.
#[global] Instance AggregatedVote_eq_dec : EqDecision AggregatedVote.
Proof. solve_decision. Defined.
#[global] Instance AggregatedVote_countable : Countable AggregatedVote.
Proof.
  apply (inj_countable' (λ v, (v.(av_slot), v.(av_block_hash), v.(aggregated_signature), v.(signers), v.(av_total_stake)))
    (λ '(a, b, c, d, e), mkAggVote a b c d e)). by intros [].
Defined.
#[global] Instance Block_eq_dec : EqDecision Block.
Proof. solve_decision. Defined.
#[global] Instance Block_countable : Countable Block.
Proof.
  apply (inj_countable (λ b, [encode b.(header); encode b.(transactions); encode b.(aggregated_vote); encode b.(slash_evidence)])
    (λ l, match l with
      | [x0; x1; x2; x3] =>
        x0 ← decode x0;
        x1 ← decode x1;
        x2 ← decode x2;
        x3 ← decode x3;
        Some (mkBlock x0 x1 x2 x3)
      | _ => None
      end)).
  intros []. cbn. by rewrite !decode_encode.
Defined.

#[global] Program Instance toy_blocks : BlockCodec := {
  ser_header h := [h.(version); h.(header_slot); Z.of_N h.(parent_hash); Z.of_N h.(state_root);
                   Z.of_N h.(transactions_root); Z.of_N h.(receipts_root); Z.of_N h.(header_proposer); h.(header_timestamp)];
  ser_block := toy_ser; de_block := toy_de;
  ser_receipt := toy_ser; de_receipt := toy_de
}.
Next Obligation. intros. apply toy_de_ser. Qed.
Next Obligation. intros. apply toy_de_ser. Qed.
