(* ===== verification/Sync.v ===== *)
(** * Block synchronisation

    [crates/node/src/sync.rs]. The clock is an argument, in milliseconds. *)

From S2P Require Import Prelude.
From S2P Require Import Consensus.
From S2P Require Import Transaction.
From S2P Require Import Block.

Module Sync.

Definition MAX_SYNC_BUFFER : nat := 1024.
Definition SYNC_BATCH_SIZE : Z := 64.
Definition STALL_TIMEOUT : Z := 30000.

Inductive SyncState := Synced | Syncing (from_slot target_slot : Z) | Stalled.

Record SyncManager := mkSync {
  state : SyncState;
  sync_threshold : Z;
  sync_buffer : list Block;
  next_expected_slot : Z;
  expected_parent_hash : option H256;
  last_progress : option Z;
  current_batch_end : Z;
  blocks_applied : Z
}.

Definition new (threshold : Z) : SyncManager := mkSync Synced threshold [] 0 None None 0 0.

Definition is_syncing (m : SyncManager) : bool := match m.(state) with Syncing _ _ => true | _ => false end.

Definition set_state x m := mkSync x m.(sync_threshold) m.(sync_buffer) m.(next_expected_slot) m.(expected_parent_hash) m.(last_progress) m.(current_batch_end) m.(blocks_applied).

Definition mark_synced (m : SyncManager) : SyncManager :=
  mkSync Synced m.(sync_threshold) [] m.(next_expected_slot) None m.(last_progress) 0 0.

Definition check_sync_needed (now my_latest_slot network_slot : Z) (m : SyncManager) : SyncManager * bool :=
  if network_slot >? saturating_add U64_MAX my_latest_slot m.(sync_threshold) then
    let m := if is_syncing m then m else
      mkSync m.(state) m.(sync_threshold) m.(sync_buffer) (saturating_add U64_MAX my_latest_slot 1) m.(expected_parent_hash)
        (Some now) 0 0 in
    (set_state (Syncing my_latest_slot network_slot) m, true)
  else (if is_syncing m then mark_synced m else m, false).

Definition buffer_block (now : Z) (b : Block) (m : SyncManager) : SyncManager * bool :=
  if (MAX_SYNC_BUFFER <=? length m.(sync_buffer))%nat then (m, false) else
  (mkSync m.(state) m.(sync_threshold) (m.(sync_buffer) ++ [b]) m.(next_expected_slot) m.(expected_parent_hash) (Some now)
     m.(current_batch_end) m.(blocks_applied), true).

(** [sort_by_key(|b| b.header.slot)], which is stable. *)
Fixpoint insert_sorted (b : Block) (l : list Block) : list Block :=
  match l with
  | [] => [b]
  | b' :: l' => if b.(header).(header_slot) <=? b'.(header).(header_slot) then b :: l else b' :: insert_sorted b l'
  end.
Definition sort_by_slot (l : list Block) : list Block := foldr insert_sorted [] l.

Section sync.
Context `{Digest, BlockCodec}.

(** The block continues the chain of the expected parent. *)
Definition continues (expected : option H256) (b : Block) : bool :=
  match expected with
  | Some e => (b.(header).(parent_hash) =? e)%N || (b.(header).(parent_hash) =? 0)%N
  | None => true
  end.

(** The first loop: the next slot, the expected parent, the ready and the
    remaining blocks. *)
Fixpoint drain (bs : list Block) (next : Z) (expected : option H256) (ready remaining : list Block) :
    Z * option H256 * list Block * list Block :=
  match bs with
  | [] => (next, expected, ready, remaining)
  | b :: bs =>
      if b.(header).(header_slot) =? next then
        if continues expected b
        then drain bs (saturating_add U64_MAX next 1) (Some (block_hash b)) (ready ++ [b]) remaining
        else drain bs next expected ready (remaining ++ [b])
      else if b.(header).(header_slot) >? next then drain bs next expected ready (remaining ++ [b])
      else drain bs next expected ready remaining
  end.

(** The second loop, on the sorted rest. *)
Fixpoint drain_rest (remaining : list Block) (next : Z) (expected : option H256) (ready : list Block) :
    Z * option H256 * list Block * list Block :=
  match remaining with
  | b :: rest =>
      if (b.(header).(header_slot) =? next) && continues expected b
      then drain_rest rest (saturating_add U64_MAX next 1) (Some (block_hash b)) (ready ++ [b])
      else (next, expected, ready, remaining)
  | [] => (next, expected, ready, [])
  end.

Definition drain_ready (m : SyncManager) : SyncManager * list Block :=
  if bool_decide (m.(sync_buffer) = []) then (m, []) else
  let '(next, expected, ready, remaining) :=
    drain (sort_by_slot m.(sync_buffer)) m.(next_expected_slot) m.(expected_parent_hash) [] [] in
  let '(next, expected, ready, remaining) := drain_rest (sort_by_slot remaining) next expected ready in
  (mkSync m.(state) m.(sync_threshold) remaining next expected m.(last_progress) m.(current_batch_end) m.(blocks_applied), ready).
End sync.

(** [from + SYNC_BATCH_SIZE] wraps. *)
Definition next_request (m : SyncManager) : SyncManager * option (Z * Z) :=
  match m.(state) with
  | Syncing _ target =>
      if (m.(next_expected_slot) <=? m.(current_batch_end)) && negb (bool_decide (m.(sync_buffer) = [])) then (m, None) else
      let from := m.(next_expected_slot) in
      if from >? target then (m, None) else
      let to := Z.min (wrapping_add U64_MAX from SYNC_BATCH_SIZE) target in
      (mkSync m.(state) m.(sync_threshold) m.(sync_buffer) m.(next_expected_slot) m.(expected_parent_hash) m.(last_progress)
         to m.(blocks_applied), Some (from, to))
  | _ => (m, None)
  end.

Definition check_stalled (now : Z) (m : SyncManager) : SyncManager * bool :=
  match m.(last_progress) with
  | Some last => if STALL_TIMEOUT <=? Z.max 0 (now - last) then (set_state Stalled m, true) else (m, false)
  | None => (m, false)
  end.

Definition retry_after_stall (now target_slot : Z) (m : SyncManager) : SyncManager :=
  mkSync (Syncing m.(next_expected_slot) target_slot) m.(sync_threshold) m.(sync_buffer) m.(next_expected_slot)
    m.(expected_parent_hash) (Some now) 0 m.(blocks_applied).

Definition set_expected_parent (h : H256) (m : SyncManager) : SyncManager :=
  mkSync m.(state) m.(sync_threshold) m.(sync_buffer) m.(next_expected_slot) (Some h) m.(last_progress) m.(current_batch_end) m.(blocks_applied).

Definition record_applied (m : SyncManager) : SyncManager :=
  mkSync m.(state) m.(sync_threshold) m.(sync_buffer) m.(next_expected_slot) m.(expected_parent_hash) m.(last_progress)
    m.(current_batch_end) (wrapping_add U64_MAX m.(blocks_applied) 1).

Definition sync_range (m : SyncManager) : option (Z * Z) :=
  match m.(state) with Syncing from target => Some (from, target) | _ => None end.
Definition buffer_len (m : SyncManager) : nat := length m.(sync_buffer).
Definition next_expected (m : SyncManager) : Z := m.(next_expected_slot).

(** ** What is delivered is a chain *)

Abbreviation slot_of b := (b.(header).(header_slot)).

Section delivery.
Context `{Digest, BlockCodec}.

(** Consecutive slots from [n], each block on the one before (or on none). *)
Fixpoint chain_from (expected : option H256) (n : Z) (bs : list Block) : Prop :=
  match bs with
  | [] => True
  | b :: bs => slot_of b = n ∧ continues expected b = true ∧ chain_from (Some (block_hash b)) (n + 1) bs
  end.

Definition tip (expected : option H256) (bs : list Block) : option H256 :=
  foldl (λ _ b, Some (block_hash b)) expected bs.

Lemma chain_from_app e n bs bs' :
  chain_from e n (bs ++ bs') ↔ chain_from e n bs ∧ chain_from (tip e bs) (n + Z.of_nat (length bs)) bs'.
Proof.
  revert e n. induction bs as [|b bs IH]; intros e n; cbn; [by rewrite Z.add_0_r; tauto|].
  rewrite IH. replace (n + 1 + Z.of_nat (length bs)) with (n + Z.of_nat (S (length bs))) by lia. tauto.
Qed.

Definition slots_ok (bs : list Block) : Prop := Forall (λ b, 0 ≤ slot_of b < U64_MAX) bs.

Lemma drain_chain bs next e ready rem :
  slots_ok bs → ∃ new rem',
    drain bs next e ready rem = (next + Z.of_nat (length new), tip e new, ready ++ new, rem ++ rem') ∧
    chain_from e next new ∧ new ⊆+ bs ∧ rem' ⊆+ bs.
Proof.
  intros Hs. revert next e ready rem. induction Hs as [|b bs Hb _ IH]; intros next e ready rem.
  { exists [], []. cbn. by rewrite Z.add_0_r, !app_nil_r. }
  assert (Hskip : ∃ new rem', drain bs next e ready (rem ++ [b]) = (next + Z.of_nat (length new), tip e new, ready ++ new, rem ++ rem') ∧
    chain_from e next new ∧ new ⊆+ b :: bs ∧ rem' ⊆+ b :: bs).
  { destruct (IH next e ready (rem ++ [b])) as (new & rem' & E & Hc & H1 & H2). exists new, (b :: rem').
    rewrite <- app_assoc in E. split_and!; [done|done|by apply submseteq_cons|by apply submseteq_skip]. }
  cbn [drain]. destruct (_ =? next) eqn:Es; [|destruct (_ >? next); [exact Hskip|]].
  - clean_ints. destruct (continues e b) eqn:Hcb; [|exact Hskip].
    replace (saturating_add U64_MAX next 1) with (next + 1) by ulia.
    destruct (IH (next + 1) (Some (block_hash b)) (ready ++ [b]) rem) as (new & rem' & E & Hc & H1 & H2).
    exists (b :: new), rem'. rewrite <- app_assoc in E. cbn [length]. rewrite Nat2Z.inj_succ, <- Z.add_1_l, Z.add_assoc.
    split_and!; [exact E|done|by apply submseteq_skip|by apply submseteq_cons].
  - destruct (IH next e ready rem) as (new & rem' & E & Hc & H1 & H2). exists new, rem'.
    split_and!; [done|done|by apply submseteq_cons|by apply submseteq_cons].
Qed.

Lemma drain_rest_chain rem next e ready :
  slots_ok rem → ∃ new rem',
    drain_rest rem next e ready = (next + Z.of_nat (length new), tip e new, ready ++ new, rem') ∧
    chain_from e next new ∧ rem = new ++ rem'.
Proof.
  intros Hs. revert next e ready. induction Hs as [|b rem Hb _ IH]; intros next e ready.
  { exists [], []. cbn. by rewrite Z.add_0_r, !app_nil_r. }
  cbn [drain_rest]. destruct (_ && _) eqn:Hg.
  2:{ exists [], (b :: rem). cbn. by rewrite Z.add_0_r, app_nil_r. }
  clean_ints. replace (saturating_add U64_MAX next 1) with (next + 1) by ulia.
  destruct (IH (next + 1) (Some (block_hash b)) (ready ++ [b])) as (new & rem' & E & Hc & ->).
  exists (b :: new), rem'. rewrite <- app_assoc in E. cbn [length]. rewrite Nat2Z.inj_succ, <- Z.add_1_l, Z.add_assoc.
  split_and!; [exact E|done|done].
Qed.

Lemma insert_sorted_perm b l : insert_sorted b l ≡ₚ b :: l.
Proof. induction l as [|x l IH]; cbn; [done|]. case_match; [done|]. rewrite IH. by rewrite Permutation_swap. Qed.

Lemma sort_by_slot_perm l : sort_by_slot l ≡ₚ l.
Proof. induction l as [|x l IH]; cbn; [done|]. by rewrite insert_sorted_perm, IH. Qed.

Lemma slots_ok_perm l l' : l ≡ₚ l' → slots_ok l → slots_ok l'.
Proof. unfold slots_ok. by intros ->. Qed.

Lemma slots_ok_submseteq l l' : l ⊆+ l' → slots_ok l' → slots_ok l.
Proof. intros [k Hk]%submseteq_Permutation. unfold slots_ok. rewrite Hk. by intros [? _]%Forall_app. Qed.

Lemma drain_ready_chain m :
  slots_ok m.(sync_buffer) →
  chain_from m.(expected_parent_hash) m.(next_expected_slot) (drain_ready m).2 ∧
  (drain_ready m).1.(next_expected_slot) = m.(next_expected_slot) + Z.of_nat (length (drain_ready m).2) ∧
  (drain_ready m).1.(expected_parent_hash) = tip m.(expected_parent_hash) (drain_ready m).2.
Proof.
  intros Hs. unfold drain_ready. case_bool_decide; [by cbn; rewrite Z.add_0_r|].
  destruct (drain_chain (sort_by_slot m.(sync_buffer)) m.(next_expected_slot) m.(expected_parent_hash) [] [])
    as (new & rem & -> & Hc & Hn & Hr); [by eapply slots_ok_perm; [symmetry; apply sort_by_slot_perm|]|].
  rewrite !app_nil_l.
  destruct (drain_rest_chain (sort_by_slot rem) (m.(next_expected_slot) + Z.of_nat (length new)) (tip m.(expected_parent_hash) new) new)
    as (new' & rem' & -> & Hc' & _).
  { eapply slots_ok_perm; [symmetry; apply sort_by_slot_perm|]. eapply slots_ok_submseteq; [exact Hr|].
    by eapply slots_ok_perm; [symmetry; apply sort_by_slot_perm|]. }
  cbn. rewrite chain_from_app, length_app, Nat2Z.inj_add, Z.add_assoc. unfold tip. by rewrite foldl_app.
Qed.

(** ** A chain is reassembled *)

Lemma chain_slots e n bs b : chain_from e n bs → b ∈ bs → n ≤ slot_of b.
Proof.
  revert e n. induction bs as [|x bs IH]; intros e n; cbn; [by intros _ ?%elem_of_nil|].
  intros (Hs & _ & Hc) [->|Hb]%elem_of_cons; [lia|]. specialize (IH _ _ Hc Hb). lia.
Qed.

Lemma insert_sorted_least b l : Forall (λ x, slot_of b ≤ slot_of x) l → insert_sorted b l = b :: l.
Proof. destruct 1 as [|x l Hx _]; [done|]. cbn. by rewrite (proj2 (Z.leb_le _ _) Hx). Qed.

Lemma insert_sorted_comm b b' l : slot_of b < slot_of b' → insert_sorted b (insert_sorted b' l) = insert_sorted b' (insert_sorted b l).
Proof.
  intros Hb. induction l as [|x l IH]; cbn.
  - repeat case_match; clean_ints; try done; lia.
  - destruct (slot_of b' <=? slot_of x) eqn:E1, (slot_of b <=? slot_of x) eqn:E2; cbn; rewrite ?E1, ?E2; clean_ints; try lia.
    + rewrite (proj2 (Z.leb_le (slot_of b) (slot_of b'))), (proj2 (Z.leb_gt (slot_of b') (slot_of b))) by lia. done.
    + rewrite (proj2 (Z.leb_gt (slot_of b') (slot_of b))) by lia. done.
    + by rewrite IH.
Qed.

(** Blocks of different slots are sorted the same from any order. *)
Lemma sort_by_slot_unique l l' : l ≡ₚ l' → NoDup ((λ b, slot_of b) <$> l) → sort_by_slot l = sort_by_slot l'.
Proof.
  induction 1 as [|x l l' _ IH|x y l|l1 l2 l3 Hp IH1 _ IH2]; [done| | |]; cbn.
  - intros [_ Hnd]%NoDup_cons. unfold sort_by_slot in *. cbn. by rewrite IH.
  - intros [Hx _]%NoDup_cons. rewrite not_elem_of_cons in Hx. destruct Hx as [Hne _].
    destruct (Z.lt_total (slot_of x) (slot_of y)) as [Hl|[He|Hl]]; [|congruence|].
    all: first [by apply insert_sorted_comm|symmetry; by apply insert_sorted_comm].
  - intros Hnd. rewrite IH1 by done. apply IH2.
    rewrite <- (fmap_Permutation (λ b, slot_of b) _ _ Hp). exact Hnd.
Qed.

Lemma chain_nodup e n bs : chain_from e n bs → NoDup ((λ b, slot_of b) <$> bs).
Proof.
  revert e n. induction bs as [|b bs IH]; intros e n; cbn; [intros _; constructor|]. intros (Hs & _ & Hc).
  constructor; [|by eapply IH]. intros (x & Hx & Hin)%list_elem_of_fmap. pose proof (chain_slots _ _ _ _ Hc Hin). lia.
Qed.

Lemma chain_sorted e n bs : chain_from e n bs → sort_by_slot bs = bs.
Proof.
  revert e n. induction bs as [|b bs IH]; intros e n; cbn; [done|]. intros (Hs & _ & Hc). unfold sort_by_slot in *.
  rewrite (IH _ _ Hc). apply insert_sorted_least, Forall_forall. intros x Hx. pose proof (chain_slots _ _ _ _ Hc Hx). lia.
Qed.

Lemma drain_whole_chain bs e n ready :
  slots_ok bs → chain_from e n bs →
  drain bs n e ready [] = (n + Z.of_nat (length bs), tip e bs, ready ++ bs, []).
Proof.
  intros Hs. revert e n ready. induction Hs as [|b bs Hb _ IH]; intros e n ready; [by cbn; rewrite Z.add_0_r, app_nil_r|].
  intros (Hsl & Hcb & Hc). cbn [drain]. rewrite Hsl, Z.eqb_refl, Hcb. replace (saturating_add U64_MAX n 1) with (n + 1) by ulia.
  rewrite IH by done. cbn [length]. rewrite Nat2Z.inj_succ, <- Z.add_1_l, Z.add_assoc, <- app_assoc. done.
Qed.

(** C18: Sync delivers only chains: the blocks handed to the node have consecutive
    slots from the expected one, each is on top of the one before (a block with
    a zero parent hash is taken on any), and the expected slot and parent follow
    them, at slots below the largest [u64]. When the buffer holds exactly a chain
    from the expected slot, in any order of arrival, all of it is delivered in
    order. *)
Theorem sync_delivers_chain m (Hs : slots_ok m.(sync_buffer)) :
  (chain_from m.(expected_parent_hash) m.(next_expected_slot) (drain_ready m).2 ∧
   (drain_ready m).1.(next_expected_slot) = m.(next_expected_slot) + Z.of_nat (length (drain_ready m).2) ∧
   (drain_ready m).1.(expected_parent_hash) = tip m.(expected_parent_hash) (drain_ready m).2) ∧
  ∀ bs, m.(sync_buffer) ≡ₚ bs → chain_from m.(expected_parent_hash) m.(next_expected_slot) bs →
    (drain_ready m).2 = bs ∧ (drain_ready m).1.(sync_buffer) = [].
Proof.
  split; [by apply drain_ready_chain|]. intros bs Hp Hc. unfold drain_ready.
  case_bool_decide as Hb; [rewrite Hb in Hp; apply Permutation_nil_l in Hp as <-; by cbn; rewrite ?Hb|].
  rewrite (sort_by_slot_unique m.(sync_buffer) bs) by (done || rewrite Hp; by eapply chain_nodup).
  rewrite (chain_sorted _ _ _ Hc), drain_whole_chain; [by cbn|by eapply slots_ok_perm|done].
Qed.

(** ** An empty slot stops synchronisation *)

Inductive sync_op := OpBuffer (b : Block) | OpDrain | OpRequest | OpRetry (target : Z) | OpCheck (latest network : Z) | OpParent (h : H256).

Definition exec (now : Z) (o : sync_op) (m : SyncManager) : SyncManager * list Block :=
  match o with
  | OpBuffer b => ((buffer_block now b m).1, [])
  | OpDrain => drain_ready m
  | OpRequest => ((next_request m).1, [])
  | OpRetry target => (retry_after_stall now target m, [])
  | OpCheck latest network => ((check_sync_needed now latest network m).1, [])
  | OpParent h => (set_expected_parent h m, [])
  end.

Fixpoint exec_all (ops : list (Z * sync_op)) (m : SyncManager) : SyncManager * list Block :=
  match ops with
  | [] => (m, [])
  | (now, o) :: ops => let '(m, out) := exec now o m in let '(m, out') := exec_all ops m in (m, out ++ out')
  end.

(** The operations of a node that stays behind and never sees a block of slot
    [n]. *)
Definition without (n threshold : Z) (o : sync_op) : Prop :=
  match o with
  | OpBuffer b => slot_of b ≠ n
  | OpCheck latest network => network > latest + threshold ∧ latest + threshold ≤ U64_MAX
  | _ => True
  end.

Record stuck (n threshold : Z) (m : SyncManager) : Prop := {
  stuck_syncing : is_syncing m = true;
  stuck_threshold : m.(sync_threshold) = threshold;
  stuck_next : m.(next_expected_slot) = n;
  stuck_buffer : Forall (λ b, slot_of b ≠ n) m.(sync_buffer)
}.

Lemma drain_other bs n e ready rem :
  Forall (λ b, slot_of b ≠ n) bs → ∃ rem', drain bs n e ready rem = (n, e, ready, rem ++ rem') ∧ Forall (λ b, slot_of b ≠ n) rem'.
Proof.
  intros Hs. revert rem. induction Hs as [|b bs Hb _ IH]; intros rem; [exists []; by rewrite app_nil_r|].
  cbn [drain]. rewrite (proj2 (Z.eqb_neq _ _) Hb). destruct (_ >? _); [|apply IH].
  destruct (IH (rem ++ [b])) as (rem' & E & Hr). exists (b :: rem'). rewrite <- app_assoc in E. split; [done|by constructor].
Qed.

Lemma drain_rest_other rem n e ready :
  Forall (λ b, slot_of b ≠ n) rem → drain_rest rem n e ready = (n, e, ready, rem).
Proof. destruct 1 as [|b rem Hb _]; [done|]. cbn [drain_rest]. by rewrite (proj2 (Z.eqb_neq _ _) Hb). Qed.

Lemma stuck_step n t now o m : stuck n t m → without n t o → stuck n t (exec now o m).1 ∧ (exec now o m).2 = [].
Proof.
  intros [S1 S2 S3 S4] Hw. destruct o as [b| | |target|latest network|h]; cbn [exec fst snd] in *.
  - unfold buffer_block. case_match; [done|]. split; [|done]. constructor; try done. cbn. apply Forall_app. by repeat constructor.
  - unfold drain_ready. case_bool_decide; [done|]. rewrite S3.
    destruct (drain_other (sort_by_slot m.(sync_buffer)) n m.(expected_parent_hash) [] []) as (rem & -> & Hr); [by rewrite sort_by_slot_perm|].
    rewrite app_nil_l, drain_rest_other by by rewrite sort_by_slot_perm. split; [|done]. constructor; try done. cbn. by rewrite sort_by_slot_perm.
  - unfold next_request. repeat case_match; done.
  - done.
  - unfold check_sync_needed. unfold without in Hw. replace (network >? _) with true; [by rewrite S1|].
    symmetry. apply Z.gtb_lt. ulia.
  - done.
Qed.

(** A slot that has no block stops synchronisation for ever: whatever blocks of
    other slots arrive, and through all retries, the expected slot stays the
    empty one and no block is delivered, although the chain skips that slot. *)
Theorem skipped_slot_stops_sync n threshold ops m
    (Hm : stuck n threshold m) (Hops : Forall (λ o, without n threshold o.2) ops) :
  (exec_all ops m).1.(next_expected_slot) = n ∧ (exec_all ops m).2 = [].
Proof.
  revert m Hm. induction Hops as [|[now o] ops Ho _ IH]; intros m Hm; cbn [exec_all]; [by destruct Hm|].
  destruct (stuck_step n threshold now o m Hm Ho) as [Hm' Hout]. destruct (exec now o m) as [m1 out]. cbn [fst snd] in *.
  specialize (IH m1 Hm'). destruct (exec_all ops m1) as [m2 out']. cbn [fst snd] in *. destruct IH as [? ->]. by rewrite Hout.
Qed.
End delivery.
End Sync.

(** ** Concrete runs *)

From S2P Require Import Toy.
From S2P Require Import ToyBlock.

Module SyncDemo.
Import Sync.

Definition vrf0 : VrfProof := mkVrfProof [] [].
Definition b1 : Block := block_new 0 1 100 5 vrf0 [].
Definition b2 : Block := block_new 0 2 (block_hash b1) 5 vrf0 [].
Definition b3 : Block := block_new 0 3 (block_hash b2) 5 vrf0 [].

(** Block 3 is on top of block 1: slot 2 has no block. *)
Definition b3' : Block := block_new 0 3 (block_hash b1) 5 vrf0 [].

Definition manager (buffer : list Block) (next : Z) (expected : H256) : SyncManager :=
  mkSync (Syncing 0 100) 10 buffer next (Some expected) (Some 0) 0 0.

Lemma sync_delivers_chain_witness : (drain_ready (manager [b3; b1; b2] 1 100)).2 = [b1; b2; b3].
Proof.
  destruct (sync_delivers_chain (manager [b3; b1; b2] 1 100)) as [_ Hall].
  - unfold slots_ok. repeat constructor; vm_compute; done.
  - apply Hall; [|by vm_compute].
    change (manager [b3; b1; b2] 1 100).(sync_buffer) with [b3; b1; b2]. rewrite Permutation_swap. apply perm_skip, Permutation_swap.
Defined.

Lemma skipped_slot_stops_sync_witness :
  let ops := [(1, OpBuffer b3'); (2, OpDrain); (40000, OpRetry 100); (40000, OpDrain); (40001, OpCheck 1 200)] in
  (exec_all ops (manager [] 2 (block_hash b1))).1.(next_expected_slot) = 2 ∧
  (exec_all ops (manager [] 2 (block_hash b1))).2 = [].
Proof.
  cbv zeta. apply (skipped_slot_stops_sync 2 10).
  - by constructor.
  - repeat constructor; vm_compute; done.
Defined.
End SyncDemo.
