(* ===== verification/Engine.v ===== *)
(** * The consensus engine interface

    The trait [ConsensusEngine] of [crates/consensus/src/lib.rs], and the two
    engines of the files [Hybrid] and [Consensus] as instances. Clocks are
    arguments: [now] in milliseconds, [secs] in seconds. *)

From S2P Require Import Prelude.
From S2P Require Import Bls.
From S2P Require Import Consensus.
From S2P Require Import Hybrid.
From S2P Require Import Transaction.
From S2P Require Import Block.

Class ConsensusEngine (E : Type) `{Finality E} := {
  current_slot : E → Z;
  advance_slot : E → E;
  is_leader : Z → PublicKey → E → bool;
  validate_block : Z → Block → E → result error unit;
  add_vote : Z → Vote → M E error unit;
  total_stake : E → Z;
  get_leader_proof : Z → E → option VrfProof;
  update_epoch_randomness : list Z → E → E * bool;
  validator_stake : Address → E → Z;
  is_timed_out : Z → E → bool;
  on_timeout : Z → E → E;
  get_bls_pubkey : Address → E → option (list Z);
  slash_validator : Address → Z → E → E * Z;
  validator_addresses_and_stakes : E → list (Address * Z);
  record_block : H256 → H256 → Z → E → E
}.

(** The default [skip_to_slot]: [while self.current_slot() < slot]. *)
Fixpoint skip_to_slot `{ConsensusEngine E} (fuel : nat) (slot : Z) (e : E) : E :=
  match fuel with
  | O => e
  | S fuel => if current_slot e <? slot then skip_to_slot fuel slot (advance_slot e) else e
  end.

#[global] Instance hybrid_engine `{Digest, Blst, HybridEnv} : ConsensusEngine Hybrid.HybridConsensus := {
  current_slot := Hybrid.current_slot;
  advance_slot := Hybrid.advance_slot;
  is_leader := Hybrid.is_leader;
  validate_block secs b := Hybrid.validate_block secs b.(header);
  add_vote := Hybrid.add_vote;
  total_stake := Hybrid.total_stake;
  get_leader_proof := Hybrid.check_my_eligibility;
  update_epoch_randomness := Hybrid.update_epoch_randomness;
  validator_stake := Hybrid.validator_stake;
  is_timed_out now e := Pacemaker.is_timed_out now e.(Hybrid.pacemaker);
  on_timeout := Hybrid.on_timeout;
  get_bls_pubkey a e := e.(Hybrid.bls_pubkeys) !! a;
  slash_validator := Hybrid.slash_validator;
  validator_addresses_and_stakes := Hybrid.validator_addresses_and_stakes;
  record_block := Hybrid.record_block
}.

(** Round-robin, with the defaults of the trait. *)
#[global] Instance simple_engine `{Digest} : ConsensusEngine Simple.SimpleConsensus := {
  current_slot := Simple.current_slot;
  advance_slot := Simple.advance_slot;
  is_leader := Simple.is_leader;
  validate_block _ b := Simple.validate_block b.(header);
  add_vote _ := Simple.add_vote;
  total_stake := Simple.total_stake;
  get_leader_proof _ _ := None;
  update_epoch_randomness _ e := (e, false);
  validator_stake _ _ := 0;
  is_timed_out _ _ := false;
  on_timeout _ e := e;
  get_bls_pubkey _ _ := None;
  slash_validator _ _ e := (e, 0);
  validator_addresses_and_stakes := Simple.validator_addresses_and_stakes;
  record_block _ _ _ e := e
}.

(** An engine whose [advance_slot] moves one slot reaches the target. *)
Lemma skip_to_slot_reaches `{ConsensusEngine E} fuel slot (e : E) :
  (∀ e, current_slot e < slot → current_slot (advance_slot e) = current_slot e + 1) →
  (Z.to_nat (slot - current_slot e) ≤ fuel)%nat → slot ≤ current_slot (skip_to_slot fuel slot e).
Proof.
  intros Hadv. revert e. induction fuel as [|fuel IH]; intros e Hf; cbn; [lia|].
  destruct (Z.ltb_spec (current_slot e) slot) as [Hlt|Hge]; [|done]. apply IH. rewrite Hadv by done. lia.
Qed.
