(* ===== verification/Node.v ===== *)
(** * The node

    [crates/node/src/node.rs] and [network_handler.rs]: the state of a node and
    all its handlers, over any consensus engine. Clocks are arguments. The
    proof-of-history recorder, metrics, logging and the snapshot files are left
    out. [sent] is a history variable: every message handed to [broadcast], in
    order; no operation reads it. *)

From stdpp Require Import pretty.
From S2P Require Import Prelude.
From S2P Require Import Arith256.
From S2P Require Import Staking.
From S2P Require Import Consensus.
From S2P Require Import Bls.
From S2P Require Import Transaction.
From S2P Require Import Storage.
From S2P Require Import Ledger.
From S2P Require Import FeeMarket.
From S2P Require Import Slashing.
From S2P Require Import Mempool.
From S2P Require Import ForkChoice.
From S2P Require Import Block.
From S2P Require Import Sync.
From S2P Require Import Engine.

(** [bincode] on the staking state, statuses, votes, transactions and sync
    requests. *)
Class NodeCodec := {
  ser_staking : Staking.StakingState → bytes;
  de_staking : bytes → result error Staking.StakingState;
  ser_status : TransactionStatus → bytes;
  ser_logs : bytes;
  de_vote : bytes → result error Vote;
  de_tx : bytes → result error Transaction;
  de_sync : bytes → result error (Z * Z);
  de_ser_staking : ∀ s, de_staking (ser_staking s) = Ok s
}.

Module Node.

Inductive OutboundMessage :=
| BroadcastBlock (b : Block)
| BroadcastVote (v : Vote)
| BroadcastTransaction (t : Transaction)
| RequestBlockRange (from_slot to_slot : Z).

Inductive NodeMessage :=
| BlockReceived (b : Block)
| VoteReceived (v : Vote)
| TransactionReceived (t : Transaction)
| BlockRangeRequested (from_slot to_slot : Z)
| PeerConnected
| PeerDisconnected.

(** [NetworkEvent] of the p2p crate. *)
Inductive NetworkEvent :=
| NetBlock (data : bytes)
| NetVote (data : bytes)
| NetTransaction (data : bytes)
| NetSync (data : bytes)
| NetShred (data : bytes)
| NetPeerConnected
| NetPeerDisconnected.

(** A bounded [mpsc] channel. *)
Record Channel := mkChannel { capacity : Z; queue : list OutboundMessage; closed : bool }.
Inductive SendResult := Sent | Full | Closed.
Definition try_send (m : OutboundMessage) (c : Channel) : Channel * SendResult :=
  if c.(closed) then (c, Closed) else
  if c.(capacity) <=? Z.of_nat (length c.(queue)) then (c, Full) else
  (mkChannel c.(capacity) (c.(queue) ++ [m]) c.(closed), Sent).

Record ChainConfig := mkConfig {
  chain_id_numeric : Z;
  slot_ms : Z;
  block_bytes_max : Z;
  epoch_slots : Z;
  retention_epochs : Z;
  fees : FeeParams;
  min_base_fee : Z;
  swr_initial_supply : Z
}.

(** The monotonic clock in nanoseconds and the system clock in seconds. *)
Record Clock := mkClock { now_ns : Z; now_secs : Z }.
Definition now_ms (clk : Clock) : Z := clk.(now_ns) / 1000000.

Definition MAX_OUTBOUND_BUFFER : nat := Z.to_nat 10000.
Definition MAX_CACHED_BLOCKS : nat := Z.to_nat 10000.
Definition MAX_CACHED_RECEIPTS : nat := Z.to_nat 50000.
Definition MAX_ORPHAN_BLOCKS : Z := 256.
Definition MAX_CLOCK_DRIFT_SECS : Z := 15.
Definition MAX_BLOCK_GAS_LIMIT : Z := 10000000.
Definition SYNC_RESPONSE_COOLDOWN : Z := 2000.
Definition MAX_BLOCKS_PER_RESPONSE : Z := 64.
Definition MAX_BLOCK_SIZE : Z := 2 * 1024 * 1024.
Definition MAX_VOTE_SIZE : Z := 8 * 1024.
Definition MAX_TX_SIZE : Z := 64 * 1024.
Definition MAX_SYNC_SIZE : Z := 1024.

Definition mul_div : Z → Z → Z → Z := Arith256.mul_div.

Section node.
Context `{Digest, Codec, Dalek, HashOrder, HeapOrder, Blst, BlockCodec, NodeCodec, RocksDb}.
Context {E : Type} `{!Finality E, !ConsensusEngine E}.

Record Node := mkNode {
  chain_config : ChainConfig;
  ledger : Ledger.Ledger;
  mempool : Mempool.Mempool;
  consensus : E;
  validator_key : option PublicKey;
  bls_key : option Bls.BlsKeypair;
  running : bool;
  fee_market : FeeMarket.FeeMarket;
  emission_schedule : EmissionSchedule.EmissionSchedule;
  current_epoch : Z;
  fork_choice : ForkChoice.ForkChoice;
  latest_block_hash : H256;
  latest_block_slot : option Z;
  blocks_by_slot : gmap Z H256;
  blocks_by_hash : gmap H256 Block;
  receipts : gmap H256 TransactionReceipt;
  staking_state : Staking.StakingState;
  broadcast_tx : option Channel;
  outbound_buffer : list OutboundMessage;
  consecutive_timeouts : Z;
  slashing_detector : Slashing.SlashingDetector;
  slashed_offenses : gset (Address * Z);
  voted_slots : gset Z;
  sync_manager : Sync.SyncManager;
  peer_count : Z;
  orphan_blocks : gmap H256 (list Block);
  orphan_count : Z;
  outbound_drops : Z;
  last_sync_response : option Z;
  last_voted_slot : option Z;
  committed_at_slot : gmap Z H256;
  sent : list OutboundMessage
}.

(** Assignments to one field. *)
Definition node_eta (n : Node) : Node :=
  mkNode n.(chain_config) n.(ledger) n.(mempool) n.(consensus) n.(validator_key) n.(bls_key) n.(running) n.(fee_market) n.(emission_schedule) n.(current_epoch) n.(fork_choice) n.(latest_block_hash) n.(latest_block_slot) n.(blocks_by_slot) n.(blocks_by_hash) n.(receipts) n.(staking_state) n.(broadcast_tx) n.(outbound_buffer) n.(consecutive_timeouts) n.(slashing_detector) n.(slashed_offenses) n.(voted_slots) n.(sync_manager) n.(peer_count) n.(orphan_blocks) n.(orphan_count) n.(outbound_drops) n.(last_sync_response) n.(last_voted_slot) n.(committed_at_slot) n.(sent).

Local Ltac assign field x n :=
  let t := eval cbv beta delta [node_eta] in (node_eta n) in
  let p := constr:(field n) in
  match eval pattern p in t with ?f _ => let r := eval cbv beta in (f x) in exact r end.

Definition set_ledger (x : Ledger.Ledger) (n : Node) : Node := ltac:(assign ledger x n).
Definition set_mempool (x : Mempool.Mempool) (n : Node) : Node := ltac:(assign mempool x n).
Definition set_consensus (x : E) (n : Node) : Node := ltac:(assign consensus x n).
Definition set_running (x : bool) (n : Node) : Node := ltac:(assign running x n).
Definition set_fee_market (x : FeeMarket.FeeMarket) (n : Node) : Node := ltac:(assign fee_market x n).
Definition set_current_epoch (x : Z) (n : Node) : Node := ltac:(assign current_epoch x n).
Definition set_fork_choice (x : ForkChoice.ForkChoice) (n : Node) : Node := ltac:(assign fork_choice x n).
Definition set_latest_block_hash (x : H256) (n : Node) : Node := ltac:(assign latest_block_hash x n).
Definition set_latest_block_slot (x : option Z) (n : Node) : Node := ltac:(assign latest_block_slot x n).
Definition set_blocks_by_slot (x : gmap Z H256) (n : Node) : Node := ltac:(assign blocks_by_slot x n).
Definition set_blocks_by_hash (x : gmap H256 Block) (n : Node) : Node := ltac:(assign blocks_by_hash x n).
Definition set_receipts (x : gmap H256 TransactionReceipt) (n : Node) : Node := ltac:(assign receipts x n).
Definition set_staking_state (x : Staking.StakingState) (n : Node) : Node := ltac:(assign staking_state x n).
Definition set_broadcast_tx (x : option Channel) (n : Node) : Node := ltac:(assign broadcast_tx x n).
Definition set_outbound_buffer (x : list OutboundMessage) (n : Node) : Node := ltac:(assign outbound_buffer x n).
Definition set_consecutive_timeouts (x : Z) (n : Node) : Node := ltac:(assign consecutive_timeouts x n).
Definition set_slashing_detector (x : Slashing.SlashingDetector) (n : Node) : Node := ltac:(assign slashing_detector x n).
Definition set_slashed_offenses (x : gset (Address * Z)) (n : Node) : Node := ltac:(assign slashed_offenses x n).
Definition set_voted_slots (x : gset Z) (n : Node) : Node := ltac:(assign voted_slots x n).
Definition set_sync_manager (x : Sync.SyncManager) (n : Node) : Node := ltac:(assign sync_manager x n).
Definition set_peer_count (x : Z) (n : Node) : Node := ltac:(assign peer_count x n).
Definition set_orphan_blocks (x : gmap H256 (list Block)) (n : Node) : Node := ltac:(assign orphan_blocks x n).
Definition set_orphan_count (x : Z) (n : Node) : Node := ltac:(assign orphan_count x n).
Definition set_outbound_drops (x : Z) (n : Node) : Node := ltac:(assign outbound_drops x n).
Definition set_last_sync_response (x : option Z) (n : Node) : Node := ltac:(assign last_sync_response x n).
Definition set_last_voted_slot (x : option Z) (n : Node) : Node := ltac:(assign last_voted_slot x n).
Definition set_committed_at_slot (x : gmap Z H256) (n : Node) : Node := ltac:(assign committed_at_slot x n).
Definition set_sent (x : list OutboundMessage) (n : Node) : Node := ltac:(assign sent x n).

Definition on_ledger {A} (m : M Ledger.Ledger error A) : M Node error A :=
  λ n, let '(l, r) := m n.(ledger) in (set_ledger l n, r).

(** [Result::ok] *)
Definition ok {A} (r : result error A) : option A := match r with Ok a => Some a | Err _ => None end.

(** ** Reading the chain *)

Definition h256_of_bytes (bs : bytes) : option H256 :=
  if (length bs =? 32)%nat then Some (Z.to_N (Storage.from_be_bytes bs)) else None.

Definition slot_key (slot : Z) : bytes := str_bytes ("slot:" +:+ pretty slot).
Definition CHAIN_TIP_SLOT : bytes := str_bytes "chain_tip_slot".
Definition CHAIN_TIP_HASH : bytes := str_bytes "chain_tip_hash".
Definition STAKING_STATE : bytes := str_bytes "staking_state".

(** [.ok().flatten()] *)
Definition read (db : DB) (cf : string) (k : bytes) : option bytes :=
  match Storage.get db cf k with Ok o => o | Err _ => None end.

Definition get_block_by_hash (n : Node) (h : H256) : option Block :=
  match n.(blocks_by_hash) !! h with
  | Some b => Some b
  | None => bs ← read n.(ledger).(Ledger.storage) CF_BLOCKS (as_bytes 32 h); ok (de_block bs)
  end.

Definition get_block_by_slot (n : Node) (slot : Z) : option Block :=
  match (h ← n.(blocks_by_slot) !! slot; n.(blocks_by_hash) !! h) with
  | Some b => Some b
  | None =>
      bs ← read n.(ledger).(Ledger.storage) CF_METADATA (slot_key slot);
      h ← h256_of_bytes bs;
      get_block_by_hash n h
  end.

Definition get_transaction_receipt (n : Node) (h : H256) : option TransactionReceipt :=
  match n.(receipts) !! h with
  | Some r => Some r
  | None => bs ← read n.(ledger).(Ledger.storage) CF_RECEIPTS (as_bytes 32 h); ok (de_receipt bs)
  end.

Definition latest_block_hash_if_set (n : Node) : option H256 :=
  match n.(latest_block_slot) with Some _ => Some n.(latest_block_hash) | None => None end.

(** ** Roots *)

Definition compute_transactions_root (txs : list Transaction) : H256 :=
  if bool_decide (txs = []) then 0%N else sha256_digest (flat_map (λ t, as_bytes 32 (hash t)) txs).

Definition receipt_digest (r : TransactionReceipt) : H256 :=
  sha256_digest (as_bytes 32 r.(r_tx_hash) ++ ser_status r.(status) ++ to_le_bytes 8 r.(gas_used) ++ ser_logs ++
                 as_bytes 32 r.(r_state_root)).

Definition compute_receipts_root (rs : list TransactionReceipt) : H256 :=
  if bool_decide (rs = []) then 0%N else sha256_digest (flat_map (λ r, as_bytes 32 (receipt_digest r)) rs).

(** ** Outbound messages *)

(** The loop that empties the buffer into the channel: at most [k] messages. *)
Fixpoint drain_buffer (k : nat) (buf : list OutboundMessage) (c : Channel) : list OutboundMessage * Channel :=
  match k, buf with
  | S k, m :: rest =>
      match try_send m c with
      | (c, Sent) => drain_buffer k rest c
      | (c, _) => (buf, c)
      end
  | _, _ => (buf, c)
  end.

Definition broadcast (m : OutboundMessage) (n : Node) : Node :=
  let n := set_sent (n.(sent) ++ [m]) n in
  let drop n := set_outbound_drops (wrapping_add U64_MAX n.(outbound_drops) 1) n in
  let keep n := if (length n.(outbound_buffer) <? MAX_OUTBOUND_BUFFER)%nat
                then set_outbound_buffer (n.(outbound_buffer) ++ [m]) n else drop n in
  match n.(broadcast_tx) with
  | None => keep n
  | Some c =>
      let '(buf, c) := drain_buffer 64 n.(outbound_buffer) c in
      let '(c, r) := try_send m c in
      let n := set_broadcast_tx (Some c) (set_outbound_buffer buf n) in
      match r with Sent => n | Full => drop n | Closed => keep n end
  end.

Definition drain_outbound (n : Node) : Node * list OutboundMessage := (set_outbound_buffer [] n, n.(outbound_buffer)).

Definition submit_transaction (clk : Clock) (t : Transaction) : M Node error H256 :=
  let h := hash t in
  (λ n, let '(p, r) := Mempool.add_transaction clk.(now_ns) t n.(mempool) in (set_mempool p n, r));;
  modify (broadcast (BroadcastTransaction t));;
  mret h.

(** ** Persistence *)

Definition build_block_batch (b : Block) (h : H256) (rs : list TransactionReceipt) : StorageBatch :=
  [Put CF_BLOCKS (as_bytes 32 h) (ser_block b);
   Put CF_METADATA (slot_key b.(header).(header_slot)) (as_bytes 32 h)] ++
  ((λ r, Put CF_RECEIPTS (as_bytes 32 r.(r_tx_hash)) (ser_receipt r)) <$> rs) ++
  [Put CF_METADATA CHAIN_TIP_SLOT (to_le_bytes 8 b.(header).(header_slot));
   Put CF_METADATA CHAIN_TIP_HASH (as_bytes 32 h)].

Definition persist_staking_state_to_batch (n : Node) (batch : StorageBatch) : StorageBatch :=
  batch ++ [Put CF_STAKING STAKING_STATE (ser_staking n.(staking_state))].

Definition persist_staking_state : M Node error unit :=
  n ← get_state;
  on_ledger (Ledger.write_batch (persist_staking_state_to_batch n [])).

(** ** Voting *)

Definition vote_message (h : H256) (slot : Z) : bytes := as_bytes 32 h ++ to_le_bytes 8 slot.

(** The result of [add_vote] is only logged. *)
Definition submit_vote (clk : Clock) (v : Vote) (n : Node) : Node :=
  set_consensus (add_vote (now_ms clk) v n.(consensus)).1 n.

Definition vote_on_block (clk : Clock) (b : Block) (n : Node) : Node :=
  let slot := b.(header).(header_slot) in
  if from_option (λ last, slot <=? last) false n.(last_voted_slot) then n else
  match n.(validator_key), n.(bls_key) with
  | Some pk, Some bk =>
      let h := block_hash b in
      if bool_decide (slot ∈ n.(voted_slots)) then n else
      let n := set_voted_slots ({[slot]} ∪ n.(voted_slots)) n in
      let sig := Bls.sign bk (vote_message h slot) in
      let my_stake := validator_stake (to_address pk) n.(consensus) in
      let v := mkVote slot h pk sig my_stake in
      let n := submit_vote clk v n in
      let n := broadcast (BroadcastVote v) n in
      set_last_voted_slot (Some slot) n
  | _, _ => n
  end.

(** ** Validation of a received block *)

Definition check_timestamp (clk : Clock) (b : Block) (n : Node) : result error unit :=
  let t := b.(header).(header_timestamp) in
  if b.(header).(header_slot) >? 0 then
    bail_if (t >? saturating_add U64_MAX clk.(now_secs) MAX_CLOCK_DRIFT_SECS)
      (Fmt "block timestamp {} is too far in the future (now={}, max_drift={}s)" [t; clk.(now_secs); MAX_CLOCK_DRIFT_SECS]);;
    if (b.(header).(parent_hash) =? 0)%N then mret tt else
    match n.(blocks_by_hash) !! b.(header).(parent_hash) with
    | Some p => bail_if (t <? p.(header).(header_timestamp))
                  (Fmt "block timestamp {} precedes parent timestamp {}" [t; p.(header).(header_timestamp)])
    | None => mret tt
    end
  else mret tt.

Definition check_size (b : Block) (n : Node) : result error unit :=
  let block_size := Z.of_nat (length (ser_block b)) in
  bail_if (block_size >? n.(chain_config).(block_bytes_max))
    (Fmt "block at slot {} exceeds size limit: {} bytes > {} max"
       [b.(header).(header_slot); block_size; n.(chain_config).(block_bytes_max)]).

Fixpoint check_distinct (slot : Z) (seen : list H256) (txs : list Transaction) : result error unit :=
  match txs with
  | [] => mret tt
  | t :: txs =>
      bail_if (bool_decide (hash t ∈ seen)) (Fmt "block at slot {} contains duplicate transaction {}" [slot; Z.of_N (hash t)]);;
      check_distinct slot (hash t :: seen) txs
  end.

Definition check_slot (b : Block) (n : Node) : result error unit :=
  if (b.(header).(header_slot) >? 0) && negb (b.(header).(parent_hash) =? 0)%N then
    match n.(blocks_by_hash) !! b.(header).(parent_hash) with
    | Some p => bail_if (b.(header).(header_slot) <=? p.(header).(header_slot))
                  (Fmt "slot monotonicity violation: block slot {} <= parent slot {}"
                     [b.(header).(header_slot); p.(header).(header_slot)])
    | None => mret tt
    end
  else mret tt.

Fixpoint check_signers (seen : list Address) (signers : list (list Z)) : result error unit :=
  match signers with
  | [] => mret tt
  | s :: signers =>
      bail_if (bool_decide (key_address s ∈ seen)) (Fmt "duplicate signer {} in aggregated vote" [Z.of_N (key_address s)]);;
      check_signers (key_address s :: seen) signers
  end.

(** The BLS keys of the signers and their stake. *)
Fixpoint signer_keys (e : E) (signers : list (list Z)) (keys : list bytes) (stake : Z) : result error (list bytes * Z) :=
  match signers with
  | [] => mret (keys, stake)
  | s :: signers =>
      pk ← ok_or (get_bls_pubkey (key_address s) e) (Fmt "no BLS pubkey registered for signer {}" [Z.of_N (key_address s)]);
      signer_keys e signers (keys ++ [pk]) (saturating_add U128_MAX stake (validator_stake (key_address s) e))
  end.

Definition is_bootstrap (b : Block) : bool := (b.(header).(header_slot) <=? 1) || (b.(header).(parent_hash) =? 0)%N.

Definition check_certificate (b : Block) (v : AggregatedVote) (n : Node) : result error unit :=
  bail_if (negb (is_bootstrap b) && negb (v.(av_block_hash) =? b.(header).(parent_hash))%N)
    (Fmt "aggregated vote references block {} but parent is {}" [Z.of_N v.(av_block_hash); Z.of_N b.(header).(parent_hash)]);;
  bail_if (bool_decide (v.(signers) = [])) (Msg "aggregated vote has no signers");;
  check_signers [] v.(signers);;
  keys ← signer_keys n.(consensus) v.(signers) [] 0;
  agg_pk ← map_err (prefix_error "failed to aggregate signer pubkeys: ") (Bls.aggregate_public_keys keys.1);
  valid ← map_err (prefix_error "BLS aggregate verification error: ")
            (Bls.verify_aggregated agg_pk (vote_message v.(av_block_hash) v.(av_slot)) v.(aggregated_signature));
  bail_if (negb valid) (Msg "invalid BLS aggregate signature in block");;
  let total := total_stake n.(consensus) in
  bail_if ((total >? 0) && negb (Quorum.has_quorum keys.2 total))
    (Fmt "insufficient quorum: voted stake {} < required 2/3 of {}" [keys.2; total]).

Definition check_quorum (b : Block) (n : Node) : result error unit :=
  match b.(aggregated_vote) with
  | None => bail_if (negb (is_bootstrap b))
              (Fmt "block at slot {} missing required quorum certificate (aggregated_vote)" [b.(header).(header_slot)])
  | Some v => check_certificate b v n
  end.

(** [try_fold(0, |acc, tx| acc.checked_add(tx.gas_limit))] *)
Fixpoint block_gas (acc : Z) (txs : list Transaction) : option Z :=
  match txs with
  | [] => Some acc
  | t :: txs => acc ← checked_add U64_MAX acc t.(gas_limit); block_gas acc txs
  end.

(** Everything that is checked before the node changes: the receipts and the
    overlay of the speculative execution, or an error. *)
Definition validate (clk : Clock) (b : Block) (n : Node) :
    result error (list TransactionReceipt * Ledger.PendingOverlay) :=
  check_timestamp clk b n;;
  check_size b n;;
  (if (1 <? length b.(transactions))%nat then check_distinct b.(header).(header_slot) [] b.(transactions) else mret tt);;
  validate_block clk.(now_secs) b n.(consensus);;
  check_slot b n;;
  let tx_root := compute_transactions_root b.(transactions) in
  bail_if (negb (tx_root =? b.(header).(transactions_root))%N)
    (Fmt "transactions_root mismatch: computed={}, block={}" [Z.of_N tx_root; Z.of_N b.(header).(transactions_root)]);;
  check_quorum b n;;
  gas ← ok_or (block_gas 0 b.(transactions)) (Msg "block gas overflow");
  bail_if (gas >? MAX_BLOCK_GAS_LIMIT) (Fmt "block gas {} exceeds limit {}" [gas; MAX_BLOCK_GAS_LIMIT]);;
  res ← Ledger.apply_block_speculatively_with_chain_id n.(ledger) b.(transactions) (Some n.(chain_config).(chain_id_numeric));
  let receipts_root := compute_receipts_root res.1 in
  bail_if (negb (receipts_root =? b.(header).(Consensus.receipts_root))%N)
    (Fmt "receipts_root mismatch: computed={}, block={}" [Z.of_N receipts_root; Z.of_N b.(header).(Consensus.receipts_root)]);;
  bail_if (negb (res.2.(Ledger.overlay_root) =? b.(header).(state_root))%N)
    (Fmt "state root mismatch: computed={}, block={} — block rejected, state unchanged"
       [Z.of_N res.2.(Ledger.overlay_root); Z.of_N b.(header).(state_root)]);;
  mret res.

(** ** Slashing *)

Definition slash_both (who : Address) (consensus_bps rate_bps slot : Z) (n : Node) : Node * bool :=
  let n := set_consensus (slash_validator who consensus_bps n.(consensus)).1 n in
  let '(st, r) := Staking.slash who rate_bps slot n.(staking_state) in
  (set_staking_state st n, match r with Ok _ => true | Err _ => false end).

Definition proof_vote (v : SlashVote) : Slashing.Vote :=
  Slashing.mkVote v.(sv_slot) v.(sv_block_hash) v.(sv_validator) v.(sv_validator_pubkey) v.(sv_signature).

(** One entry of [block.slash_evidence]. *)
Definition apply_evidence (slot : Z) (n : Node) (ev : SlashEvidence) : Node :=
  match ev.(ev_vote1), ev.(ev_vote2), ev.(evidence_type) with
  | Some v1, Some v2, Some etype =>
      let proof_type := match etype with
                        | EvDoubleSign => Slashing.DoubleSign
                        | EvSurroundVote => Slashing.SurroundVote
                        end in
      let proof := Slashing.mkProof (proof_vote v1) (proof_vote v2) ev.(ev_validator) proof_type in
      match Slashing.verify_slash_proof proof with
      | Err _ => n
      | Ok _ =>
          let key := (ev.(ev_validator), v1.(sv_slot)) in
          if bool_decide (key ∈ n.(slashed_offenses)) then n else
          let n := set_slashed_offenses ({[key]} ∪ n.(slashed_offenses)) n in
          let rate := Slashing.slash_rate_bps proof_type in
          (slash_both ev.(ev_validator) rate rate slot n).1
      end
  | _, _, _ => n
  end.

(** ** Committing a block *)

Definition total_fees (txs : list Transaction) : Z := foldl (λ acc t, saturating_add U128_MAX acc t.(fee)) 0 txs.
Definition total_gas (txs : list Transaction) : Z := foldl (λ acc t, saturating_add U64_MAX acc t.(gas_limit)) 0 txs.

Definition stored_receipt (h : H256) (slot : Z) (r : TransactionReceipt) : TransactionReceipt :=
  mkReceipt r.(r_tx_hash) h slot r.(status) r.(gas_used) r.(r_state_root).

(** The batch that both paths write: the overlay, the block and its receipts,
    the fees, the spent outputs. *)
Definition block_commit_batch (b : Block) (h : H256) (stored : list TransactionReceipt) (o : Ledger.PendingOverlay) :
    M Node error StorageBatch :=
  n ← get_state;
  let '(market, fee) := FeeMarket.process_block (total_gas b.(transactions)) (total_fees b.(transactions)) n.(fee_market) in
  modify (set_fee_market market);;
  batch ← on_ledger (Ledger.prepare_overlay_batch o);
  let batch := batch ++ build_block_batch b h stored in
  batch ← on_ledger (Ledger.fold_fee_distribution_into_batch batch o b.(header).(header_proposer)
                       fee.(FeeMarket.proposer_reward) fee.(FeeMarket.burned) fee.(FeeMarket.treasury_fee));
  mret (Ledger.record_spent_utxos batch o b.(header).(header_slot)).

Definition commit_block (b : Block) (h : H256) (stored : list TransactionReceipt) (o : Ledger.PendingOverlay) :
    M Node error unit :=
  let slot := b.(header).(header_slot) in
  batch ← block_commit_batch b h stored o;
  modify (λ n, foldl (apply_evidence slot) n b.(slash_evidence));;
  n ← get_state;
  on_ledger (Ledger.write_batch (persist_staking_state_to_batch n batch));;
  modify (λ n, set_committed_at_slot (<[slot := h]> n.(committed_at_slot)) n);;
  modify (λ n, set_fork_choice (ForkChoice.mark_committed slot n.(fork_choice)) n).

Definition insert_receipts (stored : list TransactionReceipt) (n : Node) : Node :=
  set_receipts (foldl (λ m r, <[r.(r_tx_hash) := r]> m) n.(receipts) stored) n.

(** Drop the included transactions from the pool and raise the nonces. *)
Definition update_mempool (txs : list Transaction) (n : Node) : Node :=
  let p := Mempool.remove_transactions (hash <$> txs) n.(mempool) in
  set_mempool (foldl (λ p t, Mempool.advance_sender_nonce t.(sender) (saturating_add U64_MAX t.(tx_nonce) 1) p) p txs) n.

(** [new_nonces] of a reorganisation: per sender, one above the highest nonce. *)
Definition tip_nonces (txs : list Transaction) : gmap Address Z :=
  foldl (λ m t, let next := saturating_add U64_MAX t.(tx_nonce) 1 in
                <[t.(sender) := match m !! t.(sender) with Some k => Z.max k next | None => next end]> m) ∅ txs.

Definition reorg_mempool (clk : Clock) (old : option H256) (b : Block) (n : Node) : Node :=
  match (h ← old; n.(blocks_by_hash) !! h) with
  | Some old_block =>
      set_mempool (Mempool.reorg ((λ t, (clk.(now_ns), t)) <$> old_block.(transactions)) (tip_nonces b.(transactions)) n.(mempool)) n
  | None => n
  end.

(** ** Receiving a block *)

Definition buffer_orphan (b : Block) (n : Node) : Node :=
  if n.(orphan_count) <? MAX_ORPHAN_BLOCKS then
    let p := b.(header).(parent_hash) in
    set_orphan_blocks (<[p := default [] (n.(orphan_blocks) !! p) ++ [b]]> n.(orphan_blocks))
      (set_orphan_count (n.(orphan_count) + 1) n)
  else n.

Definition is_orphan (b : Block) (n : Node) : bool :=
  (b.(header).(header_slot) >? 0) && negb (b.(header).(parent_hash) =? 0)%N &&
  negb (bool_decide (is_Some (n.(blocks_by_hash) !! b.(header).(parent_hash)))).

(** The block is valid: fork choice, commit, bookkeeping, vote. *)
Definition apply_block (clk : Clock) (b : Block) (h : H256) (rs : list TransactionReceipt) (o : Ledger.PendingOverlay) :
    M Node error unit :=
  let slot := b.(header).(header_slot) in
  let stored := stored_receipt h slot <$> rs in
  n ← get_state;
  let old_canonical := ForkChoice.canonical_block n.(fork_choice) slot in
  let '(fc, is_fork) := ForkChoice.add_block slot h n.(fork_choice) in
  modify (set_fork_choice fc);;
  let new_canonical := ForkChoice.canonical_block fc slot in
  let is_canonical := bool_decide (new_canonical = Some h) in
  let already_committed := from_option (λ h', negb (h' =? h)%N) false (n.(committed_at_slot) !! slot) in
  let should_commit := is_canonical && negb already_committed in
  (if should_commit then commit_block b h stored o else mret tt);;
  modify (λ n, if is_fork && negb (bool_decide (old_canonical = new_canonical)) then reorg_mempool clk old_canonical b n else n);;
  modify (λ n, set_blocks_by_hash (<[h := b]> n.(blocks_by_hash)) n);;
  modify (λ n, if should_commit then
                 set_latest_block_slot (Some slot) (set_latest_block_hash h
                   (set_blocks_by_slot (<[slot := h]> n.(blocks_by_slot)) n))
               else n);;
  modify (λ n, set_consensus (record_block h b.(header).(parent_hash) slot n.(consensus)) n);;
  modify (insert_receipts stored);;
  modify (update_mempool b.(transactions));;
  modify (vote_on_block clk b).

(** [check_sync_needed] at the end of [on_block_received]. *)
Definition update_sync (clk : Clock) (slot : Z) (n : Node) : Node :=
  match n.(latest_block_slot) with
  | Some local => set_sync_manager (Sync.check_sync_needed (now_ms clk) local slot n.(sync_manager)).1 n
  | None => n
  end.

(** [orphans] processes the blocks that waited for this one. *)
Definition receive_block (orphans : H256 → Node → Node) (clk : Clock) (b : Block) : M Node error unit :=
  n ← get_state;
  let h := block_hash b in
  let finalized := finalized_slot n.(consensus) in
  if bool_decide (is_Some (n.(blocks_by_hash) !! h)) then mret tt else
  if (b.(header).(header_slot) <=? finalized) && (finalized >? 0) then mret tt else
  bail_if (negb (b.(header).(version) =? PROTOCOL_VERSION))
    (Fmt "unsupported protocol version: got {}, expected {}" [b.(header).(version); PROTOCOL_VERSION]);;
  if is_orphan b n then modify (buffer_orphan b) else
  res ← reads (validate clk b);
  apply_block clk b h res.1 res.2;;
  modify (orphans h);;
  modify (update_sync clk b.(header).(header_slot)).

(** [receive] is [on_block_received]; its result is only logged. *)
Definition process_orphans (receive : Block → Node → Node) (parent : H256) (n : Node) : Node :=
  match n.(orphan_blocks) !! parent with
  | None => n
  | Some os =>
      let n := set_orphan_blocks (delete parent n.(orphan_blocks)) n in
      let n := set_orphan_count (saturating_sub n.(orphan_count) (Z.of_nat (length os))) n in
      foldl (λ n b, receive b n) n os
  end.

(** The recursion through the orphans, [depth] levels deep. *)
Fixpoint receive_deep (depth : nat) (clk : Clock) (b : Block) (n : Node) : Node * result error unit :=
  match depth with
  | O => receive_block (λ _ n, n) clk b n
  | S depth => receive_block (process_orphans (λ b n, (receive_deep depth clk b n).1)) clk b n
  end.

Definition buffered (m : gmap H256 (list Block)) : nat := map_fold (λ _ os acc, (length os + acc)%nat) 0%nat m.

(** Every level takes a buffered block, or ends. *)
Definition on_block_received (clk : Clock) (b : Block) (n : Node) : Node * result error unit :=
  receive_deep (S (size n.(orphan_blocks))) clk b n.

(** ** Producing a block *)

Definition select_transactions (slot : Z) (n : Node) : Node * list Transaction :=
  let forced := Mempool.must_include_transactions n.(mempool) slot n.(fee_market).(FeeMarket.base_fee) in
  let remaining := saturating_sub 1000 (Z.of_nat (length forced)) in
  let '(p, regular) := Mempool.get_transactions remaining MAX_BLOCK_GAS_LIMIT n.(mempool) in
  (set_mempool p n, if bool_decide (forced = []) then regular else forced ++ regular).

Definition EMPTY_VRF : VrfProof := mkVrfProof (replicate 32 0) [].

Definition with_roots (b : Block) (state txs rs : H256) : Block :=
  let h := b.(header) in
  mkBlock (mkBlockHeader h.(version) h.(header_slot) h.(parent_hash) state txs rs h.(header_proposer) h.(vrf_proof) h.(header_timestamp))
    b.(transactions) b.(aggregated_vote) b.(slash_evidence).

Definition produce_block (clk : Clock) (slot : Z) : M Node error unit :=
  txs ← (λ n, let '(n, txs) := select_transactions slot n in (n, Ok txs));
  n ← get_state;
  let vrf := default EMPTY_VRF (get_leader_proof slot n.(consensus)) in
  res ← reads (λ n, Ledger.apply_block_speculatively_with_chain_id n.(ledger) txs (Some n.(chain_config).(chain_id_numeric)));
  let '(rs, o) := res in
  key ← ok_or n.(validator_key) (Msg "validator_key required for block production");
  let b := with_roots (block_new clk.(now_secs) slot n.(latest_block_hash) (to_address key) vrf txs)
             o.(Ledger.overlay_root) (compute_transactions_root txs) (compute_receipts_root rs) in
  let h := block_hash b in
  match validate_block clk.(now_secs) b n.(consensus) with
  | Err _ => mret tt
  | Ok _ =>
      let stored := stored_receipt h slot <$> rs in
      batch ← block_commit_batch b h stored o;
      on_ledger (Ledger.write_batch batch);;
      modify (insert_receipts stored);;
      modify (λ n, set_fork_choice (ForkChoice.mark_committed slot (ForkChoice.add_block slot h n.(fork_choice)).1) n);;
      modify (λ n, set_committed_at_slot (<[slot := h]> n.(committed_at_slot)) n);;
      modify (λ n, set_latest_block_slot (Some slot) (set_latest_block_hash h n));;
      modify (λ n, set_blocks_by_slot (<[slot := h]> n.(blocks_by_slot)) n);;
      modify (λ n, set_blocks_by_hash (<[h := b]> n.(blocks_by_hash)) n);;
      modify (λ n, set_consensus (record_block h b.(header).(parent_hash) slot n.(consensus)) n);;
      modify (update_mempool txs);;
      modify (broadcast (BroadcastBlock b));;
      modify (vote_on_block clk b)
  end.

(** ** Finality *)

Definition finalize_slot (n : Node) (slot : Z) : Node :=
  let '(e, newly) := check_finality slot n.(consensus) in
  let n := set_consensus e n in
  if negb newly then n else
  let n := match get_block_by_slot n slot with
           | Some b =>
               let out := b.(header).(vrf_proof).(vrf_output) in
               if bool_decide (out = replicate 32 0) then n
               else set_consensus (update_epoch_randomness out n.(consensus)).1 n
           | None => n
           end in
  match n.(blocks_by_slot) !! slot with
  | Some h => set_fork_choice (ForkChoice.finalize slot h n.(fork_choice)).1 n
  | None => n
  end.

(** [start + 100] wraps. *)
Definition check_all_finality (n : Node) : Node :=
  let current := current_slot n.(consensus) in
  let last_finalized := finalized_slot n.(consensus) in
  let start := if last_finalized >? 0 then last_finalized else 0 in
  let stop := Z.min current (wrapping_add U64_MAX start 100) in
  foldl finalize_slot n (seqZ start (stop - start + 1)).

(** ** Receiving a vote *)

Definition on_vote_received (clk : Clock) (v : Vote) : M Node error unit :=
  let who := to_address v.(vote_validator) in
  modify (λ n,
    let '(d, found) := Slashing.record_vote who (as_bytes 32 v.(vote_validator)) v.(vote_slot) v.(vote_block_hash)
                         v.(vote_signature) n.(slashing_detector) in
    let n := set_slashing_detector d n in
    match found with
    | None => n
    | Some proof =>
        let key := (proof.(Slashing.accused), v.(vote_slot)) in
        if bool_decide (key ∈ n.(slashed_offenses)) then n else
        let n := set_slashed_offenses ({[key]} ∪ n.(slashed_offenses)) n in
        let '(n, slashed) := slash_both proof.(Slashing.accused) 500 (Slashing.slash_rate_bps proof.(Slashing.proof_type)) v.(vote_slot) n in
        if slashed then (persist_staking_state n).1 else n
    end);;
  (λ n, let '(e, r) := add_vote (now_ms clk) v n.(consensus) in (set_consensus e n, r));;
  modify check_all_finality.

(** ** Serving and driving synchronisation *)

Definition handle_block_range_request (clk : Clock) (from_slot to_slot : Z) (n : Node) : Node :=
  if from_option (λ last, Z.max 0 (now_ms clk - last) <? SYNC_RESPONSE_COOLDOWN) false n.(last_sync_response) then n else
  let stop := Z.min to_slot (saturating_add U64_MAX from_slot MAX_BLOCKS_PER_RESPONSE) in
  let serve := λ '(n, served) slot,
    match get_block_by_slot n slot with
    | Some b => (broadcast (BroadcastBlock b) n, true)
    | None => (n, served)
    end in
  let '(n, served) := foldl serve (n, false) (seqZ from_slot (stop - from_slot + 1)) in
  if served : bool then set_last_sync_response (Some (now_ms clk)) n else n.

Definition drive_sync (clk : Clock) (slot : Z) (n : Node) : Node :=
  let my_latest := default 0 n.(latest_block_slot) in
  let now := now_ms clk in
  let n := if Sync.is_syncing n.(sync_manager) then
             let '(m, stalled) := Sync.check_stalled now n.(sync_manager) in
             set_sync_manager (if stalled : bool then Sync.retry_after_stall now slot m else m) n
           else n in
  let '(m, needed) := Sync.check_sync_needed now my_latest slot n.(sync_manager) in
  let n := set_sync_manager m n in
  let n := if needed : bool then
             let n := if n.(sync_manager).(Sync.blocks_applied) =? 0 then
                        match latest_block_hash_if_set n with
                        | Some h => set_sync_manager (Sync.set_expected_parent h n.(sync_manager)) n
                        | None => n
                        end
                      else n in
             let '(m, request) := Sync.next_request n.(sync_manager) in
             let n := set_sync_manager m n in
             match request with
             | Some (from, to) => broadcast (RequestBlockRange from to) n
             | None => n
             end
           else n in
  let '(m, ready) := Sync.drain_ready n.(sync_manager) in
  let n := set_sync_manager m n in
  foldl (λ n b, match on_block_received clk b n with
                | (n, Ok _) => set_sync_manager (Sync.record_applied n.(sync_manager)) n
                | (n, Err _) => n
                end) n ready.

(** ** Network events *)

Definition bounded {A} (data : bytes) (max : Z) (de : bytes → result error A) : option A :=
  if Z.of_nat (length data) >? max then None else ok (de data).

Definition decode_network_event (e : NetworkEvent) : option NodeMessage :=
  match e with
  | NetBlock data => BlockReceived <$> bounded data MAX_BLOCK_SIZE de_block
  | NetVote data => VoteReceived <$> bounded data MAX_VOTE_SIZE de_vote
  | NetTransaction data => TransactionReceived <$> bounded data MAX_TX_SIZE de_tx
  | NetSync data => (λ r, BlockRangeRequested r.1 r.2) <$> bounded data MAX_SYNC_SIZE de_sync
  | NetShred _ => None
  | NetPeerConnected => Some PeerConnected
  | NetPeerDisconnected => Some PeerDisconnected
  end.

Definition usize_max : Z := U64_MAX.

Definition handle_network_event (clk : Clock) (e : NetworkEvent) (n : Node) : Node :=
  match decode_network_event e with
  | Some (BlockReceived b) =>
      if Sync.is_syncing n.(sync_manager)
      then set_sync_manager (Sync.buffer_block (now_ms clk) b n.(sync_manager)).1 n
      else (on_block_received clk b n).1
  | Some (VoteReceived v) => (on_vote_received clk v n).1
  | Some (TransactionReceived t) => set_mempool (Mempool.add_transaction clk.(now_ns) t n.(mempool)).1 n
  | Some (BlockRangeRequested from to) => handle_block_range_request clk from to n
  | Some PeerConnected => set_peer_count (saturating_add usize_max n.(peer_count) 1) n
  | Some PeerDisconnected => set_peer_count (saturating_sub n.(peer_count) 1) n
  | None => n
  end.

(** ** Epochs *)

Fixpoint credit_all (credits : list (Address * Z)) (batch : StorageBatch) : M Node error StorageBatch :=
  match credits with
  | [] => mret batch
  | (a, amount) :: credits =>
      batch ← on_ledger (Ledger.credit_account_to_batch batch a amount);
      credit_all credits batch
  end.

(** Emission shares, without the empty ones. *)
Definition shares (emission total : Z) (vs : list (Address * Z)) : list (Address * Z) :=
  filter (λ s, 0 < s.2) ((λ v, (v.1, mul_div emission v.2 total)) <$> vs).

Definition txs_of (bs : bytes) : result error (list Transaction) := b ← de_block bs; mret b.(transactions).

(** The results of the prunings are only logged. *)
Definition prune_storage (new_epoch : Z) (n : Node) : Node :=
  let retention := n.(chain_config).(retention_epochs) in
  if (retention >? 0) && (new_epoch >? retention) then
    let before := saturating_mul U64_MAX (new_epoch - retention) n.(chain_config).(epoch_slots) in
    let set_db db n := set_ledger (Ledger.mkLedger db n.(ledger).(Ledger.merkle_tree)) n in
    let n := match Storage.prune_old_blocks_and_receipts txs_of before n.(ledger).(Ledger.storage) with
             | Ok (db, _) => set_db db n
             | Err _ => n
             end in
    match Storage.prune_spent_utxos before n.(ledger).(Ledger.storage) with
    | Ok (db, _) => set_db db n
    | Err _ => n
    end
  else n.

Definition process_epoch_transition (new_epoch : Z) : M Node error unit :=
  n ← get_state;
  let slot := current_slot n.(consensus) in
  let emission := EmissionSchedule.epoch_emission n.(emission_schedule) slot n.(chain_config).(swr_initial_supply) in
  if emission =? 0 then mret tt else
  let total := total_stake n.(consensus) in
  if total =? 0 then mret tt else
  batch ← credit_all (shares emission total (validator_addresses_and_stakes n.(consensus))) [];
  n ← get_state;
  let '(st, completed) := Staking.complete_unbonding slot n.(staking_state) in
  modify (set_staking_state st);;
  batch ← credit_all completed batch;
  n ← get_state;
  on_ledger (Ledger.write_batch (persist_staking_state_to_batch n batch));;
  modify (prune_storage new_epoch).

(** ** Bounding the caches *)

Fixpoint evict_blocks (fuel : nat) (n : Node) : Node :=
  match fuel with
  | O => n
  | S fuel =>
      if (MAX_CACHED_BLOCKS <? size n.(blocks_by_hash))%nat then
        match head (btree_iter n.(blocks_by_slot)) with
        | Some (slot, h) =>
            let n := set_blocks_by_slot (delete slot n.(blocks_by_slot)) n in
            evict_blocks fuel (set_blocks_by_hash (delete h n.(blocks_by_hash)) n)
        | None => n
        end
      else n
  end.

Definition older (x y : Z * H256) : Prop := x.1 ≤ y.1.
#[local] Instance older_dec : RelDecision older.
Proof. intros x y. unfold older. apply _. Defined.

Definition evict_receipts (n : Node) : Node :=
  if (MAX_CACHED_RECEIPTS <? size n.(receipts))%nat then
    let by_slot := merge_sort older ((λ e, (e.2.(r_slot), e.1)) <$> hash_iter n.(receipts)) in
    set_receipts (foldl (λ m e, delete e.2 m) n.(receipts) (take 1000 by_slot)) n
  else n.

Definition prune_stale_orphans (min_slot : Z) (n : Node) : Node :=
  if min_slot =? 0 then n else
  let kept := (λ os, filter (λ b, min_slot < b.(header).(header_slot)) os) <$> n.(orphan_blocks) in
  let pruned := (buffered n.(orphan_blocks) - buffered kept)%nat in
  let n := set_orphan_blocks (filter (λ e, e.2 ≠ []) kept) n in
  if (0 <? pruned)%nat then set_orphan_count (saturating_sub n.(orphan_count) (Z.of_nat pruned)) n else n.

Definition evict_old_cache (n : Node) : Node :=
  let n := evict_receipts (evict_blocks (S (size n.(blocks_by_slot))) n) in
  let finalized := finalized_slot n.(consensus) in
  let n := set_fork_choice (ForkChoice.prune_before finalized n.(fork_choice)) n in
  let n := set_slashing_detector (Slashing.prune_before finalized n.(slashing_detector)) n in
  let n := set_committed_at_slot (filter (λ e, finalized ≤ e.1) n.(committed_at_slot)) n in
  let n := set_slashed_offenses (filter (λ e, finalized ≤ e.2) n.(slashed_offenses)) n in
  let n := set_voted_slots (filter (λ s, finalized ≤ s) n.(voted_slots)) n in
  prune_stale_orphans finalized n.

(** ** The slot loop *)

Definition check_timeout (clk : Clock) (n : Node) : Node :=
  if is_timed_out (now_ms clk) n.(consensus) then
    set_consensus (on_timeout (now_ms clk) n.(consensus))
      (set_consecutive_timeouts (wrapping_add U32_MAX n.(consecutive_timeouts) 1) n)
  else set_consecutive_timeouts 0 n.

(** [epoch_slots] is positive in every configuration that passes its validation
    ([Config.validate]); the division of the source panics at zero. *)
Definition process_slot (clk : Clock) : M Node error unit :=
  n ← get_state;
  let slot := current_slot n.(consensus) in
  modify (λ n, set_mempool (Mempool.set_current_slot slot n.(mempool)) n);;
  let epoch := slot / n.(chain_config).(epoch_slots) in
  (if epoch >? n.(current_epoch) then process_epoch_transition epoch else mret tt);;
  modify (set_current_epoch epoch);;
  modify (check_timeout clk);;
  n ← get_state;
  match n.(validator_key) with
  | Some pk => if is_leader slot pk n.(consensus) then produce_block clk slot else mret tt
  | None => mret tt
  end;;
  modify check_all_finality;;
  modify (drive_sync clk slot);;
  modify evict_old_cache.

Definition tick (clk : Clock) : M Node error unit :=
  process_slot clk;;
  modify (λ n, set_consensus (advance_slot n.(consensus)) n).

(** ** Start *)

Definition load_persisted_chain_tip (db : DB) : option (Z * H256) :=
  slot_bytes ← read db CF_METADATA CHAIN_TIP_SLOT;
  hash_bytes ← read db CF_METADATA CHAIN_TIP_HASH;
  if negb (length slot_bytes =? 8)%nat || negb (length hash_bytes =? 32)%nat then None else
  h ← h256_of_bytes hash_bytes;
  Some (from_le_bytes slot_bytes, h).

Definition slot_le (x y : Z * H256 * Block) : Prop := x.1.1 ≤ y.1.1.
#[local] Instance slot_le_dec : RelDecision slot_le.
Proof. intros x y. unfold slot_le. apply _. Defined.

Record Loaded := mkLoaded { by_slot : gmap Z H256; by_hash : gmap H256 Block; latest_hash : H256; latest_slot : option Z }.

Definition load_block (s : Loaded) (e : Z * H256 * Block) : Loaded :=
  let '(slot, h, b) := e in
  let newer := from_option (λ s, s <? slot) true s.(latest_slot) in
  mkLoaded (<[slot := h]> s.(by_slot)) (<[h := b]> s.(by_hash))
    (if newer then h else s.(latest_hash)) (if newer then Some slot else s.(latest_slot)).

Definition load_blocks_from_storage (db : DB) : result error Loaded :=
  entries ← Storage.iterator db CF_BLOCKS;
  let all := omap (λ kv, match de_block kv.2 with
                         | Ok b => Some (b.(header).(header_slot), block_hash b, b)
                         | Err _ => None
                         end) entries in
  let all := merge_sort slot_le all in
  let recent := drop (length all - MAX_CACHED_BLOCKS) all in
  let s := foldl load_block (mkLoaded ∅ ∅ 0%N None) recent in
  mret (match load_persisted_chain_tip db with
        | Some (tip_slot, tip_hash) =>
            if bool_decide (is_Some (s.(by_hash) !! tip_hash))
            then mkLoaded s.(by_slot) s.(by_hash) tip_hash (Some tip_slot) else s
        | None => s
        end).

Definition new (db : DB) (engine : E) (key : option PublicKey) (bls : option Bls.BlsKeypair) (cfg : ChainConfig) : result error Node :=
  l ← Ledger.new db;
  s ← load_blocks_from_storage l.(Ledger.storage);
  st ← match Storage.get l.(Ledger.storage) CF_STAKING STAKING_STATE with
       | Ok (Some bs) => map_err (prefix_error "failed to deserialize persisted staking state: ") (de_staking bs)
       | _ => Ok Staking.new
       end;
  let engine := match s.(latest_slot) with
                | Some tip => let target := saturating_add U64_MAX tip 1 in
                              skip_to_slot (Z.to_nat (target - current_slot engine)) target engine
                | None => engine
                end in
  mret (mkNode cfg l (Mempool.new cfg.(fees) cfg.(chain_id_numeric)) engine key bls false
    (FeeMarket.new cfg.(fees).(fee_a) cfg.(block_bytes_max) cfg.(min_base_fee))
    (EmissionSchedule.new cfg.(swr_initial_supply) cfg.(slot_ms) cfg.(epoch_slots)) 0 ForkChoice.new
    s.(latest_hash) s.(latest_slot) s.(by_slot) s.(by_hash) ∅ st None [] 0 Slashing.new ∅ ∅ (Sync.new 10) 0 ∅ 0 0 None None ∅ []).
End node. 
End Node.
