(* ===== verification/NodeSafety.v ===== *)
(** * Safety of the node

    Invariants that every handler of the node keeps, by a small program logic:
    [respects R m] says that the computation [m] moves the node along the
    preorder [R], whether it succeeds or fails. *)

From S2P Require Import Prelude.
From S2P Require Import Staking.
From S2P Require Import Consensus.
From S2P Require Import Bls.
From S2P Require Import Transaction.
From S2P Require Import Storage.
From S2P Require Import Ledger.
From S2P Require Import FeeMarket.
From S2P Require Import Slashing.
From S2P Require Import Mempool.
From S2P Require Import ForkChoice.
From S2P Require Import Block.
From S2P Require Import Sync.
From S2P Require Import Engine.
From S2P Require Import Node.

Module NodeSafety.
Import Node.

Section safety.
Context `{Digest, Codec, Dalek, HashOrder, HeapOrder, Blst, BlockCodec, NodeCodec, RocksDb}.
Context {E : Type} `{!Finality E, !ConsensusEngine E}.
Implicit Types n : Node (E := E).

(** ** The logic *)

Section logic.
Context (R : Node (E := E) → Node (E := E) → Prop) `{!PreOrder R}.

Definition respects {A} (m : M (Node (E := E)) error A) : Prop := ∀ n, R n (m n).1.

Lemma respects_ret {A} (a : A) : respects (mret a).
Proof. intros n. reflexivity. Qed.
Lemma respects_throw {A} (e : error) : respects (mthrow e : M _ _ A).
Proof. intros n. reflexivity. Qed.
Lemma respects_bind {A B} (m : M (Node (E := E)) error A) (k : A → M (Node (E := E)) error B) :
  respects m → (∀ a, respects (k a)) → respects (mbind k m).
Proof.
  intros Hm Hk n. specialize (Hm n). unfold mbind, M_bind. destruct (m n) as [n1 [a|e]]; [|done].
  cbn in Hm. etransitivity; [exact Hm|apply Hk].
Qed.
Lemma respects_get {B} (k : Node (E := E) → M (Node (E := E)) error B) :
  (∀ n, R n (k n n).1) → respects (mbind k get_state).
Proof. intros Hk n. apply Hk. Qed.
Lemma respects_modify f : (∀ n, R n (f n)) → respects (modify f).
Proof. intros Hf n. apply Hf. Qed.
Lemma respects_reads {A} (f : Node (E := E) → result error A) : respects (reads f).
Proof. intros n. reflexivity. Qed.
Lemma respects_bail b (e : error) : respects (bail_if b e).
Proof. unfold bail_if. destruct b; [apply respects_throw|apply respects_ret]. Qed.
Lemma respects_ok_or {A} (o : option A) (e : error) : respects (ok_or o e).
Proof. unfold ok_or. destruct o; [apply respects_ret|apply respects_throw]. Qed.
Lemma respects_foldl {A} (f : Node (E := E) → A → Node (E := E)) l n : (∀ n x, R n (f n x)) → R n (foldl f n l).
Proof. intros Hf. revert n. induction l as [|x l IH]; intros n; cbn; [reflexivity|]. etransitivity; [apply Hf|apply IH]. Qed.
End logic.

(** ** Relations that do not depend on the other components *)

Definition is_vote (m : OutboundMessage) : bool := match m with BroadcastVote _ => true | _ => false end.

(** [R] holds across the elementary changes of committing a block. *)
Record core (R : Node (E := E) → Node (E := E) → Prop) : Prop := {
  co_preorder : PreOrder R;
  co_ledger : ∀ n x, R n (set_ledger x n);
  co_mempool : ∀ n x, R n (set_mempool x n);
  co_consensus : ∀ n x, R n (set_consensus x n);
  co_fee_market : ∀ n x, R n (set_fee_market x n);
  co_fork_choice : ∀ n x, R n (set_fork_choice x n);
  co_latest_block_hash : ∀ n x, R n (set_latest_block_hash x n);
  co_latest_block_slot : ∀ n x, R n (set_latest_block_slot x n);
  co_blocks_by_slot : ∀ n x, R n (set_blocks_by_slot x n);
  co_receipts : ∀ n x, R n (set_receipts x n);
  co_staking_state : ∀ n x, R n (set_staking_state x n);
  co_offenses : ∀ n x, R n (set_slashed_offenses x n);
  co_sync_manager : ∀ n x, R n (set_sync_manager x n);
  co_committed : ∀ n x, R n (set_committed_at_slot x n);
  co_add_block : ∀ n h b, R n (set_blocks_by_hash (<[h := b]> n.(blocks_by_hash)) n);
  co_vote : ∀ n clk b, R n (vote_on_block clk b n)
}.

(** And across all others that the handlers make. *)
Record stable (R : Node (E := E) → Node (E := E) → Prop) : Prop := {
  st_core : core R;
  st_current_epoch : ∀ n x, R n (set_current_epoch x n);
  st_outbound_buffer : ∀ n x, R n (set_outbound_buffer x n);
  st_broadcast_tx : ∀ n x, R n (set_broadcast_tx x n);
  st_timeouts : ∀ n x, R n (set_consecutive_timeouts x n);
  st_detector : ∀ n x, R n (set_slashing_detector x n);
  st_peer_count : ∀ n x, R n (set_peer_count x n);
  st_last_sync : ∀ n x, R n (set_last_sync_response x n);
  st_drop_block : ∀ n h, R n (set_blocks_by_hash (delete h n.(blocks_by_hash)) n);
  st_forget_votes : ∀ n s, R n (set_voted_slots (filter (λ x, s ≤ x) n.(voted_slots)) n);
  st_broadcast : ∀ n m, is_vote m = false → R n (broadcast m n);
  st_buffer : ∀ n b, R n (buffer_orphan b n);
  st_take : ∀ n p os, n.(orphan_blocks) !! p = Some os →
    R n (set_orphan_count (saturating_sub n.(orphan_count) (Z.of_nat (length os))) (set_orphan_blocks (delete p n.(orphan_blocks)) n));
  st_prune_orphans : ∀ n s, R n (prune_stale_orphans s n)
}.

Section commit.
Context (R : Node (E := E) → Node (E := E) → Prop) (HC : core R).

#[local] Instance core_preorder : PreOrder R := co_preorder R HC.

(** One elementary change, and one after another. *)
Local Ltac elementary := first [
    apply (co_ledger R HC) | apply (co_mempool R HC) | apply (co_consensus R HC) | apply (co_fee_market R HC)
    | apply (co_fork_choice R HC) | apply (co_latest_block_hash R HC) | apply (co_latest_block_slot R HC) |
    apply (co_blocks_by_slot R HC) | apply (co_receipts R HC) | apply (co_staking_state R HC) | apply
    (co_offenses R HC) | apply (co_sync_manager R HC) | apply (co_committed R HC) | apply (co_vote R HC) |
    apply (co_add_block R HC) ].
Local Ltac steps := cbv zeta beta; repeat first [reflexivity | elementary | etransitivity; [|elementary]; cbv beta].

Lemma on_ledger_respects {A} (m : M Ledger.Ledger error A) : respects R (on_ledger m).
Proof. intros n. unfold on_ledger. destruct (m n.(ledger)) as [l r]. cbn. steps. Qed.

Lemma insert_receipts_R rs n : R n (insert_receipts rs n).
Proof. unfold insert_receipts. steps. Qed.
Lemma update_mempool_R txs n : R n (update_mempool txs n).
Proof. unfold update_mempool. steps. Qed.
Lemma reorg_mempool_R clk old b n : R n (reorg_mempool clk old b n).
Proof. unfold reorg_mempool. case_match; steps. Qed.
Lemma update_sync_R clk slot n : R n (update_sync clk slot n).
Proof. unfold update_sync. case_match; steps. Qed.

Lemma slash_both_R who c r slot n : R n (slash_both who c r slot n).1.
Proof. unfold slash_both. cbv zeta. destruct (Staking.slash _ _ _ _) as [st res]. cbn. steps. Qed.

Lemma apply_evidence_R slot ev n : R n (apply_evidence slot n ev).
Proof.
  unfold apply_evidence. repeat case_match; try reflexivity.
  all: etransitivity; [|apply slash_both_R]; steps.
Qed.

(** Monadic code: sequencing, and the elementary changes. *)
Local Ltac monadic := cbv beta zeta; repeat
  lazymatch goal with
  | |- respects _ (mbind _ _) => apply (respects_bind R); [|intros ?; cbv beta zeta]
  | |- respects _ (modify _) => apply (respects_modify R); intros ?
  | |- respects _ (mret _) => apply (respects_ret R)
  | |- respects _ (reads _) => apply (respects_reads R)
  | |- respects _ (bail_if _ _) => apply (respects_bail R)
  | |- respects _ (ok_or _ _) => apply (respects_ok_or R)
  | |- respects _ (on_ledger _) => apply on_ledger_respects
  end.

Lemma block_commit_batch_respects b h rs o : respects R (block_commit_batch b h rs o).
Proof.
  unfold block_commit_batch. apply (respects_get R). intros n.
  destruct (FeeMarket.process_block _ _ _) as [market fee].
  match goal with |- R n (?m n).1 => change (R n (m n).1); enough (Hm : respects R m) by apply Hm end.
  monadic. steps.
Qed.

Lemma commit_block_respects b h rs o : respects R (commit_block b h rs o).
Proof.
  unfold commit_block. cbv zeta. apply (respects_bind R); [apply block_commit_batch_respects|intros batch].
  apply (respects_bind R); [apply (respects_modify R)|intros _].
  { intros n. apply (respects_foldl R). intros. apply apply_evidence_R. }
  apply (respects_get R). intros n.
  match goal with |- R n (?m n).1 => enough (Hm : respects R m) by apply Hm end. monadic; steps.
Qed.

Lemma apply_block_respects clk b h rs o : respects R (apply_block clk b h rs o).
Proof.
  unfold apply_block. cbv zeta. apply (respects_get R). intros n.
  destruct (ForkChoice.add_block _ _ _) as [fc is_fork].
  match goal with |- R n (?m n).1 => enough (Hm : respects R m) by apply Hm end.
  apply (respects_bind R); [apply (respects_modify R); intros; steps|intros _].
  apply (respects_bind R); [case_match; [apply commit_block_respects|apply (respects_ret R)]|intros _].
  monadic; try case_match;
    first [apply reorg_mempool_R | apply insert_receipts_R | apply update_mempool_R | solve [steps]].
Qed.

End commit.

Section handlers.
Context (R : Node (E := E) → Node (E := E) → Prop) (HR : stable R).

#[local] Instance R_preorder : PreOrder R := co_preorder R (st_core R HR).
Let HC : core R := st_core R HR.

Local Ltac elementary := first [
    apply (co_ledger R HC) | apply (co_mempool R HC) | apply (co_consensus R HC) | apply (co_fee_market R HC)
    | apply (co_fork_choice R HC) | apply (co_latest_block_hash R HC) | apply (co_latest_block_slot R HC) |
    apply (co_blocks_by_slot R HC) | apply (co_receipts R HC) | apply (co_staking_state R HC) | apply
    (co_offenses R HC) | apply (co_sync_manager R HC) | apply (co_committed R HC) | apply (co_vote R HC) | apply (co_add_block R HC)
    | apply (st_current_epoch R HR) | apply (st_outbound_buffer R HR) | apply (st_broadcast_tx R HR) | apply
    (st_timeouts R HR) | apply (st_detector R HR) | apply (st_peer_count R HR) | apply (st_last_sync R HR) |
    apply (st_drop_block R HR) | apply (st_forget_votes R HR) | apply (st_buffer R HR) | apply
    (st_prune_orphans R HR)
    | apply (st_broadcast R HR); reflexivity | eapply (st_take R HR); eassumption ].
Local Ltac steps := cbv zeta beta; repeat first [reflexivity | elementary | etransitivity; [|elementary]; cbv beta].
Local Ltac monadic := cbv beta zeta; repeat
  lazymatch goal with
  | |- respects _ (mbind _ _) => apply (respects_bind R); [|intros ?; cbv beta zeta]
  | |- respects _ (modify _) => apply (respects_modify R); intros ?
  | |- respects _ (mret _) => apply (respects_ret R)
  | |- respects _ (on_ledger _) => apply (on_ledger_respects R HC)
  end.

Lemma finalize_slot_R n slot : R n (finalize_slot n slot).
Proof.
  unfold finalize_slot. destruct (check_finality slot n.(consensus)) as [e newly]. cbv zeta.
  etransitivity; [apply (co_consensus R HC n e)|]. destruct (negb newly); [reflexivity|].
  etransitivity; [|case_match; steps]. repeat case_match; steps.
Qed.

Lemma check_all_finality_R n : R n (check_all_finality n).
Proof. unfold check_all_finality. cbv zeta. apply (respects_foldl R). intros. apply finalize_slot_R. Qed.

Lemma receive_block_respects orphans clk b :
  (∀ h n, R n (orphans h n)) → respects R (receive_block orphans clk b).
Proof.
  intros Ho. unfold receive_block. apply (respects_get R). intros n. cbv zeta.
  match goal with |- R n (?m n).1 => enough (Hm : respects R m) by apply Hm end.
  case_bool_decide; [apply (respects_ret R)|]. case_match; [apply (respects_ret R)|].
  apply (respects_bind R); [apply (respects_bail R)|intros _]. case_match; [apply (respects_modify R); intros; steps|].
  apply (respects_bind R); [apply (respects_reads R)|intros [rs o]].
  apply (respects_bind R); [apply (apply_block_respects R HC)|intros _].
  apply (respects_bind R); [apply (respects_modify R), Ho|intros _].
  apply (respects_modify R). intros. apply (update_sync_R R HC).
Qed.

Lemma process_orphans_R receive parent n :
  (∀ b n, R n (receive b n)) → R n (process_orphans receive parent n).
Proof.
  intros Hr. unfold process_orphans. case_match eqn:Ho; [|reflexivity]. cbv zeta.
  etransitivity; [|apply (respects_foldl R); intros; apply Hr]. cbn. by apply (st_take R HR).
Qed.

Lemma receive_deep_respects depth clk b : respects R (receive_deep depth clk b).
Proof.
  revert b. induction depth as [|depth IH]; intros b; cbn [receive_deep].
  - apply receive_block_respects. reflexivity.
  - apply receive_block_respects. intros h n. apply process_orphans_R. intros b' n'. apply IH.
Qed.

Lemma on_block_received_respects clk b : respects R (on_block_received clk b).
Proof. intros n. apply receive_deep_respects. Qed.

Lemma select_transactions_R slot n : R n (select_transactions slot n).1.
Proof. unfold select_transactions. destruct (Mempool.get_transactions _ _ _) as [p regular]. cbn. steps. Qed.

Lemma produce_block_respects clk slot : respects R (produce_block clk slot).
Proof.
  unfold produce_block. apply (respects_bind R).
  { intros n. pose proof (select_transactions_R slot n) as Hs. by destruct (select_transactions slot n). }
  intros txs. apply (respects_get R). intros n. cbv zeta.
  match goal with |- R n (?m n).1 => enough (Hm : respects R m) by apply Hm end.
  apply (respects_bind R); [apply (respects_reads R)|intros [rs o]].
  apply (respects_bind R); [apply (respects_ok_or R)|intros key]. cbv zeta. case_match; [|apply (respects_ret R)].
  apply (respects_bind R); [apply (block_commit_batch_respects R HC)|intros batch]. monadic;
    first [apply (insert_receipts_R R HC) | apply (update_mempool_R R HC) | solve [steps]].
Qed.

Lemma persist_staking_R n : R n (persist_staking_state n).1.
Proof. unfold persist_staking_state. apply (respects_get R). intros m. apply (on_ledger_respects R HC). Qed.

Lemma on_vote_received_respects clk v : respects R (on_vote_received clk v).
Proof.
  unfold on_vote_received. cbv zeta. apply (respects_bind R).
  - apply (respects_modify R). intros n. destruct (Slashing.record_vote _ _ _ _ _ _) as [d [proof|]]; [|steps].
    etransitivity; [apply (st_detector R HR n d)|]. case_bool_decide; [reflexivity|].
    etransitivity; [apply (co_offenses R HC)|].
    match goal with |- context [slash_both ?a ?b ?c ?d ?m] => pose proof (slash_both_R R HC a b c d m) as Hs; destruct (slash_both a b c d m) as [m' [|]] end;
      cbn in Hs; [|exact Hs]. etransitivity; [exact Hs|apply persist_staking_R].
  - intros _. apply (respects_bind R).
    + intros n. destruct (add_vote _ _ _) as [e r]. cbn. steps.
    + intros _. apply (respects_modify R). intros. apply check_all_finality_R.
Qed.

Lemma handle_block_range_request_R clk from to n : R n (handle_block_range_request clk from to n).
Proof.
  unfold handle_block_range_request. case_match; [reflexivity|]. cbv zeta.
  set (serve := λ '(n, served) slot, _).
  assert (Hserve : ∀ l n served, R n (foldl serve (n, served) l).1).
  { induction l as [|slot l IH]; intros m served; cbn [foldl]; [reflexivity|]. unfold serve at 2.
    destruct (get_block_by_slot m slot); [|apply IH]. etransitivity; [|apply IH]. by apply (st_broadcast R HR). }
  specialize (Hserve (seqZ from (Z.min to (saturating_add U64_MAX from MAX_BLOCKS_PER_RESPONSE) - from + 1)) n false).
  destruct (foldl serve _ _) as [m [|]]; cbn in Hserve; [|exact Hserve]. etransitivity; [exact Hserve|]. steps.
Qed.

Lemma drive_sync_R clk slot n : R n (drive_sync clk slot n).
Proof.
  unfold drive_sync. cbv zeta. set (n1 := if Sync.is_syncing _ then _ else n).
  assert (H1' : R n n1) by (unfold n1; case_match; [|reflexivity]; destruct (Sync.check_stalled _ _); steps).
  etransitivity; [exact H1'|]. clearbody n1. clear H1'. destruct (Sync.check_sync_needed _ _ _ _) as [m needed].
  etransitivity; [apply (co_sync_manager R HC n1 m)|]. set (n2 := set_sync_manager m n1). clearbody n2. clear n1.
  set (n3 := if needed then _ else n2). assert (H3' : R n2 n3).
  { unfold n3. destruct needed; [|reflexivity]. set (n4 := if _ =? _ then _ else n2).
    assert (H4' : R n2 n4) by (unfold n4; case_match; [|reflexivity]; case_match; steps).
    etransitivity; [exact H4'|]. destruct (Sync.next_request _) as [m' [[from to]|]]; [|steps].
    etransitivity; [apply (co_sync_manager R HC n4 m')|]. by apply (st_broadcast R HR). }
  etransitivity; [exact H3'|]. clearbody n3. clear H3'. destruct (Sync.drain_ready _) as [m' ready].
  etransitivity; [apply (co_sync_manager R HC n3 m')|]. apply (respects_foldl R). intros n5 b.
  pose proof (on_block_received_respects clk b n5) as Hb. destruct (on_block_received clk b n5) as [n6 [|]]; cbn in Hb; [|exact Hb].
  etransitivity; [exact Hb|]. steps.
Qed.

Lemma handle_network_event_R clk e n : R n (handle_network_event clk e n).
Proof.
  unfold handle_network_event. destruct (decode_network_event e) as [[b|v|t|from to| |]|]; try (steps; fail); try reflexivity.
  - case_match; [steps|apply on_block_received_respects].
  - apply on_vote_received_respects.
  - apply handle_block_range_request_R.
Qed.

Lemma credit_all_respects credits batch : respects R (credit_all credits batch).
Proof.
  revert batch. induction credits as [|[a amount] credits IH]; intros batch; cbn [credit_all]; [apply (respects_ret R)|].
  apply (respects_bind R); [apply (on_ledger_respects R HC)|intros; apply IH].
Qed.

Lemma prune_storage_R new_epoch n : R n (prune_storage new_epoch n).
Proof.
  unfold prune_storage. case_match; [|reflexivity]. cbv zeta. set (n1 := match _ with Ok _ => _ | Err _ => n end).
  assert (H1' : R n n1) by (unfold n1; repeat case_match; steps). etransitivity; [exact H1'|]. repeat case_match; steps.
Qed.

Lemma process_epoch_transition_respects new_epoch : respects R (process_epoch_transition new_epoch).
Proof.
  unfold process_epoch_transition. apply (respects_get R). intros n. cbv zeta.
  match goal with |- R n (?m n).1 => enough (Hm : respects R m) by apply Hm end.
  do 2 (case_match; [apply (respects_ret R)|]). apply (respects_bind R); [apply credit_all_respects|intros batch].
  apply (respects_get R). intros n1. destruct (Staking.complete_unbonding _ _) as [st completed].
  match goal with |- R n1 (?m n1).1 => enough (Hm : respects R m) by apply Hm end.
  apply (respects_bind R); [apply (respects_modify R); intros; steps|intros _].
  apply (respects_bind R); [apply credit_all_respects|intros batch'].
  apply (respects_get R). intros n2. match goal with |- R n2 (?m n2).1 => enough (Hm : respects R m) by apply Hm end.
  monadic. apply prune_storage_R.
Qed.

Lemma evict_blocks_R fuel n : R n (evict_blocks fuel n).
Proof.
  revert n. induction fuel as [|fuel IH]; intros n; cbn [evict_blocks]; [reflexivity|].
  case_match; [|reflexivity]. case_match; [|reflexivity]. case_match. etransitivity; [|apply IH]. steps.
Qed.

Lemma evict_old_cache_R n : R n (evict_old_cache n).
Proof.
  unfold evict_old_cache. cbv zeta. etransitivity; [apply (evict_blocks_R (S (size n.(blocks_by_slot))))|].
  set (n1 := evict_blocks _ n). clearbody n1. set (n2 := evict_receipts n1).
  assert (H2' : R n1 n2) by (unfold n2, evict_receipts; case_match; steps). etransitivity; [exact H2'|]. clearbody n2. steps.
Qed.

Lemma check_timeout_R clk n : R n (check_timeout clk n).
Proof. unfold check_timeout. case_match; steps. Qed.

Lemma process_slot_respects clk : respects R (process_slot clk).
Proof.
  unfold process_slot. apply (respects_get R). intros n. cbv zeta.
  match goal with |- R n (?m n).1 => enough (Hm : respects R m) by apply Hm end.
  apply (respects_bind R); [apply (respects_modify R); intros; steps|intros _].
  apply (respects_bind R); [case_match; [apply process_epoch_transition_respects|apply (respects_ret R)]|intros _].
  apply (respects_bind R); [apply (respects_modify R); intros; steps|intros _].
  apply (respects_bind R); [apply (respects_modify R); intros; apply check_timeout_R|intros _].
  apply (respects_get R). intros n1. match goal with |- R n1 (?m n1).1 => enough (Hm : respects R m) by apply Hm end.
  apply (respects_bind R); [repeat case_match; first [apply produce_block_respects|apply (respects_ret R)]|intros _].
  monadic; [apply check_all_finality_R|apply drive_sync_R|apply evict_old_cache_R].
Qed.

Lemma tick_respects clk : respects R (tick clk).
Proof. unfold tick. apply (respects_bind R); [apply process_slot_respects|]. intros _. apply (respects_modify R). intros. steps. Qed.

Lemma submit_transaction_respects clk t : respects R (submit_transaction clk t).
Proof.
  unfold submit_transaction. cbv zeta. apply (respects_bind R).
  - intros n. destruct (Mempool.add_transaction _ _ _). cbn. steps.
  - intros _. monadic. by apply (st_broadcast R HR).
Qed.
End handlers.

(** ** What can happen to a node *)

Inductive node_step n : Node (E := E) → Prop :=
  | step_tick clk : node_step n (tick clk n).1
  | step_event clk e : node_step n (handle_network_event clk e n)
  | step_submit clk t : node_step n (submit_transaction clk t n).1
  | step_block clk b : node_step n (on_block_received clk b n).1
  | step_vote clk v : node_step n (on_vote_received clk v n).1
  | step_outbound buffer channel : node_step n (set_outbound_buffer buffer (set_broadcast_tx channel n)).

Lemma node_step_stable R n n' : stable R → node_step n n' → R n n'.
Proof.
  intros HR Hs. pose proof (co_preorder R (st_core R HR)). destruct Hs.
  - by apply tick_respects.
  - by apply handle_network_event_R.
  - by apply submit_transaction_respects.
  - by apply on_block_received_respects.
  - by apply on_vote_received_respects.
  - etransitivity; [apply (st_broadcast_tx R HR)|apply (st_outbound_buffer R HR)].
Qed.

Lemma node_run_stable R n n' : stable R → rtc node_step n n' → R n n'.
Proof.
  intros HR Hr. pose proof (co_preorder R (st_core R HR)). induction Hr as [n|n n1 n2 Hs _ IH]; [reflexivity|].
  etransitivity; [by apply node_step_stable|exact IH].
Qed.

(** ** Votes *)

Definition own_votes (ms : list OutboundMessage) : list Vote :=
  omap (λ m, match m with BroadcastVote v => Some v | _ => None end) ms.

Record vote_inv n : Prop := {
  vi_sorted : StronglySorted Z.lt (vote_slot <$> own_votes n.(sent));
  vi_last : ∀ v, v ∈ own_votes n.(sent) → ∃ last, n.(last_voted_slot) = Some last ∧ v.(vote_slot) ≤ last
}.

Lemma vote_inv_frame n n' :
  own_votes n'.(sent) = own_votes n.(sent) → n'.(last_voted_slot) = n.(last_voted_slot) → vote_inv n → vote_inv n'.
Proof. intros E1 E2 [V1 V2]. constructor; rewrite ?E1, ?E2; done. Qed.

Lemma broadcast_fields m n :
  (broadcast m n).(sent) = n.(sent) ++ [m] ∧ (broadcast m n).(last_voted_slot) = n.(last_voted_slot) ∧
  (broadcast m n).(orphan_blocks) = n.(orphan_blocks) ∧ (broadcast m n).(orphan_count) = n.(orphan_count) ∧
  (broadcast m n).(blocks_by_hash) = n.(blocks_by_hash) ∧ (broadcast m n).(ledger) = n.(ledger).
Proof.
  unfold broadcast. cbv zeta. cbn [set_sent broadcast_tx outbound_buffer]. destruct n.(broadcast_tx) as [c|].
  - destruct (drain_buffer 64 n.(outbound_buffer) c) as [buf c1]. destruct (try_send m c1) as [c2 r]. destruct r; cbn; [done|done|].
    case_match; done.
  - case_match; done.
Qed.

Lemma own_votes_snoc ms m :
  own_votes (ms ++ [m]) = own_votes ms ++ match m with BroadcastVote v => [v] | _ => [] end.
Proof. unfold own_votes. rewrite omap_app. by destruct m. Qed.

Lemma vote_core : core (λ n n', vote_inv n → vote_inv n').
Proof.
  constructor; try (intros; by eapply vote_inv_frame; [..|eassumption]).
  - split; [by intros n|]. intros n1 n2 n3 H12 H23 Hi. by apply H23, H12.
  - intros n clk b Hi. unfold vote_on_block. cbv zeta. destruct (from_option _ _ n.(last_voted_slot)) eqn:Hl; [done|].
    repeat case_match; try done. set (n1 := submit_vote _ _ _). set (v := mkVote _ _ _ _ _).
    destruct (broadcast_fields (BroadcastVote v) n1) as (E1 & _).
    assert (Hs : n1.(sent) = n.(sent)) by done.
    assert (Hlt : Forall (λ v', v'.(vote_slot) < b.(header).(header_slot)) (own_votes n.(sent))).
    { apply Forall_forall. intros v' Hv'. destruct (vi_last _ Hi v' Hv') as (last & El & Hle). rewrite El in Hl. cbn in Hl. lia. }
    constructor; cbn [sent set_last_voted_slot last_voted_slot]; rewrite E1, Hs, own_votes_snoc.
    + rewrite fmap_app. cbn. apply StronglySorted_app_2; [|apply Hi|by repeat constructor].
      intros x y Hx Hy%list_elem_of_singleton. subst y. apply list_elem_of_fmap in Hx as (v' & -> & Hv').
      rewrite Forall_forall in Hlt. by apply Hlt.
    + intros v' [Hv'| ->%list_elem_of_singleton]%elem_of_app; eexists; (split; [done|]); [|done].
      rewrite Forall_forall in Hlt. specialize (Hlt v' Hv'). lia.
Qed.

Lemma vote_stable : stable (λ n n', vote_inv n → vote_inv n').
Proof.
  constructor; try (intros; by eapply vote_inv_frame; [..|eassumption]); [exact vote_core| | |].
  - intros n m Hm. destruct (broadcast_fields m n) as (E1 & E2 & _). apply vote_inv_frame; [|done].
    rewrite E1, own_votes_snoc. destruct m; try done; by rewrite app_nil_r.
  - intros n b. apply vote_inv_frame; unfold buffer_orphan; by case_match.
  - intros n s'. apply vote_inv_frame; unfold prune_stale_orphans; repeat case_match; done.
Qed.

(** The vote as the slashing detector of a peer records it. *)
Definition as_slash_vote (v : Vote) : Slashing.Vote :=
  Slashing.mkVote v.(vote_slot) v.(vote_block_hash) (to_address v.(vote_validator)) (as_bytes 32 v.(vote_validator)) v.(vote_signature).

(** A node never votes twice in a slot, whatever it receives: the votes it
    sends have strictly increasing slots, so no two of them are evidence of
    double signing. *)
Theorem one_vote_per_slot n n'
    (Hfresh : own_votes n.(sent) = []) (Hrun : rtc node_step n n') :
  StronglySorted Z.lt (vote_slot <$> own_votes n'.(sent)) ∧
  ∀ i j v v', own_votes n'.(sent) !! i = Some v → own_votes n'.(sent) !! j = Some v' →
    i ≠ j → Slashing.detect_double_sign (as_slash_vote v) (as_slash_vote v') = None.
Proof.
  assert (Hi : vote_inv n) by (constructor; rewrite Hfresh; [constructor|by intros v ?%elem_of_nil]).
  pose proof (node_run_stable _ n n' vote_stable Hrun Hi) as [Hs _]. split; [done|].
  intros i j v v' Hv Hv' Hij. unfold Slashing.detect_double_sign. cbn.
  assert (Hne : v.(vote_slot) ≠ v'.(vote_slot)).
  { intros He. apply Hij. eapply (NoDup_lookup (vote_slot <$> own_votes n'.(sent)) i j v.(vote_slot)).
    - clear -Hs. induction Hs as [|x l _ IH Hf]; constructor; [|done]. rewrite Forall_forall in Hf. intros Hx%Hf. lia.
    - by rewrite list_lookup_fmap, Hv.
    - by rewrite list_lookup_fmap, Hv', He. }
  by rewrite (proj2 (Z.eqb_neq _ _) Hne).
Qed.

(** ** Orphans *)

Lemma buffered_insert m p os : m !! p = None → buffered (<[p := os]> m) = (length os + buffered m)%nat.
Proof. intros Hp. unfold buffered. rewrite map_fold_insert_L; [done|intros; lia|done]. Qed.

Lemma buffered_delete m p os : m !! p = Some os → buffered m = (length os + buffered (delete p m))%nat.
Proof.
  intros Hp. rewrite <- (insert_delete_id m p os Hp) at 1. apply buffered_insert, lookup_delete_eq.
Qed.

Lemma buffered_set m p os : (buffered (<[p := os]> m) + length (default [] (m !! p)) = length os + buffered m)%nat.
Proof.
  destruct (m !! p) as [os'|] eqn:Hp; cbn [default from_option id].
  - rewrite (buffered_delete m p os' Hp), (buffered_delete (<[p := os]> m) p os (lookup_insert_eq m p os)), delete_insert_eq. lia.
  - rewrite buffered_insert by done. cbn. lia.
Qed.

Record orphan_inv n : Prop := {
  oi_count : n.(orphan_count) = Z.of_nat (buffered n.(orphan_blocks));
  oi_max : n.(orphan_count) ≤ MAX_ORPHAN_BLOCKS;
  oi_lists : ∀ p os, n.(orphan_blocks) !! p = Some os → os ≠ [] ∧ Forall (λ b, b.(header).(parent_hash) = p) os
}.

Lemma orphan_inv_frame n n' :
  n'.(orphan_blocks) = n.(orphan_blocks) → n'.(orphan_count) = n.(orphan_count) → orphan_inv n → orphan_inv n'.
Proof. intros E1 E2 [V1 V2 V3]. constructor; rewrite ?E1, ?E2; done. Qed.

Lemma buffer_orphan_inv n b : orphan_inv n → orphan_inv (buffer_orphan b n).
Proof.
  intros [O1 O2 O3]. unfold buffer_orphan. case_match; [|done]. clean_ints. constructor; cbn.
  - pose proof (buffered_set n.(orphan_blocks) b.(header).(parent_hash)
      (default [] (n.(orphan_blocks) !! b.(header).(parent_hash)) ++ [b])) as Hb. rewrite length_app in Hb. cbn in Hb. lia.
  - unfold MAX_ORPHAN_BLOCKS in *. lia.
  - intros p os. rewrite lookup_insert. case_decide as Hp; [|apply O3]. intros [= <-]. split; [by intros [_ [=]]%app_nil|].
    subst p. apply Forall_app. split; [|by repeat constructor].
    destruct (n.(orphan_blocks) !! b.(header).(parent_hash)) as [os'|] eqn:Ho; cbn; [by apply O3|constructor].
Qed.

Lemma take_orphans_inv n p os :
  n.(orphan_blocks) !! p = Some os → orphan_inv n →
  orphan_inv (set_orphan_count (saturating_sub n.(orphan_count) (Z.of_nat (length os))) (set_orphan_blocks (delete p n.(orphan_blocks)) n)).
Proof.
  intros Hp [O1 O2 O3]. pose proof (buffered_delete _ _ _ Hp) as Hb. constructor; cbn.
  - rewrite O1, Hb. unfold saturating_sub. lia.
  - unfold saturating_sub, MAX_ORPHAN_BLOCKS in *. lia.
  - intros p' os' [_ ?]%lookup_delete_Some. by apply O3.
Qed.

Definition keep_after (s : Z) (os : list Block) : list Block := filter (λ b, s < b.(header).(header_slot)) os.

Lemma buffered_keep s m :
  (buffered (keep_after s <$> m) ≤ buffered m)%nat ∧
  buffered (filter (λ e, e.2 ≠ []) (keep_after s <$> m)) = buffered (keep_after s <$> m).
Proof.
  induction m as [|p os m Hp IH] using map_ind; [by rewrite fmap_empty, map_filter_empty|].
  assert (Hp' : (keep_after s <$> m) !! p = None) by by rewrite lookup_fmap, Hp.
  rewrite fmap_insert, !buffered_insert by done. destruct IH as [IH1 IH2]. split.
  - pose proof (length_filter (λ b, s < b.(header).(header_slot)) os) as Hl. unfold keep_after at 1. lia.
  - destruct (decide (keep_after s os = [])) as [He|He].
    + rewrite He, map_filter_insert_False by (by intros []). rewrite delete_id by done. cbn. exact IH2.
    + rewrite map_filter_insert_True by done. rewrite buffered_insert; [by rewrite IH2|].
      apply map_lookup_filter_None. by left.
Qed.

Lemma prune_stale_orphans_inv s n : orphan_inv n → orphan_inv (prune_stale_orphans s n).
Proof.
  intros [O1 O2 O3]. unfold prune_stale_orphans. case_match; [done|]. cbv zeta.
  fold (keep_after s). change (λ os, filter (λ b, s < b.(header).(header_slot)) os) with (keep_after s).
  destruct (buffered_keep s n.(orphan_blocks)) as [Hle Heq].
  assert (Hlists : ∀ p os, filter (λ e, e.2 ≠ []) (keep_after s <$> n.(orphan_blocks)) !! p = Some os →
    os ≠ [] ∧ Forall (λ b, b.(header).(parent_hash) = p) os).
  { intros p os [Hf Hne]%map_lookup_filter_Some. split; [done|]. apply lookup_fmap_Some in Hf as (os' & <- & Hos').
    destruct (O3 _ _ Hos') as [_ Hall]. apply Forall_forall. intros b [_ Hb]%list_elem_of_filter. rewrite Forall_forall in Hall. by apply Hall. }
  destruct (0 <? _)%nat eqn:Hz; [apply Nat.ltb_lt in Hz|apply Nat.ltb_ge in Hz]; constructor; cbn; try done; rewrite ?Heq.
  - rewrite O1. unfold saturating_sub. lia.
  - unfold saturating_sub, MAX_ORPHAN_BLOCKS in *. lia.
  - rewrite O1. lia.
Qed.

Lemma orphan_core : core (λ n n', orphan_inv n → orphan_inv n').
Proof.
  constructor; try (intros; by eapply orphan_inv_frame; [..|eassumption]).
  - split; [by intros n|]. intros n1 n2 n3 H12 H23 Hi. by apply H23, H12.
  - intros n clk b. unfold vote_on_block. cbv zeta. repeat case_match; try done.
    all: match goal with |- _ → orphan_inv (set_last_voted_slot _ (broadcast ?m ?n1)) =>
           destruct (broadcast_fields m n1) as (_ & _ & E1 & E2 & _); apply orphan_inv_frame; [exact E1|exact E2] end.
Qed.

Lemma orphan_stable : stable (λ n n', orphan_inv n → orphan_inv n').
Proof.
  constructor; try (intros; by eapply orphan_inv_frame; [..|eassumption]); [exact orphan_core| | | |].
  - intros n m _. destruct (broadcast_fields m n) as (_ & _ & E1 & E2 & _). by apply orphan_inv_frame.
  - intros n b. apply buffer_orphan_inv.
  - intros n p os Hp. by apply take_orphans_inv.
  - intros n s'. apply prune_stale_orphans_inv.
Qed.

(** The orphan buffer is bounded whatever peers send: the counter is the number
    of buffered blocks, never above 256, no list is empty and every block waits
    under the hash of its parent. *)
Theorem orphan_buffer_bounded n n'
    (Hfresh : n.(orphan_blocks) = ∅ ∧ n.(orphan_count) = 0) (Hrun : rtc node_step n n') :
  n'.(orphan_count) = Z.of_nat (buffered n'.(orphan_blocks)) ∧ n'.(orphan_count) ≤ MAX_ORPHAN_BLOCKS ∧
  ∀ p os, n'.(orphan_blocks) !! p = Some os → os ≠ [] ∧ Forall (λ b, b.(header).(parent_hash) = p) os.
Proof.
  destruct Hfresh as [Ho Hc].
  assert (Hi : orphan_inv n) by (constructor; rewrite ?Ho, ?Hc; done).
  by destruct (node_run_stable _ n n' orphan_stable Hrun Hi).
Qed.

(** ** The recursion through the orphans ends *)

Definition known n (h : H256) : Prop := is_Some (n.(blocks_by_hash) !! h).

(** The orphans stay as they are, and known blocks stay known. *)
Definition same_orphans n n' : Prop := n'.(orphan_blocks) = n.(orphan_blocks) ∧ ∀ h, known n h → known n' h.

Lemma same_orphans_core : core same_orphans.
Proof.
  constructor; try (by intros; split; auto).
  - split; [by intros n; split|]. intros n1 n2 n3 [E1 K1] [E2 K2]. split; [congruence|auto].
  - intros n h b. split; [done|]. intros h' Hh'. unfold known. cbn. rewrite lookup_insert. case_decide; [by eexists|done].
  - intros n clk b. unfold vote_on_block. cbv zeta. repeat case_match; try (by split).
    all: match goal with |- same_orphans _ (set_last_voted_slot _ (broadcast ?m ?n1)) =>
           destruct (broadcast_fields m n1) as (_ & _ & E1 & _ & E2 & _); split; [exact E1|]; intros h' Hh'; unfold known;
           change (is_Some ((broadcast m n1).(blocks_by_hash) !! h')); rewrite E2; exact Hh' end.
Qed.

Lemma apply_block_known clk b h rs o n :
  (apply_block clk b h rs o n).2 = Ok tt → known (apply_block clk b h rs o n).1 h.
Proof.
  unfold apply_block. unfold_M. destruct (ForkChoice.add_block _ _ _) as [fc is_fork]. cbv zeta.
  match goal with |- context [(if ?c then commit_block b h ?s o else _) ?m] => set (r := (if c then commit_block b h s o else _) m) end.
  destruct r as [n1 [[]|e]]; [|done]. intros _. cbn [fst].
  set (n2 := if is_fork && _ then _ else n1). set (n3 := set_blocks_by_hash _ n2).
  assert (Hk : known n3 h) by (unfold known, n3; cbn; rewrite lookup_insert_eq; by eexists). clearbody n3.
  pose proof same_orphans_core as HC. pose proof (co_preorder _ HC).
  match goal with |- known ?x h => enough (Hs : same_orphans n3 x) by by apply Hs end.
  etransitivity; [|apply (co_vote _ HC)]. etransitivity; [|apply (update_mempool_R _ HC)].
  etransitivity; [|apply (insert_receipts_R _ HC)]. etransitivity; [|apply (co_consensus _ HC)].
  case_match; [|reflexivity]. split; [done|auto].
Qed.

(** The orphans shrink, and known blocks stay known. *)
Definition fewer_orphans n n' : Prop := n'.(orphan_blocks) ⊆ n.(orphan_blocks) ∧ ∀ h, known n h → known n' h.

#[local] Instance fewer_orphans_preorder : PreOrder fewer_orphans.
Proof.
  split; [by intros n; split|]. intros n1 n2 n3 [E1 K1] [E2 K2]. split; [by etransitivity|auto].
Qed.

Lemma same_fewer n n' : same_orphans n n' → fewer_orphans n n'.
Proof. intros [E1 K]. split; [by rewrite E1|done]. Qed.

Definition parent_known n (b : Block) : Prop := known n b.(header).(parent_hash).

Lemma parent_known_not_orphan n b : parent_known n b → is_orphan b n = false.
Proof. intros Hk. unfold is_orphan. rewrite (bool_decide_eq_true_2 _ Hk). by rewrite andb_false_r. Qed.

(** Buffered blocks wait under their parent. *)
Definition orphan_keys n : Prop :=
  ∀ p os, n.(orphan_blocks) !! p = Some os → Forall (λ b, b.(header).(parent_hash) = p) os.

Lemma fewer_keys n n' : fewer_orphans n n' → orphan_keys n → orphan_keys n'.
Proof. intros [Hs _] Hk p os Hp. eapply Hk, lookup_weaken; done. Qed.

Lemma fold_receive_fewer (f : Block → Node → Node (E := E)) os n :
  (∀ b n, orphan_keys n → parent_known n b → fewer_orphans n (f b n)) → orphan_keys n → Forall (parent_known n) os →
  fewer_orphans n (foldl (λ n b, f b n) n os).
Proof.
  intros Hf. revert n. induction os as [|b os IH]; intros n Hk Hall; cbn [foldl]; [reflexivity|].
  apply Forall_cons in Hall as [Hb Hos]. pose proof (Hf b n Hk Hb) as Hs. etransitivity; [exact Hs|].
  apply IH; [by eapply fewer_keys|]. eapply Forall_impl; [exact Hos|]. intros x. apply Hs.
Qed.

Lemma fold_receive_ext (f g : Block → Node → Node (E := E)) os n :
  (∀ b n', fewer_orphans n n' → orphan_keys n' → f b n' = g b n') →
  (∀ b n', orphan_keys n' → parent_known n' b → fewer_orphans n' (g b n')) → orphan_keys n → Forall (parent_known n) os →
  foldl (λ n b, f b n) n os = foldl (λ n b, g b n) n os.
Proof.
  intros He Hg. revert n He. induction os as [|b os IH]; intros n He Hk Hall; cbn [foldl]; [done|].
  apply Forall_cons in Hall as [Hb Hos]. rewrite He by (done || reflexivity). pose proof (Hg b n Hk Hb) as Hs.
  apply IH; [|by eapply fewer_keys|].
  - intros b' n' Hn'. apply He. by etransitivity.
  - eapply Forall_impl; [exact Hos|]. intros x. apply Hs.
Qed.

Lemma receive_block_fewer orphans clk b n :
  (∀ n', fewer_orphans n n' → known n' (block_hash b) → fewer_orphans n' (orphans (block_hash b) n')) → parent_known n b →
  fewer_orphans n (receive_block orphans clk b n).1.
Proof.
  intros Ho Hb. unfold receive_block. unfold_M. case_bool_decide; [done|].
  destruct ((_ <=? _) && _); [done|]. destruct (negb (_ =? _)); [done|].
  rewrite (parent_known_not_orphan _ _ Hb). destruct (validate clk b n) as [[rs o]|e]; [|done]. cbn [fst snd].
  pose proof (apply_block_respects same_orphans same_orphans_core clk b (block_hash b) rs o n) as Hs.
  pose proof (apply_block_known clk b (block_hash b) rs o n) as Hk.
  destruct (apply_block clk b (block_hash b) rs o n) as [n1 [[]|e]]; cbn [fst snd] in *; [|by apply same_fewer].
  etransitivity; [by apply same_fewer|]. etransitivity; [apply Ho; [by apply same_fewer|by apply Hk]|].
  apply same_fewer, (update_sync_R _ same_orphans_core).
Qed.

Lemma taken_orphans n h os :
  n.(orphan_blocks) !! h = Some os → orphan_keys n → known n h →
  let n' := set_orphan_count (saturating_sub n.(orphan_count) (Z.of_nat (length os))) (set_orphan_blocks (delete h n.(orphan_blocks)) n) in
  fewer_orphans n n' ∧ orphan_keys n' ∧ Forall (parent_known n') os.
Proof.
  intros Ho Hk Hh n'. assert (Hf : fewer_orphans n n') by (split; [apply delete_subseteq|auto]).
  split; [done|]. split; [by eapply fewer_keys|].
  eapply Forall_impl; [by apply (Hk h)|]. cbn. intros b Hb. unfold parent_known, known. by rewrite Hb.
Qed.

Lemma process_orphans_fewer f h n :
  (∀ b n, orphan_keys n → parent_known n b → fewer_orphans n (f b n)) → orphan_keys n → known n h →
  fewer_orphans n (process_orphans f h n).
Proof.
  intros Hf Hk Hh. unfold process_orphans. destruct (n.(orphan_blocks) !! h) as [os|] eqn:Ho; [|reflexivity].
  destruct (taken_orphans n h os Ho Hk Hh) as (H1' & H2' & H3'). etransitivity; [exact H1'|]. by apply fold_receive_fewer.
Qed.

Lemma receive_deep_fewer depth clk b n :
  orphan_keys n → parent_known n b → fewer_orphans n (receive_deep depth clk b n).1.
Proof.
  revert b n. induction depth as [|depth IH]; intros b n Hk Hb; cbn [receive_deep]; apply receive_block_fewer; try done.
  intros n' Hn' Hh. apply process_orphans_fewer; [|by eapply fewer_keys|done]. intros b' n'' Hk' Hb'. by apply IH.
Qed.

Lemma receive_block_ext o1 o2 clk b n :
  (∀ n', fewer_orphans n n' → known n' (block_hash b) → o1 (block_hash b) n' = o2 (block_hash b) n') →
  receive_block o1 clk b n = receive_block o2 clk b n.
Proof.
  intros He. unfold receive_block. unfold_M. case_bool_decide; [done|].
  destruct ((_ <=? _) && _); [done|]. destruct (negb (_ =? _)); [done|]. destruct (is_orphan b n); [done|].
  destruct (validate clk b n) as [[rs o]|e]; [|done]. cbn [fst snd].
  pose proof (apply_block_respects same_orphans same_orphans_core clk b (block_hash b) rs o n) as Hs.
  pose proof (apply_block_known clk b (block_hash b) rs o n) as Hk.
  destruct (apply_block clk b (block_hash b) rs o n) as [n1 [[]|e]]; cbn [fst snd] in *; [|done].
  rewrite He; [done|by apply same_fewer|by apply Hk].
Qed.

Lemma receive_deep_stable k clk d d' b n :
  orphan_keys n → (size n.(orphan_blocks) ≤ k)%nat → (k < d)%nat → (k < d')%nat →
  receive_deep d clk b n = receive_deep d' clk b n.
Proof.
  revert d d' b n. induction k as [|k IH]; intros [|d] [|d'] b n Hk Hsz Hd Hd'; try lia; cbn [receive_deep].
  all: apply receive_block_ext; intros n' Hn' Hh; unfold process_orphans.
  all: assert (Hsz' : (size n'.(orphan_blocks) ≤ size n.(orphan_blocks))%nat) by apply map_subseteq_size, Hn'.
  all: pose proof (fewer_keys _ _ Hn' Hk) as Hk'; destruct (n'.(orphan_blocks) !! block_hash b) as [os|] eqn:Ho; [|done].
  { assert (He : n'.(orphan_blocks) = ∅) by (apply map_size_empty_inv; lia). by rewrite He, lookup_empty in Ho. }
  destruct (taken_orphans n' _ os Ho Hk' Hh) as (H1' & H2' & H3'). cbv zeta in *.
  match goal with |- foldl _ ?m _ = _ => set (n1 := m) in * end.
  assert (Hsz1 : (size n1.(orphan_blocks) ≤ k)%nat) by (unfold n1; cbn; rewrite map_size_delete, Ho; lia).
  apply (fold_receive_ext (λ b n, (receive_deep d clk b n).1) (λ b n, (receive_deep d' clk b n).1)); [| |done|done].
  - intros b' n2 Hn2 Hk2. f_equal. apply IH; [done| |lia|lia]. etransitivity; [|exact Hsz1]. apply map_subseteq_size, Hn2.
  - intros b' n2 Hk2 Hb2. by apply receive_deep_fewer.
Qed.

(** C19: Receiving a block terminates: the recursion through the blocks that waited
    for it never goes deeper than the number of parents that orphans wait for,
    so [on_block_received] is the unbounded recursion of the code. *)
Theorem orphan_recursion_terminates n n' clk b depth
    (Hfresh : n.(orphan_blocks) = ∅ ∧ n.(orphan_count) = 0) (Hrun : rtc node_step n n')
    (Hdepth : (size n'.(orphan_blocks) < depth)%nat) :
  receive_deep depth clk b n' = on_block_received clk b n'.
Proof.
  destruct Hfresh as [Ho Hc]. assert (Hi : orphan_inv n) by (constructor; rewrite ?Ho, ?Hc; done).
  destruct (node_run_stable _ n n' orphan_stable Hrun Hi) as [_ _ Hl].
  apply (receive_deep_stable (size n'.(orphan_blocks))); [|lia|lia|lia]. intros p os Hp. by apply Hl.
Qed.
End safety.
End NodeSafety.
