(* ===== verification/NodeBlocks.v ===== *)
(** * Blocks in the node

    What a committed block does: the stored ledger follows the specification
    of the file [LedgerBlocks], and the block, its receipts and the chain tip
    are in the storage. *)

From S2P Require Import Prelude.
From S2P Require Import Merkle.
From S2P Require Import Staking.
From S2P Require Import Consensus.
From S2P Require Import Bls.
From S2P Require Import Transaction.
From S2P Require Import Storage.
From S2P Require Import Ledger.
From S2P Require Import LedgerSpec.
From S2P Require Import LedgerBlocks.
From S2P Require Import FeeMarket.
From S2P Require Import Slashing.
From S2P Require Import Mempool.
From S2P Require Import ForkChoice.
From S2P Require Import Block.
From S2P Require Import Sync.
From S2P Require Import Engine.
From S2P Require Import Node.
From S2P Require Import NodeSafety.

Module NodeBlocks.
Import Node.

(** The family of the operation exists. *)
Abbreviation known_op := (λ op, match op with Put cf _ _ | Delete cf _ => cf ∈ column_families end).

Section ledger_level.
Context `{Digest, Codec, Dalek, RocksDb, HashOrder}.

#[local] Opaque Merkle.new Merkle.set_leaves.
#[local] Arguments lroot : simpl never.

(** ** Speculation *)

Lemma speculation_spec cid txs l σ rs o :
  ledger_inv l σ → Forall tx_ok txs → Ledger.apply_block_speculatively_with_chain_id l txs cid = Ok (rs, o) →
  ∃ t, spec_inv l σ (o, t) (block_exec cid txs σ).1 ∧ summary <$> rs = (block_exec cid txs σ).2 ∧
       o.(Ledger.overlay_root) = lroot (block_exec cid txs σ).1 ∧ Forall (λ tx, signed tx = true) txs.
Proof.
  intros Hl Hall. destruct (speculate_refines cid txs l σ (Ledger.overlay_new, l.(Ledger.merkle_tree)) σ) as (s & rs' & Hrs & Hsum & Hs); [|done|].
  { constructor; [apply Hl| |apply Hl|done]. split; [apply Hl|]. apply overlay_new_wf. }
  assert (Hroot : s.2.(Merkle.root) = lroot (block_exec cid txs σ).1) by (rewrite (si_tree _ _ _ _ Hs); reflexivity).
  unfold Ledger.apply_block_speculatively_with_chain_id. case_bool_decide as Hnil.
  - subst txs. injection Hrs as <- <-. intros [= <- <-]. exists l.(Ledger.merkle_tree). split_and!; [|done|done|constructor].
    apply (spec_inv_root _ _ _ _ (Ledger.state_root l) Hs).
  - unfold_M. destruct (Ledger.check_senders txs) as [[]|] eqn:Hc1; [|done]. destruct (Ledger.check_signatures txs) as [[]|] eqn:Hc2; [|done].
    rewrite Hrs. intros [= <- <-]. exists s.2. split_and!; [by apply spec_inv_root|done|done|by apply checks_signed].
Qed.

(** ** The proposer's reward *)

Definition rewarded (reward : Z) (a : Address) (σ : LState) : LState :=
  if reward >? 0 then put_acct (credit reward (acct σ a)) σ else σ.

(** A write that neither touches accounts nor outputs. *)
Definition inert (op : BatchOperation) : Prop :=
  match op with Put cf _ _ | Delete cf _ => cf ≠ CF_ACCOUNTS ∧ cf ≠ CF_UTXOS end.

Lemma represents_inert ops get σ : Forall inert ops → represents get σ → represents (after ops get) σ.
Proof.
  intros Hops. apply represents_ext; intros k; unfold after; symmetry; apply Storage.foldl_apply_op_other;
    (eapply Forall_impl; [exact Hops|]); intros [cf k' v|cf k'] [H1' H2'] [-> _]; done.
Qed.

Lemma account_ok_rewarded reward a σ :
  state_ok σ → (a < 2 ^ 160)%N → (acct σ a).(balance) + reward ≤ U128_MAX → state_ok (rewarded reward a σ).
Proof.
  intros Hσ Ha Hle. unfold rewarded. case_match; [|done].
  assert (Hcr : account_ok a (credit reward (acct σ a))) by (apply credit_ok; [by apply acct_ok|lia|done]).
  apply put_acct_ok; [done|]. by rewrite (account_ok_addr _ _ Hcr).
Qed.

(** The writes: the proposer's account, and totals in the metadata. *)
Definition pay_ops (reward : Z) (a : Address) (σ : LState) : StorageBatch :=
  if reward >? 0 then [Put CF_ACCOUNTS (as_bytes 20 a) (ser_account (credit reward (acct σ a)))] else [].

Definition total_op (op : BatchOperation) : Prop :=
  ∃ k v, op = Put CF_METADATA k v ∧ k ∈ [Ledger.STATE_ROOT; Ledger.TOTAL_BURNED; Ledger.TOTAL_TREASURY].

Lemma total_op_intro k v : k ∈ [Ledger.STATE_ROOT; Ledger.TOTAL_BURNED; Ledger.TOTAL_TREASURY] → total_op (Put CF_METADATA k v).
Proof. intros Hk. by exists k, v. Qed.
Lemma root_total v : total_op (Put CF_METADATA Ledger.STATE_ROOT v).
Proof. apply total_op_intro. left. Qed.
Lemma burned_total v : total_op (Put CF_METADATA Ledger.TOTAL_BURNED v).
Proof. apply total_op_intro. right; left. Qed.
Lemma treasury_total v : total_op (Put CF_METADATA Ledger.TOTAL_TREASURY v).
Proof. apply total_op_intro. right; right; left. Qed.
#[local] Hint Resolve root_total burned_total treasury_total : aether.

Lemma represents_pay reward a σ get :
  state_ok σ → (a < 2 ^ 160)%N → represents get σ → represents (after (pay_ops reward a σ) get) (rewarded reward a σ).
Proof.
  intros Hσ Ha HR. unfold pay_ops, rewarded. case_match; [|done].
  pose proof (acct_ok σ a Hσ Ha) as Hok. assert (Hadr : (credit reward (acct σ a)).(address) = a) by (apply (account_ok_addr _ _ Hok)).
  pose proof (represents_put_account get σ (credit reward (acct σ a))) as Hp. rewrite Hadr in Hp. by apply Hp.
Qed.

Lemma total_ops_inert ops : Forall total_op ops → Forall inert ops ∧ Forall known_op ops.
Proof.
  intros Hops. split; (eapply Forall_impl; [exact Hops|]); intros op (k & v & -> & _); [by split|]. auto with aether.
Qed.

(** The second half of [fold_fee_distribution_into_batch]. *)
Definition add_totals (burned treasury : Z) (batch : StorageBatch) : M Ledger.Ledger error StorageBatch :=
  batch ← (if burned >? 0 then
             current ← reads (Ledger.read_total Ledger.TOTAL_BURNED);
             t ← ok_or (checked_add U128_MAX current burned) (Msg "total_burned overflow in batch");
             mret (batch ++ [Put CF_METADATA Ledger.TOTAL_BURNED (to_le_bytes 16 t)])
           else mret batch : M Ledger.Ledger error StorageBatch);
  if treasury >? 0 then
    current ← reads (Ledger.read_total Ledger.TOTAL_TREASURY);
    t ← ok_or (checked_add U128_MAX current treasury) (Msg "total_treasury_fees overflow in batch");
    mret (batch ++ [Put CF_METADATA Ledger.TOTAL_TREASURY (to_le_bytes 16 t)])
  else mret batch.

Lemma burn_and_treasury batch burned treasury l l' batch' :
  add_totals burned treasury batch l = (l', Ok batch') →
  l' = l ∧ ∃ totals, batch' = batch ++ totals ∧ Forall total_op totals.
Proof.
  unfold add_totals. unfold_M. intros Hrun.
  destruct (burned >? 0), (treasury >? 0); repeat case_match; simplify_eq/=; (split; [done|]).
  - eexists. rewrite <- app_assoc. split; [done|]. eauto 6 using Forall_cons_2, Forall_nil_2 with aether.
  - eexists. split; [done|]. eauto 6 using Forall_cons_2, Forall_nil_2 with aether.
  - eexists. split; [done|]. eauto 6 using Forall_cons_2, Forall_nil_2 with aether.
  - exists []. split; [by rewrite app_nil_r|constructor].
Qed.

Lemma fold_fee_refines batch o a reward burned treasury l σ l' batch' :
  l.(Ledger.merkle_tree) = account_tree σ → state_ok σ → represents (view l o) σ → (a < 2 ^ 160)%N →
  Ledger.fold_fee_distribution_into_batch batch o a reward burned treasury l = (l', Ok batch') →
  l'.(Ledger.storage) = l.(Ledger.storage) ∧ l'.(Ledger.merkle_tree) = account_tree (rewarded reward a σ) ∧
  state_ok (rewarded reward a σ) ∧
  ∃ totals, batch' = batch ++ pay_ops reward a σ ++ totals ∧ Forall total_op totals.
Proof.
  intros Ht Hσ HR Ha. unfold Ledger.fold_fee_distribution_into_batch, rewarded, pay_ops. destruct (reward >? 0) eqn:Hr.
  - unfold mbind at 1, M_bind at 1. unfold_M. rewrite (overlay_account_rep l o σ a HR Ha).
    destruct (checked_add U128_MAX (acct σ a).(balance) reward) as [bal|] eqn:Hadd; [|done]. clean_ints. subst bal.
    fold (credit reward (acct σ a)). rewrite (root_into_batch_run _ _ l σ Ht). intros Hrun.
    pose proof (acct_ok σ a Hσ Ha) as Hok. pose proof (account_ok_addr _ _ Hok) as Hadr.
    apply (burn_and_treasury _ burned treasury) in Hrun as [-> (totals & -> & Htot)]. split_and!; [reflexivity|reflexivity| |].
    + assert (Hcr : account_ok a (credit reward (acct σ a))) by (apply credit_ok; [done|lia|done]).
      apply put_acct_ok; [done|]. by rewrite (account_ok_addr _ _ Hcr).
    + eexists (_ :: totals). unfold Ledger.update_account_in_batch.
      change (credit reward (acct σ a)).(address) with (acct σ a).(address). rewrite Hadr, <- !app_assoc.
      split; [reflexivity|]. apply Forall_cons_2; [auto with aether|exact Htot].
  - unfold mbind at 1, M_bind at 1. unfold mret at 1, M_ret at 1. intros Hrun.
    apply (burn_and_treasury _ burned treasury) in Hrun as [-> (totals & -> & Htot)]. split_and!; [done..|]. by exists totals.
Qed.

(** The fees can be paid out: neither the proposer's balance nor one of the
    stored totals overflows. *)
Record payable (l : Ledger.Ledger) (σ : LState) (a : Address) (reward burned treasury : Z) : Prop := {
  pay_reward : 0 < reward → (acct σ a).(balance) + reward ≤ U128_MAX;
  pay_burned : Ledger.total_burned l + burned ≤ U128_MAX;
  pay_treasury : Ledger.total_treasury_fees l + treasury ≤ U128_MAX
}.

Lemma read_burned l : Ledger.read_total Ledger.TOTAL_BURNED l = Ok (Ledger.total_burned l).
Proof. unfold Ledger.total_burned, Ledger.read_total. by rewrite Storage.get_known by compute_done. Qed.
Lemma read_treasury l : Ledger.read_total Ledger.TOTAL_TREASURY l = Ok (Ledger.total_treasury_fees l).
Proof. unfold Ledger.total_treasury_fees, Ledger.read_total. by rewrite Storage.get_known by compute_done. Qed.

Lemma checked_add_fits x y : x + y ≤ U128_MAX → checked_add U128_MAX x y = Some (x + y).
Proof. intros Hle. unfold checked_add. by rewrite (proj2 (Z.leb_le _ _)). Qed.

Lemma fold_fee_total batch o a reward burned treasury l σ :
  l.(Ledger.merkle_tree) = account_tree σ → represents (view l o) σ → (a < 2 ^ 160)%N → payable l σ a reward burned treasury →
  ∃ l' batch', Ledger.fold_fee_distribution_into_batch batch o a reward burned treasury l = (l', Ok batch').
Proof.
  intros Ht HR Ha [Hp1 Hp2 Hp3]. unfold Ledger.fold_fee_distribution_into_batch.
  assert (Htot : ∀ l' batch, Ledger.total_burned l' = Ledger.total_burned l →
    Ledger.total_treasury_fees l' = Ledger.total_treasury_fees l → ∃ l'' batch', add_totals burned treasury batch l' = (l'', Ok batch')).
  { intros l' batch' Eb Et. unfold add_totals. unfold_M. destruct (burned >? 0), (treasury >? 0); rewrite ?read_burned, ?Eb, ?checked_add_fits by done;
      rewrite ?read_treasury, ?Et, ?checked_add_fits by done; by do 2 eexists. }
  destruct (reward >? 0) eqn:Hr.
  - unfold mbind at 1, M_bind at 1. unfold_M. rewrite (overlay_account_rep l o σ a HR Ha), checked_add_fits by lia.
    fold (credit reward (acct σ a)). rewrite (root_into_batch_run _ _ l σ Ht). by apply Htot.
  - by apply Htot.
Qed.

(** The distribution only writes to the batch, also when it fails. *)
Lemma fold_fee_storage batch o a reward burned treasury l σ :
  l.(Ledger.merkle_tree) = account_tree σ →
  (Ledger.fold_fee_distribution_into_batch batch o a reward burned treasury l).1.(Ledger.storage) = l.(Ledger.storage).
Proof.
  intros Ht. unfold Ledger.fold_fee_distribution_into_batch.
  assert (Htot : ∀ l' batch, (add_totals burned treasury batch l').1 = l').
  { intros l' batch'. unfold add_totals. unfold_M. by repeat case_match; simplify_eq/=. }
  destruct (reward >? 0).
  - unfold mbind at 1, M_bind at 1. unfold_M. destruct (Ledger.get_account_from_overlay _ _ _) as [x|]; [|done].
    destruct (checked_add _ _ _); [|done]. rewrite (root_into_batch_run _ _ l σ Ht).
    etransitivity; [exact (f_equal Ledger.storage (Htot _ _))|done].
  - exact (f_equal Ledger.storage (Htot _ _)).
Qed.
End ledger_level.

Section node_level.
Context `{Digest, Codec, Dalek, HashOrder, HeapOrder, Blst, BlockCodec, NodeCodec, RocksDb}.
Context {E : Type} `{!Finality E, !ConsensusEngine E}.
Implicit Types n : Node (E := E).

#[local] Opaque Merkle.new Merkle.set_leaves.
#[local] Arguments lroot : simpl never.

(** ** The batch of a block *)

Definition block_fees (b : Block) n : FeeMarket.BlockFeeResult :=
  (FeeMarket.process_block (total_gas b.(transactions)) (total_fees b.(transactions)) n.(fee_market)).2.
Definition block_reward (b : Block) n : Z := (block_fees b n).(FeeMarket.proposer_reward).

(** The state after the block [b] on [σ1]: its proposer is paid. *)
Definition paid (b : Block) n (σ1 : LState) : LState := rewarded (block_reward b n) b.(header).(header_proposer) σ1.

Lemma on_ledger_run {A} (m : M Ledger.Ledger error A) n n' r :
  on_ledger m n = (n', r) → ∃ l', m n.(ledger) = (l', r) ∧ n' = set_ledger l' n.
Proof. unfold on_ledger. destruct (m n.(ledger)) as [l' r']. intros [= <- <-]. by exists l'. Qed.

Definition is_spent_op (op : BatchOperation) : Prop := ∃ k, op = Put CF_SPENT_UTXOS k [].

Lemma record_spent_ops batch o slot :
  ∃ spent, Ledger.record_spent_utxos batch o slot = batch ++ spent ∧ Forall is_spent_op spent.
Proof.
  eexists. split; [reflexivity|]. apply Forall_fmap, Forall_true. intros k. by eexists.
Qed.

Definition block_ops (b : Block) (h : H256) (stored : list TransactionReceipt) (o : Ledger.PendingOverlay) (σ1 : LState)
    (pay totals spent : StorageBatch) : StorageBatch :=
  overlay_batch o ++ [Put CF_METADATA Ledger.STATE_ROOT (as_bytes 32 (lroot σ1))] ++ build_block_batch b h stored ++
  pay ++ totals ++ spent.

Lemma block_commit_batch_spec b h stored o n σ σ1 t n' batch :
  ledger_inv n.(ledger) σ → spec_inv n.(ledger) σ (o, t) σ1 → (b.(header).(header_proposer) < 2 ^ 160)%N →
  block_commit_batch b h stored o n = (n', Ok batch) →
  n'.(ledger).(Ledger.storage) = n.(ledger).(Ledger.storage) ∧
  n'.(ledger).(Ledger.merkle_tree) = account_tree (paid b n σ1) ∧ state_ok (paid b n σ1) ∧
  ∃ totals spent, batch = block_ops b h stored o σ1 (pay_ops (block_reward b n) b.(header).(header_proposer) σ1) totals spent ∧
    Forall total_op totals ∧ Forall is_spent_op spent.
Proof.
  intros Hl Hs Ha. unfold block_commit_batch, paid, block_reward, block_fees. unfold_M.
  destruct (FeeMarket.process_block _ _ _) as [market fee]. cbn [snd].
  destruct (on_ledger (Ledger.prepare_overlay_batch o) (set_fee_market market n)) as [n1 [batch1|e]] eqn:E1; [|done].
  apply on_ledger_run in E1 as (l1 & E1 & ->). change (set_fee_market market n).(ledger) with n.(ledger) in E1.
  rewrite (prepare_refines n.(ledger) σ (o, t) σ1 Hl Hs) in E1. injection E1 as <- <-.
  match goal with |- context [on_ledger ?m ?n2] => destruct (on_ledger m n2) as [n2' [batch2|e]] eqn:E2; [|done] end.
  apply on_ledger_run in E2 as (l2 & E2 & ->). intros [= <- <-].
  destruct (si_tracks _ _ _ _ Hs) as [HR Hw].
  destruct (fold_fee_refines _ _ _ _ _ _ _ σ1 _ _ (eq_refl : (Ledger.set_tree (account_tree σ1) n.(ledger)).(Ledger.merkle_tree) = account_tree σ1)
    (si_state _ _ _ _ Hs) HR Ha E2) as (Hst & Htr & Hok & totals & -> & Htot).
  destruct (record_spent_ops ((overlay_batch o ++ [Put CF_METADATA Ledger.STATE_ROOT (as_bytes 32 (lroot σ1))]) ++ build_block_batch b h stored ++
    pay_ops fee.(FeeMarket.proposer_reward) b.(header).(header_proposer) σ1 ++ totals) o b.(header).(header_slot)) as (spent & Hsp & Hspent).
  split_and!; [exact Hst|exact Htr|exact Hok|]. exists totals, spent. split_and!; [|done|done].
  rewrite <- app_assoc, Hsp. unfold block_ops. by rewrite <- !app_assoc.
Qed.

(** Every family of the batch exists. *)
Lemma block_ops_known b h stored o σ1 reward a totals spent staking :
  overlay_wf o → Forall total_op totals → Forall is_spent_op spent →
  Forall known_op (block_ops b h stored o σ1 (pay_ops reward a σ1) totals spent ++ [Put CF_STAKING STAKING_STATE staking]).
Proof.
  intros Hw Htot Hsp. unfold block_ops, build_block_batch. rewrite !Forall_app. split_and!.
  - by apply overlay_batch_known.
  - repeat constructor; auto with aether.
  - repeat (apply Forall_cons_2; [compute_done|]). constructor.
  - apply Forall_fmap, Forall_true. intros r. cbn. compute_done.
  - repeat (apply Forall_cons_2; [compute_done|]). constructor.
  - unfold pay_ops. case_match; by repeat constructor; auto with aether.
  - by apply total_ops_inert.
  - eapply Forall_impl; [exact Hsp|]. intros op [k ->]. auto with aether.
  - repeat (apply Forall_cons_2; [compute_done|]). constructor.
Qed.

Lemma block_ops_represents b h stored o l σ1 reward a totals spent staking :
  represents (view l o) σ1 → overlay_wf o → state_ok σ1 → (a < 2 ^ 160)%N → Forall total_op totals → Forall is_spent_op spent →
  represents (after (block_ops b h stored o σ1 (pay_ops reward a σ1) totals spent ++ [Put CF_STAKING STAKING_STATE staking])
    (db_get l.(Ledger.storage))) (rewarded reward a σ1).
Proof.
  intros HR Hw Hσ Ha Htot Hsp. unfold block_ops. rewrite <- !app_assoc.
  apply represents_app, represents_app, represents_app, represents_app, represents_inert.
  - rewrite !Forall_app. split_and!; [by apply total_ops_inert| |by repeat constructor].
    eapply Forall_impl; [exact Hsp|]. intros op [k ->]. done.
  - apply represents_pay; [done..|]. apply represents_inert.
    + unfold build_block_batch. rewrite !Forall_app. split_and!; [by repeat constructor| |by repeat constructor].
      apply Forall_fmap, Forall_true. done.
    + apply represents_metadata. eapply represents_ext; [| |exact HR]; intros k; symmetry; by apply overlay_batch_view.
Qed.

(** ** What the storage holds afterwards *)

Definition elsewhere (cf : string) (k : bytes) (op : BatchOperation) : Prop :=
  match op with Put cf' k' _ | Delete cf' k' => ¬ (cf' = cf ∧ k' = k) end.

Lemma read_after_put ops ops' cf k v get :
  Forall (elsewhere cf k) ops' → after (ops ++ Put cf k v :: ops') get cf k = Some v.
Proof.
  intros Ho. unfold after. rewrite foldl_app. cbn [foldl apply_op]. rewrite bool_decide_true by done.
  by apply Storage.foldl_apply_op_other.
Qed.

Lemma slot_key_second s : slot_key s !! 1%nat = Some 108.
Proof. reflexivity. Qed.

Lemma slot_key_ne s k : k !! 1%nat ≠ Some 108 → k ≠ slot_key s.
Proof. intros Hk ->. apply Hk, slot_key_second. Qed.

Lemma total_elsewhere k ops :
  Forall total_op ops → k ∉ [Ledger.STATE_ROOT; Ledger.TOTAL_BURNED; Ledger.TOTAL_TREASURY] → Forall (elsewhere CF_METADATA k) ops.
Proof. intros Ho Hk. eapply Forall_impl; [exact Ho|]. intros op (k' & v & -> & Hin) [_ ->]. done. Qed.

Lemma totals_not_tip :
  (∀ s, slot_key s ∉ [Ledger.STATE_ROOT; Ledger.TOTAL_BURNED; Ledger.TOTAL_TREASURY]) ∧
  CHAIN_TIP_SLOT ∉ [Ledger.STATE_ROOT; Ledger.TOTAL_BURNED; Ledger.TOTAL_TREASURY] ∧
  CHAIN_TIP_HASH ∉ [Ledger.STATE_ROOT; Ledger.TOTAL_BURNED; Ledger.TOTAL_TREASURY].
Proof.
  split_and!; [intros s|apply (bool_decide_unpack _); by vm_compute..].
  rewrite !elem_of_cons, elem_of_nil. intros [He|[He|[He|[]]]]; symmetry in He; revert He; apply slot_key_ne; by vm_compute.
Qed.

Lemma h256_of_as_bytes h : (h < 2 ^ 256)%N → h256_of_bytes (as_bytes 32 h) = Some h.
Proof.
  intros Hh. unfold h256_of_bytes. rewrite length_as_bytes, Nat.eqb_refl. f_equal.
  unfold Storage.from_be_bytes, as_bytes, to_be_bytes. rewrite reverse_involutive, from_to_le_bytes; [lia|].
  change (256 ^ Z.of_nat 32) with (Z.of_N (2 ^ 256)). lia.
Qed.

(** The block, its slot index and the chain tip are in the storage. *)
Definition stored_block (db : DB) (b : Block) (h : H256) : Prop :=
  db_get db CF_BLOCKS (as_bytes 32 h) = Some (ser_block b) ∧
  db_get db CF_METADATA (slot_key b.(header).(header_slot)) = Some (as_bytes 32 h) ∧
  load_persisted_chain_tip db = Some (b.(header).(header_slot), h).

Lemma pay_elsewhere reward a σ1 cf k : cf ≠ CF_ACCOUNTS → Forall (elsewhere cf k) (pay_ops reward a σ1).
Proof. intros Hcf. unfold pay_ops. case_match; repeat constructor. intros [<- _]. done. Qed.

Lemma spent_elsewhere cf k ops : cf ≠ CF_SPENT_UTXOS → Forall is_spent_op ops → Forall (elsewhere cf k) ops.
Proof. intros Hcf Ho. eapply Forall_impl; [exact Ho|]. intros op [k' ->] [<- _]. done. Qed.

Lemma other_family cf cf' k k' v : cf' ≠ cf → elsewhere cf k (Put cf' k' v).
Proof. intros Hne [-> _]. done. Qed.
Lemma other_key cf k k' v : k' ≠ k → elsewhere cf k (Put cf k' v).
Proof. intros Hne [_ ->]. done. Qed.

Lemma stored_put db pre post cf k v :
  Forall (elsewhere cf k) post → db_get (db_write db (pre ++ Put cf k v :: post)) cf k = Some v.
Proof. intros Ho. rewrite get_write_after. by apply read_after_put. Qed.

Lemma block_ops_split b h stored o σ1 pay totals spent staking :
  block_ops b h stored o σ1 pay totals spent ++ [Put CF_STAKING STAKING_STATE staking] =
  (overlay_batch o ++ [Put CF_METADATA Ledger.STATE_ROOT (as_bytes 32 (lroot σ1))]) ++
  Put CF_BLOCKS (as_bytes 32 h) (ser_block b) :: Put CF_METADATA (slot_key b.(header).(header_slot)) (as_bytes 32 h) ::
  ((λ r, Put CF_RECEIPTS (as_bytes 32 r.(r_tx_hash)) (ser_receipt r)) <$> stored) ++
  Put CF_METADATA CHAIN_TIP_SLOT (to_le_bytes 8 b.(header).(header_slot)) :: Put CF_METADATA CHAIN_TIP_HASH (as_bytes 32 h) ::
  pay ++ totals ++ spent ++ [Put CF_STAKING STAKING_STATE staking].
Proof. unfold block_ops, build_block_batch. by repeat (cbn [app]; rewrite <- ?app_assoc). Qed.

Lemma tail_elsewhere k reward a σ1 totals spent staking :
  Forall total_op totals → Forall is_spent_op spent → k ∉ [Ledger.STATE_ROOT; Ledger.TOTAL_BURNED; Ledger.TOTAL_TREASURY] →
  Forall (elsewhere CF_METADATA k) (pay_ops reward a σ1 ++ totals ++ spent ++ [Put CF_STAKING STAKING_STATE staking]).
Proof.
  intros Htot Hsp Hk. rewrite !Forall_app.
  split_and!; [by apply pay_elsewhere|by apply total_elsewhere|by apply spent_elsewhere|].
  apply Forall_cons_2; [by apply other_family|constructor].
Qed.

Lemma snoc_cons {A} (pre : list A) x l : pre ++ x :: l = (pre ++ [x]) ++ l.
Proof. by rewrite <- app_assoc. Qed.

Lemma tip_of_reads db slot h :
  (h < 2 ^ 256)%N → 0 ≤ slot ≤ U64_MAX →
  db_get db CF_METADATA CHAIN_TIP_SLOT = Some (to_le_bytes 8 slot) → db_get db CF_METADATA CHAIN_TIP_HASH = Some (as_bytes 32 h) →
  load_persisted_chain_tip db = Some (slot, h).
Proof.
  intros Hh Hs H1' H2'. unfold load_persisted_chain_tip, read. rewrite !Storage.get_known by compute_done.
  rewrite H1', H2'. cbn [mbind option_bind]. rewrite length_as_bytes, length_to_le_bytes. cbn [Nat.eqb negb orb].
  rewrite h256_of_as_bytes by done. cbn [mbind option_bind]. rewrite from_to_le_bytes; [done|].
  change (256 ^ Z.of_nat 8) with (U64_MAX + 1). lia.
Qed.

Lemma block_ops_stored db b h stored o σ1 reward a totals spent staking :
  (h < 2 ^ 256)%N → 0 ≤ b.(header).(header_slot) ≤ U64_MAX → Forall total_op totals → Forall is_spent_op spent →
  stored_block (db_write db (block_ops b h stored o σ1 (pay_ops reward a σ1) totals spent ++ [Put CF_STAKING STAKING_STATE staking])) b h.
Proof.
  intros Hh Hs Htot Hsp. destruct totals_not_tip as (Hn1 & Hn2 & Hn3). rewrite block_ops_split.
  pose proof (λ k, tail_elsewhere k reward a σ1 totals spent staking Htot Hsp) as Htail.
  set (rs := (λ r, Put CF_RECEIPTS _ _) <$> stored). set (pre := overlay_batch o ++ _).
  assert (Hrs : ∀ cf k, cf ≠ CF_RECEIPTS → Forall (elsewhere cf k) rs)
    by (intros cf k Hcf; apply Forall_fmap, Forall_true; intros r; by apply other_family).
  unfold stored_block. split_and!.
  - apply stored_put. apply Forall_cons_2; [by apply other_family|]. apply Forall_app. split; [by apply Hrs|].
    do 2 (apply Forall_cons_2; [by apply other_family|]). rewrite !Forall_app.
    split_and!; [by apply pay_elsewhere|eapply Forall_impl; [exact Htot|]; intros op (k' & v & -> & _); by apply other_family
      |by apply spent_elsewhere|]. by apply Forall_cons_2; [apply other_family|constructor].
  - rewrite snoc_cons. apply stored_put. apply Forall_app. split; [by apply Hrs|].
    do 2 (apply Forall_cons_2; [by apply other_key, slot_key_ne|]). apply Htail, Hn1.
  - apply tip_of_reads; [done|done| |].
    + rewrite snoc_cons, snoc_cons, app_assoc. apply stored_put.
      apply Forall_cons_2; [apply other_key; by vm_compute|]. by apply Htail.
    + rewrite snoc_cons, snoc_cons, app_assoc, snoc_cons. apply stored_put. by apply Htail.
Qed.

(** ** Committing *)

Definition fees_payable (b : Block) n (σ1 : LState) : Prop :=
  let fee := block_fees b n in
  payable n.(ledger) σ1 b.(header).(header_proposer) fee.(FeeMarket.proposer_reward) fee.(FeeMarket.burned)
    fee.(FeeMarket.treasury_fee).

Lemma block_commit_batch_total b h stored o n σ σ1 t :
  ledger_inv n.(ledger) σ → spec_inv n.(ledger) σ (o, t) σ1 → (b.(header).(header_proposer) < 2 ^ 160)%N →
  fees_payable b n σ1 → ∃ n' batch, block_commit_batch b h stored o n = (n', Ok batch).
Proof.
  intros Hl Hs Ha. unfold block_commit_batch, fees_payable, block_fees. cbv zeta. unfold_M.
  destruct (FeeMarket.process_block _ _ _) as [market fee]. cbn [snd]. intros Hp.
  destruct (on_ledger (Ledger.prepare_overlay_batch o) (set_fee_market market n)) as [n1 r1] eqn:E1.
  apply on_ledger_run in E1 as (l1 & E1 & ->). change (set_fee_market market n).(ledger) with n.(ledger) in E1.
  rewrite (prepare_refines n.(ledger) σ (o, t) σ1 Hl Hs) in E1. injection E1 as <- <-.
  match goal with |- context [on_ledger ?m ?n2] => destruct (on_ledger m n2) as [n2' r2] eqn:E2 end.
  apply on_ledger_run in E2 as (l2 & E2 & ->). destruct (si_tracks _ _ _ _ Hs) as [HR Hw].
  destruct (fold_fee_total ((overlay_batch o ++ [Put CF_METADATA Ledger.STATE_ROOT (as_bytes 32 (lroot σ1))]) ++ build_block_batch b h stored)
    o b.(header).(header_proposer) fee.(FeeMarket.proposer_reward) fee.(FeeMarket.burned) fee.(FeeMarket.treasury_fee) (Ledger.set_tree (account_tree σ1) n.(ledger)) σ1) as (l' & batch' & Hf); [reflexivity|exact HR|exact Ha|by destruct Hp|].
  cbn [set_ledger ledger] in E2. rewrite Hf in E2. injection E2 as <- <-. by do 2 eexists.
Qed.

Lemma apply_evidence_ledger slot n ev : (apply_evidence slot n ev).(ledger) = n.(ledger).
Proof.
  unfold apply_evidence, slash_both. cbv zeta. repeat case_match; try done.
  all: by destruct (Staking.slash _ _ _ _).
Qed.

Lemma evidence_ledger slot evs n : (foldl (apply_evidence slot) n evs).(ledger) = n.(ledger).
Proof. revert n. induction evs as [|ev evs IH]; intros n; cbn [foldl]; [done|]. by rewrite IH, apply_evidence_ledger. Qed.

Lemma vote_on_block_ledger clk b n : (vote_on_block clk b n).(ledger) = n.(ledger).
Proof.
  unfold vote_on_block. cbv zeta. repeat case_match; try done.
  match goal with |- (set_last_voted_slot _ (broadcast ?m ?n1)).(ledger) = _ => destruct (NodeSafety.broadcast_fields m n1) as (_ & _ & _ & _ & _ & El) end.
  exact El.
Qed.

(** The chain of the node is as it was: the storage, the blocks it knows and
    those it committed. *)
Definition same_chain n n' : Prop :=
  n'.(ledger).(Ledger.storage) = n.(ledger).(Ledger.storage) ∧ n'.(blocks_by_hash) = n.(blocks_by_hash) ∧
  n'.(committed_at_slot) = n.(committed_at_slot) ∧ n'.(latest_block_slot) = n.(latest_block_slot) ∧
  n'.(latest_block_hash) = n.(latest_block_hash).

Lemma block_commit_batch_failed b h stored o n σ σ1 t n' e :
  ledger_inv n.(ledger) σ → spec_inv n.(ledger) σ (o, t) σ1 → block_commit_batch b h stored o n = (n', Err e) → same_chain n n'.
Proof.
  intros Hl Hs. unfold block_commit_batch. cbv zeta. unfold_M. destruct (FeeMarket.process_block _ _ _) as [market fee].
  destruct (on_ledger (Ledger.prepare_overlay_batch o) (set_fee_market market n)) as [n1 r1] eqn:E1.
  apply on_ledger_run in E1 as (l1 & E1 & ->). change (set_fee_market market n).(ledger) with n.(ledger) in E1.
  rewrite (prepare_refines n.(ledger) σ (o, t) σ1 Hl Hs) in E1. injection E1 as <- <-.
  match goal with |- context [on_ledger ?m ?n2] => destruct (on_ledger m n2) as [n2' [x|e2]] eqn:E2 end; [done|].
  apply on_ledger_run in E2 as (l2 & E2 & ->). intros [= <- <-]. split; [|done]. cbn [set_ledger ledger] in E2 |- *.
  apply (f_equal fst) in E2. cbn [fst] in E2. rewrite <- E2. etransitivity; [by apply (fold_fee_storage _ _ _ _ _ _ _ σ1)|done].
Qed.

(** The writes of a commit whose batch can be made. *)
Lemma commit_block_spec b h stored o n σ σ1 t n1 batch :
  ledger_inv n.(ledger) σ → spec_inv n.(ledger) σ (o, t) σ1 → (b.(header).(header_proposer) < 2 ^ 160)%N →
  (h < 2 ^ 256)%N → 0 ≤ b.(header).(header_slot) ≤ U64_MAX → block_commit_batch b h stored o n = (n1, Ok batch) →
  ∃ n', commit_block b h stored o n = (n', Ok tt) ∧ ledger_inv n'.(ledger) (paid b n σ1) ∧
        stored_block n'.(ledger).(Ledger.storage) b h.
Proof.
  intros Hl Hs Ha Hh Hslot E1.
  destruct (block_commit_batch_spec b h stored o n σ σ1 t n1 batch Hl Hs Ha E1) as (Hst & Htr & Hok & totals & spent & -> & Htot & Hsp).
  destruct (si_tracks _ _ _ _ Hs) as [HR Hw].
  unfold commit_block. cbv zeta. unfold mbind at 1, M_bind at 1. rewrite E1. unfold_M.
  set (n2 := foldl _ n1 _). assert (El : n2.(ledger) = n1.(ledger)) by apply evidence_ledger. unfold on_ledger, Ledger.write_batch. unfold_M.
  unfold persist_staking_state_to_batch. rewrite El, Storage.write_batch_known by by apply block_ops_known.
  eexists. split; [reflexivity|]. cbn [ledger set_fork_choice set_committed_at_slot set_ledger Ledger.storage]. rewrite Hst. split.
  - constructor; cbn [Ledger.storage Ledger.merkle_tree]; [exact Hok| |exact Htr].
    pose proof (λ staking, block_ops_represents b h stored o n.(ledger) σ1 (block_reward b n) b.(header).(header_proposer) totals spent staking
      HR Hw (si_state _ _ _ _ Hs) Ha Htot Hsp) as Hrep.
    eapply represents_ext; [| |apply Hrep]; intros k; by rewrite get_write_after.
  - by apply block_ops_stored.
Qed.

(** ** Receiving a block *)

(** The fork choice prefers the block, and no other is committed at its slot. *)
Definition commits (b : Block) n : bool :=
  let slot := b.(header).(header_slot) in
  let h := block_hash b in
  bool_decide (ForkChoice.canonical_block (ForkChoice.add_block slot h n.(fork_choice)).1 slot = Some h) &&
  negb (from_option (λ h', negb (h' =? h)%N) false (n.(committed_at_slot) !! slot)).

Lemma reorg_mempool_ledger clk old b n : (reorg_mempool clk old b n).(ledger) = n.(ledger).
Proof. unfold reorg_mempool. by case_match. Qed.

(** The block is applied as specified ([n']), or its commit fails because the
    fees cannot be paid out, and the chain stays as it was. *)
Definition applied_as_specified (b : Block) n (σ1 : LState) n' : Prop :=
  if commits b n
  then ledger_inv n'.(ledger) (paid b n σ1) ∧ stored_block n'.(ledger).(Ledger.storage) b (block_hash b)
  else n'.(ledger) = n.(ledger).

Lemma apply_block_spec clk b rs o n σ σ1 t :
  ledger_inv n.(ledger) σ → spec_inv n.(ledger) σ (o, t) σ1 → (b.(header).(header_proposer) < 2 ^ 160)%N →
  0 ≤ b.(header).(header_slot) ≤ U64_MAX →
  (∃ n', apply_block clk b (block_hash b) rs o n = (n', Ok tt) ∧ applied_as_specified b n σ1 n') ∨
  (∃ n' e, apply_block clk b (block_hash b) rs o n = (n', Err e) ∧ commits b n = true ∧ ¬ fees_payable b n σ1 ∧ same_chain n n').
Proof.
  intros Hl Hs Ha Hslot. unfold apply_block, applied_as_specified, commits. cbv zeta. set (h := block_hash b). unfold_M.
  destruct (ForkChoice.add_block _ _ _) as [fc is_fork]. cbn [fst].
  set (stored := stored_receipt _ _ <$> rs).
  destruct (_ && _).
  - destruct (block_commit_batch b h stored o (set_fork_choice fc n)) as [n0 [batch|e]] eqn:E0.
    + left. destruct (commit_block_spec b h stored o (set_fork_choice fc n) σ σ1 t n0 batch Hl Hs Ha (digest_range _) Hslot E0) as (n1 & E1 & Hl1 & Hst1).
      rewrite E1. eexists. split; [reflexivity|]. rewrite vote_on_block_ledger.
      match goal with |- ledger_inv ?l _ ∧ _ => replace l with n1.(ledger); [by split|] end.
      unfold insert_receipts, update_mempool. cbv zeta. case_match; [|done]. symmetry. apply reorg_mempool_ledger.
    + right. exists n0, e. split_and!; [|done| |].
      * unfold commit_block. cbv zeta. unfold mbind at 1, M_bind at 1. by rewrite E0.
      * intros Hp. destruct (block_commit_batch_total b h stored o (set_fork_choice fc n) σ σ1 t Hl Hs Ha Hp) as (? & ? & E1). congruence.
      * exact (block_commit_batch_failed b h stored o (set_fork_choice fc n) σ σ1 t n0 e Hl Hs E0).
  - left. eexists. split; [reflexivity|]. rewrite vote_on_block_ledger. unfold insert_receipts, update_mempool. cbv zeta.
    case_match; [|done]. by etransitivity; [apply reorg_mempool_ledger|].
Qed.

(** What the checks of a received block establish about its execution. *)
Lemma validate_spec clk b n rs o :
  validate clk b n = Ok (rs, o) →
  Ledger.apply_block_speculatively_with_chain_id n.(ledger) b.(transactions) (Some n.(chain_config).(chain_id_numeric)) = Ok (rs, o) ∧
  o.(Ledger.overlay_root) = b.(header).(state_root) ∧ compute_receipts_root rs = b.(header).(Consensus.receipts_root) ∧
  compute_transactions_root b.(transactions) = b.(header).(transactions_root) ∧ check_quorum b n = Ok tt ∧
  check_slot b n = Ok tt.
Proof.
  unfold validate. cbv zeta. unfold_M. unfold bail_if, mret, mthrow.
  intros Hv. repeat (case_match; try discriminate). all: simplify_eq; repeat match goal with a : () |- _ => destruct a end.
  all: repeat match goal with Hn : negb (_ =? _)%N = false |- _ => apply negb_false_iff, N.eqb_eq in Hn end.
  all: by split_and!.
Qed.

(** The block is new, above the finalised slot, of this version, its parent is
    known, and it passes the checks with the receipts [rs] and the overlay [o]. *)
Record acceptable (clk : Clock) (b : Block) n (rs : list TransactionReceipt) (o : Ledger.PendingOverlay) : Prop := {
  acc_new : n.(blocks_by_hash) !! block_hash b = None;
  acc_above : finalized_slot n.(consensus) = 0 ∨ finalized_slot n.(consensus) < b.(header).(header_slot);
  acc_version : b.(header).(version) = PROTOCOL_VERSION;
  acc_parent : is_orphan b n = false;
  acc_valid : validate clk b n = Ok (rs, o)
}.

Lemma receive_acceptable orphans clk b n rs o n' r :
  acceptable clk b n rs o → apply_block clk b (block_hash b) rs o n = (n', r) →
  receive_block orphans clk b n =
    match r with Ok _ => (update_sync clk b.(header).(header_slot) (orphans (block_hash b) n'), Ok tt) | Err e => (n', Err e) end.
Proof.
  intros [Hn Hf Hv Ho Hok] Hap. unfold receive_block. unfold_M. cbv zeta. rewrite Hn, bool_decide_false by by intros [? ?].
  rewrite (proj2 (andb_false_iff _ _)) by (destruct Hf; [right|left]; apply not_true_iff_false; intros ?; lia).
  rewrite Hv, Z.eqb_refl. cbn [negb bail_if mret M_ret]. rewrite Ho, Hok. cbn [fst snd]. rewrite Hap. by destruct r.
Qed.

(** C2: An accepted block (new, above the finalized slot, with a known parent,
    and passing the checks): its header commits to the execution of its
    transactions, all of which are signed, on the node's ledger. If neither the
    proposer's balance nor the totals of burned and treasury fees overflow, the
    block is applied as specified: if the fork choice prefers it, the stored
    ledger becomes that state with the proposer paid, and the block, its slot
    index and the chain tip are stored; otherwise the ledger is untouched. If
    one of them overflows, receiving the block either succeeds in the same way
    or fails, and then the storage and the blocks known and committed are as
    before. *)
Theorem received_block_refines orphans clk b n rs o σ
    (Hl : ledger_inv n.(ledger) σ) (Htx : Forall tx_ok b.(transactions)) (Ha : (b.(header).(header_proposer) < 2 ^ 160)%N)
    (Hs : 0 ≤ b.(header).(header_slot) ≤ U64_MAX) (Hacc : acceptable clk b n rs o) :
  let '(σ1, outcomes) := block_exec (Some n.(chain_config).(chain_id_numeric)) b.(transactions) σ in
  b.(header).(state_root) = lroot σ1 ∧ Forall (λ tx, signed tx = true) b.(transactions) ∧ summary <$> rs = outcomes ∧
  ((∃ n', receive_block orphans clk b n = (update_sync clk b.(header).(header_slot) (orphans (block_hash b) n'), Ok tt) ∧
     applied_as_specified b n σ1 n') ∨
   (∃ n' e, receive_block orphans clk b n = (n', Err e) ∧ commits b n = true ∧ ¬ fees_payable b n σ1 ∧ same_chain n n')).
Proof.
  destruct (validate_spec _ _ _ _ _ (acc_valid _ _ _ _ _ Hacc)) as (Hx & Hroot & _).
  destruct (speculation_spec _ _ _ _ _ _ Hl Htx Hx) as (t & Hsp & Hsum & Hr & Hsig).
  destruct (block_exec _ _ _) as [σ1 outcomes]. cbn [fst snd] in *. split_and!; [congruence|done|done|].
  destruct (apply_block_spec clk b rs o n σ σ1 t Hl Hsp Ha Hs) as [(n' & Hap & Hn')|(n' & e & Hap & Hc & Hp & Hn')].
  - left. exists n'. split; [|done]. exact (receive_acceptable orphans clk b n rs o n' _ Hacc Hap).
  - right. exists n', e. split_and!; [|done..]. exact (receive_acceptable orphans clk b n rs o n' _ Hacc Hap).
Qed.


(** ** Certificates *)

Definition sent_blocks (ms : list OutboundMessage) : list Block :=
  omap (λ m, match m with BroadcastBlock b => Some b | _ => None end) ms.

Definition same_sent_blocks n n' : Prop := sent_blocks n'.(sent) = sent_blocks n.(sent).

Lemma broadcast_sent_blocks m n :
  sent_blocks (broadcast m n).(sent) = sent_blocks n.(sent) ++ match m with BroadcastBlock b => [b] | _ => [] end.
Proof.
  destruct (NodeSafety.broadcast_fields m n) as (-> & _). unfold sent_blocks. rewrite omap_app. by destruct m.
Qed.

Lemma vote_sent_blocks clk b n : same_sent_blocks n (vote_on_block clk b n).
Proof.
  unfold vote_on_block, same_sent_blocks. cbv zeta. repeat case_match; try done. cbn [sent set_last_voted_slot].
  by rewrite broadcast_sent_blocks, app_nil_r.
Qed.

Lemma same_sent_blocks_core : NodeSafety.core same_sent_blocks.
Proof.
  constructor; try done; [|intros; apply vote_sent_blocks].
  split; [done|]. intros x y z Hxy Hyz. unfold same_sent_blocks in *. congruence.
Qed.

(** The only block a producer sends has no certificate, and the last block of
    the node as its parent. *)
Lemma produce_block_sends clk slot n :
  let n' := (produce_block clk slot n).1 in
  sent_blocks n'.(sent) = sent_blocks n.(sent) ∨
  ∃ b, sent_blocks n'.(sent) = sent_blocks n.(sent) ++ [b] ∧ b.(aggregated_vote) = None ∧
       b.(header).(header_slot) = slot ∧ b.(header).(parent_hash) = n.(latest_block_hash).
Proof.
  cbv zeta. unfold produce_block. unfold_M. unfold select_transactions.
  destruct (Mempool.get_transactions _ _ _) as [p regular]. cbn [fst snd].
  destruct (Ledger.apply_block_speculatively_with_chain_id _ _ _) as [[rs o]|e]; [|by left].
  cbn [validator_key set_mempool]. destruct n.(validator_key) as [key|]; [|by left]. cbn [ok_or]. cbv zeta. unfold_M.
  set (b := with_roots _ _ _ _). destruct (validate_block _ _ _); [|by left].
  match goal with |- context [block_commit_batch b ?h ?st ?o ?n0] =>
    pose proof (NodeSafety.block_commit_batch_respects _ same_sent_blocks_core b h st o n0) as H1';
    destruct (block_commit_batch b h st o n0) as [n1 [batch|e]] end; [|by left].
  pose proof (NodeSafety.on_ledger_respects _ same_sent_blocks_core (Ledger.write_batch batch) n1) as H2'.
  destruct (on_ledger _ n1) as [n2 [[]|e]]; cbn [fst] in *; [|left; etransitivity; [exact H2'|exact H1']].
  right. exists b. split_and!; try reflexivity. etransitivity; [apply vote_sent_blocks|]. rewrite broadcast_sent_blocks. f_equal.
  transitivity (sent_blocks n2.(sent)); [reflexivity|]. etransitivity; [exact H2'|exact H1'].
Qed.

(** Without a certificate a block past slot 1 with a parent is at most buffered. *)
Lemma uncertified_rejected clk b n :
  b.(aggregated_vote) = None → 1 < b.(header).(header_slot) → b.(header).(parent_hash) ≠ 0%N →
  (on_block_received clk b n).1 = n ∨ (on_block_received clk b n).1 = buffer_orphan b n.
Proof.
  intros Hv Hs Hp. unfold on_block_received.
  assert (Hall : ∀ orphans, (receive_block orphans clk b n).1 = n ∨ (receive_block orphans clk b n).1 = buffer_orphan b n).
  { intros orphans. unfold receive_block. unfold_M. cbv zeta. case_match; [by left|]. case_match; [by left|].
    destruct (negb _); [by left|]. destruct (is_orphan b n); [by right|]. left.
    destruct (validate clk b n) as [[rs o]|e] eqn:Hok; [|done]. apply validate_spec in Hok as (_ & _ & _ & _ & Hq & _).
    exfalso. revert Hq. unfold check_quorum, is_bootstrap. rewrite Hv.
    rewrite (proj2 (N.eqb_neq _ _) Hp). by destruct (Z.leb_spec b.(header).(header_slot) 1); [lia|]. }
  apply Hall.
Qed.

(** No node accepts the blocks another node produces: from slot 2 on, a block
    that a producer sends on top of a block leaves every receiver unchanged,
    except for its buffer of blocks whose parent is missing. *)
Theorem produced_blocks_rejected clk clk' slot n m b
    (Hsent : BroadcastBlock b ∈ (produce_block clk slot n).1.(sent)) (Hnew : BroadcastBlock b ∉ n.(sent))
    (Hslot : 1 < slot) (Htip : n.(latest_block_hash) ≠ 0%N) :
  (on_block_received clk' b m).1 = m ∨ (on_block_received clk' b m).1 = buffer_orphan b m.
Proof.
  assert (Hiff : ∀ ms, BroadcastBlock b ∈ ms ↔ b ∈ sent_blocks ms).
  { intros ms. unfold sent_blocks. rewrite list_elem_of_omap. split; [by exists (BroadcastBlock b)|].
    intros ([] & Hin & [=->]). exact Hin. }
  rewrite Hiff in Hsent, Hnew. destruct (produce_block_sends clk slot n) as [He|(b' & He & Hv & Hs & Hp)]; rewrite He in Hsent; [done|].
  apply elem_of_app in Hsent as [?| ->%list_elem_of_singleton]; [done|]. apply uncertified_rejected; congruence || lia.
Qed.

(** ** One committed block per slot *)

Definition keeps_commits n n' : Prop := ∀ s h, n.(committed_at_slot) !! s = Some h → n'.(committed_at_slot) !! s = Some h.

#[local] Instance keeps_commits_preorder : PreOrder keeps_commits.
Proof. split; [by intros n s h|]. intros x y z Hxy Hyz s h Hx. by apply Hyz, Hxy. Qed.

Lemma same_commits n n' : n'.(committed_at_slot) = n.(committed_at_slot) → keeps_commits n n'.
Proof. intros E1 s h. by rewrite E1. Qed.

Lemma broadcast_committed m n : (broadcast m n).(committed_at_slot) = n.(committed_at_slot).
Proof.
  unfold broadcast. cbv zeta. cbn [set_sent broadcast_tx outbound_buffer]. destruct n.(broadcast_tx) as [c|].
  - destruct (drain_buffer 64 n.(outbound_buffer) c) as [buf c1]. destruct (try_send m c1) as [c2 r]. destruct r; cbn; [done|done|].
    by case_match.
  - by case_match.
Qed.

Lemma vote_committed clk b n : (vote_on_block clk b n).(committed_at_slot) = n.(committed_at_slot).
Proof. unfold vote_on_block. cbv zeta. repeat case_match; try done. cbn [committed_at_slot set_last_voted_slot]. by rewrite broadcast_committed. Qed.

Lemma evidence_committed slot evs n : (foldl (apply_evidence slot) n evs).(committed_at_slot) = n.(committed_at_slot).
Proof.
  revert n. induction evs as [|ev evs IH]; intros n; cbn [foldl]; [done|]. rewrite IH.
  unfold apply_evidence, slash_both. cbv zeta. repeat case_match; try done. all: by destruct (Staking.slash _ _ _ _).
Qed.

Lemma batch_committed b h stored o n : (block_commit_batch b h stored o n).1.(committed_at_slot) = n.(committed_at_slot).
Proof.
  unfold block_commit_batch, on_ledger. cbv zeta. unfold_M. destruct (FeeMarket.process_block _ _ _) as [market fee].
  destruct (Ledger.prepare_overlay_batch _ _) as [l [batch|e]]; [|done].
  by destruct (Ledger.fold_fee_distribution_into_batch _ _ _ _ _ _ _) as [l' [batch'|e]].
Qed.

Lemma commit_committed b h stored o n :
  let n' := (commit_block b h stored o n).1 in
  n'.(committed_at_slot) = n.(committed_at_slot) ∨ n'.(committed_at_slot) = <[b.(header).(header_slot) := h]> n.(committed_at_slot).
Proof.
  cbv zeta. pose proof (batch_committed b h stored o n) as H1'. unfold commit_block, on_ledger. cbv zeta. unfold_M.
  destruct (block_commit_batch b h stored o n) as [n1 [batch|e]]; cbn [fst] in H1'; [|by left].
  pose proof (evidence_committed b.(header).(header_slot) b.(slash_evidence) n1) as H2'.
  set (n2 := foldl _ n1 _) in *. destruct (Ledger.write_batch _ _) as [l [[]|e]]; [right|left].
  - transitivity (<[b.(header).(header_slot) := h]> n2.(committed_at_slot)); [reflexivity|congruence].
  - transitivity n2.(committed_at_slot); [reflexivity|congruence].
Qed.

Lemma apply_block_commits clk b rs o n : keeps_commits n (apply_block clk b (block_hash b) rs o n).1.
Proof.
  unfold apply_block. cbv zeta. set (h := block_hash b). set (slot := b.(header).(header_slot)).
  unfold mbind at 1, M_bind at 1. unfold get_state at 1. cbv beta iota.
  destruct (ForkChoice.add_block _ _ _) as [fc is_fork]. set (stored := stored_receipt _ _ <$> rs).
  unfold mbind at 1, M_bind at 1. unfold modify at 1. cbv beta iota. set (n0 := set_fork_choice fc n).
  transitivity n0; [by apply same_commits|]. set (commit := _ && _).
  assert (Hc : keeps_commits n0 ((if commit then commit_block b h stored o else mret tt) n0).1).
  { destruct commit eqn:Ec; [|done]. destruct (commit_committed b h stored o n0) as [Hc|Hc]; [by apply same_commits|].
    intros s' h' Hs'. rewrite Hc. destruct (decide (s' = slot)) as [->|Hne]; [|by rewrite lookup_insert_ne].
    unfold commit in Ec. apply andb_true_iff in Ec as [_ Ec]. change n.(committed_at_slot) with n0.(committed_at_slot) in Ec.
    rewrite Hs' in Ec. cbn in Ec. apply negb_true_iff, negb_false_iff, N.eqb_eq in Ec as ->. by rewrite lookup_insert_eq. }
  unfold mbind at 1, M_bind at 1. set (run := (if commit then commit_block b h stored o else mret tt) n0) in *.
  destruct run as [n1 [[]|e]]; cbn [fst] in Hc; [|exact Hc].
  etransitivity; [exact Hc|]. apply same_commits. unfold_M. cbn [fst]. rewrite vote_committed.
  unfold insert_receipts, update_mempool, reorg_mempool. repeat case_match; reflexivity.
Qed.

Lemma receive_block_commits orphans clk b n :
  (∀ h n, keeps_commits n (orphans h n)) → keeps_commits n (receive_block orphans clk b n).1.
Proof.
  intros Ho. unfold receive_block. unfold_M. cbv zeta. case_match; [done|]. case_match; [done|]. destruct (negb _); [done|].
  destruct (is_orphan b n). { apply same_commits. cbn. unfold buffer_orphan. by case_match. }
  cbn [mret M_ret bail_if]. destruct (validate clk b n) as [[rs o]|e]; [|done]. pose proof (apply_block_commits clk b rs o n) as Hap. cbn [fst snd].
  destruct (apply_block _ _ _ _ _ _) as [n1 [[]|e]]; cbn [fst] in *; [|exact Hap].
  etransitivity; [exact Hap|]. etransitivity; [apply Ho|]. apply same_commits. unfold update_sync. by case_match.
Qed.

Lemma receive_deep_commits depth clk b n : keeps_commits n (receive_deep depth clk b n).1.
Proof.
  revert b n. induction depth as [|depth IH]; intros b n; cbn [receive_deep]; apply receive_block_commits; [done|].
  intros h m. unfold process_orphans. case_match eqn:Ho; [|done]. cbv zeta.
  etransitivity; [|apply (NodeSafety.respects_foldl keeps_commits); intros; apply IH]. by apply same_commits.
Qed.

(** Received blocks never replace a committed block: what a node has committed
    at a slot stays committed there, whatever blocks arrive and whether they
    are accepted or not. *)
Theorem committed_slot_kept arrivals n slot h (Hc : n.(committed_at_slot) !! slot = Some h) :
  (foldl (λ n e, (on_block_received e.1 e.2 n).1) n arrivals).(committed_at_slot) !! slot = Some h.
Proof.
  enough (Hk : keeps_commits n (foldl (λ n e, (on_block_received e.1 e.2 n).1) n arrivals)) by by apply Hk.
  apply (NodeSafety.respects_foldl keeps_commits). intros m [clk b]. apply receive_deep_commits.
Qed.

(** ** Credits of an epoch *)

Lemma credit_to_batch_run batch a v n τ acc :
  n.(ledger).(Ledger.merkle_tree) = account_tree τ → Ledger.get_or_create_account n.(ledger) a = Ok acc →
  acc.(balance) + v ≤ U128_MAX → acc.(address) = a →
  on_ledger (Ledger.credit_account_to_batch batch a v) n =
  (set_ledger (Ledger.set_tree (account_tree (put_acct (credit v acc) τ)) n.(ledger)) n,
   Ok (batch ++ [Put CF_ACCOUNTS (as_bytes 20 a) (ser_account (credit v acc));
                 Put CF_METADATA Ledger.STATE_ROOT (as_bytes 32 (lroot (put_acct (credit v acc) τ)))])).
Proof.
  intros Ht Ha Hle Hadr. unfold on_ledger, Ledger.credit_account_to_batch. unfold_M. rewrite Ha, checked_add_fits by done.
  fold (credit v acc). rewrite (root_into_batch_run _ _ _ τ Ht). unfold Ledger.update_account_in_batch.
  change (credit v acc).(address) with acc.(address). rewrite Hadr, <- app_assoc. reflexivity.
Qed.

(** Two credits to one account in the batch of an epoch: both are computed from
    the stored balance, so that after the write the account has only the second. *)
Theorem second_credit_overwrites n σ a x y
    (Hl : ledger_inv n.(ledger) σ) (Ha : (a < 2 ^ 160)%N)
    (Hx : (acct σ a).(balance) + x ≤ U128_MAX) (Hy : (acct σ a).(balance) + y ≤ U128_MAX) :
  ∃ n' batch, credit_all [(a, x); (a, y)] [] n = (n', Ok batch) ∧
    Ledger.get_account (on_ledger (Ledger.write_batch batch) n').1.(ledger) a = Ok (Some (credit y (acct σ a))).
Proof.
  pose proof (get_account_rep n.(ledger) σ a Hl Ha) as Hg. pose proof (acct_ok σ a (inv_state _ _ Hl) Ha) as Hok.
  pose proof (account_ok_addr _ _ Hok) as Hadr. unfold credit_all, mbind, M_bind.
  rewrite (credit_to_batch_run [] a x n σ _ (inv_tree _ _ Hl) Hg Hx Hadr). set (n1 := set_ledger _ n).
  set (σ1 := put_acct (credit x (acct σ a)) σ) in *.
  rewrite (credit_to_batch_run _ a y n1 σ1 (acct σ a) eq_refl Hg Hy Hadr). set (n2 := set_ledger _ n1).
  eexists n2, _. split; [reflexivity|]. unfold on_ledger, Ledger.write_batch. unfold_M.
  rewrite Storage.write_batch_known by (repeat (apply Forall_cons_2; [compute_done|]); constructor).
  unfold Ledger.get_account. rewrite Storage.get_known by compute_done. cbn [fst set_ledger ledger Ledger.storage].
  rewrite stored_put by (apply Forall_cons_2; [by apply other_family|constructor]). unfold_M. by rewrite de_ser_account.
Qed.
End node_level.
End NodeBlocks.
