(* ===== verification/NodeDemo.v ===== *)
(** * A concrete node

    A node of a network of two validators under the round-robin engine, with
    the ledger of the file [LedgerBlocks]: the hypotheses of the theorems on
    the node hold on its runs, and some runs show behaviour that the code's
    comments rule out. *)

From S2P Require Import Prelude.
From S2P Require Import Merkle.
From S2P Require Import Staking.
From S2P Require Import Consensus.
From S2P Require Import Bls.
From S2P Require Import Transaction.
From S2P Require Import Storage.
From S2P Require Import Ledger.
From S2P Require Import LedgerSpec.
From S2P Require Import Toy.
From S2P Require Import LedgerBlocks.
From S2P Require Import FeeMarket.
From S2P Require Import Slashing.
From S2P Require Import Mempool.
From S2P Require Import ForkChoice.
From S2P Require Import Block.
From S2P Require Import ToyBlock.
From S2P Require Import Sync.
From S2P Require Import Engine.
From S2P Require Import Node.
From S2P Require Import NodeSafety.
From S2P Require Import NodeBlocks.

#[global] Instance Validator_eq_dec : EqDecision Staking.Validator.
Proof. solve_decision. Defined.
#[global] Instance Validator_countable : Countable Staking.Validator.
Proof.
  apply (inj_countable' (λ v, (v.(Staking.address), v.(Staking.staked_amount), v.(Staking.delegated_amount), v.(Staking.commission_rate),
      v.(Staking.reward_address), v.(Staking.is_active), v.(Staking.jailed_until), v.(Staking.slash_count)))
    (λ '(a, b, c, d, e, f, g, h), Staking.mkValidator a b c d e f g h)). by intros [].
Defined.
#[global] Instance Delegation_eq_dec : EqDecision Staking.Delegation.
Proof. solve_decision. Defined.
#[global] Instance Delegation_countable : Countable Staking.Delegation.
Proof.
  apply (inj_countable' (λ d, (d.(Staking.delegator), d.(Staking.validator), d.(Staking.amount), d.(Staking.reward_debt)))
    (λ '(a, b, c, d), Staking.mkDelegation a b c d)). by intros [].
Defined.
#[global] Instance Unbonding_eq_dec : EqDecision Staking.Unbonding.
Proof. solve_decision. Defined.
#[global] Instance Unbonding_countable : Countable Staking.Unbonding.
Proof.
  apply (inj_countable' (λ u, (u.(Staking.unb_address), u.(Staking.unb_validator), u.(Staking.unb_amount), u.(Staking.complete_slot)))
    (λ '(a, b, c, d), Staking.mkUnbonding a b c d)). by intros [].
Defined.
#[global] Instance StakingState_eq_dec : EqDecision Staking.StakingState.
Proof. solve_decision. Defined.
#[global] Instance StakingState_countable : Countable Staking.StakingState.
Proof.
  apply (inj_countable' (λ s, (s.(Staking.total_staked), s.(Staking.validators), s.(Staking.delegations), s.(Staking.unbonding),
      s.(Staking.reward_pool), s.(Staking.current_epoch)))
    (λ '(a, b, c, d, e, f), Staking.mkStakingState a b c d e f)). by intros [].
Defined.
#[global] Instance Vote_eq_dec : EqDecision Vote.
Proof. solve_decision. Defined.
#[global] Instance Vote_countable : Countable Vote.
Proof.
  apply (inj_countable' (λ v, (v.(vote_slot), v.(vote_block_hash), v.(vote_validator), v.(vote_signature), v.(vote_stake)))
    (λ '(a, b, c, d, e), mkVote a b c d e)). by intros [].
Defined.

#[global] Program Instance toy_node : NodeCodec := {
  ser_staking := toy_ser; de_staking := toy_de;
  ser_status s := match s with Success => [0] | Failed _ => [1] end;
  ser_logs := [];
  de_vote := toy_de; de_tx := toy_de; de_sync := toy_de
}.
Next Obligation. intros. apply toy_de_ser. Qed.

Module NodeDemo.
Import Node.

Definition engine (slot : Z) : Simple.SimpleConsensus :=
  Simple.mkSimple [mkValidatorInfo 1 10 0 true; mkValidatorInfo 2 5 0 true] slot 0 ∅.

Definition config : ChainConfig := mkConfig 1 500 1000000 100 0 (mkFeeParams 1 1 1) 1 1000000.

Definition bls : Bls.BlsKeypair := Bls.mkBlsKeypair true true.

(** The node of the validator with the key [key], before its first block, at
    the slot [slot]. *)
Definition fresh (l : Ledger.Ledger) (key : PublicKey) (slot : Z) : Node (E := Simple.SimpleConsensus) :=
  mkNode config l (Mempool.new config.(fees) config.(chain_id_numeric)) (engine slot) (Some key) (Some bls) false
    (FeeMarket.new 1 1000000 1) (EmissionSchedule.new 1000000 500 100) 0 ForkChoice.new
    0%N None ∅ ∅ ∅ Staking.new None [] 0 Slashing.new ∅ ∅ (Sync.new 10) 0 ∅ 0 0 None None ∅ [].

Lemma fresh_is_new (slot : Z) :
  Node.new LedgerDemo.ledger0.(Ledger.storage) (engine slot) (Some 1%N) (Some bls) config = Ok (fresh LedgerDemo.ledger0 1 slot).
Proof. reflexivity. Qed.

Definition at_secs (s : Z) : Clock := mkClock (s * 1000000000) s.

(** ** A producer *)

(** The first validator is the leader of the slots 2 and 4. *)
Definition node_a : Node := fresh LedgerDemo.ledger0 1 2.
Definition node_a3 : Node := Eval vm_compute in (tick (at_secs 100) node_a).1.
Definition node_a4 : Node := Eval vm_compute in (tick (at_secs 101) node_a3).1.
Definition node_a5 : Node := Eval vm_compute in (tick (at_secs 102) node_a4).1.

Lemma node_a3_eq : (tick (at_secs 100) node_a).1 = node_a3.
Proof. vm_cast_no_check (eq_refl node_a3). Qed.
Lemma node_a4_eq : (tick (at_secs 101) node_a3).1 = node_a4.
Proof. vm_cast_no_check (eq_refl node_a4). Qed.
Lemma node_a5_eq : (tick (at_secs 102) node_a4).1 = node_a5.
Proof. vm_cast_no_check (eq_refl node_a5). Qed.

Lemma run_a4 : rtc NodeSafety.node_step node_a node_a4.
Proof.
  apply rtc_l with node_a3; [exact (eq_ind _ _ (NodeSafety.step_tick node_a (at_secs 100)) _ node_a3_eq)|].
  apply rtc_once. exact (eq_ind _ _ (NodeSafety.step_tick node_a3 (at_secs 101)) _ node_a4_eq).
Qed.
Lemma run_a5 : rtc NodeSafety.node_step node_a node_a5.
Proof. apply rtc_r with node_a4; [exact run_a4|]. exact (eq_ind _ _ (NodeSafety.step_tick node_a4 (at_secs 102)) _ node_a5_eq). Qed.

Lemma one_vote_per_slot_witness :
  vote_slot <$> NodeSafety.own_votes node_a5.(sent) = [2; 4] ∧
  ∀ v v', NodeSafety.own_votes node_a5.(sent) = [v; v'] →
    Slashing.detect_double_sign (NodeSafety.as_slash_vote v) (NodeSafety.as_slash_vote v') = None.
Proof.
  split; [by vm_compute|]. intros v v' Hv.
  apply (NodeSafety.one_vote_per_slot node_a node_a5 eq_refl run_a5) with (i := 0%nat) (j := 1%nat); [by rewrite Hv..|done].
Defined.

(** The block of slot 4, on top of that of slot 2. *)
Definition block_of (n : Node (E := Simple.SimpleConsensus)) : Block :=
  default (block_new 0 0 0 0 EMPTY_VRF []) (last (NodeBlocks.sent_blocks n.(sent))).
Definition block2 : Block := Eval vm_compute in block_of node_a3.
Definition block4 : Block := Eval vm_compute in block_of node_a5.

(** ** Receivers *)

Definition node_b : Node := fresh LedgerDemo.ledger0 2 9.
Definition node_b2 : Node := Eval vm_compute in (on_block_received (at_secs 103) block2 node_b).1.

(** Another node takes the first block, whose parent is the zero hash, and
    refuses the next for its missing certificate. *)
Lemma second_block_refused :
  node_b2.(latest_block_slot) = Some 2 ∧ node_b2.(blocks_by_hash) !! block4.(header).(parent_hash) = Some block2 ∧
  (on_block_received (at_secs 103) block4 node_b2).2 =
    Err (Fmt "block at slot {} missing required quorum certificate (aggregated_vote)" [4]).
Proof. split_and!; by vm_compute. Qed.

Lemma produced_blocks_rejected_witness :
  let b := block_of (produce_block (at_secs 102) 4 node_a4).1 in
  (on_block_received (at_secs 103) b node_b2).1 = node_b2 ∨ (on_block_received (at_secs 103) b node_b2).1 = buffer_orphan b node_b2.
Proof.
  cbv zeta. apply (NodeBlocks.produced_blocks_rejected (at_secs 102) (at_secs 103) 4 node_a4 node_b2).
  - apply list_elem_of_lookup. exists 2%nat. by vm_compute.
  - intros [i Hi]%list_elem_of_lookup. do 2 (destruct i as [|i]; [revert Hi; vm_compute; discriminate|]). revert Hi. by vm_compute.
  - done.
  - by vm_compute.
Defined.

(** The block of slot 4 arrives first: it waits for its parent. *)
Definition node_b4 : Node := Eval vm_compute in (on_block_received (at_secs 103) block4 node_b).1.

Lemma node_b4_eq : (on_block_received (at_secs 103) block4 node_b).1 = node_b4.
Proof. vm_cast_no_check (eq_refl node_b4). Qed.

Lemma run_b4 : rtc NodeSafety.node_step node_b node_b4.
Proof. apply rtc_once. exact (eq_ind _ _ (NodeSafety.step_block node_b (at_secs 103) block4) _ node_b4_eq). Qed.

Lemma orphan_buffer_bounded_witness :
  node_b4.(orphan_count) = 1 ∧ node_b4.(orphan_count) = Z.of_nat (buffered node_b4.(orphan_blocks)) ∧
  node_b4.(orphan_count) ≤ MAX_ORPHAN_BLOCKS.
Proof.
  split; [by vm_compute|].
  destruct (NodeSafety.orphan_buffer_bounded node_b node_b4 (conj eq_refl eq_refl) run_b4) as (H1 & H2 & _). by split.
Defined.

Lemma orphan_recursion_terminates_witness :
  receive_deep 5 (at_secs 103) block2 node_b4 = on_block_received (at_secs 103) block2 node_b4.
Proof.
  apply (NodeSafety.orphan_recursion_terminates node_b node_b4 (at_secs 103) block2 5 (conj eq_refl eq_refl) run_b4).
  by vm_compute; lia.
Defined.

(** The parent is taken, and the waiting block with it. *)
Lemma parent_releases_orphan :
  let n := (on_block_received (at_secs 103) block2 node_b4).1 in n.(latest_block_slot) = Some 2 ∧ n.(orphan_count) = 0.
Proof. by vm_compute. Qed.

(** Another block of the same leader for slot 2. *)
Definition rival : Block := Eval vm_compute in block_of (tick (at_secs 90) node_a).1.

Lemma committed_slot_kept_witness :
  node_b2.(committed_at_slot) !! 2 = Some (block_hash block2) ∧ block_hash rival ≠ block_hash block2 ∧
  (foldl (λ n e, (on_block_received e.1 e.2 n).1) node_b2 [(at_secs 103, rival)]).(committed_at_slot) !! 2 = Some (block_hash block2).
Proof.
  assert (Hc : node_b2.(committed_at_slot) !! 2 = Some (block_hash block2)) by by vm_compute.
  split; [exact Hc|]. split; [by vm_compute|].
  exact (NodeBlocks.committed_slot_kept [(at_secs 103, rival)] node_b2 2 _ Hc).
Defined.

(** ** The first block, accepted *)

(** A transfer of 100 that pays more than the base fee, in a block of slot 2. *)
Definition rich_ledger : Ledger.Ledger := (Ledger.seed_account LedgerDemo.addr_a 100000 LedgerDemo.ledger0).1.
Definition rich_state : LState := put_acct (with_balance LedgerDemo.addr_a 100000) LedgerDemo.state0.

Lemma rich_inv : ledger_inv rich_ledger rich_state.
Proof.
  destruct (seed_refines LedgerDemo.addr_a 100000 LedgerDemo.ledger0 LedgerDemo.state0 LedgerDemo.ledger0_inv) as (l & Hrun & Hl);
    [by vm_compute|split; by vm_compute|].
  unfold rich_ledger. by rewrite Hrun.
Qed.

Definition paying : Transaction :=
  toy_sign LedgerDemo.key_a (mkTx 0 1 LedgerDemo.addr_a LedgerDemo.key_a [] [] [] [] (Some TRANSFER_PROGRAM_ID)
    (toy_ser (mkTransfer LedgerDemo.addr_b 100 None)) 21000 30000 []).
Definition pool : Mempool.Mempool := (Mempool.add_transaction 0 paying (Mempool.new config.(fees) config.(chain_id_numeric))).1.
Definition producer : Node := set_mempool pool (fresh rich_ledger 1 2).
Definition receiver : Node := fresh rich_ledger 2 9.
Definition full_block : Block := Eval vm_compute in block_of (tick (at_secs 100) producer).1.

Lemma full_block_transactions : full_block.(transactions) = [paying].
Proof. by vm_compute. Qed.

Definition checked : list TransactionReceipt * Ledger.PendingOverlay :=
  default ([], Ledger.overlay_new) (Node.ok (validate (at_secs 103) full_block receiver)).

Lemma full_block_acceptable : NodeBlocks.acceptable (at_secs 103) full_block receiver checked.1 checked.2.
Proof. constructor; [by vm_compute|left; by vm_compute|by vm_compute..]. Qed.

Definition moved_state : LState := tx_effect rich_state paying (Some (mkTransfer LedgerDemo.addr_b 100 None)).

Lemma full_block_exec :
  block_exec (Some 1) full_block.(transactions) rich_state = (moved_state, (block_exec (Some 1) full_block.(transactions) rich_state).2).
Proof. by vm_compute. Qed.

Lemma full_block_payable : NodeBlocks.fees_payable full_block receiver moved_state.
Proof. constructor; by vm_compute. Qed.

Lemma full_block_values :
  (acct moved_state LedgerDemo.addr_b).(balance) = 100 ∧ 0 < NodeBlocks.block_reward full_block receiver.
Proof. split; vm_compute; reflexivity. Qed.

(** The block is committed, the recipient has the amount and the proposer the
    fees above the base fee. *)
Lemma received_block_refines_witness :
  ∃ n', receive_block (λ _ n, n) (at_secs 103) full_block receiver = (update_sync (at_secs 103) 2 n', Ok tt) ∧
    NodeBlocks.stored_block n'.(ledger).(Ledger.storage) full_block (block_hash full_block) ∧
    ledger_inv n'.(ledger) (NodeBlocks.rewarded (NodeBlocks.block_reward full_block receiver) full_block.(header).(header_proposer) moved_state) ∧
    (acct moved_state LedgerDemo.addr_b).(balance) = 100 ∧ 0 < NodeBlocks.block_reward full_block receiver.
Proof.
  pose proof (NodeBlocks.received_block_refines (λ _ n, n) (at_secs 103) full_block receiver checked.1 checked.2 rich_state
    rich_inv ltac:(rewrite full_block_transactions; repeat constructor; by vm_compute) ltac:(by vm_compute)
    ltac:(split; by vm_compute) full_block_acceptable) as Hr.
  change (chain_id_numeric (chain_config receiver)) with 1 in Hr. rewrite full_block_exec in Hr.
  destruct Hr as (_ & _ & _ & [(n' & Hrun & Hc)|(n' & e & _ & _ & Hno & _)]); [|by destruct (Hno full_block_payable)].
  unfold NodeBlocks.applied_as_specified in Hc. assert (Ec : NodeBlocks.commits full_block receiver = true) by by vm_compute.
  rewrite Ec in Hc. destruct Hc as [Hl Hst]. exists n'. split; [exact Hrun|]. split; [exact Hst|]. split; [exact Hl|].
  exact full_block_values.
Defined.

Lemma second_credit_overwrites_witness :
  ∃ n' batch, credit_all [(7%N, 30); (7%N, 12)] [] node_a = (n', Ok batch) ∧
    Ledger.get_account (on_ledger (Ledger.write_batch batch) n').1.(ledger) 7 = Ok (Some (credit 12 (acct LedgerDemo.state0 7))).
Proof.
  apply (NodeBlocks.second_credit_overwrites node_a LedgerDemo.state0 7 30 12 LedgerDemo.ledger0_inv); by vm_compute.
Defined.

(** ** What the checks let through *)

(** The second validator's block of slot 3, on no parent. *)
Definition block3 : Block := Eval vm_compute in block_of (tick (at_secs 101) (fresh LedgerDemo.ledger0 2 3)).1.

(** A block whose parent is the zero hash needs neither a certificate nor a
    known parent: the tip of a node moves back from slot 4 to a block of slot 3
    that is not on its chain. *)
Theorem zero_parent_moves_tip_back :
  let n := (on_block_received (at_secs 103) block3 node_a5).1 in
  node_a5.(latest_block_slot) = Some 4 ∧ block3.(header).(parent_hash) = 0%N ∧ block3.(aggregated_vote) = None ∧
  n.(latest_block_slot) = Some 3 ∧ n.(latest_block_hash) = block_hash block3 ∧
  n.(committed_at_slot) !! 4 = Some (block_hash block4).
Proof. split_and!; by vm_compute. Qed.

Definition victim : Address := to_address 2.
Definition staked : Node := set_staking_state
  (Staking.mkStakingState 1000 [Staking.mkValidator victim 1000 0 0 victim true None 0] [] [] 0 0) node_a5.
Definition forged (h : H256) : Vote := mkVote 5 h 2 [] 0.

(** Two votes without a signature, for different blocks of slot 5, slash the
    validator they name. *)
Theorem unsigned_votes_slash :
  let n := (on_vote_received (at_secs 103) (forged 8) (on_vote_received (at_secs 103) (forged 7) staked).1).1 in
  Staking.staked_amount <$> n.(staking_state).(Staking.validators) = [950].
Proof. by vm_compute. Qed.

Definition restarted : option (Node (E := Simple.SimpleConsensus)) :=
  Node.ok (Node.new node_b2.(ledger).(Ledger.storage) (engine 9) (Some 2%N) (Some bls) config).

(** Votes of one node that are evidence against it. *)
Definition conflicting (vs vs' : list Vote) : bool :=
  match vs, vs' with
  | [v], [v'] => negb (bool_decide (Slashing.detect_double_sign (NodeSafety.as_slash_vote v) (NodeSafety.as_slash_vote v') = None))
  | _, _ => false
  end.

Definition after_rival (n n' : Node (E := Simple.SimpleConsensus)) : Prop :=
  n.(blocks_by_hash) !! block_hash block2 = Some block2 ∧ n.(latest_block_hash) = block_hash block2 ∧
  conflicting (NodeSafety.own_votes node_b2.(sent)) (NodeSafety.own_votes n'.(sent)) = true ∧
  n'.(latest_block_slot) = Some 2 ∧ n'.(latest_block_hash) = block_hash rival ∧
  load_persisted_chain_tip n'.(ledger).(Ledger.storage) = Some (2, block_hash rival).

(** What a node voted for and committed is forgotten when it restarts: with a
    rival block of the same slot it votes a second time in that slot, which is
    evidence for slashing it, and commits the rival over the block it stored. *)
Theorem restart_forgets_votes_and_commits :
  from_option (λ n, after_rival n (on_block_received (at_secs 104) rival n).1) False restarted.
Proof. vm_compute. split_and!; done. Qed.
End NodeDemo.
