(* ===== verification/HotStuff.v ===== *)
(** * The HotStuff engine

    [crates/consensus/src/hotstuff.rs]: phases, votes and quorum certificates,
    the two-chain finality rule and the view change. The engine is the record
    [HotStuffConsensus]; methods that change it live in the state-and-error
    monad. The nested map [votes] is a map keyed by phase and block. BLS is the
    file [Bls]; the iteration order of hash maps is a parameter. *)

From S2P Require Import Prelude.
From S2P Require Import Bls.
From S2P Require Import Consensus.
From S2P Require Import Hybrid.
From S2P Require Import Transaction.
From S2P Require Import Storage.
From S2P Require Import Block.

Module HotStuff.

Inductive Phase := Propose | Prevote | Precommit | Commit.

#[global] Instance Phase_eq_dec : EqDecision Phase.
Proof. solve_decision. Defined.
#[global] Instance Phase_countable : Countable Phase.
Proof.
  apply (inj_countable' (λ p, match p with Propose => 0%nat | Prevote => 1%nat | Precommit => 2%nat | Commit => 3%nat end)
    (λ n, match n with O => Propose | 1%nat => Prevote | 2%nat => Precommit | _ => Commit end)).
  by intros [].
Defined.

Record HotStuffVote := mkVote {
  v_slot : Z;
  v_block_hash : H256;
  v_parent_hash : H256;
  v_phase : Phase;
  v_validator : Address;
  v_pubkey : PublicKey;
  v_stake : Z;
  v_signature : list Z
}.

Record TimeoutVote := mkTimeoutVote {
  tv_round : Z;
  tv_validator : Address;
  tv_pubkey : PublicKey;
  tv_stake : Z;
  tv_highest_qc_slot : Z;
  tv_highest_qc_hash : H256;
  tv_signature : list Z
}.

Record TimeoutCertificate := mkTC {
  tc_round : Z;
  tc_total_stake : Z;
  tc_highest_qc_slot : Z;
  tc_highest_qc_hash : H256;
  tc_signers : list Address;
  tc_aggregated_signature : list Z;
  tc_aggregated_pubkey : list Z
}.

Inductive ConsensusAction :=
| BroadcastVote (v : HotStuffVote)
| Finalized (slot : Z) (block_hash : H256)
| BroadcastTimeout (t : TimeoutVote).

Record AggregatedVote := mkAggregated {
  a_slot : Z;
  a_block_hash : H256;
  a_phase : Phase;
  a_total_stake : Z;
  a_signers : list Address;
  a_signature : list Z;
  a_pubkey : list Z
}.

Definition phase_to_byte (p : Phase) : Z :=
  match p with Propose => 0 | Prevote => 1 | Precommit => 2 | Commit => 3 end.

Section engine.
Context `{Digest, Blst, HashOrder, BlockCodec}.

Record HotStuffConsensus := mkHotStuff {
  current_phase : Phase;
  current_slot : Z;
  validators : gmap Address ValidatorInfo;
  total_stake : Z;
  votes : gmap (Phase * H256) (list HotStuffVote);
  qcs : gmap (Z * Phase * H256) AggregatedVote;
  timeout_votes : gmap Z (list TimeoutVote);
  block_parents : gmap H256 H256;
  block_slots : gmap H256 Z;
  locked_block : option H256;
  locked_slot : Z;
  committed_slot : Z;
  hs_finalized_slot : Z;
  last_reported_finalized : Z;
  my_keypair : option Bls.BlsKeypair;
  my_address : option Address;
  bls_pubkeys : gmap Address (list Z)
}.

(** Assignments to one field. *)
Definition eta (s : HotStuffConsensus) : HotStuffConsensus :=
  mkHotStuff s.(current_phase) s.(current_slot) s.(validators) s.(total_stake) s.(votes) s.(qcs) s.(timeout_votes)
    s.(block_parents) s.(block_slots) s.(locked_block) s.(locked_slot) s.(committed_slot) s.(hs_finalized_slot)
    s.(last_reported_finalized) s.(my_keypair) s.(my_address) s.(bls_pubkeys).

Local Ltac assign field x s :=
  let t := eval cbv beta delta [eta] in (eta s) in
  let p := constr:(field s) in
  match eval pattern p in t with ?f _ => let r := eval cbv beta in (f x) in exact r end.

Definition set_current_phase (x : Phase) (s : HotStuffConsensus) : HotStuffConsensus := ltac:(assign current_phase x s).
Definition set_current_slot (x : Z) (s : HotStuffConsensus) : HotStuffConsensus := ltac:(assign current_slot x s).
Definition set_votes (x : gmap (Phase * H256) (list HotStuffVote)) (s : HotStuffConsensus) : HotStuffConsensus := ltac:(assign votes x s).
Definition set_qcs (x : gmap (Z * Phase * H256) AggregatedVote) (s : HotStuffConsensus) : HotStuffConsensus := ltac:(assign qcs x s).
Definition set_timeout_votes (x : gmap Z (list TimeoutVote)) (s : HotStuffConsensus) : HotStuffConsensus := ltac:(assign timeout_votes x s).
Definition set_block_parents (x : gmap H256 H256) (s : HotStuffConsensus) : HotStuffConsensus := ltac:(assign block_parents x s).
Definition set_block_slots (x : gmap H256 Z) (s : HotStuffConsensus) : HotStuffConsensus := ltac:(assign block_slots x s).
Definition set_locked_block (x : option H256) (s : HotStuffConsensus) : HotStuffConsensus := ltac:(assign locked_block x s).
Definition set_locked_slot (x : Z) (s : HotStuffConsensus) : HotStuffConsensus := ltac:(assign locked_slot x s).
Definition set_committed_slot (x : Z) (s : HotStuffConsensus) : HotStuffConsensus := ltac:(assign committed_slot x s).
Definition set_finalized_slot (x : Z) (s : HotStuffConsensus) : HotStuffConsensus := ltac:(assign hs_finalized_slot x s).
Definition set_last_reported (x : Z) (s : HotStuffConsensus) : HotStuffConsensus := ltac:(assign last_reported_finalized x s).
Definition set_bls_pubkeys (x : gmap Address (list Z)) (s : HotStuffConsensus) : HotStuffConsensus := ltac:(assign bls_pubkeys x s).

Definition new (vs : list ValidatorInfo) (kp : option Bls.BlsKeypair) (addr : option Address) : HotStuffConsensus :=
  mkHotStuff Propose 0 (foldl (λ m v, <[to_address v.(pubkey) := v]> m) ∅ vs)
    (foldl (saturating_add U128_MAX) 0 (stake <$> vs)) ∅ ∅ ∅ ∅ ∅ None 0 0 0 0 kp addr ∅.

Definition register_bls_pubkey (a : Address) (pk pop : list Z) : M HotStuffConsensus error unit :=
  bail_if (negb (length pk =? 48)%nat) (Fmt "BLS pubkey must be 48 bytes, got {}" [Z.of_nat (length pk)]);;
  valid ← reads (λ _, Bls.verify_pop pk pop);
  bail_if (negb valid) (Fmt "invalid proof-of-possession for BLS pubkey registered by {:?}" [Z.of_N a]);;
  modify (λ s, set_bls_pubkeys (<[a := pk]> s.(bls_pubkeys)) s).

Definition advance_phase (s : HotStuffConsensus) : HotStuffConsensus :=
  match s.(current_phase) with
  | Propose => set_current_phase Prevote s
  | Prevote => set_current_phase Precommit s
  | Precommit => set_current_phase Commit s
  | Commit =>
      set_current_phase Propose (set_votes ∅ (set_current_slot (saturating_add U64_MAX s.(current_slot) 1) s))
  end.

(** ** Messages *)

Definition vote_message (h parent : H256) (slot : Z) (p : Phase) : list Z :=
  as_bytes 32 h ++ as_bytes 32 parent ++ to_le_bytes 8 slot ++ [phase_to_byte p].

Definition timeout_message (round slot : Z) (h : H256) : list Z :=
  str_bytes "timeout" ++ to_le_bytes 8 round ++ to_le_bytes 8 slot ++ as_bytes 32 h.

Definition create_vote (h parent : H256) (p : Phase) (s : HotStuffConsensus) : result error (option HotStuffVote) :=
  match s.(my_keypair), s.(my_address) with
  | Some kp, Some addr =>
      validator ← ok_or (s.(validators) !! addr) (Msg "not in validator set");
      mret (Some (mkVote s.(current_slot) h parent p addr validator.(pubkey) validator.(stake)
        (Bls.sign kp (vote_message h parent s.(current_slot) p))))
  | _, _ => mret None
  end.

(** A registered key of the right length, and a signature that verifies. *)
Definition check_signature (bad_length invalid : string) (a : Address) (msg sig : list Z) (s : HotStuffConsensus) : result error unit :=
  pk ← ok_or (s.(bls_pubkeys) !! a) (Fmt "no BLS pubkey registered for {:?}" [Z.of_N a]);
  bail_if (negb (length pk =? 48)%nat) (Fmt "BLS pubkey invalid length {} for {:?}" [Z.of_nat (length pk); Z.of_N a]);;
  bail_if (negb (length sig =? 96)%nat) (Fmt bad_length [Z.of_nat (length sig); Z.of_N a]);;
  valid ← Bls.verify pk msg sig;
  bail_if (negb valid) (Fmt invalid [Z.of_N a]).

Definition verify_vote (v : HotStuffVote) (s : HotStuffConsensus) : result error unit :=
  ok_or (s.(validators) !! v.(v_validator)) (Fmt "unknown validator {:?}" [Z.of_N v.(v_validator)]);;
  check_signature "vote signature invalid length {} from {:?}" "invalid BLS signature from {:?}" v.(v_validator) (vote_message v.(v_block_hash) v.(v_parent_hash) v.(v_slot) v.(v_phase)) v.(v_signature) s.

Definition verify_timeout_vote_signature (tv : TimeoutVote) (s : HotStuffConsensus) : result error unit :=
  check_signature "timeout vote signature invalid length {} from {:?}" "invalid BLS signature on timeout vote from {:?}" tv.(tv_validator) (timeout_message tv.(tv_round) tv.(tv_highest_qc_slot) tv.(tv_highest_qc_hash))
    tv.(tv_signature) s.

(** The registered keys of the signers, or the first that has none. *)
Fixpoint keys_of (s : HotStuffConsensus) (who : list Address) : result error (list (list Z)) :=
  match who with
  | [] => mret []
  | a :: who =>
      pk ← ok_or (s.(bls_pubkeys) !! a) (Fmt "no BLS pubkey for {:?}" [Z.of_N a]);
      pks ← keys_of s who;
      mret (pk :: pks)
  end.

Definition sum_stakes (l : list Z) : Z := foldl (saturating_add U128_MAX) 0 l.

Definition aggregate_votes (vs : list HotStuffVote) (s : HotStuffConsensus) : result error AggregatedVote :=
  pks ← keys_of s (v_validator <$> vs);
  agg_sig ← Bls.aggregate_signatures (v_signature <$> vs);
  agg_pk ← Bls.aggregate_public_keys pks;
  match vs with
  | [] => Err (Msg "index out of bounds")
  | v :: _ => mret (mkAggregated v.(v_slot) v.(v_block_hash) v.(v_phase) (sum_stakes (v_stake <$> vs)) (v_validator <$> vs) agg_sig agg_pk)
  end.

(** ** Proposals *)

(** [self.block_parents.insert], [self.block_slots.insert]. *)
Definition record_block (h parent : H256) (slot : Z) (s : HotStuffConsensus) : HotStuffConsensus :=
  set_block_slots (<[h := slot]> s.(block_slots)) (set_block_parents (<[h := parent]> s.(block_parents)) s).

(** The safe-node rule: no lock, the block extends the locked one, or its
    parent's slot is not below the lock. *)
Definition safe_to_vote (b : Block) (s : HotStuffConsensus) : bool :=
  match s.(locked_block) with
  | Some locked =>
      if (b.(header).(parent_hash) =? locked)%N then true
      else s.(locked_slot) <=? default 0 (s.(block_slots) !! b.(header).(parent_hash))
  | None => true
  end.

Definition broadcast_vote (v : option HotStuffVote) : list ConsensusAction :=
  match v with Some v => [BroadcastVote v] | None => [] end.

Definition on_propose (b : Block) : M HotStuffConsensus error (list ConsensusAction) :=
  s ← get_state;
  bail_if (negb (bool_decide (s.(current_phase) = Propose))) (Msg "not in propose phase");;
  let h := block_hash b in
  modify (record_block h b.(header).(parent_hash) b.(header).(header_slot));;
  s ← get_state;
  if negb (safe_to_vote b s) then mret [] else
  modify advance_phase;;
  v ← reads (create_vote h b.(header).(parent_hash) Prevote);
  mret (broadcast_vote v).

(** ** Votes *)

(** [entry(..).or_insert(..)] for the parent and the slot of the voted block. *)
Definition track (v : HotStuffVote) (s : HotStuffConsensus) : HotStuffConsensus :=
  let s := if bool_decide (is_Some (s.(block_parents) !! v.(v_block_hash))) then s
           else set_block_parents (<[v.(v_block_hash) := v.(v_parent_hash)]> s.(block_parents)) s in
  if bool_decide (is_Some (s.(block_slots) !! v.(v_block_hash))) then s
  else set_block_slots (<[v.(v_block_hash) := v.(v_slot)]> s.(block_slots)) s.

Definition prune_finalized_state (s : HotStuffConsensus) : HotStuffConsensus :=
  if s.(hs_finalized_slot) <? 3 then s else
  let prune_below := s.(hs_finalized_slot) - 2 in
  let s := set_qcs (filter (λ e, prune_below ≤ e.1.1.1) s.(qcs)) s in
  let s := set_block_slots (filter (λ e, prune_below ≤ e.2) s.(block_slots)) s in
  set_block_parents (filter (λ e, is_Some (s.(block_slots) !! e.1)) s.(block_parents)) s.

(** The two-chain rule: the parent is final if it has a prevote certificate. *)
Definition finalize_parent (v : HotStuffVote) (s : HotStuffConsensus) : HotStuffConsensus * list ConsensusAction :=
  let parent := default v.(v_parent_hash) (s.(block_parents) !! v.(v_block_hash)) in
  match s.(block_slots) !! parent with
  | Some slot =>
      if bool_decide (is_Some (s.(qcs) !! (slot, Prevote, parent))) && (slot >? s.(hs_finalized_slot))
      then (prune_finalized_state (set_finalized_slot slot s), [Finalized slot parent])
      else (s, [])
  | None => (s, [])
  end.

Definition raise_committed (slot : Z) (s : HotStuffConsensus) : HotStuffConsensus :=
  if slot >? s.(committed_slot) then set_committed_slot slot s else s.

Definition on_quorum (v : HotStuffVote) : M HotStuffConsensus error (list ConsensusAction) :=
  match v.(v_phase) with
  | Prevote =>
      modify (λ s, set_locked_slot v.(v_slot) (set_locked_block (Some v.(v_block_hash)) s));;
      modify advance_phase;;
      mine ← reads (create_vote v.(v_block_hash) v.(v_parent_hash) Precommit);
      mret (broadcast_vote mine)
  | Precommit =>
      actions ← (λ s, let '(s, actions) := finalize_parent v s in (s, Ok actions));
      modify (raise_committed v.(v_slot));;
      modify advance_phase;;
      mret actions
  | _ => mret []
  end.

Definition on_vote (v : HotStuffVote) : M HotStuffConsensus error (option AggregatedVote * list ConsensusAction) :=
  reads (verify_vote v);;
  modify (track v);;
  s ← get_state;
  let registered := from_option stake 0 (s.(validators) !! v.(v_validator)) in
  bail_if (negb (v.(v_stake) =? registered))
    (Fmt "vote stake mismatch: claimed {} but registered {}" [v.(v_stake); registered]);;
  let key := (v.(v_phase), v.(v_block_hash)) in
  let block_votes := default [] (s.(votes) !! key) in
  bail_if (existsb (λ w, (w.(v_validator) =? v.(v_validator))%N) block_votes)
    (Fmt "duplicate vote from {:?} in phase {:?} for block {:?}"
       [Z.of_N v.(v_validator); phase_to_byte v.(v_phase); Z.of_N v.(v_block_hash)]);;
  let block_votes := block_votes ++ [v] in
  modify (λ s, set_votes (<[key := block_votes]> s.(votes)) s);;
  if negb (Quorum.has_quorum (sum_stakes (v_stake <$> block_votes)) s.(total_stake)) then mret (None, []) else
  qc ← reads (aggregate_votes block_votes);
  modify (λ s, set_qcs (<[(v.(v_slot), v.(v_phase), v.(v_block_hash)) := qc]> s.(qcs)) s);;
  actions ← on_quorum v;
  mret (Some qc, actions).

(** ** View change *)

Definition highest_qc (s : HotStuffConsensus) : Z * H256 :=
  foldl (λ best k, if k.1.1 >? best.1 then (k.1.1, k.2) else best) (0, 0%N) (fst <$> hash_iter s.(qcs)).

Definition on_timeout (round : Z) (s : HotStuffConsensus) : result error (list ConsensusAction) :=
  match s.(my_keypair), s.(my_address) with
  | Some kp, Some addr =>
      validator ← ok_or (s.(validators) !! addr) (Msg "not in validator set");
      let '(slot, h) := highest_qc s in
      mret [BroadcastTimeout (mkTimeoutVote round addr validator.(pubkey) validator.(stake) slot h
              (Bls.sign kp (timeout_message round slot h)))]
  | _, _ => mret []
  end.

Definition on_timeout_vote (tv : TimeoutVote) : M HotStuffConsensus error (option TimeoutCertificate) :=
  s ← get_state;
  validator ← ok_or (s.(validators) !! tv.(tv_validator)) (Fmt "unknown validator {:?}" [Z.of_N tv.(tv_validator)]);
  bail_if (negb (tv.(tv_stake) =? validator.(stake)))
    (Fmt "timeout vote stake mismatch: claimed {} but registered {}" [tv.(tv_stake); validator.(stake)]);;
  reads (verify_timeout_vote_signature tv);;
  let round_votes := default [] (s.(timeout_votes) !! tv.(tv_round)) in
  bail_if (existsb (λ w, (w.(tv_validator) =? tv.(tv_validator))%N) round_votes)
    (Fmt "duplicate timeout vote from {:?} in round {}" [Z.of_N tv.(tv_validator); tv.(tv_round)]);;
  let round_votes := round_votes ++ [tv] in
  modify (λ s, set_timeout_votes (<[tv.(tv_round) := round_votes]> s.(timeout_votes)) s);;
  let voted := sum_stakes (tv_stake <$> round_votes) in
  if negb (Quorum.has_quorum voted s.(total_stake)) then mret None else
  let '(slot, h) := foldl (λ best w, if w.(tv_highest_qc_slot) >? best.1 then (w.(tv_highest_qc_slot), w.(tv_highest_qc_hash)) else best)
                      (0, 0%N) round_votes in
  pks ← reads (λ s, keys_of s (tv_validator <$> round_votes));
  agg_sig ← reads (λ _, Bls.aggregate_signatures (tv_signature <$> round_votes));
  agg_pk ← reads (λ _, Bls.aggregate_public_keys pks);
  mret (Some (mkTC tv.(tv_round) voted slot h (tv_validator <$> round_votes) agg_sig agg_pk)).

(** The stake of the signers: distinct, known, without overflow. *)
Fixpoint signer_stake (s : HotStuffConsensus) (seen who : list Address) (acc : Z) : result error Z :=
  match who with
  | [] => mret acc
  | a :: who =>
      bail_if (bool_decide (a ∈ seen)) (Fmt "duplicate signer in timeout certificate: {:?}" [Z.of_N a]);;
      validator ← ok_or (s.(validators) !! a) (Fmt "unknown signer in timeout certificate: {:?}" [Z.of_N a]);
      acc ← ok_or (checked_add U128_MAX acc validator.(stake)) (Msg "voted stake overflow in timeout certificate");
      signer_stake s (a :: seen) who acc
  end.

Definition on_timeout_certificate (tc : TimeoutCertificate) : M HotStuffConsensus error unit :=
  voted ← reads (λ s, signer_stake s [] tc.(tc_signers) 0);
  s ← get_state;
  bail_if (negb (Quorum.has_quorum voted s.(total_stake)))
    (Fmt "timeout certificate has insufficient stake: {} / {} total" [voted; s.(total_stake)]);;
  pks ← reads (λ s, keys_of s tc.(tc_signers));
  agg_pk ← reads (λ _, Bls.aggregate_public_keys pks);
  valid ← reads (λ _, Bls.verify agg_pk (timeout_message tc.(tc_round) tc.(tc_highest_qc_slot) tc.(tc_highest_qc_hash))
                        tc.(tc_aggregated_signature));
  bail_if (negb valid) (Fmt "invalid aggregated BLS signature on timeout certificate for round {}" [tc.(tc_round)]);;
  modify (λ s, if tc.(tc_highest_qc_slot) >? s.(locked_slot)
               then set_locked_slot tc.(tc_highest_qc_slot) (set_locked_block (Some tc.(tc_highest_qc_hash)) s) else s);;
  modify (λ s, set_current_slot (saturating_add U64_MAX s.(current_slot) 1) s);;
  modify (set_current_phase Propose);;
  modify (set_votes ∅);;
  modify (λ s, set_timeout_votes (filter (λ e, tc.(tc_round) < e.1) s.(timeout_votes)) s).

(** ** Finality *)

Definition hotstuff_check_finality (slot : Z) (s : HotStuffConsensus) : HotStuffConsensus * bool :=
  if (slot <=? s.(hs_finalized_slot)) && (slot >? s.(last_reported_finalized))
  then (set_last_reported slot s, true) else (s, false).

#[global] Instance hotstuff_finality : Finality HotStuffConsensus := {
  check_finality := hotstuff_check_finality;
  finalized_slot := hs_finalized_slot
}.

(** ** Every call *)

(** Votes handed to the engine, each with the key that was registered for its
    validator at that moment. *)
Notation deliveries := (list (HotStuffVote * option (list Z))).

Inductive hs_call (s : HotStuffConsensus) : deliveries → HotStuffConsensus → Prop :=
| step_register a pk pop : hs_call s [] (register_bls_pubkey a pk pop s).1
| step_advance : hs_call s [] (advance_phase s)
| step_propose b : hs_call s [] (on_propose b s).1
| step_vote v : hs_call s [(v, s.(bls_pubkeys) !! v.(v_validator))] (on_vote v s).1
| step_timeout_vote tv : hs_call s [] (on_timeout_vote tv s).1
| step_timeout_certificate tc : hs_call s [] (on_timeout_certificate tc s).1
| step_record h parent slot : hs_call s [] (record_block h parent slot s).

Definition hs_step (s s' : HotStuffConsensus) : Prop := ∃ d, hs_call s d s'.

(** A run from [s0] with the votes it delivered. *)
Inductive hs_trace (s0 : HotStuffConsensus) : deliveries → HotStuffConsensus → Prop :=
| trace_start : hs_trace s0 [] s0
| trace_call log s d s' : hs_trace s0 log s → hs_call s d s' → hs_trace s0 (log ++ d) s'.

(** ** Certificates *)

(** A delivered vote of [a] for the block [h] in the phase [p], with a
    signature that is valid under the key registered for [a] when it came. *)
Definition signed_for (log : deliveries) (a : Address) (p : Phase) (h : H256) : Prop :=
  ∃ v pk, (v, Some pk) ∈ log ∧ v.(v_validator) = a ∧ v.(v_phase) = p ∧ v.(v_block_hash) = h ∧
    Bls.verify pk (vote_message h v.(v_parent_hash) v.(v_slot) p) v.(v_signature) = Ok true.

(** The votes counted for [h] in the phase [p]: of distinct validators, signed,
    each with the stake of its validator. *)
Definition ballot (log : deliveries) (vals : gmap Address ValidatorInfo) (p : Phase) (h : H256) (l : list HotStuffVote) : Prop :=
  NoDup (v_validator <$> l) ∧
  Forall (λ v, signed_for log v.(v_validator) p h ∧
               ∃ info, vals !! v.(v_validator) = Some info ∧ v.(v_stake) = info.(stake)) l.

Definition certified (log : deliveries) (vals : gmap Address ValidatorInfo) (total : Z) (p : Phase) (h : H256) (qc : AggregatedVote) : Prop :=
  ∃ l, ballot log vals p h l ∧ qc.(a_signers) = v_validator <$> l ∧ Quorum.has_quorum (sum_stakes (v_stake <$> l)) total = true.

Record hs_inv (log : deliveries) (s : HotStuffConsensus) : Prop := {
  inv_stakes : Hybrid.stakes_ok s.(validators) s.(total_stake);
  inv_votes : ∀ p h l, s.(votes) !! (p, h) = Some l → ballot log s.(validators) p h l;
  inv_qcs : ∀ sl p h qc, s.(qcs) !! (sl, p, h) = Some qc → certified log s.(validators) s.(total_stake) p h qc
}.

Lemma signed_for_mono log log' a p h : log ⊆ log' → signed_for log a p h → signed_for log' a p h.
Proof. intros Hl (v & pk & Hin & Hr). exists v, pk. auto. Qed.

Lemma ballot_mono log log' vals p h l : log ⊆ log' → ballot log vals p h l → ballot log' vals p h l.
Proof.
  intros Hl [Hn Hf]. split; [done|]. eapply Forall_impl; [exact Hf|]. intros v [Hs Hi].
  split; [by eapply signed_for_mono|done].
Qed.

Lemma hs_inv_mono log log' s : log ⊆ log' → hs_inv log s → hs_inv log' s.
Proof.
  intros Hl [I1 I2 I3]. constructor; [done| |].
  - intros p h l Hv. by eapply ballot_mono, I2.
  - intros sl p h qc Hq. destruct (I3 _ _ _ _ Hq) as (l & Hb & Hr). exists l. split; [by eapply ballot_mono|done].
Qed.

(** What all calls but a counted vote do to the votes and certificates. *)
Definition forgets (s s' : HotStuffConsensus) : Prop :=
  s'.(validators) = s.(validators) ∧ s'.(total_stake) = s.(total_stake) ∧ s'.(votes) ⊆ s.(votes) ∧ s'.(qcs) ⊆ s.(qcs).

#[local] Instance forgets_preorder : PreOrder forgets.
Proof.
  split; [by intros s|]. intros x y z (E1 & E2 & E3 & E4) (F1 & F2 & F3 & F4).
  split_and!; [congruence..| |]; etrans; eassumption.
Qed.

Lemma forgets_inv log s s' : forgets s s' → hs_inv log s → hs_inv log s'.
Proof.
  intros (E1 & E2 & E3 & E4) [I1 I2 I3]. constructor; rewrite ?E1, ?E2; [done| |].
  - intros p h l Hl. eapply I2, lookup_weaken; eassumption.
  - intros sl p h qc Hq. eapply I3, lookup_weaken; eassumption.
Qed.

Lemma forgets_same s s' :
  s'.(validators) = s.(validators) → s'.(total_stake) = s.(total_stake) → s'.(votes) = s.(votes) → s'.(qcs) = s.(qcs) → forgets s s'.
Proof. intros E1 E2 E3 E4. split_and!; [done..| |]; by rewrite ?E3, ?E4. Qed.

Lemma advance_phase_forgets s : forgets s (advance_phase s).
Proof. unfold advance_phase. case_match; try by apply forgets_same. split_and!; [done..|apply map_empty_subseteq|done]. Qed.

Lemma track_forgets v s : forgets s (track v s).
Proof. unfold track. apply forgets_same; by repeat case_bool_decide. Qed.

Lemma prune_forgets s : forgets s (prune_finalized_state s).
Proof. unfold prune_finalized_state. case_match; [done|]. split_and!; [done..|apply map_filter_subseteq]. Qed.

Lemma finalize_parent_forgets v s : forgets s (finalize_parent v s).1.
Proof.
  unfold finalize_parent. repeat case_match; try done. cbn. etransitivity; [|apply prune_forgets]. by apply forgets_same.
Qed.

Lemma raise_committed_forgets slot s : forgets s (raise_committed slot s).
Proof. unfold raise_committed. case_match; by apply forgets_same. Qed.

Lemma on_quorum_forgets v s : forgets s (on_quorum v s).1.
Proof.
  unfold on_quorum. destruct v.(v_phase); unfold_M; try done.
  - set (s1 := set_locked_slot _ _). assert (H1' : forgets s (advance_phase s1))
      by (etransitivity; [|apply advance_phase_forgets]; by apply forgets_same).
    by destruct (create_vote _ _ _ _).
  - pose proof (finalize_parent_forgets v s) as H1'. destruct (finalize_parent v s) as [s1 acts]. cbn in *.
    etransitivity; [exact H1'|]. etransitivity; [|apply advance_phase_forgets]. apply raise_committed_forgets.
Qed.

Lemma on_propose_forgets b s : forgets s (on_propose b s).1.
Proof.
  unfold on_propose. unfold_M. destruct (negb _); [done|]. set (s1 := record_block _ _ _ s).
  assert (H1' : forgets s s1) by by apply forgets_same.
  destruct (negb _); [exact H1'|]. destruct (create_vote _ _ _ _); cbn; (etransitivity; [exact H1'|apply advance_phase_forgets]).
Qed.

Lemma on_timeout_vote_forgets tv s : forgets s (on_timeout_vote tv s).1.
Proof. unfold on_timeout_vote. unfold_M. repeat (case_match; try done); simplify_eq/=; by apply forgets_same. Qed.

Lemma on_timeout_certificate_forgets tc s : forgets s (on_timeout_certificate tc s).1.
Proof.
  unfold on_timeout_certificate. unfold_M. repeat (case_match; try done); simplify_eq/=; try done.
  all: split_and!; [done..|apply map_empty_subseteq|done].
Qed.

(** A vote as the log records it when it is handed over. *)
Notation delivery s v := (v, s.(bls_pubkeys) !! v.(v_validator)).

Lemma verify_vote_signed log v s :
  verify_vote v s = Ok tt → delivery s v ∈ log → signed_for log v.(v_validator) v.(v_phase) v.(v_block_hash).
Proof.
  unfold verify_vote, check_signature. intros Hv Hin. res_inv. exists v. eexists. split_and!; [|done..|].
  { match goal with Hk : bls_pubkeys s !! _ = Some _ |- _ => rewrite Hk in Hin; exact Hin end. }
  match goal with Hb : Bls.verify _ _ _ = Ok ?b |- _ => destruct b; [exact Hb|done] end.
Qed.

Lemma aggregate_signers l s qc : aggregate_votes l s = Ok qc → qc.(a_signers) = v_validator <$> l.
Proof. unfold aggregate_votes. destruct l as [|v l]; intros Ha; res_inv; [done|]. reflexivity. Qed.

Lemma ballot_snoc log vals p h l v info :
  ballot log vals p h l → existsb (λ w, (w.(v_validator) =? v.(v_validator))%N) l = false →
  signed_for log v.(v_validator) p h → vals !! v.(v_validator) = Some info → v.(v_stake) = info.(stake) → ballot log vals p h (l ++ [v]).
Proof.
  intros [Hn Hf] Hd Hs Hi He. split.
  - rewrite fmap_app. apply NoDup_app. split_and!; [done| |apply NoDup_singleton].
    intros a (w & -> & Hw)%list_elem_of_fmap Ha%list_elem_of_singleton.
    apply not_true_iff_false in Hd. apply Hd, existsb_exists. exists w. split; [by apply list_elem_of_In|by apply N.eqb_eq].
  - apply Forall_app. split; [done|]. constructor; [|done]. eauto.
Qed.

Lemma on_vote_inv log v s : delivery s v ∈ log → hs_inv log s → hs_inv log (on_vote v s).1.
Proof.
  intros Hin Hi. unfold on_vote. unfold_M. destruct (verify_vote v s) as [[]|e] eqn:Hv; [|done].
  pose proof (verify_vote_signed log v s Hv Hin) as Hsig.
  assert (Hi1 : hs_inv log (track v s)) by (eapply forgets_inv; [apply track_forgets|done]).
  assert (Hinfo : is_Some ((track v s).(validators) !! v.(v_validator))).
  { unfold verify_vote in Hv. res_inv. destruct (track_forgets v s) as (-> & _). by eexists. }
  destruct Hinfo as [info Hinfo]. set (s1 := track v s) in *. clearbody s1. rewrite Hinfo. cbn [from_option].
  destruct (negb (_ =? _)) eqn:Hst; [done|]. apply negb_false_iff, Z.eqb_eq in Hst.
  destruct (existsb _ _) eqn:Hd; [done|]. set (l := default [] _ ++ [v]).
  assert (Hb : ballot log s1.(validators) v.(v_phase) v.(v_block_hash) l).
  { eapply ballot_snoc; [|exact Hd|done|done|done]. destruct (s1.(votes) !! _) eqn:El; cbn; [by apply Hi1|].
    split; [apply NoDup_nil_2|constructor]. }
  set (s2 := set_votes _ s1). assert (Hi2 : hs_inv log s2).
  { destruct Hi1 as [I1 I2 I3]. constructor; [done| |done]. intros p h l' Hl'. cbn in Hl'.
    apply lookup_insert_Some in Hl' as [[[= <- <-] <-]|[_ Hl']]; [exact Hb|by apply I2]. }
  destruct (negb _) eqn:Hq; [exact Hi2|]. apply negb_false_iff in Hq.
  destruct (aggregate_votes l s2) as [qc|e] eqn:Ha; [|exact Hi2]. set (s3 := set_qcs _ s2).
  assert (Hi3 : hs_inv log s3).
  { destruct Hi2 as [I1 I2 I3]. constructor; [done..|]. intros sl p h qc' Hl'. cbn in Hl'.
    apply lookup_insert_Some in Hl' as [[[= <- <- <-] <-]|[_ Hl']]; [|by eapply I3].
    exists l. split_and!; [exact Hb|by eapply aggregate_signers|exact Hq]. }
  pose proof (forgets_inv _ _ _ (on_quorum_forgets v s3) Hi3) as Hi4. by destruct (on_quorum v s3) as [s4 [acts|e]].
Qed.

Lemma hs_call_inv log s d s' : hs_call s d s' → hs_inv log s → hs_inv (log ++ d) s'.
Proof.
  intros Hc Hi. assert (Hd : hs_inv (log ++ d) s) by (eapply hs_inv_mono; [|exact Hi]; set_solver). revert Hd. clear Hi.
  destruct Hc as [a pk pop| |b|v|tv|tc|h parent slot].
  - apply forgets_inv. unfold register_bls_pubkey. unfold_M. repeat (case_match; try done); simplify_eq/=; by apply forgets_same.
  - apply forgets_inv, advance_phase_forgets.
  - apply forgets_inv, on_propose_forgets.
  - apply on_vote_inv. set_solver.
  - apply forgets_inv, on_timeout_vote_forgets.
  - apply forgets_inv, on_timeout_certificate_forgets.
  - apply forgets_inv. by apply forgets_same.
Qed.

Lemma new_hs_inv vs kp addr :
  Forall (λ v, 0 ≤ v.(stake)) vs → sum_list (stake <$> vs) ≤ U128_MAX → hs_inv [] (new vs kp addr).
Proof.
  intros Hvs Hs. destruct (Hybrid.foldl_insert_stakes vs ∅ Hvs) as [Hf Hle]; [apply map_Forall_empty|].
  rewrite map_sum_empty in Hle. constructor; cbn.
  - split; [done|]. rewrite foldl_saturating by (try apply Forall_fmap; done || ulia). ulia.
  - intros * Hl. by rewrite lookup_empty in Hl.
  - intros * Hl. by rewrite lookup_empty in Hl.
Qed.

Lemma hs_trace_inv vs kp addr log s :
  Forall (λ v, 0 ≤ v.(stake)) vs → sum_list (stake <$> vs) ≤ U128_MAX → hs_trace (new vs kp addr) log s → hs_inv log s.
Proof. intros Hvs Hsum Hrun. induction Hrun; [by apply new_hs_inv|by eapply hs_call_inv]. Qed.

Lemma ballot_stake log m p h l : ballot log m p h l → Quorum.stake_in stake m (v_validator <$> l) = sum_list (v_stake <$> l).
Proof.
  intros [_ Hf]. unfold Quorum.stake_in. f_equal. induction Hf as [|v l [_ (info & Hi & He)] _ IH]; [done|]. cbn. rewrite IH, Hi. cbn. by rewrite He.
Qed.

Lemma certified_stake log vals total p h qc :
  map_Forall (λ _ v, 0 ≤ v.(stake)) vals → 0 ≤ total → certified log vals total p h qc →
  NoDup qc.(a_signers) ∧ Forall (λ a, signed_for log a p h) qc.(a_signers) ∧
  0 ≤ Quorum.stake_in stake vals qc.(a_signers) ∧ Quorum.has_quorum (Quorum.stake_in stake vals qc.(a_signers)) total = true.
Proof.
  intros Hv Ht (l & Hb & -> & Hq). rewrite (ballot_stake _ _ _ _ _ Hb). destruct Hb as [Hn Hf].
  assert (Hnn : Forall (λ x, 0 ≤ x) (v_stake <$> l)).
  { apply Forall_fmap. eapply Forall_impl; [exact Hf|]. intros v [_ (info & Hi & He)]. cbn. rewrite He. by apply (Hv v.(v_validator)). }
  assert (Hs : 0 ≤ sum_list (v_stake <$> l)) by (clear -Hnn; induction Hnn; unfold sum_list in *; cbn; lia).
  split_and!; [done| |done|].
  - apply Forall_fmap. eapply Forall_impl; [exact Hf|]. by intros v [Hs' _].
  - eapply Quorum.has_quorum_mono; [done| |exact Hq]. unfold sum_stakes. rewrite foldl_saturating by (done || ulia). lia.
Qed.

(** C6: Conflicting certificates are accountable: whenever the engine holds
    certificates of one phase for two blocks, validators with a third of the
    stake (rounded down, less one), and with some stake, are signers of both,
    and for each of them two of the votes handed to the engine, one for each
    block in that phase, carry signatures that are valid under the key that was
    registered for the validator when the vote came. *)
Theorem certificates_accountable vs kp addr log s p sl h qc sl' h' qc'
    (Hvs : Forall (λ v, 0 ≤ v.(stake)) vs) (Hsum : sum_list (stake <$> vs) ≤ U128_MAX)
    (Hrun : hs_trace (new vs kp addr) log s)
    (Hqc : s.(qcs) !! (sl, p, h) = Some qc) (Hqc' : s.(qcs) !! (sl', p, h') = Some qc') :
  let both := filter (.∈ qc.(a_signers)) qc'.(a_signers) in
  Forall (λ a, signed_for log a p h ∧ signed_for log a p h') both ∧
  0 < Quorum.stake_in stake s.(validators) both ∧ s.(total_stake) - 2 ≤ 3 * Quorum.stake_in stake s.(validators) both.
Proof.
  pose proof (hs_trace_inv vs kp addr log s Hvs Hsum Hrun) as Hi.
  destruct Hi as [[Hn Ht] _ Hq]. assert (H0t : 0 ≤ s.(total_stake)).
  { etransitivity; [|exact (proj1 Ht)]. by apply map_sum_nonneg. }
  destruct (certified_stake _ _ _ _ _ _ Hn H0t (Hq _ _ _ _ Hqc)) as (N1 & F1 & P1 & Q1).
  destruct (certified_stake _ _ _ _ _ _ Hn H0t (Hq _ _ _ _ Hqc')) as (N2 & F2 & P2 & Q2).
  pose proof (Quorum.overlap_stake _ _ _ _ Hn N1 N2) as Ho. destruct (Quorum.quorum_overlap _ _ _ P1 P2 H0t Q1 Q2) as [O1 O2].
  cbv zeta. split_and!; [|lia|lia]. apply Forall_forall. intros a [Ha Ha']%list_elem_of_filter.
  rewrite Forall_forall in F1, F2. auto.
Qed.

(** ** The engine's own votes *)

Definition emitted {A} (r : HotStuffConsensus * result error A) (f : A → list ConsensusAction) : list ConsensusAction :=
  match r.2 with Ok a => f a | Err _ => [] end.

(** A run, with the actions handed to the node. *)
Inductive hs_run : HotStuffConsensus → list ConsensusAction → HotStuffConsensus → Prop :=
| run_start s : hs_run s [] s
| run_propose s acts s' b : hs_run s acts s' → hs_run s (acts ++ emitted (on_propose b s') id) (on_propose b s').1
| run_vote s acts s' v : hs_run s acts s' → hs_run s (acts ++ emitted (on_vote v s') snd) (on_vote v s').1
| run_other s acts s' s'' : hs_run s acts s' → hs_step s' s'' → hs_run s acts s''.

Definition prevote_slot (a : ConsensusAction) : option Z :=
  match a with BroadcastVote v => if bool_decide (v.(v_phase) = Prevote) then Some v.(v_slot) else None | _ => None end.
Definition prevote_slots (acts : list ConsensusAction) : list Z := omap prevote_slot acts.

(** Slots and phases only move forward: a new proposal phase is a new slot. *)
Definition forward (s s' : HotStuffConsensus) : Prop :=
  s.(current_slot) ≤ s'.(current_slot) ∧
  (s'.(current_slot) = s.(current_slot) → s'.(current_slot) < U64_MAX → s'.(current_phase) = Propose → s.(current_phase) = Propose).

#[local] Instance forward_preorder : PreOrder forward.
Proof.
  split; [by intros s|]. intros x y z [L1 P1] [L2 P2]. split; [lia|]. intros Hz Hm Hp.
  apply P1; [lia|lia|]. apply P2; [lia|done|done].
Qed.

Lemma forward_same s s' : s'.(current_slot) = s.(current_slot) → s'.(current_phase) = s.(current_phase) → forward s s'.
Proof. intros E1 E2. split; [lia|]. by rewrite E2. Qed.

Lemma next_slot_forward s s' :
  s.(current_slot) ≤ U64_MAX → s'.(current_slot) = saturating_add U64_MAX s.(current_slot) 1 → forward s s'.
Proof. intros Hs E1. split; ulia. Qed.

(** The same for engines whose slot fits 64 bits, which it keeps doing. *)
Definition moves (s s' : HotStuffConsensus) : Prop :=
  s.(current_slot) ≤ U64_MAX → forward s s' ∧ s'.(current_slot) ≤ U64_MAX.

#[local] Instance moves_preorder : PreOrder moves.
Proof.
  split; [by intros s|]. intros x y z Hxy Hyz Hx. destruct (Hxy Hx) as [F1 S1]. destruct (Hyz S1) as [F2 S2].
  split; [by etransitivity|done].
Qed.

Lemma moves_same s s' : s'.(current_slot) = s.(current_slot) → s'.(current_phase) = s.(current_phase) → moves s s'.
Proof. intros E1 E2 Hs. split; [by apply forward_same|lia]. Qed.

Lemma advance_phase_moves s : moves s (advance_phase s).
Proof.
  intros Hs. unfold advance_phase. destruct (current_phase s); try by (split; [split; [cbn; lia|done]|done]).
  split; [by apply next_slot_forward|cbn; ulia].
Qed.

Lemma track_moves v s : moves s (track v s).
Proof. unfold track. apply moves_same; by repeat case_bool_decide. Qed.

Lemma finalize_parent_moves v s : moves s (finalize_parent v s).1.
Proof. unfold finalize_parent, prune_finalized_state. apply moves_same; by repeat case_match. Qed.

Lemma raise_committed_moves slot s : moves s (raise_committed slot s).
Proof. unfold raise_committed. apply moves_same; by case_match. Qed.

Lemma on_quorum_moves v s : moves s (on_quorum v s).1.
Proof.
  unfold on_quorum. destruct v.(v_phase); unfold_M; try reflexivity.
  - destruct (create_vote _ _ _ _); cbn; (etransitivity; [|apply advance_phase_moves]); by apply moves_same.
  - pose proof (finalize_parent_moves v s) as Hf. destruct (finalize_parent v s) as [s1 acts]. cbn in *.
    etransitivity; [exact Hf|]. etransitivity; [apply raise_committed_moves|apply advance_phase_moves].
Qed.

Lemma on_vote_moves v s : moves s (on_vote v s).1.
Proof.
  unfold on_vote. unfold_M. destruct (verify_vote v s); [|reflexivity]. etransitivity; [apply (track_moves v)|].
  destruct (negb _); [reflexivity|]. destruct (existsb _ _); [reflexivity|]. destruct (negb _); [by apply moves_same|].
  destruct (aggregate_votes _ _) as [qc|e]; [|by apply moves_same]. set (s3 := set_qcs _ _).
  transitivity s3; [by apply moves_same|]. pose proof (on_quorum_moves v s3) as Hq. by destruct (on_quorum v s3) as [s4 [acts|e]].
Qed.

Lemma on_propose_moves b s : moves s (on_propose b s).1.
Proof.
  unfold on_propose. unfold_M. destruct (negb _); [reflexivity|]. set (s1 := record_block _ _ _ s).
  transitivity s1; [by apply moves_same|]. destruct (negb _); [reflexivity|]. destruct (create_vote _ _ _ _); apply advance_phase_moves.
Qed.

Lemma hs_step_moves s s' : hs_step s s' → moves s s'.
Proof.
  intros [d [a pk pop| |b|v|tv|tc|h parent slot]].
  - unfold register_bls_pubkey. unfold_M. apply moves_same; by repeat (case_match; simplify_eq/=).
  - apply advance_phase_moves.
  - apply on_propose_moves.
  - apply on_vote_moves.
  - unfold on_timeout_vote. unfold_M. apply moves_same; by repeat (case_match; simplify_eq/=).
  - unfold on_timeout_certificate. unfold_M. repeat (case_match; simplify_eq/=; try reflexivity).
    all: intros Hs; (split; [by apply next_slot_forward|cbn; ulia]).
  - by apply moves_same.
Qed.

(** A proposal makes at most one prevote, in the proposal phase of its slot. *)
Lemma on_propose_prevotes b s :
  prevote_slots (emitted (on_propose b s) id) = [] ∨
  prevote_slots (emitted (on_propose b s) id) = [s.(current_slot)] ∧ s.(current_phase) = Propose ∧
  (on_propose b s).1.(current_slot) = s.(current_slot) ∧ (on_propose b s).1.(current_phase) ≠ Propose.
Proof.
  unfold on_propose, emitted. unfold_M. destruct (bool_decide _) eqn:Hp; [|by left]. apply bool_decide_eq_true in Hp. cbn [negb].
  set (s1 := record_block _ _ _ s). assert (Hp1 : s1.(current_phase) = Propose) by done.
  destruct (negb _); [by left|]. unfold advance_phase. rewrite Hp1. unfold create_vote.
  cbn [my_keypair my_address set_current_phase]. unfold_M. repeat (case_match; simplify_eq/=); first [by left | by right].
Qed.

Lemma create_vote_phase h parent p s v : create_vote h parent p s = Ok (Some v) → v.(v_phase) = p.
Proof. unfold create_vote. intros Hc. destruct (my_keypair s), (my_address s); try done. res_inv. reflexivity. Qed.

Lemma on_quorum_prevotes v s : prevote_slots (emitted (on_quorum v s) id) = [].
Proof.
  unfold on_quorum, emitted. destruct v.(v_phase); unfold_M; try done.
  - destruct (create_vote _ _ _ _) as [[mine|]|e] eqn:Hc; try done. apply create_vote_phase in Hc. cbn. by rewrite Hc.
  - unfold finalize_parent. destruct (block_slots s !! _); [|done]. by destruct (_ && _).
Qed.

Lemma on_vote_prevotes v s : prevote_slots (emitted (on_vote v s) snd) = [].
Proof.
  unfold on_vote, emitted. unfold_M. destruct (verify_vote v s); [|done]. destruct (negb _); [done|]. destruct (existsb _ _); [done|].
  destruct (negb _); [done|]. destruct (aggregate_votes _ _) as [qc|e]; [|done]. set (s3 := set_qcs _ _).
  pose proof (on_quorum_prevotes v s3) as Hq. unfold emitted in Hq. by destruct (on_quorum v s3) as [s4 [acts|e]].
Qed.

Definition prevoted (acts : list ConsensusAction) (s : HotStuffConsensus) : Prop :=
  StronglySorted Z.lt (prevote_slots acts) ∧
  Forall (λ x, x ≤ s.(current_slot) ∧ (x = s.(current_slot) → s.(current_phase) ≠ Propose)) (prevote_slots acts).

Lemma prevoted_forward acts s s' : s'.(current_slot) < U64_MAX → forward s s' → prevoted acts s → prevoted acts s'.
Proof.
  intros Hm [Hle Hp] [Hs Hf]. split; [done|]. eapply Forall_impl; [exact Hf|]. cbn. intros x [Hx Hx']. split; [lia|].
  intros -> Hpr. apply Hx'; [lia|]. apply Hp; [lia|done|done].
Qed.

Lemma prevote_slots_app acts acts' : prevote_slots (acts ++ acts') = prevote_slots acts ++ prevote_slots acts'.
Proof. apply omap_app. Qed.

Lemma run_prevoted s acts s' :
  s.(current_slot) ≤ U64_MAX → hs_run s acts s' → s'.(current_slot) ≤ U64_MAX ∧ (s'.(current_slot) < U64_MAX → prevoted acts s').
Proof.
  intros H0'. induction 1 as [s|s acts s' b Hr IH|s acts s' v Hr IH|s acts s' s'' Hr IH Hst].
  - split; [done|]. intros _. split; constructor.
  - destruct (IH H0') as [Hle Hp]. destruct (on_propose_moves b s' Hle) as [Hf Hle']. split; [done|]. intros Hm.
    specialize (Hp ltac:(destruct Hf; lia)). pose proof (prevoted_forward _ _ _ Hm Hf Hp) as Hp'.
    unfold prevoted in *. rewrite prevote_slots_app.
    destruct (on_propose_prevotes b s') as [->|(-> & Hph & Hsl & Hph')]; [by rewrite app_nil_r|]. destruct Hp' as [Hs' Hf'].
    split; [|apply Forall_app; split; [done|]; constructor; [|done]; by rewrite Hsl].
    apply StronglySorted_app_2; [|done|by repeat constructor]. intros x y Hx ->%list_elem_of_singleton.
    destruct Hp as [_ Hf0]. rewrite Forall_forall in Hf0. destruct (Hf0 x Hx) as [Hx1 Hx2].
    destruct (decide (x = s'.(current_slot))); [by exfalso; apply Hx2|lia].
  - destruct (IH H0') as [Hle Hp]. destruct (on_vote_moves v s' Hle) as [Hf Hle']. split; [done|]. intros Hm.
    unfold prevoted. rewrite prevote_slots_app, on_vote_prevotes, app_nil_r. apply (prevoted_forward _ s' _ Hm Hf), Hp. destruct Hf; lia.
  - destruct (IH H0') as [Hle Hp]. destruct (hs_step_moves _ _ Hst Hle) as [Hf Hle']. split; [done|]. intros Hm.
    apply (prevoted_forward _ s' _ Hm Hf), Hp. destruct Hf; lia.
Qed.

(** An engine prevotes at most once per slot, whatever proposals, votes and
    certificates it receives: the slots of its prevotes strictly increase (the
    slot counter saturates at the end of 64 bits). *)
Theorem one_prevote_per_slot vs kp addr acts s
    (Hrun : hs_run (new vs kp addr) acts s) (Hslot : s.(current_slot) < U64_MAX) :
  StronglySorted Z.lt (prevote_slots acts).
Proof.
  assert (H0' : (new vs kp addr).(current_slot) ≤ U64_MAX) by (cbn [current_slot new]; ulia).
  destruct (run_prevoted _ _ _ H0' Hrun) as [_ Hp]. by apply Hp.
Qed.

(** ** Finality *)

(** Reports and the final slot. *)
Definition later (s s' : HotStuffConsensus) : Prop :=
  s'.(last_reported_finalized) = s.(last_reported_finalized) ∧ s.(hs_finalized_slot) ≤ s'.(hs_finalized_slot).

#[local] Instance later_preorder : PreOrder later.
Proof. split; [by intros s|]. intros x y z [E1 L1] [E2 L2]. split; [congruence|lia]. Qed.

Lemma later_same s s' :
  s'.(last_reported_finalized) = s.(last_reported_finalized) → s'.(hs_finalized_slot) = s.(hs_finalized_slot) → later s s'.
Proof. intros E1 E2. split; [done|lia]. Qed.

Lemma advance_phase_later s : later s (advance_phase s).
Proof. unfold advance_phase. by case_match. Qed.

Lemma finalize_parent_later v s : later s (finalize_parent v s).1.
Proof.
  unfold finalize_parent, prune_finalized_state. destruct (_ !! _) as [slot|]; [|reflexivity].
  destruct (_ && _) eqn:Hb; [|reflexivity]. apply andb_true_iff in Hb as [_ Hlt]. split; cbn; case_match; cbn; clean_ints; lia || done.
Qed.

Lemma on_vote_later v s : later s (on_vote v s).1.
Proof.
  unfold on_vote. unfold_M. destruct (verify_vote v s); [|reflexivity].
  transitivity (track v s); [unfold track; apply later_same; by repeat case_bool_decide|].
  destruct (negb _); [reflexivity|]. destruct (existsb _ _); [reflexivity|]. destruct (negb _); [by apply later_same|].
  destruct (aggregate_votes _ _) as [qc|e]; [|by apply later_same]. set (s3 := set_qcs _ _). transitivity s3; [by apply later_same|].
  assert (Hq : later s3 (on_quorum v s3).1).
  { unfold on_quorum. destruct v.(v_phase); unfold_M; try reflexivity.
    - destruct (create_vote _ _ _ _); cbn; (etransitivity; [|apply advance_phase_later]); by apply later_same.
    - pose proof (finalize_parent_later v s3) as Hf. destruct (finalize_parent v s3) as [s4 acts]. cbn in *.
      etransitivity; [exact Hf|]. etransitivity; [|apply advance_phase_later]. unfold raise_committed. by case_match. }
  by destruct (on_quorum v s3) as [s4 [acts|e]].
Qed.

Lemma hs_step_later s s' : hs_step s s' → later s s'.
Proof.
  intros [d [a pk pop| |b|v|tv|tc|h parent slot]].
  - unfold register_bls_pubkey. unfold_M. apply later_same; by repeat (case_match; simplify_eq/=).
  - apply advance_phase_later.
  - unfold on_propose. unfold_M. destruct (negb _); [reflexivity|]. set (s1 := record_block _ _ _ s).
    transitivity s1; [by apply later_same|]. destruct (negb _); [reflexivity|]. destruct (create_vote _ _ _ _); apply advance_phase_later.
  - apply on_vote_later.
  - unfold on_timeout_vote. unfold_M. apply later_same; by repeat (case_match; simplify_eq/=).
  - unfold on_timeout_certificate. unfold_M. apply later_same; by repeat (case_match; simplify_eq/=).
  - by apply later_same.
Qed.

#[global] Program Instance hotstuff_contract : FinalityContract HotStuffConsensus hs_step := {
  watermark := last_reported_finalized
}.
Next Obligation.
  cbn. unfold hotstuff_check_finality. intros slot s s' Hc. case_match; simplify_eq. cbn. clean_ints. lia.
Qed.
Next Obligation. cbn. unfold hotstuff_check_finality. intros slot s s' Hc. by case_match; simplify_eq. Qed.
Next Obligation. intros s s' Hs. destruct (hs_step_later s s' Hs) as [-> _]. lia. Qed.

Lemma track_parent v s :
  default v.(v_parent_hash) ((track v s).(block_parents) !! v.(v_block_hash)) = default v.(v_parent_hash) (s.(block_parents) !! v.(v_block_hash)).
Proof. unfold track. destruct (s.(block_parents) !! v.(v_block_hash)) eqn:E1; repeat case_bool_decide; cbn; by rewrite ?E1, ?lookup_insert_eq; naive_solver. Qed.

Lemma advance_phase_finalized s : (advance_phase s).(hs_finalized_slot) = s.(hs_finalized_slot).
Proof. unfold advance_phase. by case_match. Qed.
Lemma raise_committed_finalized slot s : (raise_committed slot s).(hs_finalized_slot) = s.(hs_finalized_slot).
Proof. unfold raise_committed. by case_match. Qed.
Lemma prune_finalized s : (prune_finalized_state s).(hs_finalized_slot) = s.(hs_finalized_slot).
Proof. unfold prune_finalized_state. by case_match. Qed.

Lemma on_vote_certifies log v s s' qc acts :
  delivery s v ∈ log → hs_inv log s → on_vote v s = (s', Ok (Some qc, acts)) →
  certified log s.(validators) s.(total_stake) v.(v_phase) v.(v_block_hash) qc ∧
  ∃ s3, on_quorum v s3 = (s', Ok acts) ∧ s3.(block_parents) = (track v s).(block_parents) ∧
        s3.(hs_finalized_slot) = s.(hs_finalized_slot) ∧ s3.(qcs) = <[(v.(v_slot), v.(v_phase), v.(v_block_hash)) := qc]> s.(qcs).
Proof.
  intros Hin Hi Hv. revert Hv.
  unfold on_vote. unfold_M. destruct (verify_vote v s) as [[]|e] eqn:Hver; [|done].
  destruct (track_forgets v s) as (E1 & E2 & _). set (s1 := track v s) in *.
  assert (E3 : s1.(qcs) = s.(qcs) ∧ s1.(hs_finalized_slot) = s.(hs_finalized_slot) ∧ s1.(votes) = s.(votes))
    by (subst s1; unfold track; by repeat case_bool_decide). destruct E3 as (E3 & E4 & E5).
  destruct (negb (_ =? _)) eqn:Hst; [done|]. apply negb_false_iff, Z.eqb_eq in Hst.
  destruct (existsb _ _) eqn:Hd; [done|]. set (l := default [] _ ++ [v]). set (s2 := set_votes _ s1).
  destruct (negb _) eqn:Hq; [done|]. apply negb_false_iff in Hq.
  destruct (aggregate_votes l s2) as [qc'|e] eqn:Ha; [|done]. set (s3 := set_qcs _ s2).
  destruct (on_quorum v s3) as [s4 [acts'|e]] eqn:Hon; [|done]. intros [= <- <- <-]. split.
  - exists l. rewrite <- E1, <- E2. split_and!; [|by eapply aggregate_signers|exact Hq].
    assert (Hinfo : is_Some (s1.(validators) !! v.(v_validator))) by (unfold verify_vote in Hver; res_inv; rewrite E1; by eexists).
    destruct Hinfo as [info Hinfo]. rewrite Hinfo in Hst. eapply ballot_snoc; [|exact Hd|by apply (verify_vote_signed _ v s)|done|done].
    rewrite E1, E5. destruct (s.(votes) !! _) eqn:El; cbn; [by apply Hi|]. split; [apply NoDup_nil_2|constructor].
  - exists s3. split_and!; [done..|]. cbn. by rewrite E3.
Qed.

(** The two-chain rule: a vote finalizes a block only if it is the recorded
    parent of the block voted for, has a prevote certificate, and the vote
    completes the precommit certificate of its child; the final slot then rises
    to it. Both certificates are those of two thirds of the stake. *)
Theorem finalization_two_chain vs kp addr log s v s' r acts slot h
    (Hvs : Forall (λ v, 0 ≤ v.(stake)) vs) (Hsum : sum_list (stake <$> vs) ≤ U128_MAX)
    (Hrun : hs_trace (new vs kp addr) log s) (Hv : on_vote v s = (s', Ok (r, acts))) (Hf : Finalized slot h ∈ acts) :
  h = default v.(v_parent_hash) (s.(block_parents) !! v.(v_block_hash)) ∧
  s.(hs_finalized_slot) < slot ∧ s'.(hs_finalized_slot) = slot ∧
  (∃ qc, s.(qcs) !! (slot, Prevote, h) = Some qc ∧ certified log s.(validators) s.(total_stake) Prevote h qc) ∧
  ∃ qc, r = Some qc ∧ certified (log ++ [delivery s v]) s.(validators) s.(total_stake) Precommit v.(v_block_hash) qc.
Proof.
  pose proof (hs_trace_inv vs kp addr log s Hvs Hsum Hrun) as Hi.
  destruct r as [qc|]; [|].
  2:{ exfalso. revert Hv Hf. unfold on_vote. unfold_M. repeat (destruct (verify_vote v s); [|done]). destruct (negb _); [done|].
      destruct (existsb _ _); [done|]. destruct (negb _); [intros [= <- <-]; by intros ?%elem_of_nil|].
      destruct (aggregate_votes _ _); [|done]. by destruct (on_quorum v _) as [? [|]]. }
  destruct (on_vote_certifies (log ++ [delivery s v]) v s s' qc acts) as (Hc & s3 & Hq & Hp & Hfin & Hqcs);
    [set_solver|by eapply hs_inv_mono; [|exact Hi]; set_solver|exact Hv|].
  unfold on_quorum in Hq. destruct v.(v_phase) eqn:Hph.
  - unfold_M. simplify_eq. by apply elem_of_nil in Hf.
  - unfold_M. exfalso. repeat (case_match; simplify_eq/=). all: unfold broadcast_vote in Hf; case_match; 
      [apply list_elem_of_singleton in Hf; done|by apply elem_of_nil in Hf].
  - unfold_M. destruct (finalize_parent v s3) as [s4 acts'] eqn:Hfp. injection Hq as Hs' Ha. subst acts'.
    unfold finalize_parent in Hfp. rewrite Hp, track_parent in Hfp. set (parent := default _ _) in *.
    destruct (block_slots s3 !! parent) as [sl|]; [|simplify_eq; by apply elem_of_nil in Hf].
    destruct (_ && _) eqn:Hb; [|simplify_eq; by apply elem_of_nil in Hf]. injection Hfp as <- <-.
    apply list_elem_of_singleton in Hf as [= -> ->]. apply andb_true_iff in Hb as [Hb1 Hb2].
    apply bool_decide_eq_true in Hb1 as [qc' Hqc']. clean_ints.
    rewrite Hqcs, lookup_insert_ne in Hqc' by done. split_and!; [done|lia| |exists qc'; split; [done|by eapply Hi]|by exists qc].
    rewrite <- Hs'. by rewrite advance_phase_finalized, raise_committed_finalized, prune_finalized.
  - unfold_M. simplify_eq. by apply elem_of_nil in Hf.
Qed.
End engine.
End HotStuff.

(** ** Concrete runs

    One validator with all the stake. *)
From S2P Require Import Toy.
From S2P Require Import ToyBlock.

Module HotStuffDemo.
Import HotStuff.

Definition validator : ValidatorInfo := mkValidatorInfo 1 10 0 true.
Definition me : Address := to_address 1.
Definition kp : Bls.BlsKeypair := Bls.mkBlsKeypair true true.
Definition engine0 : HotStuffConsensus := new [validator] (Some kp) (Some me).
Definition engine1 : HotStuffConsensus := (register_bls_pubkey me (Bls.public_key kp) (Bls.proof_of_possession kp) engine0).1.

Definition vote (h parent : H256) (slot : Z) (p : Phase) : HotStuffVote :=
  mkVote slot h parent p me 1 10 (Bls.sign kp (vote_message h parent slot p)).

Lemma stakes : Forall (λ v, 0 ≤ v.(stake)) [validator] ∧ sum_list (stake <$> [validator]) ≤ U128_MAX.
Proof. split; [by repeat constructor|by vm_compute]. Qed.

Definition engine2 : HotStuffConsensus := (on_vote (vote 5 4 1 Prevote) engine1).1.
Definition engine3 : HotStuffConsensus := (on_vote (vote 7 4 1 Prevote) engine2).1.

(** The two votes, with the key that was registered when they came. *)
Definition delivered2 : list (HotStuffVote * option (list Z)) := [(vote 5 4 1 Prevote, Some (Bls.public_key kp))].
Definition delivered3 : list (HotStuffVote * option (list Z)) := delivered2 ++ [(vote 7 4 1 Prevote, Some (Bls.public_key kp))].

Lemma run2 : hs_trace engine0 delivered2 engine2.
Proof.
  apply (trace_call _ [] engine1 _ _); [|exact (step_vote engine1 (vote 5 4 1 Prevote))].
  exact (trace_call _ [] engine0 [] _ (trace_start _) (step_register engine0 me _ _)).
Qed.
Lemma run3 : hs_trace engine0 delivered3 engine3.
Proof. exact (trace_call _ _ _ _ _ run2 (step_vote engine2 (vote 7 4 1 Prevote))). Qed.

(** The validator signs two blocks of one slot and phase: both are certified. *)
Lemma certificates_accountable_witness :
  ∃ qc qc', engine3.(qcs) !! (1, Prevote, 5%N) = Some qc ∧ engine3.(qcs) !! (1, Prevote, 7%N) = Some qc' ∧
    me ∈ filter (.∈ qc.(a_signers)) qc'.(a_signers) ∧
    Forall (λ a, signed_for delivered3 a Prevote 5 ∧ signed_for delivered3 a Prevote 7)
      (filter (.∈ qc.(a_signers)) qc'.(a_signers)).
Proof.
  eexists _, _. split; [by vm_compute|]. split; [by vm_compute|]. split; [vm_compute; left|].
  eapply (certificates_accountable [validator] (Some kp) (Some me) delivered3 engine3 Prevote 1 5 _ 1 7 _ (proj1 stakes) (proj2 stakes) run3);
    by vm_compute.
Defined.

Lemma finalization_two_chain_witness :
  ∃ s' r acts, on_vote (vote 6 5 2 Precommit) engine2 = (s', Ok (r, acts)) ∧ Finalized 1 5 ∈ acts ∧ s'.(hs_finalized_slot) = 1.
Proof.
  eexists _, _, _. split; [by vm_compute|]. split; [left|].
  eapply (finalization_two_chain [validator] (Some kp) (Some me) delivered2 engine2 (vote 6 5 2 Precommit) _ _ _ 1 5 (proj1 stakes) (proj2 stakes) run2);
    [by vm_compute|left].
Defined.

(** Two proposals, with the phases of a slot between them. *)
Definition proposal (slot : Z) : Block := block_new 0 slot 0 me (mkVrfProof [] []) [].
Definition proposed : HotStuffConsensus := (on_propose (proposal 0) engine0).1.
Definition next_slot : HotStuffConsensus := advance_phase (advance_phase (advance_phase proposed)).

Lemma one_prevote_per_slot_witness :
  let acts := emitted (on_propose (proposal 0) engine0) id ++ emitted (on_propose (proposal 1) next_slot) id in
  prevote_slots acts = [0; 1] ∧ StronglySorted Z.lt (prevote_slots acts).
Proof.
  split; [by vm_compute|].
  apply (one_prevote_per_slot [validator] (Some kp) (Some me) _ (on_propose (proposal 1) next_slot).1); [|by vm_compute].
  apply run_propose. do 3 (eapply run_other; [|eexists; apply step_advance]).
  exact (run_propose engine0 [] engine0 (proposal 0) (run_start engine0)).
Defined.

(** Two validators, the first with more than two thirds of the stake. *)
Definition other : Address := to_address 2.
Definition kp2 : Bls.BlsKeypair := Bls.mkBlsKeypair false false.
Definition register_both (k k' : Bls.BlsKeypair) (s : HotStuffConsensus) : HotStuffConsensus :=
  (register_bls_pubkey other (Bls.public_key k') (Bls.proof_of_possession k')
    (register_bls_pubkey me (Bls.public_key k) (Bls.proof_of_possession k) s).1).1.
Definition pair0 : HotStuffConsensus :=
  register_both kp kp2 (new [validator; mkValidatorInfo 2 1 0 true] (Some kp) (Some me)).
Definition vote2 (h parent : H256) (slot : Z) (p : Phase) : HotStuffVote :=
  mkVote slot h parent p other 2 1 (Bls.sign kp2 (vote_message h parent slot p)).

(** A vote that arrives after the quorum completes the certificate again, and
    moves the engine on by another phase: it is in the commit phase before any
    precommit was counted. *)
Lemma late_vote_advances_phase :
  let s0 := set_current_phase Prevote pair0 in
  let s1 := (on_vote (vote 5 4 1 Prevote) s0).1 in
  let s2 := (on_vote (vote2 5 4 1 Prevote) s1).1 in
  s1.(current_phase) = Precommit ∧ s2.(current_phase) = Commit ∧ s2.(votes) !! (Precommit, 5%N) = None.
Proof. split_and!; by vm_compute. Qed.

(** Two validators of equal stake with different certificates time out: the
    certificate made of their votes carries one message for signatures of two,
    and is refused, by the engine that made it as well. *)
Definition even0 : HotStuffConsensus :=
  register_both kp kp (new [validator; mkValidatorInfo 2 10 0 true] (Some kp) (Some me)).
Definition timeout (who : Address) (pk : PublicKey) (slot : Z) (h : H256) : TimeoutVote :=
  mkTimeoutVote 3 who pk 10 slot h (Bls.sign kp (timeout_message 3 slot h)).

Lemma mixed_timeout_votes_refused :
  let s1 := (on_timeout_vote (timeout me 1 1 4) even0).1 in
  match on_timeout_vote (timeout other 2 0 0) s1 with
  | (s2, Ok (Some tc)) =>
      (on_timeout_certificate tc s2).2 = Err (Fmt "invalid aggregated BLS signature on timeout certificate for round {}" [3])
  | _ => False
  end.
Proof. by vm_compute. Qed.
End HotStuffDemo.
