(* ===== verification/Scheduler.v ===== *)
(** * Parallel transaction scheduler

    [crates/runtime/src/scheduler.rs]: the greedy partition of transactions
    into batches without conflicts, and the executors that run the batches. The
    executor is the closure the caller passes; the order in which [rayon] runs
    the transactions of one batch is not specified, so [execute_parallel] is a
    relation. Each call of the executor is one step on the shared state. *)

From S2P Require Import Prelude.
From S2P Require Import Transaction.

Module Scheduler.

Record ParallelScheduler := mkScheduler { max_batch_size : Z }.

Definition new : ParallelScheduler := mkScheduler 1000.

(** An entry of [remaining] before [idx] that is not used and satisfies [p]. *)
Definition earlier_unused (p : Transaction → bool) (idx : nat) (remaining : list Transaction)
    (used_indices : list nat) : bool :=
  existsb (λ '(j, other),
    if (idx <=? j)%nat || bool_decide (j ∈ used_indices) then false else p other)
    (imap pair remaining).

Definition has_pending_dependencies (tx : Transaction) (idx : nat) (remaining : list Transaction)
    (used_indices : list nat) : bool :=
  if existsb (λ addr, earlier_unused (λ other, bool_decide (addr ∈ other.(tx_writes)))
                        idx remaining used_indices) tx.(tx_reads) then true
  else existsb (λ addr, earlier_unused (λ other, bool_decide (addr ∈ other.(tx_reads)))
                          idx remaining used_indices) tx.(tx_writes).

(** The loop over the remaining transactions; [rest] are those from index [i]
    on. [used_indices] is only searched. *)
Fixpoint fill_batch (p : ParallelScheduler) (remaining : list Transaction) (i : nat)
    (rest current_batch : list Transaction) (used_indices : list nat) {struct rest} :
    list Transaction * list nat :=
  match rest with
  | [] => (current_batch, used_indices)
  | tx :: rest =>
      if bool_decide (i ∈ used_indices) then fill_batch p remaining (S i) rest current_batch used_indices else
      let conflicts := existsb (conflicts_with tx) current_batch in
      if negb conflicts && negb (has_pending_dependencies tx i remaining used_indices) then
        let current_batch := current_batch ++ [tx] in
        let used_indices := i :: used_indices in
        if p.(max_batch_size) <=? Z.of_nat (length current_batch) then (current_batch, used_indices)
        else fill_batch p remaining (S i) rest current_batch used_indices
      else fill_batch p remaining (S i) rest current_batch used_indices
  end.

Definition drop_used (remaining : list Transaction) (used_indices : list nat) : list Transaction :=
  snd <$> filter (λ ix, ix.1 ∉ used_indices) (imap pair remaining).

(** The outer loop; [None] when the fuel is too small. *)
Fixpoint schedule_loop (p : ParallelScheduler) (fuel : nat) (remaining : list Transaction) :
    option (list (list Transaction)) :=
  match remaining, fuel with
  | [], _ => Some []
  | _, O => None
  | _, S fuel =>
      let '(current_batch, used_indices) := fill_batch p remaining 0 remaining [] [] in
      let remaining := drop_used remaining used_indices in
      if bool_decide (current_batch = []) then Some []
      else (λ bs, current_batch :: bs) <$> schedule_loop p fuel remaining
  end.

(** Every round schedules a transaction, so their number is enough fuel. *)
Definition schedule (p : ParallelScheduler) (transactions : list Transaction) :
    option (list (list Transaction)) :=
  if bool_decide (transactions = []) then Some []
  else schedule_loop p (length transactions) transactions.

Section executors.
Context {S E : Type} (executor : Transaction → M S E unit).

Fixpoint execute_batch (batch : list Transaction) : M S E unit :=
  match batch with
  | [] => mret tt
  | tx :: batch => executor tx;; execute_batch batch
  end.

Fixpoint execute_sequential (batches : list (list Transaction)) : M S E unit :=
  match batches with
  | [] => mret tt
  | batch :: batches => execute_batch batch;; execute_sequential batches
  end.

(** Calls still running when one has failed: some of the others, in some
    order, with the errors they return. *)
Inductive stragglers : list Transaction → S → S → list E → Prop :=
| stragglers_end l s : stragglers l s s []
| stragglers_ok l t rest s s1 s' es :
    l ≡ₚ t :: rest → executor t s = (s1, Ok tt) → stragglers rest s1 s' es → stragglers l s s' es
| stragglers_err l t rest s s1 s' e es :
    l ≡ₚ t :: rest → executor t s = (s1, Err e) → stragglers rest s1 s' es → stragglers l s s' (e :: es).

(** [batch.par_iter().try_for_each(&executor)]: the calls in some order; after
    a failure one of the errors is returned and not all calls are made. *)
Inductive par_try_for_each : list Transaction → S → S → result E unit → Prop :=
| par_end s : par_try_for_each [] s s (Ok tt)
| par_ok l t rest s s1 s' r :
    l ≡ₚ t :: rest → executor t s = (s1, Ok tt) → par_try_for_each rest s1 s' r →
    par_try_for_each l s s' r
| par_err l t rest s s1 s' e e' es :
    l ≡ₚ t :: rest → executor t s = (s1, Err e) → stragglers rest s1 s' es → e' ∈ e :: es →
    par_try_for_each l s s' (Err e').

Inductive execute_parallel : list (list Transaction) → S → S → result E unit → Prop :=
| parallel_end s : execute_parallel [] s s (Ok tt)
| parallel_single t bs s s1 s' r :
    executor t s = (s1, Ok tt) → execute_parallel bs s1 s' r → execute_parallel ([t] :: bs) s s' r
| parallel_single_err t bs s s1 e :
    executor t s = (s1, Err e) → execute_parallel ([t] :: bs) s s1 (Err e)
| parallel_batch b bs s s1 s' r :
    length b ≠ 1%nat → par_try_for_each b s s1 (Ok tt) → execute_parallel bs s1 s' r →
    execute_parallel (b :: bs) s s' r
| parallel_batch_err b bs s s1 e :
    length b ≠ 1%nat → par_try_for_each b s s1 (Err e) → execute_parallel (b :: bs) s s1 (Err e).
End executors.

(** ** Rounds without indices *)

(** [y] reads what [x] writes, or writes what [x] reads. *)
Definition rw_depends (x y : Transaction) : bool :=
  overlap y.(tx_reads) x.(tx_writes) || overlap y.(tx_writes) x.(tx_reads).

Lemma rw_depends_comm x y : rw_depends x y = rw_depends y x.
Proof. unfold rw_depends. rewrite (overlap_comm x.(tx_reads)), (overlap_comm x.(tx_writes)). apply orb_comm. Qed.

Lemma conflicts_rw x y : conflicts_with x y = false → rw_depends x y = false.
Proof.
  unfold conflicts_with, rw_depends. repeat (case_match; try done). intros _.
  rewrite (overlap_comm y.(tx_reads)). by apply orb_false_iff.
Qed.

Definition fits (batch skipped : list Transaction) (x : Transaction) : bool :=
  negb (existsb (conflicts_with x) batch) && negb (existsb (λ y, rw_depends y x) skipped).

(** One round, with the transactions passed over in place of the indices. *)
Fixpoint round (p : ParallelScheduler) (batch skipped rest : list Transaction) :
    list Transaction * list Transaction :=
  match rest with
  | [] => (batch, skipped)
  | x :: rest =>
      if fits batch skipped x then
        if p.(max_batch_size) <=? Z.of_nat (length (batch ++ [x])) then (batch ++ [x], skipped ++ rest)
        else round p (batch ++ [x]) skipped rest
      else round p batch (skipped ++ [x]) rest
  end.

Lemma elem_imap_pair {A} (l : list A) j x : (j, x) ∈ imap pair l ↔ l !! j = Some x.
Proof.
  rewrite elem_of_lookup_imap. split.
  - by intros (i & y & [= -> ->] & ?).
  - intros. by exists j, x.
Qed.

Lemma elem_drop_used l used x :
  x ∈ drop_used l used ↔ ∃ j, l !! j = Some x ∧ j ∉ used.
Proof.
  unfold drop_used. rewrite list_elem_of_fmap. split.
  - intros ([j y] & -> & [Hj Hx%elem_imap_pair]%list_elem_of_filter). by exists j.
  - intros (j & Hx & Hj). exists (j, x). split; [done|]. apply list_elem_of_filter. by rewrite elem_imap_pair.
Qed.

Lemma existsb_elem {A} (p : A → bool) l : existsb p l = true ↔ ∃ x, x ∈ l ∧ p x = true.
Proof. rewrite existsb_exists. setoid_rewrite <- list_elem_of_In. done. Qed.

Lemma earlier_unused_spec p pre rest used :
  earlier_unused p (length pre) (pre ++ rest) used = existsb p (drop_used pre used).
Proof.
  apply eq_iff_eq_true. unfold earlier_unused. rewrite !existsb_elem. split.
  - intros ([j y] & Hj%elem_imap_pair & Hp).
    destruct (Nat.leb_spec (length pre) j); [done|]. cbn in Hp. case_bool_decide; [done|].
    exists y. split; [|done]. apply elem_drop_used. exists j. split; [|done].
    by rewrite lookup_app_l in Hj.
  - intros (y & (j & Hj & Hu)%elem_drop_used & Hp). exists (j, y).
    pose proof (lookup_lt_Some _ _ _ Hj). rewrite elem_imap_pair, lookup_app_l by done.
    split; [done|]. destruct (Nat.leb_spec (length pre) j); [lia|]. cbn. by rewrite bool_decide_false.
Qed.

Lemma pending_spec tx pre rest used :
  has_pending_dependencies tx (length pre) (pre ++ rest) used =
  existsb (λ y, rw_depends y tx) (drop_used pre used).
Proof.
  apply eq_iff_eq_true. unfold rw_depends, overlap.
  change (has_pending_dependencies tx (length pre) (pre ++ rest) used) with
    (existsb (λ a, earlier_unused (λ y, bool_decide (a ∈ y.(tx_writes))) (length pre) (pre ++ rest) used) tx.(tx_reads)
     || existsb (λ a, earlier_unused (λ y, bool_decide (a ∈ y.(tx_reads))) (length pre) (pre ++ rest) used) tx.(tx_writes)).
  rewrite orb_true_iff, !existsb_elem. setoid_rewrite earlier_unused_spec.
  setoid_rewrite orb_true_iff. setoid_rewrite existsb_elem. naive_solver.
Qed.

Lemma drop_used_app pre rest used : Forall (λ j, j < length pre)%nat used →
  drop_used (pre ++ rest) used = drop_used pre used ++ rest.
Proof.
  intros Hu. unfold drop_used. rewrite imap_app, filter_app, fmap_app. f_equal.
  rewrite Forall_forall in Hu.
  assert (∀ l k, snd <$> filter (λ ix : nat * Transaction, ix.1 ∉ used)
    (imap (λ i x, ((length pre + (k + i))%nat, x)) l) = l) as Hl; [|apply (Hl rest 0%nat)].
  induction l as [|x l IH]; intros k; cbn [imap]; [done|].
  rewrite filter_cons_True by (cbn; intros ?%Hu; lia). cbn. f_equal.
  etrans; [|apply (IH (S k))]. do 2 f_equal. apply imap_ext. intros; cbn. f_equal. lia.
Qed.

Lemma filter_agree {A} (P Q : A → Prop) `{∀ x, Decision (P x), ∀ x, Decision (Q x)} (l : list A) :
  (∀ x, x ∈ l → P x ↔ Q x) → filter P l = filter Q l.
Proof.
  induction l as [|x l IH]; intros Hl; [done|]. rewrite !filter_cons.
  rewrite IH by (intros; apply Hl; by right). specialize (Hl x ltac:(left)).
  repeat case_decide; tauto.
Qed.

Lemma drop_used_cons pre used i : (length pre ≤ i)%nat → drop_used pre (i :: used) = drop_used pre used.
Proof.
  intros Hi. unfold drop_used. f_equal. apply filter_agree.
  intros [j x] Hj%elem_imap_pair%lookup_lt_Some. cbn. rewrite not_elem_of_cons. split; [by intros [_ ?]|].
  intros. split; [lia|done].
Qed.

(** The loop is the round on the transactions it has passed over. *)
Lemma fill_batch_round p pre rest batch used b u :
  Forall (λ j, j < length pre)%nat used →
  fill_batch p (pre ++ rest) (length pre) rest batch used = (b, u) →
  round p batch (drop_used pre used) rest = (b, drop_used (pre ++ rest) u).
Proof.
  revert pre batch used. induction rest as [|x rest IH]; intros pre batch used Hu; cbn [fill_batch round].
  - intros [= <- <-]. by rewrite (right_id_L [] (++)).
  - rewrite bool_decide_false by (intros Hx; rewrite Forall_forall in Hu; apply Hu in Hx; lia).
    rewrite pending_spec. fold (fits batch (drop_used pre used) x).
    assert (Hs : Forall (λ j, j < length (pre ++ [x]))%nat used)
      by (rewrite length_app; eapply Forall_impl; [done|cbn; lia]).
    assert (Hi : Forall (λ j, j < length (pre ++ [x]))%nat (length pre :: used))
      by (constructor; [rewrite length_app; cbn; lia|done]).
    assert (E1 : drop_used (pre ++ [x]) (length pre :: used) = drop_used pre used).
    { unfold drop_used. rewrite imap_app, filter_app.
      change (imap (λ n, pair (length pre + n)%nat) [x]) with [((length pre + 0)%nat, x)].
      rewrite filter_cons_False by (cbn; rewrite Nat.add_0_r; set_solver).
      rewrite filter_nil, (right_id_L [] (++)). by apply drop_used_cons. }
    specialize (IH (pre ++ [x])). rewrite length_app, <- (assoc_L (++)) in IH. cbn in IH.
    rewrite Nat.add_1_r in IH. destruct (fits _ _ _); [case_match|].
    + intros [= <- <-]. f_equal. rewrite (cons_middle x), (assoc_L (++)), drop_used_app by done. by rewrite E1.
    + intros Hf. apply IH in Hf; [|by rewrite length_app in Hi; cbn in Hi; rewrite Nat.add_1_r in Hi]. by rewrite E1 in Hf.
    + intros Hf. apply IH in Hf; [|by rewrite length_app in Hs; cbn in Hs; rewrite Nat.add_1_r in Hs]. by rewrite drop_used_app in Hf.
Qed.

(** ** Reordering *)

(** Exchange of neighbours without a read-write dependency. *)
Inductive exchange : list Transaction → list Transaction → Prop :=
| exchange_step a x y b : rw_depends x y = false → exchange (a ++ x :: y :: b) (a ++ y :: x :: b).

Definition reorders : list Transaction → list Transaction → Prop := rtc exchange.

#[global] Instance reorders_preorder : PreOrder reorders.
Proof. unfold reorders. apply _. Qed.

Lemma reorders_app a b l l' : reorders l l' → reorders (a ++ l ++ b) (a ++ l' ++ b).
Proof.
  intros H. induction H as [|l l1 l' [c x y d Hxy] _ IH]; [done|]. etrans; [|exact IH].
  apply rtc_once. rewrite <- !(assoc_L (++)). cbn. rewrite !(assoc_L (++) a c). by constructor.
Qed.

Lemma reorders_front s x rest : existsb (λ y, rw_depends y x) s = false →
  reorders (s ++ x :: rest) (x :: s ++ rest).
Proof.
  induction s as [|y s IH]; [done|]. cbn. intros [Hy Hs]%orb_false_iff.
  pose proof (reorders_app [y] [] _ _ (IH Hs)) as Hr. rewrite !(right_id_L [] (++)) in Hr.
  etrans; [exact Hr|]. apply rtc_once. by apply (exchange_step []).
Qed.

Lemma reorders_perm l l' : reorders l l' → l ≡ₚ l'.
Proof.
  induction 1 as [|l l1 l' [a x y b _] _ IH]; [done|]. rewrite <- IH. by rewrite (Permutation_swap y x).
Qed.

(** No two transactions of the list conflict. *)
Definition conflict_free (l : list Transaction) : Prop :=
  StronglySorted (λ x y, conflicts_with x y = false) l.

Lemma StronglySorted_snoc {A} (R : A → A → Prop) l x :
  StronglySorted R l → Forall (λ y, R y x) l → StronglySorted R (l ++ [x]).
Proof.
  induction 1 as [|y l Hs IH Hy]; cbn; [by repeat constructor|]. intros [Hyx Hl]%Forall_cons.
  constructor; [auto|]. apply Forall_app. by split; [|repeat constructor].
Qed.

Record round_post (p : ParallelScheduler) (l b s : list Transaction) : Prop := {
  post_order : reorders l (b ++ s);
  post_free : conflict_free b;
  post_size : Z.of_nat (length b) ≤ Z.max 1 p.(max_batch_size)
}.

Lemma round_ok p batch skipped rest b s :
  conflict_free batch → Z.of_nat (length batch) < Z.max 1 p.(max_batch_size) →
  round p batch skipped rest = (b, s) → round_post p (batch ++ skipped ++ rest) b s.
Proof.
  revert batch skipped. induction rest as [|x rest IH]; intros batch skipped Hf Hl; cbn [round].
  - intros [= <- <-]. rewrite (right_id_L [] (++)). split; [done|done|lia].
  - destruct (fits _ _ _) eqn:Hx.
    + unfold fits in Hx. apply andb_true_iff in Hx as [Hc Hd]. apply negb_true_iff in Hc, Hd.
      assert (conflict_free (batch ++ [x])) as Hf'.
      { apply StronglySorted_snoc; [done|]. apply Forall_forall. intros y Hy. rewrite conflicts_with_comm.
        apply not_true_iff_false. intros E. apply not_true_iff_false in Hc. apply Hc, existsb_elem. eauto. }
      assert (reorders (batch ++ skipped ++ x :: rest) ((batch ++ [x]) ++ skipped ++ rest)) as Hr.
      { rewrite <- (assoc_L (++)). cbn.
        pose proof (reorders_app batch [] _ _ (reorders_front skipped x rest Hd)) as Hr.
        by rewrite !(right_id_L [] (++)) in Hr. }
      case_match; clean_ints.
      * intros [= <- <-]. split; [done|done|]. rewrite length_app in *. cbn in *. lia.
      * intros [H1 H2 H3]%IH; [|done|rewrite length_app in *; cbn in *; lia].
        split; [|done..]. etrans; [exact Hr|done].
    + intros [H1 H2 H3]%IH; [|done..]. split; [|done..]. by rewrite <- !(assoc_L (++)) in H1.
Qed.

Lemma round_nonempty p batch skipped rest b s :
  round p batch skipped rest = (b, s) → (batch ≠ [] ∨ skipped = [] ∧ rest ≠ []) → b ≠ [].
Proof.
  revert batch skipped. induction rest as [|x rest IH]; intros batch skipped; cbn [round].
  - intros [= <- <-]. tauto.
  - intros Hr [Hb|[-> _]].
    + repeat (case_match; simplify_eq/=); try (by eapply IH; [done|left; by destruct batch]). by destruct batch.
    + destruct batch as [|y batch].
      * cbn in Hr. repeat (case_match; simplify_eq/=); [done|]. eapply IH; [done|by left].
      * repeat (case_match; simplify_eq/=); try done; eapply IH; [done|by left|done|by left].
Qed.
(** What [schedule] returns for [txs]. *)
Record schedule_post (p : ParallelScheduler) (txs : list Transaction) (bs : list (list Transaction)) : Prop := {
  all_scheduled : reorders txs (concat bs);
  batches_free : Forall conflict_free bs;
  batches_size : Forall (λ b, 1 ≤ Z.of_nat (length b) ≤ Z.max 1 p.(max_batch_size)) bs
}.

Lemma schedule_loop_ok p fuel txs : (length txs ≤ fuel)%nat →
  ∃ bs, schedule_loop p fuel txs = Some bs ∧ schedule_post p txs bs.
Proof.
  revert txs. induction fuel as [|fuel IH]; intros [|x l] Hl; cbn in Hl;
    try lia; try (by exists []; split; [|split; [|constructor..]]).
  cbn [schedule_loop]. destruct (fill_batch p (x :: l) 0 (x :: l) [] []) as [b u] eqn:Hf.
  apply (fill_batch_round p []) in Hf; [|constructor]. cbn [app] in Hf.
  change (drop_used [] []) with (@nil Transaction) in Hf.
  pose proof (round_nonempty _ _ _ _ _ _ Hf ltac:(by right)) as Hb.
  apply round_ok in Hf as [H1 H2 H3]; [|constructor|change (Z.of_nat (length (@nil Transaction))) with 0; lia].
  cbn [app] in H1.
  rewrite bool_decide_false by done. set (s := drop_used (x :: l) u) in *.
  assert (Hbl : (1 ≤ length b)%nat) by (destruct b; [done|cbn; lia]).
  pose proof (Permutation_length (reorders_perm _ _ H1)) as Hp. rewrite length_app in Hp. cbn [length] in Hp.
  destruct (IH s) as (bs & -> & [I1 I2 I3]); [lia|]. exists (b :: bs). split; [done|].
  split; [|by constructor|constructor; [lia|done]]. cbn. etrans; [exact H1|].
  pose proof (reorders_app b [] _ _ I1) as Hr. by rewrite !(right_id_L [] (++)) in Hr.
Qed.

(** Scheduling returns: every transaction is in exactly one batch,
    no two transactions of a batch conflict, no batch is empty or larger than
    [max_batch_size], and in the order of the batches transactions have only
    been exchanged with transactions they have no read-write dependency on. *)
Theorem schedule_correct (p : ParallelScheduler) (txs : list Transaction) :
  ∃ bs, schedule p txs = Some bs ∧ concat bs ≡ₚ txs ∧ schedule_post p txs bs.
Proof.
  unfold schedule. destruct (schedule_loop_ok p (length txs) txs ltac:(done)) as (bs & Hs & Hp).
  assert (concat bs ≡ₚ txs) by (symmetry; apply reorders_perm, Hp).
  exists bs. case_bool_decide as E; [|done]. rewrite E in Hs. cbn in Hs. by injection Hs as <-.
Qed.

(** ** Serializability *)

Section serial.
Context {S E : Type} (executor : Transaction → M S E unit).

(** Two transactions that do not conflict succeed in either order, with the
    same state. *)
Definition respects_footprints : Prop := ∀ x y s s1 s2,
  conflicts_with x y = false →
  executor x s = (s1, Ok tt) → executor y s1 = (s2, Ok tt) →
  ∃ s1', executor y s = (s1', Ok tt) ∧ executor x s1' = (s2, Ok tt).

(** Every conflict of the list shows as a read of what the other writes. *)
Definition conflicts_declared (l : list Transaction) : Prop :=
  ∀ x y, x ∈ l → y ∈ l → conflicts_with x y = true → rw_depends x y = true.

Lemma execute_batch_app a b s s' :
  execute_batch executor (a ++ b) s = (s', Ok tt) ↔
  ∃ s1, execute_batch executor a s = (s1, Ok tt) ∧ execute_batch executor b s1 = (s', Ok tt).
Proof.
  revert s. induction a as [|x a IH]; intros s; cbn [app execute_batch].
  - split; [by exists s|]. by intros (? & [= ->] & ?).
  - rewrite !bind_Ok. setoid_rewrite IH. setoid_rewrite bind_Ok. split.
    + intros (s1 & [] & Hx & s2 & Ha & Hb). eauto 10.
    + intros (s2 & (s1 & [] & Hx & Ha) & Hb). exists s1, tt. eauto.
Qed.

Lemma execute_sequential_concat bs s : execute_sequential executor bs s = execute_batch executor (concat bs) s.
Proof.
  revert s. induction bs as [|b bs IH]; intros s; [done|]. cbn [execute_sequential concat].
  induction b as [|x b IHb] in s |- *; cbn [app execute_batch].
  - cbn. unfold_M. apply IH.
  - unfold_M. destruct (executor x s) as [s1 [[]|e]]; [|done]. apply IHb.
Qed.

Context (Hexec : respects_footprints).

Lemma exchange_runs a x y b s s' : conflicts_with x y = false →
  execute_batch executor (a ++ x :: y :: b) s = (s', Ok tt) →
  execute_batch executor (a ++ y :: x :: b) s = (s', Ok tt).
Proof.
  intros Hxy. rewrite !execute_batch_app. intros (s1 & Ha & Hb). exists s1. split; [done|].
  cbn [execute_batch] in *. apply bind_Ok in Hb as (s2 & [] & Hx & Hb). apply bind_Ok in Hb as (s3 & [] & Hy & Hb).
  destruct (Hexec x y s1 s2 s3 Hxy Hx Hy) as (s2' & Hy' & Hx').
  apply bind_Ok. exists s2', tt. split; [done|]. apply bind_Ok. by exists s3, tt.
Qed.

Lemma reorders_run l l' s s' : conflicts_declared l → reorders l l' →
  execute_batch executor l s = (s', Ok tt) → execute_batch executor l' s = (s', Ok tt).
Proof.
  intros Hd Hr. induction Hr as [|l l1 l' Hx Hr IH]; [done|]. intros Hl.
  apply IH.
  - pose proof (reorders_perm _ _ (rtc_once _ _ Hx)) as Hp. intros x y. rewrite <- Hp. apply Hd.
  - destruct Hx as [a x y b Hxy]. apply exchange_runs; [|done].
    apply not_true_iff_false. intros ?%Hd; [congruence|set_solver..].
Qed.

Lemma conflict_free_perm l l' : l ≡ₚ l' → conflict_free l → conflict_free l'.
Proof.
  unfold conflict_free. induction 1 as [|x l l' Hp IH|x y l|l l1 l' _ IH1 _ IH2]; [done|..|auto].
  - intros [? Hx]%StronglySorted_inv. constructor; [auto|]. by rewrite <- Hp.
  - intros [[Hl Hx]%StronglySorted_inv [Hyx Hy]%Forall_cons]%StronglySorted_inv.
    constructor; [by constructor|]. constructor; [by rewrite conflicts_with_comm|done].
Qed.

Lemma perm_run l l' s s' : l ≡ₚ l' → conflict_free l →
  execute_batch executor l s = (s', Ok tt) → execute_batch executor l' s = (s', Ok tt).
Proof.
  intros Hp. revert s. induction Hp as [|x l l' Hp IH|x y l|l l1 l' H1 IH1 H2 IH2]; intros s Hf; [done|..].
  - apply StronglySorted_inv in Hf as [Hf _]. cbn [execute_batch].
    intros (s1 & [] & Hx & Hl)%bind_Ok. apply bind_Ok. exists s1, tt. eauto.
  - apply StronglySorted_inv in Hf as [_ [Hyx _]%Forall_cons]. by apply (exchange_runs []).
  - intros. apply IH2; [by eapply conflict_free_perm|]. by apply IH1.
Qed.

Lemma par_deterministic l s s' s'' r : conflict_free l →
  execute_batch executor l s = (s', Ok tt) → par_try_for_each executor l s s'' r → s'' = s' ∧ r = Ok tt.
Proof.
  intros Hf He Hp. induction Hp as [s|l t rest s s1 s'' r Hl Ht _ IH|l t rest s s1 s'' e e' es Hl Ht _ _].
  - by injection He as ->.
  - apply (perm_run _ _ _ _ Hl Hf) in He. apply bind_Ok in He as (s2 & [] & Ht' & He). rewrite Ht in Ht'. injection Ht' as <-.
    apply IH; [|done]. apply (conflict_free_perm _ _ Hl) in Hf. by apply StronglySorted_inv in Hf as [? _].
  - apply (perm_run _ _ _ _ Hl Hf) in He. apply bind_Ok in He as (s2 & [] & Ht' & He). congruence.
Qed.

Lemma par_in_order l s s' : execute_batch executor l s = (s', Ok tt) → par_try_for_each executor l s s' (Ok tt).
Proof.
  revert s. induction l as [|t l IH]; intros s; cbn.
  - intros [= ->]. constructor.
  - intros (s1 & [] & Ht & Hl)%bind_Ok. by eapply par_ok; [|done|apply IH].
Qed.

Lemma parallel_deterministic bs s s' : Forall conflict_free bs →
  execute_batch executor (concat bs) s = (s', Ok tt) →
  execute_parallel executor bs s s' (Ok tt) ∧
  ∀ s'' r, execute_parallel executor bs s s'' r → s'' = s' ∧ r = Ok tt.
Proof.
  intros Hf. revert s. induction Hf as [|b bs Hb Hf IH]; intros s; cbn [concat].
  - intros [= ->]. split; [constructor|]. intros s'' r Hp. by inversion Hp.
  - intros (s1 & H1 & H2)%execute_batch_app. destruct (IH s1 H2) as [IHe IHd]. split.
    + destruct (decide (length b = 1%nat)) as [El|El].
      * destruct b as [|t [|? ?]]; try done. apply bind_Ok in H1 as (s2 & [] & Ht & [= ->]).
        by eapply parallel_single.
      * eapply parallel_batch; [done|by apply par_in_order|done].
    + intros s'' r Hp. inversion Hp; subst.
      * cbn in H1. apply bind_Ok in H1 as (? & [] & Ht & [= ->]). apply IHd. congruence.
      * cbn in H1. apply bind_Ok in H1 as (? & [] & Ht & [= ->]). congruence.
      * destruct (par_deterministic b s s1 s2 (Ok tt)) as [-> _]; [done..|]. by apply IHd.
      * by destruct (par_deterministic b s s1 s'' (Err e)) as [_ ?].
Qed.

(** C21: With an executor that respects the declared footprints, and
    transactions that read every address they write, share no input and succeed
    one after the other, the parallel execution of the schedule ends, succeeds and gives the state of the
    execution of the transactions one after the other, whatever order [rayon]
    chooses. *)
Theorem parallel_serializable (p : ParallelScheduler) (txs : list Transaction) (s s' : S) :
  conflicts_declared txs → execute_sequential executor [txs] s = (s', Ok tt) →
  ∃ bs, schedule p txs = Some bs ∧ execute_parallel executor bs s s' (Ok tt) ∧
    ∀ s'' r, execute_parallel executor bs s s'' r → s'' = s' ∧ r = Ok tt.
Proof.
  intros Hd Hs. destruct (schedule_loop_ok p (length txs) txs ltac:(done)) as (bs & Hb & [H1 H2 _]).
  exists bs. split.
  - unfold schedule. case_bool_decide as Et; [|done]. by rewrite Et in Hb.
  - apply parallel_deterministic; [done|]. eapply reorders_run; [exact Hd|exact H1|].
    rewrite execute_sequential_concat in Hs. cbn in Hs. by rewrite (right_id_L [] (++)) in Hs.
Qed.
End serial.

(** Transactions that read all they write, and have no input in common, declare
    their conflicts. *)
Lemma reads_own_writes_declared l :
  Forall (λ t, t.(tx_writes) ⊆ t.(tx_reads)) l →
  (∀ x y, x ∈ l → y ∈ l → overlap x.(inputs) y.(inputs) = false) → conflicts_declared l.
Proof.
  rewrite Forall_forall. intros Hw Hi x y Hx Hy. unfold conflicts_with, rw_depends.
  rewrite (Hi x y) by done. rewrite (overlap_comm y.(tx_reads)), orb_true_iff.
  destruct (overlap x.(tx_writes) y.(tx_writes)) eqn:E; [|repeat (case_match; try done); tauto].
  intros _. left. unfold overlap in *. apply existsb_elem in E as (a & Ha & Hb%bool_decide_eq_true).
  apply existsb_elem. exists a. split; [done|]. apply bool_decide_eq_true. by apply (Hw y Hy).
Qed.
(** ** A concrete executor *)

(** Writes the nonce plus the sum of the addresses read to every address
    written; fails without gas. *)
Definition sum_reads (t : Transaction) (m : gmap Address Z) : Z :=
  sum_of (λ a, default 0 (m !! a)) t.(tx_reads).

Definition store (t : Transaction) : M (gmap Address Z) string unit := λ m,
  if t.(gas_limit) =? 0 then (m, Err "out of gas"%string) else
  (gset_to_gmap (t.(tx_nonce) + sum_reads t m) (list_to_set t.(tx_writes)) ∪ m, Ok tt).

Lemma store_Ok t m m' : store t m = (m', Ok tt) ↔
  t.(gas_limit) ≠ 0 ∧ m' = gset_to_gmap (t.(tx_nonce) + sum_reads t m) (list_to_set t.(tx_writes)) ∪ m.
Proof. unfold store. destruct (Z.eqb_spec t.(gas_limit) 0); naive_solver. Qed.

Lemma overlap_false {A} `{EqDecision A} (xs ys : list A) a : overlap xs ys = false → a ∈ xs → a ∈ ys → False.
Proof.
  unfold overlap. intros Ho Hx Hy. apply not_true_iff_false in Ho. apply Ho, existsb_elem. exists a.
  split; [done|]. by apply bool_decide_eq_true.
Qed.

Lemma sum_reads_frame t v ws m : overlap ws t.(tx_reads) = false →
  sum_reads t (gset_to_gmap v (list_to_set ws) ∪ m) = sum_reads t m.
Proof.
  intros Ho. apply sum_of_ext, Forall_forall. intros a Ha. f_equal. apply lookup_union_r, lookup_gset_to_gmap_None.
  rewrite elem_of_list_to_set. intros Hw. by eapply overlap_false.
Qed.

Lemma store_respects : respects_footprints store.
Proof.
  intros x y m m1 m2 Hc [Hx ->]%store_Ok [Hy ->]%store_Ok. unfold conflicts_with in Hc.
  destruct (overlap x.(tx_writes) y.(tx_writes)) eqn:E1, (overlap x.(tx_writes) y.(tx_reads)) eqn:E2,
    (overlap y.(tx_writes) x.(tx_reads)) eqn:E3; try done.
  eexists. rewrite !store_Ok. split; [done|]. split; [done|]. rewrite !sum_reads_frame by done.
  apply map_eq. intros a. rewrite !lookup_union, !lookup_gset_to_gmap.
  repeat case_guard; try (by destruct (m !! a)); try done.
  all: exfalso; rewrite ?elem_of_list_to_set in *; by apply (overlap_false _ _ a E1).
Qed.

Definition demo_tx (n : Z) (rs ws : list Address) : Transaction :=
  mkTx n 1 7 [] [] [] rs ws None [] 21000 0 [].

Definition demo_txs : list Transaction :=
  [demo_tx 1 [10] [10]; demo_tx 2 [10; 11] [11]; demo_tx 3 [12] [12]]%N.

Lemma parallel_serializable_witness :
  ∃ bs, schedule new demo_txs = Some bs ∧
    execute_parallel store bs ∅ (execute_sequential store [demo_txs] ∅).1 (Ok tt) ∧
    ∀ s r, execute_parallel store bs ∅ s r → s = (execute_sequential store [demo_txs] ∅).1 ∧ r = Ok tt.
Proof.
  apply (parallel_serializable store store_respects new demo_txs); [|vm_compute; reflexivity].
  apply reads_own_writes_declared; [unfold demo_txs; rewrite !Forall_cons; cbn; set_solver|].
  intros x y Hx Hy. unfold demo_txs in *.
  repeat (apply elem_of_cons in Hx as [->|Hx]; [repeat (apply elem_of_cons in Hy as [->|Hy]; [done|]);
    by apply not_elem_of_nil in Hy|]). by apply not_elem_of_nil in Hx.
Defined.

(** Two transactions that only write the same address are not kept
    in order: the second of them moves to the first batch when the first has to
    wait for another reason, and the state is that of the wrong writer. *)
Theorem write_write_reordered :
  let t0 := demo_tx 1 [] [10%N] in let t1 := demo_tx 2 [] [10; 11]%N in let t2 := demo_tx 3 [] [11%N] in
  schedule new [t0; t1; t2] = Some [[t0; t2]; [t1]] ∧
  (execute_sequential store [[t0; t1; t2]] ∅).1 !! 11%N = Some 3 ∧
  (execute_sequential store [[t0; t2]; [t1]] ∅).1 !! 11%N = Some 2.
Proof. vm_compute. done. Qed.

End Scheduler.
