(* ===== verification/LightClient.v ===== *)
(** * Light client

    [crates/light-client/src]: the verifier of finalized headers
    ([verifier.rs]), the bounded header store ([header_store.rs]) and the state
    queries against Merkle proofs ([state_query.rs]). Public keys are the byte
    vectors they are in the code. *)

From S2P Require Import Prelude.
From S2P Require Import Consensus.
From S2P Require Import Bls.
From S2P Require Import Merkle.

(** ** verifier.rs *)

Module Verifier.
Section verifier.
Context `{Digest, Blst}.

Record ValidatorEntry := mkEntry { entry_pubkey : bytes; entry_stake : Z }.

Record FinalizedHeader := mkFinalized {
  f_header : BlockHeader;
  aggregate_signature : bytes;
  signer_pubkeys : list bytes;
  total_signing_stake : Z
}.

Definition has_quorum (voted_stake total_stake : Z) : bool :=
  if total_stake =? 0 then false else
  match checked_mul U128_MAX voted_stake 3, checked_mul U128_MAX total_stake 2 with
  | Some lhs, Some rhs => rhs <=? lhs
  | _, _ =>
      let threshold := total_stake / 3 * 2 + (if 0 <? total_stake mod 3 then 1 else 0) in
      threshold <=? voted_stake
  end.

Record LightClientVerifier := mkVerifier {
  validators : gmap bytes ValidatorEntry;
  total_stake : Z;
  finalized_slot : Z;
  finalized_state_root : H256
}.

Definition stake_total (vs : list ValidatorEntry) : Z :=
  foldl (λ acc v, saturating_add U128_MAX acc v.(entry_stake)) 0 vs.

(** [.map(|v| (v.pubkey, v)).collect()]: the last of equal keys stays. *)
Definition collect_validators (vs : list ValidatorEntry) : gmap bytes ValidatorEntry :=
  foldl (λ m v, <[v.(entry_pubkey) := v]> m) ∅ vs.

Definition new (vs : list ValidatorEntry) : LightClientVerifier :=
  mkVerifier (collect_validators vs) (stake_total vs) 0 0.

(** The loop over the signers. *)
Fixpoint count_signers (vals : gmap bytes ValidatorEntry) (seen_signers pks : list bytes)
    (verified_stake : Z) {struct pks} : result error Z :=
  match pks with
  | [] => mret verified_stake
  | pk :: pks =>
      bail_if (bool_decide (pk ∈ seen_signers)) (Msg "duplicate signer in finalized header: {:?}");;
      match vals !! pk with
      | Some entry =>
          count_signers vals (pk :: seen_signers) pks (saturating_add U128_MAX verified_stake entry.(entry_stake))
      | None => mthrow (Msg "unknown signer: {:?}")
      end
  end.

(** The hash the signers have signed, as its bytes. *)
Definition header_message (h : BlockHeader) : bytes :=
  as_bytes 32 (sha256_digest (to_le_bytes 8 h.(header_slot) ++ as_bytes 32 h.(parent_hash) ++
    as_bytes 32 h.(state_root) ++ as_bytes 32 h.(transactions_root) ++ as_bytes 32 h.(receipts_root))).

Definition verify_finalized_header (f : FinalizedHeader) : M LightClientVerifier error unit :=
  let h := f.(f_header) in
  s ← get_state;
  bail_if (h.(header_slot) <=? s.(finalized_slot))
    (Fmt "slot {} does not advance beyond finalized slot {}" [h.(header_slot); s.(finalized_slot)]);;
  bail_if (negb (has_quorum f.(total_signing_stake) s.(total_stake)))
    (Fmt "insufficient signing stake: {} < 2/3 of {}" [f.(total_signing_stake); s.(total_stake)]);;
  verified_stake ← reads (λ s, count_signers s.(validators) [] f.(signer_pubkeys) 0);
  bail_if (negb (has_quorum verified_stake s.(total_stake)))
    (Fmt "verified stake {} < 2/3 of total {}" [verified_stake; s.(total_stake)]);;
  let header_msg := header_message h in
  bail_if (bool_decide (f.(signer_pubkeys) = []))
    (Fmt "finalized header at slot {} has no signers" [h.(header_slot)]);;
  (if negb (bool_decide (f.(aggregate_signature) = [])) then
     agg_pk ← reads (λ _, map_err (prefix_error "failed to aggregate signer public keys: ")
                            (Bls.aggregate_public_keys f.(signer_pubkeys)));
     valid ← reads (λ _, map_err (prefix_error "BLS verification error: ")
                           (Bls.verify_aggregated agg_pk header_msg f.(aggregate_signature)));
     bail_if (negb valid)
       (Fmt "invalid BLS aggregate signature on finalized header at slot {}" [h.(header_slot)])
   else mthrow (Fmt "finalized header at slot {} has empty aggregate signature" [h.(header_slot)]));;
  modify (λ s, mkVerifier s.(validators) s.(total_stake) h.(header_slot) h.(state_root)).

Definition update_validators (vs : list ValidatorEntry) (s : LightClientVerifier) : LightClientVerifier :=
  mkVerifier (collect_validators vs) (stake_total vs) s.(finalized_slot) s.(finalized_state_root).

(** *** What an accepted header shows *)

(** The counted stake is that of the validators, and covers the stakes of the
    map: duplicate keys of the input list only make the total larger. *)
Record verifier_wf (s : LightClientVerifier) : Prop := {
  wf_stakes : map_Forall (λ _ v, 0 ≤ v.(entry_stake)) s.(validators);
  wf_total : map_sum entry_stake s.(validators) ≤ s.(total_stake) ≤ U128_MAX
}.

Lemma verifier_quorum v t : has_quorum v t = Quorum.has_quorum v t.
Proof. done. Qed.

Lemma collect_stakes vs m :
  Forall (λ v, 0 ≤ v.(entry_stake)) vs → map_Forall (λ _ v, 0 ≤ v.(entry_stake)) m →
  map_Forall (λ _ v, 0 ≤ v.(entry_stake)) (foldl (λ m v, <[v.(entry_pubkey) := v]> m) m vs) ∧
  map_sum entry_stake (foldl (λ m v, <[v.(entry_pubkey) := v]> m) m vs) ≤
    map_sum entry_stake m + sum_list (entry_stake <$> vs).
Proof.
  intros Hvs. revert m. induction Hvs as [|v vs Hv Hvs IH]; intros m Hm; cbn.
  - split; [done|]. unfold sum_list. cbn. lia.
  - destruct (IH (<[v.(entry_pubkey) := v]> m)) as [H1 H2]; [by apply map_Forall_insert_2|].
    split; [done|]. rewrite map_sum_insert in H2. unfold sum_list in *. cbn.
    assert (0 ≤ from_option entry_stake 0 (m !! v.(entry_pubkey))); [|lia].
    destruct (m !! _) eqn:E; [by apply Hm in E|done].
Qed.

Lemma collected_wf vs slot root :
  Forall (λ v, 0 ≤ v.(entry_stake)) vs → sum_list (entry_stake <$> vs) ≤ U128_MAX →
  verifier_wf (mkVerifier (collect_validators vs) (stake_total vs) slot root).
Proof.
  intros Hvs Hs. destruct (collect_stakes vs ∅ Hvs (map_Forall_empty _)) as [H1 H2].
  rewrite map_sum_empty in H2.
  assert (Ht : stake_total vs = sum_list (entry_stake <$> vs)).
  { unfold stake_total. rewrite <- (foldl_fmap (saturating_add U128_MAX)).
    rewrite foldl_saturating by (try apply Forall_fmap; done || ulia). ulia. }
  split; [done|]. cbn. unfold collect_validators. rewrite Ht. lia.
Qed.

Lemma count_signers_Ok vals seen pks acc v :
  count_signers vals seen pks acc = Ok v → map_Forall (λ _ e, 0 ≤ e.(entry_stake)) vals → 0 ≤ acc ≤ U128_MAX →
  NoDup pks ∧ Forall (λ pk, pk ∉ seen ∧ is_Some (vals !! pk)) pks ∧
  v = Z.min U128_MAX (acc + Quorum.stake_in entry_stake vals pks).
Proof.
  intros Hc Hv. revert seen acc Hc. induction pks as [|pk pks IH]; intros seen acc Hc Ha; cbn in Hc.
  - injection Hc as <-. split_and!; [constructor..|]. unfold Quorum.stake_in, sum_list. cbn. lia.
  - apply res_bail_Ok in Hc as [Hd Hc]. clean_ints. destruct (vals !! pk) as [e|] eqn:Ee; [|done].
    pose proof (Hv _ _ Ee) as He. pose proof (Quorum.stake_in_nonneg entry_stake vals pks Hv).
    apply IH in Hc as (Hn & Hf & ->); [|ulia]. split_and!.
    + constructor; [|done]. intros Hpk. rewrite Forall_forall in Hf. destruct (Hf _ Hpk). set_solver.
    + constructor; [by rewrite Ee|]. eapply Forall_impl; [done|]. cbn. set_solver.
    + rewrite Quorum.stake_in_cons, Ee. cbn. ulia.
Qed.
Lemma verify_finalized_header_Ok f s s' u :
  verify_finalized_header f s = (s', Ok u) →
  s.(finalized_slot) < f.(f_header).(header_slot) ∧
  s' = mkVerifier s.(validators) s.(total_stake) f.(f_header).(header_slot) f.(f_header).(state_root) ∧
  ∃ v agg_pk, count_signers s.(validators) [] f.(signer_pubkeys) 0 = Ok v ∧ has_quorum v s.(total_stake) = true ∧
    Bls.aggregate_public_keys f.(signer_pubkeys) = Ok agg_pk ∧
    Bls.verify_aggregated agg_pk (header_message f.(f_header)) f.(aggregate_signature) = Ok true.
Proof.
  intros Hv. unfold verify_finalized_header in Hv. unfold_M. repeat (case_match; try done); simplify_eq/=.
  clean_ints. split; [done|]. split; [done|]. do 2 eexists. split; [done|].
  split; [done|]. unfold map_err in *. repeat case_match; simplify_eq/=. done.
Qed.

(** An accepted header advances the finalized slot and is signed by
    distinct known validators with two thirds of the stake (less one unit, from
    the rounding of the overflow path), whose aggregated key verifies the
    signature of its hash; a refused header changes nothing. *)
Theorem finalized_header_sound (s s' : LightClientVerifier) (f : FinalizedHeader) (r : result error unit) :
  verifier_wf s → verify_finalized_header f s = (s', r) →
  match r with
  | Err _ => s' = s
  | Ok _ =>
      s.(finalized_slot) < s'.(finalized_slot) ∧ s'.(finalized_state_root) = f.(f_header).(state_root) ∧
      NoDup f.(signer_pubkeys) ∧ Forall (λ pk, is_Some (s.(validators) !! pk)) f.(signer_pubkeys) ∧
      2 * s.(total_stake) - 1 ≤ 3 * Quorum.stake_in entry_stake s.(validators) f.(signer_pubkeys) ∧
      ∃ agg_pk, Bls.aggregate_public_keys f.(signer_pubkeys) = Ok agg_pk ∧
        Bls.verify_aggregated agg_pk (header_message f.(f_header)) f.(aggregate_signature) = Ok true
  end.
Proof.
  intros [Hn Ht] Hv. destruct r as [[]|e].
  - apply verify_finalized_header_Ok in Hv as (Hs & -> & v & agg & Hc & Hq & Ha & Hb).
    apply count_signers_Ok in Hc as (Hnd & Hf & ->); [|done|ulia].
    apply Quorum.has_quorum_sound in Hq as [_ Hq]; [|pose proof (map_sum_nonneg entry_stake _ Hn); lia].
    split_and!; [done..| |lia|by exists agg]. eapply Forall_impl; [done|]. cbn. tauto.
  - unfold verify_finalized_header in Hv. unfold_M. by repeat (case_match; simplify_eq/=).
Qed.

(** C24: Two accepted headers under one validator set, for whatever
    slots and from whatever clients, have common signers, whose stake is a third
    of the total (rounded down, less one): two clients can only be led to
    different chains by validators listed as signers of both. The total stake
    fits a [u128]. *)
Theorem accepted_headers_overlap (s1 s2 s1' s2' : LightClientVerifier) (f1 f2 : FinalizedHeader) :
  verifier_wf s1 → s2.(validators) = s1.(validators) → s2.(total_stake) = s1.(total_stake) →
  verify_finalized_header f1 s1 = (s1', Ok tt) → verify_finalized_header f2 s2 = (s2', Ok tt) →
  let both := Quorum.stake_in entry_stake s1.(validators) (filter (.∈ f1.(signer_pubkeys)) f2.(signer_pubkeys)) in
  0 < both ∧ s1.(total_stake) - 2 ≤ 3 * both.
Proof.
  intros [Hn Ht] Ev Et H1 H2.
  apply verify_finalized_header_Ok in H1 as (_ & _ & v1 & _ & C1 & Q1 & _).
  apply verify_finalized_header_Ok in H2 as (_ & _ & v2 & _ & C2 & Q2 & _). rewrite Ev in C2. rewrite Et in Q2.
  apply count_signers_Ok in C1 as (N1 & _ & ->); [|done|ulia].
  apply count_signers_Ok in C2 as (N2 & _ & ->); [|done|ulia].
  pose proof (Quorum.overlap_stake entry_stake _ _ _ Hn N1 N2) as Ho.
  pose proof (Quorum.stake_in_nonneg entry_stake _ f1.(signer_pubkeys) Hn).
  pose proof (Quorum.stake_in_nonneg entry_stake _ f2.(signer_pubkeys) Hn).
  pose proof (map_sum_nonneg entry_stake _ Hn).
  edestruct Quorum.quorum_overlap as [O1 O2]; [| | |exact Q1|exact Q2|]; [ulia|ulia|lia|].
  cbv zeta. lia.
Qed.

Lemma count_signers_complete vals seen pks acc :
  NoDup pks → Forall (λ pk, pk ∉ seen ∧ is_Some (vals !! pk)) pks → map_Forall (λ _ e, 0 ≤ e.(entry_stake)) vals →
  0 ≤ acc → acc + Quorum.stake_in entry_stake vals pks ≤ U128_MAX →
  count_signers vals seen pks acc = Ok (acc + Quorum.stake_in entry_stake vals pks).
Proof.
  intros Hn Hf Hv. revert seen acc Hf. induction Hn as [|pk pks Hpk Hn IH]; intros seen acc Hf Ha Hle; cbn [count_signers].
  - unfold Quorum.stake_in, sum_list. cbn. f_equal. lia.
  - apply Forall_cons in Hf as [[Hs [e He]] Hf]. rewrite bool_decide_false by done. cbn [bail_if mbind result_bind mret result_ret]. rewrite He.
    rewrite Quorum.stake_in_cons, He in *. cbn [from_option] in *. assert (0 ≤ e.(entry_stake)) by apply (Hv _ _ He).
    pose proof (Quorum.stake_in_nonneg entry_stake vals pks Hv).
    rewrite IH; [f_equal; ulia| |ulia|ulia].
    rewrite Forall_forall in *. intros q Hq. destruct (Hf q Hq). split; [|done].
    rewrite not_elem_of_cons. split; [by intros ->|done].
Qed.

(** A header that two thirds of the stake have signed can be proved to
    the client: the aggregate of the signatures is accepted, unless the keys add
    up to the point at infinity. *)
Theorem signed_header_accepted `{!BlstLaws} (s : LightClientVerifier) (h : BlockHeader) (pks sigs : list bytes) :
  verifier_wf s → s.(finalized_slot) < h.(header_slot) → NoDup pks → NoDup sigs →
  Forall (λ pk, is_Some (s.(validators) !! pk)) pks →
  Forall2 (λ pk sig, Bls.verify pk (header_message h) sig = Ok true) pks sigs →
  let stake := Quorum.stake_in entry_stake s.(validators) pks in
  has_quorum stake s.(total_stake) = true →
  ∃ ps agg_sig, Forall2 (λ b p, pk_from_bytes b = Ok p) pks ps ∧ Bls.aggregate_signatures sigs = Ok agg_sig ∧
    (pk_valid (foldr pk_add pk_zero ps) = true →
     verify_finalized_header (mkFinalized h agg_sig pks stake) s =
       (mkVerifier s.(validators) s.(total_stake) h.(header_slot) h.(state_root), Ok tt)).
Proof.
  intros [Hn Ht] Hs Hnp Hns Hk Hv stake Hq.
  assert (Hle : stake ≤ U128_MAX) by (pose proof (Quorum.stake_in_le entry_stake _ _ Hn Hnp); subst stake; lia).
  assert (Hne : pks ≠ []).
  { intros ->. unfold has_quorum in Hq. subst stake. cbn in Hq. pose proof (map_sum_nonneg entry_stake _ Hn).
    apply Quorum.has_quorum_sound in Hq as [? Hq]; [|lia]. unfold sum_list in Hq. cbn in Hq. lia. }
  assert (sigs ≠ []) by (destruct Hv; done).
  destruct (Bls.aggregate_points (header_message h) pks sigs) as (ps & agg_pk & agg_sig & Hps & Hsig & Hpk & Hver); [done..|].
  exists ps, agg_sig. split_and!; [done..|]. intros Hvalid%Hver.
  assert (Hsg : agg_sig ≠ []).
  { intros ->. unfold Bls.verify_aggregated in Hvalid. res_inv. done. }
  unfold verify_finalized_header. cbn. unfold_M. rewrite (proj2 (Z.leb_gt _ _) Hs), Hq. cbn.
  rewrite (count_signers_complete s.(validators) [] pks 0); [|done| |done|lia|by rewrite Z.add_0_l].
  2: { eapply Forall_impl; [exact Hk|]. cbn. intros ? ?. split; [apply not_elem_of_nil|done]. }
  rewrite Z.add_0_l. fold stake. rewrite Hq. cbn. rewrite !bool_decide_false by done. cbn. rewrite Hpk. cbn. rewrite Hvalid. done.
Qed.
End verifier.
End Verifier.

(** ** header_store.rs *)

Module HeaderStore.

(** A [BTreeMap] by slot. *)
Record HeaderStore := mkStore { headers : gmap Z BlockHeader; max_headers : Z }.

Definition new (max_headers : Z) : HeaderStore := mkStore ∅ max_headers.

(** The least and the greatest key of the map. *)
Definition first_slot (m : gmap Z BlockHeader) : option Z :=
  map_fold (λ k _ acc, Some (from_option (Z.min k) k acc)) None m.
Definition last_slot (m : gmap Z BlockHeader) : option Z :=
  map_fold (λ k _ acc, Some (from_option (Z.max k) k acc)) None m.

Definition pop_first (m : gmap Z BlockHeader) : gmap Z BlockHeader :=
  match first_slot m with Some k => delete k m | None => m end.

(** [while self.headers.len() > self.max_headers]; each turn removes an entry,
    so the size is enough fuel. *)
Fixpoint evict (fuel : nat) (max : Z) (m : gmap Z BlockHeader) : gmap Z BlockHeader :=
  if max <? Z.of_nat (size m) then
    match fuel with O => m | S fuel => evict fuel max (pop_first m) end
  else m.

Definition insert (h : BlockHeader) (s : HeaderStore) : HeaderStore :=
  let m := <[h.(header_slot) := h]> s.(headers) in
  mkStore (evict (size m) s.(max_headers) m) s.(max_headers).

Definition get (slot : Z) (s : HeaderStore) : option BlockHeader := s.(headers) !! slot.

Definition latest (s : HeaderStore) : option BlockHeader :=
  last_slot s.(headers) ≫= λ k, s.(headers) !! k.

Definition state_root_at (slot : Z) (s : HeaderStore) : option H256 :=
  state_root <$> s.(headers) !! slot.

Definition len (s : HeaderStore) : Z := Z.of_nat (size s.(headers)).
Definition is_empty (s : HeaderStore) : bool := bool_decide (s.(headers) = ∅).

Lemma first_slot_spec m :
  match first_slot m with
  | None => m = ∅
  | Some k => is_Some (m !! k) ∧ ∀ i, is_Some (m !! i) → k ≤ i
  end.
Proof.
  unfold first_slot. apply (map_fold_weak_ind (λ r m, match r with
    | None => m = ∅ | Some k => is_Some (m !! k) ∧ ∀ i, is_Some (m !! i) → k ≤ i end)); [done|].
  intros i x m' [k0|] Hi; cbn.
  - intros [Hk Hm]. split.
    + destruct (Z.min_spec i k0) as [[_ ->]|[_ ->]]; [by rewrite lookup_insert_eq|].
      destruct (decide (i = k0)) as [->|]; [by rewrite lookup_insert_eq|by rewrite lookup_insert_ne].
    + intros j. destruct (decide (i = j)) as [->|]; [intros; lia|]. rewrite lookup_insert_ne by done.
      intros Hj%Hm. lia.
  - intros ->. split; [by rewrite lookup_insert_eq|]. intros j. destruct (decide (i = j)) as [->|]; [lia|].
    rewrite lookup_insert_ne, lookup_empty by done. by intros [? ?].
Qed.

Lemma last_slot_spec m k : (∀ i, is_Some (m !! i) → i ≤ k) → is_Some (m !! k) → last_slot m = Some k.
Proof.
  intros Hle Hk. assert (Hs : match last_slot m with
    | None => m = ∅ | Some k => is_Some (m !! k) ∧ ∀ i, is_Some (m !! i) → i ≤ k end).
  { unfold last_slot. apply (map_fold_weak_ind (λ r m, match r with
      | None => m = ∅ | Some k => is_Some (m !! k) ∧ ∀ i, is_Some (m !! i) → i ≤ k end)); [done|].
    intros i x m' [k0|] Hi; cbn.
    - intros [Hk0 Hm]. split.
      + destruct (Z.max_spec i k0) as [[_ ->]|[_ ->]]; [|by rewrite lookup_insert_eq].
        destruct (decide (i = k0)) as [->|]; [by rewrite lookup_insert_eq|by rewrite lookup_insert_ne].
      + intros j. destruct (decide (i = j)) as [->|]; [intros; lia|]. rewrite lookup_insert_ne by done.
        intros Hj%Hm. lia.
    - intros ->. split; [by rewrite lookup_insert_eq|]. intros j. destruct (decide (i = j)) as [->|]; [lia|].
      rewrite lookup_insert_ne, lookup_empty by done. by intros [? ?]. }
  destruct (last_slot m) as [k'|].
  - destruct Hs as [H1 H2]. f_equal. specialize (H2 _ Hk). specialize (Hle _ H1). lia.
  - subst m. rewrite lookup_empty in Hk. by destruct Hk.
Qed.

(** The newest entries of [m], [n] of them. *)
Record newest (n : Z) (m m' : gmap Z BlockHeader) : Prop := {
  newest_sub : m' ⊆ m;
  newest_size : Z.of_nat (size m') = Z.min (Z.of_nat (size m)) n;
  newest_order : ∀ i j, is_Some (m !! i) → m' !! i = None → is_Some (m' !! j) → i < j
}.

Lemma evict_newest fuel n m : 0 ≤ n → (size m ≤ fuel)%nat → newest n m (evict fuel n m).
Proof.
  intros Hn. revert m. induction fuel as [|fuel IH]; intros m Hf; cbn [evict];
    destruct (Z.ltb_spec n (Z.of_nat (size m))); try lia;
    try (split; [done|lia|intros i j Hi Ei; rewrite Ei in Hi; by destruct Hi]).
  unfold pop_first. pose proof (first_slot_spec m) as Hs. destruct (first_slot m) as [k|].
  2: { subst m. rewrite map_size_empty in *. lia. }
  destruct Hs as [[x0 Hk] Hmin]. pose proof (map_size_delete k m) as Hd. rewrite Hk in Hd.
  assert (size m ≠ 0)%nat by lia.
  destruct (IH (delete k m)) as [H1 H2 H3]; [lia|]. split.
  - etrans; [exact H1|apply delete_subseteq].
  - lia.
  - intros i j Hi Ei Hj. destruct (decide (i = k)) as [->|Hik].
    + destruct Hj as [x Hj]. pose proof (lookup_weaken _ _ _ _ Hj H1) as Hj'.
      apply lookup_delete_Some in Hj' as [Hne Hj']. specialize (Hmin j (mk_is_Some _ _ Hj')). lia.
    + apply H3; [by rewrite lookup_delete_ne|done..].
Qed.

(** Inserting a header keeps at most [max_headers] headers, the ones
    with the greatest slots; every slot that is dropped is below every slot that
    is kept. *)
Theorem insert_keeps_newest (h : BlockHeader) (s : HeaderStore) :
  0 ≤ s.(max_headers) →
  newest s.(max_headers) (<[h.(header_slot) := h]> s.(headers)) (insert h s).(headers) ∧
  len (insert h s) ≤ s.(max_headers) ∧
  (1 ≤ s.(max_headers) → (∀ i, is_Some (s.(headers) !! i) → i ≤ h.(header_slot)) → latest (insert h s) = Some h).
Proof.
  intros Hm. unfold insert, len. cbn. set (m := <[h.(header_slot) := h]> s.(headers)).
  destruct (evict_newest (size m) s.(max_headers) m Hm ltac:(done)) as [H1 H2 H3].
  split; [done|]. split; [lia|]. intros H1m Hlast. unfold latest. cbn.
  set (m' := evict (size m) s.(max_headers) m) in *.
  assert (Hh : m !! h.(header_slot) = Some h) by apply lookup_insert_eq.
  assert (Hmax : ∀ i, is_Some (m !! i) → i ≤ h.(header_slot)).
  { intros i. destruct (decide (i = h.(header_slot))) as [->|]; [lia|]. subst m. rewrite lookup_insert_ne by done. apply Hlast. }
  assert (Hh' : m' !! h.(header_slot) = Some h).
  { destruct (m' !! h.(header_slot)) as [x|] eqn:E.
    - rewrite <- Hh. symmetry. by apply (lookup_weaken _ _ _ _ E).
    - assert (size m ≠ 0)%nat by (apply map_size_non_empty_iff; intros Em; by rewrite Em, lookup_empty in Hh).
      destruct (map_choose m') as (j & x & Hj); [apply map_size_non_empty_iff; lia|].
      pose proof (H3 _ j (mk_is_Some _ _ Hh) E (mk_is_Some _ _ Hj)).
      pose proof (Hmax j (mk_is_Some _ _ (lookup_weaken _ _ _ _ Hj H1))). lia. }
  rewrite (last_slot_spec m' h.(header_slot)); [done| |done].
  intros i [x Hi]. apply Hmax. exists x. by eapply lookup_weaken.
Qed.
End HeaderStore.

(** ** state_query.rs *)

Module StateQuery.
Section query.
Context `{Digest}.
Import Merkle.

Record StateProof := mkStateProof { proof : MerkleProof; value : option bytes }.

Record StateQuery := mkQuery { trusted_root : H256 }.

Definition update_root (new_root : H256) (_ : StateQuery) : StateQuery := mkQuery new_root.

Definition verify_account (a : Address) (p : StateProof) (q : StateQuery) : result error (option bytes) :=
  bail_if (negb (p.(proof).(proof_root) =? q.(trusted_root))%N) (Msg "proof root {:?} does not match trusted root {:?}");;
  bail_if (negb (verify p.(proof))) (Msg "Merkle proof verification failed for {:?}");;
  bail_if (negb (p.(proof).(key) =? a)%N) (Msg "proof key mismatch");;
  mret p.(value).

Definition verify_inclusion (a : Address) (expected_value_hash : H256) (p : StateProof) (q : StateQuery) :
    result error bool :=
  _ ← verify_account a p q;
  match p.(proof).(value_hash) with
  | Some vh => mret (vh =? expected_value_hash)%N
  | None => mret false
  end.

Definition verify_exclusion (a : Address) (p : StateProof) (q : StateQuery) : result error bool :=
  _ ← verify_account a p q;
  mret (bool_decide (p.(proof).(value_hash) = None)).

Lemma verify_account_Ok a p q v : verify_account a p q = Ok v ↔
  p.(proof).(proof_root) = q.(trusted_root) ∧ verify p.(proof) = true ∧ p.(proof).(key) = a ∧ v = p.(value).
Proof.
  unfold verify_account. rewrite !res_bail_Ok, !negb_false_iff, !N.eqb_eq. split.
  - intros (? & ? & ? & [= <-]). done.
  - by intros (? & ? & ? & ->).
Qed.

(** A light client whose trusted root is that of the full node's tree
    reads from accepted proofs what the tree holds: an accepted inclusion proof
    shows the value hash of the key, an accepted exclusion proof its absence,
    and the proofs the tree makes are accepted; otherwise two different inputs
    hashed along the way have the same digest. *)
Theorem query_reads_tree (t : SparseMerkleTree) (a : Address) (p : StateProof) (vh : H256) :
  tree_wf t → (a < 2 ^ 160)%N → value_ok p.(proof).(value_hash) →
  let q := mkQuery t.(root) in
  (verify_inclusion a vh p q = Ok true →
     get a t = Some vh ∨ collide (path_inputs p.(proof)) (path_inputs (prove a t))) ∧
  (verify_exclusion a p q = Ok true →
     get a t = None ∨ collide (path_inputs p.(proof)) (path_inputs (prove a t))) ∧
  (∀ v, verify_account a (mkStateProof (prove a t) v) q = Ok v ∧
     verify_inclusion a vh (mkStateProof (prove a t) v) q = Ok (bool_decide (get a t = Some vh)) ∧
     verify_exclusion a (mkStateProof (prove a t) v) q = Ok (bool_decide (get a t = None))).
Proof.
  intros Ht Ha Hv q.
  assert (Hsound : ∀ v, verify_account a p q = Ok v →
    p.(proof).(value_hash) = get a t ∨ collide (path_inputs p.(proof)) (path_inputs (prove a t))).
  { intros v (Hr & Hver & <- & _)%verify_account_Ok. by apply verified_value_raw. }
  split_and!.
  - unfold verify_inclusion. intros (v & Hacc & Hi)%res_bind_Ok. destruct (Hsound v Hacc) as [E|]; [left|by right].
    rewrite E in Hi. destruct (get a t); [|done]. injection Hi as Hi%N.eqb_eq. by subst.
  - unfold verify_exclusion. intros (v & Hacc & Hi)%res_bind_Ok. destruct (Hsound v Hacc) as [E|]; [left|by right].
    rewrite E in Hi. injection Hi as Hi%bool_decide_eq_true. done.
  - intros v. assert (Hacc : verify_account a (mkStateProof (prove a t) v) q = Ok v).
    { apply verify_account_Ok. split_and!; [done| |done..]. by apply prove_verifies_raw. }
    unfold verify_inclusion, verify_exclusion. rewrite Hacc. cbn. split_and!; [done| |done].
    change (leaves t !! a) with (get a t). destruct (get a t) as [w|]; cbn; [|done]. f_equal.
    destruct (N.eqb_spec w vh); case_bool_decide; congruence.
Qed.

(** The value bytes of a state proof are not checked against the value
    hash: from any proof that is accepted, one that returns any other bytes, or
    none, for the account is made by replacing the value. *)
Theorem account_value_unchecked (a : Address) (p : StateProof) (q : StateQuery) (v forged : option bytes) :
  verify_account a p q = Ok v →
  verify_account a (mkStateProof p.(proof) forged) q = Ok forged.
Proof. intros (? & ? & ? & _)%verify_account_Ok. by apply verify_account_Ok. Qed.

End query.
End StateQuery.

(** ** Concrete runs *)

From S2P Require Import Toy.

Module LightClientDemo.
Import Verifier.

Definition key1 : bytes := Bls.public_key Bls.demo_keys.1.
Definition key2 : bytes := Bls.public_key Bls.demo_keys.2.

Definition demo_validators : list ValidatorEntry := [mkEntry key1 3; mkEntry key2 1].
Definition client : LightClientVerifier := new demo_validators.

Lemma client_wf : verifier_wf client.
Proof. apply collected_wf; [repeat constructor; cbn; lia|by vm_compute]. Qed.

Definition demo_header (slot : Z) (root : H256) : BlockHeader :=
  mkBlockHeader 1 slot 11 root 13 14 15 (mkVrfProof [] []) 0.

Definition signature_by (kp : Bls.BlsKeypair) (h : BlockHeader) : bytes := Bls.sign kp (header_message h).

Definition header5 : FinalizedHeader :=
  mkFinalized (demo_header 5 77) (signature_by Bls.demo_keys.1 (demo_header 5 77)) [key1] 3.
Definition header6 : FinalizedHeader :=
  mkFinalized (demo_header 6 78) (signature_by Bls.demo_keys.1 (demo_header 6 78)) [key2; key1] 4.

Definition client5 : LightClientVerifier := mkVerifier client.(validators) 4 5 77.

Lemma header5_accepted : verify_finalized_header header5 client = (client5, Ok tt).
Proof. vm_compute. reflexivity. Qed.

Lemma finalized_header_sound_witness :
  client.(finalized_slot) < client5.(finalized_slot) ∧ client5.(finalized_state_root) = 77%N ∧
  NoDup [key1] ∧ Forall (λ pk, is_Some (client.(validators) !! pk)) [key1] ∧
  2 * 4 - 1 ≤ 3 * Quorum.stake_in entry_stake client.(validators) [key1] ∧
  ∃ agg_pk, Bls.aggregate_public_keys [key1] = Ok agg_pk ∧
    Bls.verify_aggregated agg_pk (header_message header5.(f_header)) header5.(aggregate_signature) = Ok true.
Proof. apply (finalized_header_sound client client5 header5 (Ok tt) client_wf header5_accepted). Defined.

Lemma accepted_headers_overlap_witness :
  let both := Quorum.stake_in entry_stake client.(validators) (filter (.∈ [key1]) [key2; key1]) in
  0 < both ∧ 4 - 2 ≤ 3 * both.
Proof.
  apply (accepted_headers_overlap client client5 client5 (mkVerifier client.(validators) 4 6 78) header5 header6);
    [apply client_wf|reflexivity|reflexivity|apply header5_accepted|vm_compute; reflexivity].
Defined.

Lemma signed_header_accepted_witness : ∃ ps agg_sig,
  Forall2 (λ b p, pk_from_bytes b = Ok p) [key1] ps ∧
  Bls.aggregate_signatures [header5.(aggregate_signature)] = Ok agg_sig ∧
  (pk_valid (foldr pk_add pk_zero ps) = true →
   verify_finalized_header (mkFinalized (demo_header 5 77) agg_sig [key1]
     (Quorum.stake_in entry_stake client.(validators) [key1])) client =
     (mkVerifier client.(validators) client.(total_stake) 5 77, Ok tt)).
Proof.
  apply (signed_header_accepted client (demo_header 5 77) [key1] [header5.(aggregate_signature)]);
    [apply client_wf|done|apply NoDup_singleton|apply NoDup_singleton|repeat constructor|repeat constructor|];
    vm_compute; done || reflexivity || eauto.
Defined.

Definition two_headers : HeaderStore.HeaderStore :=
  HeaderStore.insert (demo_header 4 70) (HeaderStore.insert (demo_header 3 69) (HeaderStore.new 2)).

Lemma insert_keeps_newest_witness :
  let s := two_headers in
  let h := demo_header 5 77 in
  HeaderStore.newest 2 (<[5 := h]> s.(HeaderStore.headers)) (HeaderStore.insert h s).(HeaderStore.headers) ∧
  HeaderStore.len (HeaderStore.insert h s) ≤ 2 ∧
  (1 ≤ 2 → (∀ i, is_Some (s.(HeaderStore.headers) !! i) → i ≤ 5) → HeaderStore.latest (HeaderStore.insert h s) = Some h).
Proof. cbv zeta. apply (HeaderStore.insert_keeps_newest (demo_header 5 77) two_headers). done. Defined.

Import StateQuery.

#[local] Existing Instance Merkle.toy_digest.

Definition tree_proof : StateProof := mkStateProof (Merkle.prove 5 Merkle.demo_tree) (Some [1; 2]).
Definition tree_query : StateQuery := mkQuery Merkle.demo_tree.(Merkle.root).

Lemma query_reads_tree_witness :
  let q := mkQuery Merkle.demo_tree.(Merkle.root) in
  (verify_inclusion 5 77 tree_proof q = Ok true →
     Merkle.get 5 Merkle.demo_tree = Some 77%N ∨
     Merkle.collide (Merkle.path_inputs tree_proof.(proof)) (Merkle.path_inputs (Merkle.prove 5 Merkle.demo_tree))) ∧
  (verify_exclusion 5 tree_proof q = Ok true →
     Merkle.get 5 Merkle.demo_tree = None ∨
     Merkle.collide (Merkle.path_inputs tree_proof.(proof)) (Merkle.path_inputs (Merkle.prove 5 Merkle.demo_tree))) ∧
  (∀ v, verify_account 5 (mkStateProof (Merkle.prove 5 Merkle.demo_tree) v) q = Ok v ∧
     verify_inclusion 5 77 (mkStateProof (Merkle.prove 5 Merkle.demo_tree) v) q =
       Ok (bool_decide (Merkle.get 5 Merkle.demo_tree = Some 77%N)) ∧
     verify_exclusion 5 (mkStateProof (Merkle.prove 5 Merkle.demo_tree) v) q =
       Ok (bool_decide (Merkle.get 5 Merkle.demo_tree = None))).
Proof.
  apply (query_reads_tree Merkle.demo_tree 5 tree_proof 77);
    [apply Merkle.demo_tree_wf|done|vm_compute; reflexivity].
Defined.

Lemma account_value_unchecked_witness :
  verify_account 5 (mkStateProof tree_proof.(proof) (Some [9])) tree_query = Ok (Some [9]).
Proof.
  apply (account_value_unchecked 5 tree_proof tree_query (Some [1; 2]) (Some [9])).
  apply verify_account_Ok. split; [reflexivity|].
  split; [apply Merkle.prove_verifies_raw; [apply Merkle.demo_tree_wf|done]|by split].
Defined.

End LightClientDemo.
