(* ===== verification/Runtime.v ===== *)
(** * Contract runtime

    [crates/runtime/src]: the gas-metered [HostFunctions]
    ([host_functions.rs]) and the WebAssembly machine with the host functions a
    module imports ([vm.rs]).

    The engine (Wasmtime) is a parameter. A compiled module is known by what
    its code does to the store, as the tree [guest] of its steps: consumption
    of fuel, accesses to the linear memory, growth of memory and tables, and
    calls of the imported functions. Since every loop consumes fuel and fuel is
    finite, a finite tree describes every run. *)

From S2P Require Import Prelude.

(** ** host_functions.rs *)

Module HostFunctions.
Section host.
Context `{Digest}.

Record ExecutionContext := mkContext {
  block_number_of : Z;
  timestamp_of : Z;
  caller_of : Address;
  contract_address_of : Address
}.

Record HostFunctions := mkHost {
  storage : gmap (list Z) (list Z);
  balances : gmap Address Z;
  gas_used : Z;
  gas_limit : Z;
  context : ExecutionContext
}.

Definition new (limit : Z) (ctx : ExecutionContext) : HostFunctions := mkHost ∅ ∅ 0 limit ctx.

Definition set_gas (g : Z) (s : HostFunctions) : HostFunctions :=
  mkHost s.(storage) s.(balances) g s.(gas_limit) s.(context).
Definition set_balance (a : Address) (b : Z) (s : HostFunctions) : HostFunctions :=
  mkHost s.(storage) (<[a := b]> s.(balances)) s.(gas_used) s.(gas_limit) s.(context).
Definition set_storage (k v : list Z) (s : HostFunctions) : HostFunctions :=
  mkHost (<[k := v]> s.(storage)) s.(balances) s.(gas_used) s.(gas_limit) s.(context).

Definition charge_gas (amount : Z) : M HostFunctions error unit :=
  s ← get_state;
  g ← ok_or (checked_add U64_MAX s.(gas_used) amount) (Msg "gas overflow");
  modify (set_gas g);;
  bail_if (s.(gas_limit) <? g) (Msg "out of gas").

Definition storage_read (key : list Z) : M HostFunctions error (option (list Z)) :=
  charge_gas 200;;
  s ← get_state;
  mret (s.(storage) !! key).

Definition storage_write (key value : list Z) : M HostFunctions error unit :=
  charge_gas 5000;;
  s ← get_state;
  (if bool_decide (s.(storage) !! key = None) then charge_gas 20000 else mret tt);;
  modify (set_storage key value).

Definition balance_of (a : Address) (s : HostFunctions) : Z := default 0 (s.(balances) !! a).

Definition get_balance (a : Address) : M HostFunctions error Z :=
  charge_gas 100;;
  s ← get_state;
  mret (balance_of a s).

Definition transfer (from to : Address) (amount : Z) : M HostFunctions error unit :=
  charge_gas 9000;;
  s ← get_state;
  let from_balance := balance_of from s in
  bail_if (from_balance <? amount) (Msg "insufficient balance");;
  let to_balance := balance_of to s in
  debited ← ok_or (checked_sub from_balance amount) (Msg "balance underflow");
  modify (set_balance from debited);;
  new_to_balance ← ok_or (checked_add U128_MAX to_balance amount) (Msg "balance overflow");
  modify (set_balance to new_to_balance).

Definition sha256 (data : list Z) : M HostFunctions error H256 :=
  let words := (Z.of_nat (length data) + 31) / 32 in
  charge_gas (saturating_add U64_MAX 60 (saturating_mul U64_MAX 12 words));;
  mret (sha256_digest data).

(** The log is only traced. *)
Definition emit_log (topics : list H256) (data : list Z) : M HostFunctions error unit :=
  charge_gas (saturating_add U64_MAX 375 (saturating_mul U64_MAX 8 (Z.of_nat (length data)))).

Definition block_number : M HostFunctions error Z :=
  charge_gas 2;; s ← get_state; mret s.(context).(block_number_of).
Definition timestamp : M HostFunctions error Z :=
  charge_gas 2;; s ← get_state; mret s.(context).(timestamp_of).
Definition caller : M HostFunctions error Address :=
  charge_gas 2;; s ← get_state; mret s.(context).(caller_of).
Definition address : M HostFunctions error Address :=
  charge_gas 2;; s ← get_state; mret s.(context).(contract_address_of).

Lemma bind_cases {S E A B} (m : M S E A) (f : A → M S E B) s s' r :
  (m ≫= f) s = (s', r) →
  (∃ s1 a, m s = (s1, Ok a) ∧ f a s1 = (s', r)) ∨ (∃ e, m s = (s', Err e) ∧ r = Err e).
Proof. unfold_M. destruct (m s) as [s1 [a|e]]; [eauto|]. intros [= <- <-]. eauto. Qed.

(** *** Gas *)

Inductive call :=
| CRead (k : list Z) | CWrite (k v : list Z) | CBalance (a : Address) | CTransfer (f t : Address) (n : Z)
| CSha (d : list Z) | CLog (ts : list H256) (d : list Z) | CNumber | CTime | CCaller | CAddress.

(** The call, and whether it succeeds. *)
Definition outcome {A} (m : M HostFunctions error A) (s : HostFunctions) : HostFunctions * bool :=
  let '(s', r) := m s in (s', is_ok r).

Definition invoke (c : call) : HostFunctions → HostFunctions * bool :=
  match c with
  | CRead k => outcome (storage_read k)
  | CWrite k v => outcome (storage_write k v)
  | CBalance a => outcome (get_balance a)
  | CTransfer f t n => outcome (transfer f t n)
  | CSha d => outcome (sha256 d)
  | CLog ts d => outcome (emit_log ts d)
  | CNumber => outcome block_number
  | CTime => outcome timestamp
  | CCaller => outcome caller
  | CAddress => outcome address
  end.

Lemma charge_gas_cases n s s' r : charge_gas n s = (s', r) →
  (r = Ok tt ∧ s' = set_gas (s.(gas_used) + n) s ∧ s.(gas_used) + n ≤ s.(gas_limit) ∧ s.(gas_used) + n ≤ U64_MAX) ∨
  (∃ e, r = Err e ∧ (s' = s ∨ s' = set_gas (s.(gas_used) + n) s) ∧ s.(gas_limit) `min` U64_MAX < s.(gas_used) + n).
Proof.
  unfold charge_gas. unfold_M. intros E. repeat (case_match; simplify_eq/=); clean_ints; subst; try done.
  - right. eexists. split_and!; [done|by right|lia].
  - left. split_and!; [done..|lia|lia].
  - right. eexists. split_and!; [done|by left|lia].
Qed.

(** All but the gas is the same. *)
Definition same_data (s s' : HostFunctions) : Prop :=
  s'.(storage) = s.(storage) ∧ s'.(balances) = s.(balances) ∧ s'.(gas_limit) = s.(gas_limit) ∧ s'.(context) = s.(context).

Record metered (s s' : HostFunctions) (ok : bool) : Prop := {
  gas_grows : s.(gas_used) ≤ s'.(gas_used);
  limit_kept : s'.(gas_limit) = s.(gas_limit) ∧ s'.(context) = s.(context);
  gas_within : ok = true → s'.(gas_used) ≤ s.(gas_limit);
  exhausted_fails : s.(gas_limit) < s.(gas_used) → ok = false ∧ same_data s s'
}.

Lemma charged {A} (n : Z) (k : unit → M HostFunctions error A) s s' r :
  0 ≤ n → (charge_gas n ≫= k) s = (s', r) →
  (∀ s1 s2 r2, k tt s1 = (s2, r2) → s2.(gas_limit) = s1.(gas_limit) ∧ s2.(context) = s1.(context) ∧
     s1.(gas_used) ≤ s2.(gas_used) ∧ (s1.(gas_used) ≤ s1.(gas_limit) → is_ok r2 = true → s2.(gas_used) ≤ s2.(gas_limit))) →
  metered s s' (is_ok r).
Proof.
  intros Hn E Hk. unfold_M. destruct (charge_gas n s) as [s1 r1] eqn:Hc.
  apply charge_gas_cases in Hc as [(-> & -> & H1 & H2)|(e & -> & Hs & Hl)].
  - destruct (Hk _ _ _ E) as (L1 & L2 & L3 & L4). cbn in *. split; [lia|done| |lia]. intros Ho. rewrite <- L1. by apply L4.
  - injection E as <- <-. destruct Hs as [-> | ->]; split; cbn; try done; lia.
Qed.

(** C29: Gas only grows; a call that succeeds has stayed within the
    limit; once the limit is exceeded every further call fails and changes
    nothing but the gas. *)
Theorem gas_metered (c : call) (s s' : HostFunctions) (ok : bool) :
  invoke c s = (s', ok) → metered s s' ok.
Proof.
  intros E. destruct c; cbn [invoke] in E; unfold outcome in E;
    match type of E with context [match ?m with _ => _ end] => destruct m as [s1 r] eqn:Hm end; injection E as <- <-.
  all: try (eapply charged; [|exact Hm|]; [lia|]; intros t1 t2 r2 Hr; unfold_M; simplify_eq/=; done).
  - eapply charged; [|exact Hm|]; [lia|]. intros t1 t2 r2 Hr. unfold_M.
    destruct (bool_decide (storage t1 !! k = None)); [|by simplify_eq/=].
    destruct (charge_gas 20000 t1) as [s3 r3] eqn:Hc.
    apply charge_gas_cases in Hc as [(-> & -> & H1 & H2)|(e & -> & Hs & Hl)]; simplify_eq/=; [split_and!; done || lia|].
    destruct Hs as [-> | ->]; cbn; split_and!; done || lia.
  - eapply charged; [|exact Hm|]; [lia|]. intros t1 t2 r2 Hr. unfold_M. by repeat (case_match; simplify_eq/=).
  - eapply charged; [|exact Hm|]; [|intros t1 t2 r2 Hr; unfold_M; simplify_eq/=; done].
    pose proof (Z.div_pos (Z.of_nat (length d) + 31) 32). ulia.
  - destruct (charge_gas_cases _ _ _ _ Hm) as [(-> & -> & H1 & H2)|(e & -> & Hs & Hl)]; cbn; [split; cbn; try done; ulia|].
    destruct Hs as [-> | ->]; split; cbn; try done; ulia.
Qed.

(** *** Transfers *)

Definition supply (s : HostFunctions) : Z := map_total s.(balances).

(** What a transfer does to the balances. Between two accounts it
    moves the amount; to the sender itself it creates the amount; and when the
    receiver's balance would overflow it returns an error after the debit, so
    that the amount is destroyed. Every other error leaves the balances. *)
Theorem transfer_effect (from to : Address) (n : Z) (s s' : HostFunctions) (r : result error unit) :
  transfer from to n s = (s', r) →
  match r with
  | Ok _ =>
      if decide (from = to) then balance_of to s' = balance_of to s + n ∧ supply s' = supply s + n
      else balance_of from s' = balance_of from s - n ∧ balance_of to s' = balance_of to s + n ∧ supply s' = supply s
  | Err e =>
      if bool_decide (n ≤ balance_of from s ∧ U128_MAX < balance_of to s + n ∧
                      s.(gas_used) + 9000 ≤ s.(gas_limit) `min` U64_MAX)
      then balance_of from s' = balance_of from s - n ∧ supply s' = supply s - n
      else s'.(balances) = s.(balances)
  end.
Proof.
  unfold transfer. intros E. apply bind_cases in E as [(s1 & [] & Hc & E)|(e & Hc & ->)].
  - apply charge_gas_cases in Hc as [(_ & -> & Hg & Hu)|(? & ? & _)]; [|done].
    unfold balance_of, supply in *. unfold_M. cbn in E.
    destruct (Z.ltb_spec (default 0 (s.(balances) !! from)) n); [simplify_eq/=; rewrite bool_decide_false by lia; done|].
    destruct (checked_sub _ _) eqn:E1; clean_ints; subst; [|lia].
    destruct (checked_add _ _ _) eqn:E2; clean_ints; injection E as <- <-; subst; cbn.
    + case_decide as Hft; [subst; rewrite ?insert_insert_eq, ?lookup_insert_eq, ?map_total_insert; cbn; lia|].
      rewrite !lookup_insert_eq, lookup_insert_ne, lookup_insert_eq by done.
      rewrite !map_total_insert, lookup_insert_ne by done. cbn. lia.
    + rewrite bool_decide_true by lia. rewrite lookup_insert_eq, map_total_insert. cbn. lia.
  - apply charge_gas_cases in Hc as [(? & _)|(e' & _ & Hs & Hl)]; [done|]. rewrite bool_decide_false by lia.
    by destruct Hs as [-> | ->].
Qed.
End host.
End HostFunctions.

(** ** vm.rs *)

Module Vm.

Definition MAX_MEMORY_BYTES : Z := 16 * 1024 * 1024.
Definition MAX_TABLE_ELEMENTS : Z := 10000.
Definition MAX_STORAGE_KEY_LEN : Z := 256.
Definition MAX_STORAGE_VAL_LEN : Z := 4096.
Definition MAX_LOG_DATA_LEN : Z := 4096.
Definition MAX_LOG_COUNT : Z := 100.
Definition MAX_RETURN_DATA_LEN : Z := 4096.
Definition MAX_STORAGE_ENTRIES : Z := 10000.
Definition I32_MAX : Z := 2147483647.

Record WasmVm := mkVm { vm_gas_limit : Z }.

Record ExecutionContext := mkContext {
  contract_address : Address;
  caller : Address;
  value : Z;
  ctx_gas_limit : Z;
  block_number : Z;
  timestamp : Z
}.

Record Log := mkLog { topics : list H256; log_data : list Z }.

Record ExecutionResult := mkResult {
  success : bool;
  gas_used : Z;
  return_data : list Z;
  logs : list Log;
  storage_changes : gmap (list Z) (list Z)
}.

Record HostState := mkHostState {
  h_storage : gmap (list Z) (list Z);
  h_logs : list Log;
  h_return : list Z;
  h_context : ExecutionContext
}.

(** The store: fuel, the exported memory (if there is one), the size of the
    table, and the host state the host functions share. *)
Record Store := mkStore {
  fuel : Z;
  memory : option (list Z);
  table : Z;
  host : HostState
}.

Definition set_fuel (f : Z) (s : Store) : Store := mkStore f s.(memory) s.(table) s.(host).
Definition set_memory (m : option (list Z)) (s : Store) : Store := mkStore s.(fuel) m s.(table) s.(host).
Definition set_table (n : Z) (s : Store) : Store := mkStore s.(fuel) s.(memory) n s.(host).
Definition set_host (h : HostState) (s : Store) : Store := mkStore s.(fuel) s.(memory) s.(table) h.

(** The resource limiter. *)
Definition memory_growing (current desired : Z) : bool := (desired <=? MAX_MEMORY_BYTES) && (current <=? desired).
Definition table_growing (current desired : Z) : bool := (desired <=? MAX_TABLE_ELEMENTS) && (current <=? desired).

(** *** The host functions

    Arguments are signed 32-bit integers. A result of -1 is an error; the guest
    goes on. *)

Definition len (l : list Z) : Z := Z.of_nat (length l).

(** The match on [caller.get_fuel()]: [None] when there is too little. *)
Definition charge (cost : Z) (s : Store) : option Store :=
  if cost <=? s.(fuel) then Some (set_fuel (saturating_sub s.(fuel) cost) s) else None.

(** [data[start..start + n]] after its bounds check. *)
Definition slice (start n : Z) (data : list Z) : option (list Z) :=
  match checked_add U64_MAX start n with
  | Some e => if e <=? len data then Some (take (Z.to_nat n) (drop (Z.to_nat start) data)) else None
  | None => None
  end.

(** [data[start..start + bs.len()].copy_from_slice(bs)] after its bounds check. *)
Definition write_at (start : Z) (bs data : list Z) : option (list Z) :=
  match checked_add U64_MAX start (len bs) with
  | Some e => if e <=? len data then Some (list_inserts (Z.to_nat start) bs data) else None
  | None => None
  end.

Definition storage_read (key_ptr key_len val_ptr : Z) (s : Store) : Store * Z :=
  match charge 200 s with None => (s, -1) | Some s =>
  if (key_ptr <? 0) || (key_len <? 0) || (val_ptr <? 0) then (s, -1) else
  if MAX_STORAGE_KEY_LEN <? key_len then (s, -1) else
  match s.(memory) with None => (s, -1) | Some data =>
  match slice key_ptr key_len data with None => (s, -1) | Some key =>
  match s.(host).(h_storage) !! key with
  | Some v =>
      match write_at val_ptr v data with
      | None => (s, -1)
      | Some data => (set_memory (Some data) s, len v)
      end
  | None => (s, 0)
  end end end end.

Definition storage_write (key_ptr key_len val_ptr val_len : Z) (s : Store) : Store * Z :=
  if (key_ptr <? 0) || (key_len <? 0) || (val_ptr <? 0) || (val_len <? 0) then (s, -1) else
  if (MAX_STORAGE_KEY_LEN <? key_len) || (MAX_STORAGE_VAL_LEN <? val_len) then (s, -1) else
  let val_cost := saturating_mul U64_MAX val_len 20 in
  let fuel_cost := saturating_add U64_MAX 5000 val_cost in
  match charge fuel_cost s with None => (s, -1) | Some s =>
  match s.(memory) with None => (s, -1) | Some data =>
  match slice key_ptr key_len data, slice val_ptr val_len data with
  | Some key, Some v =>
      let h := s.(host) in
      if (MAX_STORAGE_ENTRIES <=? Z.of_nat (size h.(h_storage))) && bool_decide (h.(h_storage) !! key = None)
      then (s, -1)
      else (set_host (mkHostState (<[key := v]> h.(h_storage)) h.(h_logs) h.(h_return) h.(h_context)) s, 0)
  | _, _ => (s, -1)
  end end end.

Definition emit_log (data_ptr data_len : Z) (s : Store) : Store * Z :=
  if (data_ptr <? 0) || (data_len <? 0) then (s, -1) else
  if MAX_LOG_DATA_LEN <? data_len then (s, -1) else
  let fuel_cost := saturating_add U64_MAX 375 (saturating_mul U64_MAX data_len 8) in
  match charge fuel_cost s with None => (s, -1) | Some s =>
  match s.(memory) with None => (s, -1) | Some data =>
  match slice data_ptr data_len data with None => (s, -1) | Some d =>
  let h := s.(host) in
  if MAX_LOG_COUNT <=? Z.of_nat (length h.(h_logs)) then (s, -1) else
  (set_host (mkHostState h.(h_storage) (h.(h_logs) ++ [mkLog [] d]) h.(h_return) h.(h_context)) s, 0)
  end end end.

Definition set_return (ptr n : Z) (s : Store) : Store * Z :=
  if (ptr <? 0) || (n <? 0) then (s, -1) else
  if MAX_RETURN_DATA_LEN <? n then (s, -1) else
  let fuel_cost := saturating_add U64_MAX 100 n in
  match charge fuel_cost s with None => (s, -1) | Some s =>
  match s.(memory) with None => (s, -1) | Some data =>
  match slice ptr n data with None => (s, -1) | Some d =>
  let h := s.(host) in
  (set_host (mkHostState h.(h_storage) h.(h_logs) d h.(h_context)) s, 0)
  end end end.

(** [x as i64] of a [u64]. *)
Definition as_i64 (x : Z) : Z := if x <? 2 ^ 63 then x else x - 2 ^ 64.

Inductive host_call :=
| StorageRead (key_ptr key_len val_ptr : Z)
| StorageWrite (key_ptr key_len val_ptr val_len : Z)
| EmitLog (data_ptr data_len : Z)
| SetReturn (ptr n : Z)
| BlockNumber
| Timestamp.

(** The imports [register_host_functions] links. *)
Definition dispatch (c : host_call) (s : Store) : Store * Z :=
  match c with
  | StorageRead kp kl vp => storage_read kp kl vp s
  | StorageWrite kp kl vp vl => storage_write kp kl vp vl s
  | EmitLog p n => emit_log p n s
  | SetReturn p n => set_return p n s
  | BlockNumber => (s, as_i64 s.(host).(h_context).(block_number))
  | Timestamp => (s, as_i64 s.(host).(h_context).(timestamp))
  end.

(** *** Guest code *)

Inductive guest :=
| Return (code : Z)
| Trap (out_of_fuel : bool)
| Burn (n : Z) (k : guest)
| Load (k : list Z → guest)
| Save (offset : Z) (bs : list Z) (k : guest)
| MemoryGrow (pages : Z) (k : Z → guest)
| TableGrow (n : Z) (k : Z → guest)
| Host (c : host_call) (k : Z → guest).

(** A compiled module: the initial memory with its data segments, the initial
    table, the start function and the exported entry points of the right type. *)
Record wasm_module := mkModule {
  m_memory : option (list Z);
  m_table : Z;
  m_start : option guest;
  m_execute : option (Z → Z → guest);
  m_main : option guest;
  m_wasi_start : option guest
}.

(** Compilation. *)
Class Wasmtime := { compile : list Z → result error wasm_module }.

(** A call into the guest: [inl] its result, [inr] the trap (whether it is the
    one of exhausted fuel). *)
Fixpoint run (g : guest) (s : Store) : Store * (Z + bool) :=
  match g with
  | Return code => (s, inl code)
  | Trap oof => (s, inr oof)
  | Burn n k => match charge (Z.max 0 n) s with Some s => run k s | None => (set_fuel 0 s, inr true) end
  | Load k => run (k (default [] s.(memory))) s
  | Save off bs k =>
      match s.(memory) ≫= write_at off bs with
      | Some data => run k (set_memory (Some data) s)
      | None => (s, inr false)
      end
  | MemoryGrow pages k =>
      match s.(memory) with
      | Some data =>
          let desired := len data + Z.max 0 pages * 65536 in
          if memory_growing (len data) desired
          then run (k (len data / 65536)) (set_memory (Some (data ++ replicate (Z.to_nat (Z.max 0 pages * 65536)) 0)) s)
          else run (k (-1)) s
      | None => (s, inr false)
      end
  | TableGrow n k =>
      let desired := s.(table) + Z.max 0 n in
      if table_growing s.(table) desired then run (k s.(table)) (set_table desired s) else run (k (-1)) s
  | Host c k => let '(s, r) := dispatch c s in run (k r) s
  end.

(** *** [WasmVm::execute] *)

Definition WASM_MAGIC : list Z := [0; 97; 115; 109].

(** [linker.instantiate]: the limiter is asked for the initial memory and
    table, then the start function runs. *)
Definition instantiate (m : wasm_module) (s : Store) : Store * result error unit :=
  if negb (from_option (λ d, memory_growing 0 (len d)) true m.(m_memory)) then (s, Err (Msg "memory minimum size exceeds limits")) else
  if negb (table_growing 0 m.(m_table)) then (s, Err (Msg "table minimum size exceeds limits")) else
  let s := set_table m.(m_table) (set_memory m.(m_memory) s) in
  match m.(m_start) with
  | None => (s, Ok tt)
  | Some g => match run g s with (s, inl _) => (s, Ok tt) | (s, inr _) => (s, Err (Msg "wasm trap")) end
  end.

Definition write_input (input : list Z) (s : Store) : Store :=
  match s.(memory) with
  | Some data => if len input <=? len data then set_memory (Some (list_inserts 0 input data)) s else s
  | None => s
  end.

Definition clear_host (s : Store) : Store :=
  set_host (mkHostState ∅ [] [] s.(host).(h_context)) s.

(** An entry point without arguments that returns a code. *)
Definition call_main (m : wasm_module) (s : Store) : Store * bool :=
  match m.(m_main) with
  | Some g => match run g s with (s, inl r) => (s, r =? 0) | (s, inr _) => (s, false) end
  | None => (s, false)
  end.

Definition call_entry (m : wasm_module) (input_len : Z) (s : Store) : Store * result error bool :=
  match m.(m_execute) with
  | Some f =>
      if I32_MAX <? input_len then (s, Err (Fmt "input too large for WASM (max {} bytes)" [I32_MAX])) else
      match run (f 0 input_len) s with
      | (s, inl result_code) => (s, Ok (result_code =? 0))
      | (s, inr true) => (s, Ok false)
      | (s, inr false) => let '(s, b) := call_main m (clear_host s) in (s, Ok b)
      end
  | None =>
      match m.(m_main) with
      | Some _ => let '(s, b) := call_main m s in (s, Ok b)
      | None =>
          match m.(m_wasi_start) with
          | Some g => match run g s with (s, inl _) => (s, Ok true) | (s, inr _) => (s, Ok false) end
          | None => (s, Ok false)
          end
      end
  end.

Definition execute `{Wasmtime} (vm : WasmVm) (wasm_bytes : list Z) (context : ExecutionContext) (input : list Z) :
    result error ExecutionResult :=
  bail_if (vm.(vm_gas_limit) <? context.(ctx_gas_limit))
    (Fmt "context gas_limit {} exceeds VM cap {}" [context.(ctx_gas_limit); vm.(vm_gas_limit)]);;
  bail_if ((len wasm_bytes <? 4) || negb (bool_decide (take 4 wasm_bytes = WASM_MAGIC))) (Msg "invalid WASM magic number");;
  bail_if (1024 * 1024 <? len wasm_bytes) (Msg "WASM module too large (max 1MB)");;
  m ← compile wasm_bytes;
  let store := mkStore context.(ctx_gas_limit) None 0 (mkHostState ∅ [] [] context) in
  let '(store, r) := instantiate m store in
  _ ← r;
  let '(store, r) := call_entry m (len input) (write_input input store) in
  ok ← r;
  let gas_used := saturating_sub context.(ctx_gas_limit) store.(fuel) in
  mret (mkResult ok gas_used store.(host).(h_return) store.(host).(h_logs) store.(host).(h_storage)).

(** *** Resource bounds *)

Definition memory_ok (m : option (list Z)) : Prop := from_option (λ d, len d ≤ MAX_MEMORY_BYTES) True m.

Record host_ok (h : HostState) : Prop := {
  ok_entries : Z.of_nat (size h.(h_storage)) ≤ MAX_STORAGE_ENTRIES;
  ok_sizes : map_Forall (λ k v, len k ≤ MAX_STORAGE_KEY_LEN ∧ len v ≤ MAX_STORAGE_VAL_LEN) h.(h_storage);
  ok_log_count : Z.of_nat (length h.(h_logs)) ≤ MAX_LOG_COUNT;
  ok_logs : Forall (λ l, len l.(log_data) ≤ MAX_LOG_DATA_LEN) h.(h_logs);
  ok_return : len h.(h_return) ≤ MAX_RETURN_DATA_LEN
}.

Record store_ok (s : Store) : Prop := {
  ok_fuel : 0 ≤ s.(fuel);
  ok_memory : memory_ok s.(memory);
  ok_table : s.(table) ≤ MAX_TABLE_ELEMENTS;
  ok_host : host_ok s.(host)
}.

(** A step keeps the bounds and the context and never adds fuel. *)
Definition bounded_step (s s' : Store) : Prop :=
  (store_ok s → store_ok s') ∧ s'.(fuel) ≤ s.(fuel) ∧ s'.(host).(h_context) = s.(host).(h_context).

Lemma charge_Some c s s' : charge c s = Some s' ↔ c ≤ s.(fuel) ∧ s' = set_fuel (Z.max 0 (s.(fuel) - c)) s.
Proof. unfold charge, saturating_sub. destruct (Z.leb_spec c s.(fuel)); naive_solver lia. Qed.

Lemma slice_Some start n data d : 0 ≤ start → 0 ≤ n → slice start n data = Some d →
  d = take (Z.to_nat n) (drop (Z.to_nat start) data) ∧ start + n ≤ len data ∧ len d = n.
Proof.
  unfold slice, len. intros Hs Hn. destruct (checked_add _ _ _) eqn:E; [|done]. clean_ints. subst.
  destruct (Z.leb_spec (start + n) (Z.of_nat (length data))); [|done]. intros [= <-]. split; [done|].
  split; [done|]. rewrite length_take, length_drop. lia.
Qed.

Lemma write_at_Some start bs data d : write_at start bs data = Some d →
  d = list_inserts (Z.to_nat start) bs data ∧ start + len bs ≤ len data ∧ len d = len data.
Proof.
  unfold write_at. destruct (checked_add _ _ _) eqn:E; [|done]. clean_ints. subst.
  destruct (Z.leb_spec (start + len bs) (len data)); [|done]. intros [= <-]. split_and!; [done..|].
  unfold len. by rewrite length_inserts.
Qed.

Lemma bounded_step_trans s1 s2 s3 : bounded_step s1 s2 → bounded_step s2 s3 → bounded_step s1 s3.
Proof. intros (A1 & B1 & C1) (A2 & B2 & C2). split_and!; [auto|lia|congruence]. Qed.

Lemma bounded_charge c s s' : 0 ≤ c → charge c s = Some s' → bounded_step s s'.
Proof.
  intros Hc [Hle ->]%charge_Some. split_and!; [|cbn; lia|done]. intros [? ? ? ?]. split; cbn; try done. lia.
Qed.

Lemma bounded_refl s : bounded_step s s.
Proof. by split_and!. Qed.

Lemma bounded_memory s d : (store_ok s → len d ≤ MAX_MEMORY_BYTES) → bounded_step s (set_memory (Some d) s).
Proof. intros Hd. split_and!; [|done..]. intros Hs. pose proof (Hd Hs). destruct Hs. by split. Qed.

Lemma bounded_host s h : h.(h_context) = s.(host).(h_context) → (host_ok s.(host) → host_ok h) → bounded_step s (set_host h s).
Proof. intros Hc Hh. split_and!; [|done..]. intros [? ? ? ?]. split; cbn; auto. Qed.

Lemma store_memory_len s d : store_ok s → s.(memory) = Some d → len d ≤ MAX_MEMORY_BYTES.
Proof. intros [_ Hm _ _] E. by rewrite E in Hm. Qed.

Lemma storage_read_bounded kp kl vp s : bounded_step s (storage_read kp kl vp s).1.
Proof.
  unfold storage_read. destruct (charge 200 s) as [s1|] eqn:Hc; [|apply bounded_refl].
  apply bounded_charge in Hc; [|lia]. apply (bounded_step_trans s s1); [done|].
  repeat (case_match; try apply bounded_refl). apply bounded_memory. intros Hs.
  match goal with H : write_at _ _ _ = Some _ |- _ => apply write_at_Some in H as (_ & _ & ->) end.
  by eapply store_memory_len.
Qed.

Lemma storage_write_bounded kp kl vp vl s : bounded_step s (storage_write kp kl vp vl s).1.
Proof.
  unfold storage_write. destruct (_ || _ || _ || _) eqn:E1; [apply bounded_refl|].
  destruct ((MAX_STORAGE_KEY_LEN <? kl) || _) eqn:E2; [apply bounded_refl|]. clean_ints. cbv zeta.
  destruct (charge _ s) as [s1|] eqn:Hc; [|apply bounded_refl].
  apply bounded_charge in Hc; [|ulia]. apply (bounded_step_trans s s1); [done|].
  destruct (memory s1) as [data|]; [|apply bounded_refl].
  destruct (slice kp kl data) as [k|] eqn:Hk; [|apply bounded_refl].
  destruct (slice vp vl data) as [v|] eqn:Hv; [|apply bounded_refl].
  apply slice_Some in Hk as (_ & _ & Hk), Hv as (_ & _ & Hv); [|lia..].
  destruct (_ && _) eqn:E3; [apply bounded_refl|]. apply bounded_host; [done|]. intros [A1 A2 A3 A4 A5]. split; cbn; try done.
  - rewrite map_size_insert. destruct (h_storage (host s1) !! k) eqn:El; [done|].
    apply andb_false_iff in E3 as [E3|E3]; clean_ints; [lia|done].
  - apply map_Forall_insert_2; [lia|done].
Qed.

Lemma emit_log_bounded p n s : bounded_step s (emit_log p n s).1.
Proof.
  unfold emit_log. destruct (_ || _) eqn:E1; [apply bounded_refl|].
  destruct (MAX_LOG_DATA_LEN <? n) eqn:E2; [apply bounded_refl|]. clean_ints. cbv zeta.
  destruct (charge _ s) as [s1|] eqn:Hc; [|apply bounded_refl].
  apply bounded_charge in Hc; [|ulia]. apply (bounded_step_trans s s1); [done|].
  destruct (memory s1) as [data|]; [|apply bounded_refl].
  destruct (slice p n data) as [d|] eqn:Hd; [|apply bounded_refl]. apply slice_Some in Hd as (_ & _ & Hd); [|lia..].
  destruct (_ <=? _) eqn:E3; [apply bounded_refl|]. clean_ints.
  apply bounded_host; [done|]. intros [A1 A2 A3 A4 A5]. split; cbn; try done.
  - rewrite length_app. cbn. lia.
  - apply Forall_app. split; [done|]. constructor; [cbn; lia|done].
Qed.

Lemma set_return_bounded p n s : bounded_step s (set_return p n s).1.
Proof.
  unfold set_return. destruct (_ || _) eqn:E1; [apply bounded_refl|].
  destruct (MAX_RETURN_DATA_LEN <? n) eqn:E2; [apply bounded_refl|]. clean_ints. cbv zeta.
  destruct (charge _ s) as [s1|] eqn:Hc; [|apply bounded_refl].
  apply bounded_charge in Hc; [|ulia]. apply (bounded_step_trans s s1); [done|].
  destruct (memory s1) as [data|]; [|apply bounded_refl].
  destruct (slice p n data) as [d|] eqn:Hd; [|apply bounded_refl]. apply slice_Some in Hd as (_ & _ & Hd); [|lia..].
  apply bounded_host; [done|]. intros [A1 A2 A3 A4 A5]. split; cbn; try done. lia.
Qed.

Lemma dispatch_bounded c s : bounded_step s (dispatch c s).1.
Proof.
  destruct c; cbn [dispatch];
    eauto using storage_read_bounded, storage_write_bounded, emit_log_bounded, set_return_bounded, bounded_refl.
Qed.

Lemma run_bounded g s : store_ok s → bounded_step s (run g s).1.
Proof.
  revert s. induction g as [code|oof|n k IH|k IH|off bs k IH|pages k IH|n k IH|c k IH]; intros s Hs; cbn [run];
    try apply bounded_refl.
  - destruct (charge _ s) as [s1|] eqn:Hc.
    + apply bounded_charge in Hc; [|lia]. eapply bounded_step_trans; [exact Hc|]. by apply IH, Hc.
    + split_and!; [|destruct Hs; cbn; lia|done]. intros [? ? ? ?]. by split.
  - by apply IH.
  - destruct (s.(memory)) as [d|] eqn:Em; cbn; [|apply bounded_refl].
    destruct (write_at off bs d) as [d'|] eqn:Hw; [|apply bounded_refl].
    apply write_at_Some in Hw as (_ & _ & Hl).
    assert (Hb : bounded_step s (set_memory (Some d') s)).
    { apply bounded_memory. intros _. rewrite Hl. by eapply store_memory_len. }
    eapply bounded_step_trans; [exact Hb|]. by apply IH, Hb.
  - destruct (s.(memory)) as [d|] eqn:Em; [|apply bounded_refl].
    destruct (memory_growing _ _) eqn:Eg; [|by apply IH]. unfold memory_growing in Eg. clean_ints.
    match goal with |- context [set_memory (Some ?d') s] => assert (Hb : bounded_step s (set_memory (Some d') s)) end.
    { apply bounded_memory. intros _. unfold len in *. rewrite length_app, length_replicate. lia. }
    eapply bounded_step_trans; [exact Hb|]. by apply IH, Hb.
  - destruct (table_growing _ _) eqn:Eg; [|by apply IH]. unfold table_growing in Eg. clean_ints.
    assert (Hb : bounded_step s (set_table (s.(table) + Z.max 0 n) s)).
    { split_and!; [|done..]. intros [? ? ? ?]. by split. }
    eapply bounded_step_trans; [exact Hb|]. by apply IH, Hb.
  - pose proof (dispatch_bounded c s) as Hb. destruct (dispatch c s) as [s1 r].
    eapply bounded_step_trans; [exact Hb|]. by apply IH, Hb.
Qed.

Lemma instantiate_bounded m s : store_ok s → bounded_step s (instantiate m s).1.
Proof.
  intros Hs. unfold instantiate. destruct (from_option _ _ _) eqn:Em; [|apply bounded_refl]. cbn.
  destruct (table_growing _ _) eqn:Et; [|apply bounded_refl]. cbn. unfold table_growing, memory_growing in *. clean_ints.
  assert (Hb : bounded_step s (set_table m.(m_table) (set_memory m.(m_memory) s))).
  { split_and!; [|done..]. intros [? ? ? ?]. split; cbn; try done. destruct (m_memory m); cbn in *; clean_ints; done. }
  destruct (m_start m) as [g|]; [|done].
  pose proof (run_bounded g _ (proj1 Hb Hs)) as Hr. destruct (run g _) as [s1 [?|?]]; by eapply bounded_step_trans.
Qed.

Lemma call_main_bounded m s : store_ok s → bounded_step s (call_main m s).1.
Proof.
  intros Hs. unfold call_main. destruct (m_main m) as [g|]; [|apply bounded_refl].
  pose proof (run_bounded g s Hs). by destruct (run g s) as [s1 [?|?]].
Qed.

Lemma clear_host_bounded s : bounded_step s (clear_host s).
Proof. apply bounded_host; [done|]. intros _. by split. Qed.

Lemma call_entry_bounded m n s : store_ok s → bounded_step s (call_entry m n s).1.
Proof.
  intros Hs. unfold call_entry. destruct (m_execute m) as [f|].
  - destruct (_ <? _); [apply bounded_refl|]. pose proof (run_bounded (f 0 n) s Hs) as Hr.
    destruct (run (f 0 n) s) as [s1 [?|[|]]]; [done..|]. cbn in Hr.
    pose proof (bounded_step_trans _ _ _ Hr (clear_host_bounded s1)) as Hc.
    pose proof (call_main_bounded m _ (proj1 Hc Hs)) as Hm. destruct (call_main m _) as [s2 b].
    by eapply bounded_step_trans.
  - destruct (m_main m) eqn:Em; [pose proof (call_main_bounded m s Hs); by destruct (call_main m s)|].
    destruct (m_wasi_start m) as [g|]; [|apply bounded_refl].
    pose proof (run_bounded g s Hs). by destruct (run g s) as [s1 [?|?]].
Qed.

Lemma write_input_bounded input s : bounded_step s (write_input input s).
Proof.
  unfold write_input. destruct (memory s) as [d|] eqn:Em; [|apply bounded_refl].
  destruct (_ <=? _); [|apply bounded_refl]. apply bounded_memory. intros Hs. unfold len. rewrite length_inserts.
  by eapply store_memory_len.
Qed.

(** C20: Whatever a module's code does, an execution that returns a result
    has used no more gas than the context allows, which is at most the machine's
    cap, and what it returns is bounded: the return data, the number and size of
    the logs, and the number and sizes of the storage changes. *)
Theorem execution_bounded `{Wasmtime} (vm : WasmVm) (code : list Z) (ctx : ExecutionContext) (input : list Z) (r : ExecutionResult) :
  0 ≤ ctx.(ctx_gas_limit) → execute vm code ctx input = Ok r →
  0 ≤ r.(gas_used) ≤ ctx.(ctx_gas_limit) ∧ ctx.(ctx_gas_limit) ≤ vm.(vm_gas_limit) ∧
  host_ok (mkHostState r.(storage_changes) r.(logs) r.(return_data) ctx).
Proof.
  intros Hg He. unfold execute in He. apply res_bail_Ok in He as [Hcap He].
  apply res_bail_Ok in He as [_ He]. apply res_bail_Ok in He as [_ He]. apply res_bind_Ok in He as (m & _ & He).
  set (s0 := mkStore _ _ _ _) in He.
  assert (H0 : store_ok s0).
  { split; [done..|by split]. }
  pose proof (instantiate_bounded m s0 H0) as Hi. destruct (instantiate m s0) as [s1 r1]. cbn in Hi.
  apply res_bind_Ok in He as (_ & _ & He).
  pose proof (bounded_step_trans _ _ _ Hi (write_input_bounded input s1)) as Hw.
  pose proof (call_entry_bounded m (len input) _ (proj1 Hw H0)) as Hc.
  destruct (call_entry m (len input) (write_input input s1)) as [s2 r2]. cbn in Hc.
  pose proof (bounded_step_trans _ _ _ Hw Hc) as (Hok & Hfuel & _). cbn in Hfuel.
  apply res_bind_Ok in He as (ok & _ & [= <-]). destruct (Hok H0) as [Hf _ _ [? ? ? ? ?]]. clean_ints.
  split_and!; [cbn; ulia..|]. by split.
Qed.

(** *** Host calls *)

(** A host call that returns an error has changed neither the memory
    nor the host state; only its fuel may be gone. *)
Theorem failed_host_call_atomic (c : host_call) (s s' : Store) :
  dispatch c s = (s', -1) → s' = set_fuel s'.(fuel) s ∧ (0 ≤ s.(fuel) → 0 ≤ s'.(fuel) ≤ s.(fuel)).
Proof.
  assert (Hrefl : ∀ t, t = set_fuel t.(fuel) t) by (by intros []).
  assert (Hch : ∀ n t t', 0 ≤ n → charge n t = Some t' → t' = set_fuel t'.(fuel) t ∧ (0 ≤ t.(fuel) → 0 ≤ t'.(fuel) ≤ t.(fuel))).
  { intros n t t' Hn [Hle ->]%charge_Some. split; [done|]. cbn. lia. }
  assert (Hlen : ∀ l : list Z, len l ≠ -1) by (unfold len; lia).
  destruct c; cbn [dispatch]; unfold storage_read, storage_write, emit_log, set_return; cbv zeta; intros E.
  all: repeat (case_match; try done); apply pair_eq in E as [<- E]; try done; try (by exfalso; eapply Hlen); clean_ints.
  all: try (split; [apply Hrefl|lia]).
  all: match goal with H : charge _ _ = Some _ |- _ => apply Hch in H; [exact H|ulia] end.
Qed.

Lemma slice_inserts start bs data : 0 ≤ start → start + len bs ≤ len data → len data ≤ U64_MAX →
  slice start (len bs) (list_inserts (Z.to_nat start) bs data) = Some bs.
Proof.
  intros Hs Hb Hu. unfold slice, checked_add.
  rewrite (proj2 (Z.leb_le _ U64_MAX)) by lia. unfold len in *. rewrite length_inserts.
  rewrite (proj2 (Z.leb_le _ (Z.of_nat (length data)))) by lia. f_equal. rewrite Nat2Z.id.
  apply list_eq. intros i. destruct (decide (i < length bs)%nat).
  - rewrite lookup_take_lt by done. rewrite lookup_drop, list_lookup_inserts by lia. f_equal. lia.
  - rewrite !lookup_ge_None_2; [done|lia|]. rewrite length_take. lia.
Qed.

(** What a contract has written it reads back: after a successful
    [storage_write], a [storage_read] of the same key with fuel left returns the
    length of the value and puts the value at the address it is given. *)
Theorem storage_read_after_write (kp kl vp vl tp : Z) (s s1 s2 : Store) (r : Z) (data v : list Z) :
  store_ok s → storage_write kp kl vp vl s = (s1, 0) → 200 ≤ s1.(fuel) →
  s.(memory) = Some data → slice vp vl data = Some v → 0 ≤ tp → tp + vl ≤ len data →
  storage_read kp kl tp s1 = (s2, r) →
  r = vl ∧ s2.(host) = s1.(host) ∧ s2.(memory) ≫= slice tp vl = Some v.
Proof.
  intros Hok Hw Hf Hm Hv Ht Hb Hr. pose proof (store_memory_len s data Hok Hm) as Hmax.
  unfold storage_write in Hw. repeat (case_match; simplify_eq/=); clean_ints.
  match goal with H : charge _ s = Some ?t |- _ => apply charge_Some in H as [_ ->] end. cbn in *. simplify_eq.
  match goal with H : slice kp kl _ = Some ?k |- _ => rename k into key; rename H into Hk end.
  unfold storage_read in Hr. destruct (charge 200 _) as [s3|] eqn:Hc; [|unfold charge in Hc; cbn in Hc; case_match; clean_ints; [done|lia]].
  match goal with H : memory s = Some ?d, H' : slice vp vl ?d = Some ?w |- _ =>
    rename d into data; rename w into v; rename H into Hm; rename H' into Hv end.
  apply charge_Some in Hc as [_ ->]. cbn in Hr. rewrite Hm in Hr.
  rewrite (proj2 (Z.ltb_ge kp 0)), (proj2 (Z.ltb_ge kl 0)), (proj2 (Z.ltb_ge tp 0)) in Hr by done. cbn in Hr.
  rewrite (proj2 (Z.ltb_ge MAX_STORAGE_KEY_LEN kl)), Hk, lookup_insert_eq in Hr by done.
  apply slice_Some in Hv as (_ & _ & Hlv); [|done..].
  destruct (write_at tp v data) as [d|] eqn:Hwa; cycle 1.
  { exfalso. unfold write_at, checked_add in Hwa. rewrite (proj2 (Z.leb_le _ U64_MAX)) in Hwa by (unfold MAX_MEMORY_BYTES in *; ulia).
    rewrite (proj2 (Z.leb_le _ (len data))) in Hwa by lia. done. }
  injection Hr as <- <-. split_and!; [done|done|]. cbn. apply write_at_Some in Hwa as (-> & _).
  rewrite <- Hlv. apply slice_inserts; [done|lia|unfold MAX_MEMORY_BYTES in *; ulia].
Qed.

(** *** Concrete runs *)

(** Modules written as trees: one that emits a log and stores the first bytes
    of its memory, then returns a code, and one that traps. *)
Definition writing_module (code : Z) : wasm_module :=
  mkModule (Some [1; 2; 3; 4]) 0 None
    (Some (λ _ _, Burn 10 (Host (StorageWrite 0 1 1 2) (λ _, Host (EmitLog 0 2) (λ _, Host (SetReturn 0 3) (λ _, Return code))))))
    None None.

#[local] Instance demo_wasmtime : Wasmtime :=
  { compile bs := if bool_decide (bs = WASM_MAGIC) then Ok (writing_module 0) else Ok (writing_module 1) }.

Definition demo_context : ExecutionContext := mkContext 1 2 0 10000 5 6.

Lemma execution_bounded_witness :
  ∃ r, execute (mkVm 50000) WASM_MAGIC demo_context [9] = Ok r ∧
    (0 ≤ r.(gas_used) ≤ 10000 ∧ 10000 ≤ 50000 ∧
     host_ok (mkHostState r.(storage_changes) r.(logs) r.(return_data) demo_context)).
Proof.
  eexists. split; [vm_compute; reflexivity|].
  apply (execution_bounded (mkVm 50000) WASM_MAGIC demo_context [9]); [done|vm_compute; reflexivity].
Defined.

Definition demo_store (f : Z) : Store := mkStore f (Some [1; 2; 3; 4]) 0 (mkHostState ∅ [] [] demo_context).

Lemma failed_host_call_atomic_witness :
  let s' := set_fuel 9625 (demo_store 10000) in
  s' = set_fuel s'.(fuel) (demo_store 10000) ∧ (0 ≤ 10000 → 0 ≤ s'.(fuel) ≤ 10000).
Proof.
  apply (failed_host_call_atomic (EmitLog 7 0) (demo_store 10000)). vm_compute. reflexivity.
Defined.

Lemma storage_read_after_write_witness :
  ∃ s1 s2, storage_write 0 1 1 2 (demo_store 10000) = (s1, 0) ∧
    (2 = 2 ∧ s2.(host) = s1.(host) ∧ s2.(memory) ≫= slice 2 2 = Some [2; 3]).
Proof.
  eexists _, _. split; [vm_compute; reflexivity|].
  eapply (storage_read_after_write 0 1 1 2 2 (demo_store 10000) _ _ _ [1; 2; 3; 4] [2; 3]);
    try (vm_compute; reflexivity); try (vm_compute; discriminate).
  split; [done..|by split].
Defined.

(** A run that fails (here with code 1) still returns the storage
    changes, logs and return data it made: nothing in the result is rolled back,
    only the flag tells. *)
Theorem failed_run_keeps_changes :
  ∃ r, execute (mkVm 50000) (WASM_MAGIC ++ [1]) demo_context [9] = Ok r ∧ r.(success) = false ∧
    r.(storage_changes) !! [9] = Some [2; 3] ∧ r.(logs) = [mkLog [] [9; 2]] ∧ r.(return_data) = [9; 2; 3].
Proof. eexists. split; [vm_compute; reflexivity|]. vm_compute. done. Qed.
End Vm.

(** *** Concrete transfers *)

From S2P Require Import Toy.

Module HostDemo.
Import HostFunctions.

Definition demo_host (m : gmap Address Z) : HostFunctions :=
  mkHost ∅ m 0 100000 (mkContext 1 2 3 4).

Definition with_funds : HostFunctions := demo_host {[1%N := 50; 2%N := 7]}.

Lemma gas_metered_witness : metered with_funds (set_gas 200 with_funds) true.
Proof. apply (gas_metered (CRead [1])). reflexivity. Defined.

Lemma transfer_effect_witness :
  let s' := (transfer 1 1 10 with_funds).1 in balance_of 1 s' = 60 ∧ supply s' = supply with_funds + 10.
Proof. apply (transfer_effect 1 1 10 with_funds _ (Ok tt)). vm_compute. reflexivity. Defined.
End HostDemo.
