(* ===== verification/Kes.v ===== *)
(** * Key-evolving signatures

    [crates/crypto/kes/src]: a tree of Ed25519 keys of which one leaf is active
    in each period and earlier ones are erased ([evolution.rs]), and the
    verification of its signatures ([signature.rs]). The curve is the classes
    [Dalek] and [DalekSigner]; random keys are arguments. A 32-byte array is
    the integer of its bytes. The ceiling of the logarithm, computed in floating
    point, is exact for 32-bit integers. *)

From S2P Require Import Prelude.
From S2P Require Import Transaction.
From S2P Require Import Merkle.

Module Kes.
Section kes.
Context `{Digest, DalekSigner}.

(** [Panic] stands for an index out of range. *)
Inductive KesError :=
| PeriodOutOfRange (requested max_periods : Z)
| PeriodRegression (current requested : Z)
| KeyErased (period : Z)
| Panic.

Record KesSignature := mkKesSignature {
  period : Z;
  signature : list Z;
  leaf_pubkey : H256;
  auth_path : list H256
}.

Record KesVerificationKey := mkKesVk { vk_root : H256; vk_max_periods : Z }.

Record KesKey := mkKes {
  leaves : list (option H256);
  leaf_pubkeys : list H256;
  root : H256;
  current_period : Z;
  depth : Z
}.

(** *** The tree *)

Definition leaf_input (pk : H256) : list Z := [0] ++ as_bytes 32 pk.
Definition node_input (l r : H256) : list Z := [1] ++ as_bytes 32 l ++ as_bytes 32 r.
Definition leaf_hash (pk : H256) : H256 := sha256_digest (leaf_input pk).
Definition node_hash (l r : H256) : H256 := sha256_digest (node_input l r).

(** The loop over [current_level.chunks(2)]. *)
Fixpoint next_level (level : list H256) : list H256 :=
  match level with
  | [] => []
  | [a] => [node_hash a a]
  | a :: b :: level => node_hash a b :: next_level level
  end.

Fixpoint root_loop (fuel : nat) (current_level : list H256) : option H256 :=
  if (1 <? length current_level)%nat then
    match fuel with O => None | S fuel => root_loop fuel (next_level current_level) end
  else current_level !! 0%nat.

(** The levels get shorter, so the number of leaves is enough fuel. *)
Definition compute_merkle_root (pks : list H256) : option H256 :=
  root_loop (length pks) (leaf_hash <$> pks).

Fixpoint path_loop (fuel : nat) (current_level : list H256) (idx : nat) : option (list H256) :=
  if (1 <? length current_level)%nat then
    match fuel with
    | O => None
    | S fuel =>
        let sibling_idx := Nat.lxor idx 1 in
        sibling ← current_level !! (if (sibling_idx <? length current_level)%nat then sibling_idx else idx);
        path ← path_loop fuel (next_level current_level) (idx / 2)%nat;
        mret (sibling :: path)
    end
  else Some [].

Definition compute_auth_path (pks : list H256) (leaf_index : nat) : option (list H256) :=
  path_loop (length pks) (leaf_hash <$> pks) leaf_index.

(** The loop over the path. *)
Fixpoint climb (idx : nat) (current_hash : H256) (path : list H256) : H256 :=
  match path with
  | [] => current_hash
  | sibling :: path =>
      climb (idx / 2) (if (idx mod 2 =? 0)%nat then node_hash current_hash sibling
                       else node_hash sibling current_hash) path
  end.

(** [1 << n] of a [bits]-bit integer: the shift is taken modulo the width. *)
Definition one_shl (bits n : Z) : Z := 2 ^ (n mod bits).

Definition verify_auth_path (pk : H256) (leaf_index : Z) (path : list H256) (expected_root : H256) : bool :=
  if bool_decide (path = []) then false else
  let max_leaves := one_shl 64 (Z.of_nat (length path)) in
  if max_leaves <=? leaf_index then false else
  (climb (Z.to_nat leaf_index) (leaf_hash pk) path =? expected_root)%N.

(** *** Keys *)

Definition depth_for (max_periods : Z) : Z := Z.log2_up (Z.max max_periods 2).

(** A key from the secrets of its leaves; [None] is the panic of an empty tree. *)
Definition key_of (secret : nat → H256) (max_periods : Z) : option KesKey :=
  let depth := depth_for max_periods in
  let num_leaves := Z.to_nat (one_shl 32 depth) in
  let secrets := secret <$> seq 0 num_leaves in
  let pks := signing_public <$> secrets in
  root ← compute_merkle_root pks;
  mret (mkKes (Some <$> secrets) pks root 0 depth).

Definition generate (random : nat → H256) (max_periods : Z) : option KesKey := key_of random max_periods.

Definition KES_LEAF : list Z := [107; 101; 115; 45; 108; 101; 97; 102].
Definition leaf_seed (seed : H256) (i : nat) : H256 :=
  sha256_digest (as_bytes 32 seed ++ KES_LEAF ++ to_le_bytes 4 (Z.of_nat i)).
Definition from_seed (seed : H256) (max_periods : Z) : option KesKey := key_of (leaf_seed seed) max_periods.

Definition max_periods (k : KesKey) : Z := one_shl 32 k.(depth).

Definition verification_key (k : KesKey) : KesVerificationKey := mkKesVk k.(root) (max_periods k).

(** The keys of the periods from [i] on, [n] of them, are erased. *)
Fixpoint erase (n : nat) (i : nat) (ls : list (option H256)) : list (option H256) :=
  match n with O => ls | S n => erase n (S i) (<[i := None]> ls) end.

Definition evolve_to (target : Z) (k : KesKey) : KesKey :=
  mkKes (erase (Z.to_nat (target - k.(current_period))) (Z.to_nat k.(current_period)) k.(leaves))
    k.(leaf_pubkeys) k.(root) target k.(depth).

Definition sign (p : Z) (message : list Z) : M KesKey KesError KesSignature :=
  k ← get_state;
  bail_if (max_periods k <=? p) (PeriodOutOfRange p (max_periods k));;
  bail_if (p <? k.(current_period)) (PeriodRegression k.(current_period) p);;
  modify (evolve_to p);;
  k ← get_state;
  leaf ← ok_or (k.(leaves) !! Z.to_nat p) Panic;
  leaf_secret ← ok_or leaf (KeyErased p);
  path ← ok_or (compute_auth_path k.(leaf_pubkeys) (Z.to_nat p)) Panic;
  pk ← ok_or (k.(leaf_pubkeys) !! Z.to_nat p) Panic;
  mret (mkKesSignature p (dalek_sign leaf_secret message) pk path).

Definition verify (sig : KesSignature) (vk : KesVerificationKey) (message : list Z) : bool :=
  if vk.(vk_max_periods) <=? sig.(period) then false else
  let expected_depth := Z.log2_up vk.(vk_max_periods) in
  if negb (Z.of_nat (length sig.(auth_path)) =? expected_depth) then false else
  match vk_from_bytes (as_bytes 32 sig.(leaf_pubkey)) with
  | None => false
  | Some verifying_key =>
      if negb (length sig.(signature) =? 64)%nat then false else
      if negb (dalek_verify verifying_key message sig.(signature)) then false else
      verify_auth_path sig.(leaf_pubkey) sig.(period) sig.(auth_path) vk.(vk_root)
  end.

(** *** Levels of the tree *)

Lemma lxor_even k : Nat.lxor (2 * k) 1 = S (2 * k).
Proof.
  apply Nat.bits_inj. intros [|n]; rewrite Nat.lxor_spec.
  - rewrite Nat.testbit_even_0. replace (S (2 * k)) with (2 * k + 1)%nat by lia. by rewrite Nat.testbit_odd_0.
  - replace (S (2 * k)) with (2 * k + 1)%nat by lia. rewrite Nat.testbit_even_succ, Nat.testbit_odd_succ by lia.
    change (Nat.testbit 1 (S n)) with (Nat.testbit 0 n). by rewrite Nat.bits_0, xorb_false_r.
Qed.

Lemma lxor_odd k : Nat.lxor (S (2 * k)) 1 = (2 * k)%nat.
Proof. rewrite <- (lxor_even k), Nat.lxor_assoc, Nat.lxor_nilpotent. apply Nat.lxor_0_r. Qed.

Lemma next_level_lookup l k a b :
  l !! (2 * k)%nat = Some a → l !! S (2 * k) = Some b → next_level l !! k = Some (node_hash a b).
Proof.
  revert l. induction k as [|k IH]; intros l; destruct l as [|x [|y l]]; try done.
  - by intros [= ->] [= ->].
  - intros Ha Hb. cbn [next_level]. cbn [lookup list_lookup]. apply IH.
    + by replace (2 * S k)%nat with (S (S (2 * k))) in Ha by lia.
    + by replace (S (2 * S k)) with (S (S (S (2 * k)))) in Hb by lia.
Qed.

Lemma next_level_length l n : length l = (2 * n)%nat → length (next_level l) = n.
Proof.
  revert l. induction n as [|n IH]; intros l Hl; destruct l as [|x [|y l]]; cbn in *; try lia. f_equal. apply IH. lia.
Qed.

(** The value above position [idx], from it and its sibling. *)
Lemma level_step l n idx x : length l = (2 * n)%nat → l !! idx = Some x →
  ∃ s, l !! Nat.lxor idx 1 = Some s ∧ (Nat.lxor idx 1 < length l)%nat ∧
    next_level l !! (idx / 2)%nat = Some (if (idx mod 2 =? 0)%nat then node_hash x s else node_hash s x).
Proof.
  intros Hl Hx. pose proof (lookup_lt_Some _ _ _ Hx) as Hlt.
  destruct (Nat.Even_or_Odd idx) as [[k ->]|[k ->]].
  - replace (2 * k / 2)%nat with k by (apply (Nat.div_unique _ 2 k 0); lia).
    replace ((2 * k) mod 2)%nat with 0%nat by (apply (Nat.mod_unique _ 2 k 0); lia). rewrite lxor_even. cbn [Nat.eqb].
    destruct (lookup_lt_is_Some_2 l (S (2 * k)) ltac:(lia)) as [s Hs]. exists s. split_and!; [done|lia|].
    by apply next_level_lookup.
  - replace ((2 * k + 1) / 2)%nat with k by (apply (Nat.div_unique _ 2 k 1); lia).
    replace ((2 * k + 1) mod 2)%nat with 1%nat by (apply (Nat.mod_unique _ 2 k 1); lia).
    replace (2 * k + 1)%nat with (S (2 * k)) in * by lia. rewrite lxor_odd. cbn [Nat.eqb].
    destruct (lookup_lt_is_Some_2 l (2 * k)%nat ltac:(lia)) as [s Hs]. exists s. split_and!; [done|lia|].
    by apply next_level_lookup.
Qed.

Lemma tree_path d fuel l idx x : length l = (2 ^ d)%nat → (d ≤ fuel)%nat → l !! idx = Some x →
  ∃ path, path_loop fuel l idx = Some path ∧ length path = d ∧ root_loop fuel l = Some (climb idx x path).
Proof.
  revert fuel l idx x. induction d as [|d IH]; intros fuel l idx x Hl Hf Hx.
  - cbn in Hl. destruct l as [|y [|]]; try done. pose proof (lookup_lt_Some _ _ _ Hx) as Hi. cbn in Hi.
    assert (idx = 0%nat) as -> by lia. injection Hx as ->. exists []. by destruct fuel.
  - cbn in Hl. destruct fuel as [|fuel]; [lia|].
    destruct (level_step l (2 ^ d) idx x) as (s & Hs & Hlt & Hn); [lia|done|].
    assert (Hlen : length (next_level l) = (2 ^ d)%nat) by (apply next_level_length; lia).
    destruct (IH fuel (next_level l) (idx / 2)%nat _ Hlen ltac:(lia) Hn) as (path & Hp & Hpl & Hr).
    exists (s :: path). pose proof (Nat.pow_nonzero 2 d). cbn [path_loop root_loop].
    destruct (Nat.ltb_spec 1 (length l)); [|lia]. destruct (Nat.ltb_spec (Nat.lxor idx 1) (length l)); [|lia].
    rewrite Hs. cbv beta iota delta [mbind option_bind mret option_ret]. rewrite Hp. split_and!; [done|cbn; by f_equal|done].
Qed.

(** *** Keys in use *)

Record key_wf (k : KesKey) : Prop := {
  wf_depth : 1 ≤ k.(depth) < 32;
  wf_period : 0 ≤ k.(current_period) < max_periods k;
  wf_pubkeys : Z.of_nat (length k.(leaf_pubkeys)) = max_periods k;
  wf_leaves : length k.(leaves) = length k.(leaf_pubkeys);
  wf_root : compute_merkle_root k.(leaf_pubkeys) = Some k.(root);
  wf_erased : ∀ i, (i < Z.to_nat k.(current_period))%nat → k.(leaves) !! i = Some None;
  wf_active : ∀ i pk, (Z.to_nat k.(current_period) ≤ i)%nat → k.(leaf_pubkeys) !! i = Some pk →
    ∃ sk, k.(leaves) !! i = Some (Some sk) ∧ pk = signing_public sk
}.

Lemma max_periods_pow k : key_wf k → max_periods k = 2 ^ k.(depth).
Proof. intros [Hd _ _ _ _ _ _]. unfold max_periods, one_shl. by rewrite Z.mod_small by lia. Qed.

Lemma leaves_pow k : key_wf k → length k.(leaf_pubkeys) = (2 ^ Z.to_nat k.(depth))%nat.
Proof.
  intros Hk. pose proof (max_periods_pow k Hk) as Hp. destruct Hk as [Hd _ Hl _ _ _ _].
  apply Nat2Z.inj. rewrite Hl, Hp, Nat2Z.inj_pow, Z2Nat.id by lia. done.
Qed.

Lemma erase_lookup n i ls j : erase n i ls !! j =
  if decide (i ≤ j < i + n)%nat then (λ _, None) <$> ls !! j else ls !! j.
Proof.
  revert i ls. induction n as [|n IH]; intros i ls; cbn [erase].
  - case_decide; [lia|done].
  - rewrite IH. destruct (decide (i = j)) as [->|Hij].
    + rewrite (decide_False (P := (S j ≤ j < S j + n)%nat)), (decide_True (P := (j ≤ j < j + S n)%nat)) by lia.
      rewrite list_lookup_insert. destruct (ls !! j) eqn:E; cbn.
      * apply lookup_lt_Some in E. by rewrite decide_True.
      * apply lookup_ge_None in E. rewrite decide_False by lia. done.
    + rewrite list_lookup_insert_ne by done. repeat case_decide; done || lia.
Qed.

Lemma length_erase n i ls : length (erase n i ls) = length ls.
Proof. revert i ls. induction n as [|n IH]; intros; cbn; [done|]. by rewrite IH, length_insert. Qed.

Lemma evolve_wf p k : key_wf k → k.(current_period) ≤ p < max_periods k → key_wf (evolve_to p k).
Proof.
  intros [A1 A2 A3 A4 A5 A6 A7] Hp. split; try done.
  - cbn. change (max_periods (evolve_to p k)) with (max_periods k). lia.
  - cbn. by rewrite length_erase.
  - intros i Hi. cbn in *. rewrite erase_lookup. case_decide.
    + destruct (lookup_lt_is_Some_2 k.(leaves) i) as [x ->]; [lia|done].
    + apply A6. lia.
  - intros i pk Hi Hpk. cbn in *. rewrite erase_lookup, decide_False by lia. apply A7; [lia|done].
Qed.

Lemma active_path k i pk : key_wf k → k.(leaf_pubkeys) !! i = Some pk →
  ∃ path, compute_auth_path k.(leaf_pubkeys) i = Some path ∧ length path = Z.to_nat k.(depth) ∧
    climb i (leaf_hash pk) path = k.(root).
Proof.
  intros Hk Hpk. pose proof (leaves_pow k Hk) as Hl.
  assert (Hf : (Z.to_nat k.(depth) ≤ length k.(leaf_pubkeys))%nat).
  { rewrite Hl. apply Nat.lt_le_incl, Nat.pow_gt_lin_r. lia. }
  destruct (tree_path (Z.to_nat k.(depth)) (length k.(leaf_pubkeys)) (leaf_hash <$> k.(leaf_pubkeys)) i (leaf_hash pk))
    as (path & Hp & Hlen & Hr); [by rewrite length_fmap|done|by rewrite list_lookup_fmap, Hpk|].
  exists path. split_and!; [done..|]. pose proof (wf_root k Hk) as Hroot. unfold compute_merkle_root in Hroot. congruence.
Qed.

Lemma kes_sign_ok (k : KesKey) (p : Z) (m : list Z) :
  key_wf k → k.(current_period) ≤ p < max_periods k →
  ∃ sig, sign p m k = (evolve_to p k, Ok sig) ∧ verify sig (verification_key k) m = true ∧
    verification_key (evolve_to p k) = verification_key k.
Proof.
  intros Hk Hp. pose proof (evolve_wf p k Hk Hp) as He. pose proof (wf_period k Hk).
  destruct (lookup_lt_is_Some_2 k.(leaf_pubkeys) (Z.to_nat p)) as [pk Hpk]; [pose proof (wf_pubkeys k Hk); lia|].
  destruct (active_path k _ pk Hk Hpk) as (path & Hpath & Hlen & Hroot).
  destruct (wf_active _ He (Z.to_nat p) pk) as (sk & Hsk & ->); [done..|].
  exists (mkKesSignature p (dalek_sign sk m) (signing_public sk) path). split_and!; [| |done].
  - unfold sign. unfold_M. rewrite (proj2 (Z.leb_gt (max_periods k) p)), (proj2 (Z.ltb_ge p k.(current_period))) by lia.
    rewrite Hsk. cbn -[compute_auth_path]. by rewrite Hpath, Hpk.
  - unfold verify. cbn. rewrite (proj2 (Z.leb_gt (max_periods k) p)) by lia.
    rewrite (max_periods_pow k Hk), Z.log2_up_pow2 by (pose proof (wf_depth k Hk); lia).
    rewrite Hlen, Z2Nat.id, Z.eqb_refl by (pose proof (wf_depth k Hk); lia). cbn.
    destruct (sign_verifies sk m) as (vk & -> & ->). rewrite sign_length. cbn. unfold verify_auth_path.
    pose proof (wf_depth k Hk). pose proof (max_periods_pow k Hk).
    rewrite bool_decide_false by (destruct path; cbn in *; [lia|done]).
    unfold one_shl. rewrite Hlen, Z2Nat.id, Z.mod_small by lia.
    rewrite (proj2 (Z.leb_gt _ p)) by lia. by rewrite Hroot, N.eqb_refl.
Qed.

(** C23: A key signs for its current and every later period, and the
    signature verifies under the verification key, which does not change. *)
Theorem kes_sign_verifies (k : KesKey) (p : Z) (m : list Z) :
  key_wf k → k.(current_period) ≤ p < max_periods k →
  ∃ sig, sign p m k = (evolve_to p k, Ok sig) ∧ verify sig (verification_key k) m = true ∧
    verification_key (evolve_to p k) = verification_key k.
Proof. apply kes_sign_ok. Qed.

Lemma key_of_wf secret max : max ≤ 2 ^ 31 → ∃ k, key_of secret max = Some k ∧ key_wf k ∧ k.(current_period) = 0 ∧
  max ≤ max_periods k.
Proof.
  intros Hmax. unfold key_of. set (d := depth_for max).
  assert (Hd : 1 ≤ d < 32).
  { unfold d, depth_for. split.
    - change 1 with (Z.log2_up 2). apply Z.log2_up_le_mono. lia.
    - enough (Z.log2_up (Z.max max 2) ≤ Z.log2_up (2 ^ 31)) as Hl by (change (Z.log2_up (2 ^ 31)) with 31 in Hl; lia).
      apply Z.log2_up_le_mono. lia. }
  assert (Hs : one_shl 32 d = 2 ^ d) by (unfold one_shl; by rewrite Z.mod_small by lia). rewrite Hs.
  set (secrets := secret <$> seq 0 (Z.to_nat (2 ^ d))). set (pks := signing_public <$> secrets).
  assert (Hl : length pks = (2 ^ Z.to_nat d)%nat).
  { unfold pks, secrets. rewrite !length_fmap, length_seq. apply Nat2Z.inj.
    rewrite Nat2Z.inj_pow, !Z2Nat.id by lia. done. }
  assert (Hpos : (0 < length pks)%nat) by (rewrite Hl; pose proof (Nat.pow_nonzero 2 (Z.to_nat d)); lia).
  destruct (lookup_lt_is_Some_2 pks 0 Hpos) as [pk Hpk].
  destruct (tree_path (Z.to_nat d) (length pks) (leaf_hash <$> pks) 0 (leaf_hash pk)) as (path & _ & _ & Hr);
    [by rewrite length_fmap|rewrite Hl; apply Nat.lt_le_incl, Nat.pow_gt_lin_r; lia|by rewrite list_lookup_fmap, Hpk|].
  unfold compute_merkle_root. rewrite Hr. eexists. split; [done|].
  assert (Hmp : 0 < 2 ^ d) by (apply Z.pow_pos_nonneg; lia). split; [|split; [done|]].
  - split; unfold max_periods; cbn; rewrite ?Hs; try done; try lia.
    + rewrite Hl, Nat2Z.inj_pow, Z2Nat.id by lia. done.
    + unfold pks. by rewrite !length_fmap.
    + intros i pk' _ Hi. unfold pks in Hi. rewrite list_lookup_fmap in Hi.
      apply fmap_Some in Hi as (sk & Hsk & ->). exists sk. by rewrite list_lookup_fmap, Hsk.
  - unfold max_periods. cbn. rewrite Hs. unfold d, depth_for.
    destruct (Z.log2_up_spec (Z.max max 2)); lia.
Qed.

(** *** Forward security *)

(** Any sequence of signing requests. *)
Definition sign_all (calls : list (Z * list Z)) (k : KesKey) : KesKey :=
  foldl (λ k pm, (sign pm.1 pm.2 k).1) k calls.

Lemma sign_step k p m : key_wf k →
  key_wf (sign p m k).1 ∧ k.(current_period) ≤ (sign p m k).1.(current_period) ∧
  verification_key (sign p m k).1 = verification_key k.
Proof.
  intros Hk. destruct (decide (k.(current_period) ≤ p < max_periods k)) as [Hp|Hp].
  - destruct (kes_sign_ok k p m Hk Hp) as (sig & -> & _). split_and!; [by apply evolve_wf|cbn; lia|done].
  - assert ((sign p m k).1 = k) as ->; [|done].
    unfold sign. unfold_M. destruct (Z.leb_spec (max_periods k) p), (Z.ltb_spec p k.(current_period)); try done. lia.
Qed.

(** Whatever is signed after a key has been made for up to [max]
    periods: the verification key stays, the period only rises, the secrets of
    all earlier periods are gone, and a request for one of them is refused and
    changes nothing. *)
Theorem kes_forward_secure (secret : nat → H256) (max : Z) (calls : list (Z * list Z)) :
  max ≤ 2 ^ 31 →
  ∃ k0, key_of secret max = Some k0 ∧ max ≤ max_periods k0 ∧
  let k := sign_all calls k0 in
  verification_key k = verification_key k0 ∧
  (∀ i, (i < Z.to_nat k.(current_period))%nat → k.(leaves) !! i = Some None) ∧
  (∀ p m, p < k.(current_period) → sign p m k = (k, Err (PeriodRegression k.(current_period) p))).
Proof.
  intros Hmax. destruct (key_of_wf secret max Hmax) as (k0 & Hk0 & Hwf & _ & Hle). exists k0. split_and!; [done..|].
  cbv zeta. assert (Hk : key_wf (sign_all calls k0) ∧ verification_key (sign_all calls k0) = verification_key k0).
  { clear Hle Hk0. revert k0 Hwf. induction calls as [|[p m] calls IH]; intros k0 Hwf; [done|].
    destruct (sign_step k0 p m Hwf) as (Hw & _ & Hv). destruct (IH _ Hw) as [IH1 IH2]. split; [done|]. by transitivity (verification_key (sign p m k0).1). }
  destruct Hk as [Hk Hv]. split_and!; [done|apply (wf_erased _ Hk)|]. intros p m Hp.
  unfold sign. unfold_M. pose proof (wf_period _ Hk).
  rewrite (proj2 (Z.leb_gt (max_periods _) p)), (proj2 (Z.ltb_lt p _)) by lia. done.
Qed.

(** *** Soundness *)

(** The inputs hashed by the verification, from the leaf up. *)
Fixpoint climb_inputs (idx : nat) (cur : H256) (path : list H256) : list (list Z) :=
  match path with
  | [] => []
  | s :: path =>
      let input := if (idx mod 2 =? 0)%nat then node_input cur s else node_input s cur in
      input :: climb_inputs (idx / 2) (sha256_digest input) path
  end.

Definition path_inputs (pk : H256) (idx : nat) (path : list H256) : list (list Z) :=
  leaf_input pk :: climb_inputs idx (leaf_hash pk) path.

Lemma climb_sound idx cp cq sp sq :
  length sp = length sq → (cp < 2 ^ 256)%N → (cq < 2 ^ 256)%N → climb idx cp sp = climb idx cq sq →
  cp = cq ∨ Merkle.collide (climb_inputs idx cp sp) (climb_inputs idx cq sq).
Proof.
  revert idx sq cp cq. induction sp as [|s sp IH]; intros idx [|s' sq] cp cq Hl Hp Hq E; try done; [by left|].
  cbn [climb climb_inputs] in *. injection Hl as Hl. set (b := (idx mod 2 =? 0)%nat) in *.
  set (x := if b then node_input cp s else node_input s cp). set (y := if b then node_input cq s' else node_input s' cq).
  replace (if b then node_hash cp s else node_hash s cp) with (sha256_digest x) in E by (by destruct b).
  replace (if b then node_hash cq s' else node_hash s' cq) with (sha256_digest y) in E by (by destruct b).
  destruct (IH _ _ _ _ Hl (digest_range x) (digest_range y) E) as [Exy|Hc]; [|right; by apply Merkle.collide_cons].
  destruct (decide (x = y)) as [Hxy|]; [left|right; by exists 0%nat, x, y].
  apply Merkle.as_bytes32_inj; [done..|]. subst x y. destruct b; apply Merkle.internal_input_inj in Hxy as [? ?]; done.
Qed.

(** A signature that verifies under the key's verification key was
    made with the leaf key of its period: its leaf key is the one the key has
    there, and the Ed25519 signature is valid for it; otherwise two different
    inputs hashed on the way to the root have the same digest. *)
Theorem kes_leaf_authentic (k : KesKey) (sig : KesSignature) (m : list Z) :
  key_wf k → 0 ≤ sig.(period) → (sig.(leaf_pubkey) < 2 ^ 256)%N →
  Forall (λ pk, (pk < 2 ^ 256)%N) k.(leaf_pubkeys) →
  verify sig (verification_key k) m = true →
  ∃ pk path, k.(leaf_pubkeys) !! Z.to_nat sig.(period) = Some pk ∧
    compute_auth_path k.(leaf_pubkeys) (Z.to_nat sig.(period)) = Some path ∧
    ((sig.(leaf_pubkey) = pk ∧
      ∃ vk, vk_from_bytes (as_bytes 32 pk) = Some vk ∧ dalek_verify vk m sig.(signature) = true) ∨
     Merkle.collide (path_inputs sig.(leaf_pubkey) (Z.to_nat sig.(period)) sig.(auth_path))
       (path_inputs pk (Z.to_nat sig.(period)) path)).
Proof.
  intros Hk Hp Hlp Hpks Hv. unfold verify in Hv. cbn in Hv. pose proof (wf_depth k Hk).
  destruct (Z.leb_spec (max_periods k) sig.(period)) as [|Hlt]; [done|].
  rewrite (max_periods_pow k Hk), Z.log2_up_pow2 in Hv by lia.
  destruct (Z.eqb_spec (Z.of_nat (length sig.(auth_path))) k.(depth)) as [Hlen|]; [|done]. cbn in Hv.
  destruct (vk_from_bytes _) as [vk|] eqn:Hvk; [|done]. destruct (_ =? 64)%nat; [|done]. cbn in Hv.
  destruct (dalek_verify vk m sig.(signature)) eqn:Hd; [|done]. cbn in Hv.
  destruct (lookup_lt_is_Some_2 k.(leaf_pubkeys) (Z.to_nat sig.(period))) as [pk Hpk]; [pose proof (wf_pubkeys k Hk); lia|].
  destruct (active_path k _ pk Hk Hpk) as (path & Hpath & Hplen & Hroot). exists pk, path. split_and!; [done..|].
  unfold verify_auth_path in Hv. destruct (bool_decide _); [done|]. destruct (_ <=? _); [done|].
  apply N.eqb_eq in Hv. rewrite <- Hroot in Hv.
  apply climb_sound in Hv as [E|Hc]; [| |lia|apply digest_range..]; [|right; unfold path_inputs; by apply Merkle.collide_cons].
  destruct (decide (leaf_input sig.(leaf_pubkey) = leaf_input pk)) as [El|El].
  - left. apply (inj (cons 0)), Merkle.as_bytes32_inj in El; [|done|exact (Forall_lookup_1 _ _ _ _ Hpks Hpk)]. split; [done|].
    exists vk. by rewrite <- El.
  - right. by exists 0%nat, (leaf_input sig.(leaf_pubkey)), (leaf_input pk).
Qed.

Lemma verify_single_period sig r m : verify sig (mkKesVk r 1) m = false.
Proof.
  unfold verify. cbn [vk_max_periods vk_root]. destruct (1 <=? sig.(period)); [done|].
  change (Z.log2_up 1) with 0. destruct sig as [p s pk [|x path]]; cbn [auth_path length leaf_pubkey]; [|done].
  cbn [negb Z.of_nat Z.eqb]. destruct (vk_from_bytes _); [|done]. by repeat destruct (negb _).
Qed.

(** A key for more than [2 ^ 31] periods gets a single leaf, because the
    shift by 32 is taken modulo the width: it has one period, and no signature
    verifies under it. *)
Theorem huge_key_useless (seed : H256) (sig : KesSignature) (m : list Z) :
  ∃ k, from_seed seed (2 ^ 31 + 1) = Some k ∧ max_periods k = 1 ∧ verify sig (verification_key k) m = false.
Proof. eexists. split; [reflexivity|]. split; [reflexivity|]. apply verify_single_period. Qed.
End kes.
End Kes.

(** *** A concrete key *)

From S2P Require Import Toy.

Module KesDemo.
Import Kes.

Definition demo_key : KesKey := default (mkKes [] [] 0 0 0) (from_seed 5 3).

Lemma demo_key_ok : from_seed 5 3 = Some demo_key ∧ key_wf demo_key.
Proof.
  destruct (key_of_wf (leaf_seed 5) 3 ltac:(done)) as (k & Hk & Hw & _).
  unfold demo_key, from_seed. rewrite Hk. done.
Qed.

Lemma demo_key_periods : demo_key.(current_period) = 0 ∧ max_periods demo_key = 4.
Proof. vm_compute. done. Qed.

Lemma kes_sign_verifies_witness :
  ∃ sig, sign 2 [1; 2] demo_key = (evolve_to 2 demo_key, Ok sig) ∧
    verify sig (verification_key demo_key) [1; 2] = true ∧
    verification_key (evolve_to 2 demo_key) = verification_key demo_key.
Proof.
  apply (kes_sign_verifies demo_key 2 [1; 2]); [apply demo_key_ok|].
  destruct demo_key_periods as [-> ->]. done.
Defined.

Lemma kes_forward_secure_witness :
  ∃ k0, key_of (leaf_seed 5) 3 = Some k0 ∧ 3 ≤ max_periods k0 ∧
  let k := sign_all [(1, [7]); (3, [8]); (2, [9])] k0 in
  verification_key k = verification_key k0 ∧
  (∀ i, (i < Z.to_nat k.(current_period))%nat → k.(leaves) !! i = Some None) ∧
  (∀ p m, p < k.(current_period) → sign p m k = (k, Err (PeriodRegression k.(current_period) p))).
Proof. apply (kes_forward_secure (leaf_seed 5) 3 [(1, [7]); (3, [8]); (2, [9])]). done. Defined.

Definition demo_signature : KesSignature :=
  match (sign 2 [1; 2] demo_key).2 with Ok sig => sig | Err _ => mkKesSignature 0 [] 0 [] end.

Lemma kes_leaf_authentic_witness :
  ∃ pk path, demo_key.(leaf_pubkeys) !! Z.to_nat demo_signature.(period) = Some pk ∧
    compute_auth_path demo_key.(leaf_pubkeys) (Z.to_nat demo_signature.(period)) = Some path ∧
    ((demo_signature.(leaf_pubkey) = pk ∧
      ∃ vk, vk_from_bytes (as_bytes 32 pk) = Some vk ∧ dalek_verify vk [1; 2] demo_signature.(signature) = true) ∨
     Merkle.collide (path_inputs demo_signature.(leaf_pubkey) (Z.to_nat demo_signature.(period)) demo_signature.(auth_path))
       (path_inputs pk (Z.to_nat demo_signature.(period)) path)).
Proof.
  apply (kes_leaf_authentic demo_key demo_signature [1; 2]); [apply demo_key_ok|by vm_compute..| |vm_compute; reflexivity].
  apply (bool_decide_unpack _). vm_compute. exact I.
Defined.

End KesDemo.
