(* ===== verification/AccountAbstraction.v ===== *)
(** * Account abstraction

    [crates/programs/account-abstraction/src/lib.rs]: user operations, their
    hash, and the entry point that validates and executes batches of them. The
    signature scheme of an account is the trait [AccountValidator], a parameter. *)

From S2P Require Import Prelude.

Module AccountAbstraction.

Record UserOperation := mkOp {
  sender : Address;
  nonce : Z;
  call_data : list Z;
  call_gas_limit : Z;
  verification_gas_limit : Z;
  pre_verification_gas : Z;
  max_fee_per_gas : Z;
  paymaster : option Address;
  paymaster_data : list Z;
  signature : list Z
}.

(** The trait [AccountValidator]. *)
Class AccountValidator := { validate_signature : Address → H256 → list Z → result error unit }.

Section entry_point.
Context `{Digest, AccountValidator}.

Definition hash (op : UserOperation) : H256 :=
  sha256_digest (as_bytes 20 op.(sender) ++ to_le_bytes 8 op.(nonce) ++ op.(call_data) ++
    to_le_bytes 8 op.(call_gas_limit) ++ to_le_bytes 8 op.(verification_gas_limit) ++
    to_le_bytes 8 op.(pre_verification_gas) ++ to_le_bytes 16 op.(max_fee_per_gas) ++
    from_option (as_bytes 20) [] op.(paymaster) ++ op.(paymaster_data)).

Definition total_gas (op : UserOperation) : result error Z :=
  ok_or (checked_add U64_MAX op.(call_gas_limit) op.(verification_gas_limit) ≫= λ g,
         checked_add U64_MAX g op.(pre_verification_gas)) (Msg "total gas overflow").

Definition validate (op : UserOperation) : result error unit :=
  bail_if (op.(call_gas_limit) =? 0) (Msg "call_gas_limit must be > 0");;
  bail_if (op.(verification_gas_limit) =? 0) (Msg "verification_gas_limit must be > 0");;
  bail_if (op.(max_fee_per_gas) =? 0) (Msg "max_fee_per_gas must be > 0");;
  bail_if (bool_decide (op.(signature) = [])) (Msg "signature must not be empty").

Record EntryPoint := mkEntryPoint {
  accounts : gmap Address H256;
  paymasters : gmap Address Z;
  nonces : gmap Address Z
}.

Definition new : EntryPoint := mkEntryPoint ∅ ∅ ∅.

Definition register_account (a : Address) (code_hash : H256) (s : EntryPoint) : EntryPoint :=
  mkEntryPoint (<[a := code_hash]> s.(accounts)) s.(paymasters) s.(nonces).

Definition register_paymaster (a : Address) (deposit : Z) (s : EntryPoint) : EntryPoint :=
  mkEntryPoint s.(accounts) (<[a := deposit]> s.(paymasters)) s.(nonces).

Definition gas_cost (op : UserOperation) : result error Z :=
  g ← total_gas op;
  ok_or (checked_mul U128_MAX g op.(max_fee_per_gas)) (Msg "gas cost overflow").

Definition validate_user_op (op : UserOperation) (s : EntryPoint) : result error unit :=
  validate op;;
  bail_if (bool_decide (s.(accounts) !! op.(sender) = None)) (Msg "sender {:?} is not a registered smart account");;
  validate_signature op.(sender) (hash op) op.(signature);;
  match op.(paymaster) with
  | None => mret tt
  | Some pm =>
      deposit ← ok_or (s.(paymasters) !! pm) (Msg "paymaster not registered");
      required_gas_cost ← gas_cost op;
      bail_if (deposit <? required_gas_cost)
        (Fmt "paymaster deposit {} insufficient for gas cost {}" [deposit; required_gas_cost])
  end.

Record UserOpResult := mkOpResult { op_hash : H256; success : bool; gas_used : Z; op_error : option error }.

Definition set_nonce (a : Address) (n : Z) (s : EntryPoint) : EntryPoint :=
  mkEntryPoint s.(accounts) s.(paymasters) (<[a := n]> s.(nonces)).

(** Deduct the cost from the sponsor's deposit. *)
Definition charge_paymaster (op : UserOperation) : M EntryPoint error unit :=
  match op.(paymaster) with
  | None => mret tt
  | Some pm =>
      cost ← reads (λ _, gas_cost op);
      s ← get_state;
      match s.(paymasters) !! pm with
      | None => mret tt
      | Some deposit =>
          bail_if (deposit <? cost) (Fmt "insufficient paymaster deposit: have {}, need {}" [deposit; cost]);;
          rest ← ok_or (checked_sub deposit cost) (Msg "deposit underflow");
          modify (register_paymaster pm rest)
      end
  end.

(** One turn of the loop of [handle_ops]. *)
Definition handle_op (op : UserOperation) : M EntryPoint error UserOpResult :=
  s ← get_state;
  match validate_user_op op s with
  | Err e => mret (mkOpResult (hash op) false op.(verification_gas_limit) (Some e))
  | Ok _ =>
      let expected_nonce := default 0 (s.(nonces) !! op.(sender)) in
      if negb (op.(nonce) =? expected_nonce) then
        mret (mkOpResult (hash op) false op.(verification_gas_limit)
          (Some (Fmt "invalid nonce: expected {}, got {}" [expected_nonce; op.(nonce)])))
      else
        next ← ok_or (checked_add U64_MAX expected_nonce 1) (Msg "nonce overflow");
        modify (set_nonce op.(sender) next);;
        charge_paymaster op;;
        mret (mkOpResult (hash op) true op.(call_gas_limit) None)
  end.

Fixpoint handle_ops (ops : list UserOperation) : M EntryPoint error (list UserOpResult) :=
  match ops with
  | [] => mret []
  | op :: ops => r ← handle_op op; rs ← handle_ops ops; mret (r :: rs)
  end.

(** ** What a batch executes *)

(** The operations that succeeded. *)
Definition executed (ops : list UserOperation) (rs : list UserOpResult) : list UserOperation :=
  fst <$> filter (λ x, success x.2 = true) (zip ops rs).

Definition nonce_of (a : Address) (s : EntryPoint) : Z := default 0 (s.(nonces) !! a).
Definition deposit_of (a : Address) (s : EntryPoint) : Z := default 0 (s.(paymasters) !! a).

(** What the operation costs the sponsor [pm]. *)
Definition charged_to (pm : Address) (op : UserOperation) : Z :=
  if bool_decide (op.(paymaster) = Some pm) then match gas_cost op with Ok c => c | Err _ => 0 end else 0.

(** The effect of one operation: nothing if it fails; otherwise its nonce was
    the sender's, which rises by one, and its sponsor has paid in full. *)
Definition op_effect (op : UserOperation) (s s' : EntryPoint) (ok : bool) : Prop :=
  s'.(accounts) = s.(accounts) ∧
  if ok then
    op.(nonce) = nonce_of op.(sender) s ∧ validate_user_op op s = Ok tt ∧
    (∀ a, nonce_of a s' = nonce_of a s + (if decide (a = op.(sender)) then 1 else 0)) ∧
    (∀ a, deposit_of a s' = deposit_of a s - charged_to a op) ∧
    (∀ a, charged_to a op ≤ deposit_of a s ∨ charged_to a op = 0)
  else s' = s.

Lemma handle_op_effect op s s' r : handle_op op s = (s', Ok r) → op_effect op s s' r.(success).
Proof.
  unfold handle_op. intros E. unfold_M. destruct (validate_user_op op s) as [[]|e] eqn:Hv; [|by simplify_eq/=].
  destruct (Z.eqb_spec op.(nonce) (default 0 (s.(nonces) !! op.(sender)))) as [Hn|]; [|by simplify_eq/=]. cbn in E.
  destruct (checked_add _ _ _) as [n|] eqn:Hc; [|done]. clean_ints. subst n.
  assert (Hnon : ∀ a, nonce_of a (set_nonce op.(sender) (default 0 (s.(nonces) !! op.(sender)) + 1) s) =
    nonce_of a s + (if decide (a = op.(sender)) then 1 else 0)).
  { intros a. unfold nonce_of, set_nonce. cbn. case_decide; [subst; by rewrite lookup_insert_eq|].
    rewrite lookup_insert_ne by done. lia. }
  unfold charge_paymaster in E. destruct op.(paymaster) as [pm|] eqn:Hpm.
  - unfold_M. destruct (gas_cost op) as [c|] eqn:Hg; [|done]. cbn in E.
    destruct (s.(paymasters) !! pm) as [d|] eqn:Hd.
    + destruct (Z.ltb_spec d c); [done|]. destruct (checked_sub d c) as [rest|] eqn:Hs; [|done]. clean_ints. subst rest.
      simplify_eq/=. split; [done|]. split_and!; [done..|exact Hnon| |].
      * intros a. unfold deposit_of, charged_to. cbn. rewrite Hpm, Hg. destruct (decide (a = pm)) as [->|Hne].
        -- rewrite lookup_insert_eq, Hd, bool_decide_true by done. done.
        -- rewrite lookup_insert_ne, bool_decide_false by congruence. lia.
      * intros a. unfold charged_to. rewrite Hpm, Hg. case_bool_decide as Ea; [|by right]. injection Ea as <-. left. unfold deposit_of. by rewrite Hd.
    + exfalso. unfold validate_user_op in Hv. rewrite Hpm in Hv. res_inv. congruence.
  - simplify_eq/=. split; [done|]. split_and!; [done..|exact Hnon| |]; intros a; unfold charged_to; rewrite Hpm.
    + rewrite bool_decide_false by done. unfold deposit_of. cbn. lia.
    + by right.
Qed.

Lemma executed_cons op ops r rs :
  executed (op :: ops) (r :: rs) = (if success r then [op] else []) ++ executed ops rs.
Proof. unfold executed. cbn [zip zip_with]. rewrite filter_cons. cbn. by destruct (success r). Qed.

(** C26: A batch executes each operation at most once and in nonce order:
    the executed operations of an account carry exactly the nonces that follow
    the account's stored nonce, which rises by their number; and every sponsor
    has paid exactly the costs of the executed operations that name it, never
    more than its deposit. *)
Theorem batch_executed_once (ops : list UserOperation) (s s' : EntryPoint) (rs : list UserOpResult) :
  (∀ pm, 0 ≤ deposit_of pm s) → handle_ops ops s = (s', Ok rs) →
  length rs = length ops ∧
  (∀ a, let mine := filter (λ op, op.(sender) = a) (executed ops rs) in
     nonce <$> mine = seqZ (nonce_of a s) (Z.of_nat (length mine)) ∧
     nonce_of a s' = nonce_of a s + Z.of_nat (length mine)) ∧
  (∀ pm, deposit_of pm s' = deposit_of pm s - sum_of (charged_to pm) (executed ops rs) ∧ 0 ≤ deposit_of pm s').
Proof.
  revert s rs. induction ops as [|op ops IH]; intros s rs Hd E.
  - cbn in E. injection E as <- <-. split_and!; [done| |].
    + intros a. cbn. split; [done|lia].
    + intros pm. split; [unfold sum_of, sum_list; cbn; lia|done].
  - cbn [handle_ops] in E. apply bind_Ok in E as (s1 & r & H1 & E). apply bind_Ok in E as (s2 & rs' & H2 & E).
    injection E as -> <-. apply handle_op_effect in H1 as [_ Hop].
    destruct (success r) eqn:Hr.
    + destruct Hop as (Hn & _ & Hnon & Hdep & Hle).
      destruct (IH s1 rs') as (IH1 & IH2 & IH3); [|done|].
      { intros pm. rewrite Hdep. specialize (Hd pm). destruct (Hle pm); lia. }
      split_and!; [cbn; by f_equal| |].
      * intros a. cbv zeta. rewrite executed_cons, Hr. cbn [app]. destruct (IH2 a) as [IHa IHb]. rewrite Hnon in IHa, IHb.
        rewrite filter_cons. destruct (decide (op.(sender) = a)) as [<-|Hne].
        -- rewrite decide_True in IHa, IHb by done. rewrite fmap_cons, IHa. cbn [length]. rewrite Nat2Z.inj_succ.
           split; [|lia]. rewrite (seqZ_cons _ (Z.succ _)) by lia. rewrite Z.pred_succ. by f_equal.
        -- rewrite decide_False in IHa, IHb by congruence. rewrite Z.add_0_r in IHa, IHb. done.
      * intros pm. destruct (IH3 pm) as [IHa IHb]. split; [|done]. rewrite executed_cons, Hr. cbn [app].
        rewrite sum_of_cons. rewrite Hdep in IHa. lia.
    + subst s1. destruct (IH s rs') as (IH1 & IH2 & IH3); [done..|].
      split_and!; [cbn; by f_equal| |]; intros a; rewrite executed_cons, Hr; [apply IH2|apply IH3].
Qed.

(** The hash does not delimit the sponsor: an operation with a sponsor
    and one without it whose sponsor data starts with the sponsor's address have
    the same hash. So what the account has signed without a sponsor is accepted
    with one (if its deposit is enough), and the other way round. *)
Theorem paymaster_malleable (op : UserOperation) (pm : Address) (data : list Z) (s : EntryPoint) :
  let with_pm := mkOp op.(sender) op.(nonce) op.(call_data) op.(call_gas_limit) op.(verification_gas_limit)
    op.(pre_verification_gas) op.(max_fee_per_gas) (Some pm) data op.(signature) in
  let without := mkOp op.(sender) op.(nonce) op.(call_data) op.(call_gas_limit) op.(verification_gas_limit)
    op.(pre_verification_gas) op.(max_fee_per_gas) None (as_bytes 20 pm ++ data) op.(signature) in
  hash with_pm = hash without ∧
  (validate_user_op with_pm s = Ok tt ↔
   validate_user_op without s = Ok tt ∧
   ∃ deposit cost, s.(paymasters) !! pm = Some deposit ∧ gas_cost op = Ok cost ∧ cost ≤ deposit).
Proof.
  intros with_pm without. assert (Hh : hash with_pm = hash without) by done. split; [done|].
  unfold validate_user_op. rewrite Hh. change (validate with_pm) with (validate op). change (validate without) with (validate op).
  change (gas_cost with_pm) with (gas_cost op). cbn [sender paymaster signature with_pm without]. split.
  - intros Hv. res_inv. split; [|eauto 10].
    repeat match goal with Hm : _ = Ok ?x |- _ => rewrite Hm; clear Hm | Hm : _ ≠ None |- _ => rewrite bool_decide_false by done; clear Hm end. done.
  - intros [Hv (d & c & Hd & Hc & Hle)]. rewrite Hd, Hc. res_inv.
    repeat match goal with Hm : _ = Ok ?x |- _ => rewrite Hm; clear Hm | Hm : _ ≠ None |- _ => rewrite bool_decide_false by done; clear Hm end.
    cbn. by rewrite (proj2 (Z.ltb_ge d c)).
Qed.
End entry_point.
End AccountAbstraction.

(** ** A concrete batch *)

From S2P Require Import Toy.

Module AccountAbstractionDemo.
Import AccountAbstraction.

(** The signature is the low byte of the operation's hash. *)
#[local] Instance byte_validator : AccountValidator := {
  validate_signature _ h sig := if bool_decide (sig = [Z.of_N (h mod 256)]) then Ok tt else Err (Msg "bad signature")
}.

Definition unsigned_op (n : Z) (pm : option Address) : UserOperation := mkOp 1 n [5] 10 20 30 2 pm [] [].
Definition signed_op (n : Z) (pm : option Address) : UserOperation :=
  let op := unsigned_op n pm in
  mkOp op.(sender) op.(nonce) op.(call_data) op.(call_gas_limit) op.(verification_gas_limit)
    op.(pre_verification_gas) op.(max_fee_per_gas) op.(paymaster) op.(paymaster_data) [Z.of_N (hash op mod 256)].

Definition demo_entry : EntryPoint := register_paymaster 9 150 (register_account 1 77 new).

(** Accepted, replayed, accepted with the last of the deposit, refused. *)
Definition demo_ops : list UserOperation :=
  [signed_op 0 (Some 9%N); signed_op 0 (Some 9%N); signed_op 1 None; signed_op 2 (Some 9%N)].

Lemma demo_results : ∃ s' rs, handle_ops demo_ops demo_entry = (s', Ok rs) ∧
  success <$> rs = [true; false; true; false] ∧ deposit_of 9 s' = 30.
Proof. eexists _, _. split; [vm_compute; reflexivity|]. vm_compute. done. Qed.

Lemma batch_executed_once_witness : ∃ s' rs, handle_ops demo_ops demo_entry = (s', Ok rs) ∧
  (length rs = length demo_ops ∧
  (∀ a, let mine := filter (λ op, op.(sender) = a) (executed demo_ops rs) in
     nonce <$> mine = seqZ (nonce_of a demo_entry) (Z.of_nat (length mine)) ∧
     nonce_of a s' = nonce_of a demo_entry + Z.of_nat (length mine)) ∧
  (∀ pm, deposit_of pm s' = deposit_of pm demo_entry - sum_of (charged_to pm) (executed demo_ops rs) ∧
     0 ≤ deposit_of pm s')).
Proof.
  destruct (handle_ops demo_ops demo_entry) as [s' [rs|e]] eqn:E; [|vm_compute in E; discriminate].
  exists s', rs. split; [done|]. apply (batch_executed_once demo_ops demo_entry s' rs); [|exact E].
  intros pm. unfold deposit_of, demo_entry. cbn.
  destruct (decide (pm = 9%N)) as [->|]; [by rewrite lookup_insert_eq|by rewrite lookup_insert_ne].
Defined.
End AccountAbstractionDemo.
