(* ===== verification/Mev.v ===== *)
(** * Commit-reveal ordering

    [crates/mev/src/commit_reveal.rs]: the pool of commitments and revealed
    transactions. The encoding of transactions is the parameter [ser_tx];
    iteration over a hash map is in the order [hash_iter]. Slots are added
    without overflow checks. *)

From S2P Require Import Prelude.
From S2P Require Import Transaction.

Module Mev.

Record TransactionCommitment := mkCommitment {
  commitment_hash : H256;
  commit_sender : Address;
  commit_slot : Z;
  commit_fee : Z
}.

Record RevealedTransaction := mkRevealed {
  transaction : Transaction;
  salt : H256;
  revealed_hash : H256
}.

Record CommitRevealPool := mkPool {
  commitments : gmap H256 TransactionCommitment;
  reveals : gmap H256 RevealedTransaction;
  reveal_delay : Z;
  commitment_ttl : Z
}.

Definition new (delay ttl : Z) : CommitRevealPool := mkPool ∅ ∅ delay ttl.

Section pool.
Context `{Digest, Codec}.

Definition create_commitment (tx : Transaction) (s : H256) : H256 :=
  sha256_digest (ser_tx tx ++ as_bytes 32 s).

Definition submit_commitment (c : TransactionCommitment) : M CommitRevealPool error unit :=
  p ← get_state;
  bail_if (bool_decide (is_Some (p.(commitments) !! c.(commitment_hash)))) (Msg "duplicate commitment");;
  modify (λ p, mkPool (<[c.(commitment_hash) := c]> p.(commitments)) p.(reveals) p.(reveal_delay) p.(commitment_ttl)).

Definition reveal (tx : Transaction) (s : H256) (current_slot : Z) : M CommitRevealPool error unit :=
  let expected_hash := create_commitment tx s in
  p ← get_state;
  c ← ok_or (p.(commitments) !! expected_hash) (Msg "no matching commitment found");
  bail_if (current_slot <? wrapping_add U64_MAX c.(commit_slot) p.(reveal_delay))
    (Fmt "reveal too early: current slot {} < commit slot {} + delay {}" [current_slot; c.(commit_slot); p.(reveal_delay)]);;
  bail_if (wrapping_add U64_MAX c.(commit_slot) p.(commitment_ttl) <? current_slot) (Msg "commitment expired");;
  bail_if (negb (tx.(sender) =? c.(commit_sender))%N) (Msg "reveal sender does not match commitment sender");;
  modify (λ p, mkPool p.(commitments) (<[expected_hash := mkRevealed tx s expected_hash]> p.(reveals))
                 p.(reveal_delay) p.(commitment_ttl)).

Definition slot_of (p : CommitRevealPool) (r : RevealedTransaction) : Z :=
  from_option commit_slot 0 (p.(commitments) !! r.(revealed_hash)).

(** The comparison of [sort_by]: slot, then hash. *)
Definition reveal_le (p : CommitRevealPool) (a b : RevealedTransaction) : Prop :=
  slot_of p a < slot_of p b ∨ slot_of p a = slot_of p b ∧ (a.(revealed_hash) ≤ b.(revealed_hash))%N.

#[global] Instance reveal_le_dec p : RelDecision (reveal_le p).
Proof. intros a b. unfold reveal_le. apply _. Defined.

Definition get_revealed_transactions `{HashOrder} (p : CommitRevealPool) : list RevealedTransaction :=
  merge_sort (reveal_le p) (snd <$> hash_iter p.(reveals)).

Definition cleanup_expired (current_slot : Z) (p : CommitRevealPool) : CommitRevealPool :=
  mkPool (filter (λ kc, current_slot ≤ wrapping_add U64_MAX kc.2.(commit_slot) p.(commitment_ttl)) p.(commitments))
    p.(reveals) p.(reveal_delay) p.(commitment_ttl).

Definition remove (h : H256) (p : CommitRevealPool) : CommitRevealPool :=
  mkPool (delete h p.(commitments)) (delete h p.(reveals)) p.(reveal_delay) p.(commitment_ttl).

Definition pending_commitments (p : CommitRevealPool) : Z := Z.of_nat (size p.(commitments)).
Definition pending_reveals (p : CommitRevealPool) : Z := Z.of_nat (size p.(reveals)).

(** ** Reachable pools *)

Inductive pool_op :=
| Submit (c : TransactionCommitment)
| Reveal (tx : Transaction) (s : H256) (slot : Z)
| Cleanup (slot : Z)
| Remove (h : H256).

Definition step (o : pool_op) (p : CommitRevealPool) : CommitRevealPool :=
  match o with
  | Submit c => (submit_commitment c p).1
  | Reveal tx s slot => (reveal tx s slot p).1
  | Cleanup slot => cleanup_expired slot p
  | Remove h => remove h p
  end.

(** Commitments and reveals are filed under their own hash, and a reveal's hash
    is that of its transaction and salt. *)
Record pool_wf (p : CommitRevealPool) : Prop := {
  wf_commitments : map_Forall (λ h c, c.(commitment_hash) = h) p.(commitments);
  wf_reveals : map_Forall (λ h r, r.(revealed_hash) = h ∧ create_commitment r.(transaction) r.(salt) = h) p.(reveals)
}.

Lemma step_wf o p : pool_wf p → pool_wf (step o p).
Proof.
  intros Hp. pose proof Hp as [Hc Hr]. destruct o as [c|tx s slot|slot|h]; cbn [step].
  - unfold submit_commitment. unfold_M. case_bool_decide; [done|]. split; cbn; [|done]. by apply map_Forall_insert_2.
  - unfold reveal. unfold_M. repeat (case_match; simplify_eq/=; try exact Hp). split; cbn; [done|]. by apply map_Forall_insert_2.
  - split; cbn; [|done]. intros h c [Hh _]%map_lookup_filter_Some. by apply Hc.
  - split; cbn; by apply map_Forall_delete.
Qed.

Lemma empty_pool_wf delay ttl : pool_wf (new delay ttl).
Proof. split; apply map_Forall_empty. Qed.

Lemma steps_wf os delay ttl : pool_wf (foldl (λ p o, step o p) (new delay ttl) os).
Proof.
  induction os as [|o os IH] using rev_ind; [apply empty_pool_wf|]. rewrite foldl_app. by apply step_wf.
Qed.

#[global] Instance reveal_le_trans p : Transitive (reveal_le p).
Proof. intros a b c. unfold reveal_le. lia. Qed.
#[global] Instance reveal_le_total p : Total (reveal_le p).
Proof. intros a b. unfold reveal_le. lia. Qed.
End pool.

Section ordering.
Context `{Digest, Codec}.

(** C35: All nodes with the same pool execute the revealed transactions in
    the same order, whatever order their hash maps iterate in: every revealed
    transaction once, by commitment slot and then by hash. *)
Theorem reveal_order_deterministic (os : list pool_op) (delay ttl : Z) (h1 h2 : HashOrder) :
  let p := foldl (λ p o, step o p) (new delay ttl) os in
  @get_revealed_transactions h1 p = @get_revealed_transactions h2 p ∧
  Sorted (reveal_le p) (@get_revealed_transactions h1 p) ∧
  @get_revealed_transactions h1 p ≡ₚ (map_to_list p.(reveals)).*2.
Proof.
  intros p. pose proof (steps_wf os delay ttl) as [_ Hr]. fold p in Hr.
  assert (Hperm : ∀ h : HashOrder, @get_revealed_transactions h p ≡ₚ (map_to_list p.(reveals)).*2).
  { intros h. unfold get_revealed_transactions. rewrite merge_sort_Permutation. by rewrite hash_iter_perm. }
  assert (Hsort : ∀ h : HashOrder, StronglySorted (reveal_le p) (@get_revealed_transactions h p)).
  { intros h. unfold get_revealed_transactions. apply (Sorted_StronglySorted _), Sorted_merge_sort; apply _. }
  split_and!; [|apply Sorted_merge_sort; apply _|done].
  apply (StronglySorted_unique_strong (reveal_le p)); [|done..|by rewrite !Hperm].
  intros a b Ha Hb Hab Hba. rewrite Hperm in Ha, Hb.
  apply list_elem_of_fmap in Ha as ([ha ra] & -> & Ha%elem_of_map_to_list).
  apply list_elem_of_fmap in Hb as ([hb rb] & -> & Hb%elem_of_map_to_list). cbn in *.
  destruct (Hr _ _ Ha) as [Ea _], (Hr _ _ Hb) as [Eb _]. unfold reveal_le in *.
  assert (ha = hb) as -> by lia. congruence.
Qed.

(** A reveal is accepted only between the end of the delay and the end
    of the lifetime of a commitment by the sender of the transaction; it then
    is the pool's reveal under that hash. *)
Theorem reveal_in_window (tx : Transaction) (s : H256) (slot : Z) (p p' : CommitRevealPool) :
  p.(reveal_delay) + p.(commitment_ttl) < 2 ^ 63 → 0 ≤ p.(reveal_delay) → 0 ≤ p.(commitment_ttl) →
  map_Forall (λ _ c, 0 ≤ c.(commit_slot) < 2 ^ 63) p.(commitments) →
  reveal tx s slot p = (p', Ok tt) →
  ∃ c, p.(commitments) !! create_commitment tx s = Some c ∧
    c.(commit_slot) + p.(reveal_delay) ≤ slot ≤ c.(commit_slot) + p.(commitment_ttl) ∧
    tx.(sender) = c.(commit_sender) ∧ p'.(commitments) = p.(commitments) ∧
    p'.(reveals) = <[create_commitment tx s := mkRevealed tx s (create_commitment tx s)]> p.(reveals).
Proof.
  intros Hb Hd Ht Hc E. unfold reveal in E. unfold_M.
  destruct (p.(commitments) !! create_commitment tx s) as [c|] eqn:Hl; [|done]. pose proof (Hc _ _ Hl) as Hs. cbn in Hs.
  unfold wrapping_add in E. rewrite !Z.mod_small in E by ulia.
  repeat (case_match; simplify_eq/=); clean_ints. exists c. split_and!; done || lia.
Qed.

(** A commitment can be taken away: whoever submits the hash first,
    under another sender, makes the committer's own submission a duplicate and
    every reveal of the committed transaction fail. *)
Theorem commitment_squatted (tx : Transaction) (s : H256) (mine theirs : TransactionCommitment) (p : CommitRevealPool) (slot : Z) :
  p.(commitments) !! create_commitment tx s = None →
  mine.(commitment_hash) = create_commitment tx s → theirs.(commitment_hash) = create_commitment tx s →
  theirs.(commit_sender) ≠ tx.(sender) →
  let p1 := (submit_commitment theirs p).1 in
  submit_commitment mine p1 = (p1, Err (Msg "duplicate commitment")) ∧
  ∃ e, reveal tx s slot p1 = (p1, Err e).
Proof.
  intros Hn Hm Ht Hs. unfold submit_commitment at 1. unfold_M. rewrite bool_decide_false by (rewrite Ht, Hn; by intros [? ?]).
  cbn. unfold submit_commitment, reveal. unfold_M. cbn. rewrite Hm, Ht, lookup_insert_eq. rewrite bool_decide_true by done.
  split; [done|]. destruct (_ <? _); [by eexists|]. destruct (_ <? _); [by eexists|].
  rewrite (proj2 (N.eqb_neq _ _)) by done. by eexists.
Qed.
End ordering.
End Mev.

(** ** A concrete pool *)

From S2P Require Import Toy.

Module MevDemo.
Import Mev.

Definition demo_tx (who : Address) (n : Z) : Transaction := mkTx n 1 who [] [] [] [] [] None [] 21000 0 [].
Definition h1 : H256 := create_commitment (demo_tx 1 4) 77.

Definition demo_pool : CommitRevealPool := (submit_commitment (mkCommitment h1 1 10 0) (new 2 20)).1.

Lemma reveal_in_window_witness :
  ∃ c, demo_pool.(commitments) !! h1 = Some c ∧
    c.(commit_slot) + 2 ≤ 15 ≤ c.(commit_slot) + 20 ∧ 1%N = c.(commit_sender) ∧
    (reveal (demo_tx 1 4) 77 15 demo_pool).1.(commitments) = demo_pool.(commitments) ∧
    (reveal (demo_tx 1 4) 77 15 demo_pool).1.(reveals) = <[h1 := mkRevealed (demo_tx 1 4) 77 h1]> demo_pool.(reveals).
Proof.
  apply (reveal_in_window (demo_tx 1 4) 77 15 demo_pool); [done|done|done| |vm_compute; reflexivity].
  change demo_pool.(commitments) with (<[h1 := mkCommitment h1 1 10 0]> (∅ : gmap H256 TransactionCommitment)).
  apply map_Forall_insert_2; [done|apply map_Forall_empty].
Defined.

Lemma commitment_squatted_witness :
  let p1 := (submit_commitment (mkCommitment h1 2 10 0) (new 2 20)).1 in
  submit_commitment (mkCommitment h1 1 10 0) p1 = (p1, Err (Msg "duplicate commitment")) ∧
  ∃ e, reveal (demo_tx 1 4) 77 15 p1 = (p1, Err e).
Proof.
  apply (commitment_squatted (demo_tx 1 4) 77 (mkCommitment h1 1 10 0) (mkCommitment h1 2 10 0) (new 2 20) 15); done.
Defined.
End MevDemo.

