(* ===== verification/Rollup.v ===== *)
(** * Rollup

    [crates/rollup/src]: state commitments of layer-2 batches
    ([state_commitment.rs]) and the verification of fraud proofs
    ([fraud_proof.rs]). The re-execution engine is the trait [ReExecutor];
    [bincode] is a parameter of the hashes. *)

From S2P Require Import Prelude.

Module Rollup.

(** ** state_commitment.rs *)

Record L2Batch := mkBatch {
  batch_id : Z;
  chain_id : Z;
  sequencer : Address;
  pre_state_root : H256;
  post_state_root : H256;
  tx_hashes : list H256;
  l1_slot : Z
}.

Record StateCommitment := mkCommitment {
  batch : L2Batch;
  challenge_deadline : Z;
  challenged : bool;
  finalized : bool
}.

Definition CHALLENGE_WINDOW_SLOTS : Z := 1209600.

Definition commitment_new (b : L2Batch) (current_l1_slot : Z) : StateCommitment :=
  mkCommitment b (saturating_add U64_MAX current_l1_slot CHALLENGE_WINDOW_SLOTS) false false.

Definition is_past_challenge_window (current_l1_slot : Z) (c : StateCommitment) : bool :=
  c.(challenge_deadline) <? current_l1_slot.

Definition try_finalize (current_l1_slot : Z) : M StateCommitment error unit :=
  c ← get_state;
  bail_if c.(challenged) (Msg "commitment has been challenged");;
  bail_if (negb (is_past_challenge_window current_l1_slot c)) (Msg "challenge window not expired");;
  modify (λ c, mkCommitment c.(batch) c.(challenge_deadline) c.(challenged) true).

(** ** fraud_proof.rs *)

Record FraudProof := mkFraudProof {
  fp_batch_id : Z;
  tx_index : Z;
  fp_pre_state_root : H256;
  correct_post_state_root : H256;
  claimed_post_state_root : H256;
  challenger : Address;
  state_proof : list Z;
  tx_data : list Z
}.

(** The trait [ReExecutor]. *)
Class ReExecutor := { re_execute : H256 → list Z → result error H256 }.

Record FraudProofVerifier := mkVerifier { required_bond : Z; challenger_reward_pct : Z }.

Inductive FraudProofResult :=
| Valid (slashed_sequencer : Address) (challenger_reward : Z)
| Invalid (reason : error).

Definition verifier_new (bond pct : Z) : result error FraudProofVerifier :=
  bail_if (100 <? pct) (Fmt "challenger_reward_pct {} exceeds 100 — would pay out more than bond" [pct]);;
  mret (mkVerifier bond pct).

Definition verify `{ReExecutor} (v : FraudProofVerifier) (proof : FraudProof)
    (batch_pre_state_root batch_post_state_root : H256) (seq : Address)
    (sequencer_bond challenger_bond : Z) : FraudProofResult :=
  if challenger_bond <? v.(required_bond) then
    Invalid (Fmt "challenger bond {} below required {}" [challenger_bond; v.(required_bond)]) else
  if negb (proof.(fp_pre_state_root) =? batch_pre_state_root)%N then Invalid (Msg "pre-state root mismatch") else
  if negb (proof.(claimed_post_state_root) =? batch_post_state_root)%N then
    Invalid (Msg "claimed post-state doesn't match batch") else
  if (proof.(correct_post_state_root) =? proof.(claimed_post_state_root))%N then
    Invalid (Msg "correct state root matches claimed — no fraud") else
  match re_execute proof.(fp_pre_state_root) proof.(tx_data) with
  | Err reason => Invalid (prefix_error "re-execution failed: " reason)
  | Ok computed_post_state =>
      if negb (computed_post_state =? proof.(correct_post_state_root))%N then
        Invalid (Msg "re-executed post-state root does not match challenger's claim") else
      let reward := saturating_mul U128_MAX sequencer_bond v.(challenger_reward_pct) / 100 in
      Valid seq reward
  end.

(** ** Properties *)

Section rollup.
Context `{ReExecutor}.

Lemma verify_Valid v proof pre post seq sb cb who reward :
  verify v proof pre post seq sb cb = Valid who reward ↔
  v.(required_bond) ≤ cb ∧ proof.(fp_pre_state_root) = pre ∧ proof.(claimed_post_state_root) = post ∧
  proof.(correct_post_state_root) ≠ post ∧ re_execute pre proof.(tx_data) = Ok proof.(correct_post_state_root) ∧
  who = seq ∧ reward = saturating_mul U128_MAX sb v.(challenger_reward_pct) / 100.
Proof.
  unfold verify. split.
  - intros. repeat (case_match; try done); clean_ints; simplify_eq/=. split_and!; try done; congruence.
  - intros (H1 & <- & <- & H4 & H5 & -> & ->). rewrite (proj2 (Z.ltb_ge _ _)), !N.eqb_refl by done. cbn.
    rewrite (proj2 (N.eqb_neq _ _)), H5 by done. cbn. by rewrite N.eqb_refl.
Qed.

(** C34: An accepted fraud proof pays the challenger at most the sequencer's
    bond, and re-execution of its transaction from the batch's pre-state gives a
    root that is not the batch's. *)
Theorem accepted_challenge_sound (bond pct : Z) (v : FraudProofVerifier) (proof : FraudProof) (pre post : H256)
    (seq who : Address) (sb cb reward : Z) :
  0 ≤ pct → 0 ≤ sb ≤ U128_MAX → verifier_new bond pct = Ok v →
  verify v proof pre post seq sb cb = Valid who reward →
  who = seq ∧ bond ≤ cb ∧ 0 ≤ reward ≤ sb ∧
  ∃ r, re_execute pre proof.(tx_data) = Ok r ∧ r ≠ post.
Proof.
  intros Hp Hsb Hv (H1 & _ & _ & H4 & H5 & -> & ->)%verify_Valid. unfold verifier_new in Hv. res_inv. cbn in *.
  split_and!; [done|done| | |eauto].
  - apply Z.div_pos; [|lia]. unfold saturating_mul. pose proof (Z.mul_nonneg_nonneg sb pct). ulia.
  - transitivity (sb * pct / 100); [apply Z.div_le_mono; [lia|]; unfold saturating_mul; lia|].
    apply Z.div_le_upper_bound; nia.
Qed.

(** The effect of a batch: its transactions in order. *)
Fixpoint execute_batch (root : H256) (txs : list (list Z)) : result error H256 :=
  match txs with
  | [] => Ok root
  | tx :: txs => root' ← re_execute root tx; execute_batch root' txs
  end.

(** An honest batch of several transactions can be slashed: when the
    root after its first transaction is not the root after all of them, a proof
    that names the first transaction is accepted although the batch's post-state
    is correct. The transaction index, the state proof and membership in the
    batch play no role. *)
Theorem honest_batch_slashed (v : FraudProofVerifier) (pre mid post : H256) (tx : list Z) (txs : list (list Z))
    (seq challenger : Address) (sb cb : Z) :
  v.(required_bond) ≤ cb → re_execute pre tx = Ok mid → execute_batch pre (tx :: txs) = Ok post → mid ≠ post →
  verify v (mkFraudProof 0 0 pre mid post challenger [] tx) pre post seq sb cb =
    Valid seq (saturating_mul U128_MAX sb v.(challenger_reward_pct) / 100).
Proof. intros Hcb Hre _ Hne. by apply verify_Valid. Qed.
End rollup.

(** A commitment becomes final only after its challenge window and
    unchallenged; final commitments stay final, and a refused request changes
    nothing. *)
Theorem finalized_after_window (b : L2Batch) (posted : Z) (slots : list Z) :
  let c := foldl (λ c s, (try_finalize s c).1) (commitment_new b posted) slots in
  c.(batch) = b ∧ c.(challenge_deadline) = Z.min U64_MAX (posted + CHALLENGE_WINDOW_SLOTS) ∧
  (c.(finalized) = true ↔ ∃ s, s ∈ slots ∧ c.(challenge_deadline) < s).
Proof.
  cbv zeta. induction slots as [|s slots IH] using rev_ind; cbn.
  - split_and!; [done..|]. split; [done|]. by intros (s & ?%not_elem_of_nil & _).
  - rewrite foldl_app. cbn. set (c := foldl _ _ _) in *. destruct IH as (Hb & Hd & Hf).
    assert (Hch : c.(challenged) = false).
    { subst c. clear. induction slots as [|s l IH] using rev_ind; [done|]. rewrite foldl_app. cbn.
      unfold try_finalize. unfold_M. by repeat (case_match; simplify_eq/=). }
    unfold try_finalize, is_past_challenge_window. unfold_M. rewrite Hch.
    destruct (Z.ltb_spec c.(challenge_deadline) s); cbn; split_and!; try done.
    + split; [|done]. intros _. exists s. set_solver.
    + rewrite Hf. split; intros (t & Ht & ?); exists t; set_solver by lia.
Qed.

(** ** A concrete engine: the root counts what is executed *)

#[local] Instance counting_executor : ReExecutor :=
  { re_execute root tx := if bool_decide (tx = []) then Err (Msg "empty") else Ok (root + Z.to_N (sum_list tx))%N }.

Lemma accepted_challenge_sound_witness :
  (9 = 9)%N ∧ 50 ≤ 60 ∧ 0 ≤ 250 ≤ 1000 ∧ ∃ r, re_execute 100 [1; 2] = Ok r ∧ r ≠ 110%N.
Proof.
  apply (accepted_challenge_sound 50 25 (mkVerifier 50 25) (mkFraudProof 0 0 100 103 110 7 [] [1; 2]) 100 110 9 9 1000 60 250);
    [done|done|reflexivity|reflexivity].
Defined.

Lemma honest_batch_slashed_witness :
  verify (mkVerifier 50 25) (mkFraudProof 0 0 100 103 107 8 [] [1; 2]) 100 107 9 1000 60 = Valid 9 250.
Proof.
  apply (honest_batch_slashed (mkVerifier 50 25) 100 103 107 [1; 2] [[4]] 9 8 1000 60); [done|reflexivity|reflexivity|done].
Defined.
End Rollup.
