(* ===== verification/DataAvailability.v ===== *)
(** * Data availability

    [crates/da]: the Reed-Solomon wrapper ([erasure-coding]), shreds and their
    validation ([shreds]), and the broadcaster, receiver, repair and topology of
    [turbine]. The erasure code itself is the library class [ReedSolomon]: what
    it documents is that encoding keeps the data shards and that any [k] of the
    [k + r] shards give all of them back. *)

From S2P Require Import Prelude.
From S2P Require Import Transaction.

Abbreviation shard := (list Z).

(** The [reed_solomon_erasure] crate. [rs_new] is whether the parameters are
    accepted. *)
Class ReedSolomon := {
  rs_new : nat → nat → bool;
  rs_encode : nat → nat → list shard → result error (list shard);
  rs_reconstruct : nat → nat → list (option shard) → result error (list (option shard));
  rs_encode_spec : ∀ k r n shards, rs_new k r = true → length shards = (k + r)%nat → (0 < n)%nat →
    Forall (λ s, length s = n) shards →
    ∃ out, rs_encode k r shards = Ok out ∧ take k out = take k shards ∧ length out = (k + r)%nat ∧
      Forall (λ s, length s = n) out;
  rs_reconstruct_spec : ∀ k r n shards out received, rs_new k r = true → length shards = (k + r)%nat → (0 < n)%nat →
    Forall (λ s, length s = n) shards → rs_encode k r shards = Ok out →
    Forall2 (λ x s, x = None ∨ x = Some s) received out → (k ≤ length (filter is_Some received))%nat →
    rs_reconstruct k r received = Ok (Some <$> out)
}.

(** ** erasure-coding *)

Module Erasure.
Section erasure.
Context `{ReedSolomon}.

Record ReedSolomonEncoder := mkEncoder { data_shards : nat; parity_shards : nat }.

(** The encoder and the decoder are made alike. *)
Definition new (k r : nat) : result error ReedSolomonEncoder :=
  bail_if (k =? 0)%nat (Msg "data shards must be non-zero");;
  bail_if (r =? 0)%nat (Msg "parity shards must be non-zero");;
  bail_if (negb (rs_new k r)) (Msg "failed to create RS encoder: {}");;
  mret (mkEncoder k r).

Definition shard_size (e : ReedSolomonEncoder) (data_len : nat) : nat :=
  ((data_len + e.(data_shards) - 1) / e.(data_shards))%nat.

(** One turn of the loop over the data shards. *)
Definition data_chunk (prefixed : list Z) (chunk_size shard_index : nat) : shard :=
  let start := (shard_index * chunk_size)%nat in
  let end_ := Nat.min (start + chunk_size) (length prefixed) in
  if (start <? length prefixed)%nat
  then let part := take (end_ - start) (drop start prefixed) in part ++ replicate (chunk_size - length part) 0
  else replicate chunk_size 0.

Definition encode (e : ReedSolomonEncoder) (data : list Z) : result error (list shard) :=
  let prefixed := to_le_bytes 8 (Z.of_nat (length data)) ++ data in
  let chunk_size := shard_size e (length prefixed) in
  if (chunk_size =? 0)%nat then mret (replicate (e.(data_shards) + e.(parity_shards)) []) else
  let shards := (data_chunk prefixed chunk_size <$> seq 0 e.(data_shards)) ++
                replicate e.(parity_shards) (replicate chunk_size 0) in
  map_err (prefix_error "encoding failed: ") (rs_encode e.(data_shards) e.(parity_shards) shards).

(** The loop that concatenates the data shards. *)
Fixpoint concat_shards (i : Z) (l : list (option shard)) : result error (list Z) :=
  match l with
  | [] => mret []
  | Some s :: l => rest ← concat_shards (i + 1) l; mret (s ++ rest)
  | None :: _ => mthrow (Fmt "reconstruction failed: data shard {} still missing" [i])
  end.

Definition decode (e : ReedSolomonEncoder) (shards : list (option shard)) : result error (list Z) :=
  let expected := (e.(data_shards) + e.(parity_shards))%nat in
  bail_if (negb (length shards =? expected)%nat)
    (Fmt "expected {} shards (data + parity), got {}" [Z.of_nat expected; Z.of_nat (length shards)]);;
  let present_count := length (filter is_Some shards) in
  bail_if (present_count <? e.(data_shards))%nat
    (Fmt "insufficient shards for reconstruction: need {}, have {}" [Z.of_nat e.(data_shards); Z.of_nat present_count]);;
  working ← map_err (prefix_error "reconstruction failed: ") (rs_reconstruct e.(data_shards) e.(parity_shards) shards);
  data ← concat_shards 0 (take e.(data_shards) working);
  bail_if (length data <? 8)%nat (Msg "decoded data too short: missing length prefix");;
  let original_len := from_le_bytes (take 8 data) in
  end_ ← ok_or (checked_add U64_MAX 8 original_len) (Fmt "length prefix overflow: 8 + {}" [original_len]);
  bail_if (Z.of_nat (length data) <? end_)
    (Fmt "length prefix {} exceeds decoded data size {}" [original_len; Z.of_nat (length data) - 8]);;
  mret (take (Z.to_nat end_ - 8) (drop 8 data)).

(** *** Round trip *)

Lemma div_ceil_spec a b : (0 < b)%nat → (a ≤ b * ((a + b - 1) / b))%nat.
Proof. intros Hb. pose proof (Nat.div_mod_eq (a + b - 1) b). pose proof (Nat.mod_upper_bound (a + b - 1) b). nia. Qed.

(** The chunks cut the padded data. *)
Lemma data_chunk_padded p n i k : (i < k)%nat → (length p ≤ k * n)%nat →
  data_chunk p n i = take n (drop (i * n) (p ++ replicate (k * n - length p) 0)).
Proof.
  intros Hi Hk. unfold data_chunk. assert (i * n + n ≤ k * n)%nat by nia.
  rewrite drop_app, take_app, drop_replicate, take_replicate, length_drop.
  destruct (Nat.ltb_spec (i * n) (length p)).
  - assert (take (Nat.min (i * n + n) (length p) - i * n) (drop (i * n) p) = take n (drop (i * n) p)) as ->.
    { destruct (Nat.min_spec (i * n + n) (length p)) as [[? ->]|[? ->]]; [f_equal; lia|].
      rewrite !take_ge; [done|rewrite length_drop; lia..]. }
    f_equal. rewrite length_take, length_drop. f_equal. lia.
  - rewrite drop_ge by lia. rewrite take_nil. cbn [app]. f_equal. lia.
Qed.

(** Consecutive slices of length [n] put together again. *)
Lemma concat_slices {A} (l : list A) n k : concat ((λ i, take n (drop (i * n) l)) <$> seq 0 k) = take (k * n) l.
Proof.
  induction k as [|k IH]; [done|]. rewrite seq_S, fmap_app, concat_app, IH. cbn [fmap list_fmap concat Nat.add].
  rewrite (right_id_L [] (++)), take_take_drop. f_equal. lia.
Qed.

Lemma concat_chunks p n k : (length p ≤ k * n)%nat →
  concat (data_chunk p n <$> seq 0 k) = p ++ replicate (k * n - length p) 0.
Proof.
  intros Hk. set (q := p ++ replicate (k * n - length p) 0).
  assert (Hq : length q = (k * n)%nat) by (unfold q; rewrite length_app, length_replicate; lia).
  rewrite <- (take_ge q (k * n)), <- concat_slices by lia. f_equal.
  apply list_fmap_ext. intros i j Hij. apply lookup_seq in Hij as [-> Hi]. by rewrite (data_chunk_padded p n _ k) by lia.
Qed.

Lemma concat_shards_Some i l : concat_shards i (Some <$> l) = Ok (concat l).
Proof. revert i. induction l as [|s l IH]; intros i; cbn; [done|]. by rewrite IH. Qed.

Lemma length_data_chunk p n i : length (data_chunk p n i) = n.
Proof.
  unfold data_chunk. case_match; [|by rewrite length_replicate].
  rewrite length_app, length_replicate, length_take, length_drop. lia.
Qed.

Lemma encode_Ok e data : rs_new e.(data_shards) e.(parity_shards) = true → (0 < e.(data_shards))%nat →
  let p := to_le_bytes 8 (Z.of_nat (length data)) ++ data in
  let n := shard_size e (length p) in
  let shards := (data_chunk p n <$> seq 0 e.(data_shards)) ++ replicate e.(parity_shards) (replicate n 0) in
  (0 < n)%nat ∧ (length p ≤ e.(data_shards) * n)%nat ∧ length shards = (e.(data_shards) + e.(parity_shards))%nat ∧
  Forall (λ s, length s = n) shards ∧
  ∃ out, encode e data = Ok out ∧ rs_encode e.(data_shards) e.(parity_shards) shards = Ok out ∧
    take e.(data_shards) out = data_chunk p n <$> seq 0 e.(data_shards) ∧
    length out = (e.(data_shards) + e.(parity_shards))%nat ∧ Forall (λ s, length s = n) out.
Proof.
  intros Hnew Hk p n shards.
  assert (Hp : (8 ≤ length p)%nat) by (unfold p; rewrite length_app, length_to_le_bytes; lia).
  pose proof (div_ceil_spec (length p) e.(data_shards) Hk) as Hdiv. fold (shard_size e (length p)) in Hdiv. fold n in Hdiv.
  assert (Hn : (0 < n)%nat) by (destruct n; lia).
  assert (Hlen : length shards = (e.(data_shards) + e.(parity_shards))%nat)
    by (unfold shards; rewrite length_app, length_fmap, length_seq, length_replicate; done).
  assert (Hall : Forall (λ s, length s = n) shards).
  { unfold shards. apply Forall_app. split.
    - apply Forall_fmap, Forall_true. intros i. apply length_data_chunk.
    - apply Forall_replicate. by rewrite length_replicate. }
  split_and!; [done..|]. destruct (rs_encode_spec _ _ n shards Hnew Hlen Hn Hall) as (out & He & Ht & Hl & Hf).
  exists out. split_and!; [|done| |done..].
  - unfold encode. fold p n. destruct (Nat.eqb_spec n 0); [lia|]. fold shards. by rewrite He.
  - rewrite Ht. unfold shards. rewrite take_app_length'; [done|]. by rewrite length_fmap, length_seq.
Qed.

Lemma decode_any e data out received :
  rs_new e.(data_shards) e.(parity_shards) = true → (0 < e.(data_shards))%nat →
  Z.of_nat (length data) + 8 ≤ U64_MAX → encode e data = Ok out →
  Forall2 (λ x s, x = None ∨ x = Some s) received out → (e.(data_shards) ≤ length (filter is_Some received))%nat →
  decode e received = Ok data.
Proof.
  intros Hnew Hk Hmax Henc Hrec Hcount.
  destruct (encode_Ok e data Hnew Hk) as (Hn & Hpl & Hlen & Hall & out' & He & Hrs & Htake & Hlo & Hfo).
  rewrite Henc in He. injection He as <-.
  set (p := to_le_bytes 8 (Z.of_nat (length data)) ++ data) in *. set (n := shard_size e (length p)) in *.
  unfold decode. rewrite (Forall2_length _ _ _ Hrec), Hlo, Nat.eqb_refl. cbn [negb].
  destruct (Nat.ltb_spec (length (filter is_Some received)) e.(data_shards)); [lia|].
  cbn [bail_if mbind result_bind mret result_ret].
  rewrite (rs_reconstruct_spec _ _ n _ out received Hnew Hlen Hn Hall Hrs Hrec Hcount).
  cbn [map_err mbind result_bind]. rewrite <- fmap_take, concat_shards_Some, Htake.
  rewrite concat_chunks by done. set (q := p ++ _).
  assert (Hq8 : take 8 q = to_le_bytes 8 (Z.of_nat (length data))).
  { unfold q, p. rewrite <- (assoc_L (++)). by rewrite take_app_length' by (by rewrite length_to_le_bytes). }
  assert (Hqd : drop 8 q = data ++ replicate (e.(data_shards) * n - length p) 0).
  { unfold q, p. rewrite <- (assoc_L (++)). by rewrite drop_app_length' by (by rewrite length_to_le_bytes). }
  assert (Hql : (length p ≤ length q)%nat) by (unfold q; rewrite length_app; lia).
  assert (Hp : length p = (8 + length data)%nat) by (unfold p; by rewrite length_app, length_to_le_bytes).
  unfold_M. rewrite (proj2 (Nat.ltb_ge (length q) 8)) by lia.
  rewrite Hq8, from_to_le_bytes by (split; [lia|]; change (256 ^ Z.of_nat 8) with (U64_MAX + 1); lia).
  unfold checked_add. rewrite (proj2 (Z.leb_le _ U64_MAX)) by lia.
  rewrite (proj2 (Z.ltb_ge (Z.of_nat (length q)) _)) by lia. f_equal. rewrite Hqd.
  replace (Z.to_nat (8 + Z.of_nat (length data)) - 8)%nat with (length data) by lia. apply take_app_length.
Qed.

Lemma erasure_parts k r e data : new k r = Ok e → Z.of_nat (length data) + 8 ≤ U64_MAX →
  e = mkEncoder k r ∧ (0 < k)%nat ∧
  ∃ out, encode e data = Ok out ∧ length out = (k + r)%nat ∧
    ∀ received, Forall2 (λ x s, x = None ∨ x = Some s) received out → (k ≤ length (filter is_Some received))%nat →
      decode e received = Ok data.
Proof.
  intros Hnew Hmax. unfold new in Hnew. res_inv. destruct (Nat.eqb_spec k 0); [done|]. clean_ints.
  split; [done|]. split; [lia|].
  destruct (encode_Ok (mkEncoder k r) data) as (_ & _ & _ & _ & out & He & _ & _ & Hl & _); [done|cbn; lia|].
  exists out. split_and!; [done..|]. intros received Hr Hc. apply (decode_any (mkEncoder k r) data out); cbn; done || lia.
Qed.

(** Data that is encoded can be decoded from any [k] of its shards. *)
Theorem erasure_roundtrip (k r : nat) (e : ReedSolomonEncoder) (data : list Z) :
  new k r = Ok e → Z.of_nat (length data) + 8 ≤ U64_MAX →
  ∃ out, encode e data = Ok out ∧ length out = (k + r)%nat ∧
    ∀ received, Forall2 (λ x s, x = None ∨ x = Some s) received out → (k ≤ length (filter is_Some received))%nat →
      decode e received = Ok data.
Proof. intros Hnew Hmax. by apply erasure_parts. Qed.
End erasure.
End Erasure.

(** ** shreds *)

Module Shreds.
Section shreds.
Context `{Digest, Dalek}.

Inductive ShredVariant := Data | Parity.

Record Shred := mkShred {
  variant : ShredVariant;
  slot : Z;
  index : Z;
  version : Z;
  fec_set_index : Z;
  block_id : H256;
  payload : list Z;
  signature : list Z;
  payload_hash : H256
}.

Definition hash_payload (p : list Z) : H256 := sha256_digest p.

Definition new (v : ShredVariant) (sl ix ver fec : Z) (b : H256) (p sig : list Z) : Shred :=
  mkShred v sl ix ver fec b p sig (hash_payload p).

Definition build_signing_message (sl ix : Z) (h : H256) : list Z :=
  to_le_bytes 8 sl ++ to_le_bytes 4 ix ++ as_bytes 32 h.

Definition signing_message (s : Shred) : list Z := build_signing_message s.(slot) s.(index) s.(payload_hash).

Definition validate_shred (s : Shred) (current_slot max_slot_age : Z) (proposer_pubkey : list Z) : result error unit :=
  bail_if (negb (s.(payload_hash) =? hash_payload s.(payload))%N) (Msg "payload hash mismatch");;
  bail_if (bool_decide (s.(signature) = [])) (Msg "missing signature");;
  map_err (λ _, Msg "invalid shred signature: {}") (Ed25519.verify proposer_pubkey (signing_message s) s.(signature));;
  bail_if (saturating_add U64_MAX s.(slot) max_slot_age <? current_slot) (Msg "stale shred").

(** Neither the block, nor the kind, version or set of a shred is signed: a
    valid shred stays valid when it is relabelled as part of another block. *)
Theorem shred_block_unsigned (s : Shred) (v : ShredVariant) (ver fec : Z) (b : H256) (now age : Z) (pk : list Z) :
  validate_shred s now age pk = Ok tt →
  validate_shred (mkShred v s.(slot) s.(index) ver fec b s.(payload) s.(signature) s.(payload_hash)) now age pk = Ok tt.
Proof. done. Qed.
End shreds.
End Shreds.

(** ** turbine *)

Module Turbine.
Import Erasure Shreds.

Section turbine.
Context `{ReedSolomon, Digest, DalekSigner}.

(** *** broadcast.rs *)

Record TurbineBroadcaster := mkBroadcaster {
  encoder : ReedSolomonEncoder;
  protocol_version : Z;
  signing_key : H256
}.

Definition broadcaster_new (k r : nat) (ver : Z) (key : H256) : result error TurbineBroadcaster :=
  e ← Erasure.new k r; mret (mkBroadcaster e ver key).

Definition shard_count (t : TurbineBroadcaster) : nat :=
  (t.(encoder).(data_shards) + t.(encoder).(parity_shards))%nat.

(** The loop over the shards, from index [idx] on. *)
Fixpoint shred_loop (t : TurbineBroadcaster) (sl : Z) (b : H256) (idx : nat) (shards : list shard) : result error (list Shred) :=
  match shards with
  | [] => mret []
  | chunk :: shards =>
      let ix := Z.of_nat idx in
      bail_if (U32_MAX <? ix) (Fmt "shard index {idx} exceeds u32::MAX" [ix]);;
      let v := if (idx <? t.(encoder).(data_shards))%nat then Data else Parity in
      let msg := build_signing_message sl ix (hash_payload chunk) in
      let sig := dalek_sign t.(signing_key) msg in
      rest ← shred_loop t sl b (S idx) shards;
      mret (Shreds.new v sl ix t.(protocol_version) 0 b chunk sig :: rest)
  end.

Definition make_shreds (t : TurbineBroadcaster) (sl : Z) (b : H256) (p : list Z) : result error (list Shred) :=
  shards ← encode t.(encoder) p;
  shred_loop t sl b 0 shards.

Definition public_key (t : TurbineBroadcaster) : list Z := as_bytes 32 (signing_public t.(signing_key)).

(** *** receive.rs *)

Definition MAX_PENDING_BLOCKS : nat := 64.
Definition MAX_PENDING_BYTES : Z := 128 * 1024 * 1024.

Record TurbineReceiver := mkReceiver {
  decoder : ReedSolomonEncoder;
  pending : gmap H256 (list (option shard));
  pending_order : list H256;
  pending_bytes : Z
}.

Definition receiver_new (k r : nat) : result error TurbineReceiver :=
  e ← Erasure.new k r; mret (mkReceiver e ∅ [] 0).

Definition shard_bytes (s : option shard) : Z := from_option (λ v, Z.of_nat (length v)) 0 s.
Definition block_bytes (shards : list (option shard)) : Z := sum_of shard_bytes shards.

(** [self.pending.remove(&block_id)] with its bytes. *)
Definition drop_pending (b : H256) (s : TurbineReceiver) : TurbineReceiver :=
  match s.(pending) !! b with
  | Some shards =>
      mkReceiver s.(decoder) (delete b s.(pending)) s.(pending_order) (saturating_sub s.(pending_bytes) (block_bytes shards))
  | None => s
  end.

Definition evict_oldest_pending (s : TurbineReceiver) : TurbineReceiver :=
  match s.(pending_order) with
  | [] => s
  | b :: rest => drop_pending b (mkReceiver s.(decoder) s.(pending) rest s.(pending_bytes))
  end.

Definition remove_pending (b : H256) (s : TurbineReceiver) : TurbineReceiver :=
  let s := drop_pending b s in
  mkReceiver s.(decoder) s.(pending) (filter (λ q, q ≠ b) s.(pending_order)) s.(pending_bytes).

(** The entry of the block, made if it is new. *)
Definition open_entry (b : H256) (total : nat) (s : TurbineReceiver) : TurbineReceiver :=
  let is_new_block := bool_decide (s.(pending) !! b = None) in
  let s := if is_new_block && (MAX_PENDING_BLOCKS <=? size s.(pending))%nat then evict_oldest_pending s else s in
  mkReceiver s.(decoder) (or_insert b (replicate total None) s.(pending))
    (if is_new_block then s.(pending_order) ++ [b] else s.(pending_order)) s.(pending_bytes).

(** The shard is put in place of the one that was there. *)
Definition put_shard (b : H256) (i : nat) (p : shard) (s : TurbineReceiver) : TurbineReceiver :=
  let entry := default [] (s.(pending) !! b) in
  let freed := saturating_sub s.(pending_bytes) (shard_bytes (default None (entry !! i))) in
  mkReceiver s.(decoder) (<[b := <[i := Some p]> entry]> s.(pending)) s.(pending_order)
    (saturating_add U64_MAX freed (Z.of_nat (length p))).

Definition ingest_shred (shred : Shred) : M TurbineReceiver error (option (list Z)) :=
  s ← get_state;
  let total_shards := (s.(decoder).(data_shards) + s.(decoder).(parity_shards))%nat in
  bail_if (Z.of_nat total_shards <=? shred.(index))
    (Fmt "shred index {} exceeds shard count {}" [shred.(index); Z.of_nat total_shards]);;
  let payload_len := Z.of_nat (length shred.(payload)) in
  bail_if (MAX_PENDING_BYTES <? saturating_add U64_MAX s.(pending_bytes) payload_len)
    (Fmt "pending data limit exceeded ({} + {} > {})" [s.(pending_bytes); payload_len; MAX_PENDING_BYTES]);;
  modify (open_entry shred.(block_id) total_shards);;
  modify (put_shard shred.(block_id) (Z.to_nat shred.(index)) shred.(payload));;
  s ← get_state;
  let entry := default [] (s.(pending) !! shred.(block_id)) in
  if (length (filter is_Some entry) <? s.(decoder).(data_shards))%nat then mret None else
  recovered ← reads (λ _, decode s.(decoder) entry);
  modify (remove_pending shred.(block_id));;
  mret (Some recovered).

(** *** repair.rs *)

(** [total as u32] keeps the low 32 bits; sorting and deduplication do not
    change which indices are present. *)
Definition missing_indices (total : nat) (present : list Z) : list Z :=
  filter (λ i, i ∉ present) (Z.of_nat <$> seq 0 (Z.to_nat (Z.of_nat total mod (U32_MAX + 1)))).

(** *** Memory bounds *)

Record recv_ok (s : TurbineReceiver) : Prop := {
  ok_order : NoDup s.(pending_order);
  ok_dom : ∀ b, b ∈ s.(pending_order) ↔ is_Some (s.(pending) !! b);
  ok_len : map_Forall (λ _ l, length l = (s.(decoder).(data_shards) + s.(decoder).(parity_shards))%nat) s.(pending);
  ok_bytes : s.(pending_bytes) = map_sum block_bytes s.(pending);
  ok_blocks : (length s.(pending_order) ≤ MAX_PENDING_BLOCKS)%nat;
  ok_limit : s.(pending_bytes) ≤ MAX_PENDING_BYTES
}.

Lemma shard_bytes_nonneg x : 0 ≤ shard_bytes x.
Proof. destruct x; cbn; lia. Qed.
Lemma block_bytes_nonneg l : 0 ≤ block_bytes l.
Proof. apply sum_of_nonneg, Forall_true. intros x. apply shard_bytes_nonneg. Qed.

Lemma order_size (l : list H256) (m : gmap H256 (list (option shard))) :
  NoDup l → (∀ b, b ∈ l ↔ is_Some (m !! b)) → size m = length l.
Proof.
  intros Hn Hd. rewrite <- size_dom. rewrite <- (size_list_to_set (C := gset H256) l Hn). f_equal.
  apply set_eq. intros b. by rewrite elem_of_dom, elem_of_list_to_set, Hd.
Qed.

Lemma drop_pending_bytes b s : s.(pending_bytes) = map_sum block_bytes s.(pending) →
  (drop_pending b s).(pending) = delete b s.(pending) ∧
  (drop_pending b s).(pending_bytes) = map_sum block_bytes (delete b s.(pending)) ∧
  (drop_pending b s).(pending_order) = s.(pending_order) ∧ (drop_pending b s).(decoder) = s.(decoder).
Proof.
  intros Hb. unfold drop_pending. rewrite map_sum_delete_opt. destruct (s.(pending) !! b) as [l|] eqn:E; cbn.
  - split_and!; [done| |done..]. rewrite Hb. unfold saturating_sub.
    pose proof (map_sum_lookup_le block_bytes s.(pending) b l (λ _ _ _, block_bytes_nonneg _) E). lia.
  - rewrite delete_id by done. split_and!; [done|lia|done..].
Qed.

Lemma map_sum_delete_le (m : gmap H256 (list (option shard))) b : map_sum block_bytes (delete b m) ≤ map_sum block_bytes m.
Proof.
  rewrite map_sum_delete_opt. destruct (m !! b); cbn; [|lia]. pose proof (block_bytes_nonneg l). lia.
Qed.

Lemma evict_ok s : recv_ok s → s.(pending_order) ≠ [] →
  recv_ok (evict_oldest_pending s) ∧ (length (evict_oldest_pending s).(pending_order) < length s.(pending_order))%nat ∧
  (evict_oldest_pending s).(decoder) = s.(decoder).
Proof.
  intros [Hn Hd Hl Hb Hk Hm] Hne. unfold evict_oldest_pending. destruct s.(pending_order) as [|b rest] eqn:Eo; [done|].
  destruct (drop_pending_bytes b (mkReceiver s.(decoder) s.(pending) rest s.(pending_bytes)) Hb) as (E1 & E2 & E3 & E4). cbn in *.
  apply NoDup_cons in Hn as [Hbr Hn]. rewrite E3, E4. split; [|split; [lia|done]].
  split; rewrite ?E1, ?E2, ?E3, ?E4; try done.
  - intros c. rewrite lookup_delete_is_Some, <- Hd, elem_of_cons. split; [intros Hc; split; [by intros ->|by right]|].
    intros [Hcb [->|?]]; done.
  - by apply map_Forall_delete.
  - lia.
  - rewrite Hb in Hm. pose proof (map_sum_delete_le s.(pending) b). lia.
Qed.

Lemma open_entry_ok b s : recv_ok s →
  let s' := open_entry b (s.(decoder).(data_shards) + s.(decoder).(parity_shards)) s in
  recv_ok s' ∧ is_Some (s'.(pending) !! b) ∧ s'.(decoder) = s.(decoder) ∧ s'.(pending_bytes) ≤ s.(pending_bytes).
Proof.
  intros Hs. unfold open_entry. destruct (s.(pending) !! b) as [l|] eqn:Eb.
  - rewrite bool_decide_false by done. cbn. unfold or_insert. rewrite Eb. split_and!; [|done|done|lia]. by destruct Hs.
  - rewrite bool_decide_true by done. cbv zeta. cbn [andb].
    set (total := (s.(decoder).(data_shards) + s.(decoder).(parity_shards))%nat).
    set (s1 := if (MAX_PENDING_BLOCKS <=? size s.(pending))%nat then evict_oldest_pending s else s).
    assert (Hpre : recv_ok s1 ∧ (length s1.(pending_order) < MAX_PENDING_BLOCKS)%nat ∧ s1.(decoder) = s.(decoder) ∧
      s1.(pending) !! b = None ∧ s1.(pending_bytes) ≤ s.(pending_bytes)).
    { unfold s1. pose proof (order_size _ _ (ok_order s Hs) (ok_dom s Hs)) as Hsz.
      destruct (Nat.leb_spec MAX_PENDING_BLOCKS (size s.(pending))); [|split_and!; [done|lia|done|done|lia]].
      destruct (evict_ok s Hs) as (Ho & Hlt & Hd); [intros E; rewrite E in Hsz; cbn in Hsz; unfold MAX_PENDING_BLOCKS in *; lia|].
      split_and!; [done|pose proof (ok_blocks s Hs); lia|done|..].
      - unfold evict_oldest_pending. destruct s.(pending_order) as [|c rest]; [done|].
        destruct (drop_pending_bytes c (mkReceiver s.(decoder) s.(pending) rest s.(pending_bytes)) (ok_bytes s Hs)) as (-> & _).
        cbn. destruct (decide (b = c)) as [->|]; [by rewrite lookup_delete_eq|by rewrite lookup_delete_ne].
      - unfold evict_oldest_pending. destruct s.(pending_order) as [|c rest]; [done|].
        destruct (drop_pending_bytes c (mkReceiver s.(decoder) s.(pending) rest s.(pending_bytes)) (ok_bytes s Hs)) as (_ & -> & _).
        cbn. rewrite (ok_bytes s Hs). apply map_sum_delete_le. }
    destruct Hpre as ([Hn Hd Hl Hb Hk Hm] & Hlt & Edec & Enone & Hle). unfold or_insert. rewrite Enone. cbn [pending decoder pending_bytes pending_order].
    assert (Hnot : b ∉ s1.(pending_order)) by (rewrite Hd, Enone; by intros [? ?]).
    assert (Hzero : block_bytes (replicate total None) = 0).
    { clear. unfold block_bytes. induction total as [|n IH]; [done|]. cbn [replicate]. rewrite sum_of_cons, IH. done. }
    split_and!; [|by rewrite lookup_insert_eq|done|done]. split; cbn; try done.
    + apply NoDup_app. split_and!; [done| |apply NoDup_singleton]. intros c Hc ->%list_elem_of_singleton. done.
    + intros c. rewrite elem_of_app, list_elem_of_singleton, lookup_insert_is_Some, Hd. naive_solver.
    + apply map_Forall_insert_2; [by rewrite length_replicate, Edec|done].
    + rewrite map_sum_insert_new, Hzero by done. lia.
    + rewrite length_app. cbn. lia.
Qed.

Lemma put_shard_ok b i p s l : recv_ok s → s.(pending) !! b = Some l → (i < length l)%nat →
  s.(pending_bytes) + Z.of_nat (length p) ≤ MAX_PENDING_BYTES →
  recv_ok (put_shard b i p s) ∧ (put_shard b i p s).(pending) = <[b := <[i := Some p]> l]> s.(pending) ∧
  (put_shard b i p s).(decoder) = s.(decoder) ∧ (put_shard b i p s).(pending_order) = s.(pending_order).
Proof.
  intros [Hn Hd Hl Hb Hk Hm] El Hi Hlim. unfold put_shard. rewrite El. change (default [] (Some l)) with l.
  destruct (lookup_lt_is_Some_2 l i Hi) as [old Ho]. rewrite Ho. change (default None (Some old)) with old.
  assert (Hsum : block_bytes (<[i := Some p]> l) = block_bytes l - shard_bytes old + Z.of_nat (length p)).
  { unfold block_bytes. rewrite list_insert_alter. by rewrite (sum_of_alter_index _ _ l i old Ho). }
  assert (Hold : shard_bytes old ≤ block_bytes l).
  { apply sum_of_elem; [apply Forall_true; intros; apply shard_bytes_nonneg|]. apply list_elem_of_lookup. eauto. }
  pose proof (map_sum_lookup_le block_bytes s.(pending) b l (λ _ _ _, block_bytes_nonneg _) El).
  pose proof (shard_bytes_nonneg old).
  assert (Hbytes : saturating_add U64_MAX (saturating_sub s.(pending_bytes) (shard_bytes old)) (Z.of_nat (length p)) =
    s.(pending_bytes) - shard_bytes old + Z.of_nat (length p)).
  { unfold MAX_PENDING_BYTES in *. ulia. }
  split_and!; [|done..]. split; cbn [pending_order pending decoder pending_bytes]; rewrite ?Hbytes; try done; try lia.
  - intros c. rewrite lookup_insert_is_Some, Hd. split; [|naive_solver].
    intros Hc. destruct (decide (b = c)); [by left|by right].
  - apply map_Forall_insert_2; [|done]. rewrite length_insert. by apply (Hl b).
  - rewrite map_sum_insert, El. cbn. lia.
Qed.

Lemma remove_pending_ok b s : recv_ok s →
  recv_ok (remove_pending b s) ∧ (remove_pending b s).(pending) = delete b s.(pending) ∧ (remove_pending b s).(decoder) = s.(decoder) ∧
  (remove_pending b s).(pending_order) = filter (λ q, q ≠ b) s.(pending_order).
Proof.
  intros [Hn Hd Hl Hb Hk Hm]. unfold remove_pending.
  destruct (drop_pending_bytes b s Hb) as (E1 & E2 & E3 & E4).
  cbn [pending_order pending decoder pending_bytes]. rewrite E1, E2, E3, E4. split_and!; [|done..].
  split; cbn [pending_order pending decoder pending_bytes]; try done.
  - by apply NoDup_filter.
  - intros c. rewrite list_elem_of_filter, lookup_delete_is_Some, Hd. naive_solver.
  - by apply map_Forall_delete.
  - etransitivity; [apply length_filter|done].
  - pose proof (map_sum_delete_le s.(pending) b). lia.
Qed.

(** The state after the shred has been filed. *)
Definition filed (shred : Shred) (s : TurbineReceiver) : TurbineReceiver :=
  put_shard shred.(block_id) (Z.to_nat shred.(index)) shred.(payload)
    (open_entry shred.(block_id) (s.(decoder).(data_shards) + s.(decoder).(parity_shards)) s).

Lemma filed_ok shred s : recv_ok s → 0 ≤ shred.(index) < Z.of_nat (s.(decoder).(data_shards) + s.(decoder).(parity_shards)) →
  s.(pending_bytes) + Z.of_nat (length shred.(payload)) ≤ MAX_PENDING_BYTES →
  recv_ok (filed shred s) ∧ (filed shred s).(decoder) = s.(decoder).
Proof.
  intros Hs Hi Hb. unfold filed. destruct (open_entry_ok shred.(block_id) s Hs) as (Ho & [l El] & Ed & Hle).
  destruct (put_shard_ok shred.(block_id) (Z.to_nat shred.(index)) shred.(payload) _ l Ho El) as (Hp & _ & Ed2 & _).
  - rewrite (ok_len _ Ho _ _ El), Ed. lia.
  - lia.
  - split; [done|]. by rewrite Ed2.
Qed.

(** Whatever shreds arrive, accepted or not, the receiver holds at most
    64 blocks and 128 MiB of shards, its count of bytes is exact, and its queue
    lists exactly the pending blocks, each once. *)
Theorem receiver_bounded (shred : Shred) (s s' : TurbineReceiver) (r : result error (option (list Z))) :
  recv_ok s → 0 ≤ shred.(index) → ingest_shred shred s = (s', r) → recv_ok s' ∧ s'.(decoder) = s.(decoder).
Proof.
  intros Hs Hix E. unfold ingest_shred in E. unfold_M.
  destruct (Z.leb_spec (Z.of_nat (s.(decoder).(data_shards) + s.(decoder).(parity_shards))) shred.(index)); [by simplify_eq|].
  destruct (Z.ltb_spec MAX_PENDING_BYTES (saturating_add U64_MAX s.(pending_bytes) (Z.of_nat (length shred.(payload))))); [by simplify_eq|].
  fold (filed shred s) in E.
  destruct (filed_ok shred s Hs) as [Hf Hd]; [lia| |].
  { unfold saturating_add, MAX_PENDING_BYTES in *. unfold U64_MAX in *. lia. }
  destruct (_ <? _)%nat; [by simplify_eq|]. destruct (decode _ _); simplify_eq; [|done].
  destruct (remove_pending_ok shred.(block_id) _ Hf) as (Hr & _ & -> & _). done.
Qed.

Lemma full_guard (shred : Shred) (s : TurbineReceiver) :
  s.(pending_bytes) = MAX_PENDING_BYTES → shred.(payload) ≠ [] →
  (MAX_PENDING_BYTES <? saturating_add U64_MAX s.(pending_bytes) (Z.of_nat (length shred.(payload)))) = true.
Proof.
  intros -> Hp. assert (1 ≤ Z.of_nat (length shred.(payload))) as Hn.
  { destruct shred.(payload); [done|]. rewrite length_cons. lia. }
  apply Z.ltb_lt. unfold saturating_add, MAX_PENDING_BYTES, U64_MAX. lia.
Qed.

(** A receiver whose memory is full refuses every shred with a payload
    and stays as it is: nothing is evicted for bytes, so the blocks that fill it
    stay until they can be decoded, which no shred can bring about. *)
Theorem full_receiver_stuck (shred : Shred) (s : TurbineReceiver) :
  s.(pending_bytes) = MAX_PENDING_BYTES → shred.(payload) ≠ [] → ∃ e, ingest_shred shred s = (s, Err e).
Proof.
  intros Hb Hp. pose proof (full_guard shred s Hb Hp) as Hg. unfold ingest_shred. unfold_M.
  rewrite Hg. destruct (Z.of_nat _ <=? _); eexists; reflexivity.
Qed.

(** *** Delivery *)

Fixpoint ingest_all (l : list Shred) : M TurbineReceiver error (list (option (list Z))) :=
  match l with
  | [] => mret []
  | x :: l => r ← ingest_shred x; rs ← ingest_all l; mret (r :: rs)
  end.

(** What the [i]-th shred of a block is. *)
Lemma shred_loop_lookup t sl b idx shards shreds : shred_loop t sl b idx shards = Ok shreds →
  ∀ i x, shreds !! i = Some x →
    ∃ chunk, shards !! i = Some chunk ∧ Z.of_nat (idx + i) ≤ U32_MAX ∧
      x = Shreds.new (if (idx + i <? t.(encoder).(data_shards))%nat then Data else Parity) sl (Z.of_nat (idx + i))
            t.(protocol_version) 0 b chunk
            (dalek_sign t.(signing_key) (build_signing_message sl (Z.of_nat (idx + i)) (hash_payload chunk))).
Proof.
  revert idx shreds. induction shards as [|c shards IH]; intros idx shreds E i x Hx; cbn [shred_loop] in E; res_inv; [done|].
  clean_ints. destruct i as [|i]; cbn in Hx.
  - injection Hx as <-. exists c. rewrite Nat.add_0_r. done.
  - destruct (IH (S idx) _ ltac:(eassumption) i x Hx) as (chunk & ? & ? & ->). exists chunk.
    replace (idx + S i)%nat with (S idx + i)%nat by lia. done.
Qed.

Lemma made_shred_valid t sl b idx shards shreds x now age : shred_loop t sl b idx shards = Ok shreds → x ∈ shreds →
  now ≤ sl + age → now ≤ U64_MAX → validate_shred x now age (public_key t) = Ok tt.
Proof.
  intros E [i Hi]%list_elem_of_lookup Hage Hnow. destruct (shred_loop_lookup _ _ _ _ _ _ E i x Hi) as (chunk & _ & _ & ->).
  unfold validate_shred, signing_message, Shreds.new. cbn [payload_hash payload signature slot index].
  rewrite N.eqb_refl. cbn [negb]. set (msg := build_signing_message _ _ _). set (sig := dalek_sign _ msg).
  assert (length sig = 64%nat) as Hl by apply sign_length. rewrite bool_decide_false by (intros Es; by rewrite Es in Hl).
  destruct (sign_verifies t.(signing_key) msg) as (vk & Hvk & Hv).
  assert (Ed25519.verify (public_key t) msg sig = Ok tt) as Hver.
  { unfold Ed25519.verify, public_key. rewrite length_as_bytes, Hl, Hvk. cbn. unfold sig. by rewrite Hv. }
  fold sig. rewrite Hver. unfold_M. cbn [map_err].
  rewrite (proj2 (Z.ltb_ge _ _)); [done|]. unfold saturating_add. lia.
Qed.

Lemma drop_pending_None b c s : s.(pending) !! b = None → (drop_pending c s).(pending) !! b = None.
Proof. intros Hb. unfold drop_pending. case_match; [|done]. cbn. by apply lookup_delete_None; right. Qed.

Lemma open_entry_lookup b n s :
  (open_entry b n s).(pending) !! b = Some (default (replicate n None) (s.(pending) !! b)).
Proof.
  unfold open_entry. destruct (s.(pending) !! b) as [l|] eqn:Eb.
  - rewrite bool_decide_false by done. cbn. unfold or_insert. by rewrite Eb.
  - rewrite bool_decide_true by done. cbv zeta. cbn [andb].
    set (s1 := if (MAX_PENDING_BLOCKS <=? size s.(pending))%nat then evict_oldest_pending s else s).
    assert (s1.(pending) !! b = None) as E1.
    { unfold s1. case_match; [|done]. unfold evict_oldest_pending. case_match; [done|]. by apply drop_pending_None. }
    cbn [pending]. unfold or_insert. rewrite E1. by rewrite lookup_insert_eq.
Qed.

Lemma count_insert (l : list (option shard)) i x : l !! i = Some None →
  length (filter is_Some (<[i := Some x]> l)) = S (length (filter is_Some l)).
Proof.
  revert i. induction l as [|y l IH]; intros [|i] Hi; cbn in Hi; try done.
  - injection Hi as ->. change (<[0%nat := Some x]> (None :: l)) with (Some x :: l).
    rewrite filter_cons_True by done. by rewrite filter_cons_False by (by intros [? ?]).
  - change (<[S i := Some x]> (y :: l)) with (y :: <[i := Some x]> l).
    destruct y as [y|]; [rewrite !filter_cons_True by done|rewrite !filter_cons_False by (by intros [? ?])];
      rewrite ?length_cons; by rewrite IH.
Qed.

Lemma count_replicate n : length (filter is_Some (replicate n (@None shard))) = 0%nat.
Proof. induction n as [|n IH]; [done|]. cbn [replicate]. by rewrite filter_cons_False by (by intros [? ?]). Qed.

(** A receiver that has filed [n] shreds of the block and waits for [todo]. *)
Record receiving (b : H256) (e : ReedSolomonEncoder) (out : list shard) (n : nat) (todo : list Shred) (s : TurbineReceiver) : Prop := {
  rc_ok : recv_ok s;
  rc_decoder : s.(decoder) = e;
  rc_entry : ∃ entry, default (replicate (length out) None) (s.(pending) !! b) = entry ∧
    Forall2 (λ x c, x = None ∨ x = Some c) entry out ∧ length (filter is_Some entry) = n ∧
    Forall (λ x, entry !! Z.to_nat x.(index) = Some None) todo;
  rc_room : s.(pending_bytes) + sum_of (λ x, Z.of_nat (length x.(payload))) todo ≤ MAX_PENDING_BYTES
}.

(** What the receiver expects of a shred of the block. *)
Definition shred_of (b : H256) (out : list shard) (x : Shred) : Prop :=
  x.(block_id) = b ∧ 0 ≤ x.(index) ∧ out !! Z.to_nat x.(index) = Some x.(payload).

Lemma receiving_step b e out n x todo s : receiving b e out n (x :: todo) s → shred_of b out x →
  Forall (shred_of b out) todo → NoDup (index <$> x :: todo) → length out = (e.(data_shards) + e.(parity_shards))%nat →
  receiving b e out (S n) todo (filed x s) ∧
  ingest_shred x s = if (S n <? e.(data_shards))%nat then (filed x s, Ok None)
    else match decode e (default [] ((filed x s).(pending) !! b)) with
         | Ok p => (remove_pending b (filed x s), Ok (Some p))
         | Err er => (filed x s, Err er)
         end.
Proof.
  intros [Hok Hdec (entry & Hent & Hrel & Hcount & Hnone) Hroom] (Hxb & Hx0 & Hxo) Htodo Hnd Hlen.
  apply Forall_cons in Hnone as [Hnx Hnone]. rewrite sum_of_cons in Hroom.
  assert (Hrest : 0 ≤ sum_of (λ x, Z.of_nat (length x.(payload))) todo) by (apply sum_of_nonneg, Forall_true; lia).
  pose proof (lookup_lt_Some _ _ _ Hxo) as Hlt.
  destruct (filed_ok x s Hok) as [Hfok Hfdec]; [rewrite Hdec; lia|lia|].
  assert (Hpend : (filed x s).(pending) !! b = Some (<[Z.to_nat x.(index) := Some x.(payload)]> entry)).
  { unfold filed, put_shard. cbn [pending]. rewrite Hxb, lookup_insert_eq, open_entry_lookup, Hdec, <- Hlen. cbn. by rewrite Hent. }
  split.
  - split; [done|congruence| |].
    + exists (<[Z.to_nat x.(index) := Some x.(payload)]> entry). rewrite Hpend. split; [done|]. split_and!.
      * rewrite <- (list_insert_id out _ _ Hxo). apply Forall2_insert; [done|by right].
      * rewrite count_insert by done. by rewrite Hcount.
      * cbn in Hnd. apply NoDup_cons in Hnd as [Hni _]. rewrite Forall_forall in Hnone, Htodo |- *.
        intros y Hy. destruct (Htodo y Hy) as (_ & Hy0 & _). rewrite list_lookup_insert_ne; [by apply Hnone|].
        intros Heq. apply Hni. apply list_elem_of_fmap. exists y. split; [lia|done].
    + enough ((filed x s).(pending_bytes) ≤ s.(pending_bytes) + Z.of_nat (length x.(payload))) by lia.
      destruct (open_entry_ok x.(block_id) s Hok) as (Hoo & _ & _ & Hle).
      unfold filed, put_shard. cbn [pending_bytes]. pose proof (ok_bytes _ Hoo) as Hb0.
      pose proof (map_sum_nonneg block_bytes (open_entry x.(block_id) (s.(decoder).(data_shards) + s.(decoder).(parity_shards)) s).(pending)
        (λ _ _ _, block_bytes_nonneg _)).
      set (old := shard_bytes _). assert (0 ≤ old) by apply shard_bytes_nonneg. unfold saturating_add, saturating_sub. lia.
  - unfold ingest_shred. unfold_M. rewrite (proj2 (Z.leb_gt _ _)) by (rewrite Hdec; lia).
    rewrite (proj2 (Z.ltb_ge _ _)) by (unfold saturating_add; lia).
    change (put_shard _ _ _ (open_entry _ _ s)) with (filed x s). rewrite Hxb, Hfdec, Hdec, Hpend.
    change (default [] (Some ?l)) with l. rewrite count_insert, Hcount by done.
    destruct (_ <? _)%nat; [done|]. by destruct (decode e _).
Qed.

Lemma ingest_all_cons x l s s1 r : ingest_shred x s = (s1, Ok r) →
  ingest_all (x :: l) s = let '(s2, rs) := ingest_all l s1 in (s2, match rs with Ok rs => Ok (r :: rs) | Err e => Err e end).
Proof. intros E. cbn [ingest_all]. unfold_M. rewrite E. destruct (ingest_all l s1) as [s2 [rs|er]]; done. Qed.

Lemma receiving_all b k r out p n todo s : let e := mkEncoder k r in
  receiving b e out n todo s → Forall (shred_of b out) todo → NoDup (index <$> todo) → length out = (k + r)%nat →
  (∀ received, Forall2 (λ x c, x = None ∨ x = Some c) received out → (k ≤ length (filter is_Some received))%nat →
    decode e received = Ok p) →
  (0 < length todo)%nat → (n + length todo)%nat = k →
  ∃ s', ingest_all todo s = (s', Ok (replicate (length todo - 1) None ++ [Some p])) ∧ recv_ok s' ∧ s'.(pending) !! b = None.
Proof.
  intros e. revert n s. induction todo as [|x todo IH]; intros n s Hr Hf Hnd Hlen Hdec Hpos Hn; [cbn in Hpos; lia|].
  apply Forall_cons in Hf as [Hx Hf]. destruct (receiving_step _ _ _ _ _ _ _ Hr Hx Hf Hnd Hlen) as [Hr' Hi].
  cbn [length] in *. cbn [data_shards] in *. destruct todo as [|y todo].
  - rewrite (proj2 (Nat.ltb_ge _ _)) in Hi by (cbn in *; lia). destruct (rc_entry _ _ _ _ _ _ Hr') as (entry & Hent & Hrel & Hcnt & _).
    destruct ((filed x s).(pending) !! b) as [l|] eqn:El; cbn in Hent; subst entry.
    + change (default [] (Some l)) with l in Hi. rewrite Hdec in Hi; [|done|cbn in *; lia].
      rewrite (ingest_all_cons _ _ _ _ _ Hi). eexists. split; [reflexivity|].
      destruct (remove_pending_ok b _ (rc_ok _ _ _ _ _ _ Hr')) as (? & -> & _). by rewrite lookup_delete_eq.
    + rewrite count_replicate in Hcnt. done.
  - rewrite (proj2 (Nat.ltb_lt _ _)) in Hi by (cbn in *; lia). rewrite (ingest_all_cons _ _ _ _ _ Hi).
    destruct (IH (S n) (filed x s)) as (s' & Hs' & Hok & Hb); [done..|by inversion Hnd|done|done|cbn; lia|cbn in *; lia|].
    rewrite Hs'. exists s'. split; [|done].
    cbn [length]. by replace (S (S (length todo)) - 1)%nat with (S (S (length todo) - 1)) by lia.
Qed.

(** C22: A block of any proposer reaches a receiver: every shred made of it is
    valid while it is fresh, and any [k] different ones, in any order, make a
    receiver with the same code, with nothing pending for the block and with
    room for them, return the block at the last of them and forget its
    shards. *)
Theorem turbine_delivers (k r : nat) (t : TurbineBroadcaster) (ver : Z) (key : H256) (e : ReedSolomonEncoder)
    (sl : Z) (b : H256) (p : list Z) (shreds picked : list Shred) (s : TurbineReceiver) (now age : Z) :
  broadcaster_new k r ver key = Ok t → Erasure.new k r = Ok e → Z.of_nat (length p) + 8 ≤ U64_MAX →
  make_shreds t sl b p = Ok shreds → now ≤ sl + age → now ≤ U64_MAX →
  recv_ok s → s.(decoder) = e → s.(pending) !! b = None →
  Forall (.∈ shreds) picked → NoDup (index <$> picked) → length picked = k →
  s.(pending_bytes) + sum_of (λ x, Z.of_nat (length x.(payload))) picked ≤ MAX_PENDING_BYTES →
  Forall (λ x, validate_shred x now age (public_key t) = Ok tt) shreds ∧
  ∃ s', ingest_all picked s = (s', Ok (replicate (k - 1) None ++ [Some p])) ∧ recv_ok s' ∧ s'.(pending) !! b = None.
Proof.
  intros Ht He Hmax Hm Hage Hnow Hs Hdec Hnone Hin Hnd Hk Hroom. unfold broadcaster_new in Ht. rewrite He in Ht.
  cbn in Ht. injection Ht as <-. destruct (erasure_parts k r e p He Hmax) as (-> & Hkpos & out & Henc & Hlen & Hdecode).
  unfold make_shreds in Hm. cbn [encoder] in Hm. rewrite Henc in Hm. cbn in Hm.
  split; [apply Forall_forall; intros x Hx; by eapply made_shred_valid|]. rewrite <- Hk.
  assert (Hof : Forall (shred_of b out) picked).
  { rewrite Forall_forall in Hin |- *. intros x [i Hi]%Hin%list_elem_of_lookup.
    destruct (shred_loop_lookup _ _ _ _ _ _ Hm i x Hi) as (c & Hc & _ & ->). unfold shred_of. cbn.
    rewrite Nat2Z.id. split_and!; [done|lia|done]. }
  apply (receiving_all b k r out p 0); try done; [|lia].
  split; try done. exists (replicate (length out) None). rewrite Hnone. split; [done|]. split_and!.
  - apply Forall2_replicate_l; [done|]. apply Forall_true. by left.
  - apply count_replicate.
  - rewrite Forall_forall in Hof |- *. intros x (_ & _ & Hx)%Hof. apply lookup_replicate_2. by eapply lookup_lt_Some.
Qed.
End turbine.
End Turbine.

(** ** turbine/topology.rs *)

Module Topology.

Record TurbineTopology := mkTopology { layers : list (list string); adjacency : gmap string (list string) }.

(** The children of the parent at position [parent_idx] of its layer. *)
Definition slice (parents children : list string) (parent_idx : nat) : list string :=
  let stride := ((length children + length parents - 1) / length parents)%nat in
  let start := (parent_idx * stride)%nat in
  let end_ := Nat.min ((parent_idx + 1) * stride) (length children) in
  if (start <? end_)%nat then take (end_ - start) (drop start children) else [].

(** The loop over the parents of a layer, from [parent_idx] on. *)
Fixpoint insert_parents (parents children : list string) (parent_idx : nat) (rest : list string)
    (adj : gmap string (list string)) : gmap string (list string) :=
  match rest with
  | [] => adj
  | parent :: rest => insert_parents parents children (S parent_idx) rest (<[parent := slice parents children parent_idx]> adj)
  end.

(** The loop over the layers that have a layer below. *)
Fixpoint rebuild_layers (ls : list (list string)) (adj : gmap string (list string)) : gmap string (list string) :=
  match ls with
  | parents :: ((children :: _) as below) =>
      rebuild_layers below (match parents with [] => adj | _ => insert_parents parents children 0 parents adj end)
  | _ => adj
  end.

Definition rebuild_adjacency (t : TurbineTopology) : TurbineTopology := mkTopology t.(layers) (rebuild_layers t.(layers) ∅).

Definition new (ls : list (list string)) : TurbineTopology := rebuild_adjacency (mkTopology ls ∅).
Definition layer (t : TurbineTopology) (depth : nat) : option (list string) := t.(layers) !! depth.
Definition children (t : TurbineTopology) (node : string) : list string := default [] (t.(adjacency) !! node).
Definition add_layer (t : TurbineTopology) (l : list string) : TurbineTopology :=
  rebuild_adjacency (mkTopology (t.(layers) ++ [l]) t.(adjacency)).

Lemma slice_take ps cs i : slice ps cs i =
  let n := ((length cs + length ps - 1) / length ps)%nat in take n (drop (i * n) cs).
Proof.
  unfold slice. set (n := (_ / _)%nat). cbv zeta. destruct (Nat.ltb_spec (i * n) (Nat.min ((i + 1) * n) (length cs))) as [Hlt|Hge].
  - destruct (Nat.min_spec ((i + 1) * n) (length cs)) as [[? E]|[? E]]; rewrite E; [f_equal; lia|].
    rewrite !take_ge; [done|rewrite length_drop; lia..].
  - destruct (Nat.min_spec ((i + 1) * n) (length cs)) as [[? E]|[? E]]; rewrite E in Hge.
    + replace n with 0%nat by lia. by rewrite take_0.
    + by rewrite drop_ge, take_nil by lia.
Qed.

(** The slices of a layer with a parent are the layer. *)
Lemma slices_all ps cs : ps ≠ [] → concat (slice ps cs <$> seq 0 (length ps)) = cs.
Proof.
  intros Hne. assert (0 < length ps)%nat by (destruct ps; [done|cbn; lia]).
  rewrite (list_fmap_ext _ (λ i, take ((length cs + length ps - 1) / length ps) (drop (i * ((length cs + length ps - 1) / length ps)) cs)))
    by (intros; apply slice_take).
  rewrite Erasure.concat_slices. apply take_ge. apply Erasure.div_ceil_spec. lia.
Qed.

Lemma insert_parents_other ps cs i rest adj x : x ∉ rest → insert_parents ps cs i rest adj !! x = adj !! x.
Proof.
  revert i adj. induction rest as [|y rest IH]; intros i adj Hx; [done|]. apply not_elem_of_cons in Hx as [Hxy Hx].
  cbn. rewrite IH by done. by rewrite lookup_insert_ne.
Qed.

Lemma insert_parents_lookup ps cs i rest adj j x : NoDup rest → rest !! j = Some x →
  insert_parents ps cs i rest adj !! x = Some (slice ps cs (i + j)).
Proof.
  revert i adj j. induction rest as [|y rest IH]; intros i adj j Hn Hj; [done|]. apply NoDup_cons in Hn as [Hy Hn].
  destruct j as [|j]; cbn in *.
  - injection Hj as ->. rewrite insert_parents_other, lookup_insert_eq by done. by rewrite Nat.add_0_r.
  - rewrite (IH (S i) _ j) by done. f_equal. f_equal. lia.
Qed.

Lemma rebuild_layers_cons ps cs below adj : rebuild_layers (ps :: cs :: below) adj =
  rebuild_layers (cs :: below) (match ps with [] => adj | _ => insert_parents ps cs 0 ps adj end).
Proof. done. Qed.

Lemma rebuild_layers_other ls adj x : x ∉ concat ls → rebuild_layers ls adj !! x = adj !! x.
Proof.
  revert adj. induction ls as [|ps [|cs below] IH]; intros adj Hx; [done..|]. rewrite rebuild_layers_cons.
  change (concat (ps :: cs :: below)) with (ps ++ concat (cs :: below)) in Hx. apply not_elem_of_app in Hx as [Hp Hx].
  rewrite IH by done. destruct ps; [done|]. by apply insert_parents_other.
Qed.

Lemma rebuild_layers_children ls adj d ps cs : NoDup (concat ls) → ls !! d = Some ps → ls !! S d = Some cs → ps ≠ [] →
  concat ((λ x, default [] (rebuild_layers ls adj !! x)) <$> ps) = cs.
Proof.
  revert adj d. induction ls as [|qs [|rs below] IH]; intros adj d Hn Hd Hd1 Hne; [done|by destruct d|].
  change (concat (qs :: rs :: below)) with (qs ++ concat (rs :: below)) in Hn.
  apply NoDup_app in Hn as (Hq & Hdis & Hn). destruct d as [|d]; [|by apply (IH _ d)]. cbn in Hd, Hd1. injection Hd as <-. injection Hd1 as <-.
  transitivity (concat (slice qs rs <$> seq 0 (length qs))); [f_equal|by apply slices_all].
  rewrite rebuild_layers_cons. apply list_eq. intros i.
  rewrite !list_lookup_fmap. destruct (qs !! i) as [x|] eqn:Ei.
  - pose proof (lookup_lt_Some _ _ _ Ei) as Hlt. rewrite lookup_seq_lt by done. cbn [fmap option_fmap option_map]. f_equal.
    rewrite rebuild_layers_other by (apply Hdis; apply list_elem_of_lookup; eauto).
    destruct qs as [|q qs]; [done|]. by rewrite (insert_parents_lookup _ _ 0 _ _ i x).
  - rewrite lookup_seq_ge by (by apply lookup_ge_None). done.
Qed.

(** When no node is in the tree twice, the children of the nodes of a
    layer, in order, are exactly the next layer: every node below the first
    layer has one parent that forwards to it, also after a layer is added. *)
Theorem topology_partition (ls : list (list string)) (l ps cs : list string) (d : nat) :
  let t := add_layer (new ls) l in
  NoDup (concat (ls ++ [l])) → layer t d = Some ps → layer t (S d) = Some cs → ps ≠ [] → concat (children t <$> ps) = cs.
Proof. intros t Hn Hd Hd1 Hne. by apply (rebuild_layers_children (ls ++ [l]) ∅ d). Qed.
End Topology.

From S2P Require Import Toy.

(** ** Examples *)

Module DataDemo.
Import Erasure Shreds Turbine.

(** The replication code: one data shard and [r] copies of it. *)
Definition first_present (l : list (option shard)) : option shard := head (omap id l).

Definition copies (k r : nat) (shards : list shard) : result error (list shard) :=
  match shards with d :: _ => Ok (replicate (k + r) d) | [] => Err (Msg "no shards") end.
Definition restored (k r : nat) (l : list (option shard)) : result error (list (option shard)) :=
  match first_present l with Some d => Ok (replicate (length l) (Some d)) | None => Err (Msg "too few shards") end.

Lemma first_present_copy d m received : Forall2 (λ x c, x = None ∨ x = Some c) received (replicate m d) →
  (1 ≤ length (filter is_Some received))%nat → first_present received = Some d.
Proof.
  revert m. induction received as [|x received IH]; intros m Hr Hc; [cbn in Hc; lia|]. destruct m as [|m]; [inversion Hr|].
  cbn [replicate] in Hr. apply Forall2_cons in Hr as [[->| ->] Hr]; [|done].
  rewrite filter_cons_False in Hc by (by intros [? ?]). by apply (IH m).
Qed.

#[global] Program Instance replication : ReedSolomon := {
  rs_new k r := (k =? 1)%nat; rs_encode := copies; rs_reconstruct := restored
}.
Next Obligation.
  intros k r n [|d shards] Hk%Nat.eqb_eq Hl Hn Hf; cbn in Hl; [lia|]. apply Forall_cons in Hf as [Hd _]. subst k.
  exists (replicate (1 + r) d). split_and!; [done..|by rewrite length_replicate|]. by apply Forall_replicate.
Qed.
Next Obligation.
  intros k r n [|d shards] out received Hk%Nat.eqb_eq Hl Hn Hf He Hr Hc; cbn in Hl; [lia|]. injection He as <-. subst k.
  unfold restored. rewrite (first_present_copy d (1 + r) received) by done.
  by rewrite (Forall2_length _ _ _ Hr), length_replicate, fmap_replicate.
Qed.

Definition demo_encoder : ReedSolomonEncoder := mkEncoder 1 2.

(** A block survives the loss of two of its three shards. *)
Lemma erasure_roundtrip_witness : ∃ out, encode demo_encoder [7; 8; 9] = Ok out ∧ length out = 3%nat ∧
  ∀ received, Forall2 (λ x s, x = None ∨ x = Some s) received out → (1 ≤ length (filter is_Some received))%nat →
    decode demo_encoder received = Ok [7; 8; 9].
Proof. apply (erasure_roundtrip 1 2 demo_encoder [7; 8; 9]); [reflexivity|cbn; unfold U64_MAX; lia]. Defined.

Definition demo_broadcaster : TurbineBroadcaster := mkBroadcaster demo_encoder 1 5%N.
Definition demo_shreds : list Shred :=
  match make_shreds demo_broadcaster 3 11%N [7; 8; 9] with Ok l => l | Err _ => [] end.
Definition demo_receiver : TurbineReceiver := mkReceiver demo_encoder ∅ [] 0.

Lemma demo_receiver_ok : recv_ok demo_receiver.
Proof.
  split; cbn; try done; [constructor|..|lia].
  intros b. rewrite lookup_empty. split; [by intros ?%elem_of_nil|by intros [? ?]].
Qed.

(** The block is delivered by its last shred alone. *)
Lemma turbine_delivers_witness :
  Forall (λ x, validate_shred x 4 10 (public_key demo_broadcaster) = Ok tt) demo_shreds ∧
  ∃ s', ingest_all (drop 2 demo_shreds) demo_receiver = (s', Ok [Some [7; 8; 9]]) ∧ recv_ok s' ∧ s'.(pending) !! 11%N = None.
Proof.
  apply (turbine_delivers 1 2 demo_broadcaster 1 5%N demo_encoder 3 11%N [7; 8; 9] demo_shreds (drop 2 demo_shreds) demo_receiver 4 10);
    try reflexivity; try (unfold U64_MAX; cbn; lia); [apply demo_receiver_ok|..].
  - apply Forall_forall. intros x Hx. apply list_elem_of_lookup in Hx as [i Hi]. rewrite lookup_drop in Hi.
    apply list_elem_of_lookup. eauto.
  - vm_compute. repeat constructor. intros Hx. inversion Hx.
  - vm_compute. discriminate.
Defined.

(** A shred that arrives leaves the receiver within its bounds. *)
Lemma receiver_bounded_witness : ∀ shred, demo_shreds !! 0%nat = Some shred →
  recv_ok (ingest_shred shred demo_receiver).1 ∧ (ingest_shred shred demo_receiver).1.(decoder) = demo_encoder.
Proof.
  intros shred E. apply (receiver_bounded shred demo_receiver _ (ingest_shred shred demo_receiver).2 demo_receiver_ok).
  - vm_compute in E. injection E as <-. vm_compute. discriminate.
  - destruct (ingest_shred shred demo_receiver); reflexivity.
Defined.

(** A receiver full of one block refuses the shreds of another. *)
Lemma full_receiver_stuck_witness : ∃ e,
  ingest_shred (Shreds.new Data 1 0 1 0 2%N [1] []) (mkReceiver demo_encoder ∅ [] MAX_PENDING_BYTES) =
    (mkReceiver demo_encoder ∅ [] MAX_PENDING_BYTES, Err e).
Proof. apply full_receiver_stuck; [reflexivity|discriminate]. Defined.

Lemma topology_partition_witness :
  concat (Topology.children (Topology.add_layer (Topology.new [["leader"%string]]) ["a"%string; "b"%string]) <$> ["leader"%string]) =
    ["a"%string; "b"%string].
Proof.
  apply (Topology.topology_partition [["leader"%string]] ["a"%string; "b"%string] _ _ 0); try reflexivity; [|discriminate].
  apply (bool_decide_unpack _). vm_compute. exact I.
Defined.
End DataDemo.
