(* ===== verification/Snapshots.v ===== *)
(** * State snapshots

    [crates/state/snapshots]: a snapshot of the accounts and outputs of a
    storage ([generator.rs]), its verification and import into another storage
    ([importer.rs]), and the files that hold snapshots ([io.rs]). A directory is
    a map from file names to contents; its I/O errors are left out. The encoding
    of snapshots (bincode) and the compression (zstd) are the class
    [SnapshotCodec]. *)

From S2P Require Import Prelude.
From S2P Require Import Merkle.
From S2P Require Import Transaction.
From S2P Require Import Storage.
From S2P Require Import Ledger.
From S2P Require Import LedgerSpec.
From S2P Require Import LedgerBlocks.

Record SnapshotMetadata := mkMetadata { height : Z; generated_at : Z }.

Record StateSnapshot := mkSnapshot {
  metadata : SnapshotMetadata;
  snapshot_root : H256;
  accounts : list (Address * Account);
  utxos : list (UtxoId * Utxo)
}.

Class SnapshotCodec `{Codec} := {
  de_utxo_id : bytes → result error UtxoId;
  ser_snapshot : StateSnapshot → bytes;
  de_snapshot : bytes → result error StateSnapshot;
  zstd_encode : Z → bytes → result error bytes;
  zstd_decode : bytes → result error bytes;
  de_ser_utxo_id : ∀ u, de_utxo_id (ser_utxo_id u) = Ok u;
  de_ser_snapshot : ∀ s, de_snapshot (ser_snapshot s) = Ok s;
  zstd_roundtrip : ∀ level b c, zstd_encode level b = Ok c → zstd_decode c = Ok b
}.

(** A directory: names and contents. *)
Abbreviation Dir := (gmap (list Z) (list Z)).

Module Snapshots.
Import Ledger.
Section snapshots.
Context `{Digest, !Codec, !Dalek, !RocksDb, !HashOrder, !SnapshotCodec}.

(** ** compression.rs *)

Definition compress (bs : bytes) : result error bytes := zstd_encode 3 bs.
Definition decompress (bs : bytes) : result error bytes := zstd_decode bs.

(** ** generator.rs *)

Definition from_slice (n : nat) (what : string) (bs : bytes) : result error N :=
  bail_if (negb (length bs =? n)%nat) (Msg what);;
  mret (Z.to_N (Storage.from_be_bytes bs)).

(** The loop over the entries of the accounts. *)
Fixpoint account_entries (entries : list (bytes * bytes)) : result error (list (Address * Account)) :=
  match entries with
  | [] => mret []
  | (key, value) :: entries =>
      a ← from_slice 20 "invalid address length: {e}" key;
      account ← de_account value;
      rest ← account_entries entries;
      mret ((a, account) :: rest)
  end.

Definition load_accounts (db : DB) : result error (list (Address * Account)) :=
  entries ← Storage.iterator db CF_ACCOUNTS;
  account_entries entries.

Fixpoint utxo_entries (entries : list (bytes * bytes)) : result error (list (UtxoId * Utxo)) :=
  match entries with
  | [] => mret []
  | (key, value) :: entries =>
      id ← de_utxo_id key;
      utxo ← de_utxo value;
      rest ← utxo_entries entries;
      mret ((id, utxo) :: rest)
  end.

Definition load_utxos (db : DB) : result error (list (UtxoId * Utxo)) :=
  entries ← Storage.iterator db CF_UTXOS;
  utxo_entries entries.

Definition load_state_root (db : DB) : result error H256 :=
  o ← Storage.get db CF_METADATA STATE_ROOT;
  match o with
  | Some bs => from_slice 32 "invalid state root: {e}" bs
  | None => mthrow (Msg "state root not found in storage metadata — database may be uninitialized")
  end.

(** [now] is the clock in seconds. *)
Definition generate_snapshot (db : DB) (h now : Z) : result error bytes :=
  accs ← load_accounts db;
  us ← load_utxos db;
  root ← load_state_root db;
  compress (ser_snapshot (mkSnapshot (mkMetadata h now) root accs us)).

Definition decode_snapshot (bs : bytes) : result error StateSnapshot :=
  raw ← decompress bs;
  de_snapshot raw.

(** ** importer.rs *)

Definition verify_tree (accs : list (Address * Account)) : Merkle.SparseMerkleTree :=
  foldl (λ t kv, Merkle.update kv.1 (sha256_digest (ser_account kv.2)) t) Merkle.new accs.

Definition SNAPSHOT_HEIGHT : bytes := str_bytes "snapshot_height".

Definition import_batch (s : StateSnapshot) : StorageBatch :=
  ((λ kv, Put CF_ACCOUNTS (as_bytes 20 kv.1) (ser_account kv.2)) <$> s.(accounts)) ++
  ((λ kv, Put CF_UTXOS (ser_utxo_id kv.1) (ser_utxo kv.2)) <$> s.(utxos)) ++
  [Put CF_METADATA STATE_ROOT (as_bytes 32 s.(snapshot_root));
   Put CF_METADATA SNAPSHOT_HEIGHT (to_be_bytes 8 s.(metadata).(height))].

Definition import_snapshot (bs : bytes) (db : DB) : result error (DB * StateSnapshot) :=
  s ← decode_snapshot bs;
  bail_if (s.(snapshot_root) =? 0)%N (Msg "snapshot has zero state root — likely corrupted");;
  let computed_root := (verify_tree s.(accounts)).(Merkle.root) in
  bail_if (negb (computed_root =? s.(snapshot_root))%N)
    (Msg "snapshot Merkle root mismatch: claimed {:?}, computed {:?} — data may be tampered");;
  db' ← Storage.write_batch (import_batch s) db;
  mret (db', s).

(** ** io.rs *)

(** The decimal digits of a number; 20 are enough for a u64. *)
Fixpoint dec_digits (fuel : nat) (h : Z) : bytes :=
  match fuel with
  | O => []
  | S fuel => if h <? 10 then [48 + h] else dec_digits fuel (h / 10) ++ [48 + h mod 10]
  end.
Definition dec (h : Z) : bytes := dec_digits 20 h.

(** [format!("{height:010}")]: at least ten digits. *)
Definition dec10 (h : Z) : bytes := replicate (10 - length (dec h)) 48 ++ dec h.

Definition SNAPSHOT_PREFIX : bytes := str_bytes "snapshot_".
Definition SNAPSHOT_SUFFIX : bytes := str_bytes ".bin.zst".

Definition snapshot_filename (h : Z) : bytes := SNAPSHOT_PREFIX ++ dec10 h ++ SNAPSHOT_SUFFIX.
Definition tmp_filename (h : Z) : bytes := str_bytes ".tmp_snapshot_" ++ dec h ++ SNAPSHOT_SUFFIX.

(** The temporary file is written and renamed. *)
Definition export_snapshot_to_file (db : DB) (h now : Z) (dir : Dir) : result error (Dir * bytes) :=
  compressed ← generate_snapshot db h now;
  let dest := snapshot_filename h in
  let tmp := tmp_filename h in
  mret (<[dest := compressed]> (delete tmp (<[tmp := compressed]> dir)), dest).

Definition import_snapshot_from_file (db : DB) (dir : Dir) (name : bytes) : result error (DB * StateSnapshot) :=
  match dir !! name with
  | None => mthrow (Msg "snapshot file not found: {}")
  | Some bs => import_snapshot bs db
  end.

Definition ends_with (suffix bs : bytes) : bool := starts_with (reverse suffix) (reverse bs).
Definition is_snapshot (name : bytes) : bool :=
  starts_with SNAPSHOT_PREFIX name && ends_with SNAPSHOT_SUFFIX name && negb (starts_with (str_bytes ".tmp_") name).

Definition name_le (x y : bytes) : Prop := Is_true (bytes_le x y).
#[global] Instance name_le_dec : RelDecision name_le.
Proof. intros x y. unfold name_le. apply _. Defined.

Definition snapshot_files (dir : Dir) : list bytes :=
  merge_sort name_le (filter (λ n, Is_true (is_snapshot n)) (map_to_list dir).*1).

(** All but the last [keep] names in the order of the names are deleted. *)
Definition prune_old_snapshots (dir : Dir) (keep : nat) : Dir * nat :=
  let files := snapshot_files dir in
  let to_remove := (length files - keep)%nat in
  (foldl (λ d n, delete n d) dir (take to_remove files), to_remove).

Definition strip_suffix (suffix bs : bytes) : option bytes :=
  if ends_with suffix bs then Some (take (length bs - length suffix) bs) else None.

Definition height_of_name (name : bytes) : option Z :=
  stem ← Storage.strip_prefix SNAPSHOT_PREFIX name;
  stem ← strip_suffix SNAPSHOT_SUFFIX stem;
  Storage.parse_u64 stem.

Definition list_snapshots (dir : Dir) : list Z := merge_sort Z.le (omap height_of_name (map_to_list dir).*1).

(** ** A snapshot carries the ledger over *)

(** Entries that list a map, inserted in their order, give the map. *)
Lemma from_slice_as_bytes n what x : (Z.of_N x < 256 ^ Z.of_nat n) → from_slice n what (as_bytes n x) = Ok x.
Proof.
  intros Hx. unfold from_slice. rewrite length_as_bytes, Nat.eqb_refl. cbn. f_equal.
  unfold Storage.from_be_bytes, as_bytes, to_be_bytes. rewrite reverse_involutive, from_to_le_bytes; lia.
Qed.

Lemma ser_account_inj x y : ser_account x = ser_account y → x = y.
Proof. intros E. pose proof (de_ser_account x) as D. rewrite E, de_ser_account in D. by injection D as ->. Qed.
Lemma ser_utxo_inj x y : ser_utxo x = ser_utxo y → x = y.
Proof. intros E. pose proof (de_ser_utxo x) as D. rewrite E, de_ser_utxo in D. by injection D as ->. Qed.

Lemma account_entries_run σ entries :
  (∀ k v, (k, v) ∈ entries → ∃ a acc, k = as_bytes 20 a ∧ (a < 2 ^ 160)%N ∧ σ.(accts) !! a = Some acc ∧ v = ser_account acc) →
  ∃ accs, account_entries entries = Ok accs ∧
    ∀ a acc, (a, acc) ∈ accs ↔ (a < 2 ^ 160)%N ∧ (as_bytes 20 a, ser_account acc) ∈ entries.
Proof.
  induction entries as [|[k v] entries IH]; intros Hin; [by exists []; split; [|set_solver]|].
  destruct (Hin k v) as (a & acc & -> & Ha & Hacc & ->); [left|].
  destruct IH as (accs & Hr & Hiff); [intros; apply Hin; by right|]. exists ((a, acc) :: accs). cbn [account_entries].
  rewrite from_slice_as_bytes by (change (256 ^ Z.of_nat 20) with (Z.of_N (2 ^ 160)); lia).
  cbn [mbind result_bind]. rewrite de_ser_account. cbn [mbind result_bind]. rewrite Hr. split; [done|].
  intros b bcc. rewrite !elem_of_cons, Hiff. split.
  - intros [E|?]; [simplify_eq; by split; [|left]|]. tauto.
  - intros [Hb [E|?]]; [|by right]. left. apply pair_eq in E as [E%as_bytes_20_inj E2%ser_account_inj]; [|done..]. by subst.
Qed.

(** The keys of the outputs are encodings of their ids. *)
Definition utxo_keys (db : DB) : Prop := ∀ k v, db_get db CF_UTXOS k = Some v → ∃ u, k = ser_utxo_id u.

Lemma utxo_entries_run entries :
  (∀ k v, (k, v) ∈ entries → ∃ u x, k = ser_utxo_id u ∧ v = ser_utxo x) →
  ∃ us, utxo_entries entries = Ok us ∧ ∀ u x, (u, x) ∈ us ↔ (ser_utxo_id u, ser_utxo x) ∈ entries.
Proof.
  induction entries as [|[k v] entries IH]; intros Hin; [by exists []; split; [|set_solver]|].
  destruct (Hin k v) as (u & x & -> & ->); [left|].
  destruct IH as (us & Hr & Hiff); [intros; apply Hin; by right|]. exists ((u, x) :: us). cbn [utxo_entries].
  rewrite de_ser_utxo_id. cbn [mbind result_bind]. rewrite de_ser_utxo. cbn [mbind result_bind]. rewrite Hr. split; [done|].
  intros w y. rewrite !elem_of_cons, Hiff. split; intros [E|?]; [|by right| |by right]; left.
  - by simplify_eq.
  - apply pair_eq in E as [E%ser_utxo_id_inj E2%ser_utxo_inj]. by subst.
Qed.

(** What a snapshot of a ledger's storage holds. *)
Definition snapshot_of (σ : LState) (root : H256) (h now : Z) (s : StateSnapshot) : Prop :=
  s.(metadata) = mkMetadata h now ∧ s.(snapshot_root) = root ∧
  (∀ a acc, (a, acc) ∈ s.(accounts) ↔ σ.(accts) !! a = Some acc) ∧
  (∀ u x, (u, x) ∈ s.(utxos) ↔ σ.(utxs) !! u = Some x).

Lemma generate_spec db σ root h now :
  state_ok σ → represents (db_get db) σ → utxo_keys db → (root < 2 ^ 256)%N →
  db_get db CF_METADATA STATE_ROOT = Some (as_bytes 32 root) →
  ∃ s, generate_snapshot db h now = compress (ser_snapshot s) ∧ snapshot_of σ root h now s.
Proof.
  intros Hσ HR Hu Hroot Hget.
  assert (Hin : ∀ k v, (k, v) ∈ db_iterator db CF_ACCOUNTS →
    ∃ a acc, k = as_bytes 20 a ∧ (a < 2 ^ 160)%N ∧ σ.(accts) !! a = Some acc ∧ v = ser_account acc)
    by (intros k v; apply (stored_entries (mkLedger db Merkle.new) σ k v Hσ HR)).
  destruct (account_entries_run σ _ Hin) as (accs & Ha & Hacc).
  destruct (utxo_entries_run (db_iterator db CF_UTXOS)) as (us & Hus & Hutx).
  { intros k v Hkv%db_iterator_spec. destruct (Hu k v Hkv) as [u ->]. rewrite (rep_utxs _ _ HR u) in Hkv.
    destruct (σ.(utxs) !! u) as [x|]; [|done]. injection Hkv as <-. eauto. }
  exists (mkSnapshot (mkMetadata h now) root accs us). split.
  - unfold generate_snapshot, load_accounts, load_utxos, load_state_root.
    rewrite !Storage.iterator_known, Storage.get_known by auto with aether. unfold_M. rewrite Ha, Hus, Hget.
    rewrite from_slice_as_bytes; [done|]. change (256 ^ Z.of_nat 32) with (Z.of_N (2 ^ 256)). lia.
  - split_and!; [done..| |].
    + cbn [accounts]. intros a acc. rewrite Hacc, db_iterator_spec. split.
      * intros [Hr Hel]. rewrite (rep_accts _ _ HR a Hr) in Hel.
        destruct (σ.(accts) !! a) as [acc'|]; [|done]. injection Hel as ->%ser_account_inj. done.
      * intros Hl. pose proof (proj1 (proj2 (ok_accts σ Hσ a acc Hl))) as Hr. split; [done|].
        by rewrite (rep_accts _ _ HR a Hr), Hl.
    + cbn [utxos]. intros u x. rewrite Hutx, db_iterator_spec, (rep_utxs _ _ HR u). split; [|by intros ->].
      destruct (σ.(utxs) !! u) as [y|]; [|done]. intros [= ->%ser_utxo_inj]. done.
Qed.

Lemma verify_tree_map accs :
  verify_tree accs = tree_of (foldl (λ m kv, <[kv.1 := kv.2]> m) ∅ ((λ kv, (kv.1, hash_account kv.2)) <$> accs)).
Proof.
  rewrite <- foldl_update_tree, tree_of_empty. unfold verify_tree. generalize Merkle.new.
  induction accs as [|kv accs IH]; intros t; [done|]. cbn. apply IH.
Qed.

Lemma verify_tree_snapshot σ root h now s : snapshot_of σ root h now s → verify_tree s.(accounts) = account_tree σ.
Proof.
  intros (_ & _ & Hacc & _). rewrite verify_tree_map. unfold account_tree.
  rewrite (foldl_insert_graph _ (hash_account <$> σ.(accts))); [reflexivity|]. intros a v. rewrite lookup_fmap_Some, list_elem_of_fmap. split.
  - intros ([b acc] & [= -> ->] & Hel%Hacc). eauto.
  - intros (acc & <- & Hl%Hacc). by exists (a, acc).
Qed.

Lemma represents_accounts get accs m u :
  Forall (λ kv, kv.2.(address) = kv.1 ∧ (kv.1 < 2 ^ 160)%N) accs → represents get (mkLState m u) →
  represents (after ((λ kv, Put CF_ACCOUNTS (as_bytes 20 kv.1) (ser_account kv.2)) <$> accs) get)
    (mkLState (foldl (λ m kv, <[kv.1 := kv.2]> m) m accs) u).
Proof.
  intros Hall. revert get m. induction Hall as [|[a acc] accs [Ea Hr] _ IH]; intros get m HR; [done|]. cbn in Ea, Hr.
  cbn [fmap list_fmap foldl fst snd]. apply (represents_app [_]), IH. subst a.
  by apply (represents_put_account get (mkLState m u) acc).
Qed.

Lemma represents_utxos get us m u : represents get (mkLState m u) →
  represents (after ((λ kv, Put CF_UTXOS (ser_utxo_id kv.1) (ser_utxo kv.2)) <$> us) get)
    (mkLState m (foldl (λ m kv, <[kv.1 := kv.2]> m) u us)).
Proof.
  revert get u. induction us as [|[i x] us IH]; intros get u HR; [done|].
  cbn [fmap list_fmap foldl fst snd]. apply (represents_app [_]), IH. by apply (represents_put_utxo get (mkLState m u) i x).
Qed.

(** A storage without accounts and outputs. *)
Definition fresh (db : DB) : Prop := ∀ k, db_get db CF_ACCOUNTS k = None ∧ db_get db CF_UTXOS k = None.

Lemma import_represents db σ root h now s : state_ok σ → fresh db → snapshot_of σ root h now s →
  represents (db_get (db_write db (import_batch s))) σ.
Proof.
  intros Hσ Hf (_ & _ & Hacc & Hutx).
  eapply represents_ext; [intros k; symmetry; apply get_write_after..|]. unfold import_batch.
  apply represents_app, represents_app, (represents_app [_]), represents_metadata, represents_metadata.
  destruct σ as [m u]. rewrite <- (foldl_insert_graph s.(accounts) m), <- (foldl_insert_graph s.(utxos) u) by done.
  apply represents_utxos, represents_accounts.
  - apply Forall_forall. intros [a acc] Hel%Hacc. destruct (ok_accts _ Hσ a acc Hel) as (? & ? & _). done.
  - constructor; cbn; intros; rewrite ?(proj1 (Hf _)), ?(proj2 (Hf _)) in *; by rewrite ?lookup_empty.
Qed.

Lemma import_batch_resolves s db : Storage.write_batch (import_batch s) db = Ok (db_write db (import_batch s)).
Proof.
  apply Storage.write_batch_known. unfold import_batch. rewrite !Forall_app, !Forall_fmap.
  split_and!; [apply Forall_true; intros; cbn; auto with aether..|]. repeat constructor; auto with aether.
Qed.

Lemma import_iff bs db s db' s' : decode_snapshot bs = Ok s →
  import_snapshot bs db = Ok (db', s') ↔
  s.(snapshot_root) ≠ 0%N ∧ (verify_tree s.(accounts)).(Merkle.root) = s.(snapshot_root) ∧
  db' = db_write db (import_batch s) ∧ s' = s.
Proof.
  intros Hd. unfold import_snapshot. rewrite Hd. unfold_M. rewrite import_batch_resolves.
  destruct (N.eqb_spec s.(snapshot_root) 0), (N.eqb_spec (verify_tree s.(accounts)).(Merkle.root) s.(snapshot_root));
    cbn [negb]; naive_solver.
Qed.

Lemma decode_compressed s bs : compress (ser_snapshot s) = Ok bs → decode_snapshot bs = Ok s.
Proof.
  intros Hc. unfold decode_snapshot, decompress. rewrite (zstd_roundtrip 3 _ _ Hc). apply de_ser_snapshot.
Qed.

(** A ledger exported to a file and imported from it into a fresh storage
    is the same ledger: the import is accepted, and opening the storage gives the
    same accounts, outputs and state root. *)
Theorem snapshot_roundtrip (l : Ledger) (σ : LState) (h now : Z) (dir dir' : Dir) (name : bytes) (db0 : DB) :
  ledger_inv l σ → utxo_keys l.(storage) → db_get l.(storage) CF_METADATA STATE_ROOT = Some (as_bytes 32 (state_root l)) →
  (state_root l < 2 ^ 256)%N → state_root l ≠ 0%N → fresh db0 →
  export_snapshot_to_file l.(storage) h now dir = Ok (dir', name) →
  ∃ db1 s l', import_snapshot_from_file db0 dir' name = Ok (db1, s) ∧ s.(metadata).(height) = h ∧
    new db1 = Ok l' ∧ ledger_inv l' σ ∧ state_root l' = state_root l.
Proof.
  intros [Hσ HR Ht] Hu Hget Hr Hz Hf He. unfold export_snapshot_to_file in He.
  destruct (generate_spec _ σ (state_root l) h now Hσ HR Hu Hr Hget) as (s & Hgen & Hs). rewrite Hgen in He. res_inv. subst name.
  destruct (new_refines (mkLedger (db_write db0 (import_batch s)) (account_tree σ)) σ) as (l' & Hnew & Hl').
  { constructor; [done|by eapply import_represents|done]. }
  assert (Eroot : state_root l = (account_tree σ).(Merkle.root)) by (unfold state_root; by rewrite Ht).
  exists (db_write db0 (import_batch s)), s, l'. split_and!.
  - unfold import_snapshot_from_file. rewrite lookup_insert_eq. eapply import_iff; [by apply decode_compressed|].
    rewrite (verify_tree_snapshot _ _ _ _ _ Hs). destruct Hs as (_ & -> & _). done.
  - by destruct Hs as (-> & _).
  - done.
  - done.
  - unfold state_root. by rewrite Ht, (inv_tree _ _ Hl').
Qed.

(** ** What the verification of a snapshot shows *)

(** The accounts a snapshot sets: a later entry of an address wins. *)
Definition set_accounts (accs : list (Address * Account)) : gmap Address Account :=
  foldl (λ m kv, <[kv.1 := kv.2]> m) ∅ accs.

Lemma foldl_insert_fmap {K V W} `{Countable K} (f : V → W) (kvs : list (K * V)) (m : gmap K V) :
  foldl (λ m kv, <[kv.1 := kv.2]> m) (f <$> m) ((λ kv, (kv.1, f kv.2)) <$> kvs) =
  f <$> foldl (λ m kv, <[kv.1 := kv.2]> m) m kvs.
Proof. revert m. induction kvs as [|[k v] kvs IH]; intros m; [done|]. cbn. by rewrite <- IH, fmap_insert. Qed.

Lemma verify_tree_leaves accs : verify_tree accs = tree_of (hash_account <$> set_accounts accs).
Proof.
  rewrite verify_tree_map. unfold set_accounts. rewrite <- (foldl_insert_fmap hash_account accs ∅), fmap_empty. reflexivity.
Qed.

Lemma tree_of_wf (m : gmap Address Account) : map_Forall (λ a _, (a < 2 ^ 160)%N) m →
  Merkle.tree_wf (tree_of (hash_account <$> m)).
Proof.
  intros Hm. apply Merkle.set_leaves_wf; [apply Merkle.new_wf|]. intros a v (acc & <- & Ha)%lookup_fmap_Some.
  split; [by eapply Hm|]. apply digest_range.
Qed.

Lemma set_accounts_range accs : Forall (λ kv : Address * Account, (kv.1 < 2 ^ 160)%N) accs →
  map_Forall (λ a _, (a < 2 ^ 160)%N) (set_accounts accs).
Proof.
  intros Hall. unfold set_accounts. cut (∀ m : gmap Address Account, map_Forall (λ a (_ : Account), (a < 2 ^ 160)%N) m →
    map_Forall (λ a _, (a < 2 ^ 160)%N) (foldl (λ m kv, <[kv.1 := kv.2]> m) m accs)).
  { intros Hgen. by apply Hgen, map_Forall_empty. }
  induction Hall as [|kv accs Hkv _ IH]; intros m Hm; [done|]. cbn. by apply IH, map_Forall_insert_2.
Qed.

(** Two inputs hashed on the way to the roots, or two accounts, collide. *)
Definition account_collision (a : Address) (m m' : gmap Address Account) : Prop :=
  Merkle.collide (Merkle.path_inputs (Merkle.prove a (tree_of (hash_account <$> m))))
                 (Merkle.path_inputs (Merkle.prove a (tree_of (hash_account <$> m')))) ∨
  ∃ x y, m !! a = Some x ∧ m' !! a = Some y ∧ x ≠ y ∧ sha256_digest (ser_account x) = sha256_digest (ser_account y).

Lemma same_root_same_account a m m' :
  map_Forall (λ a _, (a < 2 ^ 160)%N) m → map_Forall (λ a _, (a < 2 ^ 160)%N) m' → (a < 2 ^ 160)%N →
  (tree_of (hash_account <$> m)).(Merkle.root) = (tree_of (hash_account <$> m')).(Merkle.root) →
  m !! a = m' !! a ∨ account_collision a m m'.
Proof.
  intros Hm Hm' Ha Hroot. set (t := tree_of (hash_account <$> m)) in *. set (t' := tree_of (hash_account <$> m')) in *.
  destruct (Merkle.verified_value_raw t' (Merkle.prove a t)) as [E|Hc].
  - by apply tree_of_wf.
  - done.
  - change (Merkle.value_ok ((hash_account <$> m) !! a)). rewrite lookup_fmap.
    destruct (m !! a); [|done]. apply digest_range.
  - apply Merkle.prove_verifies_raw; [by apply tree_of_wf|done].
  - exact Hroot.
  - change ((hash_account <$> m) !! a = (hash_account <$> m') !! a) in E. rewrite !lookup_fmap in E.
    destruct (m !! a) as [x|] eqn:Ex, (m' !! a) as [y|] eqn:Ey; try done; [|by left].
    injection E as E. destruct (decide (ser_account x = ser_account y)) as [->%ser_account_inj|Hne]; [by left|].
    right. right. exists x, y. split_and!; try done. intros ->. done.
  - right. by left.
Qed.

(** The value under an account's key once the account was set, if it was. *)
Definition stored (acc : option Account) (old : option bytes) : option bytes :=
  match acc with Some x => Some (ser_account x) | None => old end.

Lemma after_accounts accs (m : gmap Address Account) a old :
  Forall (λ kv : Address * Account, (kv.1 < 2 ^ 160)%N) accs → (a < 2 ^ 160)%N →
  foldl (apply_op CF_ACCOUNTS (as_bytes 20 a)) (stored (m !! a) old)
    ((λ kv, Put CF_ACCOUNTS (as_bytes 20 kv.1) (ser_account kv.2)) <$> accs) =
  stored (foldl (λ m kv, <[kv.1 := kv.2]> m) m accs !! a) old.
Proof.
  intros Hall Ha. revert m. induction Hall as [|[b acc] accs Hb _ IH]; intros m; [done|].
  cbn [fmap list_fmap foldl fst snd]. rewrite <- IH. f_equal. cbn in *. destruct (decide (b = a)) as [->|Hne].
  - by rewrite lookup_insert_eq, bool_decide_true.
  - rewrite lookup_insert_ne, bool_decide_false; [done| |done]. intros [_ E]. by apply as_bytes_20_inj in E.
Qed.

Lemma after_outputs us k x :
  foldl (apply_op CF_ACCOUNTS k) x ((λ kv, Put CF_UTXOS (ser_utxo_id kv.1) (ser_utxo kv.2)) <$> us) = x.
Proof. induction us as [|[u y] us IH]; [done|]. cbn. rewrite bool_decide_false by (intros [? _]; done). exact IH. Qed.

(** What the batch of an import leaves under the key of an account. *)
Lemma import_account s db a :
  Forall (λ kv : Address * Account, (kv.1 < 2 ^ 160)%N) s.(accounts) → (a < 2 ^ 160)%N →
  db_get (db_write db (import_batch s)) CF_ACCOUNTS (as_bytes 20 a) =
    stored (set_accounts s.(accounts) !! a) (db_get db CF_ACCOUNTS (as_bytes 20 a)).
Proof.
  intros Hall Ha. rewrite get_write_after. unfold import_batch, after. rewrite !foldl_app, after_outputs. cbn [foldl apply_op].
  rewrite !bool_decide_false by (intros [? _]; done). exact (after_accounts _ ∅ a _ Hall Ha).
Qed.

Lemma import_root s db : db_get (db_write db (import_batch s)) CF_METADATA STATE_ROOT = Some (as_bytes 32 s.(snapshot_root)).
Proof.
  rewrite get_write_after. unfold import_batch, after. rewrite !foldl_app. cbn [foldl apply_op].
  rewrite bool_decide_false by (intros [_ ?]; done). by rewrite bool_decide_true.
Qed.

(** C25: When a snapshot that claims the state root of a ledger is imported, the
    storage it leaves holds under the key of every account of the ledger the
    encoding of exactly that account, whatever was there before; under the key
    of an address without account in the ledger nothing was written; and the
    state root under its key is the ledger's; unless two of the inputs hashed
    for the two roots collide. *)
Theorem imported_accounts_authentic (l : Ledger) (σ : LState) (bs : bytes) (db db' : DB) (s : StateSnapshot) (a : Address) :
  ledger_inv l σ → import_snapshot bs db = Ok (db', s) → s.(snapshot_root) = state_root l →
  Forall (λ kv, (kv.1 < 2 ^ 160)%N) s.(accounts) → (a < 2 ^ 160)%N →
  db_get db' CF_METADATA STATE_ROOT = Some (as_bytes 32 (state_root l)) ∧
  (db_get db' CF_ACCOUNTS (as_bytes 20 a) =
     match σ.(accts) !! a with Some acc => Some (ser_account acc) | None => db_get db CF_ACCOUNTS (as_bytes 20 a) end ∨
   account_collision a (set_accounts s.(accounts)) σ.(accts)).
Proof.
  intros [Hσ HR Ht] Himp Hroot Hr Ha. unfold import_snapshot in Himp. res_inv. clean_ints.
  rewrite import_batch_resolves in *. simplify_eq. split; [by rewrite import_root, Hroot|].
  rewrite import_account by done. destruct (same_root_same_account a (set_accounts s.(accounts)) σ.(accts)) as [->|Hc];
    [by apply set_accounts_range| |done| |by left|by right].
  - intros b acc Hb. by apply (ok_accts σ Hσ b acc Hb).
  - rewrite <- verify_tree_leaves. unfold state_root in Hroot. rewrite Ht in Hroot. unfold account_tree in Hroot. congruence.
Qed.

(** The outputs are not verified: whatever list replaces those of an
    accepted snapshot, the snapshot is still accepted, and writes that list. *)
Theorem snapshot_utxos_unverified (s : StateSnapshot) (forged : list (UtxoId * Utxo)) (bs bs' : bytes) (db db1 : DB) :
  let s' := mkSnapshot s.(metadata) s.(snapshot_root) s.(accounts) forged in
  compress (ser_snapshot s) = Ok bs → compress (ser_snapshot s') = Ok bs' → import_snapshot bs db = Ok (db1, s) →
  ∃ db2, import_snapshot bs' db = Ok (db2, s') ∧
    ∀ u x rest, forged = rest ++ [(u, x)] → db_get db2 CF_UTXOS (ser_utxo_id u) = Some (ser_utxo x).
Proof.
  intros s' Hc Hc' Himp. exists (db_write db (import_batch s')). split.
  - apply import_iff with (s := s'); [by apply decode_compressed|].
    apply (import_iff _ _ s) in Himp as (? & ? & _ & _); [done|by apply decode_compressed].
  - intros u x rest ->. rewrite get_write_after. unfold import_batch, after. cbn [utxos s'].
    rewrite fmap_app, !foldl_app. cbn. rewrite !bool_decide_false by (intros [? _]; done).
    by rewrite bool_decide_true.
Qed.

(** ** The directory of snapshots *)

(** Exactly [n] digits. *)
Fixpoint fixed (n : nat) (h : Z) : bytes :=
  match n with O => [] | S n => fixed n (h / 10) ++ [48 + h mod 10] end.

Lemma length_fixed n h : length (fixed n h) = n.
Proof. revert h. induction n as [|n IH]; intros h; [done|]. cbn. rewrite length_app, IH. cbn. lia. Qed.

Lemma fixed_zero n : fixed n 0 = replicate n 48.
Proof. induction n as [|n IH]; [done|]. cbn [fixed]. rewrite Z.div_0_l, IH by lia. change (48 + 0 mod 10) with 48. symmetry. apply replicate_S_end. Qed.

Lemma dec_digits_fixed f n h : (1 ≤ n ≤ f)%nat → 0 ≤ h < 10 ^ Z.of_nat n →
  (length (dec_digits f h) ≤ n)%nat ∧ replicate (n - length (dec_digits f h)) 48 ++ dec_digits f h = fixed n h.
Proof.
  revert n h. induction f as [|f IH]; intros n h Hn Hh; [lia|]. cbn [dec_digits]. destruct n as [|n]; [lia|].
  destruct (Z.ltb_spec h 10).
  - cbn [length fixed]. split; [lia|]. rewrite Z.div_small, fixed_zero, Z.mod_small by lia. do 2 f_equal. lia.
  - rewrite Nat2Z.inj_succ, Z.pow_succ_r in Hh by lia. destruct n as [|n]; [cbn in Hh; lia|].
    destruct (IH (S n) (h / 10)) as [Hl E]; [lia| |].
    { pose proof (Z.div_mod h 10 ltac:(lia)). pose proof (Z.mod_pos_bound h 10 ltac:(lia)).
      split; [lia|]. apply Z.div_lt_upper_bound; lia. }
    rewrite length_app. cbn [length]. split; [lia|]. cbn [fixed] in *. rewrite <- E, (assoc_L (++)). do 3 f_equal. lia.
Qed.

Lemma dec10_fixed h : 0 ≤ h < 10 ^ 10 → dec10 h = fixed 10 h.
Proof. intros Hh. unfold dec10, dec. by apply (dec_digits_fixed 20 10 h); [lia|]. Qed.

Lemma bytes_le_refl x : bytes_le x x = true.
Proof. induction x as [|a x IH]; [done|]. cbn. rewrite Z.ltb_irrefl. done. Qed.

Lemma bytes_le_antisym x y : bytes_le x y = true → bytes_le y x = true → x = y.
Proof.
  revert y. induction x as [|a x IH]; intros [|b y]; cbn; try done.
  destruct (Z.ltb_spec a b), (Z.ltb_spec b a); try done; try lia. intros ??. f_equal; [lia|auto].
Qed.

Lemma bytes_le_same p x y : bytes_le (p ++ x) (p ++ y) = bytes_le x y.
Proof. induction p as [|a p IH]; [done|]. cbn. by rewrite Z.ltb_irrefl. Qed.

Lemma bytes_le_app x y u v : length x = length y →
  bytes_le (x ++ u) (y ++ v) = if bool_decide (x = y) then bytes_le u v else bytes_le x y.
Proof.
  revert y. induction x as [|a x IH]; intros [|b y] Hl; try done. cbn in Hl. cbn [app bytes_le].
  destruct (Z.ltb_spec a b), (Z.ltb_spec b a); try lia; try (by rewrite bool_decide_false by (intros [= -> _]; lia)).
  rewrite IH by lia. assert (a = b) as -> by lia. repeat case_bool_decide; naive_solver.
Qed.

(** Among numbers of at most [n] digits the order of the names is that of the
    numbers. *)
Lemma fixed_le n x y : 0 ≤ x < 10 ^ Z.of_nat n → 0 ≤ y < 10 ^ Z.of_nat n →
  bytes_le (fixed n x) (fixed n y) = (x <=? y).
Proof.
  revert x y. induction n as [|n IH]; intros x y Hx Hy; [cbn in *; symmetry; apply Z.leb_le; lia|].
  rewrite Nat2Z.inj_succ, Z.pow_succ_r in Hx, Hy by lia. cbn [fixed].
  pose proof (Z.div_mod x 10 ltac:(lia)) as Dx. pose proof (Z.mod_pos_bound x 10 ltac:(lia)) as Mx.
  pose proof (Z.div_mod y 10 ltac:(lia)) as Dy. pose proof (Z.mod_pos_bound y 10 ltac:(lia)) as My.
  assert (Rx : 0 ≤ x / 10 < 10 ^ Z.of_nat n) by (split; [lia|]; apply Z.div_lt_upper_bound; lia).
  assert (Ry : 0 ≤ y / 10 < 10 ^ Z.of_nat n) by (split; [lia|]; apply Z.div_lt_upper_bound; lia).
  rewrite bytes_le_app by (by rewrite !length_fixed). case_bool_decide as E.
  - assert (x / 10 = y / 10) as Eq.
    { pose proof (IH _ _ Rx Ry) as I1. pose proof (IH _ _ Ry Rx) as I2. rewrite E, bytes_le_refl in I1, I2.
      symmetry in I1, I2. clean_ints. lia. }
    cbn. destruct (Z.ltb_spec (48 + x mod 10) (48 + y mod 10)), (Z.ltb_spec (48 + y mod 10) (48 + x mod 10)), (Z.leb_spec x y); lia || done.
  - rewrite IH by done. destruct (Z.leb_spec (x / 10) (y / 10)), (Z.leb_spec x y); try done; try lia.
    assert (x / 10 = y / 10) as Eq by lia. by rewrite Eq in E.
Qed.

Definition known_height (h : Z) : Prop := 0 ≤ h < 10 ^ 10.

Lemma filename_le x y : known_height x → known_height y →
  bytes_le (snapshot_filename x) (snapshot_filename y) = (x <=? y).
Proof.
  intros Hx Hy. unfold snapshot_filename. rewrite !dec10_fixed by done.
  rewrite bytes_le_same, bytes_le_app by (by rewrite !length_fixed). case_bool_decide as E; [|by apply (fixed_le 10)].
  rewrite bytes_le_refl. rewrite <- (fixed_le 10) by done. by rewrite E, bytes_le_refl.
Qed.

Lemma starts_with_app x y : starts_with x (x ++ y) = true.
Proof. induction x as [|a x IH]; [done|]. cbn. by rewrite Z.eqb_refl. Qed.
Lemma starts_with_more x y z : starts_with x y = true → starts_with x (y ++ z) = true.
Proof. revert y. induction x as [|a x IH]; intros [|b y]; cbn; try done. intros [-> ?]%andb_prop. cbn. by apply IH. Qed.
Lemma starts_with_eq x y : starts_with x y = true → y = x ++ drop (length x) y.
Proof. revert y. induction x as [|a x IH]; intros [|b y]; cbn; try done. intros [->%Z.eqb_eq ?]%andb_prop. f_equal. by apply IH. Qed.

Lemma ends_with_app x y : ends_with x (y ++ x) = true.
Proof. unfold ends_with. rewrite reverse_app. apply starts_with_app. Qed.
Lemma ends_with_more x y z : ends_with x y = true → ends_with x (z ++ y) = true.
Proof. unfold ends_with. rewrite reverse_app. apply starts_with_more. Qed.

Lemma snapshot_not_tmp n : starts_with SNAPSHOT_PREFIX n = true → starts_with (str_bytes ".tmp_") n = false.
Proof. intros ->%starts_with_eq. done. Qed.

Lemma filename_is_snapshot h : is_snapshot (snapshot_filename h) = true.
Proof.
  unfold is_snapshot. assert (starts_with SNAPSHOT_PREFIX (snapshot_filename h) = true) as Hs by apply starts_with_app.
  rewrite Hs, (snapshot_not_tmp _ Hs). unfold snapshot_filename. by rewrite (assoc_L (++)), ends_with_app.
Qed.

Lemma height_is_snapshot n h : height_of_name n = Some h → is_snapshot n = true.
Proof.
  unfold height_of_name, Storage.strip_prefix, strip_suffix, is_snapshot. destruct (starts_with SNAPSHOT_PREFIX n) eqn:Hs; [|done].
  cbn [mbind option_bind]. destruct (ends_with _ (drop _ n)) eqn:He; [|done]. intros _.
  rewrite (snapshot_not_tmp n Hs). rewrite (starts_with_eq _ _ Hs). by rewrite ends_with_more.
Qed.

Lemma parse_digits_app x y acc : Storage.parse_digits (x ++ y) acc = v ← Storage.parse_digits x acc; Storage.parse_digits y v.
Proof.
  revert acc. induction x as [|b x IH]; intros acc; [done|]. cbn [app Storage.parse_digits]. destruct (_ && _); [|done].
  destruct (checked_mul _ acc 10) as [v|]; [|done]. cbn [mbind option_bind]. destruct (checked_add _ v _); [|done]. apply IH.
Qed.

Lemma parse_fixed n h : 0 ≤ h < 10 ^ Z.of_nat n → h ≤ U64_MAX → Storage.parse_digits (fixed n h) 0 = Some h.
Proof.
  revert h. induction n as [|n IH]; intros h Hh Hm; [cbn in *; f_equal; lia|].
  rewrite Nat2Z.inj_succ, Z.pow_succ_r in Hh by lia.
  pose proof (Z.div_mod h 10 ltac:(lia)) as D. pose proof (Z.mod_pos_bound h 10 ltac:(lia)) as M.
  cbn [fixed]. rewrite parse_digits_app, IH; [|split; [lia|apply Z.div_lt_upper_bound; lia]|lia].
  cbn [mbind option_bind Storage.parse_digits].
  rewrite (proj2 (Z.leb_le 48 _)), (proj2 (Z.leb_le _ 57)) by lia. cbn [andb].
  unfold checked_mul, checked_add. rewrite (proj2 (Z.leb_le (h / 10 * 10) _)) by lia. cbn [mbind option_bind].
  rewrite (proj2 (Z.leb_le _ U64_MAX)) by lia. cbn. f_equal. lia.
Qed.

Lemma parse_u64_digits b bs : 48 ≤ b ≤ 57 → Storage.parse_u64 (b :: bs) = Storage.parse_digits (b :: bs) 0.
Proof.
  intros Hb. assert (b ∈ [48; 49; 50; 51; 52; 53; 54; 55; 56; 57]) as Hin by (rewrite !elem_of_cons; lia).
  rewrite !elem_of_cons, elem_of_nil in Hin. by destruct_or! Hin; subst b.
Qed.

Lemma height_filename h : known_height h → height_of_name (snapshot_filename h) = Some h.
Proof.
  intros Hh. unfold height_of_name, Storage.strip_prefix, snapshot_filename. rewrite starts_with_app, drop_app_length.
  cbn [mbind option_bind]. unfold strip_suffix. rewrite ends_with_app, length_app, Nat.add_sub, take_app_length.
  cbn [mbind option_bind]. rewrite dec10_fixed by done. rewrite <- (parse_fixed 10 h Hh) by (unfold known_height, U64_MAX in *; lia).
  set (d := fixed 10 h). assert (Hd : Forall (λ b, 48 ≤ b ≤ 57) d).
  { unfold d. generalize 10%nat. clear. intros n. revert h. induction n as [|n IH]; intros h; cbn [fixed]; [constructor|].
    pose proof (Z.mod_pos_bound h 10 ltac:(lia)). apply Forall_app. split; [apply IH|]. repeat constructor; lia. }
  pose proof (length_fixed 10 h) as Hl. fold d in Hl. destruct Hd; [done|by apply parse_u64_digits].
Qed.

(** The snapshots of a directory are files of known heights. *)
Definition dir_ok (dir : Dir) : Prop :=
  ∀ n, is_Some (dir !! n) → is_snapshot n = true → ∃ h, known_height h ∧ n = snapshot_filename h.

Lemma filename_inj x y : known_height x → known_height y → snapshot_filename x = snapshot_filename y → x = y.
Proof. intros Hx Hy E. apply (f_equal height_of_name) in E. rewrite !height_filename in E by done. by injection E. Qed.

Lemma height_known dir n h : dir_ok dir → is_Some (dir !! n) → height_of_name n = Some h → known_height h ∧ n = snapshot_filename h.
Proof.
  intros Hd Hn Hh. destruct (Hd n Hn (height_is_snapshot n h Hh)) as (h' & Hk & ->).
  rewrite height_filename in Hh by done. by injection Hh as ->.
Qed.

Lemma list_snapshots_elem dir h : dir_ok dir →
  h ∈ list_snapshots dir ↔ known_height h ∧ is_Some (dir !! snapshot_filename h).
Proof.
  intros Hd. unfold list_snapshots. rewrite merge_sort_Permutation, list_elem_of_omap. split.
  - intros (n & ([n' c] & -> & Hn%elem_of_map_to_list)%list_elem_of_fmap & Hh). cbn in Hh.
    destruct (height_known dir n' h Hd) as [Hk ->]; [by eexists|done|]. split; [done|by eexists].
  - intros [Hk [c Hc]]. exists (snapshot_filename h). split; [|by apply height_filename].
    apply list_elem_of_fmap. exists (snapshot_filename h, c). split; [done|]. by apply elem_of_map_to_list.
Qed.

Lemma list_snapshots_NoDup dir : dir_ok dir → NoDup (list_snapshots dir).
Proof.
  intros Hd. unfold list_snapshots. rewrite merge_sort_Permutation.
  assert (Hin : ∀ n, n ∈ (map_to_list dir).*1 → is_Some (dir !! n)).
  { intros n ([n' c] & -> & Hn%elem_of_map_to_list)%list_elem_of_fmap. by eexists. }
  pose proof (NoDup_fst_map_to_list dir) as Hnd. induction Hnd as [|n names Hn Hnd IH]; [constructor|].
  cbn. destruct (height_of_name n) as [h|] eqn:E; [|apply IH; intros; apply Hin; by right].
  constructor; [|apply IH; intros; apply Hin; by right]. intros (n' & Hn' & E')%list_elem_of_omap.
  destruct (height_known dir n h Hd) as [_ ->]; [apply Hin; left|done|].
  destruct (height_known dir n' h Hd) as [_ ->]; [apply Hin; by right|done|]. done.
Qed.

#[local] Existing Instances bytes_le_trans bytes_le_total.
#[local] Instance name_le_trans : Transitive name_le := bytes_le_trans.
#[local] Instance name_le_total : Total name_le := bytes_le_total.
#[local] Instance name_le_anti : AntiSymm (=) name_le.
Proof. intros x y ?%Is_true_true ?%Is_true_true. by apply bytes_le_antisym. Qed.

(** The files in the order of their names are those of the heights in order. *)
Lemma snapshot_files_heights dir : dir_ok dir → snapshot_files dir = snapshot_filename <$> list_snapshots dir.
Proof.
  intros Hd. apply (StronglySorted_unique name_le).
  - apply StronglySorted_merge_sort; apply _.
  - pose proof (StronglySorted_merge_sort Z.le (omap height_of_name (map_to_list dir).*1)) as Hs.
    fold (list_snapshots dir) in Hs. assert (Hk : Forall known_height (list_snapshots dir))
      by (apply Forall_forall; intros h Hh; by apply (list_snapshots_elem dir h Hd)).
    induction Hs as [|h hs Hs IH Hle]; [constructor|]. apply Forall_cons in Hk as [Hh Hk].
    constructor; [by apply IH|]. apply Forall_fmap. rewrite Forall_forall in Hk, Hle |- *. intros y Hy.
    unfold compose, name_le. apply Is_true_true. rewrite filename_le by auto. by apply Z.leb_le, Hle.
  - unfold snapshot_files. rewrite merge_sort_Permutation. apply NoDup_Permutation.
    + apply NoDup_filter, NoDup_fst_map_to_list.
    + apply NoDup_fmap_2_strong; [|by apply list_snapshots_NoDup].
      intros x y Hx%list_snapshots_elem Hy%list_snapshots_elem; [|done..]. apply filename_inj; tauto.
    + intros n. rewrite list_elem_of_filter, !list_elem_of_fmap. split.
      * intros [Hn%Is_true_true ([n' c] & -> & Hc%elem_of_map_to_list)]. cbn in *.
        destruct (Hd n') as (h & Hk & ->); [by eexists|done|]. exists h. split; [done|]. apply list_snapshots_elem; [done|]. split; [done|by eexists].
      * intros (h & -> & [Hk [c Hc]]%list_snapshots_elem); [|done]. split; [apply Is_true_true, filename_is_snapshot|].
        exists (snapshot_filename h, c). split; [done|]. by apply elem_of_map_to_list.
Qed.

Lemma foldl_delete_lookup (l : list bytes) (dir : Dir) n :
  foldl (λ d n, delete n d) dir l !! n = if bool_decide (n ∈ l) then None else dir !! n.
Proof.
  revert dir. induction l as [|m l IH]; intros dir; [done|]. cbn [foldl]. rewrite IH.
  destruct (decide (m = n)) as [->|Hne]; [rewrite lookup_delete_eq|rewrite lookup_delete_ne by done];
    repeat case_bool_decide; set_solver.
Qed.

(** Pruning a directory of snapshots keeps exactly the [keep] highest ones
    and every other file, and reports how many it deleted. *)
Theorem prune_keeps_newest (dir : Dir) (keep : nat) :
  dir_ok dir →
  let hs := list_snapshots dir in
  let '(dir', deleted) := prune_old_snapshots dir keep in
  deleted = (length hs - keep)%nat ∧ list_snapshots dir' = drop deleted hs ∧
  ∀ n, dir' !! n = if bool_decide (n ∈ snapshot_filename <$> take deleted hs) then None else dir !! n.
Proof.
  intros Hd hs. unfold prune_old_snapshots. rewrite snapshot_files_heights by done. fold hs. rewrite length_fmap, <- fmap_take.
  set (k := (length hs - keep)%nat). set (dir' := foldl _ dir _).
  assert (Hl : ∀ n, dir' !! n = if bool_decide (n ∈ snapshot_filename <$> take k hs) then None else dir !! n)
    by (intros; apply foldl_delete_lookup).
  split_and!; [done| |done]. assert (Hd' : dir_ok dir').
  { intros n [c Hc] Hs. rewrite Hl in Hc. case_bool_decide; [done|]. apply Hd; [by eexists|done]. }
  assert (Hnd : NoDup (take k hs ++ drop k hs)) by (rewrite take_drop; by apply list_snapshots_NoDup).
  apply NoDup_app in Hnd as (_ & Hdis & Hnd).
  apply (StronglySorted_unique Z.le).
  - apply StronglySorted_merge_sort; apply _.
  - apply (StronglySorted_app_1_r _ (take k hs)). rewrite take_drop. apply StronglySorted_merge_sort; apply _.
  - apply NoDup_Permutation; [by apply list_snapshots_NoDup|done|]. intros h. rewrite list_snapshots_elem by done.
    assert (Hh : h ∈ take k hs ∨ h ∈ drop k hs ↔ known_height h ∧ is_Some (dir !! snapshot_filename h))
      by (rewrite <- elem_of_app, take_drop; by apply list_snapshots_elem).
    rewrite Hl. case_bool_decide as Hin.
    + apply list_elem_of_fmap in Hin as (x & Ex & Hx). split; [by intros [_ [? ?]]|]. intros Hdrop.
      assert (Hkx : known_height x) by (apply (list_snapshots_elem dir x Hd); fold hs; rewrite <- (take_drop k hs), elem_of_app; by left).
      apply filename_inj in Ex; [|tauto|done]. subst x. by destruct (Hdis h Hx).
    + rewrite <- Hh. split; [|by right]. intros [Ht|?]; [|done]. destruct Hin. apply list_elem_of_fmap. eauto.
Qed.
End snapshots.
End Snapshots.

From S2P Require Import Toy.

(** ** Examples *)

Module SnapshotDemo.
Import Ledger Snapshots LedgerDemo.

#[global] Instance SnapshotMetadata_eq_dec : EqDecision SnapshotMetadata.
Proof. solve_decision. Defined.
#[global] Instance StateSnapshot_eq_dec : EqDecision StateSnapshot.
Proof. solve_decision. Defined.
#[global] Instance StateSnapshot_countable : Countable StateSnapshot.
Proof.
  apply (inj_countable' (λ s, (s.(metadata).(height), s.(metadata).(generated_at), s.(snapshot_root), s.(accounts), s.(utxos)))
    (λ '(h, g, r, a, u), mkSnapshot (mkMetadata h g) r a u)). by intros [[] ? ? ?].
Defined.

#[global] Program Instance toy_snapshot_codec : SnapshotCodec := {
  de_utxo_id := toy_de; ser_snapshot := toy_ser; de_snapshot := toy_de;
  zstd_encode _ b := Ok b; zstd_decode b := Ok b
}.
Next Obligation. intros. apply toy_de_ser. Qed.
Next Obligation. intros. apply toy_de_ser. Qed.
Next Obligation. intros. congruence. Qed.

Definition root1 : H256 := Eval vm_compute in state_root ledger1.

Lemma root1_ok : state_root ledger1 = root1.
Proof. vm_cast_no_check (eq_refl root1). Qed.

Lemma ledger1_storage : ledger1.(storage) =
  map_write ∅ [Put CF_ACCOUNTS (as_bytes 20 addr_a) (ser_account (with_balance addr_a 1000));
               Put CF_METADATA STATE_ROOT (as_bytes 32 (state_root ledger1))].
Proof. reflexivity. Qed.

Lemma ledger1_utxo_keys : utxo_keys ledger1.(storage).
Proof.
  intros k v. rewrite ledger1_storage. cbn [db_get map_db]. unfold map_get, map_write. cbn [foldl map_op].
  rewrite !lookup_insert_ne by done. by rewrite lookup_empty.
Qed.

Lemma ledger1_root : db_get ledger1.(storage) CF_METADATA STATE_ROOT = Some (as_bytes 32 (state_root ledger1)).
Proof.
  rewrite ledger1_storage at 1. cbn [db_get map_db]. unfold map_get, map_write. cbn [foldl map_op]. by rewrite lookup_insert_eq.
Qed.

Definition empty_db : @DB map_db := (∅ : gmap (string * list Z) (list Z)).

Lemma empty_fresh : fresh empty_db.
Proof. intros k. split; apply lookup_empty. Qed.

Definition exported1 : Dir * list Z :=
  match export_snapshot_to_file ledger1.(storage) 100 1 ∅ with Ok x => x | Err _ => (∅, []) end.

(** The ledger with one account, exported at height 100. *)
Lemma snapshot_roundtrip_witness : ∃ db1 s l',
  import_snapshot_from_file empty_db exported1.1 exported1.2 = Ok (db1, s) ∧
  s.(metadata).(height) = 100 ∧ new db1 = Ok l' ∧ ledger_inv l' state1 ∧ state_root l' = state_root ledger1.
Proof.
  destruct (generate_spec ledger1.(storage) state1 (state_root ledger1) 100 1 (inv_state _ _ ledger1_inv) (inv_rep _ _ ledger1_inv)
    ledger1_utxo_keys ltac:(rewrite root1_ok; reflexivity) ledger1_root) as (s & Hs & _).
  apply (snapshot_roundtrip ledger1 state1 100 1 ∅ exported1.1 exported1.2 _ ledger1_inv ledger1_utxo_keys ledger1_root).
  - rewrite root1_ok. reflexivity.
  - rewrite root1_ok. discriminate.
  - apply empty_fresh.
  - unfold exported1, export_snapshot_to_file. rewrite Hs. reflexivity.
Defined.

Definition stale_db : @DB map_db := db_write empty_db [Put CF_ACCOUNTS (as_bytes 20 addr_a) (ser_account (with_balance addr_a 5))].

Lemma import1 : ∃ bs db s, import_snapshot bs stale_db = Ok (db, s) ∧ s.(snapshot_root) = state_root ledger1 ∧
  Forall (λ kv, (kv.1 < 2 ^ 160)%N) s.(accounts).
Proof.
  destruct (generate_spec ledger1.(storage) state1 (state_root ledger1) 100 1 (inv_state _ _ ledger1_inv) (inv_rep _ _ ledger1_inv)
    ledger1_utxo_keys ltac:(rewrite root1_ok; reflexivity) ledger1_root) as (s & _ & Hs).
  exists (ser_snapshot s), (db_write stale_db (import_batch s)), s. split.
  - apply (import_iff _ _ s); [by apply decode_compressed|]. rewrite (verify_tree_snapshot _ _ _ _ _ Hs).
    destruct Hs as (_ & -> & _ & _). split; [rewrite root1_ok; discriminate|]. split; [|done].
    unfold state_root. by rewrite (inv_tree _ _ ledger1_inv).
  - destruct Hs as (_ & Hr & Ha & _). split; [done|]. apply Forall_forall. intros [a acc] Hel%Ha.
    by apply (ok_accts _ (inv_state _ _ ledger1_inv) a acc Hel).
Qed.

(** Importing a snapshot with the root of the ledger into a storage with another
    balance of its account. *)
Lemma imported_accounts_authentic_witness : ∃ bs db' s, import_snapshot bs stale_db = Ok (db', s) ∧
  (db_get db' CF_ACCOUNTS (as_bytes 20 addr_a) = Some (ser_account (with_balance addr_a 1000)) ∨
   account_collision addr_a (set_accounts s.(accounts)) state1.(accts)).
Proof.
  destruct import1 as (bs & db & s & Himp & Hr & Ha). exists bs, db, s. split; [exact Himp|].
  apply (imported_accounts_authentic ledger1 state1 bs stale_db db s addr_a ledger1_inv Himp Hr Ha).
  vm_compute. reflexivity.
Defined.

Definition two_snapshots : Dir := <[snapshot_filename 7 := [1]]> {[ snapshot_filename 12 := [2] ]}.

Lemma two_snapshots_ok : dir_ok two_snapshots.
Proof.
  intros n [c Hc] _. unfold two_snapshots in Hc. apply lookup_insert_Some in Hc as [[<- _]|[_ [<- _]%lookup_singleton_Some]];
    eexists; (split; [|reflexivity]); split; reflexivity || discriminate.
Qed.

(** Of the snapshots at 7 and 12 the last is kept. *)
Lemma prune_keeps_newest_witness :
  list_snapshots two_snapshots = [7; 12] ∧ list_snapshots (prune_old_snapshots two_snapshots 1).1 = [12].
Proof.
  pose proof (prune_keeps_newest two_snapshots 1 two_snapshots_ok) as Ht.
  assert (E : list_snapshots two_snapshots = [7; 12]) by reflexivity. split; [exact E|].
  cbv zeta in Ht. rewrite E in Ht. destruct (prune_old_snapshots two_snapshots 1) as [d n]. cbn [fst].
  destruct Ht as (-> & -> & _). reflexivity.
Defined.

(** With eleven digits the order of the names is not that of the heights: the
    newest snapshot is deleted. *)
Lemma prune_deletes_newest :
  list_snapshots (prune_old_snapshots (<[snapshot_filename (10 ^ 10) := [1]]> {[ snapshot_filename (10 ^ 10 - 1) := [2] ]}) 1).1 =
  [10 ^ 10 - 1].
Proof. reflexivity. Qed.
End SnapshotDemo.
