(* ===== verification/P2pNetwork.v ===== *)
(** * The peer-to-peer network

    [crates/p2p/src/network.rs]: what the node's network layer does with the
    events of the libp2p swarm: bans, scores, rate limits, the size limits of
    the topics and the events it hands to the node. The swarm is not modelled:
    its events are the input, the peers it is told to disconnect are logged, and
    the outcome of its own calls is an argument. A time is a pair of the wall
    clock in seconds ([current_timestamp]) and the monotonic clock in
    milliseconds ([Instant::now]). *)

From S2P Require Import Prelude.
From S2P Require Import Transaction.

Abbreviation PeerId := N.
Abbreviation bytes := (list Z) (only parsing).

Module Network.

Definition TOPIC_TX : string := "/aether/1/tx".
Definition TOPIC_BLOCK : string := "/aether/1/block".
Definition TOPIC_VOTE : string := "/aether/1/vote".
Definition TOPIC_SHRED : string := "/aether/1/shred".
Definition TOPIC_SYNC : string := "/aether/1/sync".

Definition MAX_TX_SIZE : Z := 64 * 1024.
Definition MAX_BLOCK_SIZE : Z := 2 * 1024 * 1024.
Definition MAX_VOTE_SIZE : Z := 8 * 1024.
Definition MAX_SHRED_SIZE : Z := 256 * 1024.
Definition MAX_SYNC_MSG_SIZE : Z := 1024.

Inductive NetworkEvent :=
| TransactionReceived (data : bytes)
| BlockReceived (data : bytes)
| VoteReceived (data : bytes)
| ShredReceived (data : bytes)
| SyncRequestReceived (data : bytes)
| PeerConnected (p : PeerId)
| PeerDisconnected (p : PeerId).

Definition BAN_DURATION_SECS : Z := 3600.
Definition MAX_BANNED_PEERS : nat := 4096.
Definition RATE_LIMIT_TOKENS : Z := 100.
Definition RATE_LIMIT_REFILL_INTERVAL : Z := 1000.
Definition RATE_LIMIT_PENALTY : Z := -20.
Definition MAX_RATE_LIMITERS : nat := 1024.

(** ** PeerRateLimiter *)

Record PeerRateLimiter := mkLimiter { tokens : Z; last_refill : Z }.

Definition limiter_new (now : Z) : PeerRateLimiter := mkLimiter RATE_LIMIT_TOKENS now.

(** The product is a u32 and wraps. *)
Definition refill (now : Z) (l : PeerRateLimiter) : PeerRateLimiter :=
  let elapsed := Z.max 0 (now - l.(last_refill)) in
  if RATE_LIMIT_REFILL_INTERVAL <=? elapsed then
    let refills := (elapsed / RATE_LIMIT_REFILL_INTERVAL) mod (U32_MAX + 1) in
    mkLimiter (Z.min RATE_LIMIT_TOKENS (saturating_add U32_MAX l.(tokens) (wrapping_mul U32_MAX refills RATE_LIMIT_TOKENS))) now
  else l.

Definition try_consume (now : Z) (l : PeerRateLimiter) : PeerRateLimiter * bool :=
  let l := refill now l in
  if 0 <? l.(tokens) then (mkLimiter (l.(tokens) - 1) l.(last_refill), true) else (l, false).

(** ** P2PNetwork *)

Record PeerInfo := mkPeer { id : PeerId; peer_address : string; score : Z; connected_at : Z }.

Record P2PNetwork := mkNetwork {
  topics : gset string;
  peers : gmap PeerId PeerInfo;
  banned_peers : gmap PeerId Z;
  rate_limiters : gmap PeerId PeerRateLimiter;
  disconnects : list PeerId
}.

Definition new : P2PNetwork := mkNetwork ∅ ∅ ∅ ∅ [].

Section network.
Context `{HashOrder}.

Definition set_banned (b : gmap PeerId Z) (s : P2PNetwork) : P2PNetwork :=
  mkNetwork s.(topics) s.(peers) b s.(rate_limiters) s.(disconnects).
Definition set_limiters (r : gmap PeerId PeerRateLimiter) (s : P2PNetwork) : P2PNetwork :=
  mkNetwork s.(topics) s.(peers) s.(banned_peers) r s.(disconnects).
Definition set_peers (m : gmap PeerId PeerInfo) (s : P2PNetwork) : P2PNetwork :=
  mkNetwork s.(topics) m s.(banned_peers) s.(rate_limiters) s.(disconnects).
(** [swarm.disconnect_peer_id]. *)
Definition disconnect (p : PeerId) (s : P2PNetwork) : P2PNetwork :=
  mkNetwork s.(topics) s.(peers) s.(banned_peers) s.(rate_limiters) (s.(disconnects) ++ [p]).

(** [outcome] is what gossipsub's [subscribe] returns. *)
Definition subscribe (topic : string) (outcome : result error unit) (s : P2PNetwork) : result error P2PNetwork :=
  if bool_decide (topic ∈ s.(topics)) then mret s else
  map_err (prefix_error "subscribe error: ") outcome;;
  mret (mkNetwork ({[topic]} ∪ s.(topics)) s.(peers) s.(banned_peers) s.(rate_limiters) s.(disconnects)).

Definition max_size_for_topic (topic : string) : Z :=
  if bool_decide (topic = TOPIC_TX) then MAX_TX_SIZE else
  if bool_decide (topic = TOPIC_BLOCK) then MAX_BLOCK_SIZE else
  if bool_decide (topic = TOPIC_VOTE) then MAX_VOTE_SIZE else
  if bool_decide (topic = TOPIC_SHRED) then MAX_SHRED_SIZE else
  if bool_decide (topic = TOPIC_SYNC) then MAX_SYNC_MSG_SIZE else MAX_BLOCK_SIZE.

(** [outcome] is what gossipsub's [publish] returns. *)
Definition publish (topic : string) (data : bytes) (outcome : result error unit) (s : P2PNetwork) : result error unit :=
  bail_if (negb (bool_decide (topic ∈ s.(topics)))) (Msg "not subscribed to topic: {}");;
  let size := Z.of_nat (length data) in
  let max_size := max_size_for_topic topic in
  bail_if (size =? 0) (Msg "refusing to publish empty message to {}");;
  bail_if (max_size <? size) (Fmt "refusing to publish oversized message to {}: {} bytes > {} max" [size; max_size]);;
  map_err (prefix_error "publish error: ") outcome.

Definition is_banned (now : Z) (p : PeerId) (s : P2PNetwork) : bool :=
  from_option (λ expiry, now <? expiry) false (s.(banned_peers) !! p).

Definition banned_count (now : Z) (s : P2PNetwork) : nat := size (filter (λ kv, now < kv.2) s.(banned_peers)).

(** The peer of the last part of the address, if it has one; [outcome] is
    what the dial returns. *)
Definition connect_peer (now : Z) (addr_peer : option PeerId) (outcome : result error unit) (s : P2PNetwork) : result error unit :=
  bail_if (from_option (λ p, is_banned now p s) false addr_peer) (Msg "peer {} is banned, refusing to dial");;
  outcome.

Definition expiry_le (x y : PeerId * Z) : Prop := x.2 ≤ y.2.
#[global] Instance expiry_le_dec : RelDecision expiry_le.
Proof. intros x y. unfold expiry_le. apply _. Defined.
#[global] Instance expiry_le_total : Total expiry_le.
Proof. intros x y. unfold expiry_le. lia. Qed.
#[global] Instance expiry_le_trans : Transitive expiry_le.
Proof. intros x y z. unfold expiry_le. lia. Qed.

Definition prune_banned_peers (now : Z) (s : P2PNetwork) : P2PNetwork :=
  let banned := filter (λ kv, now < kv.2) s.(banned_peers) in
  if (MAX_BANNED_PEERS <? size banned)%nat then
    let entries := merge_sort expiry_le (hash_iter banned) in
    let to_remove := (size banned - MAX_BANNED_PEERS)%nat in
    set_banned (foldl (λ m kv, delete kv.1 m) banned (take to_remove entries)) s
  else set_banned banned s.

Definition update_peer_score (now : Z) (p : PeerId) (delta : Z) (s : P2PNetwork) : P2PNetwork :=
  match s.(peers) !! p with
  | None => s
  | Some info =>
      let sc := wrap_i32 (info.(score) + delta) in
      if sc <? -100 then
        let s := set_banned (<[p := wrapping_add U64_MAX now BAN_DURATION_SECS]> s.(banned_peers)) s in
        let s := disconnect p s in
        let s := set_peers (delete p s.(peers)) s in
        let s := set_limiters (delete p s.(rate_limiters)) s in
        if (MAX_BANNED_PEERS <? size s.(banned_peers))%nat then prune_banned_peers now s else s
      else set_peers (<[p := mkPeer info.(id) info.(peer_address) sc info.(connected_at)]> s.(peers)) s
  end.

Definition check_rate_limit (now_ms : Z) (p : PeerId) (s : P2PNetwork) : P2PNetwork * bool :=
  let s :=
    if (MAX_RATE_LIMITERS <=? size s.(rate_limiters))%nat && bool_decide (s.(rate_limiters) !! p = None)
    then set_limiters (filter (λ kv, is_Some (s.(peers) !! kv.1)) s.(rate_limiters)) s else s in
  let '(l, ok) := try_consume now_ms (default (limiter_new now_ms) (s.(rate_limiters) !! p)) in
  (set_limiters (<[p := l]> s.(rate_limiters)) s, ok).

(** ** The events of the swarm *)

Inductive SwarmEvent :=
| GossipMessage (propagation_source : PeerId) (topic : string) (data : bytes)
| ConnectionEstablished (p : PeerId)
| ConnectionClosed (p : PeerId)
| OtherEvent.

Definition topic_entry (topic : string) : option (Z * (bytes → NetworkEvent)) :=
  if bool_decide (topic = TOPIC_TX) then Some (MAX_TX_SIZE, TransactionReceived) else
  if bool_decide (topic = TOPIC_BLOCK) then Some (MAX_BLOCK_SIZE, BlockReceived) else
  if bool_decide (topic = TOPIC_VOTE) then Some (MAX_VOTE_SIZE, VoteReceived) else
  if bool_decide (topic = TOPIC_SHRED) then Some (MAX_SHRED_SIZE, ShredReceived) else
  if bool_decide (topic = TOPIC_SYNC) then Some (MAX_SYNC_MSG_SIZE, SyncRequestReceived) else None.

Definition on_message (now now_ms : Z) (from : PeerId) (topic : string) (data : bytes) (s : P2PNetwork) :
    P2PNetwork * option NetworkEvent :=
  if is_banned now from s then (disconnect from s, None) else
  let '(s, ok) := check_rate_limit now_ms from s in
  if negb ok then (update_peer_score now from RATE_LIMIT_PENALTY s, None) else
  match topic_entry topic with
  | None => (s, None)
  | Some (max_size, event_fn) =>
      let size := Z.of_nat (length data) in
      if (size =? 0) || (max_size <? size) then (update_peer_score now from (-10) s, None)
      else (s, Some (event_fn data))
  end.

Definition on_established (now : Z) (p : PeerId) (s : P2PNetwork) : P2PNetwork * option NetworkEvent :=
  if is_banned now p s then (disconnect p s, None) else
  let s := set_banned (delete p s.(banned_peers)) s in
  (set_peers (<[p := mkPeer p "" 0 now]> s.(peers)) s, Some (PeerConnected p)).

Definition on_closed (p : PeerId) (s : P2PNetwork) : P2PNetwork * option NetworkEvent :=
  (set_limiters (delete p s.(rate_limiters)) (set_peers (delete p s.(peers)) s), Some (PeerDisconnected p)).

(** One turn of the loop of [poll]; no event means it goes on. *)
Definition handle (now now_ms : Z) (ev : SwarmEvent) (s : P2PNetwork) : P2PNetwork * option NetworkEvent :=
  match ev with
  | GossipMessage from topic data => on_message now now_ms from topic data s
  | ConnectionEstablished p => on_established now p s
  | ConnectionClosed p => on_closed p s
  | OtherEvent => (s, None)
  end.

(** [poll] on the events that arrive: the first event for the node, with the
    events that are left. *)
Fixpoint poll (evs : list (Z * Z * SwarmEvent)) (s : P2PNetwork) : P2PNetwork * option (NetworkEvent * list (Z * Z * SwarmEvent)) :=
  match evs with
  | [] => (s, None)
  | (now, now_ms, ev) :: evs =>
      match handle now now_ms ev s with
      | (s, Some out) => (s, Some (out, evs))
      | (s, None) => poll evs s
      end
  end.

(** ** Runs *)

(** All the events, with what the node is told. *)
Fixpoint run (evs : list (Z * Z * SwarmEvent)) (s : P2PNetwork) : P2PNetwork * list (SwarmEvent * NetworkEvent) :=
  match evs with
  | [] => (s, [])
  | (now, now_ms, ev) :: evs =>
      let '(s, out) := handle now now_ms ev s in
      let '(s, outs) := run evs s in
      (s, match out with Some o => (ev, o) :: outs | None => outs end)
  end.

(** A run is what polling again and again gives. *)
Lemma run_poll evs s :
  (run evs s).1 = match poll evs s with (s', None) => s' | (s', Some (_, rest)) => (run rest s').1 end ∧
  snd <$> (run evs s).2 = match poll evs s with
    | (_, None) => []
    | (s', Some (out, rest)) => out :: (snd <$> (run rest s').2)
    end.
Proof.
  revert s. induction evs as [|[[now now_ms] ev] evs IH]; intros s; [done|]. cbn [run poll].
  destruct (handle now now_ms ev s) as [s1 [out|]]; [by destruct (run evs s1)|].
  destruct (IH s1) as [I1 I2]. destruct (run evs s1) as [s2 outs]. cbn in *. by split.
Qed.

(** ** What reaches the node *)

(** What an honest node publishes is accepted: a message on a standard topic
    that passes [publish] reaches the node of every receiver that has not banned
    the sender and has tokens for it. *)
Theorem published_accepted (topic : string) (data : bytes) (outcome : result error unit) (s r : P2PNetwork)
    (from : PeerId) (now now_ms : Z) :
  topic ∈ [TOPIC_TX; TOPIC_BLOCK; TOPIC_VOTE; TOPIC_SHRED; TOPIC_SYNC] →
  publish topic data outcome s = Ok tt → is_banned now from r = false → (check_rate_limit now_ms from r).2 = true →
  ∃ mk r', topic_entry topic = Some (max_size_for_topic topic, mk) ∧
    handle now now_ms (GossipMessage from topic data) r = (r', Some (mk data)).
Proof.
  intros Ht Hp Hb Hr. unfold publish in Hp. res_inv. clean_ints. cbn [handle]. unfold on_message. rewrite Hb.
  destruct (check_rate_limit now_ms from r) as [r1 ok]. cbn in Hr. subst ok. cbn [negb].
  assert (∃ mk, topic_entry topic = Some (max_size_for_topic topic, mk)) as [mk Hmk].
  { rewrite !elem_of_cons, elem_of_nil in Ht. destruct_or! Ht; subst topic; try done; eexists; reflexivity. }
  exists mk, r1. split; [done|]. rewrite Hmk. rewrite (proj2 (Z.eqb_neq _ _)), (proj2 (Z.ltb_ge _ _)) by lia. done.
Qed.

(** ** Bans *)

Lemma prune_frame now s : (prune_banned_peers now s).(peers) = s.(peers) ∧ (prune_banned_peers now s).(rate_limiters) = s.(rate_limiters).
Proof. unfold prune_banned_peers. by destruct (_ <? _)%nat. Qed.

Lemma update_score_other now p q d s : p ≠ q →
  (update_peer_score now q d s).(peers) !! p = s.(peers) !! p ∧
  (update_peer_score now q d s).(rate_limiters) !! p = s.(rate_limiters) !! p.
Proof.
  intros Hpq. unfold update_peer_score. destruct (s.(peers) !! q); [|done]. destruct (_ <? _).
  - destruct (_ <? _)%nat; [rewrite (proj1 (prune_frame _ _)), (proj2 (prune_frame _ _))|]; cbn; by rewrite !lookup_delete_ne.
  - cbn. by rewrite lookup_insert_ne.
Qed.

Lemma rate_limit_frame ms q s : (check_rate_limit ms q s).1.(peers) = s.(peers) ∧
  (check_rate_limit ms q s).1.(banned_peers) = s.(banned_peers).
Proof. unfold check_rate_limit. destruct (_ && _); by destruct (try_consume _ _). Qed.

(** Scoring another peer keeps a ban while the list has room. *)
Lemma update_score_ban now p q d s : s.(peers) !! p = None →
  (size s.(banned_peers) < MAX_BANNED_PEERS)%nat →
  (update_peer_score now q d s).(banned_peers) !! p = s.(banned_peers) !! p ∧
  (size (update_peer_score now q d s).(banned_peers) ≤ S (size s.(banned_peers)))%nat ∧
  (update_peer_score now q d s).(peers) !! p = None.
Proof.
  intros Hp Hsz. destruct (decide (p = q)) as [->|Hpq]; [unfold update_peer_score; by rewrite Hp; split_and!; [|lia|]|].
  pose proof (update_score_other now p q d s Hpq) as [E _]. rewrite E. split_and!; [| |done]; clear E;
    unfold update_peer_score; destruct (s.(peers) !! q); try done; try lia; destruct (_ <? _); try done; try (cbn; lia).
  all: set (b := <[q := _]> s.(banned_peers)).
  all: assert (Hb : (size b ≤ S (size s.(banned_peers)))%nat) by (unfold b; rewrite map_size_insert; destruct (s.(banned_peers) !! q); cbn; lia).
  all: cbn [set_banned disconnect set_peers set_limiters banned_peers].
  all: rewrite (proj2 (Nat.ltb_ge _ _)) by (fold b; lia); cbn [banned_peers].
  - change (b !! p = s.(banned_peers) !! p). unfold b. by rewrite lookup_insert_ne.
  - exact Hb.
Qed.

(** The events a banned peer would be heard through. *)
Definition heard (p : PeerId) (ev : SwarmEvent) : bool :=
  match ev with
  | GossipMessage q _ _ | ConnectionEstablished q => bool_decide (q = p)
  | _ => false
  end.

Lemma handle_banned now ms ev p x s : s.(banned_peers) !! p = Some x → s.(peers) !! p = None → now < x →
  (size s.(banned_peers) < MAX_BANNED_PEERS)%nat →
  (handle now ms ev s).1.(banned_peers) !! p = Some x ∧ (handle now ms ev s).1.(peers) !! p = None ∧
  (size (handle now ms ev s).1.(banned_peers) ≤ S (size s.(banned_peers)))%nat ∧
  (heard p ev = true → (handle now ms ev s).2 = None).
Proof.
  intros Hb Hp Hx Hsz. assert (Hban : is_banned now p s = true) by (unfold is_banned; rewrite Hb; by apply Z.ltb_lt).
  destruct ev as [q t d|q|q|]; cbn [handle heard]; [| | |by cbn; split_and!; [..|lia|]].
  - unfold on_message. destruct (is_banned now q s) eqn:Hq; [by cbn; split_and!; [..|lia|]|].
    assert (Hne : p ≠ q) by congruence. pose proof (rate_limit_frame ms q s) as [F1 F2].
    destruct (check_rate_limit ms q s) as [s1 ok]. cbn [fst snd] in F1, F2. rewrite <- F1 in Hp. rewrite <- F2 in Hb, Hsz |- *.
    assert (Hnh : bool_decide (q = p) = true → ∀ o : option NetworkEvent, o = None) by (intros ?%bool_decide_eq_true; congruence).
    destruct ok; cbn [negb]; [destruct (topic_entry t) as [[mx mk]|]; [destruct (_ || _)|]|].
    all: try (pose proof (update_score_ban now p q (-10) s1 Hp Hsz) as (U1 & U2 & U3)).
    all: try (pose proof (update_score_ban now p q RATE_LIMIT_PENALTY s1 Hp Hsz) as (V1 & V2 & V3)).
    all: cbn [fst snd]; split_and!; try done; try lia; try congruence; auto.
  - unfold on_established. destruct (decide (p = q)) as [<-|Hne]; [rewrite Hban; by cbn; split_and!; [..|lia|]|].
    destruct (is_banned now q s); [by cbn; split_and!; [..|lia|]|]. cbn.
    rewrite lookup_delete_ne, lookup_insert_ne, map_size_delete by done. split_and!; [done..| |].
    + destruct (s.(banned_peers) !! q); cbn; lia.
    + intros ?%bool_decide_eq_true. congruence.
  - cbn. split_and!; [done|by apply lookup_delete_None; right|lia|done].
Qed.

(** Before every event of a run the list of bans has room for one more. *)
Fixpoint bans_fit (evs : list (Z * Z * SwarmEvent)) (s : P2PNetwork) : bool :=
  match evs with
  | [] => true
  | (now, now_ms, ev) :: evs =>
      (size s.(banned_peers) <? MAX_BANNED_PEERS)%nat && bans_fit evs (handle now now_ms ev s).1
  end.

(** C27: As long as the list of bans is not full (4096 entries, [bans_fit]), a
    banned peer is not heard before its ban is over: in a run of any length no
    message of it reaches the node and it is not connected, whatever the other
    peers do. When the list is full a further ban evicts the one that is over
    soonest, and its peer is heard again ([full_list_forgets_ban]). *)
Theorem banned_peer_silent (evs : list (Z * Z * SwarmEvent)) (p : PeerId) (expiry : Z) (s : P2PNetwork) :
  s.(banned_peers) !! p = Some expiry → s.(peers) !! p = None →
  Forall (λ e, e.1.1 < expiry) evs → bans_fit evs s = true →
  (run evs s).1.(banned_peers) !! p = Some expiry ∧ (run evs s).1.(peers) !! p = None ∧
  Forall (λ o, heard p o.1 = false) (run evs s).2.
Proof.
  intros Hb Hp Hall. revert s Hb Hp. induction Hall as [|[[now ms] ev] evs Hx _ IH]; intros s Hb Hp Hsz; [done|].
  cbn [fst] in *. cbn [run bans_fit] in *. apply andb_true_iff in Hsz as [Hsz%Nat.ltb_lt Hfit].
  destruct (handle_banned now ms ev p expiry s Hb Hp Hx Hsz) as (Hb1 & Hp1 & Hs1 & Ho).
  destruct (handle now ms ev s) as [s1 out]. cbn [fst snd] in *.
  destruct (IH s1 Hb1 Hp1 Hfit) as (Hb2 & Hp2 & Hf). destruct (run evs s1) as [s2 outs]. cbn [fst snd] in *.
  split_and!; [done..|]. destruct out as [o|]; [|done]. constructor; [|done]. cbn.
  destruct (heard p ev); [|done]. by specialize (Ho eq_refl).
Qed.

(** The ban that is over soonest is dropped when one too many is in force. *)
Lemma full_list_forgets_ban now p x s :
  s.(banned_peers) !! p = Some x → now < x →
  size (filter (λ kv, now < kv.2) s.(banned_peers)) = S MAX_BANNED_PEERS →
  (∀ q y, s.(banned_peers) !! q = Some y → q ≠ p → now < y → x < y) →
  is_banned now p (prune_banned_peers now s) = false.
Proof.
  intros Hp Hx Hsz Hmin. unfold prune_banned_peers, is_banned. set (b := filter _ s.(banned_peers)) in *.
  rewrite Hsz, (proj2 (Nat.ltb_lt _ _)) by lia. replace (S MAX_BANNED_PEERS - MAX_BANNED_PEERS)%nat with 1%nat by lia.
  assert (Hperm : merge_sort expiry_le (hash_iter b) ≡ₚ map_to_list b) by (by rewrite merge_sort_Permutation, hash_iter_perm).
  assert (Hb : b !! p = Some x) by (by apply map_lookup_filter_Some).
  assert (Hin : (p, x) ∈ merge_sort expiry_le (hash_iter b)) by (rewrite Hperm; by apply elem_of_map_to_list).
  pose proof (Sorted_merge_sort expiry_le (hash_iter b)) as Hs. apply Sorted_StronglySorted in Hs; [|apply _].
  destruct (merge_sort _ _) as [|[q y] l]; [by apply elem_of_nil in Hin|]. cbn. rewrite take_0. cbn.
  enough (q = p) as -> by by rewrite lookup_delete_eq.
  apply elem_of_cons in Hin as [[= -> ->]|Hin]; [done|]. destruct (decide (q = p)) as [|Hne]; [done|]. exfalso.
  assert (Hq : b !! q = Some y) by (apply elem_of_map_to_list; rewrite <- Hperm; left).
  apply map_lookup_filter_Some in Hq as [Hq Hy]. specialize (Hmin q y Hq Hne Hy).
  apply StronglySorted_inv in Hs as [_ Hs]. rewrite Forall_forall in Hs. specialize (Hs _ Hin). unfold expiry_le in Hs. cbn in Hs. lia.
Qed.

(** ** Rate limits *)

Definition limiter_ok (l : PeerRateLimiter) : Prop := 0 ≤ l.(tokens) ≤ RATE_LIMIT_TOKENS.

(** What a limiter can still let through before [t + 1000]. *)
Definition budget (t : Z) (l : PeerRateLimiter) : Z :=
  l.(tokens) + (if l.(last_refill) <? t then RATE_LIMIT_TOKENS else 0).

Lemma try_consume_budget t now l : limiter_ok l → t ≤ now < t + RATE_LIMIT_REFILL_INTERVAL →
  limiter_ok (try_consume now l).1 ∧
  budget t (try_consume now l).1 + (if (try_consume now l).2 then 1 else 0) ≤ budget t l.
Proof.
  intros Hl Hn. unfold limiter_ok, RATE_LIMIT_REFILL_INTERVAL in *.
  assert (Hr : limiter_ok (refill now l) ∧ budget t (refill now l) ≤ budget t l).
  { unfold refill, limiter_ok, budget, RATE_LIMIT_REFILL_INTERVAL in *. destruct (Z.leb_spec 1000 (Z.max 0 (now - l.(last_refill)))); [|by split].
    cbn [tokens last_refill]. set (add := wrapping_mul _ _ _).
    assert (0 ≤ add) by (unfold add, wrapping_mul; apply Z.mod_pos_bound; unfold U32_MAX; lia).
    rewrite (proj2 (Z.ltb_ge now t)), (proj2 (Z.ltb_lt l.(last_refill) t)) by lia. unfold saturating_add, RATE_LIMIT_TOKENS, U32_MAX in *. lia. }
  destruct Hr as [Hr1 Hr2]. unfold try_consume. cbv zeta. destruct (Z.ltb_spec 0 (refill now l).(tokens)); cbn [fst snd]; [|split; [done|lia]].
  unfold limiter_ok, budget in *. cbn [tokens last_refill]. lia.
Qed.

(** The budget of a peer; a new limiter starts with all tokens. *)
Definition peer_budget (t : Z) (p : PeerId) (s : P2PNetwork) : Z :=
  from_option (budget t) RATE_LIMIT_TOKENS (s.(rate_limiters) !! p).
Definition peer_limiter_ok (p : PeerId) (s : P2PNetwork) : Prop := from_option limiter_ok True (s.(rate_limiters) !! p).

Lemma rate_limit_self t now p s : peer_limiter_ok p s → t ≤ now < t + RATE_LIMIT_REFILL_INTERVAL →
  peer_limiter_ok p (check_rate_limit now p s).1 ∧
  peer_budget t p (check_rate_limit now p s).1 + (if (check_rate_limit now p s).2 then 1 else 0) ≤ peer_budget t p s.
Proof.
  intros Hl Hn. unfold check_rate_limit. set (s1 := if _ && _ then _ else s).
  assert (E : s1.(rate_limiters) !! p = s.(rate_limiters) !! p).
  { unfold s1. destruct (s.(rate_limiters) !! p) eqn:Ep; [by rewrite bool_decide_false, andb_false_r by done|].
    destruct (_ && _); [|done]. cbn. by apply map_lookup_filter_None; left. }
  rewrite E. unfold peer_limiter_ok, peer_budget in *.
  pose proof (try_consume_budget t now (default (limiter_new now) (s.(rate_limiters) !! p))) as Ht.
  destruct (try_consume now _) as [l ok]. cbn in Ht |- *. rewrite lookup_insert_eq. cbn.
  destruct (s.(rate_limiters) !! p) as [l0|]; cbn in *; [by apply Ht|].
  destruct Ht as [Hk Hb]; [unfold limiter_ok; cbn; unfold RATE_LIMIT_TOKENS; lia|done|]. split; [done|].
  unfold budget at 2 in Hb. cbn in Hb. rewrite (proj2 (Z.ltb_ge now t)) in Hb by lia. lia.
Qed.

Lemma rate_limit_other now p q s : p ≠ q → is_Some (s.(peers) !! p) →
  (check_rate_limit now q s).1.(rate_limiters) !! p = s.(rate_limiters) !! p.
Proof.
  intros Hpq Hp. unfold check_rate_limit. destruct (_ && _); destruct (try_consume _ _); cbn; rewrite lookup_insert_ne by done; [|done].
  destruct (s.(rate_limiters) !! p) as [l|] eqn:E; [by apply map_lookup_filter_Some|by apply map_lookup_filter_None; left].
Qed.

(** A message of the peer. *)
Definition sent_by (p : PeerId) (ev : SwarmEvent) : bool :=
  match ev with GossipMessage q _ _ => bool_decide (q = p) | _ => false end.
(** The peer connects or one of its connections closes. *)
Definition reconnects (p : PeerId) (ev : SwarmEvent) : bool :=
  match ev with ConnectionEstablished q | ConnectionClosed q => bool_decide (q = p) | _ => false end.

Lemma update_score_self now p d s : is_Some ((update_peer_score now p d s).(peers) !! p) →
  (update_peer_score now p d s).(rate_limiters) = s.(rate_limiters).
Proof.
  unfold update_peer_score. destruct (s.(peers) !! p); [|done]. destruct (_ <? _); [|done]. intros [i Hi]. exfalso. revert Hi.
  destruct (_ <? _)%nat; [rewrite (proj1 (prune_frame _ _))|]; cbn; by rewrite lookup_delete_eq.
Qed.

Lemma update_score_peers now q d s p : is_Some ((update_peer_score now q d s).(peers) !! p) → is_Some (s.(peers) !! p).
Proof.
  destruct (decide (p = q)) as [->|Hpq]; [|by rewrite (proj1 (update_score_other now p q d s Hpq))].
  intros Hu. destruct (s.(peers) !! q) as [i|] eqn:E; [by exists i|].
  unfold update_peer_score in Hu. rewrite E in Hu. by rewrite <- E.
Qed.

(** A peer that is connected after an event that is not its connecting was
    connected before. *)
Lemma handle_connected now ms ev p s : reconnects p ev = false →
  is_Some ((handle now ms ev s).1.(peers) !! p) → is_Some (s.(peers) !! p).
Proof.
  intros Hr. destruct ev as [q t d|q|q|]; cbn [handle reconnects] in *; [| | |done].
  - unfold on_message. destruct (is_banned now q s); [done|]. pose proof (rate_limit_frame ms q s) as [F _].
    destruct (check_rate_limit ms q s) as [s1 ok]. cbn in F. rewrite <- F.
    destruct ok; cbn [negb]; [destruct (topic_entry t) as [[mx mk]|]; [destruct (_ || _)|]|]; cbn [fst]; try done;
      apply update_score_peers.
  - unfold on_established. destruct (is_banned now q s); [done|]. cbn. apply bool_decide_eq_false in Hr. by rewrite lookup_insert_ne.
  - cbn. intros [i [_ Hi]%lookup_delete_Some]. by exists i.
Qed.

Lemma handle_budget t now ms ev p s : reconnects p ev = false → t ≤ ms < t + RATE_LIMIT_REFILL_INTERVAL →
  peer_limiter_ok p s → is_Some ((handle now ms ev s).1.(peers) !! p) →
  peer_limiter_ok p (handle now ms ev s).1 ∧
  peer_budget t p (handle now ms ev s).1 + (if sent_by p ev && from_option (λ _, true) false (handle now ms ev s).2 then 1 else 0) ≤ peer_budget t p s.
Proof.
  intros Hr Hn Hl Hp. pose proof (handle_connected now ms ev p s Hr Hp) as Hp0. revert Hp.
  destruct ev as [q tp d|q|q|]; cbn [handle reconnects sent_by andb] in *; [| | |intros _; cbn; by split; [|lia]].
  - unfold on_message. destruct (is_banned now q s); [intros _; cbn; rewrite andb_false_r, Z.add_0_r; by split; [|apply Z.le_refl]|].
    destruct (decide (q = p)) as [->|Hqp].
    + pose proof (rate_limit_self t ms p s Hl Hn) as [L B]. destruct (check_rate_limit ms p s) as [s1 ok]. cbn [fst snd] in L, B.
      rewrite bool_decide_true by done.
      destruct ok; cbn [negb]; [destruct (topic_entry tp) as [[mx mk]|]; [destruct (_ || _)|]|]; cbn [fst snd andb]; intros Hp;
        unfold peer_limiter_ok, peer_budget in *; rewrite ?update_score_self by done; cbn; split; try done; lia.
    + pose proof (rate_limit_other ms p q s ltac:(done) Hp0) as R. destruct (check_rate_limit ms q s) as [s1 ok]. cbn [fst] in R.
      rewrite bool_decide_false by done.
      destruct ok; cbn [negb]; [destruct (topic_entry tp) as [[mx mk]|]; [destruct (_ || _)|]|]; cbn [fst snd andb]; intros Hp;
        unfold peer_limiter_ok, peer_budget in *; rewrite ?(proj2 (update_score_other _ p q _ _ ltac:(done))), R; split; try done; lia.
  - unfold on_established. destruct (is_banned now q s); intros _; cbn; rewrite Z.add_0_r; by split; [|apply Z.le_refl].
  - apply bool_decide_eq_false in Hr. cbn. intros _. unfold peer_limiter_ok, peer_budget in *. cbn.
    rewrite lookup_delete_ne by done. split; [done|lia].
Qed.

Definition delivered (p : PeerId) (outs : list (SwarmEvent * NetworkEvent)) : Z :=
  Z.of_nat (length (filter (λ o, sent_by p o.1 = true) outs)).

Lemma run_connected evs p s : Forall (λ e, reconnects p e.2 = false) evs →
  is_Some ((run evs s).1.(peers) !! p) → is_Some (s.(peers) !! p).
Proof.
  intros Hall. revert s. induction Hall as [|[[now ms] ev] evs Hr _ IH]; intros s; [done|]. cbn [run].
  pose proof (handle_connected now ms ev p s Hr) as Hc. destruct (handle now ms ev s) as [s1 out]. cbn [fst] in Hc.
  specialize (IH s1). destruct (run evs s1). cbn in *. auto.
Qed.

Lemma run_budget t evs p s : Forall (λ e, reconnects p e.2 = false) evs →
  Forall (λ e, t ≤ e.1.2 < t + RATE_LIMIT_REFILL_INTERVAL) evs → peer_limiter_ok p s → is_Some ((run evs s).1.(peers) !! p) →
  delivered p (run evs s).2 + peer_budget t p (run evs s).1 ≤ peer_budget t p s ∧ peer_limiter_ok p (run evs s).1.
Proof.
  intros Hall. revert s. induction Hall as [|[[now ms] ev] evs Hr Hall IH]; intros s Ht Hl Hp; [by cbn; split; [unfold delivered; cbn; lia|]|].
  apply Forall_cons in Ht as [Ht0 Ht]. cbn [run fst snd] in *.
  destruct (handle now ms ev s) as [s1 out] eqn:Eh. pose proof (run_connected evs p s1 Hall) as Hc.
  specialize (IH s1 Ht). destruct (run evs s1) as [s2 outs]. cbn [fst snd] in *.
  pose proof (handle_budget t now ms ev p s Hr Ht0 Hl) as HB. rewrite Eh in HB. cbn [fst snd] in HB.
  destruct (HB (Hc Hp)) as [L1 B1]. destruct (IH L1 Hp) as [B2 L2]. split; [|done].
  destruct out as [o|]; [|cbn in B1; rewrite andb_false_r in B1; lia].
  cbn [from_option] in B1. rewrite andb_true_r in B1. unfold delivered in *. rewrite filter_cons. cbn [fst].
  destruct (sent_by p ev); [rewrite decide_True by done; cbn [length]|rewrite decide_False by done]; lia.
Qed.

Lemma budget_bounds t p s : peer_limiter_ok p s → 0 ≤ peer_budget t p s ≤ 2 * RATE_LIMIT_TOKENS.
Proof.
  unfold peer_budget, peer_limiter_ok, limiter_ok, budget, RATE_LIMIT_TOKENS.
  destruct (s.(rate_limiters) !! p) as [l|]; cbn; [|lia]. destruct (_ <? t); lia.
Qed.

(** No more than 200 messages of a peer reach the node within a second,
    while the peer stays connected and does not connect again. *)
Theorem rate_bounded (evs : list (Z * Z * SwarmEvent)) (p : PeerId) (t : Z) (s : P2PNetwork) :
  peer_limiter_ok p s → Forall (λ e, t ≤ e.1.2 < t + RATE_LIMIT_REFILL_INTERVAL) evs →
  Forall (λ e, reconnects p e.2 = false) evs → is_Some ((run evs s).1.(peers) !! p) →
  delivered p (run evs s).2 ≤ 2 * RATE_LIMIT_TOKENS.
Proof.
  intros Hl Ht Hr Hp. destruct (run_budget t evs p s Hr Ht Hl Hp) as [B L].
  pose proof (budget_bounds t p _ L). pose proof (budget_bounds t p s Hl). lia.
Qed.

(** ** Memory *)

Record net_ok (s : P2PNetwork) : Prop := {
  ok_bans : (size s.(banned_peers) ≤ MAX_BANNED_PEERS)%nat;
  ok_limiters : (size s.(rate_limiters) ≤ MAX_RATE_LIMITERS)%nat;
  ok_disjoint : ∀ p, is_Some (s.(peers) !! p) → s.(banned_peers) !! p = None;
  ok_tokens : map_Forall (λ _, limiter_ok) s.(rate_limiters);
  ok_scores : map_Forall (λ _ i, -100 ≤ i.(score)) s.(peers)
}.

Lemma foldl_delete_size (l : list (PeerId * Z)) (m : gmap PeerId Z) : NoDup l.*1 → Forall (λ kv, is_Some (m !! kv.1)) l →
  (size (foldl (λ m kv, delete kv.1 m) m l) + length l)%nat = size m.
Proof.
  revert m. induction l as [|[k v] l IH]; intros m Hn Hf; [cbn; lia|]. cbn in Hn. apply NoDup_cons in Hn as [Hk Hn].
  apply Forall_cons in Hf as [[x Hx] Hf]. cbn in Hx. cbn [foldl fst length].
  rewrite Nat.add_succ_r, (IH (delete k m) Hn).
  - rewrite map_size_delete_Some by (by eexists). enough (size m ≠ 0%nat) by lia.
    intros E%map_size_empty_inv. by rewrite E, lookup_empty in Hx.
  - rewrite Forall_forall in Hf |- *. intros kv Hin. rewrite lookup_delete_ne; [by apply Hf|].
    intros ->. apply Hk, list_elem_of_fmap. eauto.
Qed.

Lemma foldl_delete_sub (l : list (PeerId * Z)) (m : gmap PeerId Z) p : m !! p = None → foldl (λ m kv, delete kv.1 m) m l !! p = None.
Proof. revert m. induction l as [|kv l IH]; intros m Hm; [done|]. cbn. apply IH. by apply lookup_delete_None; right. Qed.

Lemma prune_bans now s : (size (prune_banned_peers now s).(banned_peers) ≤ MAX_BANNED_PEERS)%nat ∧
  ∀ p, s.(banned_peers) !! p = None → (prune_banned_peers now s).(banned_peers) !! p = None.
Proof.
  unfold prune_banned_peers. set (b := filter (λ kv, now < kv.2) s.(banned_peers)).
  assert (Hb : ∀ p, s.(banned_peers) !! p = None → b !! p = None) by (intros p Hp; by apply map_lookup_filter_None; left).
  destruct (Nat.ltb_spec MAX_BANNED_PEERS (size b)) as [Hlt|Hle]; cbn; [|done].
  split; [|intros p Hp; by apply foldl_delete_sub, Hb]. set (l := take _ _).
  assert (Hp : merge_sort expiry_le (hash_iter b) ≡ₚ map_to_list b) by (by rewrite merge_sort_Permutation, hash_iter_perm).
  assert (Hlen : length l = (size b - MAX_BANNED_PEERS)%nat).
  { unfold l. rewrite length_take, Hp, length_map_to_list. lia. }
  assert (Hin : ∀ kv, kv ∈ l → b !! kv.1 = Some kv.2).
  { intros [k v] Hkv. apply elem_of_map_to_list. rewrite <- Hp. unfold l in Hkv.
    apply elem_of_take in Hkv as (i & Hi & _). by eapply list_elem_of_lookup_2. }
  pose proof (foldl_delete_size l b) as Hs. rewrite Hlen in Hs. enough (NoDup l.*1 ∧ Forall (λ kv, is_Some (b !! kv.1)) l) as [Hn Hf].
  { specialize (Hs Hn Hf). lia. }
  split; [|apply Forall_forall; intros kv Hkv; rewrite (Hin kv Hkv); by eexists].
  unfold l. rewrite fmap_take. eapply sublist_NoDup; [|apply sublist_take]. rewrite Hp. apply NoDup_fst_map_to_list.
Qed.

Lemma update_score_ok now p d s : net_ok s → net_ok (update_peer_score now p d s) ∧
  (size (update_peer_score now p d s).(peers) ≤ size s.(peers))%nat.
Proof.
  intros Hs. unfold update_peer_score. destruct (s.(peers) !! p) as [info|] eqn:Ep; [|by split]. destruct Hs as [B L D T S].
  destruct (Z.ltb_spec (wrap_i32 (info.(score) + d)) (-100)) as [Hlt|Hge].
  - set (s1 := set_limiters _ _).
    assert (Hd : ∀ q, is_Some (s1.(peers) !! q) → s1.(banned_peers) !! q = None).
    { intros q [i Hq]. cbn in Hq. apply lookup_delete_Some in Hq as [Hne Hq]. cbn. rewrite lookup_insert_ne by done. apply D. by exists i. }
    assert (Hl : (size s1.(rate_limiters) ≤ MAX_RATE_LIMITERS)%nat) by (cbn; rewrite map_size_delete; destruct (s.(rate_limiters) !! p); cbn; lia).
    assert (Ht : map_Forall (λ _, limiter_ok) s1.(rate_limiters)) by (by apply map_Forall_delete).
    assert (Hsc : map_Forall (λ _ i, -100 ≤ i.(score)) s1.(peers)) by (by apply map_Forall_delete).
    assert (Hsz : (size s1.(peers) ≤ size s.(peers))%nat) by (cbn; rewrite map_size_delete; destruct (s.(peers) !! p); cbn; lia).
    destruct (Nat.ltb_spec MAX_BANNED_PEERS (size s1.(banned_peers))); [|by split].
    destruct (prune_bans now s1) as [P1 P2]. destruct (prune_frame now s1) as [P3 P4]. rewrite P3. split; [|done].
    split; rewrite ?P3, ?P4; try done. intros q Hq. by apply P2, Hd.
  - cbn. rewrite map_size_insert_Some by (by eexists). split; [|lia]. split; cbn; try done.
    + intros q Hq. apply D. destruct (decide (p = q)) as [<-|]; [by eexists|by rewrite lookup_insert_ne in Hq].
    + by apply map_Forall_insert_2.
Qed.

Lemma try_consume_ok now l : limiter_ok l → limiter_ok (try_consume now l).1.
Proof.
  intros Hl. unfold try_consume. cbv zeta. assert (Hr : limiter_ok (refill now l)).
  { unfold refill, limiter_ok in *. destruct (_ <=? _); [|done]. cbn [tokens]. set (add := wrapping_mul _ _ _).
    assert (0 ≤ add) by (unfold add, wrapping_mul; apply Z.mod_pos_bound; unfold U32_MAX; lia).
    unfold saturating_add, RATE_LIMIT_TOKENS, U32_MAX in *. lia. }
  unfold limiter_ok in *. destruct (Z.ltb_spec 0 (refill now l).(tokens)); cbn; [lia|done].
Qed.

Lemma rate_limit_ok ms p s : net_ok s → (size s.(peers) < MAX_RATE_LIMITERS)%nat → net_ok (check_rate_limit ms p s).1.
Proof.
  intros [B L D T S] Hsz. unfold check_rate_limit.
  set (r := if (MAX_RATE_LIMITERS <=? size s.(rate_limiters))%nat && bool_decide (s.(rate_limiters) !! p = None)
            then filter (λ kv, is_Some (s.(peers) !! kv.1)) s.(rate_limiters) else s.(rate_limiters)).
  assert (Hr : map_Forall (λ _, limiter_ok) r ∧ (size r + (if bool_decide (r !! p = None) then 1 else 0) ≤ MAX_RATE_LIMITERS)%nat).
  { unfold r. destruct (Nat.leb_spec MAX_RATE_LIMITERS (size s.(rate_limiters))); cbn [andb].
    - case_bool_decide as E; [|rewrite bool_decide_false by done; split; [done|lia]]. split; [by intros q l [Hq _]%map_lookup_filter_Some; apply (T q)|].
      enough (size (filter (λ kv, is_Some (s.(peers) !! kv.1)) s.(rate_limiters)) ≤ size s.(peers))%nat by (case_bool_decide; lia).
      rewrite <- !size_dom. apply subseteq_size. intros q [l Hq]%elem_of_dom. apply map_lookup_filter_Some in Hq as [_ Hq]. by apply elem_of_dom.
    - split; [done|]. case_bool_decide; lia. }
  destruct Hr as [Hr1 Hr2].
  assert (E : (if (MAX_RATE_LIMITERS <=? size s.(rate_limiters))%nat && bool_decide (s.(rate_limiters) !! p = None)
    then set_limiters (filter (λ kv, is_Some (s.(peers) !! kv.1)) s.(rate_limiters)) s else s) = set_limiters r s).
  { unfold r. destruct (_ && _); [done|by destruct s]. }
  rewrite E. cbn [rate_limiters set_limiters].
  pose proof (try_consume_ok ms (default (limiter_new ms) (r !! p))) as Ht. destruct (try_consume ms _) as [l ok]. cbn [fst] in *.
  split; cbn; try done.
  - rewrite map_size_insert. destruct (r !! p); cbn in *; lia.
  - apply map_Forall_insert_2; [|done]. apply Ht. destruct (r !! p) as [l0|] eqn:El; cbn; [by apply (Hr1 p)|].
    unfold limiter_ok. cbn. unfold RATE_LIMIT_TOKENS. lia.
Qed.

(** While fewer than 1024 peers are connected (the swarm allows 256), no
    event makes the bans outgrow 4096 or the limiters 1024 entries; no connected
    peer is banned or has a score below -100, and no limiter exceeds its tokens. *)
Theorem network_bounded (now now_ms : Z) (ev : SwarmEvent) (s : P2PNetwork) :
  net_ok s → (size s.(peers) < MAX_RATE_LIMITERS)%nat → net_ok (handle now now_ms ev s).1.
Proof.
  intros Hs Hsz. destruct ev as [q t d|q|q|]; cbn [handle]; [| | |done].
  - unfold on_message. destruct (is_banned now q s); [by destruct Hs|]. pose proof (rate_limit_ok now_ms q s Hs Hsz) as Hr.
    destruct (check_rate_limit now_ms q s) as [s1 ok]. cbn [fst] in Hr.
    destruct ok; cbn [negb]; [destruct (topic_entry t) as [[mx mk]|]; [destruct (_ || _)|]|]; cbn [fst]; try done; by apply update_score_ok.
  - destruct Hs as [B L D T S]. unfold on_established. destruct (is_banned now q s); [done|]. split; cbn; try done.
    + rewrite map_size_delete. destruct (s.(banned_peers) !! q); cbn; lia.
    + intros p Hp. destruct (decide (q = p)) as [->|Hne]; [by rewrite lookup_delete_eq|]. rewrite lookup_insert_ne in Hp by done.
      rewrite lookup_delete_ne by done. by apply D.
    + apply map_Forall_insert_2; [cbn; lia|done].
  - destruct Hs as [B L D T S]. split; cbn; try done.
    + rewrite map_size_delete. destruct (s.(rate_limiters) !! q); cbn; lia.
    + intros p [i [_ Hi]%lookup_delete_Some]. apply D. by exists i.
    + by apply map_Forall_delete.
    + by apply map_Forall_delete.
Qed.

(** A further connection of a peer resets its score, and closing one of
    several connections forgets the peer while it can go on sending: penalties
    then have no effect, and the peer is never banned. *)
Theorem reconnect_forgives (now now_ms : Z) (p : PeerId) (s : P2PNetwork) :
  is_banned now p s = false →
  from_option score 0 ((handle now now_ms (ConnectionEstablished p) s).1.(peers) !! p) = 0 ∧
  ∀ delta, update_peer_score now p delta (handle now now_ms (ConnectionClosed p) s).1 = (handle now now_ms (ConnectionClosed p) s).1.
Proof.
  intros Hb. split.
  - cbn [handle]. unfold on_established. rewrite Hb. cbn. by rewrite lookup_insert_eq.
  - intros delta. cbn. unfold update_peer_score. cbn. by rewrite lookup_delete_eq.
Qed.
End network.
End Network.

From S2P Require Import Toy.

(** ** Examples *)

Module NetworkDemo.
Import Network.

(** Peer 1 is connected, peer 5 banned until 3700. *)
Definition demo : P2PNetwork := mkNetwork {[TOPIC_TX]} {[ 1%N := mkPeer 1 "" 0 0 ]} {[ 5%N := 3700 ]} ∅ [].

Definition tx_from (p : PeerId) : SwarmEvent := GossipMessage p TOPIC_TX [7].
Definition demo_events : list (Z * Z * SwarmEvent) :=
  [(100, 0, tx_from 5%N); (100, 1, tx_from 1%N); (101, 500, ConnectionEstablished 5%N); (101, 600, tx_from 1%N)].

Lemma demo_ok : net_ok demo.
Proof.
  split; try (vm_compute; lia); cbn.
  - intros p [i [<- _]%lookup_singleton_Some]. by rewrite lookup_singleton_ne.
  - apply map_Forall_empty.
  - apply map_Forall_singleton. cbn. lia.
Qed.

(** Only the messages of the connected peer arrive. *)
Lemma demo_run : snd <$> (run demo_events demo).2 = [TransactionReceived [7]; TransactionReceived [7]].
Proof. vm_compute. reflexivity. Qed.

Lemma banned_peer_silent_witness :
  (run demo_events demo).1.(banned_peers) !! 5%N = Some 3700 ∧ (run demo_events demo).1.(peers) !! 5%N = None ∧
  Forall (λ o, heard 5 o.1 = false) (run demo_events demo).2.
Proof.
  apply (banned_peer_silent demo_events 5 3700 demo); [reflexivity|reflexivity|repeat constructor; vm_compute; reflexivity|].
  vm_compute. reflexivity.
Defined.

Lemma rate_bounded_witness : delivered 1 (run demo_events demo).2 ≤ 2 * RATE_LIMIT_TOKENS.
Proof.
  apply (rate_bounded demo_events 1 0 demo); [exact I| | |eexists; vm_compute; reflexivity].
  - repeat constructor; vm_compute; congruence.
  - repeat constructor.
Defined.

Lemma network_bounded_witness : net_ok (handle 100 0 (tx_from 1%N) demo).1.
Proof. apply (network_bounded 100 0 (tx_from 1%N) demo demo_ok). apply Nat.ltb_lt. vm_compute. reflexivity. Defined.

Lemma published_accepted_witness : ∃ mk r', topic_entry TOPIC_TX = Some (max_size_for_topic TOPIC_TX, mk) ∧
  handle 100 0 (GossipMessage 1%N TOPIC_TX [7]) demo = (r', Some (mk [7])).
Proof.
  apply (published_accepted TOPIC_TX [7] (Ok tt) demo demo 1%N 100 0); [left|vm_compute; reflexivity..].
Defined.

(** A peer with a score of -95 is at 0 after opening a second connection. *)
Lemma reconnect_forgives_witness :
  let s := mkNetwork ∅ {[ 1%N := mkPeer 1 "" (-95) 0 ]} ∅ ∅ [] in
  from_option score 0 ((handle 100 0 (ConnectionEstablished 1%N) s).1.(peers) !! 1%N) = 0.
Proof. intros s. apply (reconnect_forgives 100 0 1%N s). reflexivity. Defined.
End NetworkDemo.
