(* ===== verification/P2p.v ===== *)
(** * Propagation and peer selection

    [crates/p2p/src]: transaction propagation with a stem and a fluff phase
    ([dandelion.rs]), the limits on peers of one subnet ([peer_diversity.rs]) and
    compact blocks with message compression ([compact_block.rs]). The compression
    (zstd) is the class [Zstd]. *)

From Stdlib Require Import QArith.QArith.
From S2P Require Import Prelude.
From S2P Require Import Transaction.
From S2P Require Import Consensus.
From S2P Require Import Block.

Abbreviation bytes := (list Z) (only parsing).
#[local] Open Scope Z_scope.

(** ** dandelion.rs *)

Module Dandelion.
Section dandelion.
Context `{Digest}.

Definition MAX_TRACKED_TXS : nat := Z.to_nat 50000.

Inductive PropagationPhase := Stem | Fluff.

(** Times are in nanoseconds. *)
Record TxPropagation := mkProp { phase : PropagationPhase; stem_hops_remaining : Z; created_at : Z }.

(** The probability is the fraction 1/4, which is exact in an f64. *)
Record DandelionManager := mkDandelion {
  states : gmap bytes TxPropagation;
  min_stem_hops : Z;
  max_stem_hops : Z;
  stem_timeout : Z;
  fluff_probability : Q
}.

Definition new : DandelionManager := mkDandelion ∅ 1 4 10000000000 (1 # 4).

(** [nanos] is the wall clock. *)
Definition rand_bytes (nanos : Z) (tx_hash : bytes) : bytes := as_bytes 32 (sha256_digest (tx_hash ++ to_le_bytes 16 nanos)).
Definition rand_u32 (nanos : Z) (tx_hash : bytes) : Z := from_le_bytes (take 4 (rand_bytes nanos tx_hash)).
(** A 53-bit integer over 2^53 is exact in an f64. *)
Definition rand_float (nanos : Z) (tx_hash : bytes) : Q :=
  Z.shiftr (from_le_bytes (take 8 (rand_bytes nanos tx_hash))) 11 # (2 ^ 53).

Definition set_states (m : gmap bytes TxPropagation) (d : DandelionManager) : DandelionManager :=
  mkDandelion m d.(min_stem_hops) d.(max_stem_hops) d.(stem_timeout) d.(fluff_probability).

Definition fluffed (e : TxPropagation) : TxPropagation := mkProp Fluff e.(stem_hops_remaining) e.(created_at).

Definition cleanup (now max_age : Z) (d : DandelionManager) : DandelionManager :=
  set_states (filter (λ kv, now - kv.2.(created_at) < max_age) d.(states)) d.

(** A transaction that is tracked. *)
Definition tracked_phase (now nanos : Z) (tx_hash : bytes) (d : DandelionManager) (e : TxPropagation) : TxPropagation * PropagationPhase :=
  if d.(stem_timeout) <=? now - e.(created_at) then (fluffed e, Fluff) else
  match e.(phase) with
  | Fluff => (e, Fluff)
  | Stem =>
      if e.(stem_hops_remaining) =? 0 then (fluffed e, Fluff) else
      if negb (Qle_bool d.(fluff_probability) (rand_float nanos tx_hash)) then (fluffed e, Fluff)
      else (mkProp Stem (e.(stem_hops_remaining) - 1) e.(created_at), Stem)
  end.

Definition initial_hops (nanos : Z) (tx_hash : bytes) (d : DandelionManager) : Z :=
  let hop_range := saturating_sub d.(max_stem_hops) d.(min_stem_hops) in
  if hop_range =? 0 then d.(min_stem_hops) else d.(min_stem_hops) + rand_u32 nanos tx_hash mod (hop_range + 1).

Definition get_phase (now nanos : Z) (tx_hash : bytes) (d : DandelionManager) : DandelionManager * PropagationPhase :=
  match d.(states) !! tx_hash with
  | Some e =>
      let '(e', ph) := tracked_phase now nanos tx_hash d e in
      (set_states (<[tx_hash := e']> d.(states)) d, ph)
  | None =>
      let hops := initial_hops nanos tx_hash d in
      let d := if (MAX_TRACKED_TXS <=? size d.(states))%nat then cleanup now d.(stem_timeout) d else d in
      if (MAX_TRACKED_TXS <=? size d.(states))%nat then (d, Fluff) else
      (set_states (<[tx_hash := mkProp Stem hops now]> d.(states)) d, Stem)
  end.

Definition mark_fluffed (tx_hash : bytes) (d : DandelionManager) : DandelionManager :=
  set_states (alter fluffed tx_hash d.(states)) d.

Definition on_stem_receive := get_phase.
Definition tracked_count (d : DandelionManager) : nat := size d.(states).

(** *** A transaction is fluffed after a few hops *)

(** The calls of the manager, at any times and for any transactions. *)
Inductive call :=
| Ask (now nanos : Z) (tx_hash : bytes)
| Mark (tx_hash : bytes)
| Clean (now max_age : Z).

Definition exec (c : call) (d : DandelionManager) : DandelionManager :=
  match c with
  | Ask now nanos tx => (get_phase now nanos tx d).1
  | Mark tx => mark_fluffed tx d
  | Clean now max_age => cleanup now max_age d
  end.

Definition asks (h : bytes) (c : call) : bool := match c with Ask _ _ tx => bool_decide (tx = h) | _ => false end.
Definition tracks (h : bytes) (d : DandelionManager) : bool := bool_decide (is_Some (d.(states) !! h)).

(** The phases a sequence of calls is told for [h]. *)
Fixpoint phases (h : bytes) (calls : list call) (d : DandelionManager) : list PropagationPhase :=
  match calls with
  | [] => []
  | c :: calls =>
      match c with
      | Ask now nanos tx => if bool_decide (tx = h) then [(get_phase now nanos tx d).2] else []
      | _ => []
      end ++ phases h calls (exec c d)
  end.

(** The manager starts to track [h] when it is asked for it, and does not
    forget it. *)
Fixpoint kept (h : bytes) (calls : list call) (d : DandelionManager) : bool :=
  match calls with
  | [] => true
  | c :: calls => implb (tracks h d || asks h c) (tracks h (exec c d)) && kept h calls (exec c d)
  end.

(** Stems, at most [k] of them, and then fluffs. *)
Definition stems_then_fluffs (k : Z) (l : list PropagationPhase) : Prop :=
  ∃ i j, l = replicate i Stem ++ replicate j Fluff ∧ Z.of_nat i ≤ k.

Lemma fluffs_only j k : 0 ≤ k → stems_then_fluffs k (replicate j Fluff).
Proof. intros Hk. exists 0%nat, j. split; [done|lia]. Qed.

Lemma stem_cons k l : stems_then_fluffs k l → stems_then_fluffs (k + 1) (Stem :: l).
Proof. intros (i & j & -> & Hi). exists (S i), j. split; [done|lia]. Qed.

Definition dandelion_ok (d : DandelionManager) : Prop :=
  0 ≤ d.(min_stem_hops) ≤ d.(max_stem_hops) ∧ map_Forall (λ _ e, 0 ≤ e.(stem_hops_remaining) ≤ d.(max_stem_hops)) d.(states).

Lemma initial_hops_range nanos tx d : 0 ≤ d.(min_stem_hops) ≤ d.(max_stem_hops) → 0 ≤ initial_hops nanos tx d ≤ d.(max_stem_hops).
Proof.
  intros Hr. unfold initial_hops, saturating_sub. destruct (Z.eqb_spec (Z.max 0 (d.(max_stem_hops) - d.(min_stem_hops))) 0); [lia|].
  pose proof (Z.mod_pos_bound (rand_u32 nanos tx) (Z.max 0 (d.(max_stem_hops) - d.(min_stem_hops)) + 1)). lia.
Qed.

Lemma stems_mono k k' l : k ≤ k' → stems_then_fluffs k l → stems_then_fluffs k' l.
Proof. intros Hk (i & j & -> & Hi). exists i, j. split; [done|lia]. Qed.

(** How often a tracked transaction may still be forwarded. *)
Definition stems_left (e : TxPropagation) : Z := match e.(phase) with Stem => e.(stem_hops_remaining) | Fluff => 0 end.

Lemma cleanup_ok now age d : dandelion_ok d → dandelion_ok (cleanup now age d).
Proof. intros [Hr Hm]. split; [done|]. cbn. intros h e He. apply map_lookup_filter_Some in He as [He _]. by apply (Hm h e). Qed.

Lemma tracked_phase_ok now nanos tx d e : 0 ≤ e.(stem_hops_remaining) ≤ d.(max_stem_hops) →
  0 ≤ (tracked_phase now nanos tx d e).1.(stem_hops_remaining) ≤ d.(max_stem_hops).
Proof.
  intros He. unfold tracked_phase. destruct (_ <=? _); [done|]. destruct e.(phase); [|done].
  destruct (Z.eqb_spec e.(stem_hops_remaining) 0); [done|]. destruct (negb _); [done|]. cbn. lia.
Qed.

Lemma exec_ok c d : dandelion_ok d → dandelion_ok (exec c d) ∧ (exec c d).(max_stem_hops) = d.(max_stem_hops).
Proof.
  intros Hd. pose proof Hd as [Hr Hm]. destruct c as [now nanos tx|tx|now age]; cbn; [|split; [split; [done|]|done]|].
  - unfold get_phase. destruct (d.(states) !! tx) as [e|] eqn:Et.
    + pose proof (tracked_phase_ok now nanos tx d e (Hm tx e Et)) as He.
      destruct (tracked_phase now nanos tx d e) as [e' ph]. split; [split; [done|by apply map_Forall_insert_2]|done].
    + cbv zeta in *; set (d1 := if (MAX_TRACKED_TXS <=? size d.(states))%nat then cleanup now d.(stem_timeout) d else d). assert (Hd1 : dandelion_ok d1 ∧ d1.(max_stem_hops) = d.(max_stem_hops)).
      { subst d1. case_match; [split; [by apply cleanup_ok|done]|done]. }
      destruct Hd1 as [Hd1 E1]. clearbody d1. destruct (_ <=? _)%nat; [by split|]. split; [split; [apply Hd1|]|exact E1].
      cbn. apply map_Forall_insert_2; [pose proof (initial_hops_range nanos tx d Hr); cbn; lia|apply Hd1].
  - cbn. intros h e He. apply lookup_alter_Some in He as [(<- & e0 & He & ->)|[_ He]]; [by apply (Hm tx e0)|by apply (Hm h e)].
  - split; [by apply cleanup_ok|done].
Qed.

(** The other calls leave a transaction as it is, or fluff it. *)
Lemma exec_other c h d e e' : dandelion_ok d → asks h c = false → d.(states) !! h = Some e → (exec c d).(states) !! h = Some e' →
  stems_left e' ≤ stems_left e.
Proof.
  intros [_ Hm] Ha He He'. destruct c as [now nanos tx|tx|now age]; cbn in *.
  - apply bool_decide_eq_false in Ha. unfold get_phase in He'. destruct (d.(states) !! tx) as [x|].
    + destruct (tracked_phase now nanos tx d x). cbn in He'. rewrite lookup_insert_ne in He' by done. by simplify_eq.
    + repeat case_match; cbn in He'; rewrite ?lookup_insert_ne in He' by done; try (apply map_lookup_filter_Some in He' as [He' _]); by simplify_eq.
  - specialize (Hm h e He). cbn in Hm. apply lookup_alter_Some in He' as [(<- & e0 & He0 & ->)|[_ He']]; simplify_eq; [|done].
    unfold stems_left. cbn. case_match; lia.
  - apply map_lookup_filter_Some in He' as [He' _]. by simplify_eq.
Qed.

Lemma stems_left_range d h e : dandelion_ok d → d.(states) !! h = Some e → 0 ≤ stems_left e.
Proof. intros [_ Hm] He. specialize (Hm h e He). cbn in Hm. unfold stems_left. case_match; lia. Qed.

(** One more answer for a tracked transaction. *)
Lemma tracked_phase_stems now nanos h d e l : 0 ≤ stems_left e →
  stems_then_fluffs (stems_left (tracked_phase now nanos h d e).1) l →
  stems_then_fluffs (stems_left e) ((tracked_phase now nanos h d e).2 :: l).
Proof.
  intros Hr. assert (Hfl : stems_then_fluffs 0 l → stems_then_fluffs (stems_left e) (Fluff :: l)).
  { intros (i & j & -> & Hi). assert (i = 0%nat) as -> by lia. by apply (fluffs_only (S j)). }
  unfold tracked_phase. destruct (_ <=? _); [exact Hfl|]. destruct e.(phase) eqn:Ep; [|cbn; unfold stems_left at 1; rewrite Ep; exact Hfl].
  destruct (_ =? 0); [exact Hfl|]. destruct (negb _); [exact Hfl|]. cbn. intros Hl%stem_cons.
  unfold stems_left in Hl. cbn in Hl. unfold stems_left. rewrite Ep. eapply stems_mono; [|exact Hl]. lia.
Qed.

Lemma phases_tracked h calls d e : dandelion_ok d → d.(states) !! h = Some e → kept h calls d = true →
  stems_then_fluffs (stems_left e) (phases h calls d).
Proof.
  revert d e. induction calls as [|c calls IH]; intros d e Hd He Hk.
  { apply (fluffs_only 0). by eapply stems_left_range. }
  cbn [kept phases] in *. apply andb_true_iff in Hk as [Hk Hrest]. unfold tracks at 1 in Hk.
  rewrite bool_decide_true in Hk by (by eexists). cbn in Hk. apply bool_decide_eq_true in Hk as [e' He'].
  destruct (exec_ok c d Hd) as [Hd' _]. specialize (IH _ e' Hd' He' Hrest). set (l := phases h calls _) in *.
  assert (Hother : asks h c = false → stems_then_fluffs (stems_left e) l).
  { intros Ha. eapply stems_mono; [|exact IH]. exact (exec_other c h d e e' Hd Ha He He'). }
  destruct c as [now nanos tx|tx|now age]; [|by apply Hother..]. cbn [asks] in Hother. destruct (decide (tx = h)) as [->|Hne].
  - rewrite bool_decide_true by done. clear Hother. subst l. cbn [app]. cbn [exec] in IH, He' |- *. unfold get_phase in *.
    rewrite He in *. pose proof (tracked_phase_stems now nanos h d e) as Hs.
    destruct (tracked_phase now nanos h d e) as [e1 ph]. cbn in *. rewrite lookup_insert_eq in He'. injection He' as <-.
    apply Hs; [exact (stems_left_range d h e Hd He)|exact IH].
  - rewrite bool_decide_false in Hother |- * by done. by apply Hother.
Qed.

Lemma phases_new h calls d : dandelion_ok d → kept h calls d = true → stems_then_fluffs (d.(max_stem_hops) + 1) (phases h calls d).
Proof.
  revert d. induction calls as [|c calls IH]; intros d Hd Hk.
  { apply (fluffs_only 0). destruct Hd. lia. }
  destruct (d.(states) !! h) as [e|] eqn:Hh.
  { eapply stems_mono; [|by eapply phases_tracked]. destruct Hd as [_ Hm]. specialize (Hm h e Hh). cbn in Hm. unfold stems_left. case_match; lia. }
  cbn [kept phases] in *. apply andb_true_iff in Hk as [Hk Hrest]. destruct (exec_ok c d Hd) as [Hd' Emax].
  pose proof (IH _ Hd' Hrest) as IH'. rewrite Emax in IH'. clear IH.
  destruct c as [now nanos tx|tx|now age]; [|done..]. destruct (decide (tx = h)) as [->|Hne]; [|by rewrite bool_decide_false].
  cbn [asks] in Hk. rewrite bool_decide_true, orb_true_r in Hk by done. cbn in Hk. apply bool_decide_eq_true in Hk as [e' He'].
  pose proof (phases_tracked _ _ _ _ Hd' He' Hrest) as Ht. rewrite bool_decide_true by done. cbn [exec] in *. unfold get_phase in *.
  rewrite Hh in *. cbv zeta in *.
  set (d1 := if (MAX_TRACKED_TXS <=? size d.(states))%nat then cleanup now d.(stem_timeout) d else d) in *.
  assert (Hd1 : d1.(states) !! h = None) by (subst d1; destruct (MAX_TRACKED_TXS <=? size d.(states))%nat; [by apply map_lookup_filter_None; left|done]).
  clearbody d1. destruct (_ <=? _)%nat; cbn in *; [congruence|].
  rewrite lookup_insert_eq in He'. injection He' as <-. apply stem_cons in Ht.
  eapply stems_mono; [|exact Ht]. unfold stems_left. pose proof (initial_hops_range nanos h d (proj1 Hd)). cbn. lia.
Qed.

(** With room for all the transactions asked for and no cleanup nothing is
    forgotten. *)
Definition cleans (c : call) : bool := match c with Clean _ _ => true | _ => false end.

Lemma exec_keeps h c d : (size d.(states) < MAX_TRACKED_TXS)%nat → cleans c = false →
  implb (tracks h d || asks h c) (tracks h (exec c d)) = true ∧ (size (exec c d).(states) ≤ S (size d.(states)))%nat.
Proof.
  intros Hsz Hc. unfold tracks. rewrite implb_true_iff, orb_true_iff, !bool_decide_eq_true.
  destruct c as [now nanos tx|tx|now age]; [| |done]; cbn.
  - unfold get_phase. destruct (d.(states) !! tx) as [e|] eqn:Et.
    + destruct (tracked_phase now nanos tx d e) as [e' ph]. cbn. rewrite map_size_insert_Some by (by eexists). split; [|lia].
      rewrite lookup_insert_is_Some, bool_decide_eq_true. destruct (decide (tx = h)); naive_solver.
    + cbv zeta. rewrite (proj2 (Nat.leb_gt MAX_TRACKED_TXS (size d.(states))) Hsz). cbn.
      rewrite (proj2 (Nat.leb_gt MAX_TRACKED_TXS (size d.(states))) Hsz). cbn.
      rewrite map_size_insert_None by done. split; [|lia]. rewrite lookup_insert_is_Some, bool_decide_eq_true. destruct (decide (tx = h)); naive_solver.
  - split; [|rewrite <- !size_dom, dom_alter_L; lia]. rewrite lookup_alter_is_Some. by intros [?|?].
Qed.

Lemma kept_small h calls d : forallb (negb ∘ cleans) calls = true → (size d.(states) + length calls ≤ MAX_TRACKED_TXS)%nat →
  kept h calls d = true.
Proof.
  revert d. induction calls as [|c calls IH]; intros d Hc Hsz; [done|]. cbn [length forallb kept] in *.
  apply andb_true_iff in Hc as [Hc%negb_true_iff Hcs]. destruct (exec_keeps h c d ltac:(lia) Hc) as [-> Hs].
  apply IH; [done|lia].
Qed.

Lemma foldl_exec_ok calls d : dandelion_ok d →
  dandelion_ok (foldl (flip exec) d calls) ∧ (foldl (flip exec) d calls).(max_stem_hops) = d.(max_stem_hops).
Proof.
  revert d. induction calls as [|c calls IH]; intros d Hd; [done|]. destruct (exec_ok c d Hd) as [Hd' E]. cbn.
  destruct (IH _ Hd') as [? ->]. done.
Qed.

(** C33: After any calls, and through any further calls at which the manager
    tracks a transaction once it is asked for it and does not forget it
    ([kept]), the transaction is forwarded to a single peer at most five times
    and broadcast ever after, whatever the clock, the random numbers, the other
    transactions and the marks are. Nothing is forgotten as long as there is no
    cleanup and room to track 50000 transactions; one that was forgotten is
    forwarded again ([forgotten_stemmed_again]). *)
Theorem stem_then_fluff (h : bytes) (before calls : list call) :
  let d := foldl (flip exec) new before in
  (kept h calls d = true → stems_then_fluffs 5 (phases h calls d)) ∧
  (forallb (negb ∘ cleans) calls = true → (size d.(states) + length calls ≤ MAX_TRACKED_TXS)%nat → kept h calls d = true).
Proof.
  cbv zeta. assert (Hnew : dandelion_ok new) by (split; [cbn; lia|apply map_Forall_empty]).
  destruct (foldl_exec_ok before new Hnew) as [Hd E]. split; [|apply kept_small].
  intros Hk. pose proof (phases_new h calls _ Hd Hk) as Hp. rewrite E in Hp. exact Hp.
Qed.
End dandelion.
End Dandelion.

(** ** peer_diversity.rs *)

Module PeerDiversity.

Inductive IpAddr := V4 (a b c d : Z) | V6 (segments : list Z).
#[global] Instance IpAddr_eq_dec : EqDecision IpAddr.
Proof. solve_decision. Defined.

Record PeerDiversityGuard := mkGuard {
  subnet16_counts : gmap Z Z;
  subnet8_counts : gmap Z Z;
  max_per_subnet16 : Z;
  max_per_subnet8 : Z;
  total_peers : Z;
  max_peers : Z;
  outbound_only_slots : Z;
  inbound_count : Z
}.

Definition new (max : Z) : PeerDiversityGuard := mkGuard ∅ ∅ 10 25 0 max 8 0.

Definition subnet16 (a b : Z) : Z := Z.lor (Z.shiftl a 8) b.

Definition check_subnet_limits (ip : IpAddr) (g : PeerDiversityGuard) : bool :=
  match ip with
  | V4 a b _ _ =>
      if g.(max_per_subnet16) <=? default 0 (g.(subnet16_counts) !! subnet16 a b) then false else
      if g.(max_per_subnet8) <=? default 0 (g.(subnet8_counts) !! a) then false else true
  | V6 _ => g.(total_peers) <? g.(max_peers)
  end.

Definition allow_inbound (ip : IpAddr) (g : PeerDiversityGuard) : bool :=
  if saturating_sub g.(max_peers) g.(outbound_only_slots) <=? g.(inbound_count) then false else check_subnet_limits ip g.

Definition allow_outbound (ip : IpAddr) (g : PeerDiversityGuard) : bool :=
  if g.(max_peers) <=? g.(total_peers) then false else check_subnet_limits ip g.

Definition count_up (k : Z) (m : gmap Z Z) : gmap Z Z := <[k := default 0 (m !! k) + 1]> m.
Definition count_down (k : Z) (m : gmap Z Z) : gmap Z Z :=
  match m !! k with
  | None => m
  | Some n => let n := saturating_sub n 1 in if n =? 0 then delete k m else <[k := n]> m
  end.

Definition with_counts (c16 c8 : gmap Z Z) (total inbound : Z) (g : PeerDiversityGuard) : PeerDiversityGuard :=
  mkGuard c16 c8 g.(max_per_subnet16) g.(max_per_subnet8) total g.(max_peers) g.(outbound_only_slots) inbound.

Definition on_peer_connected (ip : IpAddr) (is_inbound : bool) (g : PeerDiversityGuard) : PeerDiversityGuard :=
  let total := g.(total_peers) + 1 in
  let inbound := if is_inbound then g.(inbound_count) + 1 else g.(inbound_count) in
  match ip with
  | V4 a b _ _ => with_counts (count_up (subnet16 a b) g.(subnet16_counts)) (count_up a g.(subnet8_counts)) total inbound g
  | V6 _ => with_counts g.(subnet16_counts) g.(subnet8_counts) total inbound g
  end.

Definition on_peer_disconnected (ip : IpAddr) (is_inbound : bool) (g : PeerDiversityGuard) : PeerDiversityGuard :=
  let total := saturating_sub g.(total_peers) 1 in
  let inbound := if is_inbound then saturating_sub g.(inbound_count) 1 else g.(inbound_count) in
  match ip with
  | V4 a b _ _ => with_counts (count_down (subnet16 a b) g.(subnet16_counts)) (count_down a g.(subnet8_counts)) total inbound g
  | V6 _ => with_counts g.(subnet16_counts) g.(subnet8_counts) total inbound g
  end.

(** *** The guard counts the connections *)

Abbreviation conn := (IpAddr * bool)%type.

Definition in16 (k : Z) (c : conn) : bool := match c.1 with V4 a b _ _ => subnet16 a b =? k | V6 _ => false end.
Definition in8 (k : Z) (c : conn) : bool := match c.1 with V4 a _ _ _ => a =? k | V6 _ => false end.

Definition count (f : conn → bool) (l : list conn) : Z := sum_of (λ c, if f c then 1 else 0) l.

(** The table of counts that [f] describes: zero counts are absent. *)
Definition table (f : Z → conn → bool) (l : list conn) (m : gmap Z Z) : Prop :=
  ∀ k, m !! k = if count (f k) l =? 0 then None else Some (count (f k) l).

Record guard_inv (g : PeerDiversityGuard) (l : list conn) : Prop := {
  inv_16 : table in16 l g.(subnet16_counts);
  inv_8 : table in8 l g.(subnet8_counts);
  inv_total : g.(total_peers) = Z.of_nat (length l);
  inv_inbound : g.(inbound_count) = count snd l
}.

Lemma conn_count_cons f c l : count f (c :: l) = (if f c then 1 else 0) + count f l.
Proof. unfold count. by rewrite sum_of_cons. Qed.

Lemma conn_count_nonneg f l : 0 ≤ count f l.
Proof. apply sum_of_nonneg, Forall_true. intros c. destruct (f c); lia. Qed.

Lemma count_perm f l l' : l ≡ₚ l' → count f l = count f l'.
Proof. induction 1; rewrite ?conn_count_cons; lia. Qed.

Lemma table_default f l m k : table f l m → default 0 (m !! k) = count (f k) l.
Proof. intros Ht. rewrite Ht. destruct (Z.eqb_spec (count (f k) l) 0); cbn; lia. Qed.

Lemma table_up f l m k c : table f l m → (∀ k', f k' c = (k =? k')) → table f (c :: l) (count_up k m).
Proof.
  intros Ht Hf k'. unfold count_up. rewrite (table_default f l m k Ht), conn_count_cons, Hf. pose proof (conn_count_nonneg (f k) l).
  destruct (Z.eqb_spec k k') as [<-|Hne]; [rewrite lookup_insert_eq|rewrite lookup_insert_ne by done; rewrite Ht].
  - destruct (Z.eqb_spec (1 + count (f k) l) 0); [lia|]. f_equal. lia.
  - done.
Qed.

Lemma table_down f l m k c : table f (c :: l) m → (∀ k', f k' c = (k =? k')) → table f l (count_down k m).
Proof.
  intros Ht Hf k'. unfold count_down. pose proof (Ht k) as Hk. rewrite conn_count_cons, Hf, Z.eqb_refl in Hk.
  pose proof (conn_count_nonneg (f k) l). destruct (Z.eqb_spec (1 + count (f k) l) 0); [lia|]. rewrite Hk.
  assert (Hk' : k ≠ k' → m !! k' = if count (f k') l =? 0 then None else Some (count (f k') l)).
  { intros Hne. rewrite Ht, conn_count_cons, Hf. destruct (Z.eqb_spec k k'); [done|]. done. }
  replace (saturating_sub (1 + count (f k) l) 1) with (count (f k) l) by (unfold saturating_sub; lia). cbv zeta.
  destruct (Z.eqb_spec (count (f k) l) 0) as [E0|E0], (decide (k = k')) as [<-|Hne];
    rewrite ?lookup_delete_eq, ?lookup_insert_eq, ?lookup_delete_ne, ?lookup_insert_ne by done; try by apply Hk'.
  - by rewrite E0.
  - by rewrite (proj2 (Z.eqb_neq _ _) E0).
Qed.

Lemma table_skip f l m c : (∀ k, f k c = false) → table f (c :: l) m ↔ table f l m.
Proof. intros Hf. unfold table. split; intros Ht k; specialize (Ht k); rewrite conn_count_cons, Hf in *; done. Qed.

Lemma connected_inv g l ip b : guard_inv g l → guard_inv (on_peer_connected ip b g) ((ip, b) :: l).
Proof.
  intros [I16 I8 It Ii]. unfold on_peer_connected. destruct ip as [x y z w|segs]; split; cbn [with_counts subnet16_counts subnet8_counts total_peers inbound_count].
  all: rewrite ?conn_count_cons, ?It, ?Ii; cbn [length snd]; try lia; try (destruct b; lia).
  - by apply table_up.
  - by apply table_up.
  - by apply table_skip.
  - by apply table_skip.
Qed.

Lemma disconnected_inv g l ip b : guard_inv g ((ip, b) :: l) → guard_inv (on_peer_disconnected ip b g) l.
Proof.
  intros [I16 I8 It Ii]. rewrite conn_count_cons in Ii. cbn [length snd] in It, Ii. pose proof (conn_count_nonneg snd l).
  unfold on_peer_disconnected. destruct ip as [x y z w|segs]; split; cbn [with_counts subnet16_counts subnet8_counts total_peers inbound_count].
  all: rewrite ?It, ?Ii; unfold saturating_sub; try lia; try (destruct b; lia).
  - by eapply table_down.
  - by eapply table_down.
  - by apply (table_skip in16 l _ (V6 segs, b)).
  - by apply (table_skip in8 l _ (V6 segs, b)).
Qed.

Lemma guard_inv_perm g l l' : l ≡ₚ l' → guard_inv g l → guard_inv g l'.
Proof.
  intros Hp [I16 I8 It Ii]. split; [..|by rewrite <- Hp|by rewrite <- (count_perm snd _ _ Hp)]; intros k.
  - by rewrite <- (count_perm _ _ _ Hp).
  - by rewrite <- (count_perm _ _ _ Hp).
Qed.

(** *** Limits *)

Fixpoint remove_conn (c : conn) (l : list conn) : list conn :=
  match l with [] => [] | d :: l => if decide (c = d) then l else d :: remove_conn c l end.

Lemma remove_conn_perm c l : c ∈ l → c :: remove_conn c l ≡ₚ l.
Proof.
  induction l as [|d l IH]; [by intros ?%elem_of_nil|]. cbn. destruct (decide (c = d)) as [->|Hne]; [done|].
  intros [?|Hc]%elem_of_cons; [done|]. rewrite <- (IH Hc) at 2. apply Permutation_swap.
Qed.

(** What a node that asks the guard does: a connection that is allowed is
    recorded, one that is not is dropped; a connection that ends is recorded. *)
Inductive Op := Inbound (ip : IpAddr) | Outbound (ip : IpAddr) | Closed (c : conn).

Definition step (op : Op) (gl : PeerDiversityGuard * list conn) : PeerDiversityGuard * list conn :=
  let '(g, l) := gl in
  match op with
  | Inbound ip => if allow_inbound ip g then (on_peer_connected ip true g, (ip, true) :: l) else (g, l)
  | Outbound ip => if allow_outbound ip g then (on_peer_connected ip false g, (ip, false) :: l) else (g, l)
  | Closed c => if bool_decide (c ∈ l) then (on_peer_disconnected c.1 c.2 g, remove_conn c l) else (g, l)
  end.

Record limits_ok (max : Z) (gl : PeerDiversityGuard * list conn) : Prop := {
  lim_inv : guard_inv gl.1 gl.2;
  lim_conf : max_per_subnet16 gl.1 = 10 ∧ max_per_subnet8 gl.1 = 25 ∧ max_peers gl.1 = max ∧ outbound_only_slots gl.1 = 8;
  lim_16 : ∀ k, count (in16 k) gl.2 ≤ 10;
  lim_8 : ∀ k, count (in8 k) gl.2 ≤ 25;
  lim_in : count snd gl.2 ≤ Z.max 0 (max - 8)
}.

Lemma conf_connected ip b g max :
  max_per_subnet16 g = 10 ∧ max_per_subnet8 g = 25 ∧ max_peers g = max ∧ outbound_only_slots g = 8 →
  let g' := on_peer_connected ip b g in
  max_per_subnet16 g' = 10 ∧ max_per_subnet8 g' = 25 ∧ max_peers g' = max ∧ outbound_only_slots g' = 8.
Proof. by destruct ip. Qed.

(** A connection that passes the check keeps the counts of its subnets. *)
Lemma check_limits ip g l max b k : limits_ok max (g, l) → check_subnet_limits ip g = true →
  count (in16 k) ((ip, b) :: l) ≤ 10 ∧ count (in8 k) ((ip, b) :: l) ≤ 25.
Proof.
  intros [[I16 I8 _ _] (E16 & E8 & _ & _) L16 L8 _]. cbn [fst snd] in *. specialize (L16 k). specialize (L8 k). rewrite !conn_count_cons.
  unfold check_subnet_limits, in16 at 1, in8 at 1. cbn [fst]. destruct ip as [x y z w|segs]; [|lia].
  rewrite (table_default in16 l _ _ I16), (table_default in8 l _ _ I8), E16, E8.
  destruct (Z.leb_spec 10 (count (in16 (subnet16 x y)) l)); [done|]. destruct (Z.leb_spec 25 (count (in8 x) l)); [done|]. intros _.
  split; [destruct (Z.eqb_spec (subnet16 x y) k) as [<-|]; lia|destruct (Z.eqb_spec x k) as [<-|]; lia].
Qed.

Lemma count_remove f c l : c ∈ l → count f (remove_conn c l) ≤ count f l ∧ c :: remove_conn c l ≡ₚ l.
Proof.
  intros Hc. assert (Hp : c :: remove_conn c l ≡ₚ l) by (by apply remove_conn_perm). split; [|done].
  rewrite <- (count_perm f _ _ Hp), conn_count_cons. destruct (f c); lia.
Qed.

Lemma step_ok max op gl : limits_ok max gl → limits_ok max (step op gl).
Proof.
  intros Hok. destruct gl as [g l]. destruct op as [ip|ip|c]; cbn [step].
  - destruct (allow_inbound ip g) eqn:Ea; [|done]. unfold allow_inbound in Ea. destruct (Z.leb_spec (saturating_sub g.(max_peers) g.(outbound_only_slots)) g.(inbound_count)); [done|].
    pose proof (λ k, check_limits ip g l max true k Hok Ea) as Hl. destruct Hok as [Hinv Hconf L16 L8 Lin]. cbn [fst snd] in *.
    split; cbn [fst snd]; [by apply connected_inv|by apply conf_connected|by apply Hl|by apply Hl|].
    rewrite conn_count_cons. cbn. destruct Hconf as (_ & _ & E1 & E2). rewrite E1, E2, (inv_inbound _ _ Hinv) in *. unfold saturating_sub in *. lia.
  - destruct (allow_outbound ip g) eqn:Ea; [|done]. unfold allow_outbound in Ea. destruct (_ <=? _); [done|].
    pose proof (λ k, check_limits ip g l max false k Hok Ea) as Hl. destruct Hok as [Hinv Hconf L16 L8 Lin]. cbn [fst snd] in *.
    split; cbn [fst snd]; [by apply connected_inv|by apply conf_connected|by apply Hl|by apply Hl|]. rewrite conn_count_cons. cbn. lia.
  - case_bool_decide as Hc; [|done]. destruct c as [ip b]. destruct Hok as [Hinv Hconf L16 L8 Lin]. cbn [fst snd] in *.
    split; cbn [fst snd].
    + apply disconnected_inv. eapply guard_inv_perm; [|done]. symmetry. by apply count_remove.
    + by destruct ip.
    + intros k. etransitivity; [by apply count_remove|done].
    + intros k. etransitivity; [by apply count_remove|done].
    + etransitivity; [by apply count_remove|done].
Qed.

(** Whatever connections are asked for and end, the guard's tables are the
    counts of the open connections, at most 10 of them are of one /16 subnet and
    25 of one /8 subnet, and 8 slots are never taken by inbound connections. *)
Theorem diversity_enforced (max : Z) (ops : list Op) : 0 ≤ max → limits_ok max (foldl (λ gl op, step op gl) (new max, []) ops).
Proof.
  intros Hmax. cut (∀ gl, limits_ok max gl → limits_ok max (foldl (λ gl op, step op gl) gl ops)).
  { intros Hgen. apply Hgen. split; cbn; try done; try lia. change (count snd []) with 0. lia. }
  induction ops as [|op ops IH]; intros gl Hgl; [done|]. by apply IH, step_ok.
Qed.

(** Inbound IPv4 connections are checked against the inbound slots only:
    a guard whose peers are all outbound and at the maximum still accepts one. *)
Theorem total_not_enforced (a b c d : Z) (g : PeerDiversityGuard) :
  g.(total_peers) = g.(max_peers) → g.(inbound_count) < g.(max_peers) - g.(outbound_only_slots) →
  default 0 (g.(subnet16_counts) !! subnet16 a b) < g.(max_per_subnet16) → default 0 (g.(subnet8_counts) !! a) < g.(max_per_subnet8) →
  allow_inbound (V4 a b c d) g = true ∧ g.(max_peers) < (on_peer_connected (V4 a b c d) true g).(total_peers).
Proof.
  intros Ht Hi H16 H8. unfold allow_inbound, check_subnet_limits.
  rewrite (proj2 (Z.leb_gt (saturating_sub _ _) _)) by (unfold saturating_sub; lia).
  rewrite !(proj2 (Z.leb_gt _ _)) by lia. split; [done|]. cbn. lia.
Qed.
End PeerDiversity.

(** ** compact_block.rs *)

(** [zstd]: [encode_all] at a level, and [decode_all]. *)
Class Zstd := {
  zstd_encode_all : Z → bytes → result error bytes;
  zstd_decode_all : bytes → result error bytes;
  zstd_decode_encode : ∀ level b c, zstd_encode_all level b = Ok c → zstd_decode_all c = Ok b
}.

Module Compact.
Section compact.
Context `{Digest, Codec, Zstd}.

Record CompactBlock := mkCompact { compact_header : BlockHeader; tx_hashes : list H256 }.
Record ReconstructionResult := mkReconstruction { block : option Block; missing : list H256 }.

Definition from_block (b : Block) : CompactBlock := mkCompact b.(header) (hash <$> b.(transactions)).

(** The loop over the hashes: the transactions that are known, and the hashes
    that are not. *)
Fixpoint look_up (known_txs : gmap H256 Transaction) (hashes : list H256) : list Transaction * list H256 :=
  match hashes with
  | [] => ([], [])
  | h :: hashes =>
      let '(txs, missing) := look_up known_txs hashes in
      match known_txs !! h with
      | Some tx => (tx :: txs, missing)
      | None => (txs, h :: missing)
      end
  end.

Definition reconstruct (known_txs : gmap H256 Transaction) (c : CompactBlock) : ReconstructionResult :=
  let '(txs, missing) := look_up known_txs c.(tx_hashes) in
  if bool_decide (missing = [])
  then mkReconstruction (Some (mkBlock c.(compact_header) txs None [])) []
  else mkReconstruction None missing.

(** *** Message compression *)

Definition uncompressed (data : bytes) : bytes := 0 :: data.

Definition compress_message (data : bytes) : bytes :=
  if (length data <=? 256)%nat then uncompressed data else
  match zstd_encode_all 1 data with
  | Ok compressed => 1 :: compressed
  | Err _ => uncompressed data
  end.

Definition MAX_DECOMPRESSED_SIZE : Z := 16 * 1024 * 1024.

Definition decompress_message (data : bytes) : result error bytes :=
  match data with
  | [] => mthrow (Msg "empty message")
  | tag :: rest =>
      if tag =? 0 then
        bail_if (MAX_DECOMPRESSED_SIZE <? Z.of_nat (length rest))
          (Fmt "uncompressed message too large: {} bytes (max {})" [Z.of_nat (length rest); MAX_DECOMPRESSED_SIZE]);;
        mret rest
      else if tag =? 1 then
        decompressed ← zstd_decode_all rest;
        bail_if (MAX_DECOMPRESSED_SIZE <? Z.of_nat (length decompressed))
          (Fmt "decompressed message too large: {} bytes (max {})" [Z.of_nat (length decompressed); MAX_DECOMPRESSED_SIZE]);;
        mret decompressed
      else mthrow (Fmt "unknown compression tag: {}" [tag])
  end.

Lemma look_up_spec known hashes :
  (look_up known hashes).1 = omap (known !!.) hashes ∧ (look_up known hashes).2 = filter (λ h, known !! h = None) hashes.
Proof.
  induction hashes as [|h hashes [I1 I2]]; [done|]. cbn [look_up]. destruct (look_up known hashes) as [txs ms]. cbn in I1, I2.
  rewrite filter_cons. cbn [omap list_omap]. destruct (known !! h) eqn:E; [rewrite decide_False by done|rewrite decide_True by done]; cbn; by rewrite I1, I2.
Qed.

(** What is missing is exactly what the pool does not know, in order; when
    it knows every transaction of a block under its hash, the block is rebuilt,
    without its aggregated vote and its evidence. *)
Theorem compact_reconstructs (b : Block) (known : gmap H256 Transaction) :
  let r := reconstruct known (from_block b) in
  r.(missing) = filter (λ h, known !! h = None) (hash <$> b.(transactions)) ∧
  (r.(block) = None ↔ ∃ tx, tx ∈ b.(transactions) ∧ known !! hash tx = None) ∧
  (Forall (λ tx, known !! hash tx = Some tx) b.(transactions) →
   r.(block) = Some (mkBlock b.(header) b.(transactions) None [])).
Proof.
  intros r. unfold r, reconstruct, from_block. cbn [tx_hashes compact_header].
  pose proof (look_up_spec known (hash <$> b.(transactions))) as [Ht Hm]. destruct (look_up known _) as [txs ms]. cbn in Ht, Hm. subst txs ms.
  assert (Hnil : filter (λ h, known !! h = None) (hash <$> b.(transactions)) = [] ↔ Forall (λ tx, known !! hash tx ≠ None) b.(transactions)).
  { induction b.(transactions) as [|tx txs IH]; [done|]. cbn [fmap list_fmap]. rewrite filter_cons, Forall_cons, <- IH. case_decide; naive_solver. }
  case_bool_decide as Em; cbn [missing block]; split_and!; try done.
  - split; [done|]. intros (tx & Htx & Hn). apply Hnil in Em. rewrite Forall_forall in Em. by destruct (Em tx Htx).
  - intros Hall. do 2 f_equal. clear -Hall. induction Hall as [|tx txs Hx _ IH]; [done|]. cbn. rewrite Hx. by rewrite IH.
  - split; [intros _|done]. destruct (filter (λ h, known !! h = None) (hash <$> b.(transactions))) as [|h l] eqn:E; [done|].
    assert (Hh : h ∈ filter (λ h, known !! h = None) (hash <$> b.(transactions))) by (rewrite E; left).
    apply list_elem_of_filter in Hh as [Hn (tx & -> & Htx)%list_elem_of_fmap]. eauto.
  - intros Hall. destruct Em. apply Hnil. eapply Forall_impl; [exact Hall|]. intros tx Hx. cbn in Hx. congruence.
Qed.

(** A message of at most 16 MiB comes back from compression, whatever zstd
    does; a larger one is refused. *)
Theorem compression_roundtrip (data : bytes) :
  decompress_message (compress_message data) = Ok data ↔ Z.of_nat (length data) ≤ MAX_DECOMPRESSED_SIZE.
Proof.
  assert (Hu : decompress_message (uncompressed data) = Ok data ↔ Z.of_nat (length data) ≤ MAX_DECOMPRESSED_SIZE).
  { unfold decompress_message, uncompressed. cbn [Z.eqb]. unfold_M. destruct (Z.ltb_spec MAX_DECOMPRESSED_SIZE (Z.of_nat (length data))); split; done || lia. }
  unfold compress_message. destruct (_ <=? _)%nat; [done|]. destruct (zstd_encode_all 1 data) as [c|e] eqn:E; [|done].
  unfold decompress_message. cbn [Z.eqb]. change (1 =? 0) with false. change (1 =? 1) with true. unfold_M.
  rewrite (zstd_decode_encode _ _ _ E). destruct (Z.ltb_spec MAX_DECOMPRESSED_SIZE (Z.of_nat (length data))); split; done || lia.
Qed.
End compact.
End Compact.

From S2P Require Import Toy.

(** ** Examples *)

Module P2pDemo.
Import PeerDiversity.

#[global] Program Instance toy_zstd : Zstd := { zstd_encode_all _ b := Ok b; zstd_decode_all b := Ok b }.
Next Obligation. intros. congruence. Qed.

(** After a cleanup, one transaction asked for seven times within ten seconds,
    another one marked in between. *)
Definition seven : list Dandelion.call :=
  Dandelion.Ask 0 0 [1] :: Dandelion.Ask 0 0 [2] :: Dandelion.Mark [2] :: replicate 6 (Dandelion.Ask 0 0 [1]).

Lemma stem_then_fluff_witness : let d := foldl (flip Dandelion.exec) Dandelion.new [Dandelion.Clean 0 0] in
  Dandelion.kept [1] seven d = true ∧ Dandelion.stems_then_fluffs 5 (Dandelion.phases [1] seven d).
Proof.
  cbv zeta. destruct (Dandelion.stem_then_fluff [1] [Dandelion.Clean 0 0] seven) as [Hstems Hkept].
  assert (Hk : Dandelion.kept [1] seven (foldl (flip Dandelion.exec) Dandelion.new [Dandelion.Clean 0 0]) = true).
  { apply Hkept; [reflexivity|]. apply Nat.leb_le. vm_compute. reflexivity. }
  split; [exact Hk|exact (Hstems Hk)].
Defined.

(** A transaction that was broadcast is forwarded to a single peer again once it
    was cleaned up. *)
Lemma forgotten_stemmed_again :
  Dandelion.phases [1] [Dandelion.Ask 0 0 [1]; Dandelion.Mark [1]; Dandelion.Ask 0 0 [1]; Dandelion.Clean 5 5; Dandelion.Ask 5 0 [1]]
    Dandelion.new = [Dandelion.Stem; Dandelion.Fluff; Dandelion.Stem].
Proof. vm_compute. reflexivity. Qed.

Lemma diversity_enforced_witness :
  limits_ok 50 (foldl (λ gl op, step op gl) (new 50, []) [Inbound (V4 10 0 0 1); Outbound (V4 10 0 0 2); Closed (V4 10 0 0 1, true)]).
Proof. apply (diversity_enforced 50). lia. Defined.

(** With 9 slots, 9 outbound peers and an inbound one. *)
Lemma total_not_enforced_witness :
  let g := foldl (λ g i, on_peer_connected (V4 i 0 0 1) false g) (new 9) [1; 2; 3; 4; 5; 6; 7; 8; 9] in
  allow_inbound (V4 10 0 0 1) g = true ∧ g.(max_peers) < (on_peer_connected (V4 10 0 0 1) true g).(total_peers).
Proof. intros g. apply (total_not_enforced 10 0 0 1 g); vm_compute; reflexivity. Defined.
End P2pDemo.
