(* ===== verification/Gossip.v ===== *)
(** * Gossip

    Two message routers: the topic manager of [crates/p2p/src/gossip.rs], and
    the router of [crates/networking/gossipsub] with its mesh and its peer
    scores. Scores are IEEE doubles ([spec_float], 53 and 1024). A hash of a
    message stands for its 32 bytes. *)

From Stdlib Require Import Floats.SpecFloat.
From S2P Require Import Prelude.
From S2P Require Import Transaction.
From S2P Require Import Storage.

#[local] Open Scope Z_scope.

Lemma size_alter {K A} `{Countable K} (f : A → A) (k : K) (m : gmap K A) : size (alter f k m) = size m.
Proof. rewrite <- !size_dom. by rewrite dom_alter_L. Qed.

(** ** p2p/src/gossip.rs *)

Module GossipManager.
Section gossip.
Context `{Digest}.

Definition MAX_PEERS_PER_TOPIC : nat := 12.
Definition MAX_TOPICS : nat := 64.

Record TopicInfo := mkTopic { name : string; topic_peers : list string; message_count : Z }.

Record GossipManager := mkManager {
  subscriptions : gmap string TopicInfo;
  seen_set : gset H256;
  seen_order : list H256;
  message_cache : list (H256 * Z);
  cache_size : nat;
  cache_duration : Z
}.

(** Times are in seconds. *)
Definition new : GossipManager := mkManager ∅ ∅ [] [] (Z.to_nat 1000) 120.

Definition set_subscriptions (m : gmap string TopicInfo) (s : GossipManager) : GossipManager :=
  mkManager m s.(seen_set) s.(seen_order) s.(message_cache) s.(cache_size) s.(cache_duration).

Definition subscribe (topic : string) (s : GossipManager) : GossipManager :=
  if bool_decide (is_Some (s.(subscriptions) !! topic)) then s else
  if (MAX_TOPICS <=? size s.(subscriptions))%nat then s else
  set_subscriptions (<[topic := mkTopic topic [] 0]> s.(subscriptions)) s.

Definition unsubscribe (topic : string) (s : GossipManager) : GossipManager :=
  set_subscriptions (delete topic s.(subscriptions)) s.

Definition hash_message (message : list Z) : H256 := sha256_digest message.

Definition cache_message (now : Z) (h : H256) (s : GossipManager) : GossipManager :=
  let cache := if (s.(cache_size) <=? length s.(message_cache))%nat then tail s.(message_cache) else s.(message_cache) in
  mkManager s.(subscriptions) s.(seen_set) s.(seen_order) (cache ++ [(h, now)]) s.(cache_size) s.(cache_duration).

(** The part [publish] and [handle_message] share: the hash is recorded, cached
    and counted for the topic. *)
Definition record_message (now : Z) (topic : string) (h : H256) (s : GossipManager) : GossipManager :=
  let s := mkManager s.(subscriptions) ({[h]} ∪ s.(seen_set)) (s.(seen_order) ++ [h]) s.(message_cache) s.(cache_size) s.(cache_duration) in
  let s := cache_message now h s in
  set_subscriptions (alter (λ i, mkTopic i.(name) i.(topic_peers) (saturating_add U64_MAX i.(message_count) 1)) topic s.(subscriptions)) s.

Definition publish (now : Z) (topic : string) (message : list Z) : M GossipManager error unit :=
  s ← get_state;
  bail_if (negb (bool_decide (is_Some (s.(subscriptions) !! topic)))) (Msg "not subscribed to topic: {}");;
  let h := hash_message message in
  if bool_decide (h ∈ s.(seen_set)) then mret tt else
  modify (record_message now topic h).

Definition handle_message (now : Z) (topic : string) (message : list Z) : M GossipManager error bool :=
  s ← get_state;
  let h := hash_message message in
  if bool_decide (h ∈ s.(seen_set)) then mret false else
  modify (record_message now topic h);;
  mret true.

Definition add_peer_to_topic (topic peer_id : string) (s : GossipManager) : GossipManager :=
  match s.(subscriptions) !! topic with
  | None => s
  | Some info =>
      if bool_decide (peer_id ∈ info.(topic_peers)) then s else
      if (MAX_PEERS_PER_TOPIC <=? length info.(topic_peers))%nat then s else
      set_subscriptions (<[topic := mkTopic info.(name) (info.(topic_peers) ++ [peer_id]) info.(message_count)]> s.(subscriptions)) s
  end.

Definition remove_peer_from_topic (topic peer_id : string) (s : GossipManager) : GossipManager :=
  set_subscriptions (alter (λ i, mkTopic i.(name) (filter (λ p, p ≠ peer_id) i.(topic_peers)) i.(message_count)) topic s.(subscriptions)) s.

Definition get_topic_peers (topic : string) (s : GossipManager) : list string :=
  from_option topic_peers [] (s.(subscriptions) !! topic).

(** The loop that forgets the oldest hashes. *)
Fixpoint forget (n : nat) (set : gset H256) (order : list H256) : gset H256 * list H256 :=
  match n, order with
  | S n, oldest :: order => forget n (set ∖ {[oldest]}) order
  | _, _ => (set, order)
  end.

Definition cleanup (now : Z) (s : GossipManager) : GossipManager :=
  let cache := filter (λ e, Z.max 0 (now - e.2) < s.(cache_duration)) s.(message_cache) in
  let '(set, order) :=
    if (s.(cache_size) <? size s.(seen_set))%nat then forget (size s.(seen_set) / 2) s.(seen_set) s.(seen_order)
    else (s.(seen_set), s.(seen_order)) in
  mkManager s.(subscriptions) set order cache s.(cache_size) s.(cache_duration).

(** *** The manager stays well-formed *)

Inductive Op :=
| Subscribe (topic : string) | Unsubscribe (topic : string)
| Publish (now : Z) (topic : string) (message : list Z) | Handle (now : Z) (topic : string) (message : list Z)
| AddPeer (topic peer : string) | RemovePeer (topic peer : string) | Cleanup (now : Z).

Definition exec (op : Op) (s : GossipManager) : GossipManager :=
  match op with
  | Subscribe t => subscribe t s
  | Unsubscribe t => unsubscribe t s
  | Publish now t m => (publish now t m s).1
  | Handle now t m => (handle_message now t m s).1
  | AddPeer t p => add_peer_to_topic t p s
  | RemovePeer t p => remove_peer_from_topic t p s
  | Cleanup now => cleanup now s
  end.

Record manager_ok (s : GossipManager) : Prop := {
  ok_topics : (size s.(subscriptions) ≤ MAX_TOPICS)%nat;
  ok_peers : map_Forall (λ _ i, NoDup i.(topic_peers) ∧ (length i.(topic_peers) ≤ MAX_PEERS_PER_TOPIC)%nat) s.(subscriptions);
  ok_seen : NoDup s.(seen_order) ∧ ∀ h, h ∈ s.(seen_order) ↔ h ∈ s.(seen_set);
  ok_cache : (length s.(message_cache) ≤ s.(cache_size))%nat ∧ (0 < s.(cache_size))%nat
}.

Lemma forget_ok n set order : NoDup order → (∀ h, h ∈ order ↔ h ∈ set) →
  (forget n set order).2 = drop n order ∧ ∀ h, h ∈ drop n order ↔ h ∈ (forget n set order).1.
Proof.
  revert set order. induction n as [|n IH]; intros set order Hn Hs; [done|]. destruct order as [|o order]; [done|].
  apply NoDup_cons in Hn as [Ho Hn]. cbn [forget drop]. apply IH; [done|]. intros h. rewrite elem_of_difference, not_elem_of_singleton, <- Hs, elem_of_cons.
  split; [intros Hh; split; [by right|by intros ->]|]. intros [[->|?] ?]; done.
Qed.

Lemma record_ok now t h s : manager_ok s → h ∉ s.(seen_set) → manager_ok (record_message now t h s).
Proof.
  intros [T P [N S] [C Z]] Hh. unfold record_message, cache_message. split; cbn.
  - by rewrite size_alter.
  - intros k i Hi. apply lookup_alter_Some in Hi as [(-> & j & Hj & ->)|[_ Hi]]; [by apply (P k j Hj)|by apply (P k i)].
  - split.
    + apply NoDup_app. split_and!; [done| |apply NoDup_singleton]. intros x Hx ->%list_elem_of_singleton. apply Hh. by apply S.
    + intros x. rewrite elem_of_app, list_elem_of_singleton, elem_of_union, elem_of_singleton, S. tauto.
  - split; [|done]. rewrite length_app. cbn. destruct (Nat.leb_spec s.(cache_size) (length s.(message_cache))); [|lia].
    destruct s.(message_cache); cbn in *; lia.
Qed.

(** C28: Whatever the calls and the clock: at most 64 topics with at most 12
    different peers each, the set and the queue of seen messages agree and the
    queue has no repetition, and the cache keeps to its size. *)
Theorem gossip_well_formed (ops : list Op) : manager_ok (foldl (λ s op, exec op s) new ops).
Proof.
  cut (∀ s, manager_ok s → manager_ok (foldl (λ s op, exec op s) s ops)).
  { intros Hgen. apply Hgen. split; cbn [new subscriptions seen_order seen_set message_cache cache_size length].
    - rewrite map_size_empty. apply Nat.le_0_l.
    - apply map_Forall_empty.
    - split; [constructor|set_solver].
    - split; lia. }
  induction ops as [|op ops IH]; intros s Hs; [done|]. cbn [foldl]. apply IH. clear IH.
  destruct op as [t|t|now t m|now t m|t p|t p|now]; cbn [exec].
  - unfold subscribe. case_bool_decide as Ht; [done|]. destruct (Nat.leb_spec MAX_TOPICS (size s.(subscriptions))); [done|].
    destruct Hs as [T P S C]. split; cbn; try done.
    + rewrite map_size_insert_None by (by apply eq_None_not_Some). lia.
    + apply map_Forall_insert_2; [|done]. split; [constructor|cbn; lia].
  - destruct Hs as [T P S C]. split; cbn; try done; [|by apply map_Forall_delete].
    rewrite map_size_delete. destruct (s.(subscriptions) !! t); cbn; lia.
  - unfold publish. unfold_M. destruct (negb _); [done|]. case_bool_decide; [done|]. by apply record_ok.
  - unfold handle_message. unfold_M. case_bool_decide; [done|]. by apply record_ok.
  - unfold add_peer_to_topic. destruct (s.(subscriptions) !! t) as [i|] eqn:Ei; [|done]. case_bool_decide as Hp; [done|].
    destruct (Nat.leb_spec MAX_PEERS_PER_TOPIC (length i.(topic_peers))); [done|]. destruct Hs as [T P S C]. destruct (P t i Ei) as [Hn Hl].
    split; cbn; try done; [rewrite map_size_insert_Some by (by eexists); done|].
    apply map_Forall_insert_2; [|done]. cbn. rewrite length_app. cbn. split; [|lia].
    apply NoDup_app. split_and!; [done| |apply NoDup_singleton]. by intros x Hx ->%list_elem_of_singleton.
  - destruct Hs as [T P S C]. split; cbn; try done; [by rewrite size_alter|].
    intros k i Hi. apply lookup_alter_Some in Hi as [(-> & j & Hj & ->)|[_ Hi]]; [|by apply (P k i)]. destruct (P k j Hj) as [Hn Hl].
    cbn. split; [by apply NoDup_filter|]. etransitivity; [apply length_filter|done].
  - destruct Hs as [T P [N S] [C Z]]. unfold cleanup. destruct (_ <? _)%nat.
    + pose proof (forget_ok (size s.(seen_set) / 2) _ _ N S) as [F1 F2]. destruct (forget _ _ _) as [set order]. cbn in F1, F2. subst order.
      split; cbn; try done; [split; [by eapply sublist_NoDup; [|apply sublist_drop]|done]|]. split; [|done]. etransitivity; [apply length_filter|done].
    + split; cbn; try done. split; [|done]. etransitivity; [apply length_filter|done].
Qed.

(** *** A message is new once *)

Lemma exec_keeps_seen op h s : (∀ now, op ≠ Cleanup now) → h ∈ s.(seen_set) → h ∈ (exec op s).(seen_set).
Proof.
  intros Hop Hh. destruct op as [t|t|now t m|now t m|t p|t p|now]; cbn [exec]; try done.
  - unfold subscribe. by repeat case_match.
  - unfold publish. unfold_M. destruct (negb _); [done|]. case_bool_decide; [done|]. cbn. set_solver.
  - unfold handle_message. unfold_M. case_bool_decide; [done|]. cbn. set_solver.
  - unfold add_peer_to_topic. by repeat case_match.
  - by destruct (Hop now).
Qed.

(** A message that was handled, new or not, is not new again before the next
    cleanup, on whatever topic it comes. *)
Theorem handled_once (now now' : Z) (t t' : string) (m : list Z) (ops : list Op) (s : GossipManager) :
  Forall (λ op, ∀ n, op ≠ Cleanup n) ops →
  let s' := foldl (λ s op, exec op s) (handle_message now t m s).1 ops in
  handle_message now' t' m s' = (s', Ok false).
Proof.
  intros Hall s'. assert (Hin : hash_message m ∈ s'.(seen_set)).
  { unfold s'. assert (H0 : hash_message m ∈ (handle_message now t m s).1.(seen_set)).
    { unfold handle_message. unfold_M. case_bool_decide; [done|]. cbn. set_solver. }
    revert H0. generalize (handle_message now t m s).1. induction Hall as [|op ops Hop _ IH]; intros s0 H0; [done|].
    cbn. apply IH. by apply exec_keeps_seen. }
  unfold handle_message. unfold_M. by rewrite bool_decide_true.
Qed.
End gossip.
End GossipManager.

(** ** gossipsub/src/scoring.rs *)

Module Scoring.

(** Doubles. *)
Definition f64 (z : Z) : spec_float := binary_normalize 53 1024 z 0 false.
Definition f64_add : spec_float → spec_float → spec_float := SFadd 53 1024.
Definition f64_sub : spec_float → spec_float → spec_float := SFsub 53 1024.
Definition f64_mul : spec_float → spec_float → spec_float := SFmul 53 1024.
(** The double nearest to 0.9. *)
Definition NINE_TENTHS : spec_float := S754_finite false 8106479329266893 (-53).

Definition MAX_TRACKED_PEERS : nat := Z.to_nat 4096.

Abbreviation PeerScore := spec_float (only parsing).
Definition score_new : PeerScore := f64 0.

Definition apply_success (score : PeerScore) : PeerScore :=
  let score := f64_add score (f64 1) in
  if SFltb (f64 10) score then f64 10 else score.

Definition apply_failure (score : PeerScore) : PeerScore :=
  let score := f64_sub score (f64 2) in
  if SFltb score (f64 (-10)) then f64 (-10) else score.

Definition decay (score : PeerScore) : PeerScore := f64_mul score NINE_TENTHS.

Section scoring.
Context `{HashOrder}.

Abbreviation PeerScores := (gmap N spec_float).

(** [min_by] keeps the first of equal scores; scores that do not compare are
    equal. *)
Definition worst (l : list (N * spec_float)) : option (N * spec_float) :=
  match l with
  | [] => None
  | x :: l => Some (foldl (λ w y, if SFltb y.2 w.2 then y else w) x l)
  end.

Definition ensure_capacity (peer : N) (scores : PeerScores) : PeerScores :=
  if bool_decide (is_Some (scores !! peer)) || (size scores <? MAX_TRACKED_PEERS)%nat then scores else
  match worst (hash_iter scores) with
  | Some (worst_peer, _) => delete worst_peer scores
  | None => scores
  end.

Definition record_success (peer : N) (scores : PeerScores) : PeerScores :=
  let scores := ensure_capacity peer scores in
  <[peer := apply_success (default score_new (scores !! peer))]> scores.

Definition record_failure (peer : N) (scores : PeerScores) : PeerScores :=
  let scores := ensure_capacity peer scores in
  <[peer := apply_failure (default score_new (scores !! peer))]> scores.

Definition score (peer : N) (scores : PeerScores) : spec_float := default (f64 0) (scores !! peer).
Definition remove_peer (peer : N) (scores : PeerScores) : PeerScores := delete peer scores.

(** Without decay the scores are the whole numbers from -10 to 10. *)
Definition whole (s : spec_float) : Prop := ∃ z, -10 ≤ z ≤ 10 ∧ s = f64 z.

Lemma whole_range z : -10 ≤ z ≤ 10 → z ∈ seqZ (-10) 21.
Proof. intros Hz. apply elem_of_seqZ. lia. Qed.

Ltac check_whole :=
  let l := eval vm_compute in (seqZ (-10) 21) in change (seqZ (-10) 21) with l;
  repeat (apply Forall_cons; split; [vm_compute; reflexivity|]).

Lemma apply_success_whole z : -10 ≤ z ≤ 10 → apply_success (f64 z) = f64 (Z.min 10 (z + 1)).
Proof.
  intros Hz%whole_range. revert z Hz. apply Forall_forall. check_whole. apply Forall_nil_2.
Qed.

Lemma apply_failure_whole z : -10 ≤ z ≤ 10 → apply_failure (f64 z) = f64 (Z.max (-10) (z - 2)).
Proof.
  intros Hz%whole_range. revert z Hz. apply Forall_forall. check_whole. apply Forall_nil_2.
Qed.

Record scores_ok (scores : PeerScores) : Prop := {
  ok_size : (size scores ≤ MAX_TRACKED_PEERS)%nat;
  ok_whole : map_Forall (λ _, whole) scores
}.

Lemma worst_elem l w : worst l = Some w → w ∈ l.
Proof.
  destruct l as [|x l]; [done|]. cbn. intros [= <-]. revert x. induction l as [|y l IH]; intros x; cbn; [left|].
  pose proof (IH (if SFltb y.2 x.2 then y else x)) as Hw. apply elem_of_cons in Hw as [->|?]; [|by right; right].
  destruct (SFltb y.2 x.2); set_solver.
Qed.

Lemma ensure_capacity_ok peer scores : scores_ok scores →
  scores_ok (ensure_capacity peer scores) ∧ (ensure_capacity peer scores) !! peer = scores !! peer ∧
  (scores !! peer = None → size (ensure_capacity peer scores) < MAX_TRACKED_PEERS)%nat.
Proof.
  intros [Hs Hw]. unfold ensure_capacity. destruct (scores !! peer) as [x|] eqn:Ep.
  { rewrite bool_decide_true by done. done. }
  rewrite bool_decide_false by (by intros [? ?]). cbn [orb].
  destruct (Nat.ltb_spec (size scores) MAX_TRACKED_PEERS); [done|].
  assert (Hne : (0 < size scores)%nat) by (unfold MAX_TRACKED_PEERS in *; lia).
  destruct (worst (hash_iter scores)) as [[q s]|] eqn:Ew.
  - apply worst_elem, elem_of_hash_iter in Ew. rewrite map_size_delete_Some by (by eexists).
    split_and!; [split; [rewrite map_size_delete_Some by (by eexists); lia|by apply map_Forall_delete]|by apply lookup_delete_None; right|lia].
  - exfalso. destruct (hash_iter scores) as [|x l] eqn:E; [|done]. pose proof (hash_iter_perm N spec_float scores) as Hp.
    rewrite E in Hp. apply Permutation_length in Hp. rewrite length_map_to_list in Hp. cbn in Hp. lia.
Qed.

Lemma update_ok peer f scores : (∀ s, whole s → whole (f s)) → scores_ok scores →
  let s := ensure_capacity peer scores in scores_ok (<[peer := f (default score_new (s !! peer))]> s).
Proof.
  intros Hf Hok s. destruct (ensure_capacity_ok peer scores Hok) as ([H1 H2] & Hp & Hn). fold s in H1, H2, Hp, Hn. split.
  - rewrite map_size_insert. destruct (s !! peer) eqn:E; cbn; [done|]. rewrite <- Hp in Hn. specialize (Hn eq_refl). lia.
  - apply map_Forall_insert_2; [|done]. apply Hf. destruct (s !! peer) as [x|] eqn:E; cbn; [by apply (H2 peer)|]. exists 0. split; [lia|done].
Qed.

Lemma record_success_ok peer scores : scores_ok scores → scores_ok (record_success peer scores).
Proof. apply update_ok. intros s (z & Hz & ->). rewrite apply_success_whole by done. exists (Z.min 10 (z + 1)). split; [lia|done]. Qed.

Lemma record_failure_ok peer scores : scores_ok scores → scores_ok (record_failure peer scores).
Proof. apply update_ok. intros s (z & Hz & ->). rewrite apply_failure_whole by done. exists (Z.max (-10) (z - 2)). split; [lia|done]. Qed.
End scoring.
End Scoring.

(** ** gossipsub/src/mesh.rs *)

Module Mesh.
Section mesh.
Context `{HashOrder}.

Abbreviation Mesh := (gmap string (gset N)).

Definition join (topic : string) (peer : N) (m : Mesh) : Mesh := <[topic := {[peer]} ∪ default ∅ (m !! topic)]> m.

Definition leave (topic : string) (peer : N) (m : Mesh) : Mesh :=
  match m !! topic with
  | None => m
  | Some ps => let ps := ps ∖ {[peer]} in if bool_decide (ps = ∅) then delete topic m else <[topic := ps]> m
  end.

Definition peers (topic : string) (m : Mesh) : list N := from_option hash_elements [] (m !! topic).

Lemma elem_of_peers topic m p : p ∈ peers topic m ↔ p ∈ default ∅ (m !! topic).
Proof. unfold peers. destruct (m !! topic) as [ps|]; cbn; [|set_solver]. apply elem_of_hash_elements. Qed.
End mesh.
End Mesh.

(** ** gossipsub/src/router.rs *)

Module Router.
Import Scoring.
Section router.
Context `{Digest, HashOrder}.

Definition MAX_SEEN_CACHE : nat := Z.to_nat 100000.
Definition MAX_DELIVERED_PER_TOPIC : nat := Z.to_nat 10000.

Record GossipRouter := mkRouter {
  mesh : gmap string (gset N);
  scores : gmap N spec_float;
  seen : gset H256;
  seen_order : list H256;
  delivered : gmap string (list (list Z))
}.

Record GossipOutcome := mkOutcome { was_delivered : bool; forwarded_to : list N }.

Definition new : GossipRouter := mkRouter ∅ ∅ ∅ [] ∅.

Definition message_id (topic : string) (data : list Z) : H256 := sha256_digest (str_bytes topic ++ data).

(** The loop that evicts the oldest ids. It does not end when the queue is
    empty and the set is too large: [None]. *)
Fixpoint evict_seen (s : gset H256) (order : list H256) : option (gset H256 * list H256) :=
  if (MAX_SEEN_CACHE <? size s)%nat then
    match order with
    | [] => None
    | old :: order => evict_seen (s ∖ {[old]}) order
    end
  else Some (s, order).

Definition set_seen (s : gset H256) (order : list H256) (r : GossipRouter) : GossipRouter :=
  mkRouter r.(mesh) r.(scores) s order r.(delivered).

Definition insert_seen (id : H256) (r : GossipRouter) : option (GossipRouter * bool) :=
  if bool_decide (id ∈ r.(seen)) then Some (r, false) else
  '(s, order) ← evict_seen ({[id]} ∪ r.(seen)) (r.(seen_order) ++ [id]);
  Some (set_seen s order r, true).

(** The loop that pops while the queue is too long. *)
Fixpoint trim (queue : list (list Z)) : list (list Z) :=
  match queue with
  | [] => []
  | _ :: rest => if (MAX_DELIVERED_PER_TOPIC <? length queue)%nat then trim rest else queue
  end.

Definition push_delivered (topic : string) (data : list Z) (r : GossipRouter) : GossipRouter :=
  mkRouter r.(mesh) r.(scores) r.(seen) r.(seen_order)
    (<[topic := trim (default [] (r.(delivered) !! topic) ++ [data])]> r.(delivered)).

Definition set_scores (sc : gmap N spec_float) (r : GossipRouter) : GossipRouter :=
  mkRouter r.(mesh) sc r.(seen) r.(seen_order) r.(delivered).

Definition delivered_messages (topic : string) (r : GossipRouter) : list (list Z) := default [] (r.(delivered) !! topic).

Definition publish (topic : string) (data : list Z) (r : GossipRouter) : option (GossipRouter * GossipOutcome) :=
  '(r, fresh) ← insert_seen (message_id topic data) r;
  if negb fresh then Some (r, mkOutcome false []) else
  let ps := Mesh.peers topic r.(mesh) in
  let r := set_scores (foldl (λ sc p, record_success p sc) r.(scores) ps) r in
  Some (push_delivered topic data r, mkOutcome true ps).

Definition receive (from : N) (topic : string) (data : list Z) (r : GossipRouter) : option (GossipRouter * GossipOutcome) :=
  '(r, fresh) ← insert_seen (message_id topic data) r;
  if negb fresh then Some (set_scores (record_failure from r.(scores)) r, mkOutcome false []) else
  let r := set_scores (record_success from r.(scores)) r in
  let ps := filter (λ p, p ≠ from) (Mesh.peers topic r.(mesh)) in
  Some (push_delivered topic data r, mkOutcome true ps).

(** *** The router *)

Record router_ok (r : GossipRouter) : Prop := {
  ok_seen : NoDup r.(seen_order) ∧ (∀ id, id ∈ r.(seen_order) ↔ id ∈ r.(seen));
  ok_window : (length r.(seen_order) ≤ MAX_SEEN_CACHE)%nat;
  ok_queues : map_Forall (λ _ q, (length q ≤ MAX_DELIVERED_PER_TOPIC)%nat) r.(delivered);
  ok_scores : scores_ok r.(scores)
}.

Lemma seen_size (s : gset H256) (order : list H256) : NoDup order → (∀ id, id ∈ order ↔ id ∈ s) → size s = length order.
Proof.
  intros Hn Hs. rewrite <- (size_list_to_set (C := gset H256) order Hn). f_equal. apply set_eq. intros id. by rewrite elem_of_list_to_set, Hs.
Qed.

(** One id is evicted when the cache is full. *)
Definition window (id : H256) (order : list H256) : list H256 :=
  if (length order =? MAX_SEEN_CACHE)%nat then tail order ++ [id] else order ++ [id].

Lemma insert_seen_new id r : router_ok r → id ∉ r.(seen) →
  ∃ s, insert_seen id r = Some (set_seen s (window id r.(seen_order)) r, true) ∧
    NoDup (window id r.(seen_order)) ∧ (∀ x, x ∈ window id r.(seen_order) ↔ x ∈ s) ∧ (length (window id r.(seen_order)) ≤ MAX_SEEN_CACHE)%nat.
Proof.
  intros [[Hn Hs] Hw _ _] Hid. unfold insert_seen. rewrite bool_decide_false by done.
  set (order := r.(seen_order) ++ [id]). set (s := {[id]} ∪ r.(seen)).
  assert (Hno : NoDup order).
  { apply NoDup_app. split_and!; [done| |apply NoDup_singleton]. intros x Hx ->%list_elem_of_singleton. apply Hid. by apply Hs. }
  assert (Hso : ∀ x, x ∈ order ↔ x ∈ s).
  { intros x. unfold order, s. rewrite elem_of_app, list_elem_of_singleton, elem_of_union, elem_of_singleton, Hs. tauto. }
  assert (Hsz : size s = S (length r.(seen_order))) by (rewrite (seen_size s order Hno Hso); unfold order; rewrite length_app; cbn; lia).
  assert (Hpos : (0 < MAX_SEEN_CACHE)%nat) by (unfold MAX_SEEN_CACHE; lia).
  unfold window. destruct (Nat.eqb_spec (length r.(seen_order)) MAX_SEEN_CACHE) as [Efull|Eroom].
  - destruct r.(seen_order) as [|old rest] eqn:Eo; [cbn in Efull; lia|]. cbn [tail].
    unfold order in *. cbn [app] in *. apply NoDup_cons in Hno as [Hold Hno].
    assert (Hdrop : ∀ x, x ∈ rest ++ [id] ↔ x ∈ s ∖ {[old]}).
    { intros x. rewrite elem_of_difference, not_elem_of_singleton, <- Hso, elem_of_cons. split; [intros Hx; split; [by right|by intros ->]|].
      intros [[->|?] ?]; done. }
    assert (Hsz2 : size (s ∖ {[old]}) = MAX_SEEN_CACHE).
    { rewrite (seen_size _ _ Hno Hdrop), length_app. cbn in *. lia. }
    exists (s ∖ {[old]}). cbn [evict_seen]. rewrite (proj2 (Nat.ltb_lt _ _)) by (cbn in *; lia).
    assert (He : evict_seen (s ∖ {[old]}) (rest ++ [id]) = Some (s ∖ {[old]}, rest ++ [id])).
    { destruct (rest ++ [id]) eqn:E; cbn [evict_seen]; by rewrite (proj2 (Nat.ltb_ge _ _)) by lia. }
    rewrite He. split_and!; [done..|]. rewrite length_app. cbn in *. lia.
  - exists s. assert (He : evict_seen s order = Some (s, order)).
    { unfold order. destruct (r.(seen_order) ++ [id]) eqn:E; cbn [evict_seen]; by rewrite (proj2 (Nat.ltb_ge _ _)) by lia. }
    rewrite He. split_and!; [done..|]. unfold order. rewrite length_app. cbn. lia.
Qed.

Lemma trim_spec q : trim q = drop (length q - MAX_DELIVERED_PER_TOPIC) q.
Proof.
  induction q as [|x q IH]; [done|]. cbn [trim]. destruct (Nat.ltb_spec MAX_DELIVERED_PER_TOPIC (length (x :: q))) as [Hlt|Hge].
  - rewrite IH. cbn [length] in *. by replace (S (length q) - MAX_DELIVERED_PER_TOPIC)%nat with (S (length q - MAX_DELIVERED_PER_TOPIC)) by lia.
  - by replace (length (x :: q) - MAX_DELIVERED_PER_TOPIC)%nat with 0%nat by lia.
Qed.

Lemma trim_queue q d : (length q ≤ MAX_DELIVERED_PER_TOPIC)%nat →
  (length (trim (q ++ [d])) ≤ MAX_DELIVERED_PER_TOPIC)%nat ∧ last (trim (q ++ [d])) = Some d.
Proof.
  intros Hq. rewrite trim_spec, length_drop, length_app. cbn [length].
  assert (0 < MAX_DELIVERED_PER_TOPIC)%nat by (unfold MAX_DELIVERED_PER_TOPIC; lia).
  split; [lia|]. rewrite drop_app_le by lia. apply last_snoc.
Qed.

Lemma foldl_success_ok ps sc : scores_ok sc → scores_ok (foldl (λ sc p, record_success p sc) sc ps).
Proof. revert sc. induction ps as [|p ps IH]; intros sc Hs; [done|]. cbn. by apply IH, record_success_ok. Qed.

Lemma deliver_ok topic data sc s order r : router_ok r → scores_ok sc → NoDup order → (∀ x, x ∈ order ↔ x ∈ s) →
  (length order ≤ MAX_SEEN_CACHE)%nat →
  router_ok (push_delivered topic data (set_scores sc (set_seen s order r))) ∧
  last (delivered_messages topic (push_delivered topic data (set_scores sc (set_seen s order r)))) = Some data.
Proof.
  intros [_ _ Hq _] Hsc Hn Hs Hl. assert (Hlen : (length (default [] (r.(delivered) !! topic)) ≤ MAX_DELIVERED_PER_TOPIC)%nat).
  { destruct (r.(delivered) !! topic) as [q|] eqn:E; cbn; [by apply (Hq topic)|lia]. }
  destruct (trim_queue _ data Hlen) as [T1 T2]. unfold push_delivered, delivered_messages. cbn. split.
  - split; cbn; try done. by apply map_Forall_insert_2.
  - by rewrite lookup_insert_eq.
Qed.

(** C32: Publishing and receiving always end, and a message is delivered, and
    forwarded to every peer of the topic but the one it came from, exactly when
    its id is not among the last 100000; it is then the last delivered one, and
    the caches keep to their bounds. *)
Theorem router_delivers (sender : option N) (topic : string) (data : list Z) (r : GossipRouter) :
  router_ok r →
  let id := message_id topic data in
  ∃ r' out, match sender with Some from => receive from topic data r | None => publish topic data r end = Some (r', out) ∧
    router_ok r' ∧ id ∈ r'.(seen) ∧ out.(was_delivered) = bool_decide (id ∉ r.(seen)) ∧
    (if out.(was_delivered)
     then r'.(seen_order) = window id r.(seen_order) ∧ last (delivered_messages topic r') = Some data ∧
          ∀ p, p ∈ out.(forwarded_to) ↔ p ∈ default ∅ (r.(mesh) !! topic) ∧ Some p ≠ sender
     else out.(forwarded_to) = [] ∧ r'.(delivered) = r.(delivered)).
Proof.
  intros Hr id. destruct (decide (id ∈ r.(seen))) as [Hin|Hin].
  - assert (Hi : insert_seen id r = Some (r, false)) by (unfold insert_seen; by rewrite bool_decide_true).
    rewrite (bool_decide_false (id ∉ r.(seen))) by tauto.
    destruct sender as [from|]; unfold receive, publish; fold id; rewrite Hi; cbn [mbind option_bind negb]; eexists _, _; (split; [reflexivity|]).
    + split_and!; try done. destruct Hr as [? ? ? Hs]. split; cbn; try done. by apply record_failure_ok.
    + by split_and!.
  - destruct (insert_seen_new id r Hr Hin) as (s & Hi & Hn & Hs & Hl). pose proof (ok_scores _ Hr) as Hsc.
    assert (Hid : id ∈ s) by (apply Hs; unfold window; destruct (_ =? _)%nat; set_solver).
    rewrite (bool_decide_true (id ∉ r.(seen))) by done.
    destruct sender as [from|]; unfold receive, publish; fold id; rewrite Hi; cbn [mbind option_bind negb]; eexists _, _; (split; [reflexivity|]).
    + destruct (deliver_ok topic data (record_success from r.(scores)) s _ r Hr (record_success_ok _ _ Hsc) Hn Hs Hl) as [D1 D2].
      split_and!; try done. cbn [was_delivered forwarded_to]. split_and!; try done. intros p. rewrite list_elem_of_filter, Mesh.elem_of_peers. cbn. naive_solver.
    + destruct (deliver_ok topic data _ s _ r Hr (foldl_success_ok (Mesh.peers topic r.(mesh)) r.(scores) Hsc) Hn Hs Hl) as [D1 D2].
      split_and!; try done. cbn [was_delivered forwarded_to]. split_and!; try done. intros p. rewrite Mesh.elem_of_peers. cbn. naive_solver.
Qed.

(** The topic and the data of a message are hashed without a separator: a
    message whose bytes continue the topic has the id of another topic's message,
    and once one of them is seen the other is dropped. *)
Theorem topic_confusion (topic suffix : string) (data : list Z) :
  message_id (topic +:+ suffix) data = message_id topic (str_bytes suffix ++ data).
Proof.
  unfold message_id. f_equal. rewrite (assoc_L (++)). f_equal. unfold str_bytes. rewrite <- fmap_app. f_equal.
  induction topic as [|c topic IH]; [done|]. exact (f_equal (cons c) IH).
Qed.
End router.
End Router.

From S2P Require Import Toy.

(** ** Examples *)

Module GossipDemo.
Import Router.

Definition demo_router : GossipRouter := mkRouter (Mesh.join "tx" 2%N (Mesh.join "tx" 1%N ∅)) ∅ ∅ [] ∅.

Lemma demo_router_ok : router_ok demo_router.
Proof.
  split; cbn [seen_order seen delivered scores demo_router].
  - split; [constructor|set_solver].
  - apply Nat.le_0_l.
  - apply map_Forall_empty.
  - split; [rewrite map_size_empty; apply Nat.le_0_l|apply map_Forall_empty].
Qed.

(** A message from peer 1 goes to peer 2. *)
Lemma router_delivers_witness : ∃ r' out, receive 1%N "tx" [7] demo_router = Some (r', out) ∧ router_ok r' ∧
  out.(was_delivered) = true ∧ ∀ p, p ∈ out.(forwarded_to) ↔ p = 2%N.
Proof.
  destruct (router_delivers (Some 1%N) "tx" [7] demo_router demo_router_ok) as (r' & out & Hr & Hok & _ & Hd & Hf).
  exists r', out. split; [exact Hr|]. split; [exact Hok|]. rewrite bool_decide_true in Hd by apply not_elem_of_empty. split; [exact Hd|].
  rewrite Hd in Hf. destruct Hf as (_ & _ & Hf). intros p. rewrite Hf. cbn [demo_router mesh].
  assert (E : default ∅ (Mesh.join "tx" 2%N (Mesh.join "tx" 1%N ∅) !! "tx"%string) = ({[2%N; 1%N]} : gset N)) by (vm_compute; reflexivity).
  rewrite E, elem_of_union, !elem_of_singleton.
  split; [intros [[->| ->] Hne]; congruence|intros ->; split; [left; reflexivity|congruence]].
Defined.
End GossipDemo.
