(* ===== verification/Doubles.v ===== *)
(** * Doubles

    The [f64] arithmetic of the sources, on Stdlib's executable IEEE 754 model
    [spec_float]: binary64 with rounding to nearest even. A decimal literal with
    numerator and denominator below [2^53] is the rounded quotient of the two.
    [tau_numerator_of] is the conversion of the leader rate that both
    proof-of-stake engines make ([crates/consensus/src/hybrid.rs] and
    [vrf_pos.rs]). *)

From Stdlib Require Import Floats.SpecFloat.
From S2P Require Import Prelude.

#[local] Open Scope Z_scope.

Module F64.
Definition of_int (z : Z) : spec_float := binary_normalize 53 1024 z 0 false.
Definition of_decimal (num den : Z) : spec_float := SFdiv 53 1024 (of_int num) (of_int den).
Definition mul : spec_float → spec_float → spec_float := SFmul 53 1024.

Definition is_finite (x : spec_float) : bool := match x with S754_zero _ | S754_finite _ _ _ => true | _ => false end.

(** [clamp]. *)
Definition clamp (lo hi x : spec_float) : spec_float := if SFltb x lo then lo else if SFltb hi x then hi else x.

(** [x.round() as u128]: half away from zero, negative numbers become zero. *)
Definition round_to_u128 (x : spec_float) : Z :=
  match x with
  | S754_finite false m e =>
      Z.min U128_MAX
        (if 0 <=? e then Zpos m * 2 ^ e
         else let d := 2 ^ (- e) in if d <=? 2 * (Zpos m mod d) then Zpos m / d + 1 else Zpos m / d)
  | S754_infinity false => U128_MAX
  | _ => 0
  end.

Definition is_nan (x : spec_float) : bool := match x with S754_nan => true | _ => false end.
Definition add : spec_float → spec_float → spec_float := SFadd 53 1024.
Definition sub : spec_float → spec_float → spec_float := SFsub 53 1024.
Definition div : spec_float → spec_float → spec_float := SFdiv 53 1024.
(** [f64::min]: a number is preferred to a NaN. *)
Definition min (a b : spec_float) : spec_float :=
  match a, b with S754_nan, _ => b | _, S754_nan => a | _, _ => if SFltb b a then b else a end.

(** The order of the numbers is lexicographic in the sign, the exponent and the
    mantissa, so it is total but for NaN. *)
Definition key (x : spec_float) : Z * Z * Z :=
  match x with
  | S754_infinity true => (-2, 0, 0)
  | S754_finite true m e => (-1, - e, - Zpos m)
  | S754_finite false m e => (1, e, Zpos m)
  | S754_infinity false => (2, 0, 0)
  | _ => (0, 0, 0)
  end.
Definition key_le (a b : Z * Z * Z) : Prop :=
  a.1.1 < b.1.1 ∨ a.1.1 = b.1.1 ∧ (a.1.2 < b.1.2 ∨ a.1.2 = b.1.2 ∧ a.2 ≤ b.2).

Lemma SFleb_key x y : is_nan x = false → is_nan y = false → SFleb x y = true ↔ key_le (key x) (key y).
Proof.
  unfold SFleb, SFcompare, key_le. change (Pos.compare_cont Eq) with Pos.compare.
  destruct x as [?|[]| |[] m e], y as [?|[]| |[] m' e']; try done; intros _ _; cbn; try (split; (done || lia)).
  - destruct (Z.compare_spec e e'), (Pos.compare_spec m m'); cbn; split; done || lia.
  - destruct (Z.compare_spec e e'), (Pos.compare_spec m m'); cbn; split; done || lia.
Qed.

Lemma SFleb_preorder : total_preorder SFleb (λ x, is_nan x = false).
Proof.
  split.
  - intros a b Ha Hb. rewrite !SFleb_key by done. unfold key_le. lia.
  - intros a b c Ha Hb Hc. rewrite !SFleb_key by done. unfold key_le. lia.
Qed.

Lemma SFltb_leb x y : is_nan x = false → is_nan y = false → SFltb x y = negb (SFleb y x).
Proof.
  unfold SFltb, SFleb, SFcompare. change (Pos.compare_cont Eq) with Pos.compare.
  destruct x as [?|[]| |[] m e], y as [?|[]| |[] m' e']; try done; intros _ _; cbn.
  - rewrite (Z.compare_antisym e e'), (Pos.compare_antisym m m').
    by destruct (e ?= e'), (m ?= m')%positive.
  - rewrite (Z.compare_antisym e e'), (Pos.compare_antisym m m').
    by destruct (e ?= e'), (m ?= m')%positive.
Qed.

(** A clamped value is between the bounds, unless it is not a number. *)
Lemma clamp_range lo hi x :
  SFleb lo hi = true → is_nan lo = false → is_nan hi = false →
  clamp lo hi x = S754_nan ∨ SFleb lo (clamp lo hi x) = true ∧ SFleb (clamp lo hi x) hi = true.
Proof.
  intros Hle Hlo Hhi. destruct (is_nan x) eqn:Hx.
  { left. destruct x; try done. unfold clamp. by destruct lo, hi. }
  right. unfold clamp. rewrite !SFltb_leb by done. destruct SFleb_preorder as [Htot _].
  destruct (SFleb lo x) eqn:E1; cbn; [|by destruct (Htot lo lo)].
  destruct (SFleb x hi) eqn:E2; cbn; [done|]. by destruct (Htot hi hi).
Qed.
End F64.

(** The integer numerator the engines make of [tau]. *)
Definition tau_numerator_of (tau : spec_float) : Z :=
  let tau_clamped := if F64.is_finite tau then F64.clamp (F64.of_int 0) (F64.of_int 1) tau else F64.of_decimal 5 10 in
  F64.round_to_u128 (F64.mul tau_clamped (F64.of_int 10000)).

(** The values the tests of the engines use, and the default of a non-finite rate. *)
Lemma tau_numerator_examples :
  tau_numerator_of (F64.of_decimal 8 10) = 8000 ∧ tau_numerator_of (F64.of_int 1) = 10000 ∧ tau_numerator_of S754_nan = 5000.
Proof. vm_compute. done. Qed.
