(* ===== verification/EcVrf.v ===== *)
(** * The verifiable random function

    [crates/crypto/vrf/src/ecvrf.rs] and [lib.rs]: key derivation, proofs and
    their verification after RFC 9381, and the deprecated lottery on doubles.
    Scalars are integers modulo the group order [L]; the points of edwards25519
    and their encodings (curve25519-dalek) and SHA-512 are parameters
    ([Edwards]) with the laws of the library: the curve is an abelian group,
    scalars act linearly on its subgroup of order [L], and an encoding decodes.

    Honest proofs verify, so an elected leader's block is accepted by the hybrid
    engine; the output is a function of [Gamma]; a proof is malleable in [s]; and
    a pair written to a key file and read back is another pair. *)

From Stdlib Require Import Floats.SpecFloat.
From S2P Require Import Prelude.
From S2P Require Import Doubles.
From S2P Require Import Consensus.
From S2P Require Import Bls.
From S2P Require Import Vrf.
From S2P Require Import Hybrid.

#[local] Open Scope Z_scope.

(** The order of the base point. *)
Definition L : Z := 2 ^ 252 + 27742317777372353535851937790883648493.

Class Edwards := {
  Point : Type;
  BASEPOINT : Point;
  point_add : Point → Point → Point;
  point_sub : Point → Point → Point;
  scalar_mul : Z → Point → Point;
  mul_by_cofactor : Point → Point;
  compress : Point → list Z;
  decompress : list Z → option Point;
  sha512 : list Z → list Z
}.

Class EdwardsLaws `{Edwards} := {
  prime_order : Point → Prop;
  base_prime : prime_order BASEPOINT;
  cofactor_prime : ∀ p, prime_order (mul_by_cofactor p);
  scalar_prime : ∀ a p, prime_order p → prime_order (scalar_mul a p);
  add_sub : ∀ p q, point_sub (point_add p q) q = p;
  scalar_add : ∀ a b p, prime_order p → scalar_mul ((a + b) mod L) p = point_add (scalar_mul a p) (scalar_mul b p);
  scalar_assoc : ∀ a b p, prime_order p → scalar_mul ((a * b) mod L) p = scalar_mul a (scalar_mul b p);
  compress_length : ∀ p, length (compress p) = 32%nat;
  decompress_compress : ∀ p, decompress (compress p) = Some p;
  sha512_length : ∀ m, length (sha512 m) = 64%nat;
  sha512_bytes : ∀ m, is_bytes (sha512 m)
}.

Module EcVrf.
Section ecvrf.
Context `{Edwards}.

Definition SUITE_STRING : Z := 4.

(** ** Scalars *)

Definition scalar_from_bytes (bs : list Z) : Z := from_le_bytes bs mod L.
Definition scalar_to_bytes (s : Z) : list Z := to_le_bytes 32 s.
Definition scalar_to_16_bytes (s : Z) : list Z := take 16 (scalar_to_bytes s).
Definition scalar_from_16_bytes (bs : list Z) : Z := scalar_from_bytes (take 16 bs ++ replicate 16 0).

(** ** Key pairs *)

Record VrfKeypair := mkVrfKeypair { secret : Z; public : Point; public_bytes : list Z }.

Definition clamp (bs : list Z) : list Z := alter (λ b, Z.lor (Z.land b 127) 64) 31%nat (alter (λ b, Z.land b 248) 0%nat bs).

Definition from_secret_bytes (secret_bytes : list Z) : VrfKeypair :=
  let hash := sha512 secret_bytes in
  let scalar_bytes := clamp (take 32 hash) in
  let secret := scalar_from_bytes scalar_bytes in
  let public := scalar_mul secret BASEPOINT in
  mkVrfKeypair secret public (compress public).

(** [random] are the bytes of the generator. *)
Definition generate (random : list Z) : VrfKeypair := from_secret_bytes random.

Definition secret_bytes (kp : VrfKeypair) : list Z := scalar_to_bytes kp.(secret).

Definition from_secret (s : list Z) : result error VrfKeypair :=
  bail_if (negb (length s =? 32)%nat) (Msg "secret key must be 32 bytes");;
  mret (from_secret_bytes s).

(** ** Proofs *)

(** The attempts with counters [ctr], [ctr + 1], ..., [n] of them. *)
Fixpoint try_and_increment (n : nat) (ctr : Z) (pk alpha : list Z) : Point :=
  match n with
  | O => mul_by_cofactor BASEPOINT
  | S n =>
      let hash := sha512 ([SUITE_STRING; 1] ++ pk ++ alpha ++ [ctr]) in
      match decompress (take 32 hash) with
      | Some point => mul_by_cofactor point
      | None => try_and_increment n (ctr + 1) pk alpha
      end
  end.
Definition encode_to_curve_try_and_increment : list Z → list Z → Point := try_and_increment 256 0.

Definition nonce_generation (secret : Z) (h : Point) : Z := scalar_from_bytes (sha512 (scalar_to_bytes secret ++ compress h)).

Definition challenge_generation (y h gamma u v : Point) : Z :=
  scalar_from_16_bytes (take 16 (sha512 ([SUITE_STRING; 2] ++ compress y ++ compress h ++ compress gamma ++ compress u ++ compress v))).

Definition proof_to_hash (gamma : Point) : list Z :=
  take 32 (sha512 ([SUITE_STRING; 3] ++ compress (mul_by_cofactor gamma))).

Definition prove (kp : VrfKeypair) (alpha : list Z) : VrfProof :=
  let h := encode_to_curve_try_and_increment kp.(public_bytes) alpha in
  let gamma := scalar_mul kp.(secret) h in
  let k := nonce_generation kp.(secret) h in
  let k_b := scalar_mul k BASEPOINT in
  let k_h := scalar_mul k h in
  let c := challenge_generation kp.(public) h gamma k_b k_h in
  let s := (k + (c * kp.(secret)) mod L) mod L in
  mkVrfProof (proof_to_hash gamma) (compress gamma ++ scalar_to_16_bytes c ++ scalar_to_bytes s).

(** A scalar that is not canonical is reduced, as [from_bytes_mod_order]
    does. *)
Definition verify_proof (public_key alpha : list Z) (proof : VrfProof) : result error bool :=
  let p := proof.(vrf_proof_bytes) in
  if negb (length p =? 80)%nat then mret false else
  y ← ok_or (decompress public_key) (Msg "public key not on curve");
  gamma ← ok_or (decompress (take 32 p)) (Msg "Gamma not on curve");
  let c := scalar_from_16_bytes (take 16 (drop 32 p)) in
  let s := scalar_from_bytes (drop 48 p) in
  let h := encode_to_curve_try_and_increment public_key alpha in
  let u := point_sub (scalar_mul s BASEPOINT) (scalar_mul c y) in
  let v := point_sub (scalar_mul s h) (scalar_mul c gamma) in
  let c_prime := challenge_generation y h gamma u v in
  let challenge_ok := bool_decide (scalar_to_16_bytes c = scalar_to_16_bytes c_prime) in
  let output_ok := bool_decide (proof_to_hash gamma = proof.(vrf_output)) in
  mret (challenge_ok && output_ok).

(** ** The lottery on doubles *)

Definition U64_AS_F64 : spec_float := F64.of_int U64_MAX.
Definition EPSILON : spec_float := S754_finite false 1 (-52).

Definition output_to_value (output : list Z) : spec_float :=
  let val := from_le_bytes (take 8 output) in
  if val =? U64_MAX then SFsub 53 1024 (F64.of_int 1) EPSILON else SFdiv 53 1024 (F64.of_int val) U64_AS_F64.

Definition check_leader_eligibility (output : list Z) (stake total_stake : Z) (tau : spec_float) : bool :=
  let output_value := output_to_value output in
  let threshold := F64.mul tau (SFdiv 53 1024 (F64.of_int stake) (F64.of_int total_stake)) in
  SFltb output_value threshold.

(** ** Encodings *)

Lemma L_pos : 0 < L < 2 ^ 253.
Proof. unfold L. lia. Qed.

Lemma take_le_bytes n m z : (n ≤ m)%nat → take n (to_le_bytes m z) = to_le_bytes n z.
Proof.
  revert m z. induction n as [|n IH]; intros m z Hle; [done|]. destruct m as [|m]; [lia|].
  change (take (S n) (to_le_bytes (S m) z)) with (z mod 256 :: take n (to_le_bytes m (z / 256))). by rewrite IH by lia.
Qed.

Lemma from_le_bytes_zeros bs n : from_le_bytes (bs ++ replicate n 0) = from_le_bytes bs.
Proof.
  induction bs as [|b bs IH]; cbn [app from_le_bytes]; [|lia].
  induction n as [|n IH]; [done|]. cbn [replicate from_le_bytes]. lia.
Qed.

Lemma scalar_from_16_range bs : is_bytes (take 16 bs) → 0 ≤ scalar_from_16_bytes bs < 2 ^ 128.
Proof.
  intros Hb. unfold scalar_from_16_bytes, scalar_from_bytes. rewrite from_le_bytes_zeros.
  pose proof (from_le_bytes_range _ Hb) as Hr. pose proof L_pos.
  assert (256 ^ Z.of_nat (length (take 16 bs)) ≤ 2 ^ 128).
  { rewrite length_take. change (2 ^ 128) with (256 ^ 16). apply Z.pow_le_mono_r; lia. }
  rewrite Z.mod_small; unfold L in *; lia.
Qed.

Lemma scalar_16_roundtrip c : 0 ≤ c < 2 ^ 128 → scalar_from_16_bytes (scalar_to_16_bytes c) = c.
Proof.
  intros Hc. unfold scalar_from_16_bytes, scalar_to_16_bytes, scalar_to_bytes, scalar_from_bytes.
  rewrite take_le_bytes, take_ge by (rewrite ?length_to_le_bytes; lia). rewrite from_le_bytes_zeros, from_to_le_bytes by (cbn; lia).
  apply Z.mod_small. unfold L. lia.
Qed.

Lemma scalar_roundtrip s : 0 ≤ s < 2 ^ 256 → scalar_from_bytes (scalar_to_bytes s) = s mod L.
Proof. intros Hs. unfold scalar_from_bytes, scalar_to_bytes. by rewrite from_to_le_bytes by (cbn; lia). Qed.

(** The three parts of an encoded proof. *)
Lemma proof_parts (g c s : list Z) :
  length g = 32%nat → length c = 16%nat → length s = 32%nat →
  length (g ++ c ++ s) = 80%nat ∧ take 32 (g ++ c ++ s) = g ∧ take 16 (drop 32 (g ++ c ++ s)) = c ∧ drop 48 (g ++ c ++ s) = s.
Proof.
  intros Hg Hc Hs. rewrite !length_app, Hg, Hc, Hs. split; [done|]. rewrite take_app_length' by done. split; [done|].
  rewrite drop_app_length' by done. rewrite take_app_length' by done. split; [done|].
  rewrite app_assoc, drop_app_length'; [done|]. rewrite length_app. lia.
Qed.

(** ** Proofs verify *)

Context `{!EdwardsLaws}.

Definition keypair_wf (kp : VrfKeypair) : Prop :=
  kp.(public) = scalar_mul kp.(secret) BASEPOINT ∧ kp.(public_bytes) = compress kp.(public).

Lemma from_secret_bytes_wf bs : keypair_wf (from_secret_bytes bs).
Proof. done. Qed.

Lemma encode_prime pk alpha : prime_order (encode_to_curve_try_and_increment pk alpha).
Proof.
  unfold encode_to_curve_try_and_increment. generalize 256%nat as n, 0 as ctr. induction n as [|n IH]; intros ctr; cbn [try_and_increment].
  - apply cofactor_prime.
  - destruct (decompress _); [apply cofactor_prime|apply IH].
Qed.

Lemma challenge_range y h g u v : 0 ≤ challenge_generation y h g u v < 2 ^ 128.
Proof.
  apply scalar_from_16_range. rewrite take_take. apply Forall_take, sha512_bytes.
Qed.

(** The commitment a verifier recomputes from an honest response. *)
Lemma response_cancels k c x p :
  prime_order p → point_sub (scalar_mul ((k + (c * x) mod L) mod L) p) (scalar_mul c (scalar_mul x p)) = scalar_mul k p.
Proof. intros Hp. by rewrite scalar_add, scalar_assoc, add_sub. Qed.

(** Verification of a proof whose response is any representative [s] of the
    honest one. *)
Lemma verify_honest kp alpha s :
  keypair_wf kp → 0 ≤ s < 2 ^ 256 →
  let h := encode_to_curve_try_and_increment kp.(public_bytes) alpha in
  let gamma := scalar_mul kp.(secret) h in
  let k := nonce_generation kp.(secret) h in
  let c := challenge_generation kp.(public) h gamma (scalar_mul k BASEPOINT) (scalar_mul k h) in
  s mod L = (k + (c * kp.(secret)) mod L) mod L →
  verify_proof kp.(public_bytes) alpha
    (mkVrfProof (proof_to_hash gamma) (compress gamma ++ scalar_to_16_bytes c ++ scalar_to_bytes s)) = Ok true.
Proof.
  intros [Hp Hb] Hs h gamma k c Hr. unfold verify_proof. cbn [vrf_proof_bytes vrf_output].
  destruct (proof_parts (compress gamma) (scalar_to_16_bytes c) (scalar_to_bytes s)) as (-> & -> & -> & ->);
    [apply compress_length|unfold scalar_to_16_bytes, scalar_to_bytes; rewrite take_le_bytes by lia; apply length_to_le_bytes
    |apply length_to_le_bytes|].
  cbn [negb Nat.eqb]. rewrite Hb at 1. rewrite !decompress_compress. unfold_M. fold h.
  rewrite scalar_16_roundtrip by apply challenge_range. rewrite scalar_roundtrip, Hr by done.
  assert (Hh : prime_order h) by apply encode_prime.
  assert (Eu : point_sub (scalar_mul ((k + (c * kp.(secret)) mod L) mod L) BASEPOINT) (scalar_mul c kp.(public)) =
    scalar_mul k BASEPOINT) by (rewrite Hp; apply response_cancels, base_prime).
  assert (Ev : point_sub (scalar_mul ((k + (c * kp.(secret)) mod L) mod L) h) (scalar_mul c gamma) = scalar_mul k h)
    by by apply response_cancels.
  rewrite Eu, Ev. fold c. by rewrite !bool_decide_true.
Qed.

Lemma prove_verify_raw kp alpha : keypair_wf kp → verify_proof kp.(public_bytes) alpha (prove kp alpha) = Ok true.
Proof.
  intros Hk. unfold prove. pose proof L_pos. set (s := (_ + _) mod L). apply verify_honest; [done| |].
  - assert (0 ≤ s < L) by (apply Z.mod_pos_bound; lia). unfold L in *. lia.
  - unfold s. by rewrite Zmod_mod.
Qed.

(** A proof made with a key pair verifies under its public key. *)
Theorem vrf_proof_verifies (secret_seed alpha : list Z) :
  let kp := from_secret_bytes secret_seed in
  verify_proof kp.(public_bytes) alpha (prove kp alpha) = Ok true ∧ length (prove kp alpha).(vrf_proof_bytes) = 80%nat.
Proof.
  intros kp. split; [by apply prove_verify_raw|]. unfold prove. cbn [vrf_proof_bytes].
  apply proof_parts; [apply compress_length| |apply length_to_le_bytes].
  unfold scalar_to_16_bytes, scalar_to_bytes. rewrite take_le_bytes by lia. apply length_to_le_bytes.
Qed.

Lemma accepted_output pk alpha p :
  verify_proof pk alpha p = Ok true → ∃ gamma, decompress (take 32 p.(vrf_proof_bytes)) = Some gamma ∧ p.(vrf_output) = proof_to_hash gamma.
Proof.
  intros Hv. unfold verify_proof in Hv. destruct (negb _); [done|]. unfold_M.
  destruct (decompress pk); [|done]. destruct (decompress (take 32 _)) as [gamma|]; [|done]. exists gamma. split; [done|].
  injection Hv as Hv. apply andb_true_iff in Hv as [_ Ho]. by apply bool_decide_eq_true in Ho.
Qed.

(** A proof can be changed without its secret: adding the group order to the
    response gives other proof bytes that verify too. The output cannot: accepted
    proofs with one [Gamma] have one output. *)
Theorem vrf_proof_malleable (seed alpha : list Z) :
  let kp := from_secret_bytes seed in
  let p := prove kp alpha in
  let s := from_le_bytes (drop 48 p.(vrf_proof_bytes)) in
  let p' := mkVrfProof p.(vrf_output) (take 48 p.(vrf_proof_bytes) ++ to_le_bytes 32 (s + L)) in
  verify_proof kp.(public_bytes) alpha p' = Ok true ∧ p' ≠ p ∧
  ∀ q, verify_proof kp.(public_bytes) alpha q = Ok true → take 32 q.(vrf_proof_bytes) = take 32 p.(vrf_proof_bytes) →
    q.(vrf_output) = p.(vrf_output).
Proof.
  intros kp p s p'. pose proof L_pos as HL.
  set (h := encode_to_curve_try_and_increment kp.(public_bytes) alpha).
  set (k := nonce_generation kp.(secret) h). set (gamma := scalar_mul kp.(secret) h).
  set (c := challenge_generation kp.(public) h gamma (scalar_mul k BASEPOINT) (scalar_mul k h)).
  set (r := (k + (c * kp.(secret)) mod L) mod L). assert (Hr : 0 ≤ r < L) by (apply Z.mod_pos_bound; lia).
  assert (Hlen : length (scalar_to_16_bytes c) = 16%nat)
    by (unfold scalar_to_16_bytes, scalar_to_bytes; rewrite take_le_bytes by lia; apply length_to_le_bytes).
  assert (Ep : p.(vrf_proof_bytes) = compress gamma ++ scalar_to_16_bytes c ++ scalar_to_bytes r) by reflexivity.
  destruct (proof_parts (compress gamma) (scalar_to_16_bytes c) (scalar_to_bytes r)) as (_ & Hg & _ & Hd);
    [apply compress_length|done|apply length_to_le_bytes|].
  assert (Es : s = r).
  { unfold s. rewrite Ep, Hd. unfold scalar_to_bytes. apply from_to_le_bytes. cbn. unfold L in *. lia. }
  assert (Et : take 48 p.(vrf_proof_bytes) = compress gamma ++ scalar_to_16_bytes c).
  { rewrite Ep, app_assoc. apply take_app_length'. rewrite length_app, compress_length, Hlen. done. }
  split_and!.
  - unfold p'. rewrite Et, Es, <- app_assoc. apply (verify_honest kp alpha (r + L)); [done|unfold L in *; lia|].
    rewrite <- Z.add_mod_idemp_r, Z_mod_same_full, Z.add_0_r by lia. unfold r. by rewrite Zmod_mod.
  - intros E%(f_equal (λ q, drop 48 q.(vrf_proof_bytes))).
    change (drop 48 (take 48 p.(vrf_proof_bytes) ++ to_le_bytes 32 (s + L)) = drop 48 p.(vrf_proof_bytes)) in E.
    rewrite Et, Es, Ep, Hd in E.
    rewrite drop_app_length' in E by (rewrite length_app, compress_length, Hlen; done).
    unfold scalar_to_bytes in E. apply to_le_bytes_inj in E; cbn; unfold L in *; lia.
  - intros q Hq Hsame. destruct (accepted_output _ _ _ Hq) as (g & Hdec & ->).
    rewrite Hsame, Ep, Hg, decompress_compress in Hdec. by injection Hdec as <-.
Qed.

(** Writing a pair's secret and reading it back derives a new scalar from the
    old one: the pair survives only when its scalar is a fixed point of the
    derivation. *)
Theorem vrf_key_reload (kp : VrfKeypair) :
  keypair_wf kp →
  ∃ kp', from_secret (secret_bytes kp) = Ok kp' ∧
    kp'.(secret) = scalar_from_bytes (clamp (take 32 (sha512 (scalar_to_bytes kp.(secret))))) ∧
    (kp' = kp ↔ scalar_from_bytes (clamp (take 32 (sha512 (scalar_to_bytes kp.(secret))))) = kp.(secret)).
Proof.
  intros [Hp Hb]. exists (from_secret_bytes (secret_bytes kp)). split; [|split; [done|split]].
  - unfold from_secret, secret_bytes, scalar_to_bytes. by rewrite length_to_le_bytes.
  - intros E. by rewrite <- E at 2.
  - intros E. unfold from_secret_bytes, secret_bytes. rewrite E, <- Hp, <- Hb. by destruct kp.
Qed.

(** ** Leader election *)

Section election.
Context `{Blst, Digest} (it : gmap Address Vote → list (Address * Vote)) (it_perm : ∀ m, it m ≡ₚ map_to_list m).

(** [EcVrfVerifier]: the engine with the verification above. *)
Definition ecvrf_env : HybridEnv := {| vrf_verify := verify_proof; iter := it; iter_perm := it_perm |}.
#[local] Existing Instance ecvrf_env.

(** C15: The leader a validator's own check elects is accepted by every engine with
    the same epoch that has the validator's VRF key: a block of that slot, with
    the proof the check returned, verifies. *)
Theorem elected_leader_accepted (kp : VrfKeypair) (a : Address) (proof : VrfProof) (s s' : Hybrid.HybridConsensus) (b : BlockHeader) :
  keypair_wf kp →
  s.(Hybrid.my_vrf_keypair) = Some (prove kp) → s.(Hybrid.my_address) = Some a →
  Hybrid.check_my_eligibility b.(header_slot) s = Some proof →
  b.(header_proposer) = a → b.(Consensus.vrf_proof) = proof →
  s'.(Hybrid.epoch_validators) = s.(Hybrid.epoch_validators) → s'.(Hybrid.epoch_total_stake) = s.(Hybrid.epoch_total_stake) →
  s'.(Hybrid.epoch_randomness) = s.(Hybrid.epoch_randomness) → s'.(Hybrid.tau_numerator) = s.(Hybrid.tau_numerator) →
  s'.(Hybrid.tau_denominator) = s.(Hybrid.tau_denominator) → s'.(Hybrid.vrf_pubkeys) !! a = Some kp.(public_bytes) →
  Hybrid.verify_leader_eligibility b s' = Ok true.
Proof.
  intros Hk Hkp Ha Hel Hb Hproof Ev Et Er En Ed Hpk.
  unfold Hybrid.check_my_eligibility in Hel. rewrite Hkp, Ha in Hel. cbn [mbind option_bind] in Hel.
  destruct (s.(Hybrid.epoch_validators) !! a) as [v|] eqn:Hv; [|done]. cbn [mbind option_bind] in Hel.
  case_match eqn:Hlot; [|done]. injection Hel as <-.
  unfold Hybrid.verify_leader_eligibility. rewrite Hb, Ev, Hv, Hpk, Hproof, Et, En, Ed. unfold_M. cbn [vrf_verify ecvrf_env].
  replace (Hybrid.vrf_input s' (header_slot b)) with (Hybrid.vrf_input s (header_slot b)) by (unfold Hybrid.vrf_input; by rewrite Er).
  rewrite prove_verify_raw by done. cbn [negb]. by rewrite Hlot.
Qed.
End election.

End ecvrf.
End EcVrf.

(** ** A small instance: the integers modulo [L] as the curve *)

From S2P Require Import Toy.

Definition residue (z : Z) : bool := (0 <=? z) && (z <? L).

Lemma residue_mod z : residue (z mod L) = true.
Proof. unfold residue. pose proof (Z.mod_pos_bound z L) as Hm. unfold L in *. apply andb_true_iff. lia. Qed.

Definition toy_point (z : Z) : {z : Z | residue z = true} := exist _ (z mod L) (residue_mod z).

Lemma toy_point_eq (p q : {z : Z | residue z = true}) : `p = `q → p = q.
Proof. destruct p as [x Hx], q as [y Hy]. cbn. intros ->. f_equal. apply (proof_irrel Hx Hy). Qed.

Lemma toy_point_proj (p : {z : Z | residue z = true}) : `p mod L = `p.
Proof. destruct p as [z Hz]. cbn. unfold residue in Hz. apply andb_true_iff in Hz. apply Z.mod_small. lia. Qed.

Definition toy_decompress (bs : list Z) : option {z : Z | residue z = true} :=
  let z := from_le_bytes bs in if (length bs =? 32)%nat && residue z then Some (toy_point z) else None.

(** The most significant byte is cleared, so that a hash often decodes. *)
Definition toy_sha512 (m : list Z) : list Z :=
  to_le_bytes 31 (toy_fold m * 2 ^ 200 + toy_fold (1 :: m)) ++ [0] ++ to_le_bytes 32 (toy_fold (2 :: m)).

#[global] Instance toy_edwards : Edwards := {
  Point := {z : Z | residue z = true};
  BASEPOINT := toy_point 1;
  point_add p q := toy_point (`p + `q);
  point_sub p q := toy_point (`p - `q);
  scalar_mul a p := toy_point (a * `p);
  mul_by_cofactor p := toy_point (8 * `p);
  compress p := to_le_bytes 32 (`p);
  decompress := toy_decompress;
  sha512 := toy_sha512
}.

Lemma toy_encoding (p : {z : Z | residue z = true}) : toy_decompress (to_le_bytes 32 (`p)) = Some p.
Proof.
  assert (Hr : 0 ≤ `p < L) by (destruct p as [z Hz]; cbn; unfold residue in Hz; apply andb_true_iff in Hz; lia).
  unfold toy_decompress. rewrite length_to_le_bytes, from_to_le_bytes by (cbn; unfold L in *; lia).
  rewrite (proj2_sig p). cbn. f_equal. apply toy_point_eq, toy_point_proj.
Qed.

#[global] Program Instance toy_edwards_laws : EdwardsLaws := { prime_order _ := True }.
Next Obligation. done. Qed.
Next Obligation. done. Qed.
Next Obligation. done. Qed.
Next Obligation.
  intros p q. apply toy_point_eq. cbn. rewrite Zminus_mod_idemp_l. rewrite Z.add_simpl_r. apply toy_point_proj.
Qed.
Next Obligation.
  intros a b p _. apply toy_point_eq. cbn. rewrite Zmult_mod_idemp_l, <- Zplus_mod. f_equal. lia.
Qed.
Next Obligation.
  intros a b p _. apply toy_point_eq. cbn. rewrite Zmult_mod_idemp_l, Zmult_mod_idemp_r. f_equal. lia.
Qed.
Next Obligation. intros. apply length_to_le_bytes. Qed.
Next Obligation. exact toy_encoding. Qed.
Next Obligation. done. Qed.
Next Obligation. intros m. apply Forall_app. split; [apply to_le_bytes_bytes|]. constructor; [lia|apply to_le_bytes_bytes]. Qed.

Module EcVrfDemo.
Import EcVrf.

Definition demo_key : VrfKeypair := from_secret_bytes (replicate 32 9).

(** The pair read back is another one. *)
Lemma vrf_key_reload_witness : ∃ kp', from_secret (secret_bytes demo_key) = Ok kp' ∧ kp' ≠ demo_key.
Proof.
  destruct (vrf_key_reload demo_key) as (kp' & Hkp & _ & Hiff); [by apply from_secret_bytes_wf|].
  exists kp'. split; [done|]. rewrite Hiff. vm_compute. discriminate.
Defined.

Definition demo_owner : Address := to_address 1.

(** One validator with all the stake. *)
Definition demo_engine : Hybrid.HybridConsensus :=
  Hybrid.register_vrf_pubkey demo_owner demo_key.(public_bytes)
    (Hybrid.with_vrf [mkValidatorInfo 1 100 0 true] 10000 100 (Some (prove demo_key)) None (Some demo_owner) 0).
Definition demo_proof : VrfProof := prove demo_key (Hybrid.vrf_input demo_engine 5).
Definition demo_header : BlockHeader := mkBlockHeader 1 5 0 0 0 0 demo_owner demo_proof 0.

Lemma demo_perm (m : gmap Address Vote) : map_to_list m ≡ₚ map_to_list m.
Proof. done. Qed.

Lemma elected_leader_accepted_witness :
  @Hybrid.verify_leader_eligibility _ (ecvrf_env map_to_list demo_perm) demo_header demo_engine = Ok true.
Proof.
  apply (elected_leader_accepted map_to_list demo_perm demo_key demo_owner demo_proof demo_engine demo_engine demo_header).
  - apply from_secret_bytes_wf.
  - reflexivity.
  - reflexivity.
  - vm_compute. reflexivity.
  - reflexivity.
  - reflexivity.
  - reflexivity.
  - reflexivity.
  - reflexivity.
  - reflexivity.
  - reflexivity.
  - reflexivity.
Defined.
End EcVrfDemo.
