(* ===== verification/Genesis.v ===== *)
(** * Chain configuration, genesis and start of consensus

    [crates/types/src/chain_config.rs] (the parameters of a chain, their
    validation and presets), [crates/node/src/genesis.rs] (the genesis state and
    validator set) and [crates/node/src/hybrid_node.rs] (the engine made from
    them). Doubles are [spec_float] values; a decimal literal is the rounded
    quotient of two integers. Parsing TOML and JSON, files and the value a
    rate string stands for are left out. *)

From Stdlib Require Import Floats.SpecFloat.
From stdpp Require Import pretty.
From S2P Require Import Prelude.
From S2P Require Import Doubles.
From S2P Require Import Transaction.
From S2P Require Import Storage.
From S2P Require Import Consensus.
From S2P Require Import Bls.
From S2P Require Import EcVrf.
From S2P Require Import Hybrid.
From S2P Require Import Block.

#[local] Open Scope Z_scope.

(** ** chain_config.rs *)

Module Config.

Record ChainId := mkChainId { chain_name : string; chain_numeric : Z }.

Record ChainParams := mkChainParams {
  chain_id : string; chain_id_numeric : Z; slot_ms : Z; block_bytes_max : Z; epoch_slots : Z; retention_epochs : Z }.
Record ConsensusParams := mkConsensusParams {
  tau : spec_float; quorum : string; slash_double : string; leak_downtime : string;
  unbonding_delay_slots : Z; round_timeout_ms : Z; view_change_timeout_ms : Z }.
Record FeeParams := mkFeeParams {
  fee_a : Z; fee_b : Z; fee_c : Z; fee_d : Z; congestion_base : spec_float; congestion_max : spec_float;
  target_utilization : spec_float; min_base_fee : Z; blob_per_blob_fee : Z; blob_per_byte_fee : Z }.
Record RentParams := mkRentParams { rho_per_byte_per_epoch : Z; horizon_epochs : Z; minimum_balance : Z }.
Record TokenParams := mkTokenParams { swr_initial_supply : Z; swr_decimals : Z; aic_initial_supply : Z; aic_decimals : Z }.
Record RewardParams := mkRewardParams {
  annual_inflation_rate : spec_float; validator_commission_max : spec_float; reward_epoch_delay : Z }.
Record AiMeshParams := mkAiMeshParams {
  vcr_challenge_window_slots : Z; vcr_bond_minimum : Z; reputation_decay_alpha : spec_float; kzg_sample_size : Z }.
Record NetworkingParams := mkNetworkingParams {
  max_peers : Z; max_inbound : Z; max_outbound : Z; gossipsub_mesh_size : Z; turbine_fanout : Z; erasure_k : Z; erasure_r : Z }.

Record ChainConfig := mkChainConfig {
  chain : ChainParams; consensus : ConsensusParams; fees : FeeParams; rent : RentParams;
  tokens : TokenParams; rewards : RewardParams; ai_mesh : AiMeshParams; networking : NetworkingParams }.

Definition params_chain_id (p : ChainParams) : ChainId := mkChainId p.(chain_id) p.(chain_id_numeric).

(** A division by zero panics. *)
Definition slots_per_year (p : ChainParams) : option Z :=
  if p.(slot_ms) =? 0 then None else Some ((365 * 24 * 3600 * 1000) / p.(slot_ms)).
Definition epochs_per_year (p : ChainParams) : option Z :=
  n ← slots_per_year p; if p.(epoch_slots) =? 0 then None else Some (n / p.(epoch_slots)).

(** [str::split] at a byte. *)
Fixpoint split_at (sep : Z) (bs : list Z) : list (list Z) :=
  match bs with
  | [] => [[]]
  | b :: bs =>
      if b =? sep then [] :: split_at sep bs
      else match split_at sep bs with part :: parts => (b :: part) :: parts | [] => [[b]] end
  end.

(** [str::parse] of an unsigned integer of a width. *)
Fixpoint parse_digits (max : Z) (bs : list Z) (acc : Z) : option Z :=
  match bs with
  | [] => Some acc
  | b :: bs =>
      if (48 <=? b) && (b <=? 57) then
        v ← checked_mul max acc 10; v ← checked_add max v (b - 48); parse_digits max bs v
      else None
  end.
Definition parse_uint (max : Z) (bs : list Z) : option Z :=
  match bs with
  | [] => None
  | b :: rest => if b =? 43 then (if bool_decide (rest = []) then None else parse_digits max rest 0) else parse_digits max bs 0
  end.

Definition quorum_fraction (c : ConsensusParams) : result error (Z * Z) :=
  match split_at 47 (str_bytes c.(quorum)) with
  | [p; q] =>
      n ← ok_or (parse_uint U32_MAX p) (Msg "invalid quorum numerator");
      d ← ok_or (parse_uint U32_MAX q) (Msg "invalid quorum denominator");
      bail_if (d =? 0) (Msg "quorum denominator cannot be zero");;
      mret (n, d)
  | _ => mthrow (Msg "invalid quorum format: expected 'N/D', got '{}'")
  end.

(** Whether [str::parse::<f64>] accepts a string: an optional sign, then [inf],
    [infinity] or [nan] in any case, or digits with at most one point, at least
    one of them, and an optional exponent. *)
Definition is_digit (b : Z) : bool := (48 <=? b) && (b <=? 57).
Definition lower (b : Z) : Z := if (65 <=? b) && (b <=? 90) then b + 32 else b.
Fixpoint skip_digits (bs : list Z) : nat * list Z :=
  match bs with
  | b :: rest => if is_digit b then let '(n, r) := skip_digits rest in (S n, r) else (0%nat, bs)
  | [] => (0%nat, [])
  end.
Definition skip_sign (bs : list Z) : list Z :=
  match bs with b :: rest => if (b =? 43) || (b =? 45) then rest else bs | [] => [] end.
Definition exponent_ok (bs : list Z) : bool :=
  match bs with
  | [] => true
  | e :: rest => (lower e =? 101) && (let '(n, r) := skip_digits (skip_sign rest) in (0 <? n)%nat && bool_decide (r = []))
  end.
Definition number_ok (bs : list Z) : bool :=
  let '(n, rest) := skip_digits bs in
  match rest with
  | b :: rest' =>
      if b =? 46 then let '(m, r) := skip_digits rest' in (0 <? n + m)%nat && exponent_ok r
      else (0 <? n)%nat && exponent_ok rest
  | [] => (0 <? n)%nat
  end.
Definition parse_f64_ok (s : string) : bool :=
  let bs := skip_sign (str_bytes s) in
  bool_decide (lower <$> bs ∈ [str_bytes "inf"; str_bytes "infinity"; str_bytes "nan"]) || number_ok bs.

(** Only whether the rate parses is used. *)
Definition slash_double_rate (c : ConsensusParams) : result error unit :=
  bail_if (negb (parse_f64_ok c.(slash_double))) (Msg "invalid slash_double: '{}'").

Definition validate (c : ChainConfig) : result error unit :=
  bail_if (bool_decide (c.(chain).(chain_id) = ""%string)) (Msg "chain_id must not be empty");;
  bail_if (c.(chain).(slot_ms) =? 0) (Msg "slot_ms must be > 0");;
  bail_if (c.(chain).(epoch_slots) =? 0) (Msg "epoch_slots must be > 0");;
  bail_if (c.(chain).(block_bytes_max) =? 0) (Msg "block_bytes_max must be > 0");;
  bail_if (negb (SFleb (F64.of_int 0) c.(consensus).(tau) && SFleb c.(consensus).(tau) (F64.of_int 1)))
    (Msg "tau must be in [0.0, 1.0], got {}");;
  quorum_fraction c.(consensus);;
  slash_double_rate c.(consensus);;
  bail_if (SFleb c.(fees).(target_utilization) (F64.of_int 0) || SFltb (F64.of_int 1) c.(fees).(target_utilization))
    (Msg "target_utilization must be in (0.0, 1.0], got {}");;
  bail_if (c.(tokens).(swr_initial_supply) =? 0) (Msg "swr_initial_supply must be > 0");;
  '(n, d) ← quorum_fraction c.(consensus);
  bail_if ((n =? 0) || (d <? n)) (Fmt "quorum {}/{} is invalid" [n; d]).

Definition devnet : ChainConfig := mkChainConfig
  (mkChainParams "aether-dev-1" 900 500 2000000 43200 10)
  (mkConsensusParams (F64.of_decimal 8 10) "2/3" "0.05" "0.00001" 172800 2000 5000)
  (mkFeeParams 10000 5 2 1 (F64.of_int 1) (F64.of_int 100) (F64.of_decimal 75 100) 1000 100000 1)
  (mkRentParams 2 12 1000000)
  (mkTokenParams 1000000000000000 6 10000000000000000 6)
  (mkRewardParams (F64.of_decimal 8 100) (F64.of_decimal 20 100) 2)
  (mkAiMeshParams 1200 10000000 (F64.of_decimal 95 100) 32)
  (mkNetworkingParams 50 25 25 8 12 10 2).

Definition set_chain (p : ChainParams) (c : ChainConfig) : ChainConfig :=
  mkChainConfig p c.(consensus) c.(fees) c.(rent) c.(tokens) c.(rewards) c.(ai_mesh) c.(networking).
Definition set_consensus (p : ConsensusParams) (c : ChainConfig) : ChainConfig :=
  mkChainConfig c.(chain) p c.(fees) c.(rent) c.(tokens) c.(rewards) c.(ai_mesh) c.(networking).
Definition with_id (name : string) (n epoch : Z) (p : ChainParams) : ChainParams :=
  mkChainParams name n p.(slot_ms) p.(block_bytes_max) epoch p.(retention_epochs).

Definition testnet : ChainConfig := set_chain (with_id "aether-testnet-1" 100 devnet.(chain).(epoch_slots) devnet.(chain)) devnet.

Definition mainnet : ChainConfig :=
  let c := set_chain (with_id "aether-mainnet-1" 1 86400 devnet.(chain)) devnet in
  let k := c.(consensus) in
  set_consensus (mkConsensusParams k.(tau) k.(quorum) k.(slash_double) k.(leak_downtime) 345600 k.(round_timeout_ms)
    k.(view_change_timeout_ms)) c.

Lemma presets_validate : validate devnet = Ok tt ∧ validate testnet = Ok tt ∧ validate mainnet = Ok tt.
Proof. vm_compute. done. Qed.

(** A configuration that passes can be computed with: the yearly counts do
    not divide by zero, the quorum is a fraction above zero and at most one,
    [tau] is a finite number, and the presets pass. *)
Theorem validated_config (c : ChainConfig) :
  validate c = Ok tt →
  is_Some (epochs_per_year c.(chain)) ∧ (∃ n d, quorum_fraction c.(consensus) = Ok (n, d) ∧ n ≠ 0 ∧ n ≤ d) ∧
  F64.is_finite c.(consensus).(tau) = true ∧ validate devnet = Ok tt ∧ validate testnet = Ok tt ∧ validate mainnet = Ok tt.
Proof.
  intros Hv. split_and!; [| | |apply presets_validate..].
  - unfold validate in Hv. res_inv. clean_ints. unfold epochs_per_year, slots_per_year.
    rewrite (proj2 (Z.eqb_neq _ _)) by done. cbn [mbind option_bind]. rewrite (proj2 (Z.eqb_neq _ _)) by done. by eexists.
  - destruct (quorum_fraction c.(consensus)) as [[n d]|e] eqn:Hq; unfold validate in Hv; rewrite Hq in Hv; res_inv; simplify_eq.
    res_inv. clean_ints. exists n, d. split; [done|]. lia.
  - unfold validate in Hv. res_inv. destruct c.(consensus).(tau) as [|[]| |]; done.
Qed.
End Config.

(** ** hybrid_node.rs: keys *)

Module HybridNode.

(** [format!("{:02x}")] and its inverse on the bytes of a string. *)
Definition hex_digit (d : Z) : Z := if d <? 10 then 48 + d else 87 + d.
Definition to_hex (bs : list Z) : list Z := bs ≫= (λ b, [hex_digit (b / 16); hex_digit (b mod 16)]).

Definition digit_value (b : Z) : option Z :=
  if (48 <=? b) && (b <=? 57) then Some (b - 48)
  else if (97 <=? b) && (b <=? 102) then Some (b - 87)
  else if (65 <=? b) && (b <=? 70) then Some (b - 55) else None.

(** [u8::from_str_radix(_, 16)] on two bytes: a sign before one digit is
    allowed. *)
Definition parse_pair (a b : Z) : option Z :=
  if a =? 43 then digit_value b
  else x ← digit_value a; y ← digit_value b; Some (16 * x + y).

(** A slice that does not start and end at characters panics ([None]). *)
Definition continuation (b : Z) : bool := (128 <=? b) && (b <=? 191).

Fixpoint from_hex_pairs (i : Z) (s : list Z) : option (result error (list Z)) :=
  match s with
  | a :: b :: rest =>
      if continuation a || (match rest with c :: _ => continuation c | [] => false end) then None else
      match parse_pair a b with
      | None => Some (Err (Fmt "invalid hex at position {}: {}" [i]))
      | Some v => (λ r, vs ← (r : result error (list Z)); mret (v :: vs)) <$> from_hex_pairs (i + 2) rest
      end
  | _ => Some (mret [])
  end.

Definition from_hex (s : list Z) : option (result error (list Z)) :=
  if negb (Z.of_nat (length s) mod 2 =? 0) then Some (mthrow (Msg "hex string has odd length")) else from_hex_pairs 0 s.

Lemma hex_digit_value d : 0 ≤ d < 16 →
  digit_value (hex_digit d) = Some d ∧ continuation (hex_digit d) = false ∧ hex_digit d ≠ 43.
Proof.
  intros Hd. assert (d ∈ seqZ 0 16) as Hel by (apply elem_of_seqZ; lia). clear Hd. revert d Hel.
  apply Forall_forall. vm_compute. repeat constructor; done.
Qed.

(** Decoding the hexadecimal text of any bytes returns them. *)
Lemma hex_roundtrip_raw (bs : list Z) : is_bytes bs → from_hex (to_hex bs) = Some (Ok bs).
Proof.
  intros Hb. unfold from_hex.
  assert (Hlen : Z.of_nat (length (to_hex bs)) mod 2 = 0).
  { unfold to_hex. replace (Z.of_nat _) with (Z.of_nat (length bs) * 2); [apply Z_mod_mult|].
    clear Hb. induction bs as [|b bs IH]; [done|]. rewrite bind_cons, length_app. cbn [length]. lia. }
  rewrite (proj2 (Z.eqb_eq _ _) Hlen). cbn [negb]. clear Hlen. generalize 0 as i.
  induction Hb as [|b bs Hr Hb IH]; intros i; [done|].
  destruct (hex_digit_value (b / 16)) as (Hx & Cx & Nx); [split; [apply Z.div_pos|apply Z.div_lt_upper_bound]; lia|].
  destruct (hex_digit_value (b mod 16)) as (Hy & _ & _); [apply Z.mod_pos_bound; lia|].
  change (to_hex (b :: bs)) with (hex_digit (b / 16) :: hex_digit (b mod 16) :: to_hex bs).
  cbn [from_hex_pairs]. rewrite Cx. replace (match to_hex bs with c :: _ => continuation c | [] => false end) with false.
  - unfold parse_pair. rewrite (proj2 (Z.eqb_neq _ _) Nx), Hx, Hy. cbn [mbind option_bind orb].
    rewrite IH. cbn. do 3 f_equal. pose proof (Z.div_mod b 16). lia.
  - destruct Hb as [|c bs Hc _]; [done|]. cbn [to_hex mbind list_bind app].
    symmetry. apply hex_digit_value. split; [apply Z.div_pos|apply Z.div_lt_upper_bound]; lia.
Qed.

Section node.
Context `{Blst, Digest, Edwards, Dalek, !DalekSigner}.

(** The ed25519 pair is its secret. *)
Record ValidatorKeypair := mkValidatorKeypair { ed25519 : H256; vrf : EcVrf.VrfKeypair; bls : Bls.BlsKeypair }.

(** [Keypair::public_key], and [PublicKey::from_bytes] of 32 bytes. *)
Definition ed25519_public (kp : ValidatorKeypair) : list Z := as_bytes 32 (signing_public kp.(ed25519)).
Definition public_key_of (bs : list Z) : PublicKey := Z.to_N (from_le_bytes (reverse bs)).

Definition public_key (kp : ValidatorKeypair) : PublicKey := public_key_of (ed25519_public kp).
Definition address (kp : ValidatorKeypair) : Address := to_address (public_key kp).

(** *** Key files

    The three secrets in hexadecimal; the JSON around them and the file are left
    out. [None] is the panic of [from_hex]. *)

Record KeyFile := mkKeyFile { ed25519_secret : list Z; bls_secret : list Z; vrf_secret : list Z }.

Definition save_keyfile (kp : ValidatorKeypair) : KeyFile :=
  mkKeyFile (to_hex (as_bytes 32 kp.(ed25519))) (to_hex (Bls.secret_key kp.(bls))) (to_hex (EcVrf.secret_bytes kp.(vrf))).

Definition with_hex {A} (context : string) (s : list Z) (k : list Z → option (result error A)) : option (result error A) :=
  match from_hex s with
  | None => None
  | Some (Err _) => Some (Err (Msg context))
  | Some (Ok bs) => k bs
  end.

Definition load_keyfile (f : KeyFile) : option (result error ValidatorKeypair) :=
  with_hex "invalid hex in ed25519_secret" f.(ed25519_secret) (λ ed25519_bytes,
  with_hex "invalid hex in bls_secret" f.(bls_secret) (λ bls_bytes,
  with_hex "invalid hex in vrf_secret" f.(vrf_secret) (λ vrf_bytes,
  Some (
    bail_if (negb (length ed25519_bytes =? 32)%nat) (Msg "invalid ed25519 key: {:?}");;
    bls ← Bls.from_secret bls_bytes;
    vrf ← EcVrf.from_secret vrf_bytes;
    mret (mkValidatorKeypair (public_key_of ed25519_bytes) vrf bls))))).

Definition validator_info_from_keypair (kp : ValidatorKeypair) (stake : Z) : ValidatorInfo :=
  mkValidatorInfo (public_key kp) stake 1000 true.

(** [HybridConsensus::new], with the owner's keys. *)
Definition new_engine (vs : list ValidatorInfo) (my_keypair : option ValidatorKeypair) (tau : spec_float) (epoch_length now : Z) :
    Hybrid.HybridConsensus :=
  Hybrid.with_vrf vs (tau_numerator_of tau) epoch_length ((λ kp, EcVrf.prove kp.(vrf)) <$> my_keypair)
    (bls <$> my_keypair) (address <$> my_keypair) now.

(** A failed registration is only logged. *)
Definition register_or_warn (s : Hybrid.HybridConsensus) (k : Address * list Z * list Z) : Hybrid.HybridConsensus :=
  (Hybrid.register_bls_pubkey k.1.1 k.1.2 k.2 s).1.

Definition register_own (my_keypair : option ValidatorKeypair) (s : Hybrid.HybridConsensus) : Hybrid.HybridConsensus :=
  match my_keypair with
  | Some kp => register_or_warn s (address kp, Bls.public_key kp.(bls), Bls.proof_of_possession kp.(bls))
  | None => s
  end.

Definition create_hybrid_consensus (vs : list ValidatorInfo) (my_keypair : option ValidatorKeypair) (tau : spec_float)
    (epoch_length now : Z) : result error Hybrid.HybridConsensus :=
  mret (register_own my_keypair (new_engine vs my_keypair tau epoch_length now)).

Definition create_hybrid_consensus_with_vrf_keys (vs : list ValidatorInfo) (vrf_pubkeys : list (Address * list Z))
    (my_keypair : option ValidatorKeypair) (tau : spec_float) (epoch_length now : Z) : result error Hybrid.HybridConsensus :=
  let consensus := new_engine vs my_keypair tau epoch_length now in
  let consensus := foldl (λ s k, Hybrid.register_vrf_pubkey k.1 k.2 s) consensus vrf_pubkeys in
  mret (register_own my_keypair consensus).

Definition create_hybrid_consensus_with_all_keys (vs : list ValidatorInfo) (vrf_pubkeys : list (Address * list Z))
    (bls_pubkeys : list (Address * list Z * list Z)) (my_keypair : option ValidatorKeypair) (tau : spec_float)
    (epoch_length now : Z) : result error Hybrid.HybridConsensus :=
  consensus ← create_hybrid_consensus_with_vrf_keys vs vrf_pubkeys my_keypair tau epoch_length now;
  mret (foldl register_or_warn consensus bls_pubkeys).

(** ** Registering keys *)

Lemma public_key_bytes kp : as_bytes 32 (public_key kp) = ed25519_public kp.
Proof.
  unfold public_key, public_key_of, ed25519_public, as_bytes, to_be_bytes. rewrite reverse_involutive.
  pose proof (public_range kp.(ed25519)). rewrite from_to_le_bytes by lia. by rewrite N2Z.id.
Qed.

Lemma as_bytes_roundtrip (sk : H256) : (sk < 2 ^ 256)%N → public_key_of (as_bytes 32 sk) = sk.
Proof.
  intros Hs. unfold public_key_of, as_bytes, to_be_bytes. rewrite reverse_involutive, from_to_le_bytes by lia. apply N2Z.id.
Qed.

(** A key file keeps the identity and the vote key of a validator but not its
    VRF key: the pair read back is derived anew from the scalar that was
    written. *)
Theorem key_file_roundtrip (kp : ValidatorKeypair) :
  (kp.(ed25519) < 2 ^ 256)%N → Bls.keypair_wf kp.(bls) →
  length (Bls.secret_key kp.(bls)) = 32%nat → is_bytes (Bls.secret_key kp.(bls)) →
  secret_from_bytes (Bls.secret_key kp.(bls)) = Ok kp.(bls).(Bls.secret) →
  ∃ kp', load_keyfile (save_keyfile kp) = Some (Ok kp') ∧ address kp' = address kp ∧ kp'.(bls) = kp.(bls) ∧
    kp'.(vrf) = EcVrf.from_secret_bytes (EcVrf.secret_bytes kp.(vrf)).
Proof.
  intros He Hb Hl Hby Hs. eexists. split; [|split_and!].
  - unfold load_keyfile, save_keyfile, with_hex. cbn [ed25519_secret bls_secret vrf_secret].
    rewrite !hex_roundtrip_raw by (done || apply as_bytes_bytes || apply to_le_bytes_bytes).
    rewrite length_as_bytes. cbn [Nat.eqb negb]. unfold Bls.from_secret, Bls.len, EcVrf.from_secret. rewrite Hl.
    cbn [Z.of_nat Pos.of_succ_nat Pos.succ Z.eqb Pos.eqb negb]. rewrite Hs.
    replace (length (EcVrf.secret_bytes kp.(vrf))) with 32%nat by (symmetry; apply length_to_le_bytes). unfold_M. reflexivity.
  - unfold address, public_key, ed25519_public. cbn [ed25519]. by rewrite (as_bytes_roundtrip kp.(ed25519)).
  - cbn. unfold Bls.keypair_wf in Hb. rewrite <- Hb. by destruct kp.(bls).
  - done.
Qed.

(** Everything but the two key tables. *)
Definition same_but_keys (s s' : Hybrid.HybridConsensus) : Prop :=
  Hybrid.core s' = Hybrid.core s ∧ s'.(Hybrid.validators) = s.(Hybrid.validators) ∧
  s'.(Hybrid.total_stake) = s.(Hybrid.total_stake).

#[global] Instance same_but_keys_preorder : PreOrder same_but_keys.
Proof.
  split; [done|]. intros s1 s2 s3 (E1 & E2 & E3) (F1 & F2 & F3). unfold same_but_keys. by rewrite F1, F2, F3.
Qed.

Lemma register_or_warn_same s k :
  same_but_keys s (register_or_warn s k) ∧ (register_or_warn s k).(Hybrid.vrf_pubkeys) = s.(Hybrid.vrf_pubkeys).
Proof.
  unfold register_or_warn, same_but_keys. rewrite Hybrid.register_bls_core. unfold Hybrid.register_bls_pubkey. unfold_M.
  destruct (negb _); [done|]. destruct (Bls.verify_pop _ _) as [[]|]; done.
Qed.

Lemma register_all_same ks s :
  same_but_keys s (foldl register_or_warn s ks) ∧ (foldl register_or_warn s ks).(Hybrid.vrf_pubkeys) = s.(Hybrid.vrf_pubkeys).
Proof.
  revert s. induction ks as [|k ks IH]; intros s; [done|]. cbn [foldl].
  destruct (IH (register_or_warn s k)) as [Hs ->]. destruct (register_or_warn_same s k) as [Hk ->].
  split; [by etrans|done].
Qed.

Lemma register_own_same me s :
  same_but_keys s (register_own me s) ∧ (register_own me s).(Hybrid.vrf_pubkeys) = s.(Hybrid.vrf_pubkeys).
Proof. destruct me; [apply register_or_warn_same|done]. Qed.

Lemma register_vrf_all ks s :
  same_but_keys s (foldl (λ s k, Hybrid.register_vrf_pubkey k.1 k.2 s) s ks) ∧
  (foldl (λ s k, Hybrid.register_vrf_pubkey k.1 k.2 s) s ks).(Hybrid.vrf_pubkeys) =
    foldl (λ m k, <[k.1 := k.2]> m) s.(Hybrid.vrf_pubkeys) ks.
Proof.
  revert s. induction ks as [|k ks IH]; intros s; [done|]. cbn [foldl].
  destruct (IH (Hybrid.register_vrf_pubkey k.1 k.2 s)) as [Hs ->]. split; [|done]. by etrans.
Qed.

Context `{!BlstLaws}.

Lemma register_bls_all (ks : list (Address * Bls.BlsKeypair)) s :
  Forall (λ k, Bls.keypair_wf k.2) ks →
  (foldl register_or_warn s ((λ k, (k.1, Bls.public_key k.2, Bls.proof_of_possession k.2)) <$> ks)).(Hybrid.bls_pubkeys) =
    foldl (λ m k, <[k.1 := k.2]> m) s.(Hybrid.bls_pubkeys) ((λ k, (k.1, Bls.public_key k.2)) <$> ks).
Proof.
  intros Hall. revert s. induction Hall as [|[a kp] ks Hk _ IH]; intros s; [done|]. cbn in Hk.
  cbn [fmap list_fmap foldl fst snd]. rewrite IH. f_equal. unfold register_or_warn, Hybrid.register_bls_pubkey. cbn [fst snd].
  destruct (Bls.sign_verify_roundtrip kp [] Hk) as [_ Hp]. unfold_M.
  assert (Bls.len (Bls.public_key kp) =? 48 = true) as ->.
  { unfold Bls.len, Bls.public_key. by destruct (pk_encoding kp.(Bls.public)) as [-> _]. }
  by rewrite Hp.
Qed.

End node.
End HybridNode.

(** ** genesis.rs *)

Module Genesis.
Import HybridNode.

Record GenesisValidator := mkGenesisValidator {
  name : string; gv_pubkey : list Z; bls_pubkey : list Z; bls_pop : list Z; vrf_pubkey : list Z; gv_stake : Z; commission_bps : Z }.
Record GenesisAccount := mkGenesisAccount { ga_address : Address; ga_balance : Z }.
Record GenesisConfig := mkGenesisConfig {
  chain_config : Config.ChainConfig; validators : list GenesisValidator; accounts : list GenesisAccount;
  timestamp : Z; protocol_version : Z }.

Definition new (c : Config.ChainConfig) (vs : list GenesisValidator) (accs : list GenesisAccount) : GenesisConfig :=
  mkGenesisConfig c vs accs 0 1.

Fixpoint validate_validators (vs : list GenesisValidator) : result error unit :=
  match vs with
  | [] => mret tt
  | v :: vs =>
      bail_if (v.(gv_stake) =? 0) (Msg "validator {} has zero stake");;
      bail_if (bool_decide (v.(gv_pubkey) = [])) (Msg "validator {} has empty pubkey");;
      validate_validators vs
  end.

Definition validate (g : GenesisConfig) : result error unit :=
  Config.validate g.(chain_config);;
  bail_if (bool_decide (g.(validators) = [])) (Msg "must have at least one validator");;
  validate_validators g.(validators).

Section genesis.
Context `{Blst, Digest, Edwards, Dalek, !DalekSigner, BlockCodec}.

Record GenesisResult := mkGenesisResult {
  genesis_block : Block; genesis_hash : H256; validator_set : list ValidatorInfo; total_stake : Z; total_supply : Z }.

Definition compute_state_root (g : GenesisConfig) : H256 :=
  sha256_digest
    (str_bytes g.(chain_config).(Config.chain).(Config.chain_id) ++
     (g.(accounts) ≫= (λ a, as_bytes 20 a.(ga_address) ++ to_le_bytes 16 a.(ga_balance))) ++
     (g.(validators) ≫= (λ v, v.(gv_pubkey) ++ to_le_bytes 16 v.(gv_stake)))).

Definition build (g : GenesisConfig) : GenesisResult :=
  let vs := (λ v, mkValidatorInfo (public_key_of v.(gv_pubkey)) v.(gv_stake) v.(commission_bps) true) <$> g.(validators) in
  let total_stake := foldl (saturating_add U128_MAX) 0 (stake <$> vs) in
  let total_supply := saturating_add U128_MAX (foldl (saturating_add U128_MAX) 0 (ga_balance <$> g.(accounts))) total_stake in
  let state_root := compute_state_root g in
  let block := mkBlock (mkBlockHeader g.(protocol_version) 0 0 state_root 0 0 0 (mkVrfProof (replicate 32 0) []) g.(timestamp))
    [] None [] in
  mkGenesisResult block (block_hash block) vs total_stake total_supply.

Definition vrf_pubkeys (g : GenesisConfig) : list (Address * list Z) :=
  (λ v, (to_address (public_key_of v.(gv_pubkey)), v.(vrf_pubkey))) <$>
    filter (λ v, v.(vrf_pubkey) ≠ replicate 32 0) g.(validators).

Definition bls_pubkeys (g : GenesisConfig) : list (Address * list Z * list Z) :=
  (λ v, (to_address (public_key_of v.(gv_pubkey)), v.(bls_pubkey), v.(bls_pop))) <$>
    filter (λ v, v.(bls_pubkey) ≠ []) g.(validators).

(** [now] is the time in seconds. *)
Definition genesis_validator (stake_per_validator : Z) (i : nat) (kp : ValidatorKeypair) : GenesisValidator :=
  mkGenesisValidator ("validator-" +:+ pretty (S i)) (ed25519_public kp) (Bls.public_key kp.(bls))
    (Bls.proof_of_possession kp.(bls)) kp.(vrf).(EcVrf.public_bytes) stake_per_validator 500.

Definition from_keypairs (now : Z) (c : Config.ChainConfig) (kps : list ValidatorKeypair) (stake_per_validator : Z) : GenesisConfig :=
  let vs := imap (genesis_validator stake_per_validator) kps in
  let accs := (λ kp, mkGenesisAccount (address kp) (wrapping_mul U128_MAX stake_per_validator 10)) <$> kps in
  mkGenesisConfig c vs accs now 1.

(** ** The genesis of a set of key pairs *)

(** Reading a field of each genesis validator that does not depend on its
    position. *)
Lemma fmap_genesis_validators {A} (f : GenesisValidator → A) (g : ValidatorKeypair → A) s kps :
  (∀ i kp, f (genesis_validator s i kp) = g kp) → f <$> imap (genesis_validator s) kps = g <$> kps.
Proof.
  intros Hf. apply list_eq. intros i. rewrite !list_lookup_fmap, list_lookup_imap. destruct (kps !! i); cbn; by rewrite ?Hf.
Qed.

Lemma filter_genesis_validators (P : GenesisValidator → Prop) `{!∀ v, Decision (P v)} s kps :
  (∀ i kp, kp ∈ kps → P (genesis_validator s i kp)) →
  filter P (imap (genesis_validator s) kps) = imap (genesis_validator s) kps.
Proof.
  intros HP. assert (Hall : Forall P (imap (genesis_validator s) kps)).
  { apply Forall_forall. intros v (i & kp & -> & Hl)%elem_of_lookup_imap. eapply HP, list_elem_of_lookup_2, Hl. }
  induction Hall as [|v vs Hv _ IH]; [done|]. by rewrite filter_cons_True, IH.
Qed.

Lemma sum_const {A} (l : list A) (x : Z) : sum_list ((λ _, x) <$> l) = Z.of_nat (length l) * x.
Proof. unfold sum_list. induction l as [|a l IH]; [done|]. cbn [fmap list_fmap foldr length] in *. rewrite IH. lia. Qed.

Lemma saturating_const {A} (l : list A) (x : Z) :
  0 ≤ x → Z.of_nat (length l) * x ≤ U128_MAX →
  foldl (saturating_add U128_MAX) 0 ((λ _, x) <$> l) = Z.of_nat (length l) * x.
Proof.
  intros Hx Hl. rewrite foldl_saturating; [|by apply Forall_fmap, Forall_true|ulia]. rewrite sum_const. lia.
Qed.

Lemma foldl_insert_nodup {K V} `{Countable K} (kvs : list (K * V)) (m : gmap K V) k v :
  NoDup kvs.*1 → (k, v) ∈ kvs → foldl (λ m kv, <[kv.1 := kv.2]> m) m kvs !! k = Some v.
Proof.
  assert (Hout : ∀ kvs (m : gmap K V), k ∉ kvs.*1 → foldl (λ m kv, <[kv.1 := kv.2]> m) m kvs !! k = m !! k).
  { clear kvs m. induction kvs as [|[k' v'] kvs IH]; intros m Hk; [done|]. apply not_elem_of_cons in Hk as [Hne Hk].
    cbn [foldl fst snd] in *. by rewrite IH, lookup_insert_ne. }
  revert m. induction kvs as [|[k' v'] kvs IH]; intros m Hd Hel; [by apply elem_of_nil in Hel|].
  apply NoDup_cons in Hd as [Hn Hd]. cbn [foldl fst snd] in *. apply elem_of_cons in Hel as [[= <- <-]|Hel]; [|by apply IH].
  by rewrite Hout, lookup_insert_eq.
Qed.

(** What [from_keypairs] and [build] pass on. *)
Lemma build_from_keypairs now c kps s :
  (build (from_keypairs now c kps s)).(validator_set) = (λ kp, mkValidatorInfo (public_key kp) s 500 true) <$> kps.
Proof. unfold build, from_keypairs. cbn [validator_set validators]. by apply fmap_genesis_validators. Qed.

Lemma vrf_from_keypairs now c kps s :
  Forall (λ kp, kp.(vrf).(EcVrf.public_bytes) ≠ replicate 32 0) kps →
  vrf_pubkeys (from_keypairs now c kps s) = (λ kp, (address kp, kp.(vrf).(EcVrf.public_bytes))) <$> kps.
Proof.
  intros Hv. unfold vrf_pubkeys, from_keypairs. cbn [validators]. rewrite filter_genesis_validators.
  - by apply fmap_genesis_validators.
  - intros i kp Hel. rewrite Forall_forall in Hv. by apply Hv.
Qed.

Lemma validate_genesis_validators s kps : s ≠ 0 → validate_validators (imap (genesis_validator s) kps) = Ok tt.
Proof.
  intros Hs. assert (Hall : Forall (λ v, v.(gv_stake) ≠ 0 ∧ v.(gv_pubkey) ≠ []) (imap (genesis_validator s) kps)).
  { apply Forall_forall. intros v (i & kp & -> & _)%elem_of_lookup_imap. split; [done|]. cbn. intros E%(f_equal length).
    unfold ed25519_public in E. by rewrite length_as_bytes in E. }
  induction Hall as [|v vs [Hv Hp] _ IH]; [done|]. cbn [validate_validators].
  rewrite (proj2 (Z.eqb_neq _ _) Hv), bool_decide_false by done. exact IH.
Qed.

Context `{!BlstLaws}.

Lemma bls_from_keypairs now c kps s :
  bls_pubkeys (from_keypairs now c kps s) =
  (λ k, (k.1, Bls.public_key k.2, Bls.proof_of_possession k.2)) <$> ((λ kp, (address kp, kp.(bls))) <$> kps).
Proof.
  unfold bls_pubkeys, from_keypairs. cbn [validators]. rewrite filter_genesis_validators.
  - rewrite <- list_fmap_compose. by apply fmap_genesis_validators.
  - intros i kp _ E%(f_equal length). cbn in E. unfold Bls.public_key in E. by destruct (pk_encoding kp.(bls).(Bls.public)) as [El _]; rewrite El in E.
Qed.

Definition started (now now_ms : Z) (c : Config.ChainConfig) (kps : list ValidatorKeypair) (s : Z) (me : option ValidatorKeypair) :
    result error Hybrid.HybridConsensus :=
  let g := from_keypairs now c kps s in
  create_hybrid_consensus_with_all_keys (build g).(validator_set) (vrf_pubkeys g) (bls_pubkeys g) me
    c.(Config.consensus).(Config.tau) c.(Config.chain).(Config.epoch_slots) now_ms.

(** The engine started from a genesis: its stakes and its key tables. *)
Lemma started_spec now now_ms c kps s me :
  Forall (λ kp, Bls.keypair_wf kp.(bls) ∧ kp.(vrf).(EcVrf.public_bytes) ≠ replicate 32 0) kps →
  ∃ e m, started now now_ms c kps s me = Ok e ∧
    same_but_keys (new_engine ((λ kp, mkValidatorInfo (public_key kp) s 500 true) <$> kps) me c.(Config.consensus).(Config.tau)
      c.(Config.chain).(Config.epoch_slots) now_ms) e ∧
    e.(Hybrid.vrf_pubkeys) = foldl (λ m k, <[k.1 := k.2]> m) ∅ ((λ kp, (address kp, kp.(vrf).(EcVrf.public_bytes))) <$> kps) ∧
    e.(Hybrid.bls_pubkeys) = foldl (λ m k, <[k.1 := k.2]> m) m ((λ kp, (address kp, Bls.public_key kp.(bls))) <$> kps).
Proof.
  intros Hk. unfold started. rewrite build_from_keypairs, bls_from_keypairs, vrf_from_keypairs by (eapply Forall_impl; [done|naive_solver]).
  unfold create_hybrid_consensus_with_all_keys, create_hybrid_consensus_with_vrf_keys. unfold_M.
  eexists _, _. split; [reflexivity|].
  match goal with |- context [foldl register_or_warn ?s ?ks] => destruct (register_all_same ks s) as [Hs1 ->] end.
  match goal with |- context [register_own ?me ?s] => destruct (register_own_same me s) as [Hs2 ->] end.
  match goal with |- context [foldl (λ s k, Hybrid.register_vrf_pubkey k.1 k.2 s) ?e ?ks] => destruct (register_vrf_all ks e) as [Hs3 ->] end.
  split; [by do 2 (etrans; [done|])|]. split; [done|]. rewrite register_bls_all.
  - rewrite <- list_fmap_compose. reflexivity.
  - apply Forall_fmap. eapply Forall_impl; [done|]. naive_solver.
Qed.

(** C16: The genesis of a non-empty set of key pairs of different addresses with
    a positive stake each, whose supply fits a [u128], under a valid
    configuration, starts consensus: it passes its validation, its stake and supply are the sums of what it gives out, the
    engine made from it satisfies the consensus invariant, and knows every
    validator with its stake, its VRF key and its BLS key. *)
Theorem genesis_starts_consensus (now now_ms : Z) (c : Config.ChainConfig) (kps : list ValidatorKeypair) (s : Z)
    (me : option ValidatorKeypair) :
  Config.validate c = Ok tt → kps ≠ [] → NoDup (address <$> kps) → 0 < s → 11 * (Z.of_nat (length kps) * s) ≤ U128_MAX →
  Forall (λ kp, Bls.keypair_wf kp.(bls) ∧ kp.(vrf).(EcVrf.public_bytes) ≠ replicate 32 0) kps →
  let g := from_keypairs now c kps s in
  validate g = Ok tt ∧ (build g).(total_stake) = Z.of_nat (length kps) * s ∧
  (build g).(total_supply) = 11 * (Z.of_nat (length kps) * s) ∧
  ∃ e, started now now_ms c kps s me = Ok e ∧ Hybrid.hybrid_inv e ∧ e.(Hybrid.total_stake) = (build g).(total_stake) ∧
    ∀ kp, kp ∈ kps →
      e.(Hybrid.validators) !! address kp = Some (mkValidatorInfo (public_key kp) s 500 true) ∧
      e.(Hybrid.vrf_pubkeys) !! address kp = Some kp.(vrf).(EcVrf.public_bytes) ∧
      e.(Hybrid.bls_pubkeys) !! address kp = Some (Bls.public_key kp.(bls)).
Proof.
  intros Hc Hne Hd Hs Hmax Hk g. set (n := Z.of_nat (length kps)) in *.
  assert (Hn : 1 ≤ n) by (destruct kps; [done|cbn in n; lia]). assert (Hs' : 10 * s ≤ U128_MAX) by nia.
  assert (Hstakes : (stake <$> ((λ kp, mkValidatorInfo (public_key kp) s 500 true) <$> kps)) = (λ _, s) <$> kps)
    by by rewrite <- list_fmap_compose.
  assert (Ht : (build g).(total_stake) = n * s).
  { change (total_stake _) with (foldl (saturating_add U128_MAX) 0 (stake <$> (build g).(validator_set))).
    unfold g. rewrite build_from_keypairs, Hstakes. apply saturating_const; lia. }
  split_and!; [|done| |].
  - unfold validate, g, from_keypairs. cbn [chain_config validators]. rewrite Hc. unfold_M.
    rewrite bool_decide_false by (destruct kps; done). by apply validate_genesis_validators; lia.
  - change (total_supply _) with (saturating_add U128_MAX (foldl (saturating_add U128_MAX) 0 (ga_balance <$> g.(accounts))) (build g).(total_stake)).
    rewrite Ht. cbn [g from_keypairs accounts]. rewrite <- list_fmap_compose.
    change (ga_balance ∘ _) with (λ _ : ValidatorKeypair, wrapping_mul U128_MAX s 10).
    rewrite saturating_const; unfold wrapping_mul; rewrite Z.mod_small by lia; unfold saturating_add; fold n; lia.
  - destruct (started_spec now now_ms c kps s me Hk) as (e & m & He & (Ec & Ev & Es) & Evrf & Ebls).
    exists e. split; [done|]. split; [|split].
    + unfold Hybrid.hybrid_inv. rewrite Ec. apply Hybrid.with_vrf_inv.
      * apply Forall_fmap, Forall_true. intros kp. cbn. lia.
      * rewrite Hstakes, sum_const. lia.
    + rewrite Es, Ht. unfold new_engine, Hybrid.with_vrf. cbn [Hybrid.total_stake]. rewrite Hstakes. apply saturating_const; lia.
    + intros kp Hel. rewrite Ev, Evrf, Ebls. unfold new_engine, Hybrid.with_vrf. cbn [Hybrid.validators].
      split_and!; [|apply foldl_insert_nodup..]; [|by rewrite <- list_fmap_compose|by apply list_elem_of_fmap; exists kp
        |by rewrite <- list_fmap_compose|by apply list_elem_of_fmap; exists kp].
      pose proof (foldl_insert_nodup ((λ kp, (address kp, mkValidatorInfo (public_key kp) s 500 true)) <$> kps) ∅ (address kp)
        (mkValidatorInfo (public_key kp) s 500 true)) as Hl.
      rewrite foldl_fmap in Hl. rewrite foldl_fmap. apply Hl; [by rewrite <- list_fmap_compose|]. apply list_elem_of_fmap. by exists kp.
Qed.

(** The genesis hash does not tell an account from a validator: the account
    [a] last of the accounts, or a validator first with the 20 bytes of its
    address for a key, give one genesis hash, though the stakes differ. *)
Theorem genesis_hash_ambiguous (c : Config.ChainConfig) (vs : list GenesisValidator) (accs : list GenesisAccount)
    (a : GenesisAccount) (v : GenesisValidator) :
  v.(gv_pubkey) = as_bytes 20 a.(ga_address) → v.(gv_stake) = a.(ga_balance) → 0 < a.(ga_balance) →
  validate (new c vs accs) = Ok tt →
  let g := new c vs (accs ++ [a]) in let g' := new c (v :: vs) accs in
  validate g = Ok tt ∧ validate g' = Ok tt ∧ (build g).(genesis_hash) = (build g').(genesis_hash) ∧
  length (build g').(validator_set) = S (length (build g).(validator_set)).
Proof.
  intros Hp Hs Hb Hv g g'. split; [exact Hv|]. split; [|split].
  - unfold validate, g', new in *. cbn [chain_config validators] in *. res_inv.
    rename select (Config.validate c = _) into Hc. rewrite Hc. unfold_M. cbn [validate_validators].
    rewrite Hs, (proj2 (Z.eqb_neq _ _)) by lia.
    assert (as_bytes 20 a.(ga_address) ≠ []) by (intros E; pose proof (length_as_bytes 20 a.(ga_address)); by rewrite E in *).
    by rewrite Hp, bool_decide_false.
  - unfold build, g, g', new. cbn [genesis_hash]. unfold block_hash. cbn [header protocol_version timestamp].
    do 3 f_equal. unfold compute_state_root. cbn [chain_config accounts validators]. do 2 f_equal.
    rewrite bind_app, bind_cons, bind_cons, Hp, Hs, <- !app_assoc. done.
  - unfold build, g, g', new. cbn [validator_set validators]. by rewrite !length_fmap.
Qed.

End genesis.
End Genesis.

(** ** Two validators *)

From S2P Require Import Toy.
From S2P Require Import ToyBlock.

Module GenesisDemo.
Import HybridNode Genesis.

Definition demo_pair (i : N) : ValidatorKeypair :=
  mkValidatorKeypair i (EcVrf.from_secret_bytes (replicate 32 (Z.of_N i))) Bls.demo_keys.1.
Definition demo_pairs : list ValidatorKeypair := [demo_pair 1; demo_pair 2].

Lemma validated_config_witness : is_Some (Config.epochs_per_year Config.mainnet.(Config.chain)).
Proof. apply (Config.validated_config Config.mainnet). vm_compute. reflexivity. Defined.

Lemma key_file_roundtrip_witness : ∃ kp', load_keyfile (save_keyfile (demo_pair 1)) = Some (Ok kp') ∧ kp'.(vrf) ≠ (demo_pair 1).(vrf).
Proof.
  destruct (key_file_roundtrip (demo_pair 1)) as (kp' & Hl & _ & _ & Hv).
  - vm_compute. reflexivity.
  - reflexivity.
  - reflexivity.
  - apply (bool_decide_unpack _). vm_compute. exact I.
  - reflexivity.
  - exists kp'. split; [exact Hl|]. rewrite Hv. intros E%(f_equal EcVrf.secret). revert E. vm_compute. discriminate.
Defined.

Lemma genesis_starts_consensus_witness :
  ∃ e, started 100 0 Config.devnet demo_pairs 1000 (head demo_pairs) = Ok e ∧ Hybrid.hybrid_inv e.
Proof.
  destruct (genesis_starts_consensus 100 0 Config.devnet demo_pairs 1000 (head demo_pairs)) as (_ & _ & _ & e & He & Hi & _).
  - vm_compute. reflexivity.
  - done.
  - apply (bool_decide_unpack _). vm_compute. exact I.
  - lia.
  - vm_compute. discriminate.
  - repeat constructor; vm_compute; discriminate.
  - by exists e.
Defined.

Definition demo_account : GenesisAccount := mkGenesisAccount 7 50.
Definition demo_double : GenesisValidator := mkGenesisValidator "x" (as_bytes 20 7) [] [] (replicate 32 0) 50 0.
Definition demo_genesis : GenesisConfig := from_keypairs 0 Config.devnet demo_pairs 1000.

Lemma genesis_hash_ambiguous_witness :
  (build (new Config.devnet demo_genesis.(validators) [demo_account])).(genesis_hash) =
  (build (new Config.devnet (demo_double :: demo_genesis.(validators)) [])).(genesis_hash).
Proof.
  refine (proj1 (proj2 (proj2 (genesis_hash_ambiguous Config.devnet demo_genesis.(validators) [] demo_account demo_double _ _ _ _)))).
  - reflexivity.
  - reflexivity.
  - vm_compute. reflexivity.
  - vm_compute. reflexivity.
Defined.
End GenesisDemo.
