(* ===== verification/VrfPos.v ===== *)
(** * The proof-of-stake engine

    [crates/consensus/src/vrf_pos.rs], with the signer and verifier traits and
    the mocks of [crates/crypto/vrf/src/lib.rs]: a VRF lottery per slot, epochs
    with their randomness, and a validator set that changes. The theorems show
    that an eligible leader's block verifies, that the epoch follows the slot,
    and that the total stake is the sum of the validators' stakes as long as no
    validator is added twice. *)

From Stdlib Require Import Floats.SpecFloat.
From S2P Require Import Prelude.
From S2P Require Import Doubles.
From S2P Require Import Consensus.
From S2P Require Import Vrf.
From S2P Require Import EcVrf.

#[local] Open Scope Z_scope.

(** ** The traits *)

Record VrfSigner := mkVrfSigner { public_key_bytes : list Z; signer_prove : list Z → VrfProof }.
Definition VrfVerifier : Type := list Z → list Z → VrfProof → result error bool.

(** [VrfKeypair] and [EcVrfVerifier]. *)
Definition keypair_signer `{Edwards} (kp : EcVrf.VrfKeypair) : VrfSigner := mkVrfSigner kp.(EcVrf.public_bytes) (EcVrf.prove kp).
Definition EcVrfVerifier `{Edwards} : VrfVerifier := EcVrf.verify_proof.

(** The mocks. *)
Definition MockVrfSigner `{Digest} (pk : list Z) : VrfSigner :=
  mkVrfSigner pk (λ alpha, mkVrfProof (as_bytes 32 (sha256_digest (pk ++ alpha))) (replicate 80 0)).
Definition mock_from_index `{Digest} (index : Z) : VrfSigner := MockVrfSigner (index :: replicate 31 0).
Definition MockVrfVerifier : VrfVerifier := λ _ _ _, Ok true.
Definition RejectAllVrfVerifier : VrfVerifier := λ _ _ _, Ok false.

(** What the engine relies on: the verifier accepts the signer's proofs. *)
Class VrfScheme (signer : VrfSigner) (verifier : VrfVerifier) :=
  honest_accepted : ∀ alpha, verifier signer.(public_key_bytes) alpha (signer.(signer_prove) alpha) = Ok true.

#[global] Instance ecvrf_scheme `{Edwards, !EdwardsLaws} seed :
  VrfScheme (keypair_signer (EcVrf.from_secret_bytes seed)) EcVrfVerifier.
Proof. intros alpha. by apply EcVrf.prove_verify_raw. Qed.

#[global] Instance mock_scheme `{Digest} pk : VrfScheme (MockVrfSigner pk) MockVrfVerifier.
Proof. done. Qed.

Module VrfPos.
Section engine.
Context `{Digest}.

Record VrfPosConsensus := mkVrfPos {
  epoch_randomness : H256;
  current_epoch : Z;
  current_slot : Z;
  validators : gmap Address ValidatorInfo;
  total_stake : Z;
  tau_numerator : Z;
  tau_denominator : Z;
  finalized_slot : Z;
  epoch_length : Z
}.

Definition new (vs : list ValidatorInfo) (tau : spec_float) (epoch_len : Z) : VrfPosConsensus :=
  mkVrfPos 0 0 0 (foldl (λ m v, <[to_address v.(pubkey) := v]> m) ∅ vs) (foldl (saturating_add U128_MAX) 0 (stake <$> vs))
    (tau_numerator_of tau) 10000 0 (Z.max epoch_len 1).

Definition vrf_input (slot : Z) (s : VrfPosConsensus) : list Z := as_bytes 32 s.(epoch_randomness) ++ to_le_bytes 8 slot.

Definition lottery (output : list Z) (v : ValidatorInfo) (s : VrfPosConsensus) : bool :=
  Vrf.check_leader_eligibility_integer output v.(stake) s.(total_stake) s.(tau_numerator) s.(tau_denominator).

Definition is_eligible_leader (signer : VrfSigner) (slot : Z) (a : Address) (s : VrfPosConsensus) : result error (option VrfProof) :=
  v ← ok_or (s.(validators) !! a) (Msg "validator not found");
  let proof := signer.(signer_prove) (vrf_input slot s) in
  if lottery proof.(vrf_output) v s then mret (Some proof) else mret None.

(** The VRF key is the validator's account key. *)
Definition verify_leader_with (b : BlockHeader) (proposer : Address) (verifier : VrfVerifier) (s : VrfPosConsensus) : result error bool :=
  v ← ok_or (s.(validators) !! proposer) (Msg "validator not found");
  let vrf_pubkey := as_bytes 32 v.(pubkey) in
  ok ← verifier vrf_pubkey (vrf_input b.(header_slot) s) b.(vrf_proof);
  if negb ok then mret false else mret (lottery b.(vrf_proof).(vrf_output) v s).

Definition verify_leader `{Edwards} (b : BlockHeader) (proposer : Address) (s : VrfPosConsensus) : result error bool :=
  verify_leader_with b proposer EcVrfVerifier s.

Definition set_epoch (randomness : H256) (s : VrfPosConsensus) : VrfPosConsensus :=
  mkVrfPos randomness (saturating_add U64_MAX s.(current_epoch) 1) s.(current_slot) s.(validators) s.(total_stake)
    s.(tau_numerator) s.(tau_denominator) s.(finalized_slot) s.(epoch_length).

Definition advance_epoch (seed : list Z) (s : VrfPosConsensus) : VrfPosConsensus := set_epoch (sha256_digest seed) s.

Definition advance_slot (s : VrfPosConsensus) : VrfPosConsensus :=
  let s := mkVrfPos s.(epoch_randomness) s.(current_epoch) (saturating_add U64_MAX s.(current_slot) 1) s.(validators)
    s.(total_stake) s.(tau_numerator) s.(tau_denominator) s.(finalized_slot) s.(epoch_length) in
  if (0 <? s.(epoch_length)) && (s.(current_slot) mod s.(epoch_length) =? 0)
  then set_epoch (sha256_digest (as_bytes 32 s.(epoch_randomness) ++ to_le_bytes 8 s.(current_epoch))) s
  else s.

Definition set_stakes (vs : gmap Address ValidatorInfo) (total : Z) (s : VrfPosConsensus) : VrfPosConsensus :=
  mkVrfPos s.(epoch_randomness) s.(current_epoch) s.(current_slot) vs total s.(tau_numerator) s.(tau_denominator)
    s.(finalized_slot) s.(epoch_length).

Definition add_validator (v : ValidatorInfo) (s : VrfPosConsensus) : VrfPosConsensus :=
  set_stakes (<[to_address v.(pubkey) := v]> s.(validators)) (saturating_add U128_MAX s.(total_stake) v.(stake)) s.

Definition update_stake (a : Address) (new_stake : Z) : M VrfPosConsensus error unit :=
  s ← get_state;
  v ← ok_or (s.(validators) !! a) (Msg "validator not found");
  modify (set_stakes (<[a := mkValidatorInfo v.(pubkey) new_stake v.(commission) v.(active)]> s.(validators))
    (saturating_add U128_MAX (saturating_sub s.(total_stake) v.(stake)) new_stake)).

Definition validator_count (s : VrfPosConsensus) : Z := Z.of_nat (size s.(validators)).

(** ** Leaders *)

(** C38: When the account key of a validator is the public VRF key of its signer
    (the engine verifies proofs under the account key) and the verifier accepts
    the signer's proofs, a validator whose own check makes it a leader has its
    block accepted: the proof it is given, in a block of that slot, verifies
    against the same randomness and stakes. *)
Theorem eligible_leader_verifies (signer : VrfSigner) (verifier : VrfVerifier) `{!VrfScheme signer verifier}
    (a : Address) (v : ValidatorInfo) (proof : VrfProof) (b : BlockHeader) (s : VrfPosConsensus) :
  s.(validators) !! a = Some v → as_bytes 32 v.(pubkey) = signer.(public_key_bytes) →
  is_eligible_leader signer b.(header_slot) a s = Ok (Some proof) → b.(vrf_proof) = proof →
  verify_leader_with b a verifier s = Ok true.
Proof.
  intros Hv Hk Hel Hb. unfold is_eligible_leader in Hel. rewrite Hv in Hel. unfold_M.
  destruct (lottery _ v s) eqn:Hlot; [|done]. injection Hel as <-.
  unfold verify_leader_with. rewrite Hv. unfold_M. rewrite Hk, Hb, honest_accepted. cbn [negb]. by rewrite Hlot.
Qed.

(** ** Epochs *)

Lemma div_succ n l : 0 < l → (n + 1) / l = if (n + 1) mod l =? 0 then n / l + 1 else n / l.
Proof.
  intros Hl. pose proof (Z.div_mod n l) as Hn. pose proof (Z.mod_pos_bound n l) as Hr.
  pose proof (Z.div_mod (n + 1) l) as Hn'. pose proof (Z.mod_pos_bound (n + 1) l) as Hr'.
  destruct (Z.eqb_spec ((n + 1) mod l) 0) as [Hz|Hz]; nia.
Qed.

(** The epoch is the slot divided by the length of an epoch, after any number
    of slots a [u64] can count. *)
Theorem epoch_follows_slot (vs : list ValidatorInfo) (tau : spec_float) (len : Z) (n : nat) :
  Z.of_nat n ≤ U64_MAX →
  let s := Nat.iter n advance_slot (new vs tau len) in
  s.(current_slot) = Z.of_nat n ∧ s.(current_epoch) = Z.of_nat n / Z.max len 1 ∧ s.(epoch_length) = Z.max len 1.
Proof.
  induction n as [|n IH]; intros Hn s; [by rewrite Z.div_0_l by lia|].
  destruct IH as (Hs & He & Hl); [lia|]. subst s.
  change (Nat.iter (S n) advance_slot (new vs tau len)) with (advance_slot (Nat.iter n advance_slot (new vs tau len))).
  set (s := Nat.iter n advance_slot (new vs tau len)) in *. set (l := Z.max len 1) in *. assert (0 < l) by lia.
  assert (Hslot : saturating_add U64_MAX s.(current_slot) 1 = Z.of_nat (S n)) by (unfold saturating_add; lia).
  assert (Hep : saturating_add U64_MAX s.(current_epoch) 1 = Z.of_nat n / l + 1).
  { unfold saturating_add. rewrite He. pose proof (Z.div_le_upper_bound (Z.of_nat n) l (Z.of_nat n)). nia. }
  unfold advance_slot. cbn [epoch_length current_slot]. rewrite Hl, Hslot, (proj2 (Z.ltb_lt 0 l)) by done. cbn [andb].
  pose proof (div_succ (Z.of_nat n) l ltac:(lia)) as Hd. replace (Z.of_nat n + 1) with (Z.of_nat (S n)) in Hd by lia.
  destruct (Z.of_nat (S n) mod l =? 0); cbn [set_epoch current_slot current_epoch epoch_length]; rewrite Hd; split_and!; done || lia.
Qed.

(** ** Stakes *)

Definition stakes_sum (s : VrfPosConsensus) : Prop :=
  map_Forall (λ _ v, 0 ≤ v.(stake)) s.(validators) ∧ s.(total_stake) = map_sum stake s.(validators) ∧ s.(total_stake) ≤ U128_MAX.

(** The operations on an engine, with stakes that fit a [u128]. *)
Inductive vrf_pos_step : VrfPosConsensus → VrfPosConsensus → Prop :=
| step_epoch seed s : vrf_pos_step s (advance_epoch seed s)
| step_slot s : vrf_pos_step s (advance_slot s)
| step_add v s : s.(validators) !! to_address v.(pubkey) = None → 0 ≤ v.(stake) → s.(total_stake) + v.(stake) ≤ U128_MAX →
    vrf_pos_step s (add_validator v s)
| step_update a x s : 0 ≤ x → s.(total_stake) + x ≤ U128_MAX → vrf_pos_step s (update_stake a x s).1.

Lemma vrf_pos_step_sum s s' : vrf_pos_step s s' → stakes_sum s → stakes_sum s'.
Proof.
  intros [] (Hn & Ht & Hm).
  - done.
  - unfold advance_slot. by case_match.
  - unfold add_validator, stakes_sum. cbn [validators total_stake set_stakes]. split; [by apply map_Forall_insert_2|].
    rewrite map_sum_insert_new by done. unfold saturating_add. lia.
  - unfold update_stake. unfold_M. destruct (validators s0 !! a) as [v|] eqn:Hv; cbn; [|done].
    split; [by apply map_Forall_insert_2|]. cbn. pose proof (map_sum_lookup_le stake s0.(validators) a v Hn Hv).
    assert (0 ≤ v.(stake)) by exact (Hn _ _ Hv). rewrite map_sum_insert, Hv. cbn. unfold saturating_add, saturating_sub. lia.
Qed.

(** The total stake, the denominator of the lottery, stays the sum of the
    validators' stakes over every run that adds a validator at most once. *)
Theorem total_stake_exact (s s' : VrfPosConsensus) : rtc vrf_pos_step s s' → stakes_sum s → stakes_sum s'.
Proof. induction 1; eauto using vrf_pos_step_sum. Qed.

(** A validator added again is counted twice: its old stake stays in the
    total though its entry is replaced. *)
Theorem readded_counts_twice (v w : ValidatorInfo) (s : VrfPosConsensus) :
  stakes_sum s → s.(validators) !! to_address v.(pubkey) = Some w → 0 ≤ v.(stake) → s.(total_stake) + v.(stake) ≤ U128_MAX →
  (add_validator v s).(total_stake) = map_sum stake (add_validator v s).(validators) + w.(stake).
Proof.
  intros (Hn & Ht & Hm) Hw Hv Hmax. unfold add_validator. cbn [total_stake validators set_stakes].
  rewrite map_sum_insert, Hw. cbn. pose proof (map_sum_lookup_le stake s.(validators) _ w Hn Hw). unfold saturating_add. lia.
Qed.

End engine.
End VrfPos.

(** ** Two validators *)

From S2P Require Import Toy.

Module VrfPosDemo.
Import VrfPos.

Definition demo_validator (i : N) (x : Z) : ValidatorInfo := mkValidatorInfo i x 0 true.
Definition demo_start : VrfPosConsensus := new [demo_validator 1 60] (F64.of_int 1) 2.

(** A validator whose account key is its VRF key, and the verifier of the
    elliptic-curve scheme. *)
Definition vrf_key : N := Z.to_N (from_le_bytes (reverse EcVrfDemo.demo_key.(EcVrf.public_bytes))).
Definition vrf_start : VrfPosConsensus := new [demo_validator vrf_key 60] (F64.of_int 1) 2.
Definition demo_signer : VrfSigner := keypair_signer EcVrfDemo.demo_key.
Definition header_with (proof : VrfProof) : BlockHeader := mkBlockHeader 1 3 0 0 0 0 (to_address vrf_key) proof 0.
Definition demo_header : BlockHeader := header_with (demo_signer.(signer_prove) (vrf_input 3 vrf_start)).

Lemma demo_scheme : VrfScheme demo_signer EcVrfVerifier.
Proof. exact (ecvrf_scheme (replicate 32 9)). Qed.

Lemma eligible_leader_verifies_witness : verify_leader_with demo_header (to_address vrf_key) EcVrfVerifier vrf_start = Ok true.
Proof.
  apply (@eligible_leader_verifies demo_signer EcVrfVerifier demo_scheme (to_address vrf_key) (demo_validator vrf_key 60) demo_header.(vrf_proof)).
  - vm_compute. reflexivity.
  - vm_compute. reflexivity.
  - vm_compute. reflexivity.
  - reflexivity.
Defined.

(** The proof of another slot is refused. *)
Lemma other_slot_refused :
  verify_leader_with (header_with (demo_signer.(signer_prove) (vrf_input 4 vrf_start))) (to_address vrf_key) EcVrfVerifier vrf_start ≠ Ok true.
Proof. vm_compute. discriminate. Qed.

Lemma epoch_follows_slot_witness : (Nat.iter 5 advance_slot demo_start).(current_epoch) = 2.
Proof. apply (epoch_follows_slot [demo_validator 1 60] (F64.of_int 1) 2 5). vm_compute. discriminate. Defined.

Lemma demo_stakes : stakes_sum demo_start.
Proof.
  split; [|vm_compute; split; [reflexivity|discriminate]].
  change (validators demo_start) with (<[to_address 1 := demo_validator 1 60]> (∅ : gmap Address ValidatorInfo)).
  apply map_Forall_insert_2; [cbn; lia|apply map_Forall_empty].
Qed.

Lemma total_stake_exact_witness : stakes_sum (update_stake (to_address 1) 30 (add_validator (demo_validator 2 40) demo_start)).1.
Proof.
  apply (total_stake_exact demo_start); [|apply demo_stakes].
  apply (rtc_l _ _ (add_validator (demo_validator 2 40) demo_start)).
  - apply (step_add (demo_validator 2 40) demo_start); vm_compute; [reflexivity|discriminate|discriminate].
  - apply rtc_once, (step_update (to_address 1) 30 (add_validator (demo_validator 2 40) demo_start)); vm_compute; discriminate.
Defined.

Lemma readded_counts_twice_witness : (add_validator (demo_validator 1 70) demo_start).(total_stake) = 130.
Proof.
  rewrite (readded_counts_twice (demo_validator 1 70) (demo_validator 1 60) demo_start demo_stakes); vm_compute; done.
Defined.
End VrfPosDemo.
