(* ===== verification/KzgScheme.v ===== *)
(** * Polynomial commitments

    [crates/crypto/kzg/src/commitment.rs]: KZG commitments, opening proofs and
    their verification on BLS12-381. The arithmetic of field elements, points and
    pairings ([blst]) is a parameter ([KzgCurve]) with the laws of the library
    ([KzgLaws]): field elements are residues modulo the group order, multiples of
    the generators add and scale as integers do, and the pairing is bilinear and
    not degenerate on them.

    The theorems show that an opening proof verifies and carries the value of the
    polynomial (Horner evaluation and synthetic division are the arithmetic of
    polynomials), what an accepted proof of subgroup points means, and that a
    response of honest openings passes the verifier of execution traces
    ([Verifiers]). *)

From S2P Require Import Prelude.
From S2P Require Import Verifiers.

#[local] Open Scope Z_scope.

(** The order of the groups. *)
Definition R : Z := 0x73eda753299d7d483339d80809a1d80553bda402fffe5bfeffffffff00000001.

Class KzgCurve := {
  Fr : Type;
  fr_default : Fr;
  fr_from_uint64 : list Z → Fr;
  uint64_from_fr : Fr → list Z;
  fr_mul : Fr → Fr → Fr;
  fr_sub : Fr → Fr → Fr;
  fr_add : Fr → Fr → Fr;
  P1 : Type;
  p1_default : P1;
  p1_generator : P1;
  (** [blst_p1_mult] by the 256 bits of 32 bytes *)
  p1_mult : P1 → list Z → P1;
  (** [blst_p1_to_affine] of the second point, then [blst_p1_add_or_double_affine] *)
  p1_add : P1 → P1 → P1;
  p1_neg : P1 → P1;
  p1_compress : P1 → list Z;
  p1_uncompress : list Z → result Z P1;
  P2 : Type;
  p2_generator : P2;
  p2_mult : P2 → list Z → P2;
  p2_add : P2 → P2 → P2;
  p2_neg : P2 → P2;
  Fp12 : Type;
  miller_loop : P2 → P1 → Fp12;
  fp12_mul : Fp12 → Fp12 → Fp12;
  final_exp : Fp12 → Fp12;
  fp12_is_one : Fp12 → bool
}.

(** The integer of little-endian 64-bit limbs. *)
Definition limbs_val (l : list Z) : Z := foldr (λ x acc, x + 2 ^ 64 * acc) 0 l.

Class KzgLaws `{KzgCurve} := {
  fr_val : Fr → Z;
  fr_range : ∀ x, 0 ≤ fr_val x < R;
  fr_default_val : fr_val fr_default = 0;
  fr_from_val : ∀ l, length l = 4%nat → fr_val (fr_from_uint64 l) = limbs_val l mod R;
  fr_to_val : ∀ x, length (uint64_from_fr x) = 4%nat ∧ Forall (λ u, 0 ≤ u < 2 ^ 64) (uint64_from_fr x) ∧
    limbs_val (uint64_from_fr x) = fr_val x;
  fr_mul_val : ∀ x y, fr_val (fr_mul x y) = (fr_val x * fr_val y) mod R;
  fr_sub_val : ∀ x y, fr_val (fr_sub x y) = (fr_val x - fr_val y) mod R;
  fr_add_val : ∀ x y, fr_val (fr_add x y) = (fr_val x + fr_val y) mod R;
  (** the multiples of the generators *)
  exp1 : Z → P1;
  exp2 : Z → P2;
  exp1_mod : ∀ a b, exp1 a = exp1 b ↔ a mod R = b mod R;
  exp1_default : p1_default = exp1 0;
  exp1_generator : p1_generator = exp1 1;
  exp1_mult : ∀ a bs, length bs = 32%nat → p1_mult (exp1 a) bs = exp1 (a * from_le_bytes bs);
  exp1_add : ∀ a b, p1_add (exp1 a) (exp1 b) = exp1 (a + b);
  exp1_neg : ∀ a, p1_neg (exp1 a) = exp1 (- a);
  exp2_generator : p2_generator = exp2 1;
  exp2_mult : ∀ a bs, length bs = 32%nat → p2_mult (exp2 a) bs = exp2 (a * from_le_bytes bs);
  exp2_add : ∀ a b, p2_add (exp2 a) (exp2 b) = exp2 (a + b);
  exp2_neg : ∀ a, p2_neg (exp2 a) = exp2 (- a);
  uncompress_compress : ∀ a, length (p1_compress (exp1 a)) = 48%nat ∧ p1_uncompress (p1_compress (exp1 a)) = Ok (exp1 a);
  (** [e(aG, bH) * e(cG, dH) = e(G, H)^(ab + cd)] *)
  pairing_product : ∀ a b c d,
    fp12_is_one (final_exp (fp12_mul (miller_loop (exp2 b) (exp1 a)) (miller_loop (exp2 d) (exp1 c)))) = true ↔
    (a * b + c * d) mod R = 0
}.

Module KzgScheme.
Section scheme.
Context `{KzgCurve}.

Record KzgCommitment := mkKzgCommitment { commitment : list Z }.
Record KzgProof := mkKzgProof { proof : list Z; evaluation : list Z }.
Record TrustedSetup := mkTrustedSetup { g1_points : list P1; g2_gen : P2; g2_tau : P2; max_degree : Z }.

(** ** Low-level operations *)

Fixpoint chunks8 (n : nat) (bs : list Z) : list (list Z) :=
  match n with O => [] | S n => take 8 bs :: chunks8 n (drop 8 bs) end.

Definition bytes_to_u64_array (bs : list Z) : list Z := from_le_bytes <$> chunks8 4 bs.
Definition scalar_from_bytes (bs : list Z) : Fr := fr_from_uint64 (bytes_to_u64_array bs).
Definition scalar_to_bytes (s : Fr) : list Z := uint64_from_fr s ≫= to_le_bytes 8.
Definition scalar_one : Fr := scalar_from_bytes (1 :: replicate 31 0).

Definition g1_scalar_mul (p : P1) (s : Fr) : P1 := p1_mult p (scalar_to_bytes s).
Definition g2_scalar_mul (p : P2) (s : Fr) : P2 := p2_mult p (scalar_to_bytes s).
Definition g1_sub (a b : P1) : P1 := p1_add a (p1_neg b).
Definition g2_sub (a b : P2) : P2 := p2_add a (p2_neg b).

Definition decompress_g1 (bs : list Z) : result error P1 :=
  bail_if (negb (length bs =? 48)%nat) (Msg "G1 point must be 48 bytes");;
  map_err (λ e, Fmt "failed to decompress G1 point: {:?}" [e]) (p1_uncompress bs).

(** The loop stops at the end of the shorter of the two lists. *)
Definition multi_scalar_mul_g1 (points : list P1) (scalars : list (list Z)) : P1 :=
  foldl (λ r ps, p1_add r (g1_scalar_mul ps.1 (scalar_from_bytes ps.2))) p1_default (zip points scalars).

(** From the highest degree down. *)
Definition evaluate_polynomial (coefficients : list (list Z)) (z : list Z) : Fr :=
  let z_scalar := scalar_from_bytes z in
  foldr (λ c r, fr_add (fr_mul r z_scalar) (scalar_from_bytes c)) fr_default coefficients.

(** [q[i] = adjusted[i+1] + z * q[i+1]], from the last element of
    [adjusted[1..]] down. *)
Fixpoint synthetic_division (z : Fr) (adjusted : list Fr) : list Fr :=
  match adjusted with
  | [] => []
  | a :: rest =>
      match synthetic_division z rest with
      | [] => [a]
      | q :: qs => fr_add a (fr_mul z q) :: q :: qs
      end
  end.

Definition adjust (coefficients : list (list Z)) (y : Fr) : list Fr :=
  match coefficients with
  | [] => []
  | c :: cs => fr_sub (scalar_from_bytes c) y :: (scalar_from_bytes <$> cs)
  end.

Definition compute_quotient (coefficients : list (list Z)) (z : list Z) (y : Fr) : list (list Z) :=
  if (length coefficients <=? 1)%nat then [replicate 32 0] else
  take 32 ∘ scalar_to_bytes <$> synthetic_division (scalar_from_bytes z) (drop 1 (adjust coefficients y)).

Definition pairing_check (a1 : P1) (a2 : P2) (b1 : P1) (b2 : P2) : bool :=
  fp12_is_one (final_exp (fp12_mul (miller_loop a2 a1) (miller_loop b2 (p1_neg b1)))).

(** ** The scheme *)

Fixpoint powers (n : nat) (tau_power tau : Fr) : list P1 :=
  match n with
  | O => []
  | S n => g1_scalar_mul p1_generator tau_power :: powers n (fr_mul tau_power tau) tau
  end.

Definition generate_insecure (max_degree : Z) (secret_tau : list Z) : TrustedSetup :=
  let tau := scalar_from_bytes secret_tau in
  mkTrustedSetup (powers (S (Z.to_nat max_degree)) scalar_one tau) p2_generator (g2_scalar_mul p2_generator tau) max_degree.

Definition commit (setup : TrustedSetup) (coefficients : list (list Z)) : result error KzgCommitment :=
  bail_if (bool_decide (coefficients = [])) (Msg "empty coefficients");;
  bail_if (setup.(max_degree) + 1 <? Z.of_nat (length coefficients))
    (Fmt "degree {} exceeds maximum {}" [Z.of_nat (length coefficients) - 1; setup.(max_degree)]);;
  mret (mkKzgCommitment (p1_compress (multi_scalar_mul_g1 setup.(g1_points) coefficients))).

Definition create_proof (setup : TrustedSetup) (coefficients : list (list Z)) (z : list Z) : result error KzgProof :=
  bail_if (bool_decide (coefficients = [])) (Msg "empty coefficients");;
  let y := evaluate_polynomial coefficients z in
  let quotient := compute_quotient coefficients z y in
  mret (mkKzgProof (p1_compress (multi_scalar_mul_g1 setup.(g1_points) quotient)) (scalar_to_bytes y)).

Definition verify (setup : TrustedSetup) (c : KzgCommitment) (p : KzgProof) (z : list Z) : result error bool :=
  bail_if (negb (length c.(commitment) =? 48)%nat) (Fmt "invalid commitment length: {}" [Z.of_nat (length c.(commitment))]);;
  bail_if (negb (length p.(proof) =? 48)%nat) (Fmt "invalid proof length: {}" [Z.of_nat (length p.(proof))]);;
  bail_if (negb (length p.(evaluation) =? 32)%nat) (Msg "invalid evaluation length");;
  c_point ← decompress_g1 c.(commitment);
  pi_point ← decompress_g1 p.(proof);
  let y := scalar_from_bytes p.(evaluation) in
  let z_scalar := scalar_from_bytes z in
  let lhs := g1_sub c_point (g1_scalar_mul p1_generator y) in
  let rhs_g2 := g2_sub setup.(g2_tau) (g2_scalar_mul setup.(g2_gen) z_scalar) in
  mret (pairing_check lhs setup.(g2_gen) pi_point rhs_g2).

Fixpoint verify_all (setup : TrustedSetup) (l : list (KzgCommitment * KzgProof * list Z)) : result error bool :=
  match l with
  | [] => mret true
  | (c, p, z) :: l => ok ← verify setup c p z; if negb ok then mret false else verify_all setup l
  end.

Definition batch_verify (setup : TrustedSetup) (cs : list KzgCommitment) (ps : list KzgProof) (zs : list (list Z)) :
    result error bool :=
  bail_if (negb (length cs =? length ps)%nat || negb (length ps =? length zs)%nat) (Msg "mismatched array lengths");;
  verify_all setup (zip (zip cs ps) zs).

(** ** Encodings *)

Lemma limbs_of_bytes n bs : length bs = (8 * n)%nat → limbs_val (from_le_bytes <$> chunks8 n bs) = from_le_bytes bs.
Proof.
  revert bs. induction n as [|n IH]; intros bs Hl; [by destruct bs|]. cbn [chunks8 fmap list_fmap limbs_val foldr].
  fold (limbs_val (from_le_bytes <$> chunks8 n (drop 8 bs))). rewrite IH by (rewrite length_drop; lia).
  rewrite <- (take_drop 8 bs) at 3. rewrite from_le_bytes_app, length_take, Nat.min_l by lia. reflexivity.
Qed.

Lemma bytes_of_limbs l :
  Forall (λ u, 0 ≤ u < 2 ^ 64) l → from_le_bytes (l ≫= to_le_bytes 8) = limbs_val l ∧ length (l ≫= to_le_bytes 8) = (8 * length l)%nat.
Proof.
  induction 1 as [|u l Hu _ [IH1 IH2]]; [done|]. rewrite bind_cons, from_le_bytes_app, length_app, length_to_le_bytes, IH1, IH2.
  rewrite from_to_le_bytes by (cbn; lia). split; [reflexivity|cbn [length]; lia].
Qed.

Context `{!KzgLaws}.

Lemma scalar_from_val bs : length bs = 32%nat → fr_val (scalar_from_bytes bs) = from_le_bytes bs mod R.
Proof. intros Hl. unfold scalar_from_bytes, bytes_to_u64_array. rewrite fr_from_val by done. by rewrite limbs_of_bytes. Qed.

Lemma scalar_to_val s : from_le_bytes (scalar_to_bytes s) = fr_val s ∧ length (scalar_to_bytes s) = 32%nat.
Proof.
  destruct (fr_to_val s) as (Hl & Hu & Hv). unfold scalar_to_bytes.
  destruct (bytes_of_limbs _ Hu) as [-> ->]. by rewrite Hl.
Qed.

Lemma fr_roundtrip s : fr_val (scalar_from_bytes (scalar_to_bytes s)) = fr_val s.
Proof.
  destruct (scalar_to_val s) as [Hv Hl]. rewrite scalar_from_val, Hv by done. apply Z.mod_small, fr_range.
Qed.

(** ** Arithmetic modulo the group order *)

(** Congruence, as an inductive so that rewriting with it is setoid
    rewriting. *)
Inductive eqR (a b : Z) : Prop := eqR_intro : a mod R = b mod R → eqR a b.

Lemma eqR_mod a b : eqR a b ↔ a mod R = b mod R.
Proof. split; [by intros []|by constructor]. Qed.
Lemma eq_eqR a b : a = b → eqR a b.
Proof. by intros ->. Qed.
Lemma mod_eqR a : eqR (a mod R) a.
Proof. constructor. apply Zmod_mod. Qed.

#[local] Instance eqR_equiv : Equivalence eqR.
Proof. split; [by intros ?|by intros ?? []|intros ??? [E1] [E2]; constructor; by rewrite E1]. Qed.
#[local] Instance eqR_add : Proper (eqR ==> eqR ==> eqR) Z.add.
Proof. intros a b [Hab] c d [Hcd]. constructor. by rewrite Zplus_mod, Hab, Hcd, <- Zplus_mod. Qed.
#[local] Instance eqR_sub : Proper (eqR ==> eqR ==> eqR) Z.sub.
Proof. intros a b [Hab] c d [Hcd]. constructor. by rewrite Zminus_mod, Hab, Hcd, <- Zminus_mod. Qed.
#[local] Instance eqR_opp : Proper (eqR ==> eqR) Z.opp.
Proof. intros a b Hab. rewrite <- !Z.sub_0_l. by rewrite Hab. Qed.
#[local] Instance eqR_mul : Proper (eqR ==> eqR ==> eqR) Z.mul.
Proof. intros a b [Hab] c d [Hcd]. constructor. by rewrite Zmult_mod, Hab, Hcd, <- Zmult_mod. Qed.

Lemma mul_eqR x y : eqR (fr_val (fr_mul x y)) (fr_val x * fr_val y).
Proof. rewrite fr_mul_val. apply mod_eqR. Qed.
Lemma add_eqR x y : eqR (fr_val (fr_add x y)) (fr_val x + fr_val y).
Proof. rewrite fr_add_val. apply mod_eqR. Qed.
Lemma from_eqR bs : length bs = 32%nat → eqR (fr_val (scalar_from_bytes bs)) (from_le_bytes bs).
Proof. intros Hl. rewrite scalar_from_val by done. apply mod_eqR. Qed.

(** Polynomials with integer coefficients, lowest degree first. *)
Definition poly_eval (cs : list Z) (x : Z) : Z := foldr (λ c acc, c + x * acc) 0 cs.
Definition is_scalar (bs : list Z) : Prop := length bs = 32%nat.
(** The polynomial of coefficients given as bytes. *)
Definition poly (cs : list (list Z)) (x : Z) : Z := poly_eval (from_le_bytes <$> cs) x.

Lemma poly_cons c cs x : poly (c :: cs) x = from_le_bytes c + x * poly cs x.
Proof. done. Qed.

Lemma poly_eval_eqR (cs cs' : list Z) x x' : Forall2 eqR cs cs' → eqR x x' → eqR (poly_eval cs x) (poly_eval cs' x').
Proof. intros Hc Hx. induction Hc as [|c c' cs cs' Hc _ IH]; [done|]. cbn [poly_eval foldr]. fold (poly_eval cs x) (poly_eval cs' x'). by rewrite Hc, IH, Hx. Qed.

#[local] Instance poly_eqR cs : Proper (eqR ==> eqR) (poly cs).
Proof. intros x x' Hx. apply poly_eval_eqR; [reflexivity|done]. Qed.

Lemma scalars_eqR cs : Forall is_scalar cs → Forall2 eqR (fr_val <$> (scalar_from_bytes <$> cs)) (from_le_bytes <$> cs).
Proof. induction 1 as [|c cs Hc _ IH]; constructor; [by apply from_eqR|done]. Qed.

(** Horner evaluation. *)
Lemma evaluate_spec cs z : Forall is_scalar cs → is_scalar z → fr_val (evaluate_polynomial cs z) = poly cs (from_le_bytes z) mod R.
Proof.
  intros Hcs Hz. rewrite <- (Z.mod_small (fr_val _) R) by apply fr_range. apply (proj1 (eqR_mod _ _)).
  unfold evaluate_polynomial. induction Hcs as [|c cs Hc _ IH]; cbn [foldr].
  - by rewrite fr_default_val.
  - rewrite add_eqR, mul_eqR, IH, !from_eqR, poly_cons by done. apply eq_eqR. lia.
Qed.

(** Synthetic division: with [q] the quotient of the tail [l],
    [x l(x) - z l(z) = (x - z) q(x)]. *)
Lemma division_spec z l x :
  let pe l x := poly_eval (fr_val <$> l) x in
  (∀ a l', l = a :: l' → ∃ q qs, synthetic_division z l = q :: qs ∧ eqR (fr_val q) (pe l (fr_val z))) ∧
  eqR (x * pe l x - fr_val z * pe l (fr_val z)) ((x - fr_val z) * pe (synthetic_division z l) x).
Proof.
  intros pe. induction l as [|a l [IHh IH]]; [split; [done|]; apply eq_eqR; cbn; lia|]. cbn [synthetic_division].
  assert (Hpe : ∀ b k y, pe (b :: k) y = fr_val b + y * pe k y) by done.
  destruct l as [|b l]; cbn [synthetic_division].
  - split; [intros a' l' [= <- <-]; eexists _, _; split; [done|]|]; rewrite !Hpe; unfold pe, poly_eval; cbn; apply eq_eqR; lia.
  - destruct (IHh b l eq_refl) as (q & qs & Hq & Hqv). cbn [synthetic_division] in Hq. rewrite Hq. cbn [synthetic_division] in IH. rewrite Hq in IH.
    split.
    + intros a' l' [= <- <-]. eexists _, _. split; [done|]. rewrite add_eqR, mul_eqR, Hqv, (Hpe a). done.
    + rewrite (Hpe (fr_add a _)), !(Hpe a), add_eqR, mul_eqR, Hqv.
      trans ((x - fr_val z) * (fr_val a + fr_val z * pe (b :: l) (fr_val z)) + x * ((x - fr_val z) * pe (q :: qs) x)).
      * rewrite <- IH. apply eq_eqR. ring.
      * apply eq_eqR. ring.
Qed.

Lemma quotient_bytes s : from_le_bytes ((take 32 ∘ scalar_to_bytes) s) = fr_val s ∧ is_scalar ((take 32 ∘ scalar_to_bytes) s).
Proof. cbn. destruct (scalar_to_val s) as [Hv Hl]. unfold is_scalar. rewrite take_ge by lia. done. Qed.

(** [P(x) - P(z) = (x - z) Q(x)], with [Q] of a degree less. *)
Lemma quotient_spec cs z y x :
  cs ≠ [] → Forall is_scalar cs → is_scalar z → let q := compute_quotient cs z y in
  Forall is_scalar q ∧ (length q ≤ length cs)%nat ∧ eqR (poly cs x - poly cs (from_le_bytes z)) ((x - from_le_bytes z) * poly q x).
Proof.
  intros Hne Hcs Hz. unfold compute_quotient. destruct cs as [|c0 cs]; [done|]. destruct cs as [|c1 cs]; cbn [length Nat.leb].
  { split; [repeat constructor|]. split; [cbn; lia|]. rewrite !poly_cons. unfold poly, poly_eval. cbn. apply eq_eqR. lia. }
  cbn [adjust drop]. set (l := scalar_from_bytes <$> c1 :: cs). apply Forall_cons in Hcs as [_ Hcs].
  change (drop 0 _) with l.
  assert (Hlen : length (synthetic_division (scalar_from_bytes z) l) = length l).
  { clear. induction l as [|a l IH]; [done|]. cbn [synthetic_division length]. rewrite <- IH. by destruct (synthetic_division _ l). }
  split_and!.
  - apply Forall_fmap, Forall_true. intros s. apply quotient_bytes.
  - rewrite length_fmap, Hlen. unfold l. rewrite length_fmap. cbn. lia.
  - assert (Hl : ∀ w, eqR (poly_eval (fr_val <$> l) w) (poly (c1 :: cs) w)).
    { intros w. apply poly_eval_eqR; [|done]. by apply scalars_eqR. }
    destruct (division_spec (scalar_from_bytes z) l x) as [_ Hd]. cbn zeta in Hd. rewrite !Hl, !from_eqR in Hd by done.
    assert (Hq : poly (take 32 ∘ scalar_to_bytes <$> synthetic_division (scalar_from_bytes z) l) x = poly_eval (fr_val <$> synthetic_division (scalar_from_bytes z) l) x).
    { unfold poly. rewrite <- list_fmap_compose. f_equal. apply list_fmap_ext. intros i s _. apply quotient_bytes. }
    rewrite Hq, <- Hd, !(poly_cons c0). apply eq_eqR. lia.
Qed.

(** ** Commitments are multiples of the generator *)

Lemma exp1_eqR a b : eqR a b → exp1 a = exp1 b.
Proof. intros E. apply (proj2 (exp1_mod _ _)), (proj1 (eqR_mod _ _)), E. Qed.

Lemma g1_mul_exp a s : g1_scalar_mul (exp1 a) s = exp1 (a * fr_val s).
Proof. unfold g1_scalar_mul. destruct (scalar_to_val s) as [<- Hl]. by apply exp1_mult. Qed.
Lemma g2_mul_exp a s : g2_scalar_mul (exp2 a) s = exp2 (a * fr_val s).
Proof. unfold g2_scalar_mul. destruct (scalar_to_val s) as [<- Hl]. by apply exp2_mult. Qed.

Lemma scalar_one_val : fr_val scalar_one = 1.
Proof. unfold scalar_one. by rewrite scalar_from_val. Qed.

(** A sum over the powers of [tau] is the value of the polynomial at [tau]. *)
Lemma powers_sum n tp tau cs acc :
  Forall is_scalar cs → (length cs ≤ n)%nat →
  foldl (λ r ps, p1_add r (g1_scalar_mul ps.1 (scalar_from_bytes ps.2))) (exp1 acc) (zip (powers n tp tau) cs) =
  exp1 (acc + fr_val tp * poly cs (fr_val tau)).
Proof.
  intros Hcs. revert n tp acc. induction Hcs as [|c cs Hc _ IH]; intros n tp acc Hn.
  - replace (zip (powers n tp tau) []) with (@nil (P1 * list Z)) by by destruct (powers n tp tau).
    cbn [foldl]. apply exp1_eqR, eq_eqR. unfold poly. cbn. lia.
  - destruct n as [|n]; [cbn in Hn; lia|]. cbn [powers zip zip_with foldl fst snd].
    rewrite exp1_generator, !g1_mul_exp, exp1_add. fold (zip (powers n (fr_mul tp tau) tau) cs). rewrite IH by (cbn in Hn; lia).
    apply exp1_eqR. rewrite mul_eqR, from_eqR, poly_cons by done. apply eq_eqR. ring.
Qed.

(** The secret of a setup, as a residue. *)
Definition secret (tau : list Z) : Z := fr_val (scalar_from_bytes tau).

Lemma msm_setup d tau cs :
  Forall is_scalar cs → Z.of_nat (length cs) ≤ d + 1 →
  multi_scalar_mul_g1 (generate_insecure d tau).(g1_points) cs = exp1 (poly cs (secret tau)).
Proof.
  intros Hcs Hd. unfold multi_scalar_mul_g1, generate_insecure. cbn [g1_points]. rewrite exp1_default, powers_sum by (done || lia).
  apply exp1_eqR, eq_eqR. rewrite scalar_one_val. unfold secret. lia.
Qed.

(** ** Verification *)

Lemma decompress_compress a : decompress_g1 (p1_compress (exp1 a)) = Ok (exp1 a).
Proof. unfold decompress_g1. destruct (uncompress_compress a) as [-> ->]. done. Qed.

(** Verification of a commitment [cG] and a proof [qG]: [c - y = q (tau - z)]. *)
Lemma verify_exponents d tau c q e z :
  is_scalar e → is_scalar z →
  ∃ b, verify (generate_insecure d tau) (mkKzgCommitment (p1_compress (exp1 c))) (mkKzgProof (p1_compress (exp1 q)) e) z = Ok b ∧
  (b = true ↔ eqR (c - from_le_bytes e) (q * (secret tau - from_le_bytes z))).
Proof.
  intros He Hz. unfold verify. cbn [commitment proof evaluation]. rewrite !decompress_compress, He.
  destruct (uncompress_compress c) as [-> _]. destruct (uncompress_compress q) as [-> _]. cbn [Nat.eqb negb].
  unfold_M. eexists. split; [done|]. unfold pairing_check, g1_sub, g2_sub, generate_insecure. cbn [g2_gen g2_tau].
  rewrite exp1_generator, exp2_generator, g1_mul_exp, !g2_mul_exp, !exp1_neg, exp2_neg, exp1_add, exp2_add, pairing_product.
  rewrite <- (Zmod_0_l R), <- eqR_mod, (from_eqR e), (from_eqR z) by done. fold (secret tau).
  assert (Hmove : ∀ u v, eqR (u * 1 + - q * v) 0 ↔ eqR u (q * v)).
  { intros u v. split; intros E.
    - trans (u * 1 + - q * v + q * v); [apply eq_eqR; ring|]. rewrite E. done.
    - rewrite E. apply eq_eqR. ring. }
  rewrite <- Hmove. match goal with |- eqR ?a 0 ↔ eqR ?b 0 => replace a with b by ring end. done.
Qed.

(** Coefficients that fit the setup. *)
Definition layer_ok (d : Z) (cs : list (list Z)) : Prop := cs ≠ [] ∧ Forall is_scalar cs ∧ Z.of_nat (length cs) ≤ d + 1.

Lemma kzg_opening_raw d tau cs z :
  layer_ok d cs → is_scalar z → let setup := generate_insecure d tau in
  ∃ c p, commit setup cs = Ok c ∧ create_proof setup cs z = Ok p ∧ verify setup c p z = Ok true ∧
    from_le_bytes p.(evaluation) = poly cs (from_le_bytes z) mod R.
Proof.
  intros (Hne & Hcs & Hd) Hz setup. unfold commit, create_proof. rewrite bool_decide_false, (proj2 (Z.ltb_ge _ _)) by done. unfold_M.
  set (y := evaluate_polynomial cs z).
  destruct (quotient_spec cs z y (secret tau) Hne Hcs Hz) as (Hq & Hlen & Heq). cbn zeta in *.
  unfold setup. rewrite !msm_setup by (done || lia). destruct (scalar_to_val y) as [Hy Hyl].
  assert (Hyv : fr_val y = poly cs (from_le_bytes z) mod R) by by apply evaluate_spec.
  eexists _, _. split_and!; [done..| |cbn [evaluation]; by rewrite Hy].
  destruct (verify_exponents d tau (poly cs (secret tau)) (poly (compute_quotient cs z y) (secret tau)) (scalar_to_bytes y) z)
    as (b & -> & Hb); [done..|]. f_equal. apply Hb. rewrite Hy, Hyv, mod_eqR.
  rewrite Heq. apply eq_eqR. ring.
Qed.

(** An opening proof verifies, and its evaluation is the value of the committed
    polynomial at the point: commitment, Horner evaluation, synthetic division
    and the pairing equation fit together, for every polynomial up to the degree
    of the setup and every point. *)
Theorem kzg_opening_verifies (d : Z) (tau : list Z) (cs : list (list Z)) (z : list Z) :
  cs ≠ [] → Forall is_scalar cs → Z.of_nat (length cs) ≤ d + 1 → is_scalar z →
  let setup := generate_insecure d tau in
  ∃ c p, commit setup cs = Ok c ∧ create_proof setup cs z = Ok p ∧ verify setup c p z = Ok true ∧
    from_le_bytes p.(evaluation) = poly cs (from_le_bytes z) mod R.
Proof. intros. by apply kzg_opening_raw. Qed.

(** What an accepted opening means: with a proof [qG] and an evaluation [e] at
    [z] for the commitment of [P], either [e] is [P(z)], or the difference with
    the honest proof, times [tau - z], is a nonzero known number: the forger has
    the inverse of [tau - z], which the setup hides. *)
Theorem kzg_forgery_inverts (d : Z) (tau : list Z) (cs : list (list Z)) (z e : list Z) (q : Z) :
  cs ≠ [] → Forall is_scalar cs → Z.of_nat (length cs) ≤ d + 1 → is_scalar z → is_scalar e →
  let setup := generate_insecure d tau in
  ∃ c p h, commit setup cs = Ok c ∧ create_proof setup cs z = Ok p ∧ decompress_g1 p.(proof) = Ok (exp1 h) ∧
    (verify setup c (mkKzgProof (p1_compress (exp1 q)) e) z = Ok true ↔
     eqR ((secret tau - from_le_bytes z) * (q - h)) (poly cs (from_le_bytes z) - from_le_bytes e)).
Proof.
  intros Hne Hcs Hd Hz He setup. unfold commit, create_proof. rewrite bool_decide_false, (proj2 (Z.ltb_ge _ _)) by done. unfold_M.
  set (y := evaluate_polynomial cs z).
  destruct (quotient_spec cs z y (secret tau) Hne Hcs Hz) as (Hq & Hlen & Heq). cbn zeta in *.
  unfold setup. rewrite !msm_setup by (done || lia).
  eexists _, _, (poly (compute_quotient cs z y) (secret tau)). split_and!; [done..|apply decompress_compress|].
  destruct (verify_exponents d tau (poly cs (secret tau)) q e z) as (b & -> & Hb); [done..|].
  assert (Hiff : Ok (E := error) b = Ok true ↔ b = true) by (split; [by intros [= ->]|by intros ->]). rewrite Hiff, Hb.
  set (h := poly (compute_quotient cs z y) (secret tau)) in *. set (t := secret tau) in *. set (x := from_le_bytes z) in *.
  split; intros E.
  - trans (q * (t - x) - (t - x) * h); [apply eq_eqR; ring|]. rewrite <- E, <- Heq. apply eq_eqR. ring.
  - trans ((t - x) * h + (poly cs x - from_le_bytes e)); [rewrite <- Heq; apply eq_eqR; ring|]. rewrite <- E. apply eq_eqR. ring.
Qed.

(** ** Spot checks of an execution trace *)

(** [KzgVerifier::verify] as the trace verifier calls it: an error is [None]. *)
Definition kzg_verify (setup : TrustedSetup) (c p e z : list Z) : option bool :=
  match verify setup (mkKzgCommitment c) (mkKzgProof p e) z with Ok b => Some b | Err _ => None end.

(** A worker that committed to a polynomial for each layer opens a challenged
    point. *)
Definition open_point (setup : TrustedSetup) (layers : Z → list (list Z)) (points : Z → list Z) (k : Z * Z) : result error Kzg.Opening :=
  c ← commit setup (layers k.1);
  p ← create_proof setup (layers k.1) (points k.2);
  mret (Kzg.mkOpening k.1 k.2 (points k.2) c.(commitment) p.(proof) p.(evaluation)).

Fixpoint open_points (setup : TrustedSetup) (layers : Z → list (list Z)) (points : Z → list Z) (ks : list (Z * Z)) :
    result error (list Kzg.Opening) :=
  match ks with
  | [] => mret []
  | k :: ks => o ← open_point setup layers points k; os ← open_points setup layers points ks; mret (o :: os)
  end.

Lemma open_points_valid d tau layers points ks :
  (∀ l, layer_ok d (layers l)) → (∀ i, is_scalar (points i)) →
  ∃ os, open_points (generate_insecure d tau) layers points ks = Ok os ∧ Kzg.key <$> os = ks ∧
    Forall (Kzg.opening_valid (kzg_verify (generate_insecure d tau))) os.
Proof.
  intros Hl Hp. induction ks as [|[l i] ks (os & Hos & Hk & Hv)]; [by exists []|].
  destruct (kzg_opening_raw d tau (layers l) (points i) (Hl l) (Hp i)) as (c & p & Hc & Hpr & Hver & _). cbn zeta in *.
  exists (Kzg.mkOpening l i (points i) c.(commitment) p.(proof) p.(evaluation) :: os). split_and!.
  - cbn [open_points]. unfold open_point. cbn [fst snd]. rewrite Hc, Hpr, Hos. done.
  - cbn. by rewrite Hk.
  - constructor; [|done]. split; [apply Hp|]. unfold kzg_verify. cbn [Kzg.commitment Kzg.proof Kzg.evaluation Kzg.point].
    destruct c as [c], p as [p e]. cbn [commitment proof evaluation]. by rewrite Hver.
Qed.

(** C14: A worker that committed to the layers of its trace answers every
    well-formed challenge: the openings it makes are accepted by the verifier of
    traces. *)
Theorem honest_trace_accepted (d : Z) (tau : list Z) (layers : Z → list (list Z)) (points : Z → list Z) (c : Kzg.KzgChallenge) :
  Kzg.challenge_wf c → (∀ l, layer_ok d (layers l)) → (∀ i, is_scalar (points i)) →
  let setup := generate_insecure d tau in
  ∃ os, open_points setup layers points (Kzg.iter_points c) = Ok os ∧
    Kzg.verify_kzg_openings (kzg_verify setup) c (Kzg.mkResponse c.(Kzg.vcr_id) os) = Ok tt.
Proof.
  intros Hc Hl Hp setup. destruct (open_points_valid d tau layers points (Kzg.iter_points c) Hl Hp) as (os & Hos & Hk & Hv).
  exists os. split; [done|]. apply Kzg.verify_kzg_openings_spec. split_and!; [done|done| |done]. cbn [Kzg.openings]. by rewrite Hk.
Qed.

End scheme.
End KzgScheme.

(** ** A small instance: integers modulo the order as points *)

Definition to_limbs (z : Z) : list Z := (λ i, z / 2 ^ (64 * i) mod 2 ^ 64) <$> [0; 1; 2; 3].

Lemma limbs_to_limbs z : 0 ≤ z < 2 ^ 256 → limbs_val (to_limbs z) = z.
Proof.
  intros Hz. unfold limbs_val, to_limbs. cbn [fmap list_fmap foldr]. change (64 * 0) with 0. change (64 * 1) with 64.
  change (64 * 2) with 128. change (64 * 3) with 192. rewrite Z.pow_0_r, Z.div_1_r.
  assert (E1 : z / 2 ^ 128 = z / 2 ^ 64 / 2 ^ 64) by by rewrite Z.div_div.
  assert (E2 : z / 2 ^ 192 = z / 2 ^ 64 / 2 ^ 64 / 2 ^ 64) by by rewrite !Z.div_div.
  rewrite E1, E2. set (a := z / 2 ^ 64). set (b := a / 2 ^ 64). set (c := b / 2 ^ 64).
  pose proof (Z.div_mod z (2 ^ 64) ltac:(done)) as Hz1. fold a in Hz1. pose proof (Z.div_mod a (2 ^ 64) ltac:(done)) as Ha1. fold b in Ha1.
  pose proof (Z.div_mod b (2 ^ 64) ltac:(done)) as Hb1. fold c in Hb1.
  rewrite (Z.mod_small c); [lia|]. unfold c, b, a. rewrite !Z.div_div by done. split; [apply Z.div_pos; lia|].
  apply Z.div_lt_upper_bound; lia.
Qed.

#[global] Instance toy_curve : KzgCurve := {
  Fr := Z; fr_default := 0; fr_from_uint64 := limbs_val; uint64_from_fr x := to_limbs (x mod R);
  fr_mul := Z.mul; fr_sub := Z.sub; fr_add := Z.add;
  P1 := Z; p1_default := 0; p1_generator := 1; p1_mult p bs := (p * from_le_bytes bs) mod R;
  p1_add p q := (p + q) mod R; p1_neg p := (- p) mod R; p1_compress := to_le_bytes 48; p1_uncompress bs := Ok (from_le_bytes bs);
  P2 := Z; p2_generator := 1; p2_mult p bs := (p * from_le_bytes bs) mod R; p2_add p q := (p + q) mod R; p2_neg p := (- p) mod R;
  Fp12 := Z; miller_loop q p := p * q; fp12_mul := Z.add; final_exp x := x mod R; fp12_is_one x := x =? 0
}.

#[global] Program Instance toy_kzg_laws : KzgLaws := { fr_val x := x mod R; exp1 a := a mod R; exp2 a := a mod R }.
Next Obligation. intros. by apply Z.mod_pos_bound. Qed.
Next Obligation. done. Qed.
Next Obligation. done. Qed.
Next Obligation.
  intros x. split; [done|]. pose proof (Z.mod_pos_bound x R ltac:(done)) as Hx. split.
  - apply Forall_fmap, Forall_true. intros i. by apply Z.mod_pos_bound.
  - apply limbs_to_limbs. unfold R in *. lia.
Qed.
Next Obligation. intros. cbn. apply Zmult_mod. Qed.
Next Obligation. intros. cbn. apply Zminus_mod. Qed.
Next Obligation. intros. cbn. apply Zplus_mod. Qed.
Next Obligation. done. Qed.
Next Obligation. done. Qed.
Next Obligation. done. Qed.
Next Obligation. intros. cbn. by rewrite Zmult_mod_idemp_l. Qed.
Next Obligation. intros. cbn. by rewrite <- Zplus_mod. Qed.
Next Obligation. intros a. cbn. rewrite <- !Z.sub_0_l. by rewrite Zminus_mod_idemp_r. Qed.
Next Obligation. done. Qed.
Next Obligation. intros. cbn. by rewrite Zmult_mod_idemp_l. Qed.
Next Obligation. intros. cbn. by rewrite <- Zplus_mod. Qed.
Next Obligation. intros a. cbn. rewrite <- !Z.sub_0_l. by rewrite Zminus_mod_idemp_r. Qed.
Next Obligation.
  intros a. split; [apply length_to_le_bytes|]. cbn. f_equal. apply from_to_le_bytes. pose proof (Z.mod_pos_bound a R ltac:(done)). unfold R in *. cbn. lia.
Qed.
Next Obligation.
  intros a b c d. cbn. rewrite Z.eqb_eq. rewrite Zplus_mod, <- (Zmult_mod a b), <- (Zmult_mod c d), <- Zplus_mod. done.
Qed.

Module KzgDemo.
Import KzgScheme.

Definition scalar (n : Z) : list Z := to_le_bytes 32 n.
(** [3 + 2x + x^2] at 5. *)
Definition demo_coefficients : list (list Z) := [scalar 3; scalar 2; scalar 1].

Lemma demo_layer : layer_ok 16 demo_coefficients.
Proof. split; [done|]. split; [repeat constructor|done]. Qed.

Lemma kzg_opening_verifies_witness : ∃ p, create_proof (generate_insecure 16 (scalar 99)) demo_coefficients (scalar 5) = Ok p ∧
  from_le_bytes p.(evaluation) = 38.
Proof.
  destruct (kzg_opening_verifies 16 (scalar 99) demo_coefficients (scalar 5)) as (c & p & _ & Hp & _ & He).
  - discriminate.
  - apply demo_layer.
  - vm_compute. discriminate.
  - reflexivity.
  - exists p. split; [exact Hp|]. rewrite He. vm_compute. reflexivity.
Defined.

Lemma kzg_forgery_inverts_witness : ∃ c, commit (generate_insecure 16 (scalar 99)) demo_coefficients = Ok c ∧
  verify (generate_insecure 16 (scalar 99)) c (mkKzgProof (p1_compress (exp1 106)) (scalar 39)) (scalar 5) ≠ Ok true.
Proof.
  destruct (kzg_forgery_inverts 16 (scalar 99) demo_coefficients (scalar 5) (scalar 39) 106) as (c & p & h & Hc & _ & _ & _).
  - discriminate.
  - apply demo_layer.
  - vm_compute. discriminate.
  - reflexivity.
  - reflexivity.
  - exists c. split; [exact Hc|]. vm_compute in Hc. injection Hc as <-. vm_compute. discriminate.
Defined.

Definition demo_challenge : Kzg.KzgChallenge := Kzg.mkKzgChallenge 3 [0; 1] [[0; 1]; [1]] 0.

Lemma honest_trace_accepted_witness : ∃ os,
  Kzg.verify_kzg_openings (kzg_verify (generate_insecure 16 (scalar 99))) demo_challenge (Kzg.mkResponse 3 os) = Ok tt.
Proof.
  destruct (honest_trace_accepted 16 (scalar 99) (λ _, demo_coefficients) (λ i, scalar i) demo_challenge) as (os & _ & Hv).
  - split; [reflexivity|]. split; [discriminate|]. split; [|apply (bool_decide_unpack _); vm_compute; exact I].
    intros ps [->|[->|[]%not_elem_of_nil]%elem_of_cons]%elem_of_cons; discriminate.
  - intros _. apply demo_layer.
  - intros i. reflexivity.
  - exists os. exact Hv.
Defined.
End KzgDemo.
