(* ===== verification/JsonRpc.v ===== *)
(** * The JSON-RPC server

    [crates/rpc/json-rpc/src/server.rs]: the rate limiter, the dispatch of a
    request with every handler, and the count of web sockets; and the backend
    that [crates/node/src/main.rs] gives the server, on the node of [Node].
    JSON values are a type; what the [serde], [hex] and [bincode] libraries do is
    a parameter ([RpcEnv]). The text of an error is its template. HTTP, CORS, the
    timeout of a request, metrics and the streams of events are left out.

    The theorems show that every response is well formed, that reading methods
    do not write, what a transfer request can submit, what an airdrop does to an
    account, and that the limiter is bounded. *)

From Stdlib Require Import Floats.SpecFloat Strings.Ascii.
From stdpp Require Import pretty.
From S2P Require Import Prelude.
From S2P Require Import Doubles.
From S2P Require Import Transaction.
From S2P Require Import Storage.
From S2P Require Import Ledger.
From S2P Require Import LedgerSpec.
From S2P Require Import LedgerBlocks.
From S2P Require Import Bls.
From S2P Require Import Consensus.
From S2P Require Import Mempool.
From S2P Require Import Block.
From S2P Require Import Engine.
From S2P Require Import Sync.
From S2P Require Import Node.
From S2P Require Import Genesis.

#[local] Open Scope Z_scope.

(** ** The rate limiter *)

Module RateLimiter.
Section limiter.
Context `{HashOrder}.

Definition MAX_RATE_LIMIT_ENTRIES : nat := Z.to_nat 50000.

Abbreviation IpAddr := N.

(** [last_refill] in nanoseconds of the monotonic clock. *)
Record TokenBucket := mkBucket { tokens : spec_float; last_refill : Z }.
Record RateLimiter := mkLimiter { state : gmap IpAddr TokenBucket; max_tokens : Z; refill_rate : spec_float }.

Definition new (max_tokens : Z) (refill_rate : spec_float) : RateLimiter := mkLimiter ∅ max_tokens refill_rate.

(** [Duration::as_secs_f64]. *)
Definition as_secs_f64 (ns : Z) : spec_float :=
  SFadd 53 1024 (F64.of_int (ns / 1000000000)) (SFdiv 53 1024 (F64.of_int (ns mod 1000000000)) (F64.of_int 1000000000)).

(** [f64::min]: the other one when one is not a number. *)
Definition fmin (a b : spec_float) : spec_float :=
  match a, b with S754_nan, _ => b | _, S754_nan => a | _, _ => if SFltb b a then b else a end.

(** [Iterator::min_by_key]: the first of the least. *)
Definition older_of (best : option (IpAddr * TokenBucket)) (x : IpAddr * TokenBucket) : option (IpAddr * TokenBucket) :=
  match best with
  | None => Some x
  | Some b => if x.2.(last_refill) <? b.2.(last_refill) then Some x else Some b
  end.
Definition min_by_key : list (IpAddr * TokenBucket) → option (IpAddr * TokenBucket) := foldl older_of None.

Definition evict (ip : IpAddr) (m : gmap IpAddr TokenBucket) : gmap IpAddr TokenBucket :=
  if (MAX_RATE_LIMIT_ENTRIES <=? size m)%nat && negb (bool_decide (is_Some (m !! ip)))
  then match min_by_key (hash_iter m) with Some (oldest, _) => delete oldest m | None => m end
  else m.

Definition check (ip : IpAddr) (now : Z) (l : RateLimiter) : RateLimiter * bool :=
  let max := F64.of_int l.(max_tokens) in
  let m := evict ip l.(state) in
  let bucket := default (mkBucket max now) (m !! ip) in
  let elapsed := as_secs_f64 (saturating_sub now bucket.(last_refill)) in
  let t := fmin (SFadd 53 1024 bucket.(tokens) (F64.mul elapsed l.(refill_rate))) max in
  let '(t, allowed) := if SFleb (F64.of_int 1) t then (SFsub 53 1024 t (F64.of_int 1), true) else (t, false) in
  (mkLimiter (<[ip := mkBucket t now]> m) l.(max_tokens) l.(refill_rate), allowed).

Definition cleanup (now max_age : Z) (l : RateLimiter) : RateLimiter :=
  mkLimiter (filter (λ e, saturating_sub now e.2.(last_refill) < max_age) l.(state)) l.(max_tokens) l.(refill_rate).

Inductive limiter_step : RateLimiter → RateLimiter → Prop :=
| step_check ip now l : limiter_step l (check ip now l).1
| step_cleanup now age l : limiter_step l (cleanup now age l).

Lemma older_of_fold l acc x : foldl older_of acc l = Some x → x ∈ l ∨ acc = Some x.
Proof.
  revert acc. induction l as [|y l IH]; intros acc Hf; [by right|]. cbn [foldl] in Hf. apply IH in Hf as [Hf|Hf]; [left; by right|].
  destruct acc as [b|]; cbn in Hf; [case_match|]; simplify_eq; [left; left|by right|left; left].
Qed.

Lemma min_by_key_in l x : min_by_key l = Some x → x ∈ l.
Proof. intros [|]%older_of_fold; done. Qed.

Lemma min_by_key_some l : l ≠ [] → is_Some (min_by_key l).
Proof.
  assert (Hgen : ∀ l b, is_Some (foldl older_of (Some b) l)).
  { clear l. induction l as [|y l IH]; intros b; [done|]. cbn. case_match; apply IH. }
  destruct l; [done|]. intros _. apply Hgen.
Qed.

(** The eviction makes room for a new entry. *)
Lemma evict_spec ip m :
  (size m ≤ MAX_RATE_LIMIT_ENTRIES)%nat →
  (is_Some (m !! ip) ∧ evict ip m = m) ∨ (m !! ip = None ∧ (size (evict ip m) < MAX_RATE_LIMIT_ENTRIES)%nat ∧ evict ip m ⊆ m).
Proof.
  intros Hs. unfold evict. destruct (m !! ip) as [b|] eqn:Hm; [left; by rewrite bool_decide_true, andb_false_r|right].
  split; [done|]. rewrite bool_decide_false by (by intros []). cbn [negb]. rewrite andb_true_r.
  destruct (Nat.leb_spec MAX_RATE_LIMIT_ENTRIES (size m)) as [Hfull|Hroom]; [|done].
  destruct (min_by_key_some (hash_iter m)) as [[oldest o] Ho].
  { intros E. pose proof (hash_iter_perm _ _ m) as Hp. rewrite E in Hp.
    apply Permutation_length in Hp. rewrite length_map_to_list in Hp. unfold MAX_RATE_LIMIT_ENTRIES in *. cbn in Hp. lia. }
  rewrite Ho. apply min_by_key_in in Ho. rewrite hash_iter_perm, elem_of_map_to_list in Ho.
  split; [|apply delete_subseteq]. rewrite map_size_delete_Some by by eexists. unfold MAX_RATE_LIMIT_ENTRIES in *. lia.
Qed.

Lemma check_size ip now l :
  (size l.(state) ≤ MAX_RATE_LIMIT_ENTRIES)%nat → (size (check ip now l).1.(state) ≤ MAX_RATE_LIMIT_ENTRIES)%nat.
Proof.
  intros Hs. unfold check. case_match. cbn [fst state]. destruct (evict_spec ip l.(state) Hs) as [[Hm ->]|(Hm & Hlt & _)].
  - by rewrite map_size_insert_Some.
  - rewrite map_size_insert. destruct (evict ip l.(state) !! ip); [by apply Nat.lt_le_incl|exact Hlt].
Qed.

(** However many addresses ask, the limiter tracks at most
    [MAX_RATE_LIMIT_ENTRIES], and a request of one address changes the bucket of
    another only by evicting it, when the limiter is full and the address is
    new. *)
Theorem limiter_bounded (l : RateLimiter) (n : Z) (rate : spec_float) :
  rtc limiter_step (new n rate) l →
  (size l.(state) ≤ MAX_RATE_LIMIT_ENTRIES)%nat ∧
  ∀ ip now ip', ip' ≠ ip → (check ip now l).1.(state) !! ip' = l.(state) !! ip' ∨
    ((check ip now l).1.(state) !! ip' = None ∧ l.(state) !! ip = None ∧ size l.(state) = MAX_RATE_LIMIT_ENTRIES).
Proof.
  intros Hr. assert (Hs : (size l.(state) ≤ MAX_RATE_LIMIT_ENTRIES)%nat).
  { remember (new n rate) as l0 eqn:E0. assert (Hl0 : (size l0.(state) ≤ MAX_RATE_LIMIT_ENTRIES)%nat)
      by (subst l0; cbn [state new]; rewrite map_size_empty; lia).
    clear E0. induction Hr as [|l0 l1 l2 Hstep _ IH]; [done|]. apply IH. destruct Hstep; [by apply check_size|].
    cbn [state cleanup]. etrans; [|exact Hl0]. apply map_subseteq_size, map_filter_subseteq. }
  split; [done|]. intros ip now ip' Hne. unfold check. case_match. cbn [fst state]. rewrite lookup_insert_ne by done.
  clear -Hs. unfold evict. destruct (Nat.leb_spec MAX_RATE_LIMIT_ENTRIES (size l.(state))) as [Hfull|]; [|by left].
  case_bool_decide as Hip; [by left|]. cbn [andb negb]. destruct (min_by_key _) as [[oldest o]|]; [|by left].
  destruct (decide (oldest = ip')) as [->|]; [right|left; by apply lookup_delete_ne].
  rewrite lookup_delete_eq. split_and!; [done|by apply eq_None_not_Some|]. by apply Nat.le_antisymm.
Qed.
End limiter.
End RateLimiter.

(** ** Requests and responses *)

Module JsonRpc.

Inductive Number := PosInt (n : Z) | NegInt (n : Z) | Float (x : spec_float).
Inductive Value :=
| Null
| VBool (b : bool)
| VNumber (n : Number)
| VString (s : string)
| VArray (l : list Value)
| VObject (fields : list (string * Value)).

Definition as_str (v : Value) : option string := match v with VString s => Some s | _ => None end.
Definition as_bool (v : Value) : option bool := match v with VBool b => Some b | _ => None end.
Definition as_u64 (n : Number) : option Z := match n with PosInt n => Some n | _ => None end.
Definition num (n : Z) : Value := VNumber (PosInt n).
(** [v[key]], [Null] when there is no such field. *)
Definition field (key : string) (v : Value) : Value :=
  match v with VObject fs => default Null ((λ x, x.2.2) <$> list_find (λ f, f.1 = key) fs) | _ => Null end.

Record JsonRpcRequest := mkRequest { req_jsonrpc : string; method : string; params : list Value; req_id : Value }.
Record JsonRpcError := mkRpcError { code : Z; message : error }.
Record JsonRpcResponse := mkResponse { jsonrpc : string; rpc_result : option Value; rpc_error : option JsonRpcError; resp_id : Value }.

Record RpcTransferRequest := mkTransferRequest {
  nonce : Z; tr_sender : string; sender_public_key : string; tr_recipient : string; amount : Value; tr_fee : Value;
  tr_gas_limit : Z; tr_memo : option string; tr_reads : list string; tr_writes : list string; tr_signature : string }.

(** The [hex] crate, the derived [serde] conversions, and [bincode] of a
    transfer payload. *)
Class RpcEnv := {
  hex_encode : list Z → string;
  hex_decode : string → option (list Z);
  transfer_from_value : Value → option RpcTransferRequest;
  value_of_block : option Block → Value;
  value_of_receipt : option TransactionReceipt → Value;
  value_of_account : Account → Value;
  ser_transfer : TransferPayload → list Z;
  hex_roundtrip : ∀ bs, is_bytes bs → hex_decode (hex_encode bs) = Some bs;
  hex_no_prefix : ∀ bs s, hex_encode bs ≠ String "0"%char (String "x"%char s)
}.

(** What the server asks of a node. Shared references: a method that changes
    the node does so behind a lock. *)
Class RpcBackend (S : Type) := {
  send_raw_transaction : list Z → M S error H256;
  get_block_by_number : Z → bool → S → result error (option Block);
  get_block_by_hash : H256 → bool → S → result error (option Block);
  get_transaction_receipt : H256 → S → result error (option TransactionReceipt);
  get_state_root : option string → S → result error H256;
  get_account : Address → option string → S → result error (option Value);
  get_slot_number : S → result error Z;
  get_finalized_slot : S → result error Z;
  get_latest_block_slot : S → result error (option Z);
  get_peer_count : S → result error Z;
  get_sync_status : S → result error Value;
  allows_airdrop : S → bool;
  request_airdrop : Address → Z → M S error unit
}.

Definition invalid_params (m : string) : JsonRpcError := mkRpcError (-32602) (Msg m).
Definition server_error (m : string) : JsonRpcError := mkRpcError (-32000) (Msg m).

(** [backend.f(..).map_err(..)?]. *)
Definition call {S A} (m : string) (f : M S error A) : M S JsonRpcError A :=
  λ s, let '(s', r) := f s in (s', map_err (λ _, server_error m) r).
Definition query {S A} (m : string) (f : S → result error A) : M S JsonRpcError A :=
  λ s, (s, map_err (λ _, server_error m) (f s)).

Section handlers.
Context `{Digest, Codec, HashOrder, RpcEnv} {S : Type} `{!RpcBackend S}.
Abbreviation Rpc := (M S JsonRpcError).

(** [trim_start_matches("0x")]. *)
Fixpoint trim_0x (s : string) : string :=
  match s with String "0"%char (String "x"%char rest) => trim_0x rest | _ => s end.

Definition hex_string (bs : list Z) : Value := VString ("0x" +:+ hex_encode bs).

Definition parse_hex_bytes (v : string) (m : string) : result JsonRpcError (list Z) :=
  ok_or (hex_decode (trim_0x v)) (invalid_params m).

(** [Address::from_slice] and [H256::from_slice]. *)
Definition from_slice (n : nat) (bs : list Z) : option N :=
  if (length bs =? n)%nat then Some (Z.to_N (from_le_bytes (reverse bs))) else None.

Definition parse_address (v : string) : result JsonRpcError Address :=
  bs ← parse_hex_bytes v "Invalid {field} hex: {e}";
  ok_or (from_slice 20 bs) (invalid_params "Invalid {field} length: {e}").

Fixpoint parse_address_set (vs : list string) : result JsonRpcError (gset Address) :=
  match vs with
  | [] => mret ∅
  | v :: vs => a ← parse_address v; out ← parse_address_set vs; mret ({[a]} ∪ out)
  end.

Definition parse_u128_value (v : Value) : result JsonRpcError Z :=
  match v with
  | VString s => ok_or (Config.parse_uint U128_MAX (str_bytes s)) (invalid_params "Invalid {field}: {e}")
  | VNumber n => ok_or (as_u64 n) (invalid_params "Invalid {field}: expected unsigned integer")
  | _ => mthrow (invalid_params "Invalid {field}: expected string or number")
  end.

Definition parse_hash (v : Value) : result JsonRpcError H256 :=
  hash_hex ← ok_or (as_str v) (invalid_params "Invalid hash: expected 0x-prefixed 64-char hex string, got {}");
  bs ← parse_hex_bytes hash_hex "Invalid hash hex '{}': {}";
  ok_or (from_slice 32 bs) (invalid_params "Invalid hash length for '{}': {}").

(** ** Handlers *)

Definition handle_send_raw_transaction (ps : list Value) : Rpc Value :=
  p ← ok_or (head ps) (invalid_params "Missing parameter: tx_bytes");
  tx_hex ← ok_or (as_str p) (invalid_params "Invalid parameter type: expected hex string, got {}");
  tx_bytes ← ok_or (hex_decode (trim_0x tx_hex)) (invalid_params "Invalid hex: {}");
  h ← call "Transaction rejected: {}" (send_raw_transaction tx_bytes);
  mret (hex_string (as_bytes 32 h)).

(** The transaction of a transfer request. *)
Definition build_transfer (chain : Z) (p : Value) : result JsonRpcError Transaction :=
  t ← ok_or (transfer_from_value p) (invalid_params "Invalid transaction payload: {e}");
  s ← parse_address t.(tr_sender);
  pk ← parse_hex_bytes t.(sender_public_key) "Invalid {field} hex: {e}";
  sig ← parse_hex_bytes t.(tr_signature) "Invalid {field} hex: {e}";
  r ← parse_address t.(tr_recipient);
  x ← parse_u128_value t.(amount);
  f ← parse_u128_value t.(tr_fee);
  rs ← parse_address_set t.(tr_reads);
  ws ← parse_address_set t.(tr_writes);
  let rs := {[s]} ∪ rs in
  let ws := {[r]} ∪ ({[s]} ∪ ws) in
  bail_if (negb (key_address pk =? s)%N) (invalid_params "sender does not match sender_public_key");;
  let data := ser_transfer (mkTransfer r x t.(tr_memo)) in
  mret (mkTx t.(nonce) chain s pk [] [] (hash_elements rs) (hash_elements ws) (Some TRANSFER_PROGRAM_ID) data
          t.(tr_gas_limit) f sig).

Definition handle_send_transaction (chain : Z) (ps : list Value) : Rpc Value :=
  p ← ok_or (head ps) (invalid_params "Missing parameter: transaction");
  tx ← reads (λ _, build_transfer chain p);
  h ← call "Transaction rejected: {e}" (send_raw_transaction (ser_tx tx));
  mret (hex_string (as_bytes 32 h)).

Definition handle_get_block_by_number (ps : list Value) : Rpc Value :=
  match ps with
  | p0 :: p1 :: _ =>
      block_ref ← ok_or (as_str p0) (invalid_params "Invalid block reference");
      let full_tx := default false (as_bool p1) in
      n ← (if bool_decide (block_ref = "latest"%string) then
             latest ← query "Failed to get latest block slot: {}" get_latest_block_slot;
             match latest with Some slot => mret slot | None => query "Failed to get latest slot: {}" get_slot_number end
           else ok_or (Config.parse_uint U64_MAX (str_bytes block_ref)) (invalid_params "Invalid block number"));
      b ← query "Failed to get block: {}" (get_block_by_number n full_tx);
      mret (value_of_block b)
  | _ => mthrow (invalid_params "Missing parameters")
  end.

Definition handle_get_block_by_hash (ps : list Value) : Rpc Value :=
  match ps with
  | p0 :: p1 :: _ =>
      let full_tx := default false (as_bool p1) in
      h ← reads (λ _, parse_hash p0);
      b ← query "Failed to get block: {}" (get_block_by_hash h full_tx);
      mret (value_of_block b)
  | _ => mthrow (invalid_params "Missing parameters")
  end.

Definition handle_get_transaction_receipt (ps : list Value) : Rpc Value :=
  p ← ok_or (head ps) (invalid_params "Missing parameter: tx_hash");
  h ← reads (λ _, parse_hash p);
  r ← query "Failed to get receipt: {}" (get_transaction_receipt h);
  mret (value_of_receipt r).

Definition handle_get_state_root (ps : list Value) : Rpc Value :=
  let block_ref := head ps ≫= as_str in
  root ← query "Failed to get state root: {}" (get_state_root block_ref);
  mret (hex_string (as_bytes 32 root)).

Definition handle_get_account (ps : list Value) : Rpc Value :=
  p ← ok_or (head ps) (invalid_params "Missing parameter: address");
  addr_hex ← ok_or (as_str p) (invalid_params "Invalid address: expected 0x-prefixed 40-char hex string, got {}");
  bs ← ok_or (hex_decode (trim_0x addr_hex)) (invalid_params "Invalid address hex '{}': {}");
  a ← ok_or (from_slice 20 bs) (invalid_params "Invalid address length for '{}': {}");
  let block_ref := ps !! 1%nat ≫= as_str in
  account ← query "Failed to get account: {}" (get_account a block_ref);
  mret (default Null account).

Definition handle_get_slot_number : Rpc Value := n ← query "Failed to get slot number: {}" get_slot_number; mret (num n).
Definition handle_get_finalized_slot : Rpc Value := n ← query "Failed to get finalized slot: {}" get_finalized_slot; mret (num n).

Definition MAX_AIRDROP : Z := 1000000000000.

Definition handle_request_airdrop (ps : list Value) : Rpc Value :=
  match ps with
  | p0 :: p1 :: _ =>
      addr_hex ← ok_or (as_str p0) (invalid_params "Invalid address: expected 0x-prefixed 40-char hex string, got {}");
      a ← reads (λ _, parse_address addr_hex);
      x ← reads (λ _, parse_u128_value p1);
      bail_if (MAX_AIRDROP <? x) (server_error "airdrop amount {} exceeds maximum {}");;
      s ← get_state;
      bail_if (negb (allows_airdrop s)) (server_error "airdrop is disabled on this network");;
      call "Airdrop failed: {}" (request_airdrop a x);;
      mret (VObject [("success"%string, VBool true)])
  | _ => mthrow (invalid_params "Missing parameters: [address, amount]")
  end.

Definition unwrap_or {A} (d : A) (r : result error A) : A := match r with Ok a => a | Err _ => d end.

(** The version of the package is a constant of the build. *)
Definition handle_health (version : string) : Rpc Value :=
  s ← get_state;
  let slot := unwrap_or 0 (get_slot_number s) in
  let finalized := unwrap_or 0 (get_finalized_slot s) in
  let peers := unwrap_or 0 (get_peer_count s) in
  let sync := unwrap_or (VObject [("syncing"%string, VBool false)]) (get_sync_status s) in
  let status := if bool_decide (as_bool (field "syncing" sync) = Some true) then "syncing"%string else "ok"%string in
  mret (VObject [("status", VString status); ("version", VString version); ("latestSlot", num slot);
                 ("finalizedSlot", num finalized); ("peerCount", num peers); ("sync", sync)]%string).

(** [format!("0x{:x}")] of a [u64]. *)
Definition hex_char (d : Z) : ascii := ascii_of_nat (Z.to_nat (if d <? 10 then 48 + d else 87 + d)).
Fixpoint hex_digits (fuel : nat) (n : Z) (acc : string) : string :=
  match fuel with
  | O => acc
  | Datatypes.S fuel => let acc := String (hex_char (n mod 16)) acc in if n <? 16 then acc else hex_digits fuel (n / 16) acc
  end.
Definition hex_of (n : Z) : string := "0x" +:+ hex_digits 16 n "".

(** ** Dispatch *)

Definition dispatch (version : string) (chain : Z) (req : JsonRpcRequest) : Rpc Value :=
  let ps := req.(params) in
  let named name := bool_decide (req.(method) = name) in
  if named "aeth_sendRawTransaction" then handle_send_raw_transaction ps
  else if named "aeth_sendTransaction" then handle_send_transaction chain ps
  else if named "aeth_chainId" then mret (VString (hex_of chain))
  else if named "aeth_getBlockByNumber" then handle_get_block_by_number ps
  else if named "aeth_getBlockByHash" then handle_get_block_by_hash ps
  else if named "aeth_getTransactionReceipt" then handle_get_transaction_receipt ps
  else if named "aeth_getStateRoot" then handle_get_state_root ps
  else if named "aeth_getAccount" then handle_get_account ps
  else if named "aeth_getSlotNumber" then handle_get_slot_number
  else if named "aeth_getFinalizedSlot" then handle_get_finalized_slot
  else if named "aeth_requestAirdrop" then handle_request_airdrop ps
  else if named "aeth_health" then handle_health version
  else mthrow (mkRpcError (-32601) (Msg "Method not found: {}")).

Definition process_rpc_request (version : string) (chain : Z) (req : JsonRpcRequest) (s : S) : S * JsonRpcResponse :=
  match dispatch version chain req s with
  | (s', Ok v) => (s', mkResponse "2.0" (Some v) None req.(req_id))
  | (s', Err e) => (s', mkResponse "2.0" None (Some e) req.(req_id))
  end.


(** ** What a request can do *)

Definition rpc_code (e : JsonRpcError) : Prop := e.(code) ∈ [-32601; -32602; -32000].

(** [outcome R m s]: [m] at [s] relates the states by [R], and its error has a
    code of the protocol. *)
Definition outcome (R : S → S → Prop) {A} (m : Rpc A) (s : S) : Prop :=
  R s (m s).1 ∧ ∀ e, (m s).2 = Err e → rpc_code e.
Abbreviation pure := (outcome eq).

Lemma outcome_bind R `{!Reflexive R} {A B} (m : Rpc A) (f : A → Rpc B) s :
  pure m s → (∀ a, (m s).2 = Ok a → outcome R (f a) s) → outcome R (m ≫= f) s.
Proof.
  intros [Hs He] Hf. unfold outcome, mbind, M_bind in *. destruct (m s) as [s' [a|e]]; cbn in *; subst s'; [by apply Hf|].
  split; [done|]. intros e' [= <-]. by apply He.
Qed.

Lemma outcome_call R {A B} m (f : M S error A) (g : A → B) s :
  R s (f s).1 → outcome R (a ← call m f; mret (g a)) s.
Proof.
  intros Hr. unfold outcome, call. unfold_M. destruct (f s) as [s' [a|e]]; cbn in *; (split; [done|]); [done|].
  intros e' [= <-]. right. right. left.
Qed.

Lemma outcome_ret R `{!Reflexive R} {A} (a : A) s : outcome R (mret a) s.
Proof. split; done. Qed.
Lemma outcome_throw R `{!Reflexive R} {A} (e : JsonRpcError) s : rpc_code e → outcome R (mthrow e : Rpc A) s.
Proof. intros He. split; [done|]. by intros e' [= <-]. Qed.
Lemma pure_ok_or {A} (o : option A) e s : rpc_code e → pure (ok_or o e) s.
Proof. intros He. destruct o; [by apply outcome_ret|by apply outcome_throw]. Qed.
Lemma pure_bail b e s : rpc_code e → pure (bail_if b e) s.
Proof. intros He. destruct b; [by apply outcome_throw|by apply outcome_ret]. Qed.
Lemma pure_get s : pure get_state s.
Proof. split; done. Qed.
Lemma pure_query {A} m (f : S → result error A) s : pure (query m f) s.
Proof. split; [done|]. cbn. destruct (f s); [done|]. intros e' [= <-]. right. right. left. Qed.
Lemma pure_reads {A} (r : result JsonRpcError A) s : (∀ e, r = Err e → rpc_code e) → pure (reads (λ _, r)) s.
Proof. done. Qed.

Lemma code_invalid m : rpc_code (invalid_params m).
Proof. right. left. Qed.
Lemma code_server m : rpc_code (server_error m).
Proof. right. right. left. Qed.
End handlers.

Create HintDb rpc discriminated.
#[export] Hint Resolve outcome_ret outcome_throw pure_ok_or pure_bail pure_get pure_query pure_reads code_invalid code_server : rpc.
#[export] Hint Extern 1 (Reflexive _) => typeclasses eauto : rpc.

(** Peel the pure steps of a handler, and close a handler that is pure. *)
Ltac peel := repeat first [apply outcome_bind; [tc_solve|solve [eauto 4 with rpc]|intros ? _]].
Ltac pure_tac :=
  repeat match goal with
  | |- outcome _ (_ ≫= _) _ => apply outcome_bind; [tc_solve| |intros ? _]
  | |- outcome _ (if ?b then _ else _) _ => destruct b
  | |- outcome _ (match ?o with _ => _ end) _ => destruct o
  | _ => solve [eauto with rpc]
  end.

Section effects.
Context `{Digest, Codec, HashOrder, RpcEnv} {S : Type} `{!RpcBackend S}.
Implicit Types (s : S) (ps : list Value).

Lemma bind_code {A B} (r : result JsonRpcError A) (f : A → result JsonRpcError B) :
  (∀ e, r = Err e → rpc_code e) → (∀ a e, f a = Err e → rpc_code e) → ∀ e, (r ≫= f) = Err e → rpc_code e.
Proof. intros Hr Hf e. destruct r; [apply Hf|]. intros [= <-]. by apply Hr. Qed.
Lemma ok_or_code {A} (o : option A) m e : (ok_or o (invalid_params m) : result JsonRpcError A) = Err e → rpc_code e.
Proof. destruct o; [done|]. intros [= <-]. auto with rpc. Qed.

Lemma parse_address_code v e : parse_address v = Err e → rpc_code e.
Proof. apply bind_code; intros *; apply ok_or_code. Qed.
Lemma parse_set_code vs e : parse_address_set vs = Err e → rpc_code e.
Proof.
  revert e. induction vs as [|v vs IH]; [done|]. cbn [parse_address_set].
  apply bind_code; [apply parse_address_code|]. intros a. apply bind_code; [done|done].
Qed.
Lemma parse_u128_code v e : parse_u128_value v = Err e → rpc_code e.
Proof. destruct v; first [apply ok_or_code|intros [= <-]; auto with rpc]. Qed.
Lemma parse_hash_code v e : parse_hash v = Err e → rpc_code e.
Proof. apply bind_code; [intros ?; apply ok_or_code|]. intros ?. apply bind_code; [intros ?; apply ok_or_code|]. intros ??. apply ok_or_code. Qed.
Lemma build_transfer_code c p e : build_transfer c p = Err e → rpc_code e.
Proof.
  unfold build_transfer. revert e.
  repeat (apply bind_code;
    [intros ?; first [apply ok_or_code|apply parse_address_code|apply parse_u128_code|apply parse_set_code|
                      unfold bail_if; case_match; [intros [= <-]; auto with rpc|done]]|intros ?]).
  done.
Qed.

(** What the server may do to a node. *)
Inductive effect (chain : Z) (s : S) : S → Prop :=
| no_effect : effect chain s s
| sends_raw bs : effect chain s (send_raw_transaction bs s).1
| sends_transfer tx p : build_transfer chain p = Ok tx → effect chain s (send_raw_transaction (ser_tx tx) s).1
| airdrops a x : x ≤ MAX_AIRDROP → allows_airdrop s = true → effect chain s (request_airdrop a x s).1.

#[local] Instance effect_refl chain : Reflexive (effect chain).
Proof. constructor. Qed.

#[local] Hint Resolve parse_address_code parse_u128_code parse_hash_code build_transfer_code : rpc.

Lemma raw_outcome chain ps s : outcome (effect chain) (handle_send_raw_transaction ps) s.
Proof. unfold handle_send_raw_transaction. peel. apply outcome_call. constructor. Qed.

Lemma transfer_outcome chain ps s : outcome (effect chain) (handle_send_transaction chain ps) s.
Proof.
  unfold handle_send_transaction. apply outcome_bind; [tc_solve|eauto with rpc|intros p _].
  apply outcome_bind; [tc_solve|apply pure_reads, build_transfer_code|intros tx Ht]. apply outcome_call. eapply sends_transfer, Ht.
Qed.

Lemma airdrop_outcome chain ps s : outcome (effect chain) (handle_request_airdrop ps) s.
Proof.
  unfold handle_request_airdrop. destruct ps as [|p0 [|p1 ps]]; [by eauto with rpc..|].
  do 2 (apply outcome_bind; [tc_solve|solve [eauto 4 with rpc]|intros ? _]).
  apply outcome_bind; [tc_solve|eauto 4 with rpc|intros x _].
  apply outcome_bind; [tc_solve|apply pure_bail; auto with rpc|intros [] Hx]. apply outcome_bind; [tc_solve|apply pure_get|intros s' [= <-]].
  apply outcome_bind; [tc_solve|apply pure_bail; auto with rpc|intros [] Ha]. apply (outcome_call _ _ (request_airdrop _ _) (λ _, _)).
  unfold bail_if in Hx, Ha. destruct (Z.ltb_spec MAX_AIRDROP x) as [|Hle]; [done|]. destruct (allows_airdrop s) eqn:Hal; [|done].
  by constructor.
Qed.

Lemma read_outcome version chain req s :
  req.(method) ∉ ["aeth_sendRawTransaction"; "aeth_sendTransaction"; "aeth_requestAirdrop"]%string →
  outcome eq (dispatch version chain req) s.
Proof.
  intros Hm. apply not_elem_of_cons in Hm as [Hm1 Hm]. apply not_elem_of_cons in Hm as [Hm2 Hm].
  apply not_elem_of_cons in Hm as [Hm3 _]. unfold dispatch. rewrite (bool_decide_false _ Hm1), (bool_decide_false _ Hm2).
  repeat (case_bool_decide; [first [done|solve [eauto with rpc]|
    unfold handle_get_block_by_number, handle_get_block_by_hash, handle_get_transaction_receipt, handle_get_state_root,
      handle_get_account, handle_get_slot_number, handle_get_finalized_slot, handle_health; pure_tac]|]).
  apply outcome_throw; [tc_solve|]. left.
Qed.

Lemma dispatch_outcome version chain req s : outcome (effect chain) (dispatch version chain req) s.
Proof.
  destruct (decide (req.(method) ∈ ["aeth_sendRawTransaction"; "aeth_sendTransaction"; "aeth_requestAirdrop"]%string)) as [Hm|Hm].
  - unfold dispatch. apply elem_of_cons in Hm as [->|[->|[->|[]%not_elem_of_nil]%elem_of_cons]%elem_of_cons]; cbn -[outcome].
    + apply raw_outcome.
    + apply transfer_outcome.
    + apply airdrop_outcome.
  - destruct (read_outcome version chain req s Hm) as [Hs He]. split; [|done]. rewrite <- Hs. constructor.
Qed.

(** Every response is a well-formed reply to its request: the version of the
    protocol, the identifier of the request, and either a result or an error,
    whose code is one of the protocol's. *)
Theorem rpc_response_well_formed (version : string) (chain : Z) (req : JsonRpcRequest) (s : S) :
  let resp := (process_rpc_request version chain req s).2 in
  resp.(jsonrpc) = "2.0"%string ∧ resp.(resp_id) = req.(req_id) ∧
  ((∃ v, resp.(rpc_result) = Some v ∧ resp.(rpc_error) = None) ∨
   (∃ e, resp.(rpc_result) = None ∧ resp.(rpc_error) = Some e ∧ rpc_code e)).
Proof.
  destruct (dispatch_outcome version chain req s) as [_ He]. unfold process_rpc_request.
  destruct (dispatch version chain req s) as [s' [v|e]]; cbn in *; (split_and!; [done..|]); [left; by exists v|].
  right. exists e. split_and!; [done..|by apply He].
Qed.

(** A request changes the node only as its method says: the methods that read
    leave it as it is; the others submit bytes, or a transfer with the chain
    identifier of the server, the transfer program, the sender the public key
    stands for and both parties in its access sets, or an airdrop of at most the
    maximum where airdrops are allowed. *)
Theorem rpc_effects (version : string) (chain : Z) (req : JsonRpcRequest) (s : S) :
  let s' := (process_rpc_request version chain req s).1 in
  (req.(method) ∉ ["aeth_sendRawTransaction"; "aeth_sendTransaction"; "aeth_requestAirdrop"]%string → s' = s) ∧
  effect chain s s' ∧
  ∀ p tx, build_transfer chain p = Ok tx →
    tx.(Transaction.chain_id) = chain ∧ tx.(program_id) = Some TRANSFER_PROGRAM_ID ∧ key_address tx.(sender_pubkey) = tx.(sender) ∧
    tx.(sender) ∈ tx.(tx_reads) ∧ tx.(sender) ∈ tx.(tx_writes) ∧
    ∃ r x m, tx.(data) = ser_transfer (mkTransfer r x m) ∧ r ∈ tx.(tx_writes).
Proof.
  assert (Hst : (process_rpc_request version chain req s).1 = (dispatch version chain req s).1).
  { unfold process_rpc_request. by destruct (dispatch version chain req s) as [s' [v|e]]. }
  cbn zeta. rewrite Hst. split; [|split].
  - intros Hm. symmetry. apply (read_outcome version chain req s Hm).
  - apply dispatch_outcome.
  - intros p tx Hb. unfold build_transfer in Hb. res_inv. cbn [Transaction.chain_id program_id sender_pubkey sender tx_reads tx_writes data].
    rewrite !elem_of_hash_elements. split_and!; [done|done|done|set_solver..|].
    eexists _, _, _. split; [done|]. rewrite elem_of_hash_elements. set_solver.
Qed.

End effects.
End JsonRpc.

(** ** The node behind the server *)

Module NodeRpc.
Import JsonRpc.

(** [JsonRpcServer::new]: the chain identifier the node starts the server with. *)
Definition DEFAULT_CHAIN_ID : Z := 1.

Section backend.
Context `{Digest, Codec, Dalek, HashOrder, HeapOrder, Blst, BlockCodec, NodeCodec, RocksDb, RpcEnv}.
Context {E : Type} `{!Finality E, !ConsensusEngine E} (clk : Node.Clock).

(** The shared node, with the name of its chain. The lock is poisoned only by
    a panic, which is left out. *)
Record NodeRpcBackend := mkNodeRpc { node : Node.Node (E := E); chain_name : string }.

Definition on_node {A} (m : M (Node.Node (E := E)) error A) : M NodeRpcBackend error A :=
  λ b, let '(n, r) := m b.(node) in (mkNodeRpc n b.(chain_name), r).

Definition node_send_raw_transaction (bs : list Z) : M NodeRpcBackend error H256 :=
  tx ← reads (λ _, map_err (λ _, Msg "failed to decode transaction bytes") (de_tx bs));
  on_node (Node.submit_transaction clk tx).

Definition node_get_account (a : Address) (b : NodeRpcBackend) : result error (option Value) :=
  acc ← (Ledger.get_account b.(node).(Node.ledger) a : result error (option Account));
  mret (option_map value_of_account acc).

Definition node_sync_status (b : NodeRpcBackend) : Value :=
  VObject [("syncing", VBool (Sync.is_syncing b.(node).(Node.sync_manager)));
           ("currentSlot", num (current_slot b.(node).(Node.consensus)));
           ("finalizedSlot", num (finalized_slot b.(node).(Node.consensus)))]%string.

(** [Node::allows_airdrop] and [Node::seed_account]. *)
Definition node_allows_airdrop (b : NodeRpcBackend) : bool :=
  bool_decide (b.(chain_name) ∈ ["aether-dev-1"; "aether-testnet-1"]%string).
Definition node_request_airdrop (a : Address) (x : Z) : M NodeRpcBackend error unit :=
  on_node (Node.on_ledger (Ledger.seed_account a x)).

#[export] Instance node_backend : RpcBackend NodeRpcBackend := {
  send_raw_transaction := node_send_raw_transaction;
  get_block_by_number n _ b := Ok (Node.get_block_by_slot b.(node) n);
  get_block_by_hash h _ b := Ok (Node.get_block_by_hash b.(node) h);
  get_transaction_receipt h b := Ok (Node.get_transaction_receipt b.(node) h);
  get_state_root _ b := Ok (Ledger.state_root b.(node).(Node.ledger));
  get_account a _ b := node_get_account a b;
  get_slot_number b := Ok (current_slot b.(node).(Node.consensus));
  get_finalized_slot b := Ok (finalized_slot b.(node).(Node.consensus));
  get_latest_block_slot b := Ok b.(node).(Node.latest_block_slot);
  get_peer_count b := Ok b.(node).(Node.peer_count);
  get_sync_status b := Ok (node_sync_status b);
  allows_airdrop := node_allows_airdrop;
  request_airdrop := node_request_airdrop
}.

(** ** Hashes in requests *)

Lemma trim_hex bs : trim_0x ("0x" +:+ hex_encode bs) = hex_encode bs.
Proof.
  change ("0x" +:+ hex_encode bs)%string with (String "0"%char (String "x"%char (hex_encode bs))). cbn [trim_0x].
  destruct (hex_encode bs) as [|a [|b s]] eqn:He; [done|by destruct a as [[][][][][][][][]]|].
  pose proof (hex_no_prefix bs s) as Hn. rewrite He in Hn.
  destruct a as [[][][][][][][][]]; try done; destruct b as [[][][][][][][][]]; done.
Qed.

(** The hash a submission returns is accepted by the methods that look up by
    hash, as the same hash: what the server prints it reads back. *)
Theorem printed_hash_read_back (h : H256) :
  (h < 2 ^ 256)%N → parse_hash (hex_string (as_bytes 32 h)) = Ok h.
Proof.
  intros Hh. unfold parse_hash, hex_string, parse_hex_bytes. cbn [as_str]. unfold_M. rewrite trim_hex.
  rewrite hex_roundtrip by apply as_bytes_bytes. unfold from_slice. rewrite length_as_bytes. cbn [Nat.eqb].
  f_equal. by apply (HybridNode.as_bytes_roundtrip h).
Qed.

(** ** Airdrops *)

(** An airdrop replaces the account: on a development chain, the request is
    answered with success and the ledger then holds, whatever the account was, one
    with the amount as its balance and a nonce of zero. *)
Theorem airdrop_replaces_account (version : string) (chain : Z) (id : Value) (addr : string) (a : Address) (x : Z)
    (b : NodeRpcBackend) (σ : LState) :
  ledger_inv b.(node).(Node.ledger) σ → node_allows_airdrop b = true →
  parse_address addr = Ok a → (a < 2 ^ 160)%N → 0 ≤ x ≤ MAX_AIRDROP →
  let req := mkRequest "2.0" "aeth_requestAirdrop" [VString addr; num x] id in
  let '(b', resp) := process_rpc_request version chain req b in
  resp.(rpc_error) = None ∧ ledger_inv b'.(node).(Node.ledger) (put_acct (with_balance a x) σ).
Proof.
  intros Hl Hal Ha Hr Hx req.
  destruct (seed_refines a x b.(node).(Node.ledger) σ Hl Hr) as (l' & Hs & Hl'); [unfold MAX_AIRDROP in *; ulia|].
  unfold process_rpc_request. change (dispatch version chain req b) with (handle_request_airdrop [VString addr; num x] b).
  unfold handle_request_airdrop, parse_u128_value, num, call. cbn [as_str as_u64]. unfold_M. rewrite Ha.
  rewrite (proj2 (Z.ltb_ge MAX_AIRDROP x)) by lia. cbn [allows_airdrop request_airdrop node_backend]. rewrite Hal. cbn [negb].
  unfold node_request_airdrop, on_node, Node.on_ledger. rewrite Hs. cbn. done.
Qed.

(** ** Transfers *)

Lemma refused_chain now t (p : Mempool.Mempool) :
  p.(Mempool.expected_chain_id) ∉ [0; t.(Transaction.chain_id)] → ∃ e, Mempool.add_transaction now t p = (p, Err e).
Proof.
  intros Hp. apply not_elem_of_cons in Hp as [H0' Hp]. apply not_elem_of_cons in Hp as [Hc _].
  unfold Mempool.add_transaction, Mempool.admissible. unfold_M.
  rewrite (proj2 (Z.eqb_neq _ _) H0'), (proj2 (Z.eqb_neq _ _) (not_eq_sym Hc)). cbn. eauto.
Qed.

(** C39: The server a node starts stamps transfers with chain 1. On a node whose
    mempool expects any chain but 1 and 0, the development and test chains
    among them, every transfer request is refused and changes nothing, when the
    encoding of a transaction carries its chain identifier. (A mempool that
    expects chain 0 does not check the identifier.) *)
Theorem transfers_refused_off_mainnet (version : string) (id : Value) (ps : list Value) (b : NodeRpcBackend) :
  (∀ t t', de_tx (ser_tx t) = Ok t' → t'.(Transaction.chain_id) = t.(Transaction.chain_id)) →
  b.(node).(Node.mempool).(Mempool.expected_chain_id) ∉ [0; DEFAULT_CHAIN_ID] →
  let '(b', resp) := process_rpc_request version DEFAULT_CHAIN_ID (mkRequest "2.0" "aeth_sendTransaction" ps id) b in
  b' = b ∧ resp.(rpc_result) = None ∧ is_Some resp.(rpc_error).
Proof.
  intros Hcodec Hchain. set (req := mkRequest _ _ _ _). unfold process_rpc_request.
  change (dispatch version DEFAULT_CHAIN_ID req b) with (handle_send_transaction DEFAULT_CHAIN_ID ps b).
  unfold handle_send_transaction, call. unfold_M. destruct (head ps) as [p|]; [|done].
  destruct (build_transfer DEFAULT_CHAIN_ID p) as [tx|] eqn:Htx; [|done].
  assert (Hid : tx.(Transaction.chain_id) = DEFAULT_CHAIN_ID) by (unfold build_transfer in Htx; res_inv; done).
  cbn [send_raw_transaction node_backend]. unfold node_send_raw_transaction, on_node, Node.submit_transaction. unfold_M.
  destruct (de_tx (ser_tx tx)) as [t|] eqn:Ht; cbn [map_err]; [|done]. apply Hcodec in Ht. rewrite Hid in Ht.
  destruct (refused_chain (Node.now_ns clk) t b.(node).(Node.mempool)) as [e He]; [by rewrite Ht|].
  rewrite He. destruct b as [[] c]. done.
Qed.
End backend.
End NodeRpc.

(** ** A node of the development chain *)

From S2P Require Import Toy.
From S2P Require Import ToyBlock.
From S2P Require Import NodeDemo.

Module RpcDemo.
Import JsonRpc NodeRpc.

Definition string_of (bs : list Z) : string := String.string_of_list_ascii ((λ b, ascii_of_N (Z.to_N b)) <$> bs).

Lemma str_bytes_of bs : is_bytes bs → str_bytes (string_of bs) = bs.
Proof.
  intros Hb. unfold str_bytes, string_of. rewrite String.list_ascii_of_string_of_list_ascii, <- list_fmap_compose.
  induction Hb as [|b bs Hb _ IH]; [done|]. cbn [fmap list_fmap]. f_equal; [|exact IH]. cbn. rewrite N_ascii_embedding; lia.
Qed.

Fixpoint hex_pairs (l : list Z) : option (list Z) :=
  match l with
  | [] => Some []
  | [_] => None
  | a :: b :: rest =>
      x ← HybridNode.digit_value a; y ← HybridNode.digit_value b; r ← hex_pairs rest; Some (16 * x + y :: r)
  end.

Lemma div_range b : 0 ≤ b < 256 → 0 ≤ b / 16 < 16.
Proof. split; [apply Z.div_pos; lia|apply Z.div_lt_upper_bound; lia]. Qed.
Lemma mod_range b : 0 ≤ b mod 16 < 16.
Proof. apply Z.mod_pos_bound. lia. Qed.

Lemma hex_digit_range d : 0 ≤ d < 16 → 0 ≤ HybridNode.hex_digit d < 120.
Proof. unfold HybridNode.hex_digit. case_match; clean_ints; lia. Qed.

Lemma to_hex_cons b bs :
  HybridNode.to_hex (b :: bs) = HybridNode.hex_digit (b / 16) :: HybridNode.hex_digit (b mod 16) :: HybridNode.to_hex bs.
Proof. done. Qed.

Lemma hex_pairs_spec bs : is_bytes bs → hex_pairs (HybridNode.to_hex bs) = Some bs ∧ is_bytes (HybridNode.to_hex bs).
Proof.
  induction 1 as [|b bs Hb _ [IH1 IH2]]; [by split; [|constructor]|]. rewrite to_hex_cons.
  pose proof (div_range b Hb) as Hd. pose proof (mod_range b) as Hm.
  pose proof (hex_digit_range _ Hd). pose proof (hex_digit_range _ Hm). split; [|constructor; [lia|constructor; [lia|done]]].
  cbn [hex_pairs]. destruct (HybridNode.hex_digit_value _ Hd) as [-> _]. destruct (HybridNode.hex_digit_value _ Hm) as [-> _].
  rewrite IH1. cbn. f_equal. f_equal. pose proof (Z.div_mod b 16). lia.
Qed.

(** The fields of a transfer; the lists of addresses are empty. *)
Definition toy_transfer (v : Value) : option RpcTransferRequest :=
  s ← as_str (field "sender" v); pk ← as_str (field "senderPublicKey" v); r ← as_str (field "recipient" v);
  sig ← as_str (field "signature" v);
  Some (mkTransferRequest 0 s pk r (field "amount" v) (field "fee" v) 21000 None [] [] sig).

Lemma hex_not_prefixed bs s : string_of (HybridNode.to_hex bs) ≠ String "0"%char (String "x"%char s).
Proof.
  destruct bs as [|b bs]; [done|]. rewrite to_hex_cons. intros [= _ E _]. pose proof (hex_digit_range _ (mod_range b)) as Hr.
  apply (f_equal N_of_ascii) in E. rewrite N_ascii_embedding in E by lia. cbn in E. lia.
Qed.

#[global] Program Instance toy_rpc : RpcEnv := {
  hex_encode bs := string_of (HybridNode.to_hex bs);
  hex_decode s := hex_pairs (str_bytes s);
  transfer_from_value := toy_transfer;
  value_of_block _ := Null;
  value_of_receipt _ := Null;
  value_of_account a := num a.(balance);
  ser_transfer := toy_ser
}.
Next Obligation. intros bs Hb. destruct (hex_pairs_spec bs Hb) as [E Hh]. by rewrite str_bytes_of. Qed.
Next Obligation. intros. apply hex_not_prefixed. Qed.

Lemma printed_hash_read_back_witness : parse_hash (VString "0x000000000000000000000000000000000000000000000000000000000000002a") = Ok 42%N.
Proof. rewrite <- (printed_hash_read_back 42) by lia. vm_compute. reflexivity. Defined.

Definition demo_node : Node.Node (E := Simple.SimpleConsensus) := NodeDemo.fresh LedgerDemo.ledger1 1 2.
Definition demo_backend : NodeRpcBackend := mkNodeRpc demo_node "aether-dev-1".

Lemma limiter_bounded_witness :
  (size (RateLimiter.check 7 5 (RateLimiter.new 100 (F64.of_int 50))).1.(RateLimiter.state) ≤ RateLimiter.MAX_RATE_LIMIT_ENTRIES)%nat.
Proof.
  apply (RateLimiter.limiter_bounded _ 100 (F64.of_int 50)). apply rtc_once. apply RateLimiter.step_check.
Defined.

#[local] Instance demo_rpc : RpcBackend NodeRpcBackend := node_backend (NodeDemo.at_secs 100).

Definition demo_address : string := "0x0000000000000000000000000000000000000007".

Lemma airdrop_replaces_account_witness : ∃ b resp,
  process_rpc_request "0" 1 (mkRequest "2.0" "aeth_requestAirdrop" [VString demo_address; num 500] Null) demo_backend = (b, resp) ∧
  ledger_inv b.(node).(Node.ledger) (put_acct (with_balance 7 500) LedgerDemo.state1).
Proof.
  pose proof (airdrop_replaces_account (NodeDemo.at_secs 100) "0" 1 Null demo_address 7 500 demo_backend LedgerDemo.state1
    LedgerDemo.ledger1_inv eq_refl) as Ha.
  cbv zeta in Ha. destruct (process_rpc_request _ _ _ _) as [b resp]. exists b, resp. split; [done|].
  apply Ha; [by vm_compute|lia|unfold MAX_AIRDROP; lia].
Defined.

(** A node of chain 900, and a decoder that reads the nonce, the chain and the
    sender back. *)
Definition dev_pool : Mempool.Mempool := Mempool.new (mkFeeParams 1 1 1) 900.
Definition dev_backend : NodeRpcBackend := mkNodeRpc (Node.set_mempool dev_pool demo_node) "aether-dev-1".

Definition head_de_tx (bs : list Z) : result error Transaction :=
  match bs with
  | n :: c :: s :: _ => Ok (mkTx n c (Z.to_N s) [] [] [] [] [] None [] 0 0 [])
  | _ => Err (Msg "decode")
  end.

Definition head_codec : NodeCodec :=
  {| ser_staking := ser_staking; de_staking := de_staking; ser_status := ser_status; ser_logs := ser_logs; de_vote := de_vote;
     de_tx := head_de_tx; de_sync := de_sync; de_ser_staking := de_ser_staking |}.

Definition dev_rpc : RpcBackend NodeRpcBackend := node_backend (H6 := head_codec) (NodeDemo.at_secs 100).

Definition demo_transfer : Value :=
  VObject [("sender", hex_string (as_bytes 20 LedgerDemo.addr_a)); ("senderPublicKey", hex_string LedgerDemo.key_a);
           ("recipient", VString demo_address); ("amount", num 5); ("fee", num 5000); ("signature", hex_string [1; 2])]%string.

Lemma transfers_refused_off_mainnet_witness : is_ok (build_transfer DEFAULT_CHAIN_ID demo_transfer) = true ∧ ∃ b resp,
  process_rpc_request (RpcBackend0 := dev_rpc) "0" DEFAULT_CHAIN_ID
    (mkRequest "2.0" "aeth_sendTransaction" [demo_transfer] Null) dev_backend = (b, resp) ∧ b = dev_backend ∧ is_Some resp.(rpc_error).
Proof.
  split; [vm_compute; reflexivity|].
  pose proof (transfers_refused_off_mainnet (H6 := head_codec) (NodeDemo.at_secs 100) "0" Null [demo_transfer] dev_backend) as Ht.
  fold dev_rpc in Ht. destruct (process_rpc_request _ _ _ _) as [b resp]. exists b, resp. split; [done|].
  destruct Ht as (Hb & _ & He).
  - intros t t' E. cbn in E. by injection E as <-.
  - apply (bool_decide_unpack _). vm_compute. exact I.
  - by split.
Defined.
End RpcDemo.
