(* ===== verification/NodeMain.v ===== *)
(** * The running node

    [crates/node/src/main.rs]: the start of a node, the slot loop, the loop
    between the node and the network, and the server, which share the node behind
    a lock. The slot loop takes the lock twice per turn, once for the network
    events and once for the tick; its events, its release and its tick are
    separate steps on the state of the program, and the theorems are about every
    interleaving of them with the other tasks. The network itself is
    [P2pNetwork], the server [JsonRpc]. The environment, files and signals are
    left out; the wait of a slot and the end of the tasks show only as which
    steps follow which. *)

From S2P Require Import Prelude.
From S2P Require Import Transaction.
From S2P Require Import Storage.
From S2P Require Import Ledger.
From S2P Require Import Bls.
From S2P Require Import Consensus.
From S2P Require Import Slashing.
From S2P Require Import Mempool.
From S2P Require Import Block.
From S2P Require Import Engine.
From S2P Require Import Node.
From S2P Require Import NodeSafety.
From S2P Require Import P2pNetwork.
From S2P Require Import JsonRpc.

#[local] Open Scope Z_scope.

Module NodeMain.
Import Node NodeSafety JsonRpc NodeRpc.

Definition MAX_EVENTS_PER_TICK : nat := Z.to_nat 256.
Definition P2P_OUTBOUND_CAPACITY : Z := 4096.
Definition P2P_INBOUND_CAPACITY : nat := Z.to_nat 4096.

(** [bincode] of what the network loop sends. *)
Class MainCodec := { ser_vote : Vote → bytes; ser_sync : Z → Z → bytes }.

Section main.
Context `{Digest, Codec, Dalek, HashOrder, HeapOrder, Blst, BlockCodec, NodeCodec, RocksDb, RpcEnv, MainCodec}.
Context {E : Type} `{!Finality E, !ConsensusEngine E}.

(** Where the slot loop is: before it looks at the signal, holding the lock of
    the node after some events, or before it takes the lock again to tick. *)
Inductive SlotLoop := Idle | Draining (processed : nat) | Ticking.

(** The program: the shared node, the channel of network events, what was
    published, the counts of the warnings, whether the tasks stop, and where
    the slot loop is. *)
Record Program := mkProgram {
  backend : NodeRpcBackend (E := E);
  inbound : list NetworkEvent;
  published : list (string * bytes);
  inbound_drops : Z;
  inbound_event_drops : Z;
  stopping : bool;
  slot_loop : SlotLoop
}.

(** ** Start *)

Definition start (db : DB) (engine : E) (key : option PublicKey) (bls : option Bls.BlsKeypair) (cfg : ChainConfig)
    (validator : Address) (name : string) : result error Program :=
  n ← Node.new db engine key bls cfg;
  existing ← (Ledger.get_account n.(ledger) validator : result error (option Account));
  n ← match existing with
      | None => match on_ledger (Ledger.seed_account validator cfg.(swr_initial_supply)) n with
                | (n, Ok _) => mret n
                | (_, Err e) => mthrow e
                end
      | Some _ => mret n
      end;
  mret (mkProgram (mkNodeRpc (set_broadcast_tx (Some (mkChannel P2P_OUTBOUND_CAPACITY [] false)) n) name) [] [] 0 0 false Idle).

(** ** The slot loop *)

(** The loop takes the lock of the node. *)
Definition slot_begin (p : Program) : Program :=
  mkProgram p.(backend) p.(inbound) p.(published) p.(inbound_drops) p.(inbound_event_drops) p.(stopping) (Draining 0).

(** It handles the next event, the [processed]-th of this turn. *)
Definition slot_event (clk : Clock) (processed : nat) (e : NetworkEvent) (rest : list NetworkEvent) (p : Program) : Program :=
  mkProgram (mkNodeRpc (handle_network_event clk e p.(backend).(node)) p.(backend).(chain_name)) rest p.(published)
    p.(inbound_drops) p.(inbound_event_drops) p.(stopping) (Draining (S processed)).

(** It releases the lock. *)
Definition slot_release (processed : nat) (p : Program) : Program :=
  mkProgram p.(backend) p.(inbound) p.(published)
    (if (processed =? MAX_EVENTS_PER_TICK)%nat then wrapping_add U64_MAX p.(inbound_drops) 1 else p.(inbound_drops))
    p.(inbound_event_drops) p.(stopping) Ticking.

(** It takes the lock for the tick; an error ends the loop, and the program with it. *)
Definition slot_tick (now : Clock) (p : Program) : Program * result error unit :=
  let '(n, r) := tick now p.(backend).(node) in
  (mkProgram (mkNodeRpc n p.(backend).(chain_name)) p.(inbound) p.(published) p.(inbound_drops) p.(inbound_event_drops)
     (match r with Ok _ => p.(stopping) | Err _ => true end) Idle, r).

(** ** The network loop *)

Definition receive_event (e : NetworkEvent) (p : Program) : Program :=
  if (length p.(inbound) <? P2P_INBOUND_CAPACITY)%nat
  then mkProgram p.(backend) (p.(inbound) ++ [e]) p.(published) p.(inbound_drops) p.(inbound_event_drops) p.(stopping) p.(slot_loop)
  else mkProgram p.(backend) p.(inbound) p.(published) p.(inbound_drops) (wrapping_add U64_MAX p.(inbound_event_drops) 1) p.(stopping) p.(slot_loop).

Definition outbound_data (m : OutboundMessage) : option (string * bytes) :=
  match m with
  | BroadcastBlock b => Some (Network.TOPIC_BLOCK, ser_block b)
  | BroadcastVote v => Some (Network.TOPIC_VOTE, ser_vote v)
  | BroadcastTransaction t => Some (Network.TOPIC_TX, ser_tx t)
  | RequestBlockRange from to =>
      let data := ser_sync from to in if bool_decide (data = []) then None else Some (Network.TOPIC_SYNC, data)
  end.

(** The next message of the node is taken from its channel and published;
    [outcome] is what gossipsub returns, and a failure is only logged. *)
Definition send_message (net : Network.P2PNetwork) (outcome : result error unit) (p : Program) : Program :=
  let n := p.(backend).(node) in
  match n.(broadcast_tx) with
  | Some (mkChannel cap (m :: queue) c) =>
      let sent := match outbound_data m with
                  | Some (topic, data) => if is_ok (Network.publish topic data outcome net) then [(topic, data)] else []
                  | None => []
                  end in
      mkProgram (mkNodeRpc (set_broadcast_tx (Some (mkChannel cap queue c)) n) p.(backend).(chain_name)) p.(inbound)
        (p.(published) ++ sent) p.(inbound_drops) p.(inbound_event_drops) p.(stopping) p.(slot_loop)
  | _ => p
  end.

(** ** The server *)

Definition serve (clk : Clock) (version : string) (req : JsonRpcRequest) (p : Program) : Program * JsonRpcResponse :=
  let '(b, resp) := process_rpc_request (RpcBackend0 := node_backend clk) version DEFAULT_CHAIN_ID req p.(backend) in
  (mkProgram b p.(inbound) p.(published) p.(inbound_drops) p.(inbound_event_drops) p.(stopping) p.(slot_loop), resp).

Definition stop (p : Program) : Program :=
  mkProgram p.(backend) p.(inbound) p.(published) p.(inbound_drops) p.(inbound_event_drops) true p.(slot_loop).

(** A turn of one of the tasks. The slot loop looks at the signal before it
    takes the lock; the network loop may take a turn that is ready before it
    sees the signal. The channels are not behind the lock, the server is: a
    request waits while the slot loop holds the lock, and is one turn because
    only one of its calls of the backend can write. *)
Inductive turn : Program → Program → Prop :=
| turn_begin p : p.(slot_loop) = Idle → p.(stopping) = false → turn p (slot_begin p)
| turn_event clk k e rest p :
    p.(slot_loop) = Draining k → (k < MAX_EVENTS_PER_TICK)%nat → p.(inbound) = e :: rest → turn p (slot_event clk k e rest p)
| turn_release k p :
    p.(slot_loop) = Draining k → k = MAX_EVENTS_PER_TICK ∨ p.(inbound) = [] → turn p (slot_release k p)
| turn_tick now p : p.(slot_loop) = Ticking → turn p (slot_tick now p).1
| turn_receive e p : turn p (receive_event e p)
| turn_send net outcome p : turn p (send_message net outcome p)
| turn_serve clk version req p : (∀ k, p.(slot_loop) ≠ Draining k) → turn p (serve clk version req p).1
| turn_stop p : turn p (stop p).

(** ** What a turn does to the node *)

Lemma serve_R R clk version req p : stable R → R p.(backend).(node) (serve clk version req p).1.(backend).(node).
Proof.
  intros HR. pose proof (co_preorder R (st_core R HR)). unfold serve.
  destruct (dispatch_outcome (RpcBackend0 := node_backend clk) version DEFAULT_CHAIN_ID req p.(backend)) as [He _].
  assert (Hb : (process_rpc_request (RpcBackend0 := node_backend clk) version DEFAULT_CHAIN_ID req p.(backend)).1 =
    (dispatch (RpcBackend0 := node_backend clk) version DEFAULT_CHAIN_ID req p.(backend)).1).
  { unfold process_rpc_request. by destruct (dispatch _ _ _ _) as [? []]. }
  destruct (process_rpc_request _ _ _ _) as [b resp]. cbn [fst] in Hb. cbn [fst backend]. subst b.
  assert (Hraw : ∀ bs, R p.(backend).(node) (node_send_raw_transaction clk bs p.(backend)).1.(node)).
  { intros bs. unfold node_send_raw_transaction, on_node. unfold_M. destruct (map_err _ (de_tx bs)) as [t|]; [|reflexivity].
    pose proof (node_step_stable R _ _ HR (step_submit p.(backend).(node) clk t)) as Hs. by destruct (submit_transaction _ _ _). }
  destruct He as [|bs|tx ps Htx|a x _ _]; [reflexivity|apply Hraw|apply Hraw|].
  cbn [request_airdrop node_backend]. unfold node_request_airdrop, NodeRpc.on_node.
  pose proof (on_ledger_respects R (st_core R HR) (Ledger.seed_account a x) p.(backend).(node)) as Hs.
  by destruct (Node.on_ledger _ _).
Qed.

Lemma turn_R R p p' : stable R → turn p p' → R p.(backend).(node) p'.(backend).(node).
Proof.
  intros HR Ht. pose proof (co_preorder R (st_core R HR)).
  destruct Ht as [p _ _|clk k e rest p _ _ _|k p _ _|now p _|e p|net o p|clk v req p _|p]; try reflexivity.
  - cbn. by apply node_step_stable, step_event.
  - unfold slot_tick. pose proof (node_step_stable R _ _ HR (step_tick p.(backend).(node) now)) as Hs.
    by destruct (tick now p.(backend).(node)) as [n' r].
  - unfold receive_event. case_match; reflexivity.
  - unfold send_message. destruct (broadcast_tx _) as [[cap [|m q] c]|] eqn:Hc; try reflexivity. cbn [backend node]. apply (st_broadcast_tx R HR).
  - by apply serve_R.
Qed.

Lemma run_R R p p' : stable R → rtc turn p p' → R p.(backend).(node) p'.(backend).(node).
Proof.
  intros HR Hr. pose proof (co_preorder R (st_core R HR)). induction Hr as [p|p p1 p2 Ht _ IH]; [reflexivity|].
  etransitivity; [by apply turn_R|exact IH].
Qed.

Lemma new_sent db engine key bls cfg n : Node.new (E := E) db engine key bls cfg = Ok n → n.(sent) = [].
Proof. unfold Node.new. intros Hn. res_inv. done. Qed.

Lemma start_node db engine key bls cfg a name p :
  start db engine key bls cfg a name = Ok p → p.(backend).(node).(sent) = [] ∧ p.(inbound) = [].
Proof.
  unfold start. intros Hs. res_inv. rename select (Node.new _ _ _ _ _ = _) into Hn. apply new_sent in Hn. cbn. split; [|done].
  rename select (_ = Ok _) into Hm. case_match; [by injection Hm as <-|].
  unfold on_ledger in Hm. destruct (Ledger.seed_account _ _ _) as [l [[]|e]]; [|done]. by injection Hm as <-.
Qed.

(** ** Theorems *)

Lemma sorted_slots_inj (vs : list Vote) :
  StronglySorted Z.lt (vote_slot <$> vs) → ∀ v v', v ∈ vs → v' ∈ vs → v.(vote_slot) = v'.(vote_slot) → v = v'.
Proof.
  induction vs as [|w vs IH]; intros Hs v v' Hv Hv' E'; [by apply elem_of_nil in Hv|]. inversion Hs as [|?? Hs' Hall]; subst.
  rewrite Forall_forall in Hall. assert (Hlt : ∀ u, u ∈ vs → w.(vote_slot) < u.(vote_slot)) by (intros u Hu; by apply Hall, list_elem_of_fmap_2).
  apply elem_of_cons in Hv as [->|Hv], Hv' as [->|Hv']; [done|apply Hlt in Hv'; lia|apply Hlt in Hv; lia|by apply IH].
Qed.

(** C3: A started node never votes twice in a slot, in any interleaving of its
    slot loop (which takes the lock of the node once for the network events and
    once for the tick), the network loop, the requests to its server and the
    shutdown: the votes it sends have strictly increasing slots, so no two of
    them are evidence of double signing. *)
Theorem program_votes_once (db : DB) (engine : E) (key : option PublicKey) (bls : option Bls.BlsKeypair) (cfg : ChainConfig)
    (a : Address) (name : string) (p p' : Program) :
  start db engine key bls cfg a name = Ok p → rtc turn p p' →
  let votes := own_votes p'.(backend).(node).(sent) in
  StronglySorted Z.lt (vote_slot <$> votes) ∧
  ∀ v v', v ∈ votes → v' ∈ votes → v.(vote_slot) = v'.(vote_slot) → v = v'.
Proof.
  intros Hs Hr. apply start_node in Hs as [Hs _].
  assert (Hi : vote_inv p.(backend).(node)) by (constructor; rewrite Hs; [constructor|by intros v ?%elem_of_nil]).
  destruct (run_R _ p p' vote_stable Hr Hi) as [Hsort _]. split; [done|]. by apply sorted_slots_inj.
Qed.

(** The channel of network events never holds more than its capacity, and the
    slot loop handles at most 256 events before it releases the lock, in every
    interleaving of the tasks. *)
Theorem inbound_bounded (p p' : Program) :
  rtc turn p p' → p.(slot_loop) = Idle → (length p.(inbound) ≤ P2P_INBOUND_CAPACITY)%nat →
  (length p'.(inbound) ≤ P2P_INBOUND_CAPACITY)%nat ∧ ∀ k, p'.(slot_loop) = Draining k → (k ≤ MAX_EVENTS_PER_TICK)%nat.
Proof.
  intros Hr Hi Hp. assert (Hk : ∀ k, p.(slot_loop) = Draining k → (k ≤ MAX_EVENTS_PER_TICK)%nat) by (rewrite Hi; done). clear Hi.
  induction Hr as [p|p p1 p2 Ht _ IH]; [done|].
  destruct Ht as [p _ _|clk k e rest p Hl Hlt He|k p _ _|now p _|e p|net o p|clk v req p _|p]; apply IH; clear IH; try done.
  - cbn. intros k [= <-]. apply Nat.le_0_l.
  - cbn. rewrite He in Hp. cbn in Hp. lia.
  - cbn. intros k' [= <-]. lia.
  - unfold slot_tick. by destruct (tick _ _).
  - unfold slot_tick. by destruct (tick _ _).
  - unfold receive_event. destruct (Nat.ltb_spec (length p.(inbound)) P2P_INBOUND_CAPACITY) as [Hl|]; cbn [inbound]; [|done].
    rewrite length_app, Nat.add_1_r. exact Hl.
  - unfold receive_event. by case_match.
  - unfold send_message. by repeat case_match.
  - unfold send_message. by repeat case_match.
  - unfold serve. by destruct (process_rpc_request _ _ _ _).
  - unfold serve. by destruct (process_rpc_request _ _ _ _).
Qed.
End main.
End NodeMain.

(** ** A run *)

From S2P Require Import Toy.
From S2P Require Import ToyBlock.
From S2P Require Import LedgerBlocks.
From S2P Require Import NodeDemo.

Module MainDemo.
Import Node NodeSafety JsonRpc NodeRpc NodeMain.

#[global] Instance toy_main : MainCodec := { ser_vote := toy_ser; ser_sync from to := [from; to] }.

Definition demo_start : result error (Program (E := Simple.SimpleConsensus)) :=
  start LedgerDemo.ledger0.(Ledger.storage) (NodeDemo.engine 2) (Some 1%N) (Some NodeDemo.bls) NodeDemo.config LedgerDemo.addr_a "aether-dev-1".
Definition demo_program : Program (E := Simple.SimpleConsensus) :=
  Eval vm_compute in match demo_start with Ok p => p | Err _ => mkProgram RpcDemo.demo_backend [] [] 0 0 true Idle end.

Lemma demo_started : demo_start = Ok demo_program.
Proof. vm_cast_no_check (eq_refl (Ok (E := error) demo_program)). Qed.

(** A peer connects and the slot loop handles it; between that and the tick the
    server answers. The validator leads slot 2. *)
Definition handled : Program := slot_event (NodeDemo.at_secs 100) 0 NetPeerConnected [] (slot_begin (receive_event NetPeerConnected demo_program)).
Definition served : Program := (serve (NodeDemo.at_secs 100) "0" (mkRequest "2.0" "aeth_health" [] Null) (slot_release 1 handled)).1.
Definition ran : Program := Eval vm_compute in (slot_tick (NodeDemo.at_secs 100) served).1.

Lemma ran_eq : (slot_tick (NodeDemo.at_secs 100) served).1 = ran.
Proof. vm_cast_no_check (eq_refl ran). Qed.

Lemma ran_run : rtc turn demo_program ran.
Proof.
  apply (rtc_l _ _ (receive_event NetPeerConnected demo_program)); [by apply turn_receive|].
  apply (rtc_l _ _ (slot_begin (receive_event NetPeerConnected demo_program))); [by apply turn_begin; vm_compute|].
  apply (rtc_l _ _ handled); [apply turn_event; vm_compute; [reflexivity|lia|reflexivity]|].
  apply (rtc_l _ _ (slot_release 1 handled)); [apply turn_release; [reflexivity|right; reflexivity]|].
  apply (rtc_l _ _ served); [apply turn_serve; intros k; cbn; discriminate|].
  rewrite <- ran_eq. apply rtc_once, turn_tick. vm_compute. reflexivity.
Qed.

Lemma program_votes_once_witness :
  vote_slot <$> own_votes ran.(backend).(node).(sent) = [2] ∧
  ∀ v v', v ∈ own_votes ran.(backend).(node).(sent) → v' ∈ own_votes ran.(backend).(node).(sent) →
    v.(vote_slot) = v'.(vote_slot) → v = v'.
Proof.
  split; [vm_compute; reflexivity|].
  exact (proj2 (program_votes_once _ _ _ _ _ _ _ demo_program ran demo_started ran_run)).
Defined.

Lemma inbound_bounded_witness : ran.(inbound) = [] ∧ (length ran.(inbound) ≤ P2P_INBOUND_CAPACITY)%nat.
Proof.
  split; [vm_compute; reflexivity|]. apply (inbound_bounded demo_program ran ran_run); [reflexivity|]. vm_compute. lia.
Defined.
End MainDemo.
