(* ===== verification/AiMesh.v ===== *)
(** * The AI mesh

    [ai-mesh/coordinator/src/lib.rs] (registration of workers, assignment of
    jobs and the workers' reputation), [ai-mesh/router/src] (the choice of a
    provider by a weighted score, and the record of choices) and
    [crates/programs/reputation/src] (the score of a provider from its jobs and
    disputes). Scores of providers are doubles ([Doubles]). The clock and the
    decoding of attestations (JSON) are arguments. *)

From Stdlib Require Import Floats.SpecFloat.
From S2P Require Import Prelude.
From S2P Require Import Verifiers.
From S2P Require Import Doubles.

#[local] Open Scope Z_scope.

(** ** The coordinator *)

Module Coordinator.

Record WorkerInfo := mkWorker {
  worker_id : bytes;
  tee_type : string;
  attestation : bytes;
  capabilities : list string;
  reputation_score : Z;
  available : bool
}.

Record JobAssignment := mkAssignment {
  job_id : bytes;
  assigned_worker : bytes;
  assigned_at : Z
}.

Inductive ReputationEventType := JobCompleted | JobFailed | ChallengeWon | ChallengeLost | Timeout.

Record ReputationEvent := mkEvent {
  timestamp : Z;
  event_type : ReputationEventType;
  score_change : Z
}.

Record JobRequirements := mkRequirements {
  tee_types : list string;
  required_capabilities : list string;
  min_reputation : Z
}.

Record MeshCoordinator := mkCoordinator {
  workers : gmap bytes WorkerInfo;
  assignments : gmap bytes JobAssignment;
  reputation : gmap bytes (list ReputationEvent);
  tee_verifier : Tee.TeeVerifier
}.

Definition set_workers (ws : gmap bytes WorkerInfo) (c : MeshCoordinator) : MeshCoordinator :=
  mkCoordinator ws c.(assignments) c.(reputation) c.(tee_verifier).
Definition set_assignments (js : gmap bytes JobAssignment) (c : MeshCoordinator) : MeshCoordinator :=
  mkCoordinator c.(workers) js c.(reputation) c.(tee_verifier).
Definition set_available (b : bool) (w : WorkerInfo) : WorkerInfo :=
  mkWorker w.(worker_id) w.(tee_type) w.(attestation) w.(capabilities) w.(reputation_score) b.

Definition new : MeshCoordinator :=
  mkCoordinator ∅ ∅ ∅ (Tee.add_approved_measurement (replicate 48 1) Tee.new).

Definition approve_measurement (m : bytes) (c : MeshCoordinator) : MeshCoordinator :=
  mkCoordinator c.(workers) c.(assignments) c.(reputation) (Tee.add_approved_measurement m c.(tee_verifier)).

Definition meets_requirements (w : WorkerInfo) (r : JobRequirements) : bool :=
  if negb (bool_decide (w.(tee_type) ∈ r.(tee_types))) then false
  else if w.(reputation_score) <? r.(min_reputation) then false
  else forallb (λ cap, bool_decide (cap ∈ w.(capabilities))) r.(required_capabilities).

(** The change of the score by an event. *)
Definition change_of (e : ReputationEventType) : Z :=
  match e with JobCompleted => 10 | JobFailed => -20 | ChallengeWon => 5 | ChallengeLost => -50 | Timeout => -30 end.

Definition clamp (lo hi x : Z) : Z := if x <? lo then lo else if hi <? x then hi else x.

Definition update_reputation (now : Z) (id : bytes) (e : ReputationEventType) : M MeshCoordinator error unit :=
  c ← get_state;
  w ← ok_or (c.(workers) !! id) (Msg "worker not found");
  let score := clamp (-100) 1000 (wrap_i32 (w.(reputation_score) + change_of e)) in
  let w := mkWorker w.(worker_id) w.(tee_type) w.(attestation) w.(capabilities) score w.(available) in
  let events := default [] (c.(reputation) !! id) ++ [mkEvent now e (change_of e)] in
  let w := if score <=? -100 then set_available false w else w in
  put_state (mkCoordinator (<[id := w]> c.(workers)) c.(assignments) (<[id := events]> c.(reputation)) c.(tee_verifier)).

Definition release (id : bytes) : M MeshCoordinator error bytes :=
  c ← get_state;
  a ← ok_or (c.(assignments) !! id) (Msg "job not found");
  put_state (set_workers (alter (set_available true) a.(assigned_worker) c.(workers))
    (set_assignments (delete id c.(assignments)) c));;
  mret a.(assigned_worker).
Definition complete_job := release.
Definition cancel_job := release.

Definition get_worker (id : bytes) (c : MeshCoordinator) : option WorkerInfo := c.(workers) !! id.
Definition worker_count (c : MeshCoordinator) : nat := size c.(workers).
Definition available_worker_count (c : MeshCoordinator) : nat := size (filter (λ kw, kw.2.(available) = true) c.(workers)).

Section coordinator.
Context `{HashOrder} (from_slice : bytes → option Tee.AttestationReport).

Definition register_worker (now : Z) (w : WorkerInfo) : M MeshCoordinator error unit :=
  bail_if (bool_decide (w.(attestation) = [])) (Msg "missing attestation");;
  report ← ok_or (from_slice w.(attestation)) (Msg "invalid attestation payload (expected JSON report): ");
  reads (λ c, map_err (prefix_error "attestation verification failed: ") (Tee.verify c.(tee_verifier) report now));;
  modify (λ c, set_workers (<[w.(worker_id) := w]> c.(workers)) c).

Definition eligible (r : JobRequirements) (w : WorkerInfo) : bool := w.(available) && meets_requirements w r.
Definition better (a b : WorkerInfo) : bool := b.(reputation_score) <=? a.(reputation_score).

Definition assign_job (now : Z) (job : bytes) (r : JobRequirements) : M MeshCoordinator error bytes :=
  c ← get_state;
  let candidates := List.filter (eligible r) (hash_iter c.(workers)).*2 in
  match stable_sort better candidates with
  | [] => mthrow (Msg "no eligible workers")
  | best :: _ =>
      bail_if (bool_decide (is_Some (c.(assignments) !! job))) (Msg "job already assigned");;
      put_state (set_workers (alter (set_available false) best.(worker_id) c.(workers))
        (set_assignments (<[job := mkAssignment job best.(worker_id) now]> c.(assignments)) c));;
      mret best.(worker_id)
  end.

Inductive Op :=
| Approve (m : bytes)
| Register (w : WorkerInfo)
| Assign (job : bytes) (r : JobRequirements)
| Complete (job : bytes)
| Cancel (job : bytes)
| Update (id : bytes) (e : ReputationEventType).

Definition exec (now : Z) (op : Op) (c : MeshCoordinator) : MeshCoordinator :=
  match op with
  | Approve m => approve_measurement m c
  | Register w => (register_worker now w c).1
  | Assign job r => (assign_job now job r c).1
  | Complete job => (complete_job job c).1
  | Cancel job => (cancel_job job c).1
  | Update id e => (update_reputation now id e c).1
  end.

(** A worker does not register again while a job is assigned to it. *)
Definition registers_idle (op : Op) (c : MeshCoordinator) : Prop :=
  match op with
  | Register w => map_Forall (λ _ a, a.(assigned_worker) ≠ w.(worker_id)) c.(assignments)
  | _ => True
  end.

Inductive reachable : MeshCoordinator → Prop :=
| reach_new : reachable new
| reach_op c now op : reachable c → registers_idle op c → reachable (exec now op c).

(** ** Assignments *)

(** Workers are stored under their identifiers; the worker of an assignment is
    registered and occupied, and has no other job. *)
Record coordinator_inv (c : MeshCoordinator) : Prop := {
  inv_ids : map_Forall (λ k w, w.(worker_id) = k) c.(workers);
  inv_busy : ∀ j a, c.(assignments) !! j = Some a →
    ∃ w, c.(workers) !! a.(assigned_worker) = Some w ∧ w.(available) = false;
  inv_distinct : ∀ j1 j2 a1 a2, c.(assignments) !! j1 = Some a1 → c.(assignments) !! j2 = Some a2 →
    a1.(assigned_worker) = a2.(assigned_worker) → j1 = j2
}.

Lemma better_preorder : total_preorder better (λ _, True).
Proof. split; unfold better; intros; rewrite ?Z.leb_le in *; lia. Qed.

Lemma elem_candidates c r w :
  w ∈ List.filter (eligible r) (hash_iter c.(workers)).*2 ↔ eligible r w = true ∧ ∃ k, c.(workers) !! k = Some w.
Proof.
  rewrite list_elem_of_In, filter_In, <- list_elem_of_In, list_elem_of_fmap. split.
  - intros [([k w'] & -> & Hk%elem_of_hash_iter) He]. eauto.
  - intros [He [k Hk]]. split; [|done]. exists (k, w). split; [done|]. by apply elem_of_hash_iter.
Qed.

(** What a successful assignment does. *)
Lemma assign_job_Ok now job r c c' id :
  assign_job now job r c = (c', Ok id) →
  c.(assignments) !! job = None ∧ ∃ w k, c.(workers) !! k = Some w ∧ w.(worker_id) = id ∧ eligible r w = true ∧
    (∀ k' w', c.(workers) !! k' = Some w' → eligible r w' = true → w'.(reputation_score) ≤ w.(reputation_score)) ∧
    c' = set_workers (alter (set_available false) id c.(workers))
           (set_assignments (<[job := mkAssignment job id now]> c.(assignments)) c).
Proof.
  unfold assign_job. intros Ha. unfold_M. destruct (stable_sort better _) as [|best l] eqn:E; [done|].
  case_bool_decide as Hj; [done|]. simplify_eq/=. apply eq_None_not_Some in Hj. split; [done|].
  apply (stable_sort_head _ _ _ _ _ better_preorder) in E as [Hin Hmax]; [|by apply Forall_true].
  apply elem_candidates in Hin as [He [k Hk]]. exists best, k. split_and!; try done.
  intros k' w' Hk' Hw'. apply Z.leb_le. apply (Hmax w'). apply elem_candidates. eauto.
Qed.

Lemma assign_job_state now job r c : (assign_job now job r c).1 = c ∨ ∃ id, assign_job now job r c = ((assign_job now job r c).1, Ok id).
Proof.
  unfold assign_job. unfold_M. destruct (stable_sort better _) as [|best l]; [by left|]. case_bool_decide; [by left|].
  right. by exists best.(worker_id).
Qed.

(** A write to the entry of one worker that keeps its identifier. *)
Lemma ids_alter (f : WorkerInfo → WorkerInfo) (id : bytes) (ws : gmap bytes WorkerInfo) :
  (∀ w, (f w).(worker_id) = w.(worker_id)) →
  map_Forall (λ k w, w.(worker_id) = k) ws → map_Forall (λ k w, w.(worker_id) = k) (alter f id ws).
Proof. intros Hf Hws k w [(-> & w' & Hk & ->)|[_ Hk]]%lookup_alter_Some; [rewrite Hf|]; by apply Hws. Qed.

Lemma release_inv job c : coordinator_inv c → coordinator_inv (release job c).1.
Proof.
  intros [Hids Hbusy Hdist]. unfold release. unfold_M. destruct (c.(assignments) !! job) as [a|] eqn:Ha; [|by split].
  split; cbn.
  - by apply ids_alter.
  - intros j a' [Hj Ha']%lookup_delete_Some. destruct (Hbusy j a' Ha') as (w & Hw & Hav). exists w.
    rewrite lookup_alter_ne; [done|]. intros E. destruct Hj. by apply (Hdist job j a a').
  - intros j1 j2 a1 a2 [_ H1]%lookup_delete_Some [_ H2]%lookup_delete_Some. by apply Hdist.
Qed.

Lemma update_inv now id e c : coordinator_inv c → coordinator_inv (update_reputation now id e c).1.
Proof.
  intros [Hids Hbusy Hdist]. unfold update_reputation. unfold_M. destruct (c.(workers) !! id) as [w|] eqn:Hw; [|by split].
  set (w' := if _ <=? -100 then _ else _). cbn [fst].
  assert (Hw' : w'.(worker_id) = w.(worker_id) ∧ (w.(available) = false → w'.(available) = false)).
  { unfold w'. by destruct (_ <=? -100). }
  split; cbn; [| |done].
  - intros k x [[<- <-]|[_ Hk]]%lookup_insert_Some; [rewrite (proj1 Hw')|]; by apply Hids.
  - intros j a Ha. destruct (Hbusy j a Ha) as (x & Hx & Hav). rewrite lookup_insert. case_decide as E; [|by exists x].
    exists w'. split; [done|]. apply Hw'. congruence.
Qed.

Lemma register_inv now w c :
  coordinator_inv c → map_Forall (λ _ a, a.(assigned_worker) ≠ w.(worker_id)) c.(assignments) →
  coordinator_inv (register_worker now w c).1.
Proof.
  intros [Hids Hbusy Hdist] Hidle. unfold register_worker. unfold_M. case_bool_decide; [by split|].
  destruct (from_slice w.(attestation)) as [report|]; [|by split]. cbn. destruct (Tee.verify _ _ _) as [[]|]; [|by split].
  split; cbn; [| |done].
  - intros k x [[<- <-]|[_ Hk]]%lookup_insert_Some; [done|]. by apply Hids.
  - intros j a Ha. rewrite lookup_insert_ne; [by apply (Hbusy j)|]. apply not_eq_sym. by apply (Hidle j).
Qed.

Lemma assign_inv now job r c : coordinator_inv c → coordinator_inv (assign_job now job r c).1.
Proof.
  intros Hc. destruct (assign_job_state now job r c) as [->|[id Ha]]; [done|].
  apply assign_job_Ok in Ha as (Hj & w & k & Hk & Hid & He & _ & ->). destruct Hc as [Hids Hbusy Hdist].
  apply andb_true_iff in He as [Hav _]. pose proof (Hids k w Hk) as Hk'. cbn in Hk'. subst.
  assert (Hfree : ∀ j a, c.(assignments) !! j = Some a → a.(assigned_worker) ≠ w.(worker_id)).
  { intros j a Ha E. destruct (Hbusy j a Ha) as (x & Hx & Hx'). rewrite E in Hx. congruence. }
  split; cbn.
  - by apply ids_alter.
  - intros j a [[<- <-]|[Hne Ha]]%lookup_insert_Some; cbn.
    + exists (set_available false w). by rewrite lookup_alter_eq, Hk.
    + destruct (Hbusy j a Ha) as (x & Hx & Hx'). exists x. rewrite lookup_alter_ne; [done|]. apply not_eq_sym. eauto.
  - intros j1 j2 a1 a2 [[<- <-]|[? H1]]%lookup_insert_Some [[<- <-]|[? H2]]%lookup_insert_Some E; cbn in E; try done.
    + symmetry in E. by destruct (Hfree j2 a2 H2).
    + by destruct (Hfree j1 a1 H1).
    + by apply (Hdist j1 j2 a1 a2).
Qed.

(** C31: In every state of a coordinator whose workers do not register again while
    they have a job, the worker of every assignment is registered and
    occupied, and no worker has two jobs. *)
Theorem one_job_per_worker c : reachable c → coordinator_inv c.
Proof.
  induction 1 as [|c now op _ IH Hidle].
  - split; cbn; [apply map_Forall_empty|done|done].
  - destruct op; cbn [exec registers_idle] in *; auto using register_inv, assign_inv, release_inv, update_inv.
    by destruct IH.
Qed.

(** A job is assigned exactly when it has no worker yet and some available
    worker meets its requirements, and then to one of the best reputation
    among these; otherwise nothing changes. *)
Theorem assignment_best now job r c :
  (is_ok (assign_job now job r c).2 = true ↔
    c.(assignments) !! job = None ∧ ∃ k w, c.(workers) !! k = Some w ∧ eligible r w = true) ∧
  (is_ok (assign_job now job r c).2 = false → (assign_job now job r c).1 = c) ∧
  (∀ c' id, assign_job now job r c = (c', Ok id) → ∃ k w, c.(workers) !! k = Some w ∧ w.(worker_id) = id ∧
    eligible r w = true ∧
    ∀ k' w', c.(workers) !! k' = Some w' → eligible r w' = true → w'.(reputation_score) ≤ w.(reputation_score)).
Proof.
  split_and!.
  - unfold assign_job. unfold_M. pose proof (stable_sort_perm better (List.filter (eligible r) (hash_iter c.(workers)).*2)) as Hp.
    destruct (stable_sort better _) as [|best l].
    + cbn. split; [done|]. intros (_ & k & w & Hk & He). apply Permutation_nil_l in Hp.
      assert (Hin : w ∈ List.filter (eligible r) (hash_iter c.(workers)).*2) by (apply elem_candidates; eauto).
      rewrite <- Hp in Hin. by apply elem_of_nil in Hin.
    + assert (Hin : best ∈ List.filter (eligible r) (hash_iter c.(workers)).*2) by (rewrite <- Hp; left).
      apply elem_candidates in Hin as [He [k Hk]].
      case_bool_decide as Hj; cbn; split; try done; [intros [E _]; rewrite E in Hj; by destruct Hj|].
      intros _. apply eq_None_not_Some in Hj. eauto.
  - intros Hno. destruct (assign_job_state now job r c) as [->|[id Ha]]; [done|]. rewrite Ha in Hno. done.
  - intros c' id Ha. apply assign_job_Ok in Ha as (_ & w & k & Hk & Hid & He & Hmax & _). by exists k, w.
Qed.

(** An update leaves the score between -100 and 1000. *)
Lemma reputation_bounded now id e c c' w :
  update_reputation now id e c = (c', Ok tt) → c'.(workers) !! id = Some w → -100 ≤ w.(reputation_score) ≤ 1000.
Proof.
  unfold update_reputation. unfold_M. destruct (c.(workers) !! id) as [w0|]; [|done]. intros [= <-]. cbn.
  rewrite lookup_insert_eq. intros [= <-]. unfold clamp. repeat case_match; clean_ints; cbn; lia.
Qed.

(** The end of a job makes its worker available whatever its reputation: it
    lifts the ban of a worker whose score reached -100 during the job. *)
Lemma release_lifts_ban c job a w :
  c.(assignments) !! job = Some a → c.(workers) !! a.(assigned_worker) = Some w →
  (complete_job job c).1.(workers) !! a.(assigned_worker) = Some (set_available true w) ∧
  (cancel_job job c).1.(workers) !! a.(assigned_worker) = Some (set_available true w).
Proof.
  intros Ha Hw. unfold complete_job, cancel_job, release. unfold_M. rewrite Ha. cbn. by rewrite lookup_alter_eq, Hw.
Qed.
End coordinator.
End Coordinator.

(** ** Sorting by a comparison

    [slice::sort_by] sorts stably by a comparison that is a total order; for
    any other the order is unspecified, and the call may panic ([None]). *)

Definition not_after {A} (cmp : A → A → comparison) (a b : A) : bool :=
  match cmp a b with Gt => false | _ => true end.

Definition total_order {A} (cmp : A → A → comparison) (l : list A) : Prop :=
  total_preorder (not_after cmp) (λ x, x ∈ l) ∧ ∀ a b, a ∈ l → b ∈ l → cmp b a = CompOpp (cmp a b).

Class SliceSort := {
  sort_by : ∀ {A : Type}, (A → A → comparison) → list A → option (list A);
  sort_by_perm : ∀ (A : Type) cmp (l l' : list A), sort_by cmp l = Some l' → l' ≡ₚ l;
  sort_by_total : ∀ (A : Type) cmp (l : list A),
    total_order cmp l → sort_by cmp l = Some (stable_sort (not_after cmp) l)
}.

(** Descending order of a score. *)
Lemma SFcompare_antisym x y : F64.is_nan x = false → F64.is_nan y = false →
  ∃ o, SFcompare x y = Some o ∧ SFcompare y x = Some (CompOpp o).
Proof.
  intros Hx Hy. unfold SFcompare. change (Pos.compare_cont Eq) with Pos.compare.
  destruct x as [?|[]| |[] m e], y as [?|[]| |[] m' e']; try done; try (by eexists).
  - rewrite (Z.compare_antisym e e'), (Pos.compare_antisym m m').
    by destruct (e ?= e'), (m ?= m')%positive; eexists.
  - rewrite (Z.compare_antisym e e'), (Pos.compare_antisym m m').
    by destruct (e ?= e'), (m ?= m')%positive; eexists.
Qed.

Lemma descending_total {A} (score : A → spec_float) (cmp : A → A → comparison) (l : list A) :
  (∀ x, x ∈ l → F64.is_nan (score x) = false) →
  (∀ a b, a ∈ l → b ∈ l → SFcompare (score b) (score a) = Some (cmp a b)) →
  total_order cmp l ∧ ∀ a b, a ∈ l → b ∈ l → not_after cmp a b = SFleb (score b) (score a).
Proof.
  intros Hnan Hcmp.
  assert (Hle : ∀ a b, a ∈ l → b ∈ l → not_after cmp a b = SFleb (score b) (score a)).
  { intros a b Ha Hb. unfold not_after, SFleb. rewrite (Hcmp a b Ha Hb). by destruct (cmp a b). }
  destruct F64.SFleb_preorder as [Htot Htr]. split; [|done]. split; [split|].
  - intros a b Ha Hb. rewrite !Hle by done. apply or_comm, Htot; auto.
  - intros a b c Ha Hb Hc. rewrite !Hle by done. intros Hab Hbc. apply (Htr _ (score b)); auto.
  - intros a b Ha Hb. destruct (SFcompare_antisym (score b) (score a)) as (o & H1 & H2); [by auto..|].
    rewrite (Hcmp a b Ha Hb) in H1. rewrite (Hcmp b a Hb Ha) in H2. congruence.
Qed.

(** ** The router *)

Module Router.

Record JobRequest := mkJob {
  job_id : string;
  required_capabilities : list string;
  min_reputation : Z;
  max_latency_ms : Z;
  max_price_per_unit : Z
}.

Record ProviderCandidate := mkProvider {
  provider_id : string;
  capabilities : list string;
  reputation_score : Z;
  avg_latency_ms : Z;
  price_per_unit : Z;
  available : bool;
  active_jobs : Z;
  max_concurrent_jobs : Z
}.

Definition default_job : JobRequest := mkJob "job-default" [] 0 2000 100000.
Definition default_provider : ProviderCandidate := mkProvider "provider-default" [] 50 200 1000 true 0 10.

Record RoutingDecision := mkDecision { decided_job : string; decided_provider : string; decided_score : spec_float }.

Record ScoreWeights := mkWeights { w_reputation : spec_float; w_latency : spec_float; w_price : spec_float }.
Definition default_weights : ScoreWeights := mkWeights (F64.of_decimal 5 10) (F64.of_decimal 3 10) (F64.of_decimal 2 10).

Definition unit_clamp (x : spec_float) : spec_float := F64.clamp (F64.of_int 0) (F64.of_int 1) x.
Definition one_minus (x : spec_float) : spec_float := F64.sub (F64.of_int 1) x.

Definition score_provider (job : JobRequest) (p : ProviderCandidate) (w : ScoreWeights) : option spec_float :=
  if negb p.(available) then None
  else if p.(reputation_score) <? job.(min_reputation) then None
  else if job.(max_latency_ms) <? p.(avg_latency_ms) then None
  else if job.(max_price_per_unit) <? p.(price_per_unit) then None
  else if negb (forallb (λ cap, bool_decide (cap ∈ p.(capabilities))) job.(required_capabilities)) then None
  else
    let normalized_rep := unit_clamp (F64.div (F64.of_int p.(reputation_score)) (F64.of_int 100)) in
    let latency_ratio := F64.div (F64.of_int p.(avg_latency_ms)) (F64.of_int job.(max_latency_ms)) in
    let normalized_latency := unit_clamp (one_minus latency_ratio) in
    let price_ratio := F64.div (F64.of_int p.(price_per_unit)) (F64.of_int job.(max_price_per_unit)) in
    let normalized_price := unit_clamp (one_minus price_ratio) in
    let load_ratio :=
      if p.(max_concurrent_jobs) =? 0 then F64.of_int 1
      else F64.div (F64.of_int p.(active_jobs)) (F64.of_int p.(max_concurrent_jobs)) in
    let load_penalty := unit_clamp (one_minus (F64.mul (F64.of_decimal 5 10) load_ratio)) in
    let weighted :=
      F64.add (F64.add (F64.mul normalized_rep w.(w_reputation)) (F64.mul normalized_latency w.(w_latency)))
        (F64.mul normalized_price w.(w_price)) in
    Some (F64.mul weighted load_penalty).

Record RoutingEvent := mkRoutingEvent { timestamp : Z; event_job : string; event_provider : string; event_score : spec_float }.
Record RouterMetrics := mkMetrics { routed_jobs : Z; recent_events : list RoutingEvent; max_events : nat }.

Definition new_metrics (max_events : nat) : RouterMetrics := mkMetrics 0 [] max_events.

(** The loop drops the oldest events beyond [max_events]. *)
Definition record_event (now : Z) (job provider : string) (score : spec_float) (m : RouterMetrics) : RouterMetrics :=
  let events := m.(recent_events) ++ [mkRoutingEvent now job provider score] in
  mkMetrics (wrapping_add U64_MAX m.(routed_jobs) 1) (drop (length events - m.(max_events)) events) m.(max_events).

Section router.
Context `{!SliceSort}.

Definition compare_ranked (a b : ProviderCandidate * spec_float) : comparison := default Eq (SFcompare b.2 a.2).
Definition rank (job : JobRequest) (ps : list ProviderCandidate) : list (ProviderCandidate * spec_float) :=
  omap (λ p, (λ s, (p, s)) <$> score_provider job p default_weights) ps.

(** [None] is a panic of the sort. *)
Definition route_job_with_metrics (now : Z) (job : JobRequest) (ps : list ProviderCandidate) (m : RouterMetrics) :
    option (option RoutingDecision * RouterMetrics) :=
  ranked ← sort_by compare_ranked (rank job ps);
  match ranked with
  | [] => Some (None, m)
  | (p, score) :: _ =>
      Some (Some (mkDecision job.(job_id) p.(provider_id) score), record_event now job.(job_id) p.(provider_id) score m)
  end.

Definition route_job (now : Z) (job : JobRequest) (ps : list ProviderCandidate) : option (option RoutingDecision) :=
  fst <$> route_job_with_metrics now job ps (new_metrics 128).

Lemma elem_rank job ps x : x ∈ rank job ps ↔ x.1 ∈ ps ∧ score_provider job x.1 default_weights = Some x.2.
Proof.
  unfold rank. rewrite list_elem_of_omap. split.
  - intros (p & Hp & Hs). destruct (score_provider job p default_weights) eqn:E; simplify_eq/=. done.
  - intros [Hp Hs]. exists x.1. split; [done|]. rewrite Hs. by destruct x.
Qed.

(** C37: When the scores of the providers that qualify for a job are numbers, the
    job is routed if and only if some provider qualifies, to one with the
    highest score, and exactly that choice is recorded. *)
Theorem route_best now job ps m :
  (∀ p s, p ∈ ps → score_provider job p default_weights = Some s → F64.is_nan s = false) →
  match route_job_with_metrics now job ps m with
  | None => False
  | Some (None, m') => m' = m ∧ ∀ p, p ∈ ps → score_provider job p default_weights = None
  | Some (Some d, m') =>
      ∃ p, p ∈ ps ∧ score_provider job p default_weights = Some d.(decided_score) ∧
        d.(decided_job) = job.(job_id) ∧ d.(decided_provider) = p.(provider_id) ∧
        (∀ q s, q ∈ ps → score_provider job q default_weights = Some s → SFleb s d.(decided_score) = true) ∧
        m' = record_event now job.(job_id) p.(provider_id) d.(decided_score) m
  end.
Proof.
  intros Hnum. unfold route_job_with_metrics.
  assert (Hn : ∀ x, x ∈ rank job ps → F64.is_nan x.2 = false) by (intros x [Hx Hs]%elem_rank; eauto).
  destruct (descending_total snd compare_ranked (rank job ps) Hn) as [Hto Hle].
  { intros a b Ha Hb. unfold compare_ranked.
    destruct (SFcompare_antisym b.2 a.2) as (o & Ho & _); [by auto..|]. cbn. by rewrite Ho. }
  rewrite (sort_by_total _ _ _ Hto). cbn. destruct (stable_sort _ _) as [|[p s] l] eqn:E.
  - split; [done|]. intros p Hp. destruct (score_provider job p default_weights) as [s|] eqn:Hs; [|done].
    pose proof (stable_sort_perm (not_after compare_ranked) (rank job ps)) as Hperm. rewrite E in Hperm.
    assert (Hin : (p, s) ∈ rank job ps) by (by apply elem_rank). rewrite <- Hperm in Hin. by apply elem_of_nil in Hin.
  - apply (stable_sort_head _ _ _ _ _ (proj1 Hto)) in E as [Hin Hmax]; [|by apply Forall_forall].
    apply elem_rank in Hin as Hps. cbn in Hps. exists p. cbn. destruct Hps as [Hp Hs]. split_and!; try done.
    intros q t Hq Ht. assert (Hqin : (q, t) ∈ rank job ps) by (by apply elem_rank).
    specialize (Hmax _ Hqin). by rewrite Hle in Hmax.
Qed.

(** The number of recorded events stays within its limit. *)
Lemma metrics_bounded now job provider score m :
  (length (record_event now job provider score m).(recent_events) ≤ m.(max_events))%nat.
Proof. unfold record_event. cbn. rewrite length_drop. lia. Qed.
End router.
End Router.

(** ** Reputation of providers *)

Module Reputation.

(** *** Exponentially weighted averages *)
Record Ewma := mkEwma { alpha : spec_float; value : spec_float; initialized : bool }.
Definition new_ewma (a : spec_float) : Ewma := mkEwma a (F64.of_int 0) false.
Definition update (sample : spec_float) (e : Ewma) : Ewma :=
  if negb e.(initialized) then mkEwma e.(alpha) sample true
  else mkEwma e.(alpha) (F64.add (F64.mul e.(alpha) e.(value)) (F64.mul (F64.sub (F64.of_int 1) e.(alpha)) sample)) true.

(** *** Scores *)
Definition SUCCESS_WEIGHT := F64.of_decimal 4 10.
Definition LATENCY_WEIGHT := F64.of_decimal 3 10.
Definition UPTIME_WEIGHT := F64.of_decimal 2 10.
Definition DISPUTE_LOSS_PENALTY := F64.of_int 15.
Definition DISPUTE_WIN_BONUS := F64.of_int 2.
Definition MAX_SCORE := F64.of_int 100.
Definition MAX_LATENCY_MS := F64.of_int 30000.
Definition SCORE_MIN := F64.of_int 0.
Definition ALPHA := F64.of_decimal 95 100.

Inductive HardwareTier := Standard | Premium | Dedicated.
Definition tier_rank (t : HardwareTier) : Z := match t with Standard => 0 | Premium => 1 | Dedicated => 2 end.

Record ProviderReputation := mkProviderRep {
  address : Address;
  score : spec_float;
  jobs_completed : Z;
  jobs_failed : Z;
  disputes_won : Z;
  disputes_lost : Z;
  last_active_slot : Z;
  hardware_tier : HardwareTier;
  supported_models : gset H256;
  latency_ewma : Ewma;
  uptime_ewma : Ewma
}.

Definition new (a : Address) (t : HardwareTier) : ProviderReputation :=
  mkProviderRep a (F64.of_int 50) 0 0 0 0 0 t ∅ (new_ewma ALPHA) (new_ewma ALPHA).

Definition set_score (s : spec_float) (p : ProviderReputation) : ProviderReputation :=
  mkProviderRep p.(address) s p.(jobs_completed) p.(jobs_failed) p.(disputes_won) p.(disputes_lost)
    p.(last_active_slot) p.(hardware_tier) p.(supported_models) p.(latency_ewma) p.(uptime_ewma).

Definition add_model (m : H256) (p : ProviderReputation) : ProviderReputation :=
  mkProviderRep p.(address) p.(score) p.(jobs_completed) p.(jobs_failed) p.(disputes_won) p.(disputes_lost)
    p.(last_active_slot) p.(hardware_tier) ({[m]} ∪ p.(supported_models)) p.(latency_ewma) p.(uptime_ewma).

Definition recompute_score (p : ProviderReputation) : ProviderReputation :=
  let total_jobs := wrapping_add U64_MAX p.(jobs_completed) p.(jobs_failed) in
  let success_rate :=
    if total_jobs =? 0 then F64.of_decimal 5 10
    else F64.div (F64.of_int p.(jobs_completed)) (F64.of_int total_jobs) in
  let latency_score :=
    if p.(latency_ewma).(initialized) then
      F64.sub (F64.of_int 1) (F64.min (F64.div p.(latency_ewma).(value) MAX_LATENCY_MS) (F64.of_int 1))
    else F64.of_int 1 in
  let uptime_score := F64.clamp (F64.of_int 0) (F64.of_int 1) p.(uptime_ewma).(value) in
  let s := F64.add (F64.add (F64.mul (F64.mul SUCCESS_WEIGHT success_rate) MAX_SCORE)
      (F64.mul (F64.mul LATENCY_WEIGHT latency_score) MAX_SCORE))
    (F64.mul (F64.mul UPTIME_WEIGHT uptime_score) MAX_SCORE) in
  let s := F64.sub s (F64.mul (F64.of_int p.(disputes_lost)) DISPUTE_LOSS_PENALTY) in
  let s := F64.add s (F64.mul (F64.of_int p.(disputes_won)) DISPUTE_WIN_BONUS) in
  set_score (F64.clamp SCORE_MIN MAX_SCORE s) p.

Definition record_job_success (latency_ms uptime_ratio : spec_float) (slot : Z) (p : ProviderReputation) : ProviderReputation :=
  recompute_score (mkProviderRep p.(address) p.(score) (wrapping_add U64_MAX p.(jobs_completed) 1) p.(jobs_failed)
    p.(disputes_won) p.(disputes_lost) slot p.(hardware_tier) p.(supported_models)
    (update latency_ms p.(latency_ewma)) (update uptime_ratio p.(uptime_ewma))).

Definition record_job_failure (slot : Z) (p : ProviderReputation) : ProviderReputation :=
  let s := F64.mul p.(score) (F64.of_decimal 9 10) in
  mkProviderRep p.(address) (F64.clamp SCORE_MIN MAX_SCORE s) p.(jobs_completed)
    (wrapping_add U64_MAX p.(jobs_failed) 1) p.(disputes_won) p.(disputes_lost) slot p.(hardware_tier)
    p.(supported_models) p.(latency_ewma) p.(uptime_ewma).

Definition record_dispute (won : bool) (p : ProviderReputation) : ProviderReputation :=
  recompute_score (mkProviderRep p.(address) p.(score) p.(jobs_completed) p.(jobs_failed)
    (if won then wrapping_add U32_MAX p.(disputes_won) 1 else p.(disputes_won))
    (if won then p.(disputes_lost) else wrapping_add U32_MAX p.(disputes_lost) 1)
    p.(last_active_slot) p.(hardware_tier) p.(supported_models) p.(latency_ewma) p.(uptime_ewma)).

Inductive Op :=
| AddModel (m : H256)
| JobSuccess (latency_ms uptime_ratio : spec_float) (slot : Z)
| JobFailure (slot : Z)
| Dispute (won : bool).

Definition exec (p : ProviderReputation) (op : Op) : ProviderReputation :=
  match op with
  | AddModel m => add_model m p
  | JobSuccess l u s => record_job_success l u s p
  | JobFailure s => record_job_failure s p
  | Dispute w => record_dispute w p
  end.

(** *** Queries *)
Section queries.
Context `{!SliceSort}.

Definition qualifies (model : H256) (minimum : spec_float) (tier : HardwareTier) (now staleness : Z)
    (p : ProviderReputation) : bool :=
  SFleb minimum p.(score) && (tier_rank tier <=? tier_rank p.(hardware_tier)) &&
  bool_decide (model ∈ p.(supported_models)) && (saturating_sub now p.(last_active_slot) <=? staleness).

Definition compare_providers (a b : ProviderReputation) : comparison :=
  match SFcompare b.(score) a.(score) with
  | Some o => o
  | None => if F64.is_nan b.(score) then Gt else Lt
  end.

Definition top_providers (ps : list ProviderReputation) (model : H256) (minimum : spec_float) (tier : HardwareTier)
    (now staleness : Z) (limit : nat) : option (list ProviderReputation) :=
  take limit <$> sort_by compare_providers (List.filter (qualifies model minimum tier now staleness) ps).

Definition provider_addresses (ps : list ProviderReputation) : list Address := address <$> ps.

(** The providers found all qualify, at most [limit] of them, in descending
    order of their scores; there are fewer than [limit] only if all that qualify
    are among them, and one that qualifies and is left out has no higher score
    than any found. The sort never panics. *)
Theorem top_providers_best ps model minimum tier now staleness limit :
  ∃ found rest, top_providers ps model minimum tier now staleness limit = Some found ∧
    found ++ rest ≡ₚ List.filter (qualifies model minimum tier now staleness) ps ∧
    (length found ≤ limit)%nat ∧ (rest ≠ [] → length found = limit) ∧
    StronglySorted (λ a b, SFleb b.(score) a.(score) = true) (found ++ rest).
Proof.
  set (cs := List.filter _ ps).
  assert (Hnum : ∀ x, x ∈ cs → F64.is_nan x.(score) = false).
  { intros x Hx%list_elem_of_In. apply filter_In in Hx as [_ Hq]. unfold qualifies in Hq.
    apply andb_true_iff in Hq as [[[Hq _]%andb_true_iff _]%andb_true_iff _].
    destruct x.(score) eqn:E; try done. by destruct minimum. }
  destruct (descending_total score compare_providers cs Hnum) as [Hto Hle].
  { intros a b Ha Hb. unfold compare_providers.
    destruct (SFcompare_antisym b.(score) a.(score)) as (o & Ho & _); [by auto..|]. by rewrite Ho. }
  set (sorted := stable_sort (not_after compare_providers) cs).
  exists (take limit sorted), (drop limit sorted). unfold top_providers. fold cs. rewrite (sort_by_total _ _ _ Hto). cbn.
  rewrite take_drop. split_and!; [done|apply stable_sort_perm|rewrite length_take; lia| |].
  - intros Hd. rewrite length_take. destruct (decide (limit ≤ length sorted)%nat); [lia|]. rewrite drop_ge in Hd by lia. done.
  - pose proof (stable_sort_sorted _ _ cs (proj1 Hto)) as Hs. fold sorted in Hs.
    assert (Hin : ∀ x, x ∈ sorted → x ∈ cs) by (intros x; unfold sorted; by rewrite stable_sort_perm).
    specialize (Hs ltac:(by apply Forall_forall)). clearbody sorted.
    induction Hs as [|x l Hl IH Hx]; constructor; [apply IH; intros; apply Hin; by right|].
    rewrite Forall_forall in *. intros y Hy. rewrite <- Hle by (apply Hin; [by left|by right] || (apply Hin; by constructor)).
    by apply Is_true_true, Hx.
Qed.
End queries.

(** *** Properties *)

(** A score is a number from 0 to 100, or not a number. *)
Definition score_ok (s : spec_float) : Prop := s = S754_nan ∨ SFleb SCORE_MIN s = true ∧ SFleb s MAX_SCORE = true.

Lemma exec_score p op : score_ok p.(score) → score_ok (exec p op).(score).
Proof.
  intros Hp. destruct op; cbn [exec]; [done|apply F64.clamp_range; by vm_compute..].
Qed.

(** The score of a provider stays between 0 and 100, whatever is recorded. *)
Theorem score_in_range a t ops : score_ok (foldl exec (new a t) ops).(score).
Proof.
  assert (Hgen : ∀ p, score_ok p.(score) → score_ok (foldl exec p ops).(score)).
  { induction ops as [|op ops IH]; intros p Hp; [done|]. cbn [foldl]. by apply IH, exec_score. }
  apply Hgen. right. by vm_compute.
Qed.

(** Recomputing the score of a new provider gives its initial score. *)
Lemma recompute_initial a t : recompute_score (new a t) = new a t.
Proof. done. Qed.

Definition uptime_lost (p : ProviderReputation) : Prop := p.(uptime_ewma).(initialized) = true ∧ p.(uptime_ewma).(value) = S754_nan.

Lemma nan_sub x : F64.sub S754_nan x = S754_nan.
Proof. by destruct x. Qed.
Lemma nan_add x : F64.add S754_nan x = S754_nan.
Proof. by destruct x. Qed.
Lemma nan_mul_r x : F64.mul x S754_nan = S754_nan.
Proof. by destruct x. Qed.
Lemma nan_add_r x : F64.add x S754_nan = S754_nan.
Proof. by destruct x. Qed.

Lemma recompute_nan p : p.(uptime_ewma).(value) = S754_nan → (recompute_score p).(score) = S754_nan.
Proof.
  intros E. unfold recompute_score. rewrite E. cbn [set_score score].
  change (F64.clamp (F64.of_int 0) (F64.of_int 1) S754_nan) with S754_nan.
  change (F64.mul (F64.mul UPTIME_WEIGHT S754_nan) MAX_SCORE) with S754_nan. by rewrite nan_add_r, nan_sub, nan_add.
Qed.

(** C40: Once an uptime sample is not a number, the score is not a number after
    that job and for ever, so the provider is never found again. *)
Theorem nan_uptime_excludes `{!SliceSort} p l slot ops ps model minimum tier now staleness limit found :
  let q := foldl exec (record_job_success l S754_nan slot p) ops in
  top_providers ps model minimum tier now staleness limit = Some found →
  q.(score) = S754_nan ∧ q ∉ found.
Proof.
  intros q Hf.
  assert (Hgen : ∀ p, uptime_lost p → p.(score) = S754_nan → (foldl exec p ops).(score) = S754_nan).
  { clear Hf q. induction ops as [|op ops IH]; intros r Hr Hs; [done|]. cbn [foldl]. destruct Hr as [Hi Hv].
    assert (Hu : ∀ u, update u r.(uptime_ewma) = mkEwma r.(uptime_ewma).(alpha) S754_nan true).
    { intros u. unfold update. rewrite Hi, Hv. cbn [negb]. f_equal.
      by rewrite nan_mul_r, nan_add. }
    destruct op as [m|l' u s|s|w]; cbn [exec].
    - by apply IH.
    - apply IH; [by split; cbn; rewrite Hu|]. apply recompute_nan. cbn. by rewrite Hu.
    - apply IH; [by split|]. cbn. by rewrite Hs.
    - apply IH; [by split|]. by apply recompute_nan. }
  assert (Hq : q.(score) = S754_nan).
  { assert (Hv : (update S754_nan p.(uptime_ewma)).(value) = S754_nan).
    { unfold update. destruct (initialized (uptime_ewma p)); cbn [negb]; [|done]. cbn [value].
      by rewrite nan_mul_r, nan_add_r. }
    assert (Hi : (update S754_nan p.(uptime_ewma)).(initialized) = true) by (unfold update; by destruct (negb _)).
    apply Hgen; [by split|]. by apply recompute_nan. }
  split; [done|]. intros Hin. unfold top_providers in Hf. destruct (sort_by _ _) as [l'|] eqn:Es; [|done].
  injection Hf as <-. apply sort_by_perm in Es. apply elem_of_take in Hin as (i & Hi & _).
  apply list_elem_of_lookup_2 in Hi. rewrite Es in Hi. apply list_elem_of_In, filter_In in Hi as [_ Hqual].
  unfold qualifies in Hqual. rewrite Hq in Hqual. by destruct minimum.
Qed.
End Reputation.

(** ** Concrete runs *)

From S2P Require Import Transaction.
From S2P Require Import Toy.

#[global] Program Instance stable_slice_sort : SliceSort := { sort_by A cmp l := Some (stable_sort (not_after cmp) l) }.
Next Obligation. intros A cmp l l' [= <-]. apply stable_sort_perm. Qed.
Next Obligation. done. Qed.

Module MeshDemo.
Import Coordinator.

Definition decode (bs : bytes) : option Tee.AttestationReport :=
  match bs with
  | [t] => Some (Tee.mkAttestationReport Tee.Simulation (replicate 48 1) [] t [3] [[4]])
  | _ => None
  end.
Definition worker (id reputation : Z) : WorkerInfo := mkWorker [id] "sev-snp" [100] ["onnx"] reputation true.
Definition wants : JobRequirements := mkRequirements ["sev-snp"] ["onnx"] 0.
Definition two_workers : MeshCoordinator := exec decode 110 (Register (worker 2 50)) (exec decode 110 (Register (worker 1 20)) new).
Definition assigned : MeshCoordinator := exec decode 120 (Assign [8] wants) (exec decode 120 (Assign [7] wants) two_workers).

Lemma assigned_reachable : reachable decode assigned.
Proof. repeat first [apply reach_op | apply reach_new]; cbn; try done; apply map_Forall_empty. Qed.

Lemma one_job_per_worker_witness :
  coordinator_inv assigned ∧
  (assigned_worker <$> assigned.(assignments) !! [7]) = Some [2] ∧ (assigned_worker <$> assigned.(assignments) !! [8]) = Some [1].
Proof.
  split; [apply (one_job_per_worker decode), assigned_reachable|]. by vm_compute.
Defined.

(** A worker that registers again while it has a job is available again and
    gets a second one. *)
Lemma reregistered_has_two_jobs :
  let c := exec decode 120 (Assign [9] wants) (exec decode 110 (Register (worker 2 50)) assigned) in
  (assigned_worker <$> c.(assignments) !! [7]) = Some [2] ∧ (assigned_worker <$> c.(assignments) !! [9]) = Some [2].
Proof. by vm_compute. Qed.

(** The score a worker registers with is not checked: a completed job wraps the
    largest one to the smallest, a lost challenge the smallest to the largest. *)
Lemma reputation_wraps :
  let c e r := exec decode 120 (Update [1] e) (exec decode 110 (Register (worker 1 r)) new) in
  (reputation_score <$> (c JobCompleted (2 ^ 31 - 1)).(workers) !! [1]) = Some (-100) ∧
  (reputation_score <$> (c ChallengeLost (- 2 ^ 31)).(workers) !! [1]) = Some 1000.
Proof. by vm_compute. Qed.

Definition providers : list Router.ProviderCandidate :=
  [Router.mkProvider "slow" ["onnx"] 90 1500 1000 true 0 10; Router.mkProvider "fast" ["onnx"] 90 100 1000 true 0 10;
   Router.mkProvider "busy" ["onnx"] 90 100 1000 true 10 10; Router.mkProvider "off" ["onnx"] 100 1 1 false 0 10].
Definition job : Router.JobRequest := Router.mkJob "job" ["onnx"] 50 2000 10000.

Lemma route_best_witness :
  Router.decided_provider <$> (Router.route_job 1 job providers ≫= λ d, d) = Some "fast"%string ∧
  match Router.route_job_with_metrics 1 job providers (Router.new_metrics 128) with
  | None => False
  | Some (None, m') => m' = Router.new_metrics 128 ∧ ∀ p, p ∈ providers → Router.score_provider job p Router.default_weights = None
  | Some (Some d, m') =>
      ∃ p, p ∈ providers ∧ Router.score_provider job p Router.default_weights = Some d.(Router.decided_score) ∧
        d.(Router.decided_job) = job.(Router.job_id) ∧ d.(Router.decided_provider) = p.(Router.provider_id) ∧
        (∀ q s, q ∈ providers → Router.score_provider job q Router.default_weights = Some s → SFleb s d.(Router.decided_score) = true) ∧
        m' = Router.record_event 1 job.(Router.job_id) p.(Router.provider_id) d.(Router.decided_score) (Router.new_metrics 128)
  end.
Proof.
  split; [by vm_compute|]. apply Router.route_best.
  assert (Hall : forallb (λ p, match Router.score_provider job p Router.default_weights with
    | Some s => negb (F64.is_nan s) | None => true end) providers = true) by (by vm_compute).
  intros p s Hp Hs. rewrite forallb_forall in Hall. specialize (Hall p). rewrite Hs in Hall.
  by apply negb_true_iff, Hall, list_elem_of_In.
Defined.

(** A job whose limit on the latency is zero gives a provider of latency zero a
    score that is not a number. *)
Lemma zero_latency_limit_is_nan :
  Router.score_provider (Router.mkJob "job" [] 0 0 100) (Router.mkProvider "p" [] 50 0 10 true 0 10) Router.default_weights
    = Some S754_nan.
Proof. by vm_compute. Qed.

(** The comparison of the query puts a score that is not a number first. *)
Lemma nan_compares_first a b :
  b.(Reputation.score) = S754_nan → Reputation.compare_providers a b = Gt.
Proof. intros E. unfold Reputation.compare_providers. rewrite E. by destruct a.(Reputation.score). Qed.

Definition provider : Reputation.ProviderReputation :=
  Reputation.add_model 5 (Reputation.new 1%N Reputation.Standard).

Lemma nan_uptime_excludes_witness :
  Reputation.top_providers [Reputation.record_job_success (F64.of_int 100) S754_nan 3 provider] 5 (F64.of_int 0)
    Reputation.Standard 4 10 5 = Some [] ∧
  (Reputation.record_job_success (F64.of_int 100) S754_nan 3 provider).(Reputation.score) = S754_nan.
Proof.
  split; [by vm_compute|].
  refine (proj1 (Reputation.nan_uptime_excludes provider (F64.of_int 100) 3 [] [] 5 (F64.of_int 0) Reputation.Standard 4 10 5 [] _)).
  by vm_compute.
Defined.

Lemma top_providers_best_witness :
  ∃ found rest, Reputation.top_providers [provider; provider] 5 (F64.of_int 10) Reputation.Standard 4 10 1 = Some found ∧
    found ++ rest ≡ₚ List.filter (Reputation.qualifies 5 (F64.of_int 10) Reputation.Standard 4 10) [provider; provider] ∧
    (length found ≤ 1)%nat ∧ (rest ≠ [] → length found = 1%nat) ∧
    StronglySorted (λ a b, SFleb b.(Reputation.score) a.(Reputation.score) = true) (found ++ rest).
Proof. apply Reputation.top_providers_best. Defined.
End MeshDemo.
