(* ===== verification/Clients.v ===== *)
(** * Clients of the chain

    [crates/sdk/rust/src] (the builders of transfers and jobs),
    [crates/tools/faucet/src/lib.rs] (the checks and the rate limit of the
    faucet) and [crates/tools/indexer/src/store.rs] (the index of blocks). Text
    is a list of Unicode code points. The [hex] crate, [bincode] and the
    conversion to upper case beyond ASCII are parameters; HTTP is left out. *)

From S2P Require Import Prelude.
From S2P Require Import Transaction.
From S2P Require Import Storage.
From S2P Require Import Ledger.
From S2P Require Import LedgerSpec.
From S2P Require Import Consensus.
From S2P Require Import Block.
From S2P Require Import Genesis.

#[local] Open Scope Z_scope.

Abbreviation text := (list Z) (only parsing).

(** The code points of a literal. *)
Definition lit (s : string) : text := str_bytes s.

(** [char::is_whitespace]: the code points with the property White_Space. *)
Definition is_whitespace (c : Z) : bool :=
  ((9 <=? c) && (c <=? 13)) || (c =? 32) || (c =? 133) || (c =? 160) || (c =? 5760) ||
  ((8192 <=? c) && (c <=? 8202)) || (c =? 8232) || (c =? 8233) || (c =? 8239) || (c =? 8287) || (c =? 12288).

(** [s.trim().is_empty()]. *)
Definition is_blank (s : text) : bool := forallb is_whitespace s.

(** [s.trim_end_matches(c)]. *)
Fixpoint trim_start_matches (c : Z) (s : text) : text :=
  match s with [] => [] | x :: s' => if x =? c then trim_start_matches c s' else s end.
Definition trim_end_matches (c : Z) (s : text) : text := reverse (trim_start_matches c (reverse s)).

(** ** Builders of the SDK *)

Module Sdk.

Inductive AetherSdkError :=
| BuildError (e : error)
| InvalidSignature (e : error)
| InvalidFee (e : error)
| Serialization (e : error).

Record ClientConfig := mkClientConfig { default_fee : Z; default_gas_limit : Z; request_timeout_secs : Z }.
Definition default_config : ClientConfig := mkClientConfig 2000000 500000 30.

Record TransferRequest := mkRequest { req_recipient : Address; req_amount : Z; req_memo : option string }.

Record TransferBuilder := mkTransferBuilder {
  recipient : option Address;
  amount : option Z;
  memo : option string;
  fee : Z;
  gas_limit : Z;
  chain_id : Z
}.

Definition new (c : ClientConfig) : TransferBuilder :=
  mkTransferBuilder None None None c.(default_fee) c.(default_gas_limit) 1.
Definition to (r : Address) (b : TransferBuilder) : TransferBuilder :=
  mkTransferBuilder (Some r) b.(amount) b.(memo) b.(fee) b.(gas_limit) b.(chain_id).
Definition with_amount (a : Z) (b : TransferBuilder) : TransferBuilder :=
  mkTransferBuilder b.(recipient) (Some a) b.(memo) b.(fee) b.(gas_limit) b.(chain_id).
Definition with_memo (m : string) (b : TransferBuilder) : TransferBuilder :=
  mkTransferBuilder b.(recipient) b.(amount) (Some m) b.(fee) b.(gas_limit) b.(chain_id).
Definition with_fee (f : Z) (b : TransferBuilder) : TransferBuilder :=
  mkTransferBuilder b.(recipient) b.(amount) b.(memo) f b.(gas_limit) b.(chain_id).
Definition with_gas_limit (g : Z) (b : TransferBuilder) : TransferBuilder :=
  mkTransferBuilder b.(recipient) b.(amount) b.(memo) b.(fee) g b.(chain_id).
Definition with_chain_id (c : Z) (b : TransferBuilder) : TransferBuilder :=
  mkTransferBuilder b.(recipient) b.(amount) b.(memo) b.(fee) b.(gas_limit) c.

(** The fee parameters [calculate_fee] reads of the development chain. *)
Definition fee_params : FeeParams :=
  mkFeeParams Config.devnet.(Config.fees).(Config.fee_a) Config.devnet.(Config.fees).(Config.fee_b)
    Config.devnet.(Config.fees).(Config.fee_c).

Section transfer.
Context `{Digest, Codec, DalekSigner} (ser_request : TransferRequest → result error (list Z)).

Definition with_signature (sig : list Z) (tx : Transaction) : Transaction :=
  mkTx tx.(tx_nonce) tx.(Transaction.chain_id) tx.(sender) tx.(sender_pubkey) tx.(inputs) tx.(outputs) tx.(tx_reads)
    tx.(tx_writes) tx.(program_id) tx.(data) tx.(Transaction.gas_limit) tx.(Transaction.fee) sig.

(** The transaction before it is signed. *)
Definition unsigned_transfer (b : TransferBuilder) (r : Address) (payload : list Z) (sk : H256) (nonce : Z) : Transaction :=
  let pubkey := as_bytes 32 (signing_public sk) in
  mkTx nonce b.(chain_id) (key_address pubkey) pubkey [] [] [] [r] None payload b.(gas_limit) b.(fee) (replicate 64 0).

Definition build (b : TransferBuilder) (sk : H256) (nonce : Z) : result AetherSdkError Transaction :=
  r ← ok_or b.(recipient) (BuildError (Msg "missing recipient"));
  a ← ok_or b.(amount) (BuildError (Msg "missing amount"));
  payload ← map_err Serialization (ser_request (mkRequest r a b.(memo)));
  let tx := unsigned_transfer b r payload sk nonce in
  let sig := dalek_sign sk (as_bytes 32 (hash tx)) in
  bail_if (negb (length sig =? 64)%nat) (InvalidSignature (Fmt "invalid signature length: {}" [Z.of_nat (length sig)]));;
  let tx := with_signature sig tx in
  map_err InvalidSignature (verify_signature tx);;
  _paid ← map_err InvalidFee (calculate_fee fee_params tx);
  mret tx.

(** The signature of the built transaction verifies. *)
Lemma built_signature b r payload sk nonce :
  verify_signature (with_signature (dalek_sign sk (as_bytes 32 (hash (unsigned_transfer b r payload sk nonce))))
    (unsigned_transfer b r payload sk nonce)) = Ok tt.
Proof.
  set (tx := unsigned_transfer b r payload sk nonce). set (sig := dalek_sign _ _).
  assert (Hlen : length sig = 64%nat) by apply sign_length.
  change (hash (with_signature sig tx)) with (hash tx).
  unfold verify_signature. rewrite bool_decide_false by (cbn; intros E; rewrite E in Hlen; discriminate).
  change (signature (with_signature sig tx)) with sig. rewrite Hlen. unfold_M. cbn [negb].
  change (sender_pubkey (with_signature sig tx)) with (as_bytes 32 (signing_public sk)).
  change (sender (with_signature sig tx)) with (key_address (as_bytes 32 (signing_public sk))). rewrite N.eqb_refl. cbn [negb].
  change (hash (with_signature sig tx)) with (hash tx). unfold Ed25519.verify. unfold_M. rewrite length_as_bytes, Hlen. cbn [Nat.eqb negb].
  destruct (sign_verifies sk (as_bytes 32 (hash tx))) as (vk & -> & Hv). fold sig in Hv. by rewrite Hv.
Qed.

(** A built transaction is signed by the sender and pays at least the fee. *)
Lemma build_Ok b sk nonce tx :
  build b sk nonce = Ok tx →
  ∃ r payload, b.(recipient) = Some r ∧ is_Some b.(amount) ∧
    tx = with_signature (dalek_sign sk (as_bytes 32 (hash (unsigned_transfer b r payload sk nonce))))
           (unsigned_transfer b r payload sk nonce) ∧
    verify_signature tx = Ok tt ∧ calculate_fee fee_params tx = Ok b.(fee).
Proof.
  unfold build. intros Hb. res_inv. rename select (b.(recipient) = Some _) into Hr. rename select (b.(amount) = Some _) into Ha.
  match goal with Hs : map_err Serialization _ = Ok ?p |- _ => exists x, p end.
  split_and!; [done|by eexists|done|apply built_signature|].
  match goal with Hf : map_err InvalidFee ?c = Ok ?p |- _ = _ => destruct c as [v|] eqn:Hc; [|done] end.
  pose proof Hc as Hc'. unfold calculate_fee in Hc'. res_inv. done.
Qed.

(** Building succeeds exactly when a recipient and an amount are set, the
    payload can be encoded and the fee covers the size and the gas. *)
Theorem build_succeeds b sk nonce r a payload :
  b.(recipient) = Some r → b.(amount) = Some a → ser_request (mkRequest r a b.(memo)) = Ok payload →
  let tx := with_signature (dalek_sign sk (as_bytes 32 (hash (unsigned_transfer b r payload sk nonce))))
              (unsigned_transfer b r payload sk nonce) in
  build b sk nonce = match calculate_fee fee_params tx with Ok _ => Ok tx | Err e => Err (InvalidFee e) end.
Proof.
  intros Hr Ha Hs tx. unfold build. unfold_M. rewrite Hr, Ha, Hs. cbn [map_err]. rewrite sign_length. cbn [Nat.eqb negb].
  rewrite built_signature. cbn [map_err]. fold tx. by destruct (calculate_fee fee_params tx).
Qed.

(** C17: A transfer the SDK builds moves nothing: the ledger reads it as a
    transaction without a transfer, so that executing it takes the fee and a
    nonce from the sender, and no other account changes. *)
Theorem sdk_transfer_moves_nothing b sk nonce tx σ σ' :
  build b sk nonce = Ok tx → tx_exec tx σ = Some σ' →
  let s := acct σ tx.(sender) in
  σ' = put_acct (Ledger.set_nonce (s.(Transaction.nonce) + 1) (Ledger.set_balance (s.(balance) - b.(fee)) s)) σ ∧
  (s.(address) = tx.(sender) → ∀ a, a ≠ tx.(sender) → acct σ' a = acct σ a).
Proof.
  intros Hb Hx. apply build_Ok in Hb as (r & payload & Hr & _ & -> & _). set (tx := with_signature _ _) in *.
  assert (Hd : Ledger.decode_transfer_payload tx = Ok None) by done. intros s.
  unfold tx_exec in Hx. rewrite Hd in Hx. destruct (accepts σ tx None); [|done]. injection Hx as <-.
  assert (Heff : tx_effect σ tx None =
    put_acct (Ledger.set_nonce (s.(Transaction.nonce) + 1) (Ledger.set_balance (s.(balance) - b.(fee)) s)) σ).
  { unfold tx_effect, accounts_after, sender_after. cbn -[acct]. fold s. unfold moved. cbn. by rewrite Z.add_0_r. }
  split; [done|]. intros Haddr a Ha. rewrite Heff, acct_put. cbn. rewrite Haddr, decide_False; [done|]. congruence.
Qed.
End transfer.

(** *** Jobs *)
Section job.
Context {Value : Type}.

Record JobRequest := mkJobRequest {
  jr_job_id : text;
  jr_model_hash : H256;
  jr_input_hash : H256;
  jr_max_fee : Z;
  jr_expires_at : Z;
  jr_metadata : option Value
}.

Record JobSubmission := mkSubmission { url : text; method : text; headers : list (text * text); body : JobRequest }.

Record JobBuilder := mkJobBuilder {
  endpoint : text;
  job_id : option text;
  model_hash : option H256;
  input_hash : option H256;
  max_fee : Z;
  expires_at : option Z;
  metadata : option Value
}.

Definition job_new (e : text) : JobBuilder := mkJobBuilder (trim_end_matches 47 e) None None None 1000000 None None.

Definition set_job_id (id : text) (b : JobBuilder) : result AetherSdkError JobBuilder :=
  bail_if (is_blank id) (BuildError (Msg "job_id must not be empty"));;
  mret (mkJobBuilder b.(endpoint) (Some id) b.(model_hash) b.(input_hash) b.(max_fee) b.(expires_at) b.(metadata)).
Definition set_model_hash (h : H256) (b : JobBuilder) : JobBuilder :=
  mkJobBuilder b.(endpoint) b.(job_id) (Some h) b.(input_hash) b.(max_fee) b.(expires_at) b.(metadata).
Definition set_input_hash (h : H256) (b : JobBuilder) : JobBuilder :=
  mkJobBuilder b.(endpoint) b.(job_id) b.(model_hash) (Some h) b.(max_fee) b.(expires_at) b.(metadata).
Definition set_max_fee (f : Z) (b : JobBuilder) : JobBuilder :=
  mkJobBuilder b.(endpoint) b.(job_id) b.(model_hash) b.(input_hash) (if 0 <? f then f else b.(max_fee)) b.(expires_at) b.(metadata).
Definition set_expires_at (t : Z) (b : JobBuilder) : JobBuilder :=
  mkJobBuilder b.(endpoint) b.(job_id) b.(model_hash) b.(input_hash) b.(max_fee)
    (if 0 <? t then Some t else b.(expires_at)) b.(metadata).
Definition set_metadata (m : Value) (b : JobBuilder) : JobBuilder :=
  mkJobBuilder b.(endpoint) b.(job_id) b.(model_hash) b.(input_hash) b.(max_fee) b.(expires_at) (Some m).

Definition build_job (b : JobBuilder) : result AetherSdkError JobRequest :=
  id ← ok_or b.(job_id) (BuildError (Msg "job_id not set"));
  m ← ok_or b.(model_hash) (BuildError (Msg "model_hash not set"));
  i ← ok_or b.(input_hash) (BuildError (Msg "input_hash not set"));
  e ← ok_or b.(expires_at) (BuildError (Msg "expires_at not set"));
  mret (mkJobRequest id m i b.(max_fee) e b.(metadata)).

Definition to_submission (b : JobBuilder) : result AetherSdkError JobSubmission :=
  job ← build_job b;
  mret (mkSubmission (b.(endpoint) ++ lit "/v1/jobs") (lit "POST") [(lit "content-type", lit "application/json")] job).

(** The calls of the setters. *)
Inductive Setter :=
| JobId (id : text) | ModelHash (h : H256) | InputHash (h : H256) | MaxFee (f : Z) | ExpiresAt (t : Z) | Metadata (m : Value).
Definition apply_setter (b : JobBuilder) (s : Setter) : result AetherSdkError JobBuilder :=
  match s with
  | JobId id => set_job_id id b
  | ModelHash h => Ok (set_model_hash h b)
  | InputHash h => Ok (set_input_hash h b)
  | MaxFee f => Ok (set_max_fee f b)
  | ExpiresAt t => Ok (set_expires_at t b)
  | Metadata m => Ok (set_metadata m b)
  end.
Fixpoint apply_setters (b : JobBuilder) (ss : list Setter) : result AetherSdkError JobBuilder :=
  match ss with [] => mret b | s :: ss => b ← apply_setter b s; apply_setters b ss end.

(** A job that is built has an identifier that is not blank, a positive fee
    and a positive expiry, and goes to an address with a single slash before
    the path. *)
Theorem built_job_valid e ss b s :
  apply_setters (job_new e) ss = Ok b → to_submission b = Ok s →
  is_blank s.(body).(jr_job_id) = false ∧ 0 < s.(body).(jr_max_fee) ∧ 0 < s.(body).(jr_expires_at) ∧
  ∃ base, s.(url) = base ++ lit "/v1/jobs" ∧ last base ≠ Some 47.
Proof.
  set (ok b := from_option (λ id, is_blank id = false) True b.(job_id) ∧ 0 < b.(max_fee) ∧
    from_option (λ t, 0 < t) True b.(expires_at) ∧ last b.(endpoint) ≠ Some 47).
  assert (Hgen : ∀ b0, ok b0 → apply_setters b0 ss = Ok b → ok b).
  { induction ss as [|c ss IH]; intros b0 Hok; cbn [apply_setters]; [by intros [= <-]|].
    intros Ha. apply res_bind_Ok in Ha as (b1 & H1 & H2). apply (IH b1); [|done]. clear IH H2.
    destruct Hok as (Hid & Hfee & Hexp & Hend). destruct c; cbn in H1; try (injection H1 as <-; by unfold ok); unfold ok.
    - unfold set_job_id in H1. res_inv. by cbn.
    - injection H1 as <-. cbn. split_and!; try done. destruct (Z.ltb_spec 0 f); lia.
    - injection H1 as <-. cbn. split_and!; try done. destruct (Z.ltb_spec 0 t); [done|done]. }
  intros Ha Hs. apply Hgen in Ha as (Hid & Hfee & Hexp & Hend).
  - unfold to_submission, build_job in Hs. res_inv. cbn.
    repeat match goal with Hx : _ = Some _ |- _ => rewrite Hx in * end. cbn in *. split_and!; try done. by exists b.(endpoint).
  - unfold ok. cbn. split_and!; [done|lia|done|]. unfold trim_end_matches. clear. rewrite <- head_reverse, reverse_involutive.
    induction (reverse e) as [|x l IH]; cbn; [done|]. destruct (Z.eqb_spec x 47); [done|]. cbn. congruence.
Qed.
End job.
End Sdk.

(** ** The faucet *)

Module Faucet.

Record FaucetConfig := mkFaucetConfig { default_amount_limit : Z; cooldown : Z; token_allowlist : list text }.
(** The cooldown is in nanoseconds. *)
Definition default_config : FaucetConfig := mkFaucetConfig 250000 600000000000 [lit "AIC"; lit "SWR"].

Record AppState := mkAppState { config : FaucetConfig; last_requests : gmap text Z }.
Definition new (c : FaucetConfig) : AppState := mkAppState c ∅.

Record FaucetRequest := mkFaucetRequest { github : text; req_address : text; req_token : text; req_amount : option Z }.
Record FaucetGrant := mkGrant { grant_address : text; grant_token : text; grant_amount : Z; grant_memo : text }.
Record FaucetResponse := mkResponse { status : text; message : text; grant : option FaucetGrant }.

Inductive FaucetError :=
| MissingGithub | InvalidGithub | InvalidAddress | TokenNotAllowed (allowed : text) | AmountLimit (limit : Z) | Throttled (secs : Z).

(** [^[a-zA-Z0-9](?:[a-zA-Z0-9-]{0,38}[a-zA-Z0-9])?$]. *)
Definition is_alnum (c : Z) : bool :=
  ((48 <=? c) && (c <=? 57)) || ((65 <=? c) && (c <=? 90)) || ((97 <=? c) && (c <=? 122)).
Definition handle_char (c : Z) : bool := is_alnum c || (c =? 45).
Definition github_handle_re (h : text) : bool :=
  match h with
  | [] => false
  | c :: rest =>
      is_alnum c &&
      match reverse rest with
      | [] => true
      | z :: middle => is_alnum z && (length middle <=? 38)%nat && forallb handle_char middle
      end
  end.

Definition validate_github (h : text) : result FaucetError unit :=
  if is_blank h then Err MissingGithub else if github_handle_re h then Ok tt else Err InvalidGithub.

Definition validate_amount (a limit : Z) : result FaucetError unit :=
  if (a =? 0) || (limit <? a) then Err (AmountLimit limit) else Ok tt.

(** [eq_ignore_ascii_case]. *)
Definition ascii_upper (c : Z) : Z := if (97 <=? c) && (c <=? 122) then c - 32 else c.
Definition eq_ignore_ascii_case (a b : text) : bool := bool_decide ((ascii_upper <$> a) = (ascii_upper <$> b)).

Fixpoint join (sep : text) (l : list text) : text :=
  match l with [] => [] | [x] => x | x :: l => x ++ sep ++ join sep l end.

Definition validate_token (t : text) (allow : list text) : result FaucetError unit :=
  if existsb (λ a, eq_ignore_ascii_case a t) allow then Ok tt else Err (TokenNotAllowed (join (lit ", ") allow)).

(** [now] is in nanoseconds; [Instant::duration_since] saturates at zero. *)
Definition check_rate_limit (now : Z) (h : text) : M AppState FaucetError unit := λ s,
  let elapsed last := Z.max 0 (now - last) in
  match s.(last_requests) !! h with
  | Some last =>
      if elapsed last <? s.(config).(cooldown)
      then (s, Err (Throttled ((s.(config).(cooldown) - elapsed last) / 1000000000)))
      else (mkAppState s.(config) (<[h := now]> s.(last_requests)), Ok tt)
  | None => (mkAppState s.(config) (<[h := now]> s.(last_requests)), Ok tt)
  end.

(** The [hex] crate and [str::to_uppercase]. *)
Class FaucetText := {
  hex_enc : list Z → text;
  hex_dec : text → option (list Z);
  to_uppercase : text → text;
  hex_dec_enc : ∀ bs, is_bytes bs → hex_dec (hex_enc bs) = Some bs
}.

Section faucet.
Context `{!FaucetText}.

Definition strip_0x (a : text) : text := match a with 48 :: 120 :: rest => rest | _ => a end.
Definition parse_address (a : text) : result FaucetError (list Z) :=
  bs ← ok_or (hex_dec (strip_0x a)) InvalidAddress;
  bail_if (negb (length bs =? 20)%nat) InvalidAddress;;
  mret bs.

Definition process_request (now : Z) (p : FaucetRequest) : M AppState FaucetError FaucetGrant :=
  reads (λ _, validate_github p.(github));;
  addr ← reads (λ _, parse_address p.(req_address));
  reads (λ s, validate_token p.(req_token) s.(config).(token_allowlist));;
  limit ← reads (λ s, Ok s.(config).(default_amount_limit));
  let amount := default limit p.(req_amount) in
  reads (λ _, validate_amount amount limit);;
  check_rate_limit now p.(github);;
  mret (mkGrant (lit "0x" ++ hex_enc addr) (to_uppercase p.(req_token)) amount
    (lit "faucet:" ++ to_uppercase p.(req_token) ++ lit ":" ++ p.(github))).

Definition status_of (e : FaucetError) : Z := match e with Throttled _ => 429 | _ => 400 end.

Definition handle_request (to_string : FaucetError → text) (now : Z) (p : FaucetRequest) (s : AppState) :
    AppState * (Z * FaucetResponse) :=
  match process_request now p s with
  | (s', Ok g) => (s', (200, mkResponse (lit "accepted") (lit "request accepted") (Some g)))
  | (s', Err e) => (s', (status_of e, mkResponse (lit "rejected") (to_string e) None))
  end.

(** The grants a sequence of requests gets, each with its time. *)
Fixpoint grants (s : AppState) (reqs : list (Z * FaucetRequest)) : list (Z * FaucetRequest * FaucetGrant) :=
  match reqs with
  | [] => []
  | (now, p) :: reqs =>
      match process_request now p s with
      | (s', Ok g) => (now, p, g) :: grants s' reqs
      | (s', Err _) => grants s' reqs
      end
  end.

(** The accepted handles: 1 to 40 letters, digits and hyphens that begin and
    end with a letter or digit. *)
Lemma handle_spec h :
  github_handle_re h = true ↔
  (1 ≤ length h ≤ 40)%nat ∧ from_option is_alnum false (head h) = true ∧ from_option is_alnum false (last h) = true ∧
  Forall (λ c, handle_char c = true) h.
Proof.
  destruct h as [|c rest]; cbn; [split; [done|lia]|]. rewrite last_cons, Forall_cons.
  destruct (reverse rest) as [|z middle] eqn:E.
  - apply (f_equal reverse) in E. rewrite reverse_involutive in E. subst rest. cbn. unfold handle_char. rewrite andb_true_r.
    split; [intros ->; split_and!; try done; lia|by intros (_ & ? & _)].
  - apply (f_equal reverse) in E. rewrite reverse_involutive, reverse_cons in E. subst rest.
    rewrite last_snoc, length_app, length_reverse, Forall_app, Forall_reverse, Forall_singleton. cbn.
    rewrite !andb_true_iff, Nat.leb_le, forallb_forall, Forall_forall. unfold handle_char. setoid_rewrite <- list_elem_of_In.
    split; [intros (Hc & (Hz & Hl) & Hm)|intros (Hl & Hc & Hz & _ & Hm & _)]; [rewrite Hc, Hz|]; split_and!; try done; lia.
Qed.

(** What a grant shows of the request and the state. *)
Definition grant_ok (c : FaucetConfig) (g : Z * FaucetRequest * FaucetGrant) : Prop :=
  github_handle_re g.1.2.(github) = true ∧
  existsb (λ a, eq_ignore_ascii_case a g.1.2.(req_token)) c.(token_allowlist) = true ∧
  0 ≠ g.2.(grant_amount) ∧ g.2.(grant_amount) ≤ c.(default_amount_limit) ∧
  ∃ bs, length bs = 20%nat ∧ g.2.(grant_address) = lit "0x" ++ hex_enc bs.

Lemma process_Ok now p s s' g :
  process_request now p s = (s', Ok g) →
  grant_ok s.(config) (now, p, g) ∧ s' = mkAppState s.(config) (<[p.(github) := now]> s.(last_requests)) ∧
  ∀ last, s.(last_requests) !! p.(github) = Some last → s.(config).(cooldown) ≤ Z.max 0 (now - last).
Proof.
  unfold process_request. intros Hp. repeat (apply bind_Ok in Hp as (? & ? & ? & Hp)). unfold_M. simplify_eq/=.
  rename select (validate_github _ = _) into Hg. rename select (parse_address _ = _) into Ha.
  rename select (validate_token _ _ = _) into Ht. rename select (validate_amount _ _ = _) into Hm.
  match goal with Hx : check_rate_limit _ _ ?st = _ |- _ => rename Hx into Hr, st into s0 end.
  unfold validate_github in Hg. destruct (is_blank _); [done|]. destruct (github_handle_re _) eqn:Hre; [|done].
  unfold validate_token in Ht. destruct (existsb _ _) eqn:Hex; [|done].
  unfold validate_amount in Hm. destruct (_ || _) eqn:Ham; [done|]. apply orb_false_iff in Ham as [H1 H2].
  unfold parse_address in Ha. res_inv. split; [split_and!; cbn; [done..|lia| |]|].
  { clean_ints. done. }
  { eexists. split; [|done]. by apply Nat.eqb_eq. }
  unfold check_rate_limit in Hr. destruct (s0.(last_requests) !! p.(github)) as [last|] eqn:Hl.
  - destruct (Z.ltb_spec (Z.max 0 (now - last)) (cooldown (config s0))); [done|]. simplify_eq. split; [done|]. by intros ? [= <-].
  - simplify_eq. done.
Qed.

Lemma process_Err now p s s' e : process_request now p s = (s', Err e) → s' = s.
Proof.
  unfold process_request, check_rate_limit, parse_address, validate_github, validate_token, validate_amount.
  unfold_M. intros Hp. repeat (case_match; simplify_eq/=); done.
Qed.

Definition same_handle_spaced (c : FaucetConfig) (g g' : Z * FaucetRequest * FaucetGrant) : Prop :=
  g.1.2.(github) = g'.1.2.(github) → g.1.1 + c.(cooldown) ≤ g'.1.1.

Lemma grants_spaced s reqs :
  0 < s.(config).(cooldown) →
  (Forall (λ g, ∀ last, s.(last_requests) !! g.1.2.(github) = Some last → last + s.(config).(cooldown) ≤ g.1.1) (grants s reqs)) ∧
  StronglySorted (same_handle_spaced s.(config)) (grants s reqs) ∧ Forall (grant_ok s.(config)) (grants s reqs).
Proof.
  revert s. induction reqs as [|[now p] reqs IH]; intros s Hc; [repeat constructor|]. cbn [grants].
  destruct (process_request now p s) as [s' [g|e]] eqn:Hp; [|apply process_Err in Hp as ->; by apply IH].
  apply process_Ok in Hp as (Hg & -> & Hlast). set (s' := mkAppState _ _). destruct (IH s' Hc) as (Hafter & Hsorted & Hok).
  change (config s') with (config s) in *. rewrite Forall_forall in Hafter. split_and!.
  - constructor; cbn.
    + intros last Hl. specialize (Hlast last Hl). lia.
    + apply Forall_forall. intros x Hx last Hl. specialize (Hafter x Hx). cbn in Hafter.
      destruct (decide (p.(github) = x.1.2.(github))) as [E|Hne].
      * rewrite <- E in *. rewrite lookup_insert_eq in Hafter. specialize (Hafter now eq_refl). specialize (Hlast last Hl). lia.
      * rewrite lookup_insert_ne in Hafter by done. by apply Hafter.
  - constructor; [done|]. apply Forall_forall. intros x Hx E. cbn in E |- *. apply (Hafter x Hx now). cbn. rewrite E.
    apply lookup_insert_eq.
  - by constructor.
Qed.

(** C36: With a positive cooldown, whatever requests arrive, every grant is for a valid handle, an allowed
    token, an address of 20 bytes and an amount of at most the limit, and two
    grants to a handle are at least the cooldown apart. *)
Theorem faucet_limits c reqs :
  0 < c.(cooldown) →
  Forall (grant_ok c) (grants (new c) reqs) ∧ StronglySorted (same_handle_spaced c) (grants (new c) reqs).
Proof. intros Hc. destruct (grants_spaced (new c) reqs Hc) as (_ & Hs & Hok). done. Qed.
End faucet.
End Faucet.

(** ** The indexer's store *)

Module Indexer.

Definition CF_BLOCKS : string := "indexed_blocks".
Definition CF_TX_INDEX : string := "tx_to_slot".
Definition CF_META : string := "indexer_meta".
Definition LATEST_SLOT : list Z := str_bytes "latest_slot".

Record IndexedBlock := mkIndexed {
  slot : Z;
  indexed_hash : H256;
  tx_count : Z;
  proposer : list Z;
  timestamp : Z;
  tx_hashes : list H256
}.

(** [bincode] on the records, and the [hex] crate in the text of an address. *)
Class IndexCodec := {
  ser_indexed : IndexedBlock → list Z;
  de_indexed : list Z → result error IndexedBlock;
  debug_address : Address → list Z;
  de_ser_indexed : ∀ r, de_indexed (ser_indexed r) = Ok r
}.

Section indexer.
Context `{Digest, Codec, BlockCodec, RocksDb, !IndexCodec}.

Definition indexed (b : Block) : IndexedBlock :=
  mkIndexed b.(header).(header_slot) (block_hash b) (Z.of_nat (length b.(transactions)))
    (debug_address b.(header).(header_proposer)) b.(header).(header_timestamp) (hash <$> b.(transactions)).

Definition ingest (b : Block) (db : DB) : result error DB :=
  let key := to_be_bytes 8 b.(header).(header_slot) in
  let batch := [Put CF_BLOCKS key (ser_indexed (indexed b))] ++
    ((λ tx, Put CF_TX_INDEX (as_bytes 32 (hash tx)) key) <$> b.(transactions)) ++ [Put CF_META LATEST_SLOT key] in
  Ok (db_write db batch).

Definition get_block (db : DB) (s : Z) : result error (option IndexedBlock) :=
  match db_get db CF_BLOCKS (to_be_bytes 8 s) with
  | Some bs => r ← de_indexed bs; mret (Some r)
  | None => Ok None
  end.

Definition slot_of_bytes (bs : list Z) : result error Z :=
  bail_if (negb (length bs =? 8)%nat) (Msg "invalid slot bytes");; mret (Storage.from_be_bytes bs).

Definition get_tx_slot (db : DB) (h : H256) : result error (option Z) :=
  match db_get db CF_TX_INDEX (as_bytes 32 h) with
  | Some bs => s ← slot_of_bytes bs; mret (Some s)
  | None => Ok None
  end.

Definition latest_slot (db : DB) : result error Z :=
  match db_get db CF_META LATEST_SLOT with Some bs => slot_of_bytes bs | None => Ok 0 end.

Definition block_count (db : DB) : result error nat := Ok (length (db_iterator db CF_BLOCKS)).

(** *** Specification: three tables. *)
Record Index := mkIndex { blocks : gmap Z IndexedBlock; txs : gmap H256 Z; latest : Z }.
Definition empty_index : Index := mkIndex ∅ ∅ 0.
Definition index_block (b : Block) (ix : Index) : Index :=
  let s := b.(header).(header_slot) in
  mkIndex (<[s := indexed b]> ix.(blocks)) (foldl (λ m tx, <[hash tx := s]> m) ix.(txs) b.(transactions)) s.

Record stores (db : DB) (ix : Index) : Prop := {
  st_blocks : ∀ s, is_u64 s → db_get db CF_BLOCKS (to_be_bytes 8 s) = ser_indexed <$> ix.(blocks) !! s;
  st_txs : ∀ h, (h < 2 ^ 256)%N → db_get db CF_TX_INDEX (as_bytes 32 h) = to_be_bytes 8 <$> ix.(txs) !! h;
  st_slots : map_Forall (λ _ s, is_u64 s) ix.(txs);
  st_latest : is_u64 ix.(latest) ∧ default (to_be_bytes 8 0) (db_get db CF_META LATEST_SLOT) = to_be_bytes 8 ix.(latest)
}.

Lemma slot_bytes_inj s s' : is_u64 s → is_u64 s' → to_be_bytes 8 s = to_be_bytes 8 s' → s = s'.
Proof. unfold to_be_bytes. intros Hs Hs' E%(inj reverse). apply to_le_bytes_inj in E; cbn; ulia. Qed.

Lemma slot_of_be s : is_u64 s → slot_of_bytes (to_be_bytes 8 s) = Ok s.
Proof.
  intros Hs. unfold slot_of_bytes, to_be_bytes. rewrite length_reverse, length_to_le_bytes. unfold_M. cbn [Nat.eqb negb].
  unfold Storage.from_be_bytes. by rewrite reverse_involutive, from_to_le_bytes by (cbn; ulia).
Qed.

(** The entries of the transactions do not touch another family, and the last
    one for a hash stands. *)
Lemma tx_entries_other cf k old key (l : list Transaction) :
  cf ≠ CF_TX_INDEX → foldl (apply_op cf k) old ((λ tx, Put CF_TX_INDEX (as_bytes 32 (hash tx)) key) <$> l) = old.
Proof.
  intros Hcf. induction l as [|tx l IH]; [done|]. cbn [fmap list_fmap foldl apply_op]. rewrite bool_decide_false; [done|].
  intros [E _]. by symmetry in E.
Qed.

Lemma tx_entries h (m : gmap H256 Z) s (l : list Transaction) :
  (h < 2 ^ 256)%N →
  foldl (apply_op CF_TX_INDEX (as_bytes 32 h)) (to_be_bytes 8 <$> m !! h)
    ((λ tx, Put CF_TX_INDEX (as_bytes 32 (hash tx)) (to_be_bytes 8 s)) <$> l) =
  to_be_bytes 8 <$> foldl (λ m tx, <[hash tx := s]> m) m l !! h.
Proof.
  intros Hh. revert m. induction l as [|tx l IH]; intros m; [done|]. cbn [fmap list_fmap foldl apply_op]. rewrite <- IH.
  f_equal. case_bool_decide as E.
  - destruct E as [_ E]. apply as_bytes_inj in E; [|pose proof (digest_range (ser_tx (unsigned tx))); unfold hash; lia|lia].
    rewrite <- E. by rewrite lookup_insert_eq.
  - rewrite lookup_insert_ne; [done|]. intros E'. rewrite E' in E. by apply E.
Qed.

Lemma foldl_slots (m : gmap H256 Z) s (l : list Transaction) :
  is_u64 s → map_Forall (λ _ s, is_u64 s) m → map_Forall (λ _ s, is_u64 s) (foldl (λ m tx, <[hash tx := s]> m) m l).
Proof. intros Hs. revert m. induction l; intros m Hm; [done|]. cbn. apply IHl. by apply map_Forall_insert_2. Qed.

(** [ingest] implements [index_block]. *)
Lemma ingest_stores b db ix :
  is_u64 b.(header).(header_slot) → stores db ix → ∃ db', ingest b db = Ok db' ∧ stores db' (index_block b ix).
Proof.
  intros Hs [Hb Ht Hsl [Hl Hlat]]. eexists. split; [done|]. set (s := b.(header).(header_slot)) in *. split.
  - intros s' Hs'. rewrite db_get_write, !foldl_app. cbn [foldl apply_op]. rewrite (bool_decide_false (CF_META = _ ∧ _)) by (by intros [? _]).
    rewrite tx_entries_other by done. cbn [index_block blocks]. fold s. case_bool_decide as E.
    + destruct E as [_ E]. apply slot_bytes_inj in E; [|done..]. subst s'. by rewrite lookup_insert_eq.
    + rewrite lookup_insert_ne by (intros ->; by apply E). by apply Hb.
  - intros h Hh. rewrite db_get_write, !foldl_app. cbn [foldl apply_op]. rewrite (bool_decide_false (CF_META = _ ∧ _)) by (by intros [? _]).
    rewrite (bool_decide_false (CF_BLOCKS = _ ∧ _)) by (by intros [? _]). rewrite (Ht h Hh). by apply tx_entries.
  - by apply foldl_slots.
  - split; [done|]. rewrite db_get_write, !foldl_app. cbn [foldl apply_op].
    by rewrite (bool_decide_true (CF_META = CF_META ∧ _)).
Qed.

Fixpoint ingest_all (bs : list Block) (db : DB) : result error DB :=
  match bs with [] => mret db | b :: bs => db ← ingest b db; ingest_all bs db end.

(** C30: After any sequence of blocks an empty store answers as the three tables do:
    the last block ingested for a slot, the slot of the last block ingested
    that has a transaction, and the slot of the last block ingested. *)
Theorem indexer_refines bs db :
  Forall (λ b, is_u64 b.(header).(header_slot)) bs → (∀ cf k, db_get db cf k = None) →
  let ix := foldl (flip index_block) empty_index bs in
  ∃ db', ingest_all bs db = Ok db' ∧ latest_slot db' = Ok ix.(latest) ∧
    (∀ s, is_u64 s → get_block db' s = Ok (ix.(blocks) !! s)) ∧
    (∀ h, (h < 2 ^ 256)%N → get_tx_slot db' h = Ok (ix.(txs) !! h)).
Proof.
  intros Hbs Hempty ix. assert (Hst : stores db empty_index).
  { split; [intros; by rewrite Hempty..|apply map_Forall_empty|]. rewrite Hempty. split; [cbn; ulia|done]. }
  assert (Hgen : ∃ db', ingest_all bs db = Ok db' ∧ stores db' ix).
  { unfold ix. clear ix Hempty. revert db Hst. generalize empty_index as i0. induction Hbs as [|b bs Hb _ IH]; intros i0 db Hst; [by exists db|].
    destruct (ingest_stores b db i0 Hb Hst) as (db1 & E & Hst1). cbn [ingest_all foldl]. rewrite E. by apply IH. }
  destruct Hgen as (db' & E & [Hb Ht Hsl [Hl Hlat]]). exists db'. split_and!; [done| | |].
  - unfold latest_slot. destruct (db_get db' CF_META LATEST_SLOT) as [v|]; cbn in Hlat.
    + rewrite Hlat. by apply slot_of_be.
    + f_equal. symmetry. apply slot_bytes_inj; [done|ulia|done].
  - intros s Hs. unfold get_block. rewrite (Hb s Hs). destruct (ix.(blocks) !! s); cbn; [by rewrite de_ser_indexed|done].
  - intros h Hh. unfold get_tx_slot. rewrite (Ht h Hh). destruct (ix.(txs) !! h) as [s|] eqn:Es; cbn; [|done].
    by rewrite slot_of_be by (by apply (Hsl h)).
Qed.
End indexer.
End Indexer.

(** ** Concrete runs *)

From S2P Require Import Toy.
From S2P Require Import ToyBlock.

Module ClientDemo.

Definition ser_demo (r : Sdk.TransferRequest) : result error (list Z) :=
  Ok (toy_ser (mkTransfer r.(Sdk.req_recipient) r.(Sdk.req_amount) r.(Sdk.req_memo))).
Definition secret : H256 := 77%N.
Definition demo_builder : Sdk.TransferBuilder := Sdk.with_amount 1000 (Sdk.to 42%N (Sdk.new Sdk.default_config)).
Definition demo_tx : Transaction :=
  match Sdk.build ser_demo demo_builder secret 0 with Ok tx => tx | Err _ => mkTx 0 0 0 [] [] [] [] [] None [] 0 0 [] end.
Definition funded : LState := put_acct (with_balance demo_tx.(sender) 5000000) (mkLState ∅ ∅).

Lemma demo_built : Sdk.build ser_demo demo_builder secret 0 = Ok demo_tx.
Proof. by vm_compute. Qed.

(** The balances after the transfer of 1000: the fee is gone, the recipient has nothing. *)
Lemma sdk_transfer_moves_nothing_witness :
  ∃ σ', tx_exec demo_tx funded = Some σ' ∧ acct σ' 42%N = acct funded 42%N ∧ (acct σ' demo_tx.(sender)).(balance) = 3000000.
Proof.
  assert (Hx : is_Some (tx_exec demo_tx funded)) by (apply (bool_decide_unpack _); by vm_compute).
  destruct Hx as [σ' Hx]. exists σ'.
  destruct (Sdk.sdk_transfer_moves_nothing ser_demo demo_builder secret 0 demo_tx funded σ' demo_built Hx) as [E Hother].
  split_and!; [done|apply Hother; by vm_compute|]. rewrite E. by vm_compute.
Defined.

Definition job_calls : list (Sdk.Setter (Value := unit)) :=
  [Sdk.JobId (lit "job-1"); Sdk.ModelHash 1%N; Sdk.InputHash 2%N; Sdk.MaxFee 0; Sdk.ExpiresAt 9].
Lemma built_job_valid_witness :
  ∃ b s, Sdk.apply_setters (Sdk.job_new (lit "http://node//")) job_calls = Ok b ∧ Sdk.to_submission b = Ok s ∧
    s.(Sdk.url) = lit "http://node/v1/jobs" ∧ 0 < s.(Sdk.body).(Sdk.jr_max_fee).
Proof.
  eexists _, _. split; [by vm_compute|]. split; [by vm_compute|]. split; [done|].
  refine (proj1 (proj2 (Sdk.built_job_valid (lit "http://node//") job_calls _ _ _ _))); by vm_compute.
Defined.

(** Two digits per byte. *)
Definition hex_digit (d : Z) : Z := if d <? 10 then 48 + d else 87 + d.
Definition digit_value (c : Z) : option Z :=
  if (48 <=? c) && (c <=? 57) then Some (c - 48)
  else if (97 <=? c) && (c <=? 102) then Some (c - 87)
  else if (65 <=? c) && (c <=? 70) then Some (c - 55) else None.
Fixpoint decode_hex (t : list Z) : option (list Z) :=
  match t with
  | [] => Some []
  | a :: b :: t => x ← digit_value a; y ← digit_value b; r ← decode_hex t; Some (16 * x + y :: r)
  | _ => None
  end.

Lemma digit_value_digit d : 0 ≤ d < 16 → digit_value (hex_digit d) = Some d.
Proof. intros Hd. unfold digit_value, hex_digit. repeat case_match; try (f_equal; lia); lia. Qed.

#[global] Program Instance demo_text : Faucet.FaucetText := {
  hex_enc bs := flat_map (λ b, [hex_digit (b / 16); hex_digit (b mod 16)]) bs;
  hex_dec := decode_hex;
  to_uppercase t := Faucet.ascii_upper <$> t
}.
Next Obligation.
  induction 1 as [|b bs Hb _ IH]; [done|]. cbn [flat_map app decode_hex].
  rewrite !digit_value_digit by (split; [apply Z.div_pos || apply Z.mod_pos_bound|apply Z.div_lt_upper_bound || apply Z.mod_pos_bound]; lia).
  cbn. cbn in IH. rewrite IH. cbn. do 2 f_equal. pose proof (Z.div_mod b 16). lia.
Qed.

Definition ask (handle : string) : Faucet.FaucetRequest :=
  Faucet.mkFaucetRequest (lit handle) (lit "0x" ++ replicate 40 49) (lit "aic") None.
Definition asked : list (Z * Faucet.FaucetRequest) :=
  [(0, ask "octocat"); (1000, ask "octocat"); (600000000000, ask "octocat"); (600000000001, ask "-bad")].

Lemma faucet_limits_witness :
  (λ g, g.1.1) <$> Faucet.grants (Faucet.new Faucet.default_config) asked = [0; 600000000000] ∧
  Forall (Faucet.grant_ok Faucet.default_config) (Faucet.grants (Faucet.new Faucet.default_config) asked) ∧
  StronglySorted (Faucet.same_handle_spaced Faucet.default_config) (Faucet.grants (Faucet.new Faucet.default_config) asked).
Proof. split; [by vm_compute|]. by apply Faucet.faucet_limits. Defined.

(** A handle of 40 characters is accepted, and one handle in two spellings is
    granted twice at once. *)
Lemma handle_of_forty : Faucet.validate_github (replicate 40 97) = Ok tt.
Proof. by vm_compute. Qed.
Lemma spelling_evades_cooldown :
  length (Faucet.grants (Faucet.new Faucet.default_config) [(0, ask "octocat"); (0, ask "Octocat")]) = 2%nat.
Proof. by vm_compute. Qed.

#[global] Instance IndexedBlock_eq_dec : EqDecision Indexer.IndexedBlock.
Proof. solve_decision. Defined.
#[global] Instance IndexedBlock_countable : Countable Indexer.IndexedBlock.
Proof.
  apply (inj_countable' (λ r, (r.(Indexer.slot), r.(Indexer.indexed_hash), r.(Indexer.tx_count), r.(Indexer.proposer),
    r.(Indexer.timestamp), r.(Indexer.tx_hashes))) (λ '(a, b, c, d, e, f), Indexer.mkIndexed a b c d e f)). by intros [].
Defined.
#[global] Program Instance demo_index : Indexer.IndexCodec := {
  ser_indexed := toy_ser; de_indexed := toy_de; debug_address a := as_bytes 20 a
}.
Next Obligation. intros. apply toy_de_ser. Qed.

Definition demo_block (s : Z) : Block :=
  mkBlock (mkBlockHeader 1 s 0 0 0 0 3%N (mkVrfProof [] []) 0) [demo_tx] None [].

Definition empty_db : @DB map_db := (∅ : gmap (string * list Z) (list Z)).

(** A block that is ingested again after a later one makes its slot the latest. *)
Lemma indexer_refines_witness :
  ∃ db', Indexer.ingest_all [demo_block 5; demo_block 3] empty_db = Ok db' ∧
    Indexer.latest_slot db' = Ok 3 ∧ is_ok (Indexer.get_block db' 5) = true ∧
    Indexer.get_tx_slot db' (hash demo_tx) = Ok (Some 3).
Proof.
  destruct (Indexer.indexer_refines [demo_block 5; demo_block 3] empty_db) as (db' & E & Hl & Hb & Ht).
  - repeat constructor; by vm_compute.
  - intros cf k. cbn. unfold map_get, empty_db. apply lookup_empty.
  - exists db'. split_and!; [done|by rewrite Hl|rewrite Hb; [done|by vm_compute]|]. rewrite Ht by (by vm_compute).
    cbn [foldl flip Indexer.index_block Indexer.txs demo_block transactions header header_slot]. by rewrite lookup_insert_eq.
Defined.
End ClientDemo.
